(* ===== verification/_CoqProject ===== *)
-Q . S2P
Prelude.v
Containers.v
Core.v
Generation.v
Switch.v
Authority.v
Evidence.v
Topology.v
Bytes.v
Integrity.v
Records.v
Wire.v
Decision.v
Plan.v
Payloads.v
Journal.v
Policy.v
Closures.v
Candidates.v
Search.v
Partition.v
Assign.v
Planner.v
Validator.v
Session.v
Frame.v
Messages.v
Coordinator.v
Failover.v
Entries.v
Runtime.v
Fencing.v
Restart.v
Lineage.v
Applying.v
Restoring.v
Stopping.v
Proposing.v
Scenarios.v
Fixture.v
Server.v
Socket.v
Pool.v
Client.v
CommandLine.v
Driver.v
Remote.v
Commands.v
Query.v
Serve.v
Replay.v
Demo.v
Selftest.v
