(* ===== verification/Prelude.v ===== *)
(** * Verification of the Switch Failover Fabric runtime

    The runtime decides which switch generations of a network may be used,
    which forwarding dependents (ports, links, paths, services) hold authority
    on them, and what has to be fenced when a generation fails. This library
    models its data and decision components, its durable storage, the
    coordinator that composes them, its transport and the command line driver
    on top as executable Rocq functions and proves what makes them correct.

    ** The program and its parts

    Everything is keyed by generation-qualified switch identities
    (core/identity). Observations about a generation enter the evidence store;
    [assess_switch] adjudicates them, together with the durable failure table,
    into a health assessment that says whether the generation is usable and
    whether it must be fenced (model/evidence). The topology snapshot turns
    declared links, paths and dependency edges into a graph and computes, under
    budgets, which dependents a failed generation affects (model/topology). The
    authority registry mints, withdraws and fences grants and answers whether a
    dependent currently has authority (model/authority). A coordinator
    (runtime) composes these with a planner (plan), persists failures, fences,
    grants and withdrawals as integrity-checked records in a journal (persist)
    and serves clients over framed messages (transport). The driver sffctl
    (tools) runs a coordinator over a synthetic fabric, serves it to clients,
    queries it from the other side and replays a journal.

    ** Files

    - [Prelude]: machine integers with their wrap-around, list facts, strict
      orders as classes ([Ordered], [StrictTotal]), tactics and hint databases.
    - [Containers]: the parts of the C++ standard library the code uses
      (std::sort, unique, lower_bound, map and set) as functions on lists.
    - [Core]: core/outcome (Code, Status, Result), core/limits and
      core/checked, core/identity with the 128-bit digest.
    - [Generation]: model/generation, generation vectors as canonical sets.
    - [Switch]: model/switch, descriptors, health and administrative states.
    - [Authority]: model/authority; [AuthorityRegistry] is the registry state,
      one function per public method (each holds the mutex for its whole body,
      so each is one step); histories are sequences of any calls
      ([registry_call]) or of those that do not exhaust the grant identities
      ([registry_step]).
    - [Evidence]: model/evidence; the bounded store ([admit_record] is
      EvidenceStore::admit), the failure table and [assess_switch], whose loop
      over the records is [scan_record] and [scan_kind].
    - [Topology]: model/topology; [build] is TopologySnapshot::build, split at
      the code's own stages, [closure_from] the bounded breadth-first search.
    - [Bytes]: codec/bytes; writer operations on the writer state, readers in
      the state monad [ReaderM], and the class [WireFormat] that states what
      the reader of a value promises to the decoders built from it.
    - [Integrity]: codec/integrity; CRC-32 with its table.
    - [Records]: persist/records, the framing of durable records.
    - [Wire]: laws of documents and of their parts for decoders that are
      written as sequences of reads, and the tactics that apply them.
    - [Decision]: model/decision and core/log; explanations, decision records,
      and one bounded log for events and decisions.
    - [Plan]: plan/plan; candidates, steps, plans with their digest, preference
      order and document.
    - [Payloads]: persist/records, the payload codecs, as clients of
      [WireFormat].
    - [Journal]: persist/store; the durable store over a disk of byte files,
      with the answers of the operating system as arguments.
    - [Policy]: runtime/policy, the policy document.
    - [Closures]: closures of several roots against closures of each alone.
    - [Candidates]: plan/planner and [evaluate_demand] of plan/planning_core;
      candidate tables, planning inputs and the admissibility of alternatives.
    - [Search]: the bounded backtracking search of one component of demands.
    - [Partition]: disjoint sets and the grouping of demands.
    - [Assign]: the assignment phase of the planner, from the capacity table to
      the loop over the components.
    - [Planner]: build_demand_plan, plan_internal, plan_reconstruction and the
      reference solver.
    - [Validator]: plan/validator; every method is a function on the report,
      and the class [Passes] says which condition a sequence of checks demands.
    - [Session]: runtime/session; the session table and the consumption of
      request sequence numbers, one function per public method.
    - [Frame]: transport/frame, the framing of messages; the decoder of one
      frame, the stream decoder, and the receiving loop of a connection
      ([stream_run], from transport/server).
    - [Messages]: transport/frame, the payload codecs, with the class
      [PayloadCodec] that states what each of them promises.
    - [Coordinator]: runtime/coordinator; the record [Coordinator] is
      Coordinator::Impl with the disk beside it, a method is a function of the
      state-and-error monad [Op], and the class [World] holds what the runtime
      reads from its environment: clock readings, answers of the file system
      and the entropy of a boot.
    - [Failover]: runtime/failover, the pipeline from evidence to restoration.
    - [Entries]: what the runtime writes to its journal.
    - [Runtime]: requests and runs ([serve], [serve_all]); the class [Serves]
      states what a relation between states has to satisfy on the primitive
      steps so that it relates the states before and after every request, and
      its instances are the guarantees of whole runs.
    - [Fencing], [Restart], [Lineage], [Applying], [Restoring], [Stopping],
      [Proposing]: the guarantees of the methods, one file per concern.
    - [Scenarios]: a fabric run from start to restart by computation; it
      instantiates the hypotheses of the runtime's theorems.
    - [Fixture]: build_fixture of tools/sffctl, for every order std::shuffle
      can put its inputs in.
    - [Server]: transport/server, the conversation with one client; the
      handler, the reads and the answers of the writes are arguments.
    - [Socket]: transport/socket, guarded handles and the sending, receiving
      and accepting loops over the answers of the system calls.
    - [Pool]: transport/server, its threads; a step is what one thread does
      under the mutex, the acceptor, the workers and the callers of stop
      interleave freely.
    - [Client]: transport/client; what the network does to an exchange is an
      argument.
    - [CommandLine], [Commands], [Query], [Serve], [Replay], [Demo],
      [Selftest]: tools/sffctl; a command is a function from its command line and machine
      to the lines it writes and its exit code. [Driver] is the handler of the
      serve command, [Remote] composes it with the server and the client.

    Sources are named relative to src/ (headers in include/sff). Definitions
    keep the names of the code; where a method name is taken by several
    classes, the class is in the name ([link_digest], [write_u32]). Where a
    C++ function mutates its object, the model returns the new state next to
    the result. Enumerations are inductive types, with their raw values as
    functions; a field that can hold an undefined raw value after decoding is
    kept raw ([rh_kind]).

    ** What the theorems show

    - Authority: a query answers true exactly when there is an active grant and
      no generation bound by an active grant is fenced
      ([query_authority_exact]); a fenced generation never carries authority
      again, after any calls, not even once it has recovered
      ([fenced_generation_is_final]); withdrawn grants stay withdrawn, a
      restart withdraws everything, expiry changes no answer, and the registry
      keeps its structural invariant as long as its 64-bit grant identities are
      not exhausted.
    - Evidence: a generation is reported usable only on fresh authoritative
      proof that answers every authoritative failure assertion, authoritative
      and durable failures force a fence, advisory evidence decides nothing, and
      the store keeps its bounds and isolation.
    - Topology: snapshots are well formed; a closure is sound, complete unless
      it says it is truncated, bounded by its budgets, and not truncated when
      the budgets are ample.
    - Codec: documents round-trip, every proper prefix is refused as
      Truncated, reading is total and canonical, the writer fails closed.
    - Planning: the alternatives considered are exactly the admissible ones
      ([eligible_alternatives_exact]); the assignment respects every capacity
      and is the best one whenever it is claimed to be, although demands are
      searched component by component and cheap cases skip the search
      ([demand_assignment_optimal]); a plan covers exactly the affected
      dependents, restores them safely, concludes only what it has proved and
      equals the plan of the exhaustive solver ([plan_scope_exact],
      [plan_restores_safe], [plan_verdict_sound],
      [planner_matches_reference]).
    - Validation: [plan_acceptable] is the abstract specification of a plan
      that may be applied, which leaves the cost, evidence and hops of a step
      unrelated to the supplied alternatives; the validator decides it exactly
      ([validator_accepts_exactly]), and the planner's plans meet it when their
      links are installed and no single closure was cut short
      ([planner_output_validates]).
    - Storage: records round-trip, a torn append is recognised as such at
      every cut, and every burst of up to 32 bits of damage is refused; a
      journal no append of which failed before recovers exactly the records
      before a crash, damage is never repaired, and snapshots and journals are
      replaced atomically.
    - Sessions: no history accepts a request sequence number twice on a
      session ([session_replay_safe]); a request is let through exactly under
      the current epoch and boot digest ([authorise_exact]); the table is well
      formed and bounded after any history.
    - Transport: messages are delivered whole, in order and under their
      authority binding, however the network cuts the bytes
      ([messages_delivered]); arbitrary bytes never yield a frame that was not
      sent ([stream_delivers_only_what_was_sent]); failure is sticky; each
      payload codec is a bijection ([message_payload_canonical]).
    - Runtime: a declared failure is final for the run
      ([declared_failure_is_final]) and a fence it newly recorded survives any
      number of incarnations that end between or inside writes
      ([fence_survives_restart] over [aftermath]); a restart confers no
      authority, and all authority of a run was minted under its own identity
      ([restart_confers_no_authority]), which no two incarnations on a disk
      share as long as writes succeed ([incarnations_numbered]); plans are proposed, retained and evicted
      within bounds ([proposed_plan_retained]); a receipt says what was applied
      and on what grounds ([apply_plan_receipt]); a dependent is restored only
      under the stated conditions, and exactly then when it was re-bound to one
      replacement ([restore_decision_exact]), and an effect counts as verified
      only on a verification record ([restored_means_verified]); shutdown is
      final for what begins after it ([shutdown_is_final]), and opening always
      answers ([open_answers]).
    - Connections: a conversation answers every request once, in order and
      under the request's own binding, where an error response fits a frame
      ([server_answers_every_frame]); a stop from outside the server always
      finishes, from every reachable interleaving, and closes every handle
      ([stop_always_finishes]); an accepted connection is served
      by at most one worker ([connections_served_once]); a client never uses a
      sequence number twice ([client_never_replays]).
    - Driver: a request is served only when the session table lets it through,
      and never twice ([driver_requires_authority]); what serve declared failed
      stays so whatever its clients send ([served_failure_stays]); the query
      command prints exactly the coordinator's answer, across client, network
      and server ([query_command_truthful]); a replay shows every committed
      failure ([replay_shows_failure]); the plan command depends on its seed in
      nothing but the line that repeats it ([plan_ignores_seed]); the
      demonstration reports the fence and never an unverified effect
      ([demo_reports_truthfully]); the program's own test passes its 59 checks
      when run on the model ([selftest_passes]), and its safety checks pass on
      every machine ([selftest_safe_checks_pass]).
    - Theorems of the form "the code does X where its documentation says Y"
      (the last ones of [Authority], [Evidence], [Topology], [Journal],
      [Planner], [Validator], [Session], [Scenarios], [Socket] and [Commands])
      record divergences
      found while modelling, on concrete inputs.

    ** Loops and fuel

    The loops that are not structural take fuel. The closure loop gets one
    unit per node of the snapshot, as each iteration dequeues a node that was
    enqueued at most once; [closure_sound_and_complete] includes that the loop
    always ends. The replay loop gets one unit per byte of the journal and one
    more, as each iteration that continues consumes a whole record;
    [replay_exact] includes that it always ends. Finding a root in a disjoint
    set gets one unit more than the index it starts at, as parents never exceed
    their children ([find_spec]). The search of the planner recurses on the
    list of demands; its budget is the one of the code. Draining the stream
    decoder gets one unit per buffered byte, as every frame taken out is at
    least 56 bytes long ([drain_conforming]). The eviction of plans gets one
    unit per retained plan, as each iteration erases one ([evict_plans_spec]).
    Answering the frames buffered on a connection gets one unit per buffered
    byte and one more, for the same reason as draining.

    ** What is not modelled

    Clocks, entropy, process identifiers, path resolution and file I/O results
    are arguments of the operations that use them, or members of [World].
    std::sort is modelled as a stable sort. Allocation failure is not modelled.
    A method of the coordinator is one atomic step, as it holds the state mutex;
    shutdown does not take that mutex, and its interleaving with a method in
    progress is not modelled: what is proved of states with the stopped flag set
    holds whatever such a method does, the rest of [shutdown_is_final] when there
    is none. Reading the journal delivers the whole file: a read error, which the
    source takes for the end of the file, is not modelled. Two threads outside
    the server inside stop at once, which join the same thread objects, are not
    modelled. The validator takes declared values of its enumerations and an
    installed topology. The handler of the serve command handles one request at a
    time; the source runs it on two workers. Of the transport, the creation of threads and the
    set-up of sockets (socket options, address resolution, connecting,
    listening and polling) are answers of the system or events; a conversation
    whose handle was closed is taken to return. The example programs, scripts
    over the operations modelled here, are left out, and core/clock only reads
    the system's clock. *)

From stdpp Require Export base list strings sorting sets relations.
From Stdlib Require Export ZArith Lia.

#[global] Open Scope Z_scope.

(** * Tactics of the development *)

(** Turn boolean tests of the code into propositions about integers. *)
Create Rewrite HintDb sffbool.
#[export] Hint Rewrite Z.eqb_eq Z.eqb_neq Z.ltb_lt Z.ltb_ge Z.leb_le Z.leb_gt
  andb_true_iff andb_false_iff orb_true_iff orb_false_iff
  negb_true_iff negb_false_iff bool_decide_eq_true bool_decide_eq_false : sffbool.

Ltac bool_prop := autorewrite with sffbool in *.

(** Split one `if`/`match` of the goal or of a hypothesis, keeping its equation. *)
Ltac split_test :=
  match goal with
  | |- context [if ?b then _ else _] => destruct b eqn:?
  | H : context [if ?b then _ else _] |- _ => destruct b eqn:?
  end.

Ltac split_match :=
  match goal with
  | |- context [match ?x with _ => _ end] => destruct x eqn:?
  | H : context [match ?x with _ => _ end] |- _ => destruct x eqn:?
  end.

(** * Machine integers

    A w-bit unsigned integer of the source is a [Z] in [0, 2^w); arithmetic
    that the source leaves unchecked is reduced modulo 2^w here. *)

Definition two8 : Z := 256.
Definition two16 : Z := 65536.
Definition two32 : Z := 4294967296.
Definition two64 : Z := 18446744073709551616.
Definition UINT64_MAX : Z := two64 - 1.
Definition SIZE_MAX : Z := UINT64_MAX.

Definition in_u8 (x : Z) : Prop := 0 <= x < two8.
Definition in_u16 (x : Z) : Prop := 0 <= x < two16.
Definition in_u32 (x : Z) : Prop := 0 <= x < two32.
Definition in_u64 (x : Z) : Prop := 0 <= x < two64.

Definition wrap8 (x : Z) : Z := x mod two8.
Definition wrap16 (x : Z) : Z := x mod two16.
Definition wrap32 (x : Z) : Z := x mod two32.
Definition wrap64 (x : Z) : Z := x mod two64.
Definition add64 (a b : Z) : Z := wrap64 (a + b).
Definition sub64 (a b : Z) : Z := wrap64 (a - b).
Definition mul64 (a b : Z) : Z := wrap64 (a * b).

Create HintDb ints.
#[export] Hint Unfold two8 two16 two32 two64 UINT64_MAX SIZE_MAX
  in_u8 in_u16 in_u32 in_u64 wrap8 wrap16 wrap32 wrap64 add64 sub64 mul64 : ints.

Ltac ints := autounfold with ints in *.

(** Arithmetic on machine integers: unfold the widths and call [lia]. *)
Ltac ints_lia := ints; lia.

Lemma wrap64_range x : in_u64 (wrap64 x).
Proof. ints. apply Z.mod_pos_bound. lia. Qed.

Lemma wrap64_small x : in_u64 x -> wrap64 x = x.
Proof. intros. ints. apply Z.mod_small. lia. Qed.

Lemma add64_small a b : 0 <= a + b < two64 -> add64 a b = a + b.
Proof. intros. apply wrap64_small. exact H. Qed.

(** [size_t] of a container. *)
Definition zlen {A} (l : list A) : Z := Z.of_nat (length l).

Lemma zlen_nil {A} : zlen (@nil A) = 0.
Proof. reflexivity. Qed.

Lemma zlen_cons {A} (x : A) l : zlen (x :: l) = zlen l + 1.
Proof. unfold zlen. simpl length. lia. Qed.

Lemma zlen_app {A} (l k : list A) : zlen (l ++ k) = zlen l + zlen k.
Proof. unfold zlen. rewrite length_app. lia. Qed.

Lemma zlen_nonneg {A} (l : list A) : 0 <= zlen l.
Proof. unfold zlen. lia. Qed.

Lemma empty_iff {A} (l : list A) : l = [] <-> forall x, x ∉ l.
Proof. split; [intros -> x; apply not_elem_of_nil|apply elem_of_nil_inv]. Qed.

Lemma exists_nil {A} (P : A -> Prop) : (exists y, y ∈ [] /\ P y) <-> False.
Proof. split; [|done]. by intros (? & ?%elem_of_nil & _). Qed.

Lemma exists_cons {A} (P : A -> Prop) x l :
  (exists y, y ∈ x :: l /\ P y) <-> P x \/ exists y, y ∈ l /\ P y.
Proof.
  split.
  - intros (y & [->|]%elem_of_cons & ?); eauto.
  - intros [?|(y & ? & ?)]; [exists x|exists y]; rewrite elem_of_cons; auto.
Qed.

Lemma filter_all {A} (P : A -> Prop) `{!forall x, Decision (P x)} (l : list A) :
  (forall x, x ∈ l -> P x) -> filter P l = l.
Proof.
  induction l as [|x l IH]; [done|]. intros Hall. rewrite filter_cons, decide_True.
  - f_equal. apply IH. intros y Hy. apply Hall. by right.
  - apply Hall. left.
Qed.

Create Rewrite HintDb zlen.
#[export] Hint Rewrite @zlen_nil @zlen_cons @zlen_app : zlen.

(** * Strict total orders: the [operator<] of the identity types *)

Class StrictTotal {A} (less : A -> A -> bool) : Prop := {
  less_irrefl : forall a, less a a = false;
  less_trans : forall a b c, less a b = true -> less b c = true -> less a c = true;
  less_total : forall a b, less a b = false -> less b a = false -> a = b
}.

Class Ordered (A : Type) := {
  ltb : A -> A -> bool;
  ordered_strict :: StrictTotal ltb
}.

#[global] Arguments ltb {A _} _ _ : simpl never.

Section strict_total.
Context {A : Type} (less : A -> A -> bool) {ok : StrictTotal less}.

Lemma less_asym a b : less a b = true -> less b a = false.
Proof.
  intros H. destruct (less b a) eqn:E; [|done].
  pose proof (less_trans _ _ _ H E). by rewrite less_irrefl in *.
Qed.

Lemma less_ne a b : less a b = true -> a <> b.
Proof. intros H ->. by rewrite less_irrefl in H. Qed.

Lemma less_cases a b : less a b = true \/ a = b \/ less b a = true.
Proof.
  destruct (less a b) eqn:E1; [by left|]. destruct (less b a) eqn:E2; [auto|].
  right; left. by apply less_total.
Qed.

Lemma less_false_trans a b c : less a b = true -> less c b = false -> less a c = true.
Proof.
  intros Hab Hcb. destruct (less_cases b c) as [H| [->|H]].
  - eapply less_trans; eauto.
  - done.
  - congruence.
Qed.
End strict_total.

#[export] Instance Z_strict_total : StrictTotal Z.ltb.
Proof. split; intros; lia. Qed.

#[export] Instance Z_ordered : Ordered Z := {| ltb := Z.ltb |}.

(** Lexicographic order of two fields: `if (a.x != b.x) return a.x < b.x; return a.y < b.y;` *)
Definition pair_less {A B} `{Ordered A, EqDecision A, Ordered B} (p q : A * B) : bool :=
  if bool_decide (p.1 = q.1) then ltb p.2 q.2 else ltb p.1 q.1.

#[export] Instance pair_strict_total {A B} `{Ordered A, EqDecision A, Ordered B} :
  StrictTotal (@pair_less A B _ _ _).
Proof.
  unfold pair_less. split.
  - intros [a b]. rewrite bool_decide_eq_true_2 by done. apply less_irrefl.
  - intros [a1 b1] [a2 b2] [a3 b3]; simpl. intros H12 H23.
    repeat case_bool_decide; subst; try congruence; try (eapply less_trans; eassumption).
    rewrite (less_asym ltb _ _ H12) in H23. congruence.
  - intros [a1 b1] [a2 b2]; simpl. intros H12 H21.
    repeat case_bool_decide; subst; try congruence.
    + f_equal. by apply less_total.
    + by pose proof (less_total (less := ltb) _ _ H12 H21).
Qed.

#[export] Instance pair_ordered {A B} `{Ordered A, EqDecision A, Ordered B} : Ordered (A * B) :=
  {| ltb := pair_less |}.

(** Orders pulled back along an injection (records ordered by their fields). *)
Lemma strict_total_inj {A B} (f : A -> B) (less : B -> B -> bool) `{!StrictTotal less} :
  Inj (=) (=) f -> StrictTotal (fun a b => less (f a) (f b)).
Proof.
  intros Hinj. split; intros.
  - apply less_irrefl.
  - eapply less_trans; eauto.
  - apply Hinj. by apply less_total.
Qed.

(** [operator<] of [std::vector]: lexicographic. *)
Fixpoint vector_less {A} `{Ordered A, EqDecision A} (l k : list A) : bool :=
  match l, k with
  | [], [] => false
  | [], _ :: _ => true
  | _ :: _, [] => false
  | x :: l', y :: k' => if bool_decide (x = y) then vector_less l' k' else ltb x y
  end.

#[export] Instance vector_strict_total {A} `{Ordered A, EqDecision A} :
  StrictTotal (@vector_less A _ _).
Proof.
  split.
  - induction a; simpl; [done|]. by rewrite bool_decide_eq_true_2.
  - induction a as [|x a IH]; intros [|y b] [|z c]; simpl; try done.
    intros H12 H23. repeat case_bool_decide; subst; try congruence; eauto.
    + by rewrite (less_asym ltb _ _ H12) in H23.
    + eapply less_trans; eauto.
  - induction a as [|x a IH]; intros [|y b]; simpl; try done.
    intros H12 H21. repeat case_bool_decide; subst; try congruence.
    + f_equal. by apply IH.
    + by pose proof (less_total (less := ltb) _ _ H12 H21).
Qed.

#[export] Instance vector_ordered {A} `{Ordered A, EqDecision A} : Ordered (list A) :=
  {| ltb := vector_less |}.
