(* ===== verification/Containers.v ===== *)
(** The parts of the C++ standard library the runtime uses, as executable
    functions: [std::sort], [std::unique], [std::lower_bound] and
    [std::binary_search] on vectors, and [std::map]/[std::set] as association
    lists kept in key order, so that iteration is in the order of the source. *)

From S2P Require Import Prelude.

(** * Sorting and de-duplication *)

Section sorting.
Context {A : Type} (less : A -> A -> bool).

Fixpoint insert_before (x : A) (l : list A) : list A :=
  match l with
  | [] => [x]
  | y :: l' => if less y x then y :: insert_before x l' else x :: l
  end.

(** [std::sort]; equivalent elements keep their input order. *)
Fixpoint std_sort (l : list A) : list A :=
  match l with
  | [] => []
  | x :: l' => insert_before x (std_sort l')
  end.

(** [std::is_sorted]: no element precedes a smaller one. *)
Fixpoint is_sorted (l : list A) : bool :=
  match l with
  | x :: (y :: _) as l' => negb (less y x) && is_sorted l'
  | _ => true
  end.

(** Index of the first element that is not less than [x]: the partition
    point [std::lower_bound] returns on a range sorted by [less]. *)
Fixpoint lower_bound_with {B} (below : B -> bool) (l : list B) : nat :=
  match l with
  | [] => 0%nat
  | y :: l' => if below y then S (lower_bound_with below l') else 0%nat
  end.

Definition lower_bound (l : list A) (x : A) : nat :=
  lower_bound_with (fun y => less y x) l.

Definition insert_at (i : nat) (x : A) (l : list A) : list A :=
  take i l ++ x :: drop i l.

(** [std::binary_search]: the element at the lower bound is equivalent to [x]. *)
Definition binary_search (l : list A) (x : A) : bool :=
  match l !! lower_bound l x with
  | Some y => negb (less x y)
  | None => false
  end.
End sorting.

Section unique.
Context {A : Type} (eqf : A -> A -> bool).

(** [std::unique]: drop each element equal to the last one kept. *)
Fixpoint unique_from (last : A) (l : list A) : list A :=
  match l with
  | [] => []
  | x :: l' => if eqf last x then unique_from last l' else x :: unique_from x l'
  end.

Definition std_unique (l : list A) : list A :=
  match l with
  | [] => []
  | x :: l' => x :: unique_from x l'
  end.
End unique.

Definition sort_and_dedupe {A} `{Ordered A, EqDecision A} (l : list A) : list A :=
  std_unique (fun a b => bool_decide (a = b)) (std_sort ltb l).

(** [std::find] on a vector, as membership. *)
Definition vector_has {A} `{EqDecision A} (x : A) (l : list A) : bool := bool_decide (x ∈ l).

(** * Facts about sorting *)

Definition sorted_by {A} (less : A -> A -> bool) : list A -> Prop :=
  StronglySorted (fun a b => less b a = false).

(** Strictly increasing: the canonical form of every de-duplicated vector. *)
Definition canonical {A} `{Ordered A} : list A -> Prop :=
  StronglySorted (fun a b => ltb a b = true).

Section sort_facts.
Context {A : Type} (less : A -> A -> bool) {ok : StrictTotal less}.

Lemma insert_before_perm x l : insert_before less x l ≡ₚ x :: l.
Proof.
  induction l as [|y l IH]; simpl; [done|]. split_test; [|done].
  rewrite IH. by constructor.
Qed.

Lemma std_sort_perm l : std_sort less l ≡ₚ l.
Proof.
  induction l as [|x l IH]; simpl; [done|]. by rewrite insert_before_perm, IH.
Qed.

Lemma elem_of_std_sort x l : x ∈ std_sort less l <-> x ∈ l.
Proof. by rewrite std_sort_perm. Qed.

Lemma insert_before_sorted x l : sorted_by less l -> sorted_by less (insert_before less x l).
Proof.
  induction 1 as [|y l Hs IH Hall]; simpl; [repeat constructor|]. split_test.
  - constructor; [done|]. rewrite insert_before_perm. constructor; [|done].
    by apply less_asym.
  - constructor; [by constructor|]. constructor; [done|].
    eapply Forall_impl; [exact Hall|]. simpl. intros z Hz.
    destruct (less z x) eqn:E; [|done].
    by rewrite (less_false_trans less z x y E) in Hz by done.
Qed.

Lemma std_sort_sorted l : sorted_by less (std_sort less l).
Proof. induction l; simpl; [constructor|]. by apply insert_before_sorted. Qed.
End sort_facts.

(** ** Sorting by a key: records that agree on the key are equivalent *)

Section key_sorting.
Context {A K : Type} `{Ordered K} (f : A -> K).
Abbreviation by_key := (fun a b => ltb (f a) (f b)).

Lemma insert_key_perm x l : insert_before by_key x l ≡ₚ x :: l.
Proof.
  induction l as [|y l IH]; simpl; [done|]. split_test; [|done].
  rewrite IH. by constructor.
Qed.

Lemma std_sort_key_perm l : std_sort by_key l ≡ₚ l.
Proof. induction l as [|x l IH]; simpl; [done|]. by rewrite insert_key_perm, IH. Qed.

Lemma insert_key_sorted x l : sorted_by by_key l -> sorted_by by_key (insert_before by_key x l).
Proof.
  induction 1 as [|y l Hs IH Hall]; simpl; [repeat constructor|]. split_test.
  - constructor; [done|]. rewrite insert_key_perm. constructor; [|done].
    by apply (less_asym ltb).
  - constructor; [by constructor|]. constructor; [done|].
    eapply Forall_impl; [exact Hall|]. simpl. intros z Hz.
    destruct (ltb (f z) (f x)) eqn:E; [|done].
    by rewrite (less_false_trans ltb _ _ (f y) E) in Hz by done.
Qed.

Lemma std_sort_key_sorted l : sorted_by by_key (std_sort by_key l).
Proof. induction l; simpl; [constructor|]. by apply insert_key_sorted. Qed.

Context `{EqDecision K} (eqf : A -> A -> bool) (Heqf : forall a b, eqf a b = true <-> f a = f b).

Lemma unique_from_key last l : sorted_by by_key (last :: l) ->
  StronglySorted (fun a b => ltb (f a) (f b) = true) (last :: unique_from eqf last l) /\
  (forall x, x ∈ unique_from eqf last l -> x ∈ l) /\
  (forall x, x ∈ l -> exists y, y ∈ last :: unique_from eqf last l /\ f y = f x).
Proof.
  revert last. induction l as [|y l IH]; intros last Hs; simpl.
  { split; [repeat constructor|]. split; [done|]. by intros x ?%not_elem_of_nil. }
  apply StronglySorted_inv in Hs as [Hs Hall]. inversion Hall as [|? ? Hy Hl]; subst.
  destruct (eqf last y) eqn:E.
  - apply Heqf in E. destruct (IH last) as (H1 & H2 & H3).
    { apply StronglySorted_inv in Hs as [? ?]. by constructor. }
    split; [done|]. split; [intros x ?%H2; by right|].
    intros x [->|Hx]%elem_of_cons; [exists last; split; [by left|done]|by apply H3].
  - assert (Hne : f last <> f y) by (intros Hf; apply Heqf in Hf; congruence).
    assert (Hly : ltb (f last) (f y) = true).
    { destruct (less_cases ltb (f last) (f y)) as [?|[?|?]]; congruence. }
    destruct (IH y Hs) as (H1 & H2 & H3). split; [|split].
    + constructor; [done|]. apply StronglySorted_inv in H1 as [_ H1]. constructor; [done|].
      eapply Forall_impl; [exact H1|]. simpl. intros z Hz. eapply less_trans; eauto.
    + intros x [->|?%H2]%elem_of_cons; [by left|by right].
    + intros x [->|Hx]%elem_of_cons; [exists y; split; [by right; left|done]|].
      destruct (H3 x Hx) as (z & Hz & ?). exists z. split; [by right|done].
Qed.

Lemma std_unique_key l : sorted_by by_key l ->
  StronglySorted (fun a b => ltb (f a) (f b) = true) (std_unique eqf l) /\
  (forall x, x ∈ std_unique eqf l -> x ∈ l) /\
  (forall x, x ∈ l -> exists y, y ∈ std_unique eqf l /\ f y = f x).
Proof.
  destruct l as [|x l]; [repeat split; [constructor|done|by intros x ?%not_elem_of_nil]|].
  intros Hs. destruct (unique_from_key x l Hs) as (H1 & H2 & H3). simpl. split; [done|]. split.
  - intros y [->|?%H2]%elem_of_cons; [by left|by right].
  - intros y [->|?%H3]%elem_of_cons; [exists x; split; [by left|done]|done].
Qed.
End key_sorting.

Section canonical_facts.
Context {A : Type} `{Ordered A, EqDecision A}.
Implicit Types l k : list A.

Abbreviation eqf := (fun a b : A => bool_decide (a = b)).

Lemma elem_of_unique_from x last l :
  x ∈ last :: unique_from eqf last l <-> x ∈ last :: l.
Proof.
  revert last. induction l as [|y l IH]; intros last; simpl; [done|].
  case_bool_decide; subst.
  - rewrite IH, !elem_of_cons. tauto.
  - rewrite elem_of_cons, IH, !elem_of_cons. tauto.
Qed.

Lemma elem_of_sort_and_dedupe x l : x ∈ sort_and_dedupe l <-> x ∈ l.
Proof.
  unfold sort_and_dedupe. rewrite <- (elem_of_std_sort ltb x l).
  destruct (std_sort ltb l) as [|y k]; simpl; [done|]. apply elem_of_unique_from.
Qed.

Lemma unique_from_canonical last l :
  sorted_by ltb (last :: l) -> canonical (last :: unique_from eqf last l).
Proof.
  revert last. induction l as [|y l IH]; intros last Hs; simpl.
  { repeat constructor. }
  apply StronglySorted_inv in Hs as [Hs Hall]. inv Hall.
  case_bool_decide; subst; [by apply IH|].
  constructor; [by apply IH|].
  apply Forall_forall. intros z Hz. rewrite elem_of_unique_from in Hz.
  assert (Hly : ltb last y = true).
  { destruct (less_cases ltb last y) as [?|[?|?]]; congruence. }
  apply StronglySorted_inv in Hs as [_ Hall]. rewrite Forall_forall in Hall.
  apply elem_of_cons in Hz as [->|Hz]; [done|].
  by apply (less_false_trans ltb last y z Hly), Hall.
Qed.

Lemma sort_and_dedupe_canonical l : canonical (sort_and_dedupe l).
Proof.
  unfold sort_and_dedupe. pose proof (std_sort_sorted ltb l) as Hs.
  destruct (std_sort ltb l); simpl; [constructor|]. by apply unique_from_canonical.
Qed.

Lemma canonical_NoDup l : canonical l -> NoDup l.
Proof.
  induction 1 as [|x l Hs IH Hall]; constructor; [|done].
  intros Hx. rewrite Forall_forall in Hall. specialize (Hall x Hx).
  by rewrite less_irrefl in Hall.
Qed.

Lemma canonical_inv x l :
  canonical (x :: l) -> canonical l /\ (forall y, y ∈ l -> ltb x y = true).
Proof. intros Hs. apply StronglySorted_inv in Hs as [? Hall]. by rewrite Forall_forall in Hall. Qed.

Lemma canonical_cons x l :
  canonical l -> (forall y, y ∈ l -> ltb x y = true) -> canonical (x :: l).
Proof. intros Hs Hall. constructor; [done|]. by apply Forall_forall. Qed.

(** Canonical vectors with the same elements are the same vector. *)
Lemma canonical_ext l k : canonical l -> canonical k -> (forall x, x ∈ l <-> x ∈ k) -> l = k.
Proof.
  revert k. induction l as [|x l IH]; intros [|y k] Hl Hk Hext; [done|..].
  - exfalso. eapply not_elem_of_nil, Hext. left.
  - exfalso. eapply not_elem_of_nil, Hext. left.
  - apply canonical_inv in Hl as [Hl Hxl]. apply canonical_inv in Hk as [Hk Hyk].
    assert (x = y) as ->.
    { assert (Hx : x ∈ y :: k) by (apply Hext; left).
      assert (Hy : y ∈ x :: l) by (apply Hext; left).
      apply elem_of_cons in Hx as [->|Hx]; [done|].
      apply elem_of_cons in Hy as [->|Hy]; [done|].
      pose proof (less_asym ltb _ _ (Hxl _ Hy)). rewrite (Hyk _ Hx) in *. done. }
    f_equal. apply IH; [done..|]. intros z. specialize (Hext z).
    rewrite !elem_of_cons in Hext.
    split; intros Hz.
    + destruct Hext as [Hext _]. destruct Hext as [->|]; auto.
      specialize (Hxl _ Hz). by rewrite less_irrefl in Hxl.
    + destruct Hext as [_ Hext]. destruct Hext as [->|]; auto.
      specialize (Hyk _ Hz). by rewrite less_irrefl in Hyk.
Qed.

Lemma length_unique_from last l : (length (unique_from eqf last l) <= length l)%nat.
Proof.
  revert last. induction l as [|x l IH]; intros last; simpl; [done|].
  split_test; simpl; [etrans; [apply IH|lia]|]. specialize (IH x). lia.
Qed.

Lemma length_sort_and_dedupe l : (length (sort_and_dedupe l) <= length l)%nat.
Proof.
  unfold sort_and_dedupe, std_unique. rewrite <- (Permutation_length (std_sort_perm ltb l)).
  destruct (std_sort ltb l) as [|x k]; simpl; [done|]. pose proof (length_unique_from x k). lia.
Qed.

Lemma sort_and_dedupe_id l : canonical l -> sort_and_dedupe l = l.
Proof.
  intros. apply canonical_ext; [apply sort_and_dedupe_canonical|done|].
  intros. apply elem_of_sort_and_dedupe.
Qed.

Lemma sort_and_dedupe_ext l k :
  (forall x, x ∈ l <-> x ∈ k) -> sort_and_dedupe l = sort_and_dedupe k.
Proof.
  intros Hext. apply canonical_ext; try apply sort_and_dedupe_canonical.
  intros. by rewrite !elem_of_sort_and_dedupe.
Qed.

Lemma canonical_filter (P : A -> Prop) `{!forall x, Decision (P x)} l :
  canonical l -> canonical (filter P l).
Proof.
  induction 1 as [|x l Hs IH Hall]; [constructor|].
  rewrite filter_cons. case_decide; [|done].
  constructor; [done|]. rewrite Forall_forall in *. intros y Hy.
  apply list_elem_of_filter in Hy as [_ Hy]. eauto.
Qed.

Lemma canonical_drop n l : canonical l -> canonical (drop n l).
Proof.
  revert l. induction n; intros [|x l]; simpl; try done. intros Hc. apply IHn. by inversion Hc.
Qed.

(** On a canonical vector the lower bound separates smaller from larger. *)
Lemma lower_bound_split l x :
  canonical l ->
  (forall y, y ∈ take (lower_bound ltb l x) l -> ltb y x = true) /\
  (forall y, y ∈ drop (lower_bound ltb l x) l -> ltb y x = false).
Proof.
  unfold lower_bound. induction l as [|z l IH]; intros Hs; simpl.
  { split; intros y Hy; by apply elem_of_nil in Hy. }
  apply canonical_inv in Hs as [Hs Hz]. destruct (IH Hs) as [IH1 IH2].
  destruct (ltb z x) eqn:E; simpl.
  - split; [|done]. intros y [->|Hy]%elem_of_cons; auto.
  - split; [intros y Hy; by apply elem_of_nil in Hy|].
    intros y [->|Hy]%elem_of_cons; [done|].
    destruct (ltb y x) eqn:E2; [|done].
    by rewrite (less_trans _ _ _ (Hz _ Hy) E2) in E.
Qed.

Lemma binary_search_spec l x : canonical l -> binary_search ltb l x = true <-> x ∈ l.
Proof.
  unfold binary_search, lower_bound. induction l as [|z l IH]; intros Hs; simpl.
  { rewrite elem_of_nil. done. }
  apply canonical_inv in Hs as [Hs Hz].
  destruct (ltb z x) eqn:E; simpl.
  - rewrite IH by done. rewrite elem_of_cons. split; [auto|].
    intros [->|]; [|done]. by rewrite less_irrefl in E.
  - rewrite negb_true_iff, elem_of_cons. split.
    + intros E2. left. by apply less_total.
    + intros [->|Hx]; [apply less_irrefl|]. specialize (Hz _ Hx). congruence.
Qed.

Lemma insert_at_elem_of i x y l : y ∈ insert_at i x l <-> y = x \/ y ∈ l.
Proof.
  unfold insert_at. rewrite elem_of_app, elem_of_cons.
  rewrite <- (take_drop i l) at 3. rewrite elem_of_app. tauto.
Qed.

Lemma insert_at_lower_bound_canonical l x :
  canonical l -> x ∉ l -> canonical (insert_at (lower_bound ltb l x) x l).
Proof.
  unfold lower_bound, insert_at. induction l as [|z l IH]; intros Hs Hx; simpl.
  { repeat constructor. }
  apply not_elem_of_cons in Hx as [Hne Hx]. apply canonical_inv in Hs as [Hs Hz].
  destruct (ltb z x) eqn:E; simpl.
  - apply canonical_cons; [by apply IH|].
    intros y [->|Hy]%insert_at_elem_of; auto.
  - assert (Hxz : ltb x z = true) by (destruct (less_cases ltb x z) as [?|[?|?]]; congruence).
    apply canonical_cons.
    + by apply canonical_cons.
    + intros y [->|Hy]%elem_of_cons; [done|]. eapply less_trans; eauto.
Qed.

Lemma vector_has_spec (x : A) l : vector_has x l = true <-> x ∈ l.
Proof. apply bool_decide_eq_true. Qed.
End canonical_facts.

#[export] Hint Resolve sort_and_dedupe_canonical canonical_NoDup : core.

(** * [std::map]: an association list in increasing key order *)

Section map_ops.
Context {K V : Type} `{Ordered K, EqDecision K}.

Definition map_find (k : K) (m : list (K * V)) : option V :=
  match list_find (fun e => e.1 = k) m with
  | Some (_, (_, v)) => Some v
  | None => None
  end.

Definition map_contains (k : K) (m : list (K * V)) : bool :=
  match map_find k m with Some _ => true | None => false end.

(** [m[k] = v] *)
Fixpoint map_set (k : K) (v : V) (m : list (K * V)) : list (K * V) :=
  match m with
  | [] => [(k, v)]
  | (k', v') :: m' =>
      if bool_decide (k = k') then (k, v) :: m'
      else if ltb k k' then (k, v) :: m
      else (k', v') :: map_set k v m'
  end.

(** [m.emplace(k, v)]: an existing entry is kept. *)
Definition map_emplace (k : K) (v : V) (m : list (K * V)) : list (K * V) :=
  if map_contains k m then m else map_set k v m.

Definition map_erase (k : K) (m : list (K * V)) : list (K * V) :=
  filter (fun e => e.1 <> k) m.

(** `for (auto& entry : m) entry.second = f(entry.second);` *)
Definition map_update (f : V -> V) (m : list (K * V)) : list (K * V) :=
  (fun e => (e.1, f e.2)) <$> m.

Definition map_keys (m : list (K * V)) : list K := m.*1.
Definition map_values (m : list (K * V)) : list V := m.*2.
Definition map_size (m : list (K * V)) : Z := zlen m.

(** The class invariant of [std::map]: keys strictly increasing. *)
Definition map_wf (m : list (K * V)) : Prop := canonical (map_keys m).
End map_ops.

Section map_facts.
Context {K V : Type} `{Ordered K, EqDecision K}.
Implicit Types (k : K) (v : V) (m : list (K * V)).

Lemma map_find_nil k : map_find k (@nil (K * V)) = None.
Proof. done. Qed.

Lemma map_find_cons k k' v m :
  map_find k ((k', v) :: m) = if bool_decide (k' = k) then Some v else map_find k m.
Proof.
  unfold map_find. simpl. case_bool_decide; [by rewrite decide_True|].
  rewrite decide_False by done.
  destruct (list_find _ m) as [[? [? ?]]|]; done.
Qed.

Lemma map_find_set_eq k v m : map_find k (map_set k v m) = Some v.
Proof.
  induction m as [|[k' v'] m IH]; simpl.
  - rewrite map_find_cons. by rewrite bool_decide_eq_true_2.
  - repeat split_test; bool_prop; rewrite ?map_find_cons; subst;
      rewrite ?bool_decide_eq_true_2 by done; try done.
    by rewrite bool_decide_eq_false_2.
Qed.

Lemma map_find_set_ne k k' v m : k <> k' -> map_find k' (map_set k v m) = map_find k' m.
Proof.
  intros Hne. induction m as [|[k2 v2] m IH]; simpl.
  - rewrite map_find_cons. by rewrite bool_decide_eq_false_2.
  - repeat split_test; bool_prop; rewrite ?map_find_cons; subst; rewrite ?IH;
      rewrite ?(bool_decide_eq_false_2 (_ = k')) by done; done.
Qed.

Lemma map_find_set k k' v m :
  map_find k' (map_set k v m) = if bool_decide (k = k') then Some v else map_find k' m.
Proof. case_bool_decide; subst; [apply map_find_set_eq|by apply map_find_set_ne]. Qed.

Lemma map_find_emplace k k' v m :
  map_find k m = None -> map_find k' (map_emplace k v m) =
    if bool_decide (k = k') then Some v else map_find k' m.
Proof. intros Hn. unfold map_emplace, map_contains. rewrite Hn. apply map_find_set. Qed.

Lemma map_find_update k f m : map_find k (map_update f m) = f <$> map_find k m.
Proof.
  induction m as [|[k' v'] m IH]; [done|].
  change (map_update f ((k', v') :: m)) with ((k', f v') :: map_update f m).
  rewrite !map_find_cons, IH. by case_bool_decide.
Qed.

Lemma map_find_erase_eq k m : map_find k (map_erase k m) = None.
Proof.
  unfold map_erase. induction m as [|[k' v'] m IH]; [done|]. rewrite filter_cons. simpl.
  case_decide; [|done]. rewrite map_find_cons. by rewrite bool_decide_eq_false_2.
Qed.

Lemma map_find_erase_ne k k' m : k <> k' -> map_find k' (map_erase k m) = map_find k' m.
Proof.
  intros Hne. unfold map_erase. induction m as [|[k2 v2] m IH]; [done|]. rewrite filter_cons. simpl.
  case_decide; rewrite !map_find_cons; [by rewrite IH|].
  rewrite bool_decide_eq_false_2; [done|]. congruence.
Qed.

Lemma map_find_in k v m : map_find k m = Some v -> (k, v) ∈ m.
Proof.
  induction m as [|[k' v'] m IH]; [done|]. rewrite map_find_cons.
  case_bool_decide; intros; simplify_eq; [left|right; auto].
Qed.

Lemma map_find_none k m : map_find k m = None <-> k ∉ map_keys m.
Proof.
  unfold map_keys. induction m as [|[k' v'] m IH]; simpl; [set_solver|].
  rewrite map_find_cons, not_elem_of_cons. case_bool_decide; naive_solver.
Qed.

Lemma map_in_find k v m : map_wf m -> (k, v) ∈ m -> map_find k m = Some v.
Proof.
  unfold map_wf, map_keys. induction m as [|[k' v'] m IH]; simpl; [by intros ? ?%elem_of_nil|].
  intros Hs Hin. apply canonical_inv in Hs as [Hs Hlt]. rewrite map_find_cons.
  apply elem_of_cons in Hin as [Heq|Hin]; simplify_eq.
  - by rewrite bool_decide_eq_true_2.
  - rewrite bool_decide_eq_false_2; [auto|]. intros ->.
    assert (Hk : ltb k k = true) by (apply Hlt, (list_elem_of_fmap_2 fst _ _ Hin)).
    by rewrite less_irrefl in Hk.
Qed.

Lemma map_find_iff k v m : map_wf m -> map_find k m = Some v <-> (k, v) ∈ m.
Proof. split; [apply map_find_in|by apply map_in_find]. Qed.

Lemma map_keys_set k k' v m : k' ∈ map_keys (map_set k v m) <-> k' = k \/ k' ∈ map_keys m.
Proof.
  unfold map_keys. induction m as [|[k2 v2] m IH]; simpl; [set_solver|].
  repeat split_test; bool_prop; simplify_eq; simpl; rewrite ?elem_of_cons, ?IH; tauto.
Qed.

Lemma map_set_wf k v m : map_wf m -> map_wf (map_set k v m).
Proof.
  unfold map_wf. induction m as [|[k' v'] m IH]; simpl; [repeat constructor|].
  intros Hs. pose proof Hs as [Hs' Hlt]%canonical_inv.
  repeat split_test; bool_prop; simplify_eq; simpl; [done|..].
  - apply canonical_cons; [done|]. intros y [->|Hy]%elem_of_cons; [done|].
    eapply less_trans; eauto.
  - apply canonical_cons; [by apply IH|]. intros y [->|Hy]%map_keys_set; [|eauto].
    destruct (less_cases ltb k k') as [?|[?|?]]; congruence.
Qed.

Lemma map_emplace_wf k v m : map_wf m -> map_wf (map_emplace k v m).
Proof. unfold map_emplace. split_test; auto using map_set_wf. Qed.

Lemma map_update_keys f m : map_keys (map_update f m) = map_keys m.
Proof. unfold map_keys, map_update. rewrite <- list_fmap_compose. by apply list_fmap_ext. Qed.

Lemma map_update_wf f m : map_wf m -> map_wf (map_update f m).
Proof. unfold map_wf. by rewrite map_update_keys. Qed.

Lemma map_erase_wf k m : map_wf m -> map_wf (map_erase k m).
Proof.
  unfold map_wf, map_keys, map_erase. induction m as [|[k' v'] m IH]; [done|].
  intros Hs. apply canonical_inv in Hs as [Hs Hlt]. rewrite filter_cons. simpl.
  case_decide; [|by apply IH]. apply canonical_cons; [by apply IH|].
  intros y Hy. apply Hlt. apply list_elem_of_fmap in Hy as (e & -> & He).
  apply list_elem_of_filter in He as [_ He]. by apply list_elem_of_fmap_2.
Qed.

Lemma map_size_set_new k v m : map_find k m = None -> map_size (map_set k v m) = map_size m + 1.
Proof.
  unfold map_size. induction m as [|[k' v'] m IH]; simpl; [done|].
  rewrite map_find_cons. case_bool_decide; [done|]. intros Hn.
  rewrite bool_decide_eq_false_2 by done. split_test; rewrite ?zlen_cons; [done|].
  rewrite IH by done. lia.
Qed.

Lemma map_size_set_old k v v' m : map_find k m = Some v' -> map_wf m ->
  map_size (map_set k v m) = map_size m.
Proof.
  unfold map_size, map_wf. induction m as [|[k' v2] m IH]; simpl; [done|].
  rewrite map_find_cons. intros Hf Hs. pose proof Hs as [Hs' Hlt]%canonical_inv.
  case_bool_decide; simplify_eq.
  - rewrite bool_decide_eq_true_2 by done. by rewrite !zlen_cons.
  - rewrite bool_decide_eq_false_2 by done.
    assert (Hk : ltb k' k = true) by (apply Hlt, (list_elem_of_fmap_2 fst _ _ (map_find_in _ _ _ Hf))).
    rewrite (less_asym ltb _ _ Hk). rewrite !zlen_cons. by rewrite IH.
Qed.

Lemma map_size_update f m : map_size (map_update f m) = map_size m.
Proof. unfold map_size, map_update, zlen. by rewrite length_fmap. Qed.

Lemma map_contains_true k m : map_contains k m = true <-> exists v, map_find k m = Some v.
Proof. unfold map_contains. destruct (map_find k m); naive_solver. Qed.

Lemma map_contains_false k m : map_contains k m = false <-> map_find k m = None.
Proof. unfold map_contains. destruct (map_find k m); naive_solver. Qed.
End map_facts.

#[export] Hint Resolve map_set_wf map_emplace_wf map_update_wf map_erase_wf : core.

(** The entries of a map as a multiset. *)
Section map_perm.
Context {K V : Type} `{Ordered K, EqDecision K}.
Implicit Types (k : K) (v : V) (m : list (K * V)).

Lemma map_erase_absent k m : map_find k m = None -> map_erase k m = m.
Proof.
  rewrite map_find_none. intros Hk. unfold map_erase. apply filter_all.
  intros e Hin <-. apply Hk, list_elem_of_fmap. eauto.
Qed.

Lemma map_erase_perm k v m :
  map_wf m -> map_find k m = Some v -> m ≡ₚ (k, v) :: map_erase k m.
Proof.
  intros Hwf. induction m as [|[k' v'] m IH]; [done|]. rewrite map_find_cons.
  apply canonical_inv in Hwf as [Hm Hlt]. unfold map_erase. rewrite filter_cons. simpl.
  case_bool_decide; intros Hf; simplify_eq.
  - rewrite decide_False by tauto. constructor. fold (map_erase k m).
    rewrite map_erase_absent; [done|]. apply map_find_none. intros Hin.
    pose proof (Hlt _ Hin) as Hbad. by rewrite less_irrefl in Hbad.
  - rewrite decide_True by congruence. rewrite (IH Hm Hf) at 1. constructor.
Qed.

Lemma map_erase_set k v m : map_wf m -> map_erase k (map_set k v m) = map_erase k m.
Proof.
  intros Hwf. induction m as [|[k' v'] m IH]; simpl.
  - unfold map_erase. rewrite filter_cons, decide_False by (simpl; tauto). done.
  - apply canonical_inv in Hwf as [Hm Hlt]. unfold map_erase in *.
    repeat split_test; bool_prop; subst; rewrite ?filter_cons; simpl.
    + by rewrite !decide_False by tauto.
    + by rewrite (decide_False (P := k <> k)) by tauto.
    + rewrite !decide_True by congruence. by rewrite IH.
Qed.

Lemma map_set_perm k v m : map_wf m -> map_set k v m ≡ₚ (k, v) :: map_erase k m.
Proof.
  intros Hwf. rewrite (map_erase_perm k v (map_set k v m)); [|by apply map_set_wf|apply map_find_set_eq].
  by rewrite map_erase_set.
Qed.

End map_perm.

(** A map of vectors, flattened. *)
Section map_flat.
Context {K A : Type} `{Ordered K, EqDecision K}.
Implicit Types (k : K) (b : list A) (m : list (K * list A)).

Lemma concat_perm (ls ks : list (list A)) : ls ≡ₚ ks -> concat ls ≡ₚ concat ks.
Proof.
  induction 1 as [|x ls ks _ IH|x y ls|l1 l2 l3 _ IH1 _ IH2]; simpl; [done|by rewrite IH| |by rewrite IH1].
  rewrite !(assoc_L (++)). by rewrite (Permutation_app_comm y x).
Qed.

Lemma map_set_flat k b m :
  map_wf m -> concat (map_values (map_set k b m)) ≡ₚ b ++ concat (map_values (map_erase k m)).
Proof.
  intros Hwf. apply (concat_perm _ (b :: map_values (map_erase k m))).
  apply (fmap_Permutation snd _ _ (map_set_perm k b m Hwf)).
Qed.

Lemma map_find_flat k m :
  map_wf m ->
  concat (map_values m) ≡ₚ default [] (map_find k m) ++ concat (map_values (map_erase k m)).
Proof.
  intros Hwf. destruct (map_find k m) as [b|] eqn:Hf; simpl.
  - apply (concat_perm _ (b :: map_values (map_erase k m))).
    apply (fmap_Permutation snd _ _ (map_erase_perm k b m Hwf Hf)).
  - by rewrite map_erase_absent.
Qed.
End map_flat.

(** * [std::set]: a canonical vector of keys *)

Section set_ops.
Context {A : Type} `{Ordered A, EqDecision A}.

Definition set_contains (x : A) (s : list A) : bool := bool_decide (x ∈ s).

(** [s.insert(x)]; inserting a present element changes nothing. *)
Definition set_insert (x : A) (s : list A) : list A :=
  if set_contains x s then s else insert_at (lower_bound ltb s x) x s.

Definition set_erase (x : A) (s : list A) : list A := filter (fun y => y <> x) s.

Lemma set_insert_elem_of x y s : y ∈ set_insert x s <-> y = x \/ y ∈ s.
Proof.
  unfold set_insert, set_contains. case_bool_decide; [naive_solver|]. apply insert_at_elem_of.
Qed.

Lemma set_insert_canonical x s : canonical s -> canonical (set_insert x s).
Proof.
  intros. unfold set_insert, set_contains. case_bool_decide; [done|].
  by apply insert_at_lower_bound_canonical.
Qed.

Lemma set_erase_elem_of x y s : y ∈ set_erase x s <-> y <> x /\ y ∈ s.
Proof. unfold set_erase. by rewrite list_elem_of_filter. Qed.

Lemma set_contains_true x s : set_contains x s = true <-> x ∈ s.
Proof. apply bool_decide_eq_true. Qed.

Lemma set_contains_false x s : set_contains x s = false <-> x ∉ s.
Proof. apply bool_decide_eq_false. Qed.
End set_ops.

#[export] Hint Resolve set_insert_canonical canonical_filter : core.
