(* ===== verification/Core.v ===== *)
(** Outcome codes, status values, resource limits and strongly typed
    identities (include/sff/core/*.hpp, src/core/*.cpp). *)

From S2P Require Import Prelude Containers.
From Stdlib Require Import DecimalString.

(** * Outcome codes and status values (core/outcome) *)

(** An enum with a fixed underlying type can hold any value of that type; the
    codes this build does not name are kept as [Unrecognised]. *)
Module Code.
Inductive Code :=
| Ok | Unknown | Stale | Conflict | Invalid | Unsupported | Indeterminate
| SearchLimitReached | ProvenInfeasible
| Denied | Unauthorized | Fenced | Interrupted | Ambiguous
| NotFound | AlreadyExists | Exhausted | Busy | Closed
| Corrupt | Truncated | Replay | VersionMismatch | IoError | DeadlineExceeded
| Unverified | PartialClosure | Expired
| Unrecognised (raw : Z).
End Code.
Abbreviation Code := Code.Code.

#[export] Instance Code_eq_dec : EqDecision Code.
Proof. solve_decision. Defined.

(** The named codes in the order of their values. *)
Definition named_codes : list Code :=
  [Code.Ok; Code.Unknown; Code.Stale; Code.Conflict; Code.Invalid; Code.Unsupported;
   Code.Indeterminate; Code.SearchLimitReached; Code.ProvenInfeasible; Code.Denied;
   Code.Unauthorized; Code.Fenced; Code.Interrupted; Code.Ambiguous; Code.NotFound;
   Code.AlreadyExists; Code.Exhausted; Code.Busy; Code.Closed; Code.Corrupt; Code.Truncated;
   Code.Replay; Code.VersionMismatch; Code.IoError; Code.DeadlineExceeded; Code.Unverified;
   Code.PartialClosure; Code.Expired].

(** [static_cast<std::uint16_t>(code)] *)
Definition code_raw (c : Code) : Z :=
  match c with
  | Code.Ok => 0 | Code.Unknown => 1 | Code.Stale => 2 | Code.Conflict => 3
  | Code.Invalid => 4 | Code.Unsupported => 5 | Code.Indeterminate => 6
  | Code.SearchLimitReached => 7 | Code.ProvenInfeasible => 8 | Code.Denied => 9
  | Code.Unauthorized => 10 | Code.Fenced => 11 | Code.Interrupted => 12
  | Code.Ambiguous => 13 | Code.NotFound => 14 | Code.AlreadyExists => 15
  | Code.Exhausted => 16 | Code.Busy => 17 | Code.Closed => 18 | Code.Corrupt => 19
  | Code.Truncated => 20 | Code.Replay => 21 | Code.VersionMismatch => 22
  | Code.IoError => 23 | Code.DeadlineExceeded => 24 | Code.Unverified => 25
  | Code.PartialClosure => 26 | Code.Expired => 27
  | Code.Unrecognised raw => raw
  end.

(** [static_cast<Code>(raw)] *)
Definition code_of_raw (raw : Z) : Code :=
  if (0 <=? raw) && (raw <? 28)
  then nth (Z.to_nat raw) named_codes (Code.Unrecognised raw)
  else Code.Unrecognised raw.

(** Codes that carry no name carry a value outside the named range. *)
Definition code_canonical (c : Code) : Prop :=
  match c with Code.Unrecognised raw => 28 <= raw < two16 | _ => True end.

Definition kCodeNames : list string :=
  ["OK"; "UNKNOWN"; "STALE"; "CONFLICT";
   "INVALID"; "UNSUPPORTED"; "INDETERMINATE"; "SEARCH_LIMIT_REACHED";
   "PROVEN_INFEASIBLE"; "DENIED"; "UNAUTHORIZED"; "FENCED";
   "INTERRUPTED"; "AMBIGUOUS"; "NOT_FOUND"; "ALREADY_EXISTS";
   "EXHAUSTED"; "BUSY"; "CLOSED"; "CORRUPT";
   "TRUNCATED"; "REPLAY"; "VERSION_MISMATCH"; "IO_ERROR";
   "DEADLINE_EXCEEDED"; "UNVERIFIED"; "PARTIAL_CLOSURE"; "EXPIRED"]%string.

Definition code_to_string (c : Code) : string :=
  let index := code_raw c in
  if zlen kCodeNames <=? index then "UNRECOGNISED_CODE"%string
  else nth (Z.to_nat index) kCodeNames "UNRECOGNISED_CODE"%string.

Definition is_success (c : Code) : bool := bool_decide (c = Code.Ok).

Definition is_fail_closed (c : Code) : bool :=
  match c with
  | Code.Ok => false
  | Code.ProvenInfeasible => true
  | _ => true
  end.

Definition is_indeterminate (c : Code) : bool :=
  match c with
  | Code.Unknown | Code.Indeterminate | Code.SearchLimitReached | Code.Ambiguous
  | Code.Interrupted | Code.Busy | Code.DeadlineExceeded => true
  | _ => false
  end.

Definition kMaxMessageBytes : Z := 512.

(** [text.size()] and [text.substr(0, n)] of a byte string. *)
Definition str_size (s : string) : Z := Z.of_nat (String.length s).
Definition str_prefix (n : Z) (s : string) : string := String.substring 0 (Z.to_nat n) s.

Definition bounded_message (text : string) : string :=
  if str_size text <=? kMaxMessageBytes then text else str_prefix kMaxMessageBytes text.

Record Status := mkStatus { status_code : Code; status_detail : Z; status_message : string }.

#[export] Instance Status_eq_dec : EqDecision Status.
Proof. solve_decision. Defined.

Definition success : Status := mkStatus Code.Ok 0 "".

Definition failure (code : Code) (message : string) : Status :=
  mkStatus (if bool_decide (code = Code.Ok) then Code.Invalid else code) 0 (bounded_message message).

Definition status_ok (s : Status) : bool := bool_decide (status_code s = Code.Ok).

(** [std::to_string] of an unsigned value. *)
Definition dec (z : Z) : string := NilZero.string_of_uint (N.to_uint (Z.to_N z)).

Definition status_to_string (s : Status) : string :=
  (code_to_string (status_code s)
   +:+ (if bool_decide (status_detail s = 0) then "" else ":" +:+ dec (status_detail s))
   +:+ (if bool_decide (status_message s = "") then "" else " " +:+ status_message s))%string.

(** [Result<T>]: a value, or the non-Ok status that explains its absence. *)
Inductive Result (T : Type) :=
| Value (v : T)
| Refused (s : Status).
Arguments Value {T} v.
Arguments Refused {T} s.

Definition result_status {T} (r : Result T) : Status :=
  match r with Value _ => success | Refused s => s end.

Definition result_ok {T} (r : Result T) : bool :=
  match r with Value _ => true | Refused s => status_ok s end.

Declare Scope sff_scope.
Delimit Scope sff_scope with sff.

(** `if (!s.ok()) return s;` for operations that answer with a status... *)
Notation "'check' s ;; k" :=
  (match s with s' => if status_ok s' then k else s' end)
  (at level 60, s at next level, right associativity) : sff_scope.

(** ... and for operations that answer with a result. *)
Notation "'check_r' s ;; k" :=
  (match s with s' => if status_ok s' then k else Refused s' end)
  (at level 60, s at next level, right associativity) : sff_scope.

(** * Resource limits (core/limits) *)

Definition kHardMaxDocumentBytes : Z := Z.shiftl 256 20.
Definition kHardMaxFramePayload : Z := Z.shiftl 16 20.
Definition kHardMaxElements : Z := Z.shiftl 64 20.
Definition kHardMaxJournalRecords : Z := Z.shiftl 64 20.
Definition kHardMaxEventRecords : Z := Z.shiftl 1 20.
Definition kHardMaxSessions : Z := Z.shiftl 1 20.
Definition kHardMaxQueueDepth : Z := Z.shiftl 1 20.
Definition kHardMaxExplanationTerms : Z := 4096.
Definition kHardMaxRetainedAttempts : Z := 4096.

Record Limits := mkLimits {
  max_switches : Z;
  max_links : Z;
  max_paths : Z;
  max_ports : Z;
  max_failure_domains : Z;
  max_closure_nodes : Z;
  max_closure_edges : Z;
  max_plan_steps : Z;
  max_candidates_evaluated : Z;
  max_unresolved_dependents : Z;
  max_explanation_terms : Z;
  max_retained_attempts : Z;
  max_authority_grants : Z;
  max_fences : Z;
  max_evidence_records : Z;
  max_event_records : Z;
  max_journal_records : Z;
  max_sessions : Z;
  max_session_queue : Z;
  max_frame_payload : Z;
  max_document_bytes : Z;
  freshness_window_ns : Z;
  fence_horizon_ns : Z
}.

Definition kNanosPerSecond : Z := 1000000000.

Definition limits_defaults : Limits := {|
  max_switches := 200000;
  max_links := 2000000;
  max_paths := 2000000;
  max_ports := 4000000;
  max_failure_domains := 100000;
  max_closure_nodes := 2000000;
  max_closure_edges := 8000000;
  max_plan_steps := 1000000;
  max_candidates_evaluated := 200000;
  max_unresolved_dependents := 1000000;
  max_explanation_terms := 64;
  max_retained_attempts := 64;
  max_authority_grants := 4000000;
  max_fences := 1000000;
  max_evidence_records := 200000;
  max_event_records := 65536;
  max_journal_records := 1000000;
  max_sessions := 4096;
  max_session_queue := 256;
  max_frame_payload := Z.shiftl 1 20;
  max_document_bytes := Z.shiftl 64 20;
  freshness_window_ns := 30 * 1000 * 1000 * 1000;
  fence_horizon_ns := 24 * 3600 * 1000 * 1000 * 1000
|}.

Definition require_positive (value : Z) (name : string) : Status :=
  if value =? 0 then failure Code.Invalid ("limit must be positive: " +:+ name) else success.

Definition require_within (value ceiling : Z) (name : string) : Status :=
  if ceiling <? value then failure Code.Invalid ("limit exceeds hard ceiling: " +:+ name)
  else success.

(** The table `bounded[]` of [Limits::validate]. *)
Definition bounded_limits (l : Limits) : list (Z * Z * string) :=
  [(max_switches l, kHardMaxElements, "max_switches");
   (max_links l, kHardMaxElements, "max_links");
   (max_paths l, kHardMaxElements, "max_paths");
   (max_ports l, kHardMaxElements, "max_ports");
   (max_failure_domains l, kHardMaxElements, "max_failure_domains");
   (max_closure_nodes l, kHardMaxElements, "max_closure_nodes");
   (max_closure_edges l, kHardMaxElements, "max_closure_edges");
   (max_plan_steps l, kHardMaxElements, "max_plan_steps");
   (max_candidates_evaluated l, kHardMaxElements, "max_candidates_evaluated");
   (max_unresolved_dependents l, kHardMaxElements, "max_unresolved_dependents");
   (max_explanation_terms l, kHardMaxExplanationTerms, "max_explanation_terms");
   (max_retained_attempts l, kHardMaxRetainedAttempts, "max_retained_attempts");
   (max_authority_grants l, kHardMaxElements, "max_authority_grants");
   (max_fences l, kHardMaxElements, "max_fences");
   (max_evidence_records l, kHardMaxElements, "max_evidence_records");
   (max_event_records l, kHardMaxEventRecords, "max_event_records");
   (max_journal_records l, kHardMaxJournalRecords, "max_journal_records");
   (max_sessions l, kHardMaxSessions, "max_sessions");
   (max_session_queue l, kHardMaxQueueDepth, "max_session_queue");
   (max_frame_payload l, kHardMaxFramePayload, "max_frame_payload");
   (max_document_bytes l, kHardMaxDocumentBytes, "max_document_bytes")]%string.

Fixpoint validate_bounded (entries : list (Z * Z * string)) : Status :=
  match entries with
  | [] => success
  | (value, ceiling, name) :: rest =>
      (check require_positive value name;;
       check require_within value ceiling name;;
       validate_bounded rest)%sff
  end.

Definition limits_validate (l : Limits) : Status :=
  (check validate_bounded (bounded_limits l);;
   if freshness_window_ns l =? 0 then failure Code.Invalid "freshness_window_ns must be positive"
   else if fence_horizon_ns l =? 0 then failure Code.Invalid "fence_horizon_ns must be positive"
   else if max_document_bytes l <? max_frame_payload l then
     failure Code.Invalid "max_document_bytes must be at least max_frame_payload"
   else success)%sff.

Definition refuse_exhausted (what : string) (requested limit : Z) : Status :=
  failure Code.Exhausted
    (what +:+ ": requested " +:+ dec requested +:+ " exceeds limit " +:+ dec limit).

(** * Checked arithmetic (core/checked.hpp)

    [lo] and [hi] are [numeric_limits<T>::min()] and [max()] of the integral
    type; division of signed integers truncates, as [Z.quot] does. *)

Definition checked_add_unsigned (hi a b : Z) : option Z :=
  if hi - a <? b then None else Some (a + b).

Definition checked_add_signed (lo hi a b : Z) : option Z :=
  if (0 <? b) && (hi - b <? a) then None
  else if (b <? 0) && (a <? lo - b) then None
  else Some (a + b).

Definition checked_sub_unsigned (a b : Z) : option Z :=
  if a <? b then None else Some (a - b).

Definition checked_sub_signed (lo hi a b : Z) : option Z :=
  if (b <? 0) && (hi + b <? a) then None
  else if (0 <? b) && (a <? lo + b) then None
  else Some (a - b).

Definition checked_mul_unsigned (hi a b : Z) : option Z :=
  if (a =? 0) || (b =? 0) then Some 0
  else if Z.quot hi b <? a then None else Some (a * b).

Definition checked_mul_signed (lo hi a b : Z) : option Z :=
  if (a =? 0) || (b =? 0) then Some 0
  else if 0 <? a then
    if 0 <? b then (if Z.quot hi b <? a then None else Some (a * b))
    else (if b <? Z.quot lo a then None else Some (a * b))
  else
    if 0 <? b then (if a <? Z.quot lo b then None else Some (a * b))
    else (if a <? Z.quot hi b then None else Some (a * b)).

Definition checked_align_up (value alignment : Z) : option Z :=
  if alignment =? 0 then None
  else
    let remainder := value mod alignment in
    if remainder =? 0 then Some value
    else checked_add_unsigned SIZE_MAX value (alignment - remainder).

Definition narrow_size (value : Z) : option Z :=
  if SIZE_MAX <? value then None else Some value.

(** * Identities (core/identity) *)

(** A [StrongId] is its raw 64-bit value; zero is the invalid identity. *)
Definition id_valid (raw : Z) : bool := negb (raw =? 0).
Definition id_next (raw : Z) : Z := if raw =? UINT64_MAX then 0 else raw + 1.

Record SwitchKey := mkSwitchKey { sk_id : Z; sk_generation : Z }.

#[export] Instance SwitchKey_eq_dec : EqDecision SwitchKey.
Proof. solve_decision. Defined.

Definition key_valid (k : SwitchKey) : bool := id_valid (sk_id k) && id_valid (sk_generation k).
Definition same_identity (a b : SwitchKey) : bool := sk_id a =? sk_id b.

Definition key_less (a b : SwitchKey) : bool :=
  if negb (sk_id a =? sk_id b) then sk_id a <? sk_id b else sk_generation a <? sk_generation b.

#[export] Instance key_strict_total : StrictTotal key_less.
Proof.
  unfold key_less. split.
  - intros [i g]; simpl. rewrite Z.eqb_refl. simpl. lia.
  - intros [i1 g1] [i2 g2] [i3 g3]; simpl. repeat split_test; lia.
  - intros [i1 g1] [i2 g2]; simpl. repeat split_test; bool_prop; intros; f_equal; lia.
Qed.

#[export] Instance key_ordered : Ordered SwitchKey := {| ltb := key_less |}.

(** `snprintf(buffer, 48, ...)` keeps at most 47 characters. *)
Definition key_to_string (k : SwitchKey) : string :=
  str_prefix 47 ("switch(" +:+ dec (sk_id k) +:+ ")@gen(" +:+ dec (sk_generation k) +:+ ")").

Record BootIncarnation := mkBoot {
  boot_process_id : Z; boot_ordinal : Z; boot_nonce_hi : Z; boot_nonce_lo : Z }.

#[export] Instance Boot_eq_dec : EqDecision BootIncarnation.
Proof. solve_decision. Defined.

Definition boot_none : BootIncarnation := mkBoot 0 0 0 0.
Definition boot_valid (b : BootIncarnation) : bool := negb (boot_ordinal b =? 0).

Definition boot_less (a b : BootIncarnation) : bool :=
  if negb (boot_ordinal a =? boot_ordinal b) then boot_ordinal a <? boot_ordinal b
  else if negb (boot_process_id a =? boot_process_id b) then boot_process_id a <? boot_process_id b
  else if negb (boot_nonce_hi a =? boot_nonce_hi b) then boot_nonce_hi a <? boot_nonce_hi b
  else boot_nonce_lo a <? boot_nonce_lo b.

#[export] Instance boot_strict_total : StrictTotal boot_less.
Proof.
  unfold boot_less. split.
  - intros [p o h l]; simpl. rewrite !Z.eqb_refl. simpl. lia.
  - intros [] [] []; simpl. repeat split_test; lia.
  - intros [] []; simpl. repeat split_test; bool_prop; intros; f_equal; lia.
Qed.

Module DependentKind.
Inductive DependentKind := Unknown | Port | Link | Path | Service.
End DependentKind.
Abbreviation DependentKind := DependentKind.DependentKind.

#[export] Instance DependentKind_eq_dec : EqDecision DependentKind.
Proof. solve_decision. Defined.

Definition dependent_kind_raw (k : DependentKind) : Z :=
  match k with
  | DependentKind.Unknown => 0 | DependentKind.Port => 1 | DependentKind.Link => 2
  | DependentKind.Path => 3 | DependentKind.Service => 4
  end.

Definition dependent_kind_of_raw (raw : Z) : option DependentKind :=
  match raw with
  | 0 => Some DependentKind.Unknown | 1 => Some DependentKind.Port | 2 => Some DependentKind.Link
  | 3 => Some DependentKind.Path | 4 => Some DependentKind.Service | _ => None
  end.

Definition dependent_kind_to_string (k : DependentKind) : string :=
  match k with
  | DependentKind.Unknown => "UNKNOWN"
  | DependentKind.Port => "PORT"
  | DependentKind.Link => "LINK"
  | DependentKind.Path => "PATH"
  | DependentKind.Service => "SERVICE"
  end.

Definition is_valid_dependent_kind (raw : Z) : bool :=
  (dependent_kind_raw DependentKind.Port <=? raw) && (raw <=? dependent_kind_raw DependentKind.Service).

Record DependentRef := mkDependent { dep_kind : DependentKind; dep_id : Z }.

#[export] Instance DependentRef_eq_dec : EqDecision DependentRef.
Proof. solve_decision. Defined.

Definition dependent_none : DependentRef := mkDependent DependentKind.Unknown 0.
Definition dependent_port (id : Z) : DependentRef := mkDependent DependentKind.Port id.
Definition dependent_link (id : Z) : DependentRef := mkDependent DependentKind.Link id.
Definition dependent_path (id : Z) : DependentRef := mkDependent DependentKind.Path id.
Definition dependent_service (id : Z) : DependentRef := mkDependent DependentKind.Service id.

Definition dependent_valid (d : DependentRef) : bool :=
  negb (bool_decide (dep_kind d = DependentKind.Unknown)) && negb (dep_id d =? 0).

Definition dependent_less (a b : DependentRef) : bool :=
  if negb (bool_decide (dep_kind a = dep_kind b))
  then dependent_kind_raw (dep_kind a) <? dependent_kind_raw (dep_kind b)
  else dep_id a <? dep_id b.

Lemma dependent_kind_raw_inj a b : dependent_kind_raw a = dependent_kind_raw b -> a = b.
Proof. by destruct a, b. Qed.

#[export] Instance dependent_strict_total : StrictTotal dependent_less.
Proof.
  unfold dependent_less. split.
  - intros [k i]; simpl. rewrite bool_decide_eq_true_2 by done. simpl. lia.
  - intros [k1 i1] [k2 i2] [k3 i3]; simpl.
    repeat case_bool_decide; subst; simpl; try lia; congruence.
  - intros [k1 i1] [k2 i2]; simpl. repeat case_bool_decide; subst; simpl; try congruence.
    + intros. f_equal. lia.
    + intros. exfalso. apply H, dependent_kind_raw_inj. lia.
Qed.

#[export] Instance dependent_ordered : Ordered DependentRef := {| ltb := dependent_less |}.

Definition dependent_to_string (d : DependentRef) : string :=
  dependent_kind_to_string (dep_kind d) +:+ "(" +:+ dec (dep_id d) +:+ ")".

(** Lower bound of the identifier range the runtime reserves for itself. *)
Definition kRuntimeReservedIdBase : Z := 0x8000000000000000.

(** * Canonical digests (core/identity) *)

Definition mix64 (value : Z) : Z :=
  let z := add64 value 0x9e3779b97f4a7c15 in
  let z := mul64 (Z.lxor z (Z.shiftr z 30)) 0xbf58476d1ce4e5b9 in
  let z := mul64 (Z.lxor z (Z.shiftr z 27)) 0x94d049bb133111eb in
  Z.lxor z (Z.shiftr z 31).

(** The entropy sources of a boot are arguments: four words of the random
    device, the steady clock and the process id. *)
Definition for_current_process (r1 r2 r3 r4 steady pid ordinal : Z) : BootIncarnation :=
  let hi := Z.lxor (wrap64 (Z.shiftl r1 32)) r2 in
  let lo := Z.lxor (wrap64 (Z.shiftl r3 32)) r4 in
  let hi := Z.lxor hi steady in
  let lo := mix64 (Z.lxor (Z.lxor lo steady) pid) in
  let lo := if (hi =? 0) && (lo =? 0) then 1 else lo in
  mkBoot pid ordinal hi lo.

Definition kFnvPrimeHi : Z := 0x00000100000001b3.
Definition kFnvPrimeLo : Z := 0xc2b2ae3d27d4eb4f.

Record Digest128 := mkDigest { dig_hi : Z; dig_lo : Z }.

Definition digest_init : Digest128 := mkDigest 0xcbf29ce484222325 0x9e3779b97f4a7c15.

Definition absorb_byte (byte : Z) (d : Digest128) : Digest128 :=
  mkDigest (mul64 (Z.lxor (dig_hi d) byte) kFnvPrimeHi)
           (mul64 (Z.lxor (dig_lo d) (add64 byte 0x9e3779b97f4a7c15)) kFnvPrimeLo).

(** The [index]-th little-endian byte of a value. *)
Definition byte_at (value : Z) (index : nat) : Z :=
  Z.land (Z.shiftr value (8 * Z.of_nat index)) 0xff.

Definition le_bytes (value : Z) (width : nat) : list Z := byte_at value <$> seq 0 width.

Definition absorb_bytes (bytes : list Z) (d : Digest128) : Digest128 :=
  foldl (fun d b => absorb_byte b d) d bytes.

Definition absorb_u64 (value : Z) (d : Digest128) : Digest128 :=
  absorb_bytes (le_bytes value 8) d.

(** The bytes of a string. *)
Fixpoint string_bytes (s : string) : list Z :=
  match s with
  | EmptyString => []
  | String c s' => Z.of_N (Ascii.N_of_ascii c) :: string_bytes s'
  end.

Definition absorb_string (text : string) (d : Digest128) : Digest128 :=
  absorb_bytes (string_bytes text) (absorb_u64 (str_size text) d).

Definition absorb_key (k : SwitchKey) (d : Digest128) : Digest128 :=
  absorb_u64 (sk_generation k) (absorb_u64 (sk_id k) d).

Definition absorb_dependent (dep : DependentRef) (d : Digest128) : Digest128 :=
  absorb_u64 (dep_id dep) (absorb_byte (dependent_kind_raw (dep_kind dep)) d).

Definition absorb_bool (b : bool) (d : Digest128) : Digest128 :=
  absorb_byte (if b then 1 else 0) d.

(** `for (const auto& x : l) digest.absorb(x);` *)
Definition absorb_each {A} (absorb : A -> Digest128 -> Digest128) (l : list A) (d : Digest128) :
  Digest128 := foldl (fun d x => absorb x d) d l.

(** `digits[(part >> shift) & 0xf]` *)
Definition hex_digit (n : Z) : Ascii.ascii :=
  Ascii.ascii_of_N (Z.to_N (if n <? 10 then 48 + n else 87 + n)).

Fixpoint hex_digits (value : Z) (count : nat) : string :=
  match count with
  | O => EmptyString
  | S n => String (hex_digit (Z.land (Z.shiftr value (4 * Z.of_nat n)) 0xf)) (hex_digits value n)
  end.

Definition digest_to_hex (d : Digest128) : string :=
  hex_digits (dig_hi d) 16 +:+ hex_digits (dig_lo d) 16.

Definition boot_to_string (b : BootIncarnation) : string :=
  str_prefix 95 ("boot(" +:+ dec (boot_ordinal b) +:+ ")pid(" +:+ dec (boot_process_id b)
    +:+ ")nonce(" +:+ hex_digits (boot_nonce_hi b) 16 +:+ hex_digits (boot_nonce_lo b) 16 +:+ ")").

(** * Facts *)

Lemma failure_not_ok c m : status_ok (failure c m) = false.
Proof.
  unfold status_ok, failure. apply bool_decide_eq_false. simpl. case_bool_decide; congruence.
Qed.

Lemma success_ok : status_ok success = true.
Proof. done. Qed.

Lemma refuse_exhausted_not_ok w r l : status_ok (refuse_exhausted w r l) = false.
Proof. apply failure_not_ok. Qed.

Create Rewrite HintDb status.
#[export] Hint Rewrite failure_not_ok success_ok refuse_exhausted_not_ok : status.

Lemma length_substring n m s : (String.length (String.substring n m s) <= m)%nat.
Proof.
  revert n m. induction s as [|c s IH]; intros n m; destruct n, m; simpl; try lia.
  - specialize (IH 0%nat m). lia.
  - apply (IH n 0%nat).
  - apply (IH n (S m)).
Qed.

Lemma str_size_bounded m : str_size (bounded_message m) <= kMaxMessageBytes.
Proof.
  unfold bounded_message. split_test; bool_prop; [done|].
  unfold str_size, str_prefix. pose proof (length_substring 0 (Z.to_nat kMaxMessageBytes) m).
  unfold kMaxMessageBytes in *. lia.
Qed.

Lemma bounded_message_idem m : bounded_message (bounded_message m) = bounded_message m.
Proof.
  unfold bounded_message at 1. pose proof (str_size_bounded m). by rewrite (proj2 (Z.leb_le _ _)).
Qed.

Lemma length_string_bytes s : zlen (string_bytes s) = str_size s.
Proof.
  unfold str_size. induction s; simpl; [done|]. rewrite zlen_cons, IHs. lia.
Qed.

Lemma code_of_raw_of_code c : code_canonical c -> code_of_raw (code_raw c) = c.
Proof.
  destruct c; try done. simpl. intros. unfold code_of_raw. destruct (raw <? 28) eqn:?; [lia|].
  by rewrite andb_false_r.
Qed.

(** Case analysis on a value below a small bound. *)
Ltac z_cases x := 
  match goal with
  | _ : 0 <= x < ?n |- _ =>
      let H := fresh in
      assert (H : x ∈ (Z.of_nat <$> seq 0 (Z.to_nat n)));
      [apply list_elem_of_fmap; exists (Z.to_nat x); split; [lia|apply elem_of_seq; lia]|];
      simpl in H; repeat (apply elem_of_cons in H as [->|H]; [|]); [..|by apply elem_of_nil in H]
  end.

Lemma code_raw_of_raw r : in_u16 r -> code_raw (code_of_raw r) = r /\ code_canonical (code_of_raw r).
Proof.
  intros Hr. destruct (decide (r < 28)) as [Hlt|].
  - assert (Hc : 0 <= r < 28) by (ints; lia). clear Hr Hlt. z_cases r; done.
  - unfold code_of_raw. rewrite (proj2 (Z.ltb_ge r 28)) by lia. rewrite andb_false_r.
    simpl. ints. lia.
Qed.

Lemma checked_add_unsigned_spec hi a b r :
  0 <= a <= hi -> 0 <= b <= hi ->
  checked_add_unsigned hi a b = Some r <-> r = a + b /\ a + b <= hi.
Proof. intros. unfold checked_add_unsigned. split_test; bool_prop; naive_solver lia. Qed.

Lemma checked_sub_unsigned_spec hi a b r :
  0 <= a <= hi -> 0 <= b <= hi ->
  checked_sub_unsigned a b = Some r <-> r = a - b /\ 0 <= a - b.
Proof. intros. unfold checked_sub_unsigned. split_test; bool_prop; naive_solver lia. Qed.

Lemma checked_add_signed_spec lo hi a b r :
  lo < 0 < hi -> lo <= a <= hi -> lo <= b <= hi ->
  checked_add_signed lo hi a b = Some r <-> r = a + b /\ lo <= a + b <= hi.
Proof.
  intros. unfold checked_add_signed. repeat split_test; bool_prop; naive_solver lia.
Qed.

Lemma checked_sub_signed_spec lo hi a b r :
  lo < 0 < hi -> lo <= a <= hi -> lo <= b <= hi ->
  checked_sub_signed lo hi a b = Some r <-> r = a - b /\ lo <= a - b <= hi.
Proof.
  intros. unfold checked_sub_signed. repeat split_test; bool_prop; naive_solver lia.
Qed.

(** Truncating division bounds a product: [a > m / b] exactly when [a * b > m]. *)
Lemma quot_pos_bound m b a : 0 <= m -> 0 < b -> 0 < a -> (Z.quot m b < a <-> m < a * b).
Proof. intros. rewrite Z.quot_div_nonneg by lia. Z.div_mod_to_equations. nia. Qed.

Lemma quot_neg_bound m b a : m < 0 -> 0 < b -> a < 0 -> (a < Z.quot m b <-> a * b < m).
Proof.
  intros. rewrite <- (Z.opp_involutive m), Z.quot_opp_l by lia.
  rewrite Z.quot_div_nonneg by lia. Z.div_mod_to_equations. nia.
Qed.

Lemma quot_flip_bound m b a : 0 < m -> b < 0 -> a < 0 -> (a < Z.quot m b <-> m < a * b).
Proof.
  intros. rewrite <- (Z.opp_involutive b), Z.quot_opp_r by lia.
  rewrite Z.quot_div_nonneg by lia. Z.div_mod_to_equations. nia.
Qed.

Lemma checked_mul_unsigned_spec hi a b r :
  0 <= a <= hi -> 0 <= b <= hi ->
  checked_mul_unsigned hi a b = Some r <-> r = a * b /\ a * b <= hi.
Proof.
  intros. unfold checked_mul_unsigned.
  destruct ((a =? 0) || (b =? 0)) eqn:E; bool_prop.
  - assert (a * b = 0) as -> by (destruct E; subst; lia). naive_solver lia.
  - pose proof (quot_pos_bound hi b a). split_test; bool_prop; naive_solver lia.
Qed.

Lemma checked_mul_signed_spec lo hi a b r :
  lo < 0 < hi -> lo <= a <= hi -> lo <= b <= hi ->
  checked_mul_signed lo hi a b = Some r <-> r = a * b /\ lo <= a * b <= hi.
Proof.
  intros. unfold checked_mul_signed.
  destruct ((a =? 0) || (b =? 0)) eqn:E; bool_prop.
  { assert (a * b = 0) as -> by (destruct E; subst; lia). naive_solver lia. }
  destruct (0 <? a) eqn:Ea, (0 <? b) eqn:Eb; bool_prop.
  - pose proof (quot_pos_bound hi b a). assert (0 < a * b) by nia.
    split_test; bool_prop; naive_solver lia.
  - pose proof (quot_neg_bound lo a b). assert (a * b < 0) by nia. rewrite (Z.mul_comm b a) in *.
    split_test; bool_prop; naive_solver lia.
  - pose proof (quot_neg_bound lo b a). assert (a * b < 0) by nia.
    split_test; bool_prop; naive_solver lia.
  - pose proof (quot_flip_bound hi b a). assert (0 < a * b) by nia.
    split_test; bool_prop; naive_solver lia.
Qed.

(** The value a checked operation returns is the mathematical result, and it
    refuses exactly when that result does not fit. *)
Definition fits (lo hi : Z) (exact : Z) (r : option Z) : Prop :=
  r = if (lo <=? exact) && (exact <=? hi) then Some exact else None.

Lemma fits_of_spec lo hi exact r :
  (forall v, r = Some v <-> v = exact /\ lo <= exact <= hi) -> fits lo hi exact r.
Proof.
  intros Hs. unfold fits. destruct ((lo <=? exact) && (exact <=? hi)) eqn:E; bool_prop.
  - by apply Hs.
  - destruct r as [v|] eqn:Er; [|done]. destruct (proj1 (Hs v) eq_refl). lia.
Qed.

Lemma validate_bounded_ok entries v c n :
  status_ok (validate_bounded entries) = true -> (v, c, n) ∈ entries -> 0 <= v -> 0 < v <= c.
Proof.
  induction entries as [|[[v' c'] n'] es IH]; simpl; [by intros _ ?%elem_of_nil|].
  unfold require_positive, require_within.
  repeat split_test; autorewrite with status in *; try done; bool_prop.
  intros Hok [?|Hin]%elem_of_cons ?; simplify_eq; [lia|auto].
Qed.

Lemma limits_validate_bounded l v c n :
  status_ok (limits_validate l) = true -> (v, c, n) ∈ bounded_limits l -> 0 <= v -> 0 < v <= c.
Proof.
  unfold limits_validate. destruct (status_ok (validate_bounded (bounded_limits l))) eqn:E.
  - intros _. by apply validate_bounded_ok.
  - intros. congruence.
Qed.

Lemma limits_validate_windows l :
  status_ok (limits_validate l) = true ->
  freshness_window_ns l <> 0 /\ fence_horizon_ns l <> 0 /\ max_frame_payload l <= max_document_bytes l.
Proof.
  unfold limits_validate.
  repeat split_test; autorewrite with status in *; try done; bool_prop; intros; try congruence; lia.
Qed.

Example limits_defaults_valid : limits_validate limits_defaults = success.
Proof. vm_compute. reflexivity. Qed.
