(* ===== verification/Generation.v ===== *)
(** Generation vectors and durable failure records (include/sff/model/generation.hpp,
    src/model/generation.cpp).

    A [GenerationVector] is its key vector [keys_]; the class keeps it strictly
    increasing and free of unqualified keys, which is the invariant [gv_wf]. *)

From S2P Require Import Prelude Containers Core.

Abbreviation GenerationVector := (list SwitchKey).

Definition canonicalise (keys : list SwitchKey) : GenerationVector :=
  sort_and_dedupe (filter (fun k => key_valid k = true) keys).

Definition gv_contains (v : GenerationVector) (k : SwitchKey) : bool := binary_search ltb v k.

Fixpoint contains_identity_deliberately (v : GenerationVector) (id : Z) : bool :=
  match v with
  | [] => false
  | k :: v' => if sk_id k =? id then true else contains_identity_deliberately v' id
  end.

Definition contains_all (v other : GenerationVector) : bool :=
  forallb (gv_contains v) other.

(** The two cursors of the merge loop are the remaining suffixes; each turn
    consumes one key, so the sum of the lengths is enough fuel. *)
Fixpoint intersects_loop (fuel : nat) (left right : list SwitchKey) : bool :=
  match fuel, left, right with
  | S fuel', a :: left', b :: right' =>
      if bool_decide (a = b) then true
      else if ltb a b then intersects_loop fuel' left' right
      else intersects_loop fuel' left right'
  | _, _, _ => false
  end.

Definition intersects (v other : GenerationVector) : bool :=
  intersects_loop (length v + length other) v other.

Definition gv_insert (v : GenerationVector) (k : SwitchKey) : GenerationVector * bool :=
  if negb (key_valid k) then (v, false)
  else
    let position := lower_bound ltb v k in
    if match v !! position with Some y => bool_decide (y = k) | None => false end
    then (v, false)
    else (insert_at position k v, true).

(** [std::set_union] of two sorted ranges: equal elements are taken once. *)
Fixpoint set_union (fuel : nat) (l r : list SwitchKey) : list SwitchKey :=
  match fuel, l, r with
  | S fuel', a :: l', b :: r' =>
      if ltb a b then a :: set_union fuel' l' r
      else if ltb b a then b :: set_union fuel' l r'
      else a :: set_union fuel' l' r'
  | _, [], r => r
  | _, l, _ => l
  end.

Fixpoint set_intersection (fuel : nat) (l r : list SwitchKey) : list SwitchKey :=
  match fuel, l, r with
  | S fuel', a :: l', b :: r' =>
      if ltb a b then set_intersection fuel' l' r
      else if ltb b a then set_intersection fuel' l r'
      else a :: set_intersection fuel' l' r'
  | _, _, _ => []
  end.

Definition united (v other : GenerationVector) : GenerationVector :=
  canonicalise (set_union (length v + length other) v other).

Definition intersected (v other : GenerationVector) : GenerationVector :=
  canonicalise (set_intersection (length v + length other) v other).

Definition without_identity (v : GenerationVector) (id : Z) : GenerationVector :=
  canonicalise (filter (fun k => sk_id k <> id) v).

Definition gv_digest (v : GenerationVector) : Z :=
  dig_hi (absorb_each absorb_key v
            (absorb_u64 (zlen v) (absorb_string "sff.generation-vector.v1" digest_init))).

Definition gv_to_string (v : GenerationVector) : string :=
  "[" +:+ String.concat "," (key_to_string <$> v) +:+ "]".

Record FailureRecord := mkFailureRecord {
  fr_subject : SwitchKey;
  fr_evidence : Z;
  fr_epoch : Z;
  fr_boot : BootIncarnation;
  fr_observed_at_ns : Z;
  fr_recorded_at_ns : Z;
  fr_reason : string
}.

#[export] Instance FailureRecord_eq_dec : EqDecision FailureRecord.
Proof. solve_decision. Defined.

Definition failure_digest (r : FailureRecord) : Z :=
  dig_hi
    (absorb_string (fr_reason r)
      (absorb_u64 (fr_recorded_at_ns r)
        (absorb_u64 (fr_observed_at_ns r)
          (absorb_u64 (boot_process_id (fr_boot r))
            (absorb_u64 (boot_ordinal (fr_boot r))
              (absorb_u64 (fr_epoch r)
                (absorb_u64 (fr_evidence r)
                  (absorb_key (fr_subject r)
                    (absorb_string "sff.failure-record.v1" digest_init))))))))).

(** * The class invariant and what the operations compute *)

Definition gv_wf (v : GenerationVector) : Prop :=
  canonical v /\ forall k, k ∈ v -> key_valid k = true.

Lemma gv_wf_nil : gv_wf [].
Proof. split; [constructor|]. by intros k ?%elem_of_nil. Qed.

Lemma elem_of_canonicalise k keys : k ∈ canonicalise keys <-> key_valid k = true /\ k ∈ keys.
Proof. unfold canonicalise. by rewrite elem_of_sort_and_dedupe, list_elem_of_filter. Qed.

Lemma canonicalise_wf keys : gv_wf (canonicalise keys).
Proof. split; [apply sort_and_dedupe_canonical|]. intros k. by rewrite elem_of_canonicalise; intros [? _]. Qed.

Lemma canonicalise_ext keys keys' :
  (forall k, k ∈ keys <-> k ∈ keys') -> canonicalise keys = canonicalise keys'.
Proof.
  intros Hext. apply canonical_ext; try apply canonicalise_wf.
  intros. by rewrite !elem_of_canonicalise, Hext.
Qed.

Lemma canonicalise_id v : gv_wf v -> canonicalise v = v.
Proof.
  intros [Hc Hv]. apply canonical_ext; [apply canonicalise_wf|done|].
  intros. rewrite elem_of_canonicalise. naive_solver.
Qed.

Lemma gv_contains_spec v k : gv_wf v -> gv_contains v k = true <-> k ∈ v.
Proof. intros [Hc _]. by apply binary_search_spec. Qed.

Lemma contains_identity_spec v id :
  contains_identity_deliberately v id = true <-> exists k, k ∈ v /\ sk_id k = id.
Proof.
  induction v as [|a v IH]; simpl.
  { split; [done|]. by intros (? & ?%elem_of_nil & _). }
  split_test; bool_prop; [|rewrite IH]; split; intros; try done.
  - exists a. split; [left|done].
  - destruct H as (k & ? & ?). exists k. split; [by right|done].
  - destruct H as (k & [->|]%elem_of_cons & ?); [done|eauto].
Qed.

Lemma contains_all_spec v other :
  gv_wf v -> contains_all v other = true <-> forall k, k ∈ other -> k ∈ v.
Proof.
  intros Hv. unfold contains_all. rewrite forallb_forall. split; intros Hall k Hk.
  - apply gv_contains_spec; [done|]. by apply Hall, list_elem_of_In.
  - apply gv_contains_spec; [done|]. by apply Hall, list_elem_of_In.
Qed.

Lemma intersects_loop_spec fuel l r :
  (length l + length r <= fuel)%nat -> canonical l -> canonical r ->
  intersects_loop fuel l r = true <-> exists k, k ∈ l /\ k ∈ r.
Proof.
  revert l r. induction fuel as [|fuel IH]; intros l r Hf Hl Hr; cbn [intersects_loop].
  { destruct l; simpl in *; [|lia]. split; [done|]. by intros (? & ?%elem_of_nil & _). }
  destruct l as [|a l], r as [|b r].
  1-3: split; [done|]; intros (? & Ha & Hb);
       by first [apply elem_of_nil in Ha|apply elem_of_nil in Hb].
  pose proof (canonical_inv _ _ Hl) as [Hl' Hal]. pose proof (canonical_inv _ _ Hr) as [Hr' Hbr].
  case_bool_decide; subst.
  { split; [|done]. intros _. exists b. split; left. }
  destruct (ltb a b) eqn:E; rewrite IH by (simpl in *; first [lia|done]); split; intros (k & H1 & H2).
  - exists k. split; [by right|done].
  - exists k. split; [|done]. apply elem_of_cons in H1 as [->|]; [|done].
    apply elem_of_cons in H2 as [->|H2]; [done|]. specialize (Hbr _ H2).
    by rewrite (less_asym ltb _ _ Hbr) in E.
  - exists k. split; [done|by right].
  - exists k. split; [done|]. apply elem_of_cons in H2 as [->|]; [|done].
    apply elem_of_cons in H1 as [->|H1]; [done|]. specialize (Hal _ H1). congruence.
Qed.

Lemma intersects_spec v other :
  gv_wf v -> gv_wf other -> intersects v other = true <-> exists k, k ∈ v /\ k ∈ other.
Proof. intros [? _] [? _]. by apply intersects_loop_spec. Qed.

Lemma lookup_lower_bound_hit (v : GenerationVector) k :
  canonical v ->
  match v !! lower_bound ltb v k with Some y => bool_decide (y = k) | None => false end = true <-> k ∈ v.
Proof.
  intros Hc. rewrite <- (binary_search_spec v k Hc). unfold binary_search.
  pose proof (lower_bound_split v k Hc) as [_ Hd].
  destruct (v !! lower_bound ltb v k) as [y|] eqn:E; [|done].
  rewrite bool_decide_eq_true, negb_true_iff. split; [intros ->; apply less_irrefl|].
  intros Hk. apply (less_total (less := ltb)); [|done]. apply Hd.
  rewrite list_elem_of_lookup. exists 0%nat. rewrite lookup_drop. by rewrite Nat.add_0_r.
Qed.

Lemma gv_insert_spec v k :
  gv_wf v -> gv_wf (gv_insert v k).1 /\
  (forall x, x ∈ (gv_insert v k).1 <-> x ∈ v \/ (x = k /\ key_valid k = true)) /\
  ((gv_insert v k).2 = true <-> key_valid k = true /\ k ∉ v).
Proof.
  intros [Hc Hv]. unfold gv_insert. destruct (key_valid k) eqn:Ek; simpl.
  2: { split; [by split|split; [intros x|]; naive_solver]. }
  destruct (match v !! lower_bound ltb v k with Some y => bool_decide (y = k) | None => false end) eqn:E.
  - apply lookup_lower_bound_hit in E; [|done]. simpl. split; [by split|split].
    + intros x. split; [by left|]. by intros [|[-> _]].
    + naive_solver.
  - assert (k ∉ v) by (intros Hin%lookup_lower_bound_hit; [congruence|done]). simpl. split; [|split].
    + split; [by apply insert_at_lower_bound_canonical|]. intros x [->|]%insert_at_elem_of; auto.
    + intros x. rewrite insert_at_elem_of. naive_solver.
    + naive_solver.
Qed.

Lemma elem_of_set_union fuel l r k :
  (length l + length r <= fuel)%nat -> k ∈ set_union fuel l r <-> k ∈ l \/ k ∈ r.
Proof.
  revert l r. induction fuel as [|fuel IH]; intros l r Hf.
  { destruct l, r; simpl in *; try lia. set_solver. }
  destruct l as [|a l], r as [|b r]; try (simpl; set_solver).
  cbn [set_union]. destruct (ltb a b) eqn:E1; [|destruct (ltb b a) eqn:E2].
  - rewrite elem_of_cons, IH by (simpl in *; lia). rewrite !elem_of_cons. tauto.
  - rewrite elem_of_cons, IH by (simpl in *; lia). rewrite !elem_of_cons. tauto.
  - rewrite elem_of_cons, IH by (simpl in *; lia). rewrite !elem_of_cons.
    rewrite (less_total (less := ltb) a b) by done. tauto.
Qed.

Lemma elem_of_set_intersection fuel l r k :
  (length l + length r <= fuel)%nat -> canonical l -> canonical r ->
  k ∈ set_intersection fuel l r <-> k ∈ l /\ k ∈ r.
Proof.
  revert l r. induction fuel as [|fuel IH]; intros l r Hf Hl Hr.
  { destruct l, r; simpl in *; try lia. set_solver. }
  destruct l as [|a l], r as [|b r]; try (simpl; set_solver).
  pose proof (canonical_inv _ _ Hl) as [Hl' Hal]. pose proof (canonical_inv _ _ Hr) as [Hr' Hbr].
  cbn [set_intersection]. destruct (ltb a b) eqn:E1; [|destruct (ltb b a) eqn:E2].
  - rewrite IH by (simpl in *; first [lia|done]). rewrite (elem_of_cons l). split; [naive_solver|].
    intros [[->|?] Hr2]; [|done]. apply elem_of_cons in Hr2 as [->|Hr2].
    + by rewrite less_irrefl in E1.
    + specialize (Hbr _ Hr2). by rewrite (less_asym ltb _ _ Hbr) in E1.
  - rewrite IH by (simpl in *; first [lia|done]). rewrite (elem_of_cons r). split; [naive_solver|].
    intros [Hl2 [->|?]]; [|done]. apply elem_of_cons in Hl2 as [->|Hl2].
    + by rewrite less_irrefl in E2.
    + specialize (Hal _ Hl2). by rewrite (less_asym ltb _ _ Hal) in E2.
  - pose proof (less_total (less := ltb) a b E1 E2). subst b.
    rewrite elem_of_cons, IH by (simpl in *; first [lia|done]). rewrite !elem_of_cons. split; [naive_solver|].
    intros [[?|?] [?|?]]; auto.
Qed.

Lemma united_wf v other : gv_wf (united v other).
Proof. apply canonicalise_wf. Qed.

Lemma elem_of_united v other k :
  gv_wf v -> gv_wf other -> k ∈ united v other <-> k ∈ v \/ k ∈ other.
Proof.
  intros [_ Hv] [_ Ho]. unfold united. rewrite elem_of_canonicalise, elem_of_set_union by lia.
  naive_solver.
Qed.

Lemma elem_of_intersected v other k :
  gv_wf v -> gv_wf other -> k ∈ intersected v other <-> k ∈ v /\ k ∈ other.
Proof.
  intros [Hc Hv] [Hc' _]. unfold intersected.
  rewrite elem_of_canonicalise, elem_of_set_intersection by (lia || done). naive_solver.
Qed.

Lemma elem_of_without_identity v id k :
  gv_wf v -> k ∈ without_identity v id <-> k ∈ v /\ sk_id k <> id.
Proof.
  intros [_ Hv]. unfold without_identity. rewrite elem_of_canonicalise, list_elem_of_filter.
  naive_solver.
Qed.

#[export] Hint Resolve gv_wf_nil canonicalise_wf united_wf : core.

(** ** Properties *)

(** The generation-vector operations of src/model/generation.cpp are the
    set operations on generation-qualified keys, and each keeps the vector in
    canonical form: the binary search finds exactly the members, the merge loop
    of [intersects] answers whether the two vectors share a generation, and
    [united], [intersected], [without_identity] and [insert] compute union,
    intersection, removal of an identity and insertion of a valid key. *)
Theorem generation_vector_set_semantics v other k id :
  gv_wf v -> gv_wf other ->
  (gv_contains v k = true <-> k ∈ v) /\
  (contains_all v other = true <-> forall x, x ∈ other -> x ∈ v) /\
  (intersects v other = true <-> exists x, x ∈ v /\ x ∈ other) /\
  (gv_wf (united v other) /\ forall x, x ∈ united v other <-> x ∈ v \/ x ∈ other) /\
  (gv_wf (intersected v other) /\ forall x, x ∈ intersected v other <-> x ∈ v /\ x ∈ other) /\
  (gv_wf (without_identity v id) /\
     forall x, x ∈ without_identity v id <-> x ∈ v /\ sk_id x <> id) /\
  (gv_wf (gv_insert v k).1 /\
     forall x, x ∈ (gv_insert v k).1 <-> x ∈ v \/ (x = k /\ key_valid k = true)).
Proof.
  intros Hv Ho. pose proof (gv_insert_spec v k Hv) as (? & ? & _).
  split_and!; eauto using gv_contains_spec, contains_all_spec, intersects_spec, canonicalise_wf,
    elem_of_united, elem_of_intersected, elem_of_without_identity.
Qed.

(** Canonicalisation does not depend on the order or multiplicity of the
    supplied keys (container and insertion order cannot change the output), is
    idempotent, and keeps exactly the generation-qualified keys. *)
Theorem canonicalise_deterministic keys keys' :
  (forall k, k ∈ keys <-> k ∈ keys') ->
  canonicalise keys = canonicalise keys' /\
  canonicalise (canonicalise keys) = canonicalise keys /\
  (forall k, k ∈ canonicalise keys <-> key_valid k = true /\ k ∈ keys).
Proof.
  intros Hext. split; [by apply canonicalise_ext|split; [by apply canonicalise_id|]].
  intros. apply elem_of_canonicalise.
Qed.

Lemma generation_vector_set_semantics_witness :
  let v := [mkSwitchKey 1 1; mkSwitchKey 2 3] in
  gv_contains v (mkSwitchKey 2 3) = true <-> mkSwitchKey 2 3 ∈ v.
Proof.
  assert (Hw : gv_wf [mkSwitchKey 1 1; mkSwitchKey 2 3]).
  { split; [repeat constructor|]. intros k Hk. repeat (apply elem_of_cons in Hk as [->|Hk]; [done|]).
    by apply elem_of_nil in Hk. }
  exact (proj1 (generation_vector_set_semantics _ _ (mkSwitchKey 2 3) 1 Hw Hw)).
Defined.

Lemma canonicalise_deterministic_witness :
  canonicalise [mkSwitchKey 2 1; mkSwitchKey 1 4; mkSwitchKey 2 1] =
  canonicalise [mkSwitchKey 1 4; mkSwitchKey 2 1].
Proof.
  refine (proj1 (canonicalise_deterministic _ _ _)). intros k.
  rewrite !elem_of_cons, elem_of_nil. tauto.
Defined.
