(* ===== verification/Switch.v ===== *)
(** Generation-qualified switch descriptors and capability masks
    (include/sff/model/switch.hpp, src/model/switch.cpp). *)

From S2P Require Import Prelude Containers Core.

Module SwitchRole.
Inductive SwitchRole := Unknown | Leaf | Spine | TopOfRack | Core | Edge.
End SwitchRole.
Abbreviation SwitchRole := SwitchRole.SwitchRole.

Module SwitchAdminState.
Inductive SwitchAdminState := Unknown | Enabled | Disabled | Maintenance.
End SwitchAdminState.
Abbreviation SwitchAdminState := SwitchAdminState.SwitchAdminState.

Module SwitchHealthState.
Inductive SwitchHealthState :=
| Unknown | Healthy | Degraded | Unreachable | Suspect | Failed | Recovering.
End SwitchHealthState.
Abbreviation SwitchHealthState := SwitchHealthState.SwitchHealthState.

Module Capability.
Inductive Capability :=
| None | Layer2 | Layer3 | Vxlan | Roce | LosslessPfc | EcnMarking | Ecmp | HighRadix
| Telemetry | ProgrammablePipeline.
End Capability.
Abbreviation Capability := Capability.Capability.

#[export] Instance SwitchRole_eq_dec : EqDecision SwitchRole.
Proof. solve_decision. Defined.
#[export] Instance SwitchAdminState_eq_dec : EqDecision SwitchAdminState.
Proof. solve_decision. Defined.
#[export] Instance SwitchHealthState_eq_dec : EqDecision SwitchHealthState.
Proof. solve_decision. Defined.
#[export] Instance Capability_eq_dec : EqDecision Capability.
Proof. solve_decision. Defined.

Definition switch_role_raw (r : SwitchRole) : Z :=
  match r with
  | SwitchRole.Unknown => 0 | SwitchRole.Leaf => 1 | SwitchRole.Spine => 2
  | SwitchRole.TopOfRack => 3 | SwitchRole.Core => 4 | SwitchRole.Edge => 5
  end.

Definition switch_role_to_string (r : SwitchRole) : string :=
  match r with
  | SwitchRole.Unknown => "UNKNOWN"
  | SwitchRole.Leaf => "LEAF"
  | SwitchRole.Spine => "SPINE"
  | SwitchRole.TopOfRack => "TOR"
  | SwitchRole.Core => "CORE"
  | SwitchRole.Edge => "EDGE"
  end.

Definition is_valid_switch_role (raw : Z) : bool := raw <=? switch_role_raw SwitchRole.Edge.

Definition admin_state_raw (s : SwitchAdminState) : Z :=
  match s with
  | SwitchAdminState.Unknown => 0 | SwitchAdminState.Enabled => 1
  | SwitchAdminState.Disabled => 2 | SwitchAdminState.Maintenance => 3
  end.

Definition admin_state_to_string (s : SwitchAdminState) : string :=
  match s with
  | SwitchAdminState.Unknown => "UNKNOWN"
  | SwitchAdminState.Enabled => "ENABLED"
  | SwitchAdminState.Disabled => "DISABLED"
  | SwitchAdminState.Maintenance => "MAINTENANCE"
  end.

Definition is_valid_admin_state (raw : Z) : bool := raw <=? admin_state_raw SwitchAdminState.Maintenance.

Definition health_state_raw (s : SwitchHealthState) : Z :=
  match s with
  | SwitchHealthState.Unknown => 0 | SwitchHealthState.Healthy => 1
  | SwitchHealthState.Degraded => 2 | SwitchHealthState.Unreachable => 3
  | SwitchHealthState.Suspect => 4 | SwitchHealthState.Failed => 5
  | SwitchHealthState.Recovering => 6
  end.

Definition health_state_to_string (s : SwitchHealthState) : string :=
  match s with
  | SwitchHealthState.Unknown => "UNKNOWN"
  | SwitchHealthState.Healthy => "HEALTHY"
  | SwitchHealthState.Degraded => "DEGRADED"
  | SwitchHealthState.Unreachable => "UNREACHABLE"
  | SwitchHealthState.Suspect => "SUSPECT"
  | SwitchHealthState.Failed => "FAILED"
  | SwitchHealthState.Recovering => "RECOVERING"
  end.

Definition is_valid_health_state (raw : Z) : bool :=
  raw <=? health_state_raw SwitchHealthState.Recovering.

Definition capability_bit (c : Capability) : Z :=
  match c with
  | Capability.None => 0
  | Capability.Layer2 => Z.shiftl 1 0
  | Capability.Layer3 => Z.shiftl 1 1
  | Capability.Vxlan => Z.shiftl 1 2
  | Capability.Roce => Z.shiftl 1 3
  | Capability.LosslessPfc => Z.shiftl 1 4
  | Capability.EcnMarking => Z.shiftl 1 5
  | Capability.Ecmp => Z.shiftl 1 6
  | Capability.HighRadix => Z.shiftl 1 7
  | Capability.Telemetry => Z.shiftl 1 8
  | Capability.ProgrammablePipeline => Z.shiftl 1 9
  end.

Definition capability_to_string (c : Capability) : string :=
  match c with
  | Capability.None => "NONE"
  | Capability.Layer2 => "L2"
  | Capability.Layer3 => "L3"
  | Capability.Vxlan => "VXLAN"
  | Capability.Roce => "ROCE"
  | Capability.LosslessPfc => "PFC"
  | Capability.EcnMarking => "ECN"
  | Capability.Ecmp => "ECMP"
  | Capability.HighRadix => "HIGH_RADIX"
  | Capability.Telemetry => "TELEMETRY"
  | Capability.ProgrammablePipeline => "PROGRAMMABLE"
  end.

Definition capability_order : list Capability :=
  [Capability.Layer2; Capability.Layer3; Capability.Vxlan; Capability.Roce;
   Capability.LosslessPfc; Capability.EcnMarking; Capability.Ecmp; Capability.HighRadix;
   Capability.Telemetry; Capability.ProgrammablePipeline].

Definition kAllCapabilities : Z :=
  foldl (fun acc c => Z.lor acc (capability_bit c)) 0 capability_order.

Definition is_valid_capability (raw : Z) : bool :=
  if raw =? 0 then false
  else if negb (Z.land raw (wrap32 (raw - 1)) =? 0) then false
  else Z.land raw kAllCapabilities =? raw.

Definition has_capability (mask : Z) (c : Capability) : bool :=
  negb (Z.land mask (capability_bit c) =? 0).

Definition has_all_capabilities (mask required : Z) : bool := Z.land mask required =? required.

Definition capabilities_to_string (mask : Z) : string :=
  if mask =? 0 then "NONE"%string
  else String.concat "|" (capability_to_string <$> filter (fun c => has_capability mask c = true) capability_order).

(** `mask & ~kAllCapabilities` on 32 bits. *)
Definition validate_capability_mask (mask : Z) : Status :=
  if negb (Z.land mask (Z.lxor kAllCapabilities (two32 - 1)) =? 0)
  then failure Code.Invalid "capability mask contains undefined bits"
  else success.

Record SwitchDescriptor := mkSwitchDescriptor {
  sd_key : SwitchKey;
  sd_role : SwitchRole;
  sd_admin : SwitchAdminState;
  sd_failure_domain : Z;
  sd_capabilities : Z;
  sd_port_count : Z;
  sd_max_radix : Z;
  sd_capacity_score : Z;
  sd_label : string
}.

Definition switch_digest (d : SwitchDescriptor) : Z :=
  dig_hi
    (absorb_string (sd_label d)
      (absorb_u64 (sd_capacity_score d)
        (absorb_u64 (sd_max_radix d)
          (absorb_u64 (sd_port_count d)
            (absorb_u64 (sd_capabilities d)
              (absorb_u64 (sd_failure_domain d)
                (absorb_byte (admin_state_raw (sd_admin d))
                  (absorb_byte (switch_role_raw (sd_role d))
                    (absorb_key (sd_key d)
                      (absorb_string "sff.switch-descriptor.v1" digest_init)))))))))).

Definition switch_validate (d : SwitchDescriptor) : Status :=
  (if negb (key_valid (sd_key d)) then
     failure Code.Invalid "switch descriptor carries an unqualified generation"
   else if negb (is_valid_switch_role (switch_role_raw (sd_role d))) then
     failure Code.Invalid "switch descriptor has an invalid role"
   else if negb (is_valid_admin_state (admin_state_raw (sd_admin d))) then
     failure Code.Invalid "switch descriptor has an invalid admin state"
   else
     check validate_capability_mask (sd_capabilities d);;
     if sd_port_count d =? 0 then
       failure Code.Invalid "switch descriptor declares zero ports"
     else if negb (Bool.eqb (id_valid (sk_id (sd_key d))) (id_valid (sd_failure_domain d)))
             && (id_valid (sd_failure_domain d) && negb (id_valid (sk_id (sd_key d)))) then
       failure Code.Invalid "failure domain without a switch identity"
     else success)%sff.

(** * Facts *)

(** A required set is provided exactly when each of its bits is. *)
Lemma has_all_capabilities_spec mask required :
  has_all_capabilities mask required = true <->
  forall i, 0 <= i -> Z.testbit required i = true -> Z.testbit mask i = true.
Proof.
  unfold has_all_capabilities. rewrite Z.eqb_eq. split.
  - intros H i Hi Hr. rewrite <- H in Hr. rewrite Z.land_spec in Hr. by apply andb_true_iff in Hr as [? _].
  - intros H. apply Z.bits_inj'. intros i Hi. rewrite Z.land_spec.
    destruct (Z.testbit required i) eqn:E; [|by rewrite andb_false_r]. by rewrite H.
Qed.

Lemma switch_validate_key d : status_ok (switch_validate d) = true -> key_valid (sd_key d) = true.
Proof.
  unfold switch_validate. destruct (key_valid (sd_key d)); [done|]. cbn [negb].
  by rewrite failure_not_ok.
Qed.
