(* ===== verification/Authority.v ===== *)
(** Dependency authority, fencing and revocation (include/sff/model/authority.hpp,
    src/model/authority.cpp): the registry of grants and fences. Each public
    operation holds the registry mutex for its whole body, so it is one step of
    the registry state. *)

From S2P Require Import Prelude Containers Core Generation.

Module GrantState.
Inductive GrantState := Unknown | Active | Stale | Revoked | Expired | Fenced.
End GrantState.
Abbreviation GrantState := GrantState.GrantState.

Module RevocationCause.
Inductive RevocationCause :=
| Unknown | Superseded | Fence | Restart | Expiry | OperatorRevocation | RevalidationFailed
| Shutdown.
End RevocationCause.
Abbreviation RevocationCause := RevocationCause.RevocationCause.

Module FenceScopeState.
Inductive FenceScopeState := Open | Partial | Committed.
End FenceScopeState.
Abbreviation FenceScopeState := FenceScopeState.FenceScopeState.

#[export] Instance GrantState_eq_dec : EqDecision GrantState.
Proof. solve_decision. Defined.
#[export] Instance RevocationCause_eq_dec : EqDecision RevocationCause.
Proof. solve_decision. Defined.
#[export] Instance FenceScopeState_eq_dec : EqDecision FenceScopeState.
Proof. solve_decision. Defined.

Definition grant_state_raw (s : GrantState) : Z :=
  match s with
  | GrantState.Unknown => 0 | GrantState.Active => 1 | GrantState.Stale => 2
  | GrantState.Revoked => 3 | GrantState.Expired => 4 | GrantState.Fenced => 5
  end.

Definition grant_state_to_string (s : GrantState) : string :=
  match s with
  | GrantState.Unknown => "UNKNOWN"
  | GrantState.Active => "ACTIVE"
  | GrantState.Stale => "STALE"
  | GrantState.Revoked => "REVOKED"
  | GrantState.Expired => "EXPIRED"
  | GrantState.Fenced => "FENCED"
  end.

Definition revocation_cause_raw (c : RevocationCause) : Z :=
  match c with
  | RevocationCause.Unknown => 0 | RevocationCause.Superseded => 1 | RevocationCause.Fence => 2
  | RevocationCause.Restart => 3 | RevocationCause.Expiry => 4
  | RevocationCause.OperatorRevocation => 5 | RevocationCause.RevalidationFailed => 6
  | RevocationCause.Shutdown => 7
  end.

Definition revocation_cause_to_string (c : RevocationCause) : string :=
  match c with
  | RevocationCause.Unknown => "UNKNOWN"
  | RevocationCause.Superseded => "SUPERSEDED"
  | RevocationCause.Fence => "FENCE"
  | RevocationCause.Restart => "RESTART"
  | RevocationCause.Expiry => "EXPIRY"
  | RevocationCause.OperatorRevocation => "OPERATOR_REVOCATION"
  | RevocationCause.RevalidationFailed => "REVALIDATION_FAILED"
  | RevocationCause.Shutdown => "SHUTDOWN"
  end.

Definition fence_scope_raw (s : FenceScopeState) : Z :=
  match s with
  | FenceScopeState.Open => 0 | FenceScopeState.Partial => 1 | FenceScopeState.Committed => 2
  end.

Definition fence_scope_to_string (s : FenceScopeState) : string :=
  match s with
  | FenceScopeState.Open => "OPEN"
  | FenceScopeState.Partial => "PARTIAL"
  | FenceScopeState.Committed => "COMMITTED"
  end.

Record AuthorityGrant := mkGrant {
  ag_id : Z;
  ag_dependent : DependentRef;
  ag_bound : GenerationVector;
  ag_epoch : Z;
  ag_boot : BootIncarnation;
  ag_attempt : Z;
  ag_granted_at_ns : Z;
  ag_expires_at_ns : Z;
  ag_state : GrantState;
  ag_cause : RevocationCause;
  ag_detail : string
}.

Definition grant_digest (g : AuthorityGrant) : Z :=
  dig_hi
    (absorb_string (ag_detail g)
      (absorb_byte (revocation_cause_raw (ag_cause g))
        (absorb_byte (grant_state_raw (ag_state g))
          (absorb_u64 (ag_expires_at_ns g)
            (absorb_u64 (ag_granted_at_ns g)
              (absorb_u64 (ag_attempt g)
                (absorb_u64 (boot_ordinal (ag_boot g))
                  (absorb_u64 (ag_epoch g)
                    (absorb_u64 (gv_digest (ag_bound g))
                      (absorb_dependent (ag_dependent g)
                        (absorb_u64 (ag_id g)
                          (absorb_string "sff.authority-grant.v1" digest_init)))))))))))).

Definition active_at (g : AuthorityGrant) (now_ns : Z) : bool :=
  bool_decide (ag_state g = GrantState.Active) && negb (ag_expires_at_ns g =? 0)
  && (ag_granted_at_ns g <=? now_ns) && (now_ns <=? ag_expires_at_ns g).

(** The fields a withdrawal rewrites. *)
Definition grant_with (g : AuthorityGrant) (st : GrantState) (cause : RevocationCause)
  (detail : string) : AuthorityGrant :=
  mkGrant (ag_id g) (ag_dependent g) (ag_bound g) (ag_epoch g) (ag_boot g) (ag_attempt g)
    (ag_granted_at_ns g) (ag_expires_at_ns g) st cause detail.

Record FenceRecord := mkFence {
  fence_id : Z;
  fence_subject : SwitchKey;
  fence_epoch : Z;
  fence_boot : BootIncarnation;
  fence_created_at_ns : Z;
  fence_scope_state : FenceScopeState;
  fence_closure_digest : Z;
  fence_closure_members : Z;
  fence_fenced_grants : Z;
  fence_omitted_dependents : Z;
  fence_reason : string
}.

Definition fence_digest (f : FenceRecord) : Z :=
  dig_hi
    (absorb_string (fence_reason f)
      (absorb_u64 (fence_omitted_dependents f)
        (absorb_u64 (fence_fenced_grants f)
          (absorb_u64 (fence_closure_members f)
            (absorb_u64 (fence_closure_digest f)
              (absorb_byte (fence_scope_raw (fence_scope_state f))
                (absorb_u64 (fence_created_at_ns f)
                  (absorb_u64 (boot_ordinal (fence_boot f))
                    (absorb_u64 (fence_epoch f)
                      (absorb_key (fence_subject f)
                        (absorb_u64 (fence_id f)
                          (absorb_string "sff.fence-record.v1" digest_init)))))))))))).

Record AuthorityQuery := mkQuery {
  aq_dependent : DependentRef;
  aq_has_authority : bool;
  aq_outcome : Code;
  aq_reason : Code;
  aq_bound : GenerationVector;
  aq_active_grants : list Z;
  aq_withdrawn_grants : list Z;
  aq_fenced_generations : list SwitchKey;
  aq_unproven_generations : list SwitchKey;
  aq_rationale : string
}.

Definition query_digest (q : AuthorityQuery) : Z :=
  dig_hi
    (absorb_each absorb_key (aq_unproven_generations q)
      (absorb_each absorb_key (aq_fenced_generations q)
        (absorb_each absorb_u64 (aq_withdrawn_grants q)
          (absorb_each absorb_u64 (aq_active_grants q)
            (absorb_u64 (gv_digest (aq_bound q))
              (absorb_byte (wrap8 (code_raw (aq_reason q)))
                (absorb_byte (wrap8 (code_raw (aq_outcome q)))
                  (absorb_bool (aq_has_authority q)
                    (absorb_dependent (aq_dependent q)
                      (absorb_string "sff.authority-query.v1" digest_init)))))))))).

(** * The registry *)

Record AuthorityRegistry := mkRegistry {
  ar_limits : Limits;
  ar_grants : list (Z * AuthorityGrant);
  ar_by_dependent : list (DependentRef * list Z);
  ar_fences : list (SwitchKey * FenceRecord);
  ar_next_grant : Z;
  ar_next_fence : Z;
  ar_attempt : Z
}.

Definition registry_new (limits : Limits) : AuthorityRegistry :=
  mkRegistry limits [] [] [] 1 1 0.

Definition with_grants (r : AuthorityRegistry) (grants : list (Z * AuthorityGrant)) :
  AuthorityRegistry :=
  mkRegistry (ar_limits r) grants (ar_by_dependent r) (ar_fences r) (ar_next_grant r)
    (ar_next_fence r) (ar_attempt r).

Definition index_of_dependent (r : AuthorityRegistry) (d : DependentRef) : list Z :=
  default [] (map_find d (ar_by_dependent r)).

Definition is_fenced (r : AuthorityRegistry) (key : SwitchKey) : bool :=
  map_contains key (ar_fences r).

Definition grant (r : AuthorityRegistry) (dependent : DependentRef) (bound : GenerationVector)
  (epoch : Z) (boot : BootIncarnation) (now_ns ttl_ns : Z) (detail : string) :
  Result Z * AuthorityRegistry :=
  if negb (dependent_valid dependent) then
    (Refused (failure Code.Invalid "grant subject is not a valid dependent reference"), r)
  else if bool_decide (bound = []) then
    (Refused (failure Code.Invalid "grant binds no generation"), r)
  else if negb (id_valid epoch) || negb (boot_valid boot) then
    (Refused (failure Code.Unauthorized "grant requires a current epoch and boot incarnation"), r)
  else if ttl_ns =? 0 then
    (Refused (failure Code.Invalid "grant requires a non-zero validity window"), r)
  else
    match List.find (is_fenced r) bound with
    | Some key =>
        (Refused (failure Code.Fenced ("grant would bind a fenced generation: " +:+ key_to_string key)), r)
    | None =>
        if max_authority_grants (ar_limits r) <=? map_size (ar_grants r) then
          (Refused (refuse_exhausted "max_authority_grants" (map_size (ar_grants r) + 1)
                      (max_authority_grants (ar_limits r))), r)
        else
          let attempt := add64 (ar_attempt r) 1 in
          let id := ar_next_grant r in
          let expires := add64 now_ns ttl_ns in
          let record :=
            mkGrant id dependent bound epoch boot attempt now_ns
              (if expires <? now_ns then UINT64_MAX else expires)
              GrantState.Active RevocationCause.Unknown (bounded_message detail) in
          (Value id,
           mkRegistry (ar_limits r) (map_emplace id record (ar_grants r))
             (map_set dependent (index_of_dependent r dependent ++ [id]) (ar_by_dependent r))
             (ar_fences r) (add64 id 1) (ar_next_fence r) attempt)
    end.

Definition revoke (r : AuthorityRegistry) (id : Z) (cause : RevocationCause) (detail : string) :
  Status * AuthorityRegistry :=
  match map_find id (ar_grants r) with
  | None => (failure Code.NotFound "grant identity is unknown", r)
  | Some g =>
      if negb (bool_decide (ag_state g = GrantState.Active)) then (success, r)
      else (success,
            with_grants r (map_set id (grant_with g GrantState.Revoked cause (bounded_message detail))
                             (ar_grants r)))
  end.

(** The loops over [grants_] that withdraw some grants and count them. *)
Definition withdraw_where (r : AuthorityRegistry) (sel : AuthorityGrant -> bool)
  (upd : AuthorityGrant -> AuthorityGrant) : Z * AuthorityRegistry :=
  (zlen (filter (fun g => sel g = true) (map_values (ar_grants r))),
   with_grants r (map_update (fun g => if sel g then upd g else g) (ar_grants r))).

Definition fence_generations (r : AuthorityRegistry) (generations : GenerationVector) :
  Z * AuthorityRegistry :=
  withdraw_where r
    (fun g => bool_decide (ag_state g = GrantState.Active) && intersects (ag_bound g) generations)
    (fun g => grant_with g GrantState.Fenced RevocationCause.Fence
                "a bound switch generation was fenced").

(** One pass over the dependent's index; the count is the number of revocations. *)
Fixpoint revoke_ids (ids : list Z) (cause : RevocationCause) (detail : string)
  (grants : list (Z * AuthorityGrant)) (revoked : Z) : Z * list (Z * AuthorityGrant) :=
  match ids with
  | [] => (revoked, grants)
  | id :: ids' =>
      match map_find id grants with
      | None => revoke_ids ids' cause detail grants revoked
      | Some g =>
          if negb (bool_decide (ag_state g = GrantState.Active))
          then revoke_ids ids' cause detail grants revoked
          else revoke_ids ids' cause detail
                 (map_set id (grant_with g GrantState.Revoked cause (bounded_message detail)) grants)
                 (revoked + 1)
      end
  end.

Definition revoke_dependent (r : AuthorityRegistry) (dependent : DependentRef)
  (cause : RevocationCause) (detail : string) : Z * AuthorityRegistry :=
  match map_find dependent (ar_by_dependent r) with
  | None => (0, r)
  | Some ids =>
      let '(revoked, grants) := revoke_ids ids cause detail (ar_grants r) 0 in
      (revoked, with_grants r grants)
  end.

Definition invalidate_pre_restart (r : AuthorityRegistry) : Z * AuthorityRegistry :=
  withdraw_where r (fun g => bool_decide (ag_state g = GrantState.Active))
    (fun g => grant_with g GrantState.Stale RevocationCause.Restart
                "minted before the current process incarnation").

Definition expire_due (r : AuthorityRegistry) (now_ns : Z) : Z * AuthorityRegistry :=
  withdraw_where r
    (fun g => bool_decide (ag_state g = GrantState.Active) && negb (now_ns <=? ag_expires_at_ns g))
    (fun g => grant_with g GrantState.Expired RevocationCause.Expiry "validity window elapsed").

Definition withdrawn_state (cause : RevocationCause) : GrantState :=
  match cause with
  | RevocationCause.Fence => GrantState.Fenced
  | RevocationCause.Restart => GrantState.Stale
  | _ => GrantState.Revoked
  end.

Definition withdraw_all (r : AuthorityRegistry) (cause : RevocationCause) (detail : string) :
  Z * AuthorityRegistry :=
  withdraw_where r
    (fun g => negb (bool_decide (ag_state g = GrantState.Revoked)
                    || bool_decide (ag_state g = GrantState.Fenced)))
    (fun g => grant_with g (withdrawn_state cause) cause (bounded_message detail)).

Definition fence_with_id (f : FenceRecord) (id : Z) (reason : string) : FenceRecord :=
  mkFence id (fence_subject f) (fence_epoch f) (fence_boot f) (fence_created_at_ns f)
    (fence_scope_state f) (fence_closure_digest f) (fence_closure_members f)
    (fence_fenced_grants f) (fence_omitted_dependents f) reason.

Definition with_fences (r : AuthorityRegistry) (fences : list (SwitchKey * FenceRecord))
  (next_fence : Z) : AuthorityRegistry :=
  mkRegistry (ar_limits r) (ar_grants r) (ar_by_dependent r) fences (ar_next_grant r)
    next_fence (ar_attempt r).

Definition commit_fence (r : AuthorityRegistry) (record : FenceRecord) :
  Result Z * AuthorityRegistry :=
  if negb (key_valid (fence_subject record)) then
    (Refused (failure Code.Invalid "fence subject is not generation-qualified"), r)
  else if bool_decide (fence_reason record = ""%string) then
    (Refused (failure Code.Invalid "fence requires a recorded reason"), r)
  else if is_fenced r (fence_subject record) then
    (Refused (failure Code.AlreadyExists
       ("generation is already fenced: " +:+ key_to_string (fence_subject record))), r)
  else if max_fences (ar_limits r) <=? map_size (ar_fences r) then
    (Refused (refuse_exhausted "max_fences" (map_size (ar_fences r) + 1) (max_fences (ar_limits r))), r)
  else
    let id := ar_next_fence r in
    (Value id,
     with_fences r
       (map_emplace (fence_subject record)
          (fence_with_id record id (bounded_message (fence_reason record))) (ar_fences r))
       (add64 id 1)).

Definition identity_has_any_fence (r : AuthorityRegistry) (id : Z) : bool :=
  existsb (fun e => sk_id e.1 =? id) (ar_fences r).

Definition fences (r : AuthorityRegistry) : list FenceRecord := map_values (ar_fences r).
Definition fence_count (r : AuthorityRegistry) : Z := map_size (ar_fences r).

(** What the loop of [query] accumulates over the dependent's grants. *)
Record QueryScan := mkScan {
  qs_active : list Z;
  qs_withdrawn : list Z;
  qs_bound : GenerationVector;
  qs_historical_fenced : list SwitchKey;
  qs_saw_restart : bool;
  qs_saw_expiry : bool;
  qs_saw_revocation : bool;
  qs_saw_stale : bool
}.

Definition scan_new : QueryScan := mkScan [] [] [] [] false false false false.

Definition scan_grant (now_ns : Z) (s : QueryScan) (id : Z) (g : AuthorityGrant) : QueryScan :=
  if active_at g now_ns then
    mkScan (qs_active s ++ [id]) (qs_withdrawn s) (united (qs_bound s) (ag_bound g))
      (qs_historical_fenced s) (qs_saw_restart s) (qs_saw_expiry s) (qs_saw_revocation s)
      (qs_saw_stale s)
  else
    mkScan (qs_active s) (qs_withdrawn s ++ [id]) (qs_bound s)
      (match ag_state g with
       | GrantState.Fenced => foldl (fun acc k => set_insert k acc) (qs_historical_fenced s) (ag_bound g)
       | _ => qs_historical_fenced s
       end)
      (qs_saw_restart s || bool_decide (ag_cause g = RevocationCause.Restart))
      (qs_saw_expiry s ||
         match ag_state g with GrantState.Expired | GrantState.Active => true | _ => false end)
      (qs_saw_revocation s ||
         match ag_state g with
         | GrantState.Fenced | GrantState.Stale | GrantState.Expired | GrantState.Active => false
         | _ => true
         end)
      (qs_saw_stale s || bool_decide (ag_state g = GrantState.Stale)).

Fixpoint scan_grants (r : AuthorityRegistry) (now_ns : Z) (ids : list Z) (s : QueryScan) : QueryScan :=
  match ids with
  | [] => s
  | id :: ids' =>
      match map_find id (ar_grants r) with
      | None => scan_grants r now_ns ids' s
      | Some g => scan_grants r now_ns ids' (scan_grant now_ns s id g)
      end
  end.

Definition query (r : AuthorityRegistry) (dependent : DependentRef) (now_ns : Z) : AuthorityQuery :=
  match index_of_dependent r dependent with
  | [] =>
      mkQuery dependent false Code.NotFound Code.NotFound [] [] [] [] []
        "no forwarding authority was ever granted for this dependent"
  | ids =>
      let s := scan_grants r now_ns ids scan_new in
      let blocking := filter (fun k => is_fenced r k = true) (qs_bound s) in
      let fenced := std_sort ltb
        (qs_historical_fenced s ++ filter (fun k => k ∉ qs_historical_fenced s) blocking) in
      let has_authority := negb (bool_decide (qs_active s = [])) && bool_decide (blocking = []) in
      let answer code rationale :=
        mkQuery dependent has_authority code code (qs_bound s) (qs_active s) (qs_withdrawn s) fenced
          [] rationale in
      if has_authority then answer Code.Ok "an active grant covers every bound generation"
      else if negb (bool_decide (blocking = [])) then
        answer Code.Fenced "an active grant is bound to a generation that is now fenced"
      else if bool_decide (qs_active s = []) && negb (bool_decide (qs_historical_fenced s = [])) then
        answer Code.Fenced "every grant for this dependent was fenced"
      else if negb (bool_decide (qs_active s = [])) then
        answer Code.Unknown "active grants exist but confer no authority"
      else if qs_saw_restart s || qs_saw_stale s then
        answer Code.Stale "authority was minted before the current process incarnation"
      else if qs_saw_expiry s then answer Code.Expired "the grant validity window elapsed"
      else if qs_saw_revocation s then answer Code.Denied "authority was withdrawn"
      else answer Code.Unknown "authority state could not be resolved"
  end.

Definition grants_for (r : AuthorityRegistry) (dependent : DependentRef) : list AuthorityGrant :=
  omap (fun id => map_find id (ar_grants r)) (index_of_dependent r dependent).

Definition active_grant_count (r : AuthorityRegistry) : Z :=
  zlen (filter (fun g => ag_state g = GrantState.Active) (map_values (ar_grants r))).

Definition total_grant_count (r : AuthorityRegistry) : Z := map_size (ar_grants r).

Definition restore_grant (r : AuthorityRegistry) (value : AuthorityGrant) : Status * AuthorityRegistry :=
  if negb (id_valid (ag_id value)) || negb (dependent_valid (ag_dependent value)) then
    (failure Code.Invalid "durable grant record is malformed", r)
  else
    let record := grant_with value GrantState.Stale RevocationCause.Restart
                    "restored from durable lineage; revalidation required" in
    let index := index_of_dependent r (ag_dependent record) in
    (success,
     mkRegistry (ar_limits r) (map_set (ag_id record) record (ar_grants r))
       (map_set (ag_dependent record)
          (if vector_has (ag_id record) index then index else index ++ [ag_id record])
          (ar_by_dependent r))
       (ar_fences r)
       (if ar_next_grant r <=? ag_id record then add64 (ag_id record) 1 else ar_next_grant r)
       (ar_next_fence r)
       (if ar_attempt r <? ag_attempt record then ag_attempt record else ar_attempt r)).

Definition restore_fence (r : AuthorityRegistry) (value : FenceRecord) : Status * AuthorityRegistry :=
  if negb (key_valid (fence_subject value)) then
    (failure Code.Invalid "durable fence record is malformed", r)
  else
    (success,
     with_fences r (map_set (fence_subject value) value (ar_fences r))
       (if ar_next_fence r <=? fence_id value then add64 (fence_id value) 1 else ar_next_fence r)).

Definition all_grants (r : AuthorityRegistry) : list AuthorityGrant := map_values (ar_grants r).
Definition last_attempt (r : AuthorityRegistry) : Z := ar_attempt r.

(** * The registry invariant *)

Record registry_wf (r : AuthorityRegistry) : Prop := {
  rwf_grants : map_wf (ar_grants r);
  rwf_index : map_wf (ar_by_dependent r);
  rwf_fences : map_wf (ar_fences r);
  (** a grant is stored under its own identity, which was handed out before *)
  rwf_id : forall id g, map_find id (ar_grants r) = Some g -> ag_id g = id /\ id < ar_next_grant r;
  rwf_bound : forall id g, map_find id (ar_grants r) = Some g -> gv_wf (ag_bound g);
  (** every grant is reachable from its dependent's index *)
  rwf_indexed : forall id g, map_find id (ar_grants r) = Some g ->
    id ∈ index_of_dependent r (ag_dependent g);
  (** an index names existing grants, and only its own dependent's Active ones *)
  rwf_owned : forall d id, id ∈ index_of_dependent r d ->
    exists g, map_find id (ar_grants r) = Some g /\
              (ag_state g = GrantState.Active -> ag_dependent g = d);
  rwf_subject : forall k f, map_find k (ar_fences r) = Some f -> fence_subject f = k;
  rwf_next : 0 < ar_next_grant r
}.

Lemma registry_new_wf limits : registry_wf (registry_new limits).
Proof. split; try (by constructor); intros; try done. by apply elem_of_nil in H. Qed.

(** Updates that rewrite only the state, cause and detail of grants. *)
Definition only_withdraws (f : AuthorityGrant -> AuthorityGrant) : Prop :=
  forall g, ag_id (f g) = ag_id g /\ ag_dependent (f g) = ag_dependent g /\
            ag_bound (f g) = ag_bound g /\
            (ag_state (f g) = GrantState.Active -> f g = g).

Lemma with_grants_wf r grants' :
  registry_wf r -> map_wf grants' ->
  (forall id, match map_find id (ar_grants r), map_find id grants' with
              | Some g, Some g' => ag_id g' = ag_id g /\ ag_dependent g' = ag_dependent g /\
                  ag_bound g' = ag_bound g /\ (ag_state g' = GrantState.Active -> g' = g)
              | None, None => True
              | _, _ => False
              end) ->
  registry_wf (with_grants r grants').
Proof.
  intros Hwf Hm Hrel.
  assert (Hold : forall id g', map_find id grants' = Some g' -> exists g,
    map_find id (ar_grants r) = Some g /\ ag_id g' = ag_id g /\ ag_dependent g' = ag_dependent g /\
    ag_bound g' = ag_bound g /\ (ag_state g' = GrantState.Active -> g' = g)).
  { intros id g' Hf. specialize (Hrel id). rewrite Hf in Hrel.
    destruct (map_find id (ar_grants r)); [naive_solver|done]. }
  split; simpl; try apply Hwf; try done.
  - intros id g' (g & Hg & -> & _)%Hold. by apply (rwf_id _ Hwf).
  - intros id g' (g & Hg & _ & _ & -> & _)%Hold. by apply (rwf_bound _ Hwf id).
  - intros id g' (g & Hg & _ & -> & _)%Hold. by apply (rwf_indexed _ Hwf).
  - intros d id Hid. destruct (rwf_owned _ Hwf d id Hid) as (g & Hg & Hd).
    specialize (Hrel id). rewrite Hg in Hrel.
    destruct (map_find id grants') as [g'|]; [|done]. exists g'. split; [done|].
    destruct Hrel as (_ & -> & _ & Hact). intros Ha. apply Hd. by rewrite <- (Hact Ha).
Qed.

Lemma map_update_wf_registry r f :
  registry_wf r -> only_withdraws f -> registry_wf (with_grants r (map_update f (ar_grants r))).
Proof.
  intros Hwf Hf. apply with_grants_wf; [done|apply map_update_wf, Hwf|].
  intros id. rewrite map_find_update. destruct (map_find id (ar_grants r)); [apply Hf|done].
Qed.

Lemma withdraw_where_wf r sel upd :
  registry_wf r ->
  (forall g, exists st c d, upd g = grant_with g st c d /\ st <> GrantState.Active) ->
  registry_wf (withdraw_where r sel upd).2.
Proof.
  intros Hwf Hupd. apply map_update_wf_registry; [done|].
  intros g. destruct (sel g); [|done]. destruct (Hupd g) as (st & c & d & -> & Hst). simpl.
  naive_solver.
Qed.

Lemma set_grant_wf r id g st c d :
  registry_wf r -> map_find id (ar_grants r) = Some g -> st <> GrantState.Active ->
  registry_wf (with_grants r (map_set id (grant_with g st c d) (ar_grants r))).
Proof.
  intros Hwf Hg Hst. apply with_grants_wf; [done|apply map_set_wf, Hwf|].
  intros id'. rewrite map_find_set. case_bool_decide as E; subst; simpl.
  - rewrite Hg. simpl. naive_solver.
  - by destruct (map_find id' (ar_grants r)).
Qed.

Lemma revoke_ids_wf ids cause detail r n :
  registry_wf r -> registry_wf (with_grants r (revoke_ids ids cause detail (ar_grants r) n).2).
Proof.
  revert r n. induction ids as [|id ids IH]; intros r n Hwf; simpl.
  { destruct r; by apply Hwf. }
  destruct (map_find id (ar_grants r)) as [g|] eqn:Hg; [|by apply IH].
  destruct (negb _); [by apply IH|].
  apply (IH (with_grants r _)). by apply set_grant_wf.
Qed.

Lemma index_of_dependent_set l g m f ng nf a d d' ids :
  index_of_dependent (mkRegistry l g (map_set d ids m) f ng nf a) d' =
    if bool_decide (d = d') then ids else default [] (map_find d' m).
Proof. unfold index_of_dependent. simpl. rewrite map_find_set. by case_bool_decide. Qed.

Lemma fresh_grant_id r : registry_wf r -> map_find (ar_next_grant r) (ar_grants r) = None.
Proof.
  intros Hwf. destruct (map_find _ _) as [g|] eqn:Hg; [|done].
  destruct (rwf_id _ Hwf _ _ Hg). lia.
Qed.

(** Adding a grant under a fresh identity, or replacing one by a withdrawn record. *)
Lemma add_grant_wf r g ids next attempt :
  registry_wf r -> gv_wf (ag_bound g) -> ag_id g < next -> ar_next_grant r <= next ->
  (ag_state g = GrantState.Active -> map_find (ag_id g) (ar_grants r) = None) ->
  (forall id, id ∈ ids <-> id = ag_id g \/ id ∈ index_of_dependent r (ag_dependent g)) ->
  registry_wf (mkRegistry (ar_limits r) (map_set (ag_id g) g (ar_grants r))
                 (map_set (ag_dependent g) ids (ar_by_dependent r)) (ar_fences r) next
                 (ar_next_fence r) attempt).
Proof.
  intros Hwf Hb Hlt Hle Hfresh Hids.
  split; simpl; [apply map_set_wf, Hwf|apply map_set_wf, Hwf|apply Hwf| | | | |apply Hwf|].
  - intros id g'. rewrite map_find_set. case_bool_decide; intros; simplify_eq; [done|].
    destruct (rwf_id _ Hwf id g'); [done|]. lia.
  - intros id g'. rewrite map_find_set. case_bool_decide; intros; simplify_eq; [done|].
    by eapply (rwf_bound _ Hwf).
  - intros id g'. rewrite map_find_set, index_of_dependent_set.
    case_bool_decide as E1; intros Hg; simplify_eq.
    + rewrite bool_decide_eq_true_2 by done. apply Hids. by left.
    + apply (rwf_indexed _ Hwf) in Hg. case_bool_decide as E2; [|done].
      apply Hids. right. by rewrite E2.
  - intros d id. rewrite index_of_dependent_set, map_find_set. intros Hid.
    destruct (decide (ag_id g = id)) as [<-|Hne];
      [rewrite (bool_decide_eq_true_2 (ag_id g = ag_id g)) by done
      |rewrite (bool_decide_eq_false_2 (ag_id g = id)) by done].
    + exists g. split; [done|]. intros Hact. case_bool_decide as E2; [done|].
      destruct (rwf_owned _ Hwf d (ag_id g)) as (g2 & Hg2 & _); [done|].
      rewrite Hfresh in Hg2; done.
    + case_bool_decide as E2; subst; [|by apply (rwf_owned _ Hwf)].
      apply Hids in Hid as [->|]; [done|]. by apply (rwf_owned _ Hwf).
  - pose proof (rwf_next _ Hwf). lia.
Qed.

Lemma grant_wf r dep bound epoch boot now ttl detail :
  registry_wf r -> gv_wf bound -> ar_next_grant r < UINT64_MAX ->
  registry_wf (grant r dep bound epoch boot now ttl detail).2.
Proof.
  intros Hwf Hb Hlim. pose proof (rwf_next _ Hwf). unfold grant. do 4 (split_test; [done|]).
  destruct (List.find _ _); [done|]. split_test; [done|]. simpl.
  rewrite (add64_small (ar_next_grant r) 1) by ints_lia.
  unfold map_emplace, map_contains. rewrite fresh_grant_id by done.
  match goal with |- context [map_set _ ?g (ar_grants r)] => apply (add_grant_wf r g) end;
    simpl; try done; try lia; [by intros; apply fresh_grant_id|].
  intros id. rewrite elem_of_app, list_elem_of_singleton. tauto.
Qed.

Lemma restore_grant_wf r value :
  registry_wf r -> gv_wf (ag_bound value) -> 0 <= ag_id value < UINT64_MAX ->
  registry_wf (restore_grant r value).2.
Proof.
  intros Hwf Hb Hid. unfold restore_grant. split_test; [done|]. cbn [snd].
  match goal with |- registry_wf (mkRegistry _ (map_set _ ?g _) _ _ _ _ _) =>
    apply (add_grant_wf r g) end; simpl; try done.
  - split_test; bool_prop; [|lia]. rewrite add64_small by ints_lia. lia.
  - split_test; bool_prop; [|lia]. rewrite add64_small by ints_lia. lia.
  - intros id. unfold vector_has. case_bool_decide.
    + split; [by right|]. by intros [->|].
    + rewrite elem_of_app, list_elem_of_singleton. tauto.
Qed.

Lemma with_fences_wf r k f n :
  registry_wf r -> fence_subject f = k -> registry_wf (with_fences r (map_set k f (ar_fences r)) n).
Proof.
  intros Hwf Hk. split; simpl; try apply Hwf; [by apply map_set_wf, Hwf|].
  intros k' f'. rewrite map_find_set. case_bool_decide; intros; simplify_eq; [done|].
  by apply (rwf_subject _ Hwf).
Qed.

Lemma commit_fence_wf r f : registry_wf r -> registry_wf (commit_fence r f).2.
Proof.
  intros Hwf. unfold commit_fence. do 2 (split_test; [done|]).
  destruct (is_fenced r (fence_subject f)) eqn:E; [done|]. split_test; [done|].
  cbn [snd]. unfold map_emplace. unfold is_fenced in E. rewrite E. by apply with_fences_wf.
Qed.

Lemma restore_fence_wf r f : registry_wf r -> registry_wf (restore_fence r f).2.
Proof. intros. unfold restore_fence. split_test; [done|]. by apply with_fences_wf. Qed.

(** * Registry histories

    One constructor per operation of the registry. Identities are 64-bit
    counters: a history of [registry_step] stops short of handing out the last
    one, which the two side conditions on identities say, although the code
    accepts both calls ([grant_identity_wraps] shows what then happens);
    [registry_call] has no such condition. *)

Inductive registry_step : AuthorityRegistry -> AuthorityRegistry -> Prop :=
| step_grant r dep bound epoch boot now ttl detail :
    gv_wf bound -> ar_next_grant r < UINT64_MAX ->
    registry_step r (grant r dep bound epoch boot now ttl detail).2
| step_revoke r id cause detail : registry_step r (revoke r id cause detail).2
| step_fence_generations r gens : registry_step r (fence_generations r gens).2
| step_revoke_dependent r d cause detail : registry_step r (revoke_dependent r d cause detail).2
| step_invalidate r : registry_step r (invalidate_pre_restart r).2
| step_expire r now : registry_step r (expire_due r now).2
| step_withdraw_all r cause detail : registry_step r (withdraw_all r cause detail).2
| step_commit_fence r f : registry_step r (commit_fence r f).2
| step_restore_grant r g :
    gv_wf (ag_bound g) -> 0 <= ag_id g < UINT64_MAX -> registry_step r (restore_grant r g).2
| step_restore_fence r f : registry_step r (restore_fence r f).2.

(** Every call of a method that changes the registry, with any arguments and at
    any counter: the steps above and those that exhaust the identities. *)
Inductive registry_call : AuthorityRegistry -> AuthorityRegistry -> Prop :=
| call_grant r dep bound epoch boot now ttl detail : registry_call r (grant r dep bound epoch boot now ttl detail).2
| call_revoke r id cause detail : registry_call r (revoke r id cause detail).2
| call_fence_generations r gens : registry_call r (fence_generations r gens).2
| call_revoke_dependent r d cause detail : registry_call r (revoke_dependent r d cause detail).2
| call_invalidate r : registry_call r (invalidate_pre_restart r).2
| call_expire r now : registry_call r (expire_due r now).2
| call_withdraw_all r cause detail : registry_call r (withdraw_all r cause detail).2
| call_commit_fence r f : registry_call r (commit_fence r f).2
| call_restore_grant r g : registry_call r (restore_grant r g).2
| call_restore_fence r f : registry_call r (restore_fence r f).2.

Lemma step_call r r' : registry_step r r' -> registry_call r r'.
Proof. destruct 1; constructor. Qed.

Lemma withdrawn_state_not_active cause : withdrawn_state cause <> GrantState.Active.
Proof. by destruct cause. Qed.

Lemma registry_step_wf r r' : registry_step r r' -> registry_wf r -> registry_wf r'.
Proof.
  destruct 1; intros Hwf.
  - by apply grant_wf.
  - unfold revoke. destruct (map_find id (ar_grants r)) eqn:E; [|done]. split_test; [done|].
    by apply set_grant_wf.
  - apply withdraw_where_wf; [done|]. intros g. by eexists _, _, _.
  - unfold revoke_dependent. destruct (map_find d _) as [ids|]; [|done].
    pose proof (revoke_ids_wf ids cause detail r 0 Hwf).
    by destruct (revoke_ids ids cause detail (ar_grants r) 0).
  - apply withdraw_where_wf; [done|]. intros g. by eexists _, _, _.
  - apply withdraw_where_wf; [done|]. intros g. by eexists _, _, _.
  - apply withdraw_where_wf; [done|]. intros g. eexists _, _, _. split; [done|].
    apply withdrawn_state_not_active.
  - by apply commit_fence_wf.
  - by apply restore_grant_wf.
  - by apply restore_fence_wf.
Qed.

(** No step removes a fence. *)
Lemma is_fenced_set r k f n k' :
  is_fenced r k' = true -> is_fenced (with_fences r (map_set k f (ar_fences r)) n) k' = true.
Proof.
  unfold is_fenced. rewrite !map_contains_true. intros [v Hv]. simpl. rewrite map_find_set.
  case_bool_decide; eauto.
Qed.

Lemma registry_call_fenced r r' k :
  registry_call r r' -> is_fenced r k = true -> is_fenced r' k = true.
Proof.
  destruct 1; intros Hk; try done.
  - unfold grant. do 4 (split_test; [done|]). destruct (List.find _ _); [done|]. by split_test.
  - unfold revoke. destruct (map_find _ _); [|done]. by split_test.
  - unfold revoke_dependent. destruct (map_find _ _); [|done]. by destruct (revoke_ids _ _ _ _ _).
  - unfold commit_fence. do 2 (split_test; [done|]).
    destruct (is_fenced r (fence_subject f)) eqn:E; [done|]. split_test; [done|].
    cbn [snd]. unfold map_emplace. unfold is_fenced in E. rewrite E. by apply is_fenced_set.
  - unfold restore_grant. by split_test.
  - unfold restore_fence. split_test; [done|]. by apply is_fenced_set.
Qed.

Lemma registry_step_fenced r r' k : registry_step r r' -> is_fenced r k = true -> is_fenced r' k = true.
Proof. intros Hs. by apply registry_call_fenced, step_call. Qed.

(** The life of one grant: a step keeps it as it is or leaves it withdrawn. *)
Definition grant_evolves (g g' : AuthorityGrant) : Prop :=
  g' = g \/ ag_state g' <> GrantState.Active.

Lemma grant_evolves_trans g1 g2 g3 :
  grant_evolves g1 g2 -> grant_evolves g2 g3 -> grant_evolves g1 g3.
Proof. unfold grant_evolves. naive_solver. Qed.

Lemma withdraw_where_evolves r sel upd id g :
  (forall g, exists st c d, upd g = grant_with g st c d /\ st <> GrantState.Active) ->
  map_find id (ar_grants r) = Some g ->
  exists g', map_find id (ar_grants (withdraw_where r sel upd).2) = Some g' /\ grant_evolves g g'.
Proof.
  intros Hupd Hg. simpl. rewrite map_find_update, Hg. simpl. eexists; split; [done|].
  destruct (sel g); [|by left]. right. destruct (Hupd g) as (st & c & d & -> & Hst). done.
Qed.

Lemma set_grant_evolves r id0 g0 id g :
  map_find id (ar_grants r) = Some g -> ag_state g0 <> GrantState.Active ->
  exists g', map_find id (map_set id0 g0 (ar_grants r)) = Some g' /\ grant_evolves g g'.
Proof.
  intros Hg H0. rewrite map_find_set. case_bool_decide.
  - eexists; split; [done|]. by right.
  - eexists; split; [done|]. by left.
Qed.

Lemma revoke_ids_evolves ids cause detail r n id g :
  map_find id (ar_grants r) = Some g ->
  exists g', map_find id (revoke_ids ids cause detail (ar_grants r) n).2 = Some g' /\
             grant_evolves g g'.
Proof.
  revert r n g. induction ids as [|i ids IH]; intros r n g Hg; simpl.
  { exists g. split; [done|by left]. }
  destruct (map_find i (ar_grants r)) as [g0|] eqn:Hg0; [|by apply IH].
  split_test; [by apply IH|].
  destruct (set_grant_evolves r i (grant_with g0 GrantState.Revoked cause (bounded_message detail))
              id g Hg) as (g1 & Hg1 & H1); [done|].
  destruct (IH (with_grants r (map_set i _ (ar_grants r))) (n + 1) g1 Hg1) as (g2 & Hg2 & H2).
  exists g2. split; [done|]. eapply grant_evolves_trans; eauto.
Qed.

Lemma registry_step_evolves r r' id g :
  registry_step r r' -> map_find id (ar_grants r) = Some g ->
  exists g', map_find id (ar_grants r') = Some g' /\ grant_evolves g g'.
Proof.
  assert (Hsame : grant_evolves g g) by by left.
  destruct 1; intros Hg; eauto.
  - unfold grant. do 4 (split_test; [by eauto|]). destruct (List.find _ _); [by eauto|].
    split_test; [by eauto|]. cbn [snd ar_grants]. unfold map_emplace. split_test; [by eauto|].
    bool_prop. rewrite map_contains_false in *. rewrite map_find_set.
    case_bool_decide; [congruence|eauto].
  - unfold revoke. destruct (map_find id0 _) eqn:E; [|by eauto]. split_test; [by eauto|].
    by apply set_grant_evolves.
  - apply withdraw_where_evolves; [|done]. intros. by eexists _, _, _.
  - unfold revoke_dependent. destruct (map_find d _) as [ids|]; [|by eauto].
    pose proof (revoke_ids_evolves ids cause detail r 0 id g Hg).
    by destruct (revoke_ids ids cause detail (ar_grants r) 0).
  - apply withdraw_where_evolves; [|done]. intros. by eexists _, _, _.
  - apply withdraw_where_evolves; [|done]. intros. by eexists _, _, _.
  - apply withdraw_where_evolves; [|done]. intros. eexists _, _, _. split; [done|].
    apply withdrawn_state_not_active.
  - exists g. unfold commit_fence. repeat (split_test; [by eauto|]). eauto.
  - unfold restore_grant. split_test; [by eauto|]. by apply set_grant_evolves.
  - exists g. unfold restore_fence. by split_test.
Qed.

(** * What a query answers *)

Lemma elem_of_scan_active r now ids s x :
  x ∈ qs_active (scan_grants r now ids s) <->
  x ∈ qs_active s \/
  (x ∈ ids /\ exists g, map_find x (ar_grants r) = Some g /\ active_at g now = true).
Proof.
  revert s. induction ids as [|id ids IH]; intros s; cbn [scan_grants].
  { set_solver. }
  rewrite elem_of_cons. destruct (map_find id (ar_grants r)) as [g|] eqn:Hg; rewrite IH.
  - unfold scan_grant. destruct (active_at g now) eqn:Ha; simpl.
    + rewrite elem_of_app, list_elem_of_singleton. naive_solver.
    + split; [tauto|]. intros [?|[[->|?] (g' & Hg' & Ha')]]; [by left| |eauto]. congruence.
  - split; [tauto|]. intros [?|[[->|?] (g' & Hg' & Ha')]]; [by left| |eauto]. congruence.
Qed.

Lemma scan_bound_spec r now ids s :
  registry_wf r -> gv_wf (qs_bound s) ->
  gv_wf (qs_bound (scan_grants r now ids s)) /\
  forall k, k ∈ qs_bound (scan_grants r now ids s) <->
    k ∈ qs_bound s \/
    exists id, id ∈ ids /\ exists g,
      map_find id (ar_grants r) = Some g /\ active_at g now = true /\ k ∈ ag_bound g.
Proof.
  intros Hwf. revert s. induction ids as [|id ids IH]; intros s Hs; cbn [scan_grants].
  { split; [done|]. intros k. rewrite exists_nil. tauto. }
  destruct (map_find id (ar_grants r)) as [g|] eqn:Hg.
  - pose proof (rwf_bound _ Hwf _ _ Hg) as Hb.
    assert (Hstep : gv_wf (qs_bound (scan_grant now s id g)) /\
      forall k, k ∈ qs_bound (scan_grant now s id g) <->
                k ∈ qs_bound s \/ (active_at g now = true /\ k ∈ ag_bound g)).
    { unfold scan_grant. destruct (active_at g now); simpl.
      - split; [apply united_wf|]. intros k. rewrite elem_of_united by done. tauto.
      - split; [done|]. intros k. naive_solver. }
    destruct Hstep as [Hw Hk]. destruct (IH _ Hw) as [H1 H2]. split; [done|].
    intros k. rewrite H2, Hk, exists_cons. split; [|intros [?|[(g' & ? & ?)|?]]; naive_solver].
    intros [[?|?]|?]; [by left|right; left; eauto|by right; right].
  - destruct (IH s Hs) as [H1 H2]. split; [done|]. intros k. rewrite H2, exists_cons.
    split; [tauto|]. intros [?|[(g' & ? & ?)|?]]; [by left|congruence|by right].
Qed.

(** The grants of a dependent that confer authority at [now], and the ones
    among their generations a fence covers. *)
Definition conferring (r : AuthorityRegistry) (d : DependentRef) (now : Z) (g : AuthorityGrant) : Prop :=
  map_find (ag_id g) (ar_grants r) = Some g /\ ag_dependent g = d /\ active_at g now = true.

Definition blocked (r : AuthorityRegistry) (d : DependentRef) (now : Z) : Prop :=
  exists g k, conferring r d now g /\ k ∈ ag_bound g /\ is_fenced r k = true.

Lemma active_at_active g now : active_at g now = true -> ag_state g = GrantState.Active.
Proof. unfold active_at. bool_prop. naive_solver. Qed.

Lemma indexed_conferring r d now g :
  registry_wf r ->
  conferring r d now g <->
  exists id, id ∈ index_of_dependent r d /\ map_find id (ar_grants r) = Some g /\
             active_at g now = true.
Proof.
  intros Hwf. unfold conferring. split.
  - intros (Hg & <- & Ha). exists (ag_id g). split; [by apply (rwf_indexed _ Hwf)|done].
  - intros (id & Hid & Hg & Ha). destruct (rwf_id _ Hwf _ _ Hg) as [-> _].
    split; [done|split; [|done]]. destruct (rwf_owned _ Hwf _ _ Hid) as (g' & Hg' & Hd).
    rewrite Hg' in Hg. simplify_eq. by apply Hd, (active_at_active _ now).
Qed.

Section query_scan.
Context (r : AuthorityRegistry) (d : DependentRef) (now : Z) (Hwf : registry_wf r).
Local Notation s := (scan_grants r now (index_of_dependent r d) scan_new).

Lemma scan_no_active : qs_active s = [] <-> forall g, ~ conferring r d now g.
Proof.
  rewrite empty_iff. setoid_rewrite elem_of_scan_active. simpl. split.
  - intros H g (id & ? & ? & ?)%indexed_conferring; [|done]. apply (H id). eauto.
  - intros H id [?%elem_of_nil|(? & g & ? & ?)]; [done|].
    apply (H g), indexed_conferring; eauto.
Qed.

Lemma scan_not_blocked :
  filter (fun k => is_fenced r k = true) (qs_bound s) = [] <-> ~ blocked r d now.
Proof.
  destruct (scan_bound_spec r now (index_of_dependent r d) scan_new Hwf gv_wf_nil) as [_ Hb].
  rewrite empty_iff. setoid_rewrite list_elem_of_filter. setoid_rewrite Hb. unfold blocked.
  setoid_rewrite indexed_conferring; [|done]. split.
  - intros H (g & k & (id & ? & ? & ?) & ? & ?). apply (H k). eauto 10.
  - intros H k [? [?%elem_of_nil|(id & ? & g & ? & ? & ?)]]; [done|]. apply H. eauto 10.
Qed.
End query_scan.

Lemma query_has_authority r d now :
  registry_wf r ->
  aq_has_authority (query r d now) = true <->
  (exists g, conferring r d now g) /\ ~ blocked r d now.
Proof.
  intros Hwf. pose proof (scan_no_active r d now Hwf) as Hn.
  pose proof (scan_not_blocked r d now Hwf) as Hb. unfold query.
  destruct (index_of_dependent r d) as [|i ids] eqn:Hi.
  { split; [done|]. intros [[g Hg] _]. by apply Hn in Hg. }
  match goal with |- aq_has_authority (if ?b then _ else _) = _ <-> _ =>
    assert (Hq : b = true <-> (exists g, conferring r d now g) /\ ~ blocked r d now) end.
  { rewrite andb_true_iff, negb_true_iff, bool_decide_eq_true, bool_decide_eq_false, Hb.
    rewrite <- Hi. split; intros [H1 H2]; (split; [|done]).
    - rewrite Hi in H1. destruct (qs_active _) as [|x l] eqn:E; [done|].
      assert (Hx : x ∈ qs_active (scan_grants r now (index_of_dependent r d) scan_new))
        by (rewrite Hi, E; left).
      apply elem_of_scan_active in Hx as [?%elem_of_nil|(? & g & ? & ?)]; [done|].
      exists g. apply indexed_conferring; eauto.
    - rewrite Hi. rewrite Hn. naive_solver. }
  repeat split_test; simpl; rewrite ?Hq; try tauto; rewrite <- Hq; done.
Qed.

Lemma query_reason r d now : aq_reason (query r d now) = aq_outcome (query r d now).
Proof. unfold query. destruct (index_of_dependent r d); [done|]. by repeat split_test. Qed.

Lemma query_outcome_ok r d now :
  aq_outcome (query r d now) = Code.Ok <-> aq_has_authority (query r d now) = true.
Proof.
  unfold query. destruct (index_of_dependent r d); [done|].
  destruct (_ && _) eqn:E; [done|]. by repeat split_test.
Qed.

Lemma query_blocked r d now :
  registry_wf r -> blocked r d now -> aq_outcome (query r d now) = Code.Fenced.
Proof.
  intros Hwf Hb. pose proof (scan_not_blocked r d now Hwf) as Hs. unfold query.
  destruct (index_of_dependent r d) as [|i ids] eqn:Hi.
  { destruct Hb as (g & k & Hg & _). apply indexed_conferring in Hg as (id & Hid & _); [|done].
    rewrite Hi in Hid. by apply elem_of_nil in Hid. }
  rewrite (bool_decide_eq_false_2 (filter _ _ = [])) by (rewrite Hs; tauto).
  by rewrite andb_false_r.
Qed.

(** An Active grant is either unchanged or freshly minted on unfenced generations. *)
Definition active_origin (r : AuthorityRegistry) (id : Z) (g : AuthorityGrant) : Prop :=
  map_find id (ar_grants r) = Some g \/
  (id = ar_next_grant r /\ forall k, k ∈ ag_bound g -> is_fenced r k = false).

Lemma withdraw_where_origin r sel upd id g :
  (forall g, exists st c d, upd g = grant_with g st c d /\ st <> GrantState.Active) ->
  map_find id (ar_grants (withdraw_where r sel upd).2) = Some g -> ag_state g = GrantState.Active ->
  active_origin r id g.
Proof.
  intros Hupd. simpl. rewrite map_find_update.
  destruct (map_find id (ar_grants r)) as [g0|] eqn:Hg; simpl; intros; simplify_eq.
  left. rewrite Hg. destruct (sel g0); [|done].
  destruct (Hupd g0) as (st & c & d & E & Hst). by rewrite E in *.
Qed.

Lemma set_grant_origin r id0 g0 id g :
  map_find id (map_set id0 g0 (ar_grants r)) = Some g -> ag_state g0 <> GrantState.Active ->
  ag_state g = GrantState.Active -> active_origin r id g.
Proof. rewrite map_find_set. case_bool_decide; intros; simplify_eq; by left. Qed.

Lemma revoke_ids_origin ids cause detail r n id g :
  map_find id (revoke_ids ids cause detail (ar_grants r) n).2 = Some g ->
  ag_state g = GrantState.Active -> map_find id (ar_grants r) = Some g.
Proof.
  revert r n. induction ids as [|i ids IH]; intros r n; simpl; [done|].
  destruct (map_find i (ar_grants r)) as [g0|] eqn:Hg0; [|apply IH].
  split_test; [apply IH|]. intros Hg Ha.
  pose proof (IH (with_grants r (map_set i _ (ar_grants r))) (n + 1) Hg Ha) as Hf. simpl in Hf.
  rewrite map_find_set in Hf. case_bool_decide; by simplify_eq.
Qed.

Lemma find_none_forall {A} (p : A -> bool) (l : list A) x :
  List.find p l = None -> x ∈ l -> p x = false.
Proof. intros H Hx%list_elem_of_In. exact (find_none p l H x Hx). Qed.

Lemma grant_origin r dep bound epoch boot now ttl detail id g :
  map_find id (ar_grants (grant r dep bound epoch boot now ttl detail).2) = Some g ->
  active_origin r id g.
Proof.
  unfold grant. do 4 (split_test; [by left|]). destruct (List.find _ _) eqn:Hf; [by left|].
  split_test; [by left|]. cbn [snd ar_grants]. unfold map_emplace. split_test; [by left|].
  rewrite map_find_set. clear Heqb0. case_bool_decide; intros; simplify_eq; [right|by left].
  split; [done|]. intros k Hk. by eapply find_none_forall.
Qed.

Lemma registry_call_origin r r' id g :
  registry_call r r' -> map_find id (ar_grants r') = Some g -> ag_state g = GrantState.Active ->
  active_origin r id g.
Proof.
  destruct 1; intros Hg Ha; try (by left).
  - by eapply grant_origin.
  - unfold revoke in Hg. destruct (map_find id0 _) eqn:E; [|by left]. split_test; [by left|].
    by eapply set_grant_origin; [exact Hg|..].
  - eapply withdraw_where_origin; eauto. intros. by eexists _, _, _.
  - unfold revoke_dependent in Hg. destruct (map_find d _) as [ids|]; [|by left].
    pose proof (revoke_ids_origin ids cause detail r 0 id g) as Ho.
    destruct (revoke_ids ids cause detail (ar_grants r) 0). left. by apply Ho.
  - eapply withdraw_where_origin; eauto. intros. by eexists _, _, _.
  - eapply withdraw_where_origin; eauto. intros. by eexists _, _, _.
  - eapply withdraw_where_origin; eauto. intros. eexists _, _, _. split; [done|].
    apply withdrawn_state_not_active.
  - left. revert Hg. unfold commit_fence. by repeat split_test.
  - unfold restore_grant in Hg. split_test; [by left|]. by eapply set_grant_origin; [exact Hg|..].
  - left. revert Hg. unfold restore_fence. by split_test.
Qed.

Lemma registry_step_origin r r' id g :
  registry_step r r' -> map_find id (ar_grants r') = Some g -> ag_state g = GrantState.Active -> active_origin r id g.
Proof. intros Hs. by apply registry_call_origin, step_call. Qed.

Lemma registry_step_next r r' :
  registry_step r r' -> registry_wf r -> ar_next_grant r <= ar_next_grant r'.
Proof.
  intros Hs Hwf. pose proof (rwf_next _ Hwf). destruct Hs; try done.
  - unfold grant. do 4 (split_test; [done|]). destruct (List.find _ _); [done|].
    split_test; [done|]. cbn [snd ar_next_grant]. rewrite (add64_small (ar_next_grant r) 1) by ints_lia. lia.
  - unfold revoke. destruct (map_find _ _); [|done]. by split_test.
  - unfold revoke_dependent. destruct (map_find _ _); [|done]. by destruct (revoke_ids _ _ _ _ _).
  - unfold commit_fence. by repeat split_test.
  - unfold restore_grant. split_test; [done|]. cbn [snd ar_next_grant grant_with ag_id].
    split_test; bool_prop; [|done]. rewrite add64_small by ints_lia. lia.
  - unfold restore_fence. by split_test.
Qed.

(** A predicate kept by every step of a well-formed registry holds along a history. *)
Lemma history_keeps (P : AuthorityRegistry -> Prop) r r' :
  (forall r r', registry_wf r -> registry_step r r' -> P r -> P r') ->
  rtc registry_step r r' -> registry_wf r -> P r -> registry_wf r' /\ P r'.
Proof.
  intros Hstep. induction 1 as [|r1 r2 r3 H12 _ IH]; [done|].
  intros Hwf HP. apply IH; [by eapply registry_step_wf|by eapply (Hstep r1 r2)].
Qed.

(** The generation is fenced and no Active grant is bound to it. *)
Definition retired (k : SwitchKey) (r : AuthorityRegistry) : Prop :=
  is_fenced r k = true /\
  forall id g, map_find id (ar_grants r) = Some g -> ag_state g = GrantState.Active -> k ∉ ag_bound g.

Lemma retired_kept k r r' : (forall id g, map_find id (ar_grants r') = Some g -> ag_state g = GrantState.Active ->
    active_origin r id g) ->
  (is_fenced r k = true -> is_fenced r' k = true) -> retired k r -> retired k r'.
Proof.
  intros Horigin Hfenced [Hf Ha]. split; [by apply Hfenced|]. intros id g Hg Hact Hk.
  destruct (Horigin _ _ Hg Hact) as [Hold|[_ Hnew]].
  - by apply (Ha _ _ Hold Hact).
  - rewrite (Hnew _ Hk) in Hf. done.
Qed.

Lemma retired_call k r r' : registry_call r r' -> retired k r -> retired k r'.
Proof. intros Hs. apply retired_kept; [intros; by eapply registry_call_origin|by apply registry_call_fenced]. Qed.

Lemma retired_calls k r r' : rtc registry_call r r' -> retired k r -> retired k r'.
Proof. induction 1 as [|r1 r2 r3 H12 _ IH]; [done|]. intros Hr. by apply IH, (retired_call k r1). Qed.

(** Every grant below the identity [n] is withdrawn. *)
Definition withdrawn_below (n : Z) (r : AuthorityRegistry) : Prop :=
  n <= ar_next_grant r /\
  forall id g, map_find id (ar_grants r) = Some g -> ag_state g = GrantState.Active -> n <= id.

Lemma withdrawn_below_step n r r' :
  registry_wf r -> registry_step r r' -> withdrawn_below n r -> withdrawn_below n r'.
Proof.
  intros Hwf Hs [Hn Ha]. pose proof (registry_step_next _ _ Hs Hwf). split; [lia|].
  intros id g Hg Hact. destruct (registry_step_origin _ _ _ _ Hs Hg Hact) as [Hold|[-> _]]; [|lia].
  by eapply Ha.
Qed.

Lemma unbound_after_fence r k id g :
  registry_wf r -> key_valid k = true -> map_find id (ar_grants (fence_generations r [k]).2) = Some g ->
  ag_state g = GrantState.Active -> k ∉ ag_bound g.
Proof.
  intros Hwf Hk. simpl. rewrite map_find_update.
  destruct (map_find id (ar_grants r)) as [g0|] eqn:Hg0; [|done]. simpl. intros ? Hact Hin.
  simplify_eq. revert Hact Hin. destruct (_ && _) eqn:E; [done|]. intros Hact Hin.
  rewrite Hact, bool_decide_eq_true_2, andb_true_l in E by done.
  enough (intersects (ag_bound g0) [k] = true) by congruence.
  apply intersects_spec; [by eapply (rwf_bound _ Hwf)| |exists k; split; [done|left]].
  split; [repeat constructor|]. intros x Hx. apply list_elem_of_singleton in Hx. by subst.
Qed.

Lemma retired_after_fence r k :
  registry_wf r -> key_valid k = true -> is_fenced r k = true ->
  retired k (fence_generations r [k]).2.
Proof. intros Hwf Hk Hf. split; [done|]. intros id g. by apply unbound_after_fence. Qed.

Lemma commit_fence_value r f id r' :
  commit_fence r f = (Value id, r') ->
  key_valid (fence_subject f) = true /\ is_fenced r' (fence_subject f) = true /\
  r' = (commit_fence r f).2.
Proof.
  unfold commit_fence. split_test; [done|]. split_test; [done|]. split_test; [done|].
  split_test; [done|]. intros ?; simplify_eq. bool_prop. split; [done|split; [|done]].
  unfold is_fenced in *. simpl. unfold map_emplace. rewrite Heqb1. apply map_contains_true.
  rewrite map_find_set, bool_decide_eq_true_2 by done. eauto.
Qed.

(** ** Properties *)

(** C37. Every registry the operations can produce from a new one, as long as
    the grant identities of 64 bits are not exhausted (no grant is made at the
    counter 2^64-1 and none with that identity is restored), is well formed:
    grants, dependency index and fences are ordered maps, every grant is stored
    under its own already issued identity, binds a canonical vector and is
    reachable from its dependent's index, and every fence is stored under its
    subject. *)
Theorem authority_registry_invariant limits r :
  rtc registry_step (registry_new limits) r -> registry_wf r.
Proof.
  intros H. by apply (history_keeps (fun _ => True) _ _ ltac:(done) H (registry_new_wf limits)).
Qed.

Lemma grant_refused_fenced r k : is_fenced r k = true -> forall d bound epoch boot now ttl detail,
  k ∈ bound -> result_ok (grant r d bound epoch boot now ttl detail).1 = false.
Proof.
  intros Hf d bound epoch boot now ttl detail Hk. unfold grant. do 4 (split_test; [done|]).
  destruct (List.find (is_fenced r) bound) eqn:E; [done|]. exfalso.
  by rewrite (find_none_forall _ _ k E Hk) in Hf.
Qed.

(** The authority the comment on AuthorityQuery describes: one active grant none
    of whose generations is fenced. *)
Definition documented_authority (r : AuthorityRegistry) (d : DependentRef) (now : Z) : Prop :=
  exists g, conferring r d now g /\ forall k, k ∈ ag_bound g -> is_fenced r k = false.

(** C15. [AuthorityRegistry::query] fails closed. In a well-formed registry it
    reports authority exactly when some grant of the dependent is active at that
    instant and no generation bound by any of its active grants is fenced; the
    outcome is Ok exactly then, the reason always equals the outcome, and a
    blocked dependent is answered with Fenced. This implies the documented
    authority (one active grant free of fences), and is the same for a dependent
    with a single active grant; with several it is stricter, as one active grant
    on a fenced generation denies the dependent. *)
Theorem query_authority_exact r d now :
  registry_wf r ->
  (aq_has_authority (query r d now) = true <->
     (exists g, conferring r d now g) /\ ~ blocked r d now) /\
  (aq_has_authority (query r d now) = true -> documented_authority r d now) /\
  ((forall g g', conferring r d now g -> conferring r d now g' -> g = g') ->
     documented_authority r d now -> aq_has_authority (query r d now) = true) /\
  (aq_outcome (query r d now) = Code.Ok <-> aq_has_authority (query r d now) = true) /\
  aq_reason (query r d now) = aq_outcome (query r d now) /\
  (blocked r d now -> aq_outcome (query r d now) = Code.Fenced).
Proof.
  intros Hwf. pose proof (query_has_authority r d now Hwf) as Hq. split; [done|]. rewrite Hq. split; [|split].
  - intros [[g Hg] Hb]. exists g. split; [done|]. intros k Hk. destruct (is_fenced r k) eqn:E; [|done]. destruct Hb. by exists g, k.
  - intros Hone (g & Hg & Hk). split; [by exists g|]. intros (g' & k & Hg' & Hin & Hf). rewrite (Hone g' g Hg' Hg) in Hin.
    rewrite (Hk k Hin) in Hf. done.
  - rewrite <- Hq. split; [apply query_outcome_ok|]. split; [apply query_reason|by apply query_blocked].
Qed.

(** C16. A committed fence is final: once a generation was fenced in a
    well-formed registry and its grants withdrawn, then after any calls of any
    methods, with any arguments, the generation is still fenced, no Active grant
    is bound to it, and no grant bound to it confers authority. Nothing lifts a
    fence: new grants on the generation are refused for good, a recovered one
    included. *)
Theorem fenced_generation_is_final r f id r1 r' :
  registry_wf r -> commit_fence r f = (Value id, r1) ->
  rtc registry_call (fence_generations r1 [fence_subject f]).2 r' ->
  is_fenced r' (fence_subject f) = true /\
  (forall gid g, map_find gid (ar_grants r') = Some g -> ag_state g = GrantState.Active ->
     fence_subject f ∉ ag_bound g) /\
  (forall d now g, conferring r' d now g -> fence_subject f ∉ ag_bound g) /\
  (forall d bound epoch boot now ttl detail, fence_subject f ∈ bound ->
     result_ok (grant r' d bound epoch boot now ttl detail).1 = false).
Proof.
  intros Hwf Hc Hrun. destruct (commit_fence_value _ _ _ _ Hc) as (Hk & Hf & ->).
  pose proof (commit_fence_wf r f Hwf) as Hwf1.
  destruct (retired_calls (fence_subject f) _ _ Hrun) as [H1 H2]; [by apply retired_after_fence|].
  split; [done|split; [done|split]]; [|by apply grant_refused_fenced].
  intros d now g (Hg & _ & Ha%active_at_active). by eapply H2.
Qed.

(** Withdrawal is irreversible: a grant that is not Active never becomes
    Active again, whatever operations follow. *)
Theorem withdrawn_grant_never_active r r' id g :
  rtc registry_step r r' ->
  map_find id (ar_grants r) = Some g -> ag_state g <> GrantState.Active ->
  exists g', map_find id (ar_grants r') = Some g' /\ ag_state g' <> GrantState.Active.
Proof.
  intros Hrun. revert g. induction Hrun as [|r1 r2 r3 H12 _ IH]; [eauto|]. intros g Hg Hst.
  destruct (registry_step_evolves _ _ _ _ H12 Hg) as (g2 & Hg2 & [->|Ha]); eauto.
Qed.

(** Restart withdraws all authority: [invalidate_pre_restart] counts the
    Active grants and leaves no dependent with authority, and whatever happens
    later a dependent's authority rests only on grants minted after the
    restart. *)
Theorem restart_withdraws_all_authority r :
  registry_wf r ->
  let '(count, r1) := invalidate_pre_restart r in
  count = active_grant_count r /\
  (forall d now, aq_has_authority (query r1 d now) = false) /\
  (forall r' d now g, rtc registry_step r1 r' -> conferring r' d now g -> ar_next_grant r <= ag_id g).
Proof.
  intros Hwf. destruct (invalidate_pre_restart r) as [count r1] eqn:E.
  unfold invalidate_pre_restart, withdraw_where in E. simplify_eq.
  pose proof (registry_step_wf _ _ (step_invalidate r) Hwf) as Hwf1. simpl in Hwf1.
  assert (Hnone : forall id g, map_find id (ar_grants (invalidate_pre_restart r).2) = Some g ->
                               ag_state g <> GrantState.Active).
  { simpl. intros id g. rewrite map_find_update. destruct (map_find id _); simpl; [|done].
    intros ?. simplify_eq. case_bool_decide; done. }
  split; [|split].
  - unfold active_grant_count. f_equal. apply list_filter_iff. intros. by rewrite bool_decide_eq_true.
  - intros d now. apply not_true_iff_false. rewrite (query_has_authority _ _ _ Hwf1).
    intros [[g (Hg & _ & Ha%active_at_active)] _]. by eapply Hnone.
  - intros r' d now g Hrun (Hg & _ & Ha%active_at_active).
    destruct (history_keeps (withdrawn_below (ar_next_grant r)) _ _ (withdrawn_below_step _) Hrun)
      as [_ [_ H2]]; [done| |by eapply H2].
    split; [done|]. intros id g0 Hg0 Hact. by destruct (Hnone id g0 Hg0).
Qed.

Lemma expire_due_find r now id :
  map_find id (ar_grants (expire_due r now).2) =
  (fun g => if bool_decide (ag_state g = GrantState.Active) && negb (now <=? ag_expires_at_ns g)
            then grant_with g GrantState.Expired RevocationCause.Expiry "validity window elapsed"
            else g) <$> map_find id (ar_grants r).
Proof. simpl. apply map_find_update. Qed.

Lemma expire_due_conferring r now now' d g :
  now <= now' -> conferring (expire_due r now).2 d now' g <-> conferring r d now' g.
Proof.
  intros Hle. unfold conferring. rewrite expire_due_find. split.
  - intros (Hg & Hd & Ha). destruct (map_find (ag_id g) (ar_grants r)) as [g0|]; [|done].
    injection Hg as Hg. apply active_at_active in Ha as Hact. destruct (_ && negb _) eqn:E; subst; done.
  - intros (Hg & Hd & Ha). rewrite Hg. split; [|done]. simpl.
    unfold active_at in Ha. destruct (_ && negb (now <=? _)) eqn:E; [|done]. bool_prop. lia.
Qed.

(** Expiry is bookkeeping only: marking grants Expired at [now] does not
    change, at that instant or later, which dependents have authority. *)
Theorem expire_due_preserves_authority r now now' d :
  registry_wf r -> now <= now' ->
  aq_has_authority (query (expire_due r now).2 d now') = aq_has_authority (query r d now').
Proof.
  intros Hwf Hle. pose proof (registry_step_wf _ _ (step_expire r now) Hwf) as Hwf1.
  apply eq_true_iff_eq. rewrite !query_has_authority by done. unfold blocked.
  setoid_rewrite expire_due_conferring; done.
Qed.

(** A grant is minted only on unfenced generations, with a fresh identity,
    and is valid from the instant of the grant until its window ends (saturated
    at the largest instant); every earlier grant and every fence is kept as it
    was. *)
Theorem grant_mints_fresh_authority r dep bound epoch boot now ttl detail id r' :
  registry_wf r -> in_u64 now -> in_u64 ttl ->
  grant r dep bound epoch boot now ttl detail = (Value id, r') ->
  map_find id (ar_grants r) = None /\
  (exists g, map_find id (ar_grants r') = Some g /\ ag_id g = id /\
     ag_dependent g = dep /\ ag_bound g = bound /\
     (forall t, active_at g t = true <-> now <= t <= Z.min (now + ttl) UINT64_MAX)) /\
  (forall k, k ∈ bound -> is_fenced r k = false) /\
  (forall id0, id0 <> id -> map_find id0 (ar_grants r') = map_find id0 (ar_grants r)) /\
  (forall k, is_fenced r' k = is_fenced r k) /\
  map_size (ar_grants r') <= max_authority_grants (ar_limits r').
Proof.
  intros Hwf Hnow Httl. unfold grant. do 4 (split_test; [done|]).
  destruct (List.find _ _) eqn:Hf; [done|]. split_test; [done|]. intros ?; simplify_eq.
  pose proof (fresh_grant_id r Hwf) as Hfresh. clear Heqb0.
  cbn [ar_grants ar_limits ar_fences]. unfold map_emplace, map_contains. rewrite Hfresh.
  split; [done|]. split; [|split; [|split; [|split; [done|]]]].
  - eexists. rewrite map_find_set, bool_decide_eq_true_2 by done.
    split; [done|]. simpl. split; [done|split; [done|split; [done|]]]. intros t. unfold active_at. simpl.
    bool_prop. destruct (decide (now + ttl < two64)) as [Hs|Hs].
    + rewrite (add64_small now ttl) by ints_lia. split_test; bool_prop; ints_lia.
    + assert (Hw : add64 now ttl = now + ttl - two64)
        by (ints; symmetry; apply (Z.mod_unique _ _ 1); lia).
      rewrite Hw. split_test; bool_prop; ints_lia.
  - intros k Hk. by eapply find_none_forall.
  - intros id0 Hne. rewrite map_find_set. by rewrite bool_decide_eq_false_2 by congruence.
  - bool_prop. rewrite map_size_set_new by done. lia.
Qed.

(** * A concrete registry *)

Definition sample_path : DependentRef := mkDependent DependentKind.Path 7.
Definition sample_boot : BootIncarnation := mkBoot 100 1 0 0.
Definition sample_key (g : Z) : SwitchKey := mkSwitchKey 1 g.

(** One grant on the first generation of switch 1. *)
Definition sample_one : AuthorityRegistry :=
  (grant (registry_new limits_defaults) sample_path [sample_key 1] 1 sample_boot 10 100 "primary").2.

(** A second grant of the same dependent, on the second generation. *)
Definition sample_two : AuthorityRegistry :=
  (grant sample_one sample_path [sample_key 2] 1 sample_boot 10 100 "backup").2.

Definition sample_fence : FenceRecord :=
  mkFence 0 (sample_key 1) 1 sample_boot 20 FenceScopeState.Committed 0 1 1 0 "failure declared".

Lemma sample_key_wf g : g <> 0 -> gv_wf [sample_key g].
Proof.
  intros Hg. split; [repeat constructor|]. intros k Hk%list_elem_of_singleton. subst.
  unfold key_valid, id_valid. simpl. by apply negb_true_iff, Z.eqb_neq.
Qed.

Lemma sample_one_reachable : rtc registry_step (registry_new limits_defaults) sample_one.
Proof. eapply rtc_once, step_grant; [by apply sample_key_wf|done]. Qed.

Lemma sample_one_wf : registry_wf sample_one.
Proof. apply grant_wf; [apply registry_new_wf|by apply sample_key_wf|done]. Qed.

Lemma sample_two_wf : registry_wf sample_two.
Proof. apply grant_wf; [apply sample_one_wf|by apply sample_key_wf|done]. Qed.

(** The documented contract of a query says that authority is present when
    some Active grant exists and none of the generations that grant is bound to
    is fenced. The code joins the generations of all active grants first: here
    the second grant is active and bound to an unfenced generation only, and
    still the dependent is answered with Fenced because of the first one. *)
Theorem query_joins_all_active_grants :
  let r := (commit_fence sample_two sample_fence).2 in
  (exists g, conferring r sample_path 50 g /\
             forall k, k ∈ ag_bound g -> is_fenced r k = false) /\
  aq_has_authority (query r sample_path 50) = false /\
  aq_outcome (query r sample_path 50) = Code.Fenced.
Proof.
  split; [|split; vm_compute; reflexivity].
  exists (mkGrant 2 sample_path [sample_key 2] 1 sample_boot 2 10 110 GrantState.Active
            RevocationCause.Unknown "backup").
  split; [split; [vm_compute; reflexivity|split; reflexivity]|].
  intros k Hk%list_elem_of_singleton. subst. vm_compute. reflexivity.
Qed.

(** Grant identities are not guarded against exhaustion: after a durable
    grant with the largest identity is restored the next grant succeeds with
    the reserved identity 0, which every other operation treats as unset. *)
Theorem grant_identity_wraps :
  let g := mkGrant UINT64_MAX sample_path [sample_key 1] 1 sample_boot 1 10 100
             GrantState.Active RevocationCause.Unknown "" in
  let r := (restore_grant (registry_new limits_defaults) g).2 in
  (restore_grant (registry_new limits_defaults) g).1 = success /\
  (grant r sample_path [sample_key 1] 1 sample_boot 10 100 "again").1 = Value 0 /\
  id_valid 0 = false.
Proof. vm_compute. done. Qed.

(** ** Witnesses *)

Lemma authority_registry_invariant_witness : registry_wf sample_one.
Proof. exact (authority_registry_invariant limits_defaults _ sample_one_reachable). Defined.

Lemma query_authority_exact_witness :
  aq_has_authority (query sample_one sample_path 50) = true /\
  (exists g, conferring sample_one sample_path 50 g).
Proof.
  assert (Hq : aq_has_authority (query sample_one sample_path 50) = true) by (vm_compute; reflexivity).
  split; [exact Hq|].
  exact (proj1 (proj1 (proj1 (query_authority_exact sample_one sample_path 50 sample_one_wf)) Hq)).
Defined.

Lemma fenced_generation_is_final_witness :
  let r' := (fence_generations (commit_fence sample_two sample_fence).2 [sample_key 1]).2 in
  is_fenced r' (sample_key 1) = true.
Proof.
  exact (proj1 (fenced_generation_is_final sample_two sample_fence 1 _ _ sample_two_wf
                  ltac:(vm_compute; reflexivity) (rtc_refl _ _))).
Defined.

Lemma withdrawn_grant_never_active_witness :
  exists g', map_find 1 (ar_grants (revoke sample_one 1 RevocationCause.Superseded "x").2) = Some g' /\
             ag_state g' <> GrantState.Active.
Proof.
  eapply (withdrawn_grant_never_active _ _ 1); [apply rtc_refl|vm_compute; reflexivity|done].
Defined.

Lemma restart_withdraws_all_authority_witness :
  aq_has_authority (query (invalidate_pre_restart sample_two).2 sample_path 50) = false.
Proof.
  pose proof (restart_withdraws_all_authority sample_two sample_two_wf) as H.
  exact (proj1 (proj2 H) sample_path 50).
Defined.

Lemma expire_due_preserves_authority_witness :
  aq_has_authority (query (expire_due sample_two 60).2 sample_path 70) = true.
Proof.
  rewrite (expire_due_preserves_authority sample_two 60 70 sample_path sample_two_wf ltac:(lia)).
  vm_compute. reflexivity.
Defined.

Lemma grant_mints_fresh_authority_witness :
  map_find 2 (ar_grants sample_one) = None.
Proof.
  refine (proj1 (grant_mints_fresh_authority sample_one sample_path [sample_key 2] 1 sample_boot 10
    100 "backup" 2 sample_two sample_one_wf _ _ _)); [ints_lia|ints_lia|vm_compute; reflexivity].
Defined.
