(* ===== verification/Evidence.v ===== *)
(** Evidence admission and fail-closed adjudication (include/sff/model/evidence.hpp,
    src/model/evidence.cpp): evidence records, the durable failure table, the
    bounded evidence store and the assessment of one switch generation. *)

From S2P Require Import Prelude Containers Core Generation Switch.

Module EvidenceSource.
Inductive EvidenceSource :=
| Unknown | SimulatedFixture | TelemetryCollector | SwitchAgent | TopologyService | FabricManager
| OperatorPolicy.
End EvidenceSource.
Abbreviation EvidenceSource := EvidenceSource.EvidenceSource.

Module TrustLevel.
Inductive TrustLevel := Untrusted | Advisory | Authoritative.
End TrustLevel.
Abbreviation TrustLevel := TrustLevel.TrustLevel.

Module EvidenceKind.
Inductive EvidenceKind :=
| Unknown | SwitchHealth | SwitchFailureDeclaration | SwitchRecoveryDeclaration
| CapabilityDeclaration | AdminStateDeclaration | EffectVerification | EffectFailure.
End EvidenceKind.
Abbreviation EvidenceKind := EvidenceKind.EvidenceKind.

#[export] Instance EvidenceSource_eq_dec : EqDecision EvidenceSource.
Proof. solve_decision. Defined.
#[export] Instance TrustLevel_eq_dec : EqDecision TrustLevel.
Proof. solve_decision. Defined.
#[export] Instance EvidenceKind_eq_dec : EqDecision EvidenceKind.
Proof. solve_decision. Defined.

Definition kPerSubjectRetention : Z := 32.
Definition kFutureSanityBoundNs : Z := 3600 * kNanosPerSecond.

Definition is_failure_health (s : SwitchHealthState) : bool :=
  match s with
  | SwitchHealthState.Failed | SwitchHealthState.Unreachable | SwitchHealthState.Suspect => true
  | _ => false
  end.

Definition is_positive_health (s : SwitchHealthState) : bool :=
  match s with SwitchHealthState.Healthy | SwitchHealthState.Degraded => true | _ => false end.

Definition is_admin_unavailable (s : SwitchAdminState) : bool :=
  match s with SwitchAdminState.Disabled | SwitchAdminState.Maintenance => true | _ => false end.

Definition evidence_source_raw (s : EvidenceSource) : Z :=
  match s with
  | EvidenceSource.Unknown => 0 | EvidenceSource.SimulatedFixture => 1
  | EvidenceSource.TelemetryCollector => 2 | EvidenceSource.SwitchAgent => 3
  | EvidenceSource.TopologyService => 4 | EvidenceSource.FabricManager => 5
  | EvidenceSource.OperatorPolicy => 6
  end.

Definition evidence_source_to_string (s : EvidenceSource) : string :=
  match s with
  | EvidenceSource.Unknown => "UNKNOWN"
  | EvidenceSource.SimulatedFixture => "SYNTHETIC_FIXTURE"
  | EvidenceSource.TelemetryCollector => "TELEMETRY"
  | EvidenceSource.SwitchAgent => "SWITCH_AGENT"
  | EvidenceSource.TopologyService => "TOPOLOGY_SERVICE"
  | EvidenceSource.FabricManager => "FABRIC_MANAGER"
  | EvidenceSource.OperatorPolicy => "OPERATOR"
  end.

Definition is_valid_evidence_source (raw : Z) : bool :=
  (evidence_source_raw EvidenceSource.SimulatedFixture <=? raw)
  && (raw <=? evidence_source_raw EvidenceSource.OperatorPolicy).

Definition trust_level_to_string (t : TrustLevel) : string :=
  match t with
  | TrustLevel.Untrusted => "UNTRUSTED"
  | TrustLevel.Advisory => "ADVISORY"
  | TrustLevel.Authoritative => "AUTHORITATIVE"
  end.

Definition trust_of (s : EvidenceSource) : TrustLevel :=
  match s with
  | EvidenceSource.Unknown => TrustLevel.Untrusted
  | EvidenceSource.SimulatedFixture => TrustLevel.Authoritative
  | EvidenceSource.TelemetryCollector | EvidenceSource.SwitchAgent => TrustLevel.Advisory
  | EvidenceSource.TopologyService | EvidenceSource.FabricManager
  | EvidenceSource.OperatorPolicy => TrustLevel.Authoritative
  end.

Definition evidence_kind_raw (k : EvidenceKind) : Z :=
  match k with
  | EvidenceKind.Unknown => 0 | EvidenceKind.SwitchHealth => 1
  | EvidenceKind.SwitchFailureDeclaration => 2 | EvidenceKind.SwitchRecoveryDeclaration => 3
  | EvidenceKind.CapabilityDeclaration => 4 | EvidenceKind.AdminStateDeclaration => 5
  | EvidenceKind.EffectVerification => 6 | EvidenceKind.EffectFailure => 7
  end.

Definition evidence_kind_to_string (k : EvidenceKind) : string :=
  match k with
  | EvidenceKind.Unknown => "UNKNOWN"
  | EvidenceKind.SwitchHealth => "SWITCH_HEALTH"
  | EvidenceKind.SwitchFailureDeclaration => "SWITCH_FAILURE_DECLARATION"
  | EvidenceKind.SwitchRecoveryDeclaration => "SWITCH_RECOVERY_DECLARATION"
  | EvidenceKind.CapabilityDeclaration => "CAPABILITY_DECLARATION"
  | EvidenceKind.AdminStateDeclaration => "ADMIN_STATE_DECLARATION"
  | EvidenceKind.EffectVerification => "EFFECT_VERIFICATION"
  | EvidenceKind.EffectFailure => "EFFECT_FAILURE"
  end.

Definition is_valid_evidence_kind (raw : Z) : bool :=
  (evidence_kind_raw EvidenceKind.SwitchHealth <=? raw)
  && (raw <=? evidence_kind_raw EvidenceKind.EffectFailure).

Record EvidenceRecord := mkEvidence {
  er_id : Z;
  er_kind : EvidenceKind;
  er_source : EvidenceSource;
  er_subject : SwitchKey;
  er_admitted_epoch : Z;
  er_admitted_boot : BootIncarnation;
  er_observed_at_ns : Z;
  er_valid_for_ns : Z;
  er_health : SwitchHealthState;
  er_admin : SwitchAdminState;
  er_capabilities : Z;
  er_effect_dependent : DependentRef;
  er_effect_plan : Z;
  er_effect_attempt : Z;
  er_detail : string
}.

Definition evidence_digest (r : EvidenceRecord) : Z :=
  dig_hi
    (absorb_string (er_detail r)
      (absorb_u64 (er_effect_attempt r)
        (absorb_u64 (er_effect_plan r)
          (absorb_dependent (er_effect_dependent r)
            (absorb_u64 (er_capabilities r)
              (absorb_byte (admin_state_raw (er_admin r))
                (absorb_byte (health_state_raw (er_health r))
                  (absorb_u64 (er_valid_for_ns r)
                    (absorb_u64 (er_observed_at_ns r)
                      (absorb_u64 (boot_ordinal (er_admitted_boot r))
                        (absorb_u64 (er_admitted_epoch r)
                          (absorb_key (er_subject r)
                            (absorb_byte (evidence_source_raw (er_source r))
                              (absorb_byte (evidence_kind_raw (er_kind r))
                                (absorb_u64 (er_id r)
                                  (absorb_string "sff.evidence-record.v1" digest_init)))))))))))))))).

Definition evidence_validate (r : EvidenceRecord) : Status :=
  (if negb (id_valid (er_id r)) then failure Code.Invalid "evidence record has no identity"
   else if negb (is_valid_evidence_kind (evidence_kind_raw (er_kind r))) then
     failure Code.Invalid "evidence record has an invalid kind"
   else if negb (is_valid_evidence_source (evidence_source_raw (er_source r))) then
     failure Code.Invalid "evidence record has an invalid source"
   else if negb (key_valid (er_subject r)) then
     failure Code.Invalid "evidence subject is not generation-qualified"
   else if er_valid_for_ns r =? 0 then
     failure Code.Invalid "evidence record has a zero validity window"
   else if er_observed_at_ns r =? 0 then
     failure Code.Invalid "evidence record has no observation time"
   else if kMaxMessageBytes <? str_size (er_detail r) then
     failure Code.Invalid "evidence detail exceeds the message budget"
   else
     check
       match er_kind r with
       | EvidenceKind.SwitchHealth =>
           if negb (is_valid_health_state (health_state_raw (er_health r)))
              || bool_decide (er_health r = SwitchHealthState.Unknown)
           then failure Code.Invalid "health evidence carries no defined health state" else success
       | EvidenceKind.AdminStateDeclaration =>
           if negb (is_valid_admin_state (admin_state_raw (er_admin r)))
              || bool_decide (er_admin r = SwitchAdminState.Unknown)
           then failure Code.Invalid "admin evidence carries no defined admin state" else success
       | EvidenceKind.CapabilityDeclaration => validate_capability_mask (er_capabilities r)
       | EvidenceKind.EffectVerification | EvidenceKind.EffectFailure =>
           if negb (dependent_valid (er_effect_dependent r)) then
             failure Code.Invalid "effect evidence names no dependent"
           else if negb (id_valid (er_effect_plan r)) then
             failure Code.Invalid "effect evidence names no plan"
           else success
       | _ => success
       end;;
     match er_kind r with
     | EvidenceKind.SwitchFailureDeclaration | EvidenceKind.SwitchRecoveryDeclaration =>
         if negb (bool_decide (trust_of (er_source r) = TrustLevel.Authoritative)) then
           failure Code.Unsupported "advisory source cannot assert a switch lifecycle declaration"
         else success
     | _ => success
     end)%sff.

Definition evidence_expires_at_ns (r : EvidenceRecord) : Z :=
  add64 (er_observed_at_ns r) (er_valid_for_ns r).

Definition fresh_at (r : EvidenceRecord) (now : Z) : bool :=
  if now <? er_observed_at_ns r then false
  else
    let expires := evidence_expires_at_ns r in
    if expires <? er_observed_at_ns r then false else now <=? expires.

Record AssessmentPolicy := mkAssessmentPolicy {
  fence_on_authoritative_conflict : bool;
  fence_on_missing_health : bool;
  allow_same_generation_recovery : bool;
  require_authoritative_failure_evidence : bool;
  future_skew_tolerance_ns : Z
}.

Definition assessment_policy_defaults : AssessmentPolicy :=
  mkAssessmentPolicy true false true true kNanosPerSecond.

(** * The durable failure table *)

Abbreviation FailureTable := (list (SwitchKey * FailureRecord)).

Definition failure_record (t : FailureTable) (value : FailureRecord) : Status * FailureTable :=
  if negb (key_valid (fr_subject value)) then
    (failure Code.Invalid "failure record is not generation-qualified", t)
  else if fr_observed_at_ns value =? 0 then
    (failure Code.Invalid "failure record has no observation time", t)
  else
    match map_find (fr_subject value) t with
    | Some existing =>
        if fr_observed_at_ns value <? fr_observed_at_ns existing then (success, t)
        else (success, map_set (fr_subject value) value t)
    | None => (success, map_set (fr_subject value) value t)
    end.

Definition failure_contains (t : FailureTable) (key : SwitchKey) : bool := map_contains key t.
Definition failure_find (t : FailureTable) (key : SwitchKey) : option FailureRecord := map_find key t.
Definition failure_all (t : FailureTable) : list FailureRecord := map_values t.
Definition failure_size (t : FailureTable) : Z := map_size t.
Definition failure_clear (t : FailureTable) : FailureTable := [].

Definition failure_supersede (t : FailureTable) (key : SwitchKey) (recovery_observed_at_ns : Z) :
  Status * FailureTable :=
  match map_find key t with
  | None => (success, t)
  | Some f =>
      if recovery_observed_at_ns <=? fr_observed_at_ns f then
        (failure Code.Stale "recovery declaration does not postdate the recorded failure", t)
      else (success, map_erase key t)
  end.

(** * The evidence store *)

Record EvidenceStore := mkStore {
  es_limits : Limits;
  es_has_clock : bool;
  es_by_subject : list (SwitchKey * list EvidenceRecord);
  es_identities : list Z;
  es_total : Z;
  es_rejected : Z;
  es_evicted : Z
}.

Definition store_new (limits : Limits) (has_clock : bool) : EvidenceStore :=
  mkStore limits has_clock [] [] 0 0 0.

Definition store_rejecting (s : EvidenceStore) : EvidenceStore :=
  mkStore (es_limits s) (es_has_clock s) (es_by_subject s) (es_identities s) (es_total s)
    (add64 (es_rejected s) 1) (es_evicted s).

(** The comparison of the bucket's [std::lower_bound]. *)
Definition evidence_less (left right : EvidenceRecord) : bool :=
  if negb (er_observed_at_ns left =? er_observed_at_ns right)
  then er_observed_at_ns left <? er_observed_at_ns right
  else er_id left <? er_id right.

(** `while (bucket.size() > kPerSubjectRetention)`: drop from the front. *)
Fixpoint evict_excess (bucket : list EvidenceRecord) (identities : list Z) (total evicted : Z) :
  list EvidenceRecord * list Z * Z * Z :=
  match bucket with
  | [] => ([], identities, total, evicted)
  | front :: rest =>
      if kPerSubjectRetention <? zlen bucket
      then evict_excess rest (set_erase (er_id front) identities) (sub64 total 1) (add64 evicted 1)
      else (bucket, identities, total, evicted)
  end.

(** [clock_now] is what the clock reads, when the store has one. *)
Definition admit_record (s : EvidenceStore) (clock_now : Z) (record : EvidenceRecord) :
  Status * EvidenceStore :=
  let structural := evidence_validate record in
  if negb (status_ok structural) then (structural, store_rejecting s)
  else
    let now := if es_has_clock s then clock_now else 0 in
    if (now <? er_observed_at_ns record)
       && (kFutureSanityBoundNs <? er_observed_at_ns record - now) then
      (failure Code.Invalid "evidence observation time is implausibly far ahead", store_rejecting s)
    else if set_contains (er_id record) (es_identities s) then
      (failure Code.AlreadyExists "evidence identity has already been admitted", store_rejecting s)
    else
      let bucket := default [] (map_find (er_subject record) (es_by_subject s)) in
      if max_evidence_records (es_limits s) <=? es_total s then
        (failure Code.Exhausted "evidence retention bound reached",
         store_rejecting
           (mkStore (es_limits s) (es_has_clock s) (map_set (er_subject record) bucket (es_by_subject s))
              (es_identities s) (es_total s) (es_rejected s) (es_evicted s)))
      else
        let position := lower_bound evidence_less bucket record in
        let '(bucket', identities', total', evicted') :=
          evict_excess (insert_at position record bucket)
            (set_insert (er_id record) (es_identities s)) (add64 (es_total s) 1) (es_evicted s) in
        (success,
         mkStore (es_limits s) (es_has_clock s) (map_set (er_subject record) bucket' (es_by_subject s))
           identities' total' (es_rejected s) evicted').

Definition records (s : EvidenceStore) : list EvidenceRecord :=
  concat (map_values (es_by_subject s)).

Definition for_subject (s : EvidenceStore) (subject : SwitchKey) : list EvidenceRecord :=
  default [] (map_find subject (es_by_subject s)).

Definition store_size (s : EvidenceStore) : Z := es_total s.
Definition store_capacity (s : EvidenceStore) : Z := max_evidence_records (es_limits s).
Definition store_clear (s : EvidenceStore) : EvidenceStore :=
  mkStore (es_limits s) (es_has_clock s) [] [] 0 (es_rejected s) (es_evicted s).
Definition had_rejection (s : EvidenceStore) : bool := negb (es_rejected s =? 0).

(** * Adjudication *)

Record SwitchAssessment := mkAssessment {
  sa_subject : SwitchKey;
  sa_health : SwitchHealthState;
  sa_outcome : Code;
  sa_usable : bool;
  sa_fence_required : bool;
  sa_durable_failure_present : bool;
  sa_durable_failure : FailureRecord;
  sa_supporting : list Z;
  sa_conflicting : list Z;
  sa_stale : list Z;
  sa_untrusted : list Z;
  sa_out_of_window : list Z;
  sa_rationale : string
}.

Definition assessment_digest (a : SwitchAssessment) : Z :=
  dig_hi
    (absorb_each absorb_u64 (sa_conflicting a)
      (absorb_each absorb_u64 (sa_supporting a)
        (absorb_bool (sa_durable_failure_present a)
          (absorb_bool (sa_fence_required a)
            (absorb_bool (sa_usable a)
              (absorb_byte (wrap8 (code_raw (sa_outcome a)))
                (absorb_byte (health_state_raw (sa_health a))
                  (absorb_key (sa_subject a)
                    (absorb_string "sff.switch-assessment.v1" digest_init))))))))).

(** A default-constructed [FailureRecord]. *)
Definition failure_record_none : FailureRecord :=
  mkFailureRecord (mkSwitchKey 0 0) 0 0 boot_none 0 0 "".

(** The locals of [assess_switch]; a time and the evidence that set it are
    assigned together, so they are one pair. *)
Record AssessScan := mkAssessScan {
  sc_failure : Z * Z;
  sc_recovery : Z * Z;
  sc_advisory_bad : Z * Z;
  sc_advisory_good : Z * Z;
  sc_authoritative_good : Z * Z;
  sc_admin_unavailable_time : Z;
  sc_admin_enabled_time : Z;
  sc_admin_evidence : Z;
  sc_recovering_time : Z;
  sc_non_lifecycle : Z;
  sc_untrusted : list Z;
  sc_out_of_window : list Z;
  sc_stale : list Z
}.

Definition assess_scan_new : AssessScan :=
  mkAssessScan (0, 0) (0, 0) (0, 0) (0, 0) (0, 0) 0 0 0 0 0 [] [] [].

Definition set_failure (s : AssessScan) (v : Z * Z) : AssessScan :=
  mkAssessScan v (sc_recovery s) (sc_advisory_bad s) (sc_advisory_good s)
    (sc_authoritative_good s) (sc_admin_unavailable_time s) (sc_admin_enabled_time s)
    (sc_admin_evidence s) (sc_recovering_time s) (sc_non_lifecycle s) (sc_untrusted s)
    (sc_out_of_window s) (sc_stale s).

Definition set_recovery (s : AssessScan) (v : Z * Z) : AssessScan :=
  mkAssessScan (sc_failure s) v (sc_advisory_bad s) (sc_advisory_good s)
    (sc_authoritative_good s) (sc_admin_unavailable_time s) (sc_admin_enabled_time s)
    (sc_admin_evidence s) (sc_recovering_time s) (sc_non_lifecycle s) (sc_untrusted s)
    (sc_out_of_window s) (sc_stale s).

Definition set_advisory_bad (s : AssessScan) (v : Z * Z) : AssessScan :=
  mkAssessScan (sc_failure s) (sc_recovery s) v (sc_advisory_good s)
    (sc_authoritative_good s) (sc_admin_unavailable_time s) (sc_admin_enabled_time s)
    (sc_admin_evidence s) (sc_recovering_time s) (sc_non_lifecycle s) (sc_untrusted s)
    (sc_out_of_window s) (sc_stale s).

Definition set_advisory_good (s : AssessScan) (v : Z * Z) : AssessScan :=
  mkAssessScan (sc_failure s) (sc_recovery s) (sc_advisory_bad s) v
    (sc_authoritative_good s) (sc_admin_unavailable_time s) (sc_admin_enabled_time s)
    (sc_admin_evidence s) (sc_recovering_time s) (sc_non_lifecycle s) (sc_untrusted s)
    (sc_out_of_window s) (sc_stale s).

Definition set_authoritative_good (s : AssessScan) (v : Z * Z) : AssessScan :=
  mkAssessScan (sc_failure s) (sc_recovery s) (sc_advisory_bad s) (sc_advisory_good s)
    v (sc_admin_unavailable_time s) (sc_admin_enabled_time s)
    (sc_admin_evidence s) (sc_recovering_time s) (sc_non_lifecycle s) (sc_untrusted s)
    (sc_out_of_window s) (sc_stale s).

Definition set_admin (s : AssessScan) (unavailable enabled evidence : Z) : AssessScan :=
  mkAssessScan (sc_failure s) (sc_recovery s) (sc_advisory_bad s) (sc_advisory_good s)
    (sc_authoritative_good s) unavailable enabled evidence (sc_recovering_time s)
    (sc_non_lifecycle s) (sc_untrusted s) (sc_out_of_window s) (sc_stale s).

Definition set_counts (s : AssessScan) (recovering non_lifecycle : Z) : AssessScan :=
  mkAssessScan (sc_failure s) (sc_recovery s) (sc_advisory_bad s) (sc_advisory_good s)
    (sc_authoritative_good s) (sc_admin_unavailable_time s) (sc_admin_enabled_time s)
    (sc_admin_evidence s) recovering non_lifecycle (sc_untrusted s) (sc_out_of_window s) (sc_stale s).

Definition set_skipped (s : AssessScan) (untrusted out_of_window stale : list Z) : AssessScan :=
  mkAssessScan (sc_failure s) (sc_recovery s) (sc_advisory_bad s) (sc_advisory_good s)
    (sc_authoritative_good s) (sc_admin_unavailable_time s) (sc_admin_enabled_time s)
    (sc_admin_evidence s) (sc_recovering_time s) (sc_non_lifecycle s) untrusted out_of_window stale.

(** The body of `switch (record.kind)` for a trusted, fresh record. *)
Definition scan_kind (authoritative : bool) (s : AssessScan) (r : EvidenceRecord) : AssessScan :=
  let at_ := er_observed_at_ns r in
  let here := (at_, er_id r) in
  match er_kind r with
  | EvidenceKind.SwitchFailureDeclaration | EvidenceKind.SwitchHealth =>
      let is_health := bool_decide (er_kind r = EvidenceKind.SwitchHealth) in
      if is_health && bool_decide (er_health r = SwitchHealthState.Recovering) then
        set_counts s (Z.max (sc_recovering_time s) at_) (sc_non_lifecycle s)
      else if is_health && is_positive_health (er_health r) then
        if authoritative then
          if (sc_authoritative_good s).1 <=? at_ then set_authoritative_good s here else s
        else if (sc_advisory_good s).1 <=? at_ then set_advisory_good s here else s
      else
        let assertion := bool_decide (er_kind r = EvidenceKind.SwitchFailureDeclaration)
                         || (is_health && is_failure_health (er_health r)) in
        if assertion then
          if authoritative then
            if (sc_failure s).1 <? at_ then set_failure s here else s
          else if (sc_advisory_bad s).1 <? at_ then set_advisory_bad s here else s
        else s
  | EvidenceKind.SwitchRecoveryDeclaration =>
      if authoritative then
        if (sc_recovery s).1 <? at_ then set_recovery s here else s
      else if (sc_advisory_good s).1 <=? at_ then set_advisory_good s here else s
  | EvidenceKind.AdminStateDeclaration =>
      if negb authoritative then set_counts s (sc_recovering_time s) (sc_non_lifecycle s + 1)
      else if is_admin_unavailable (er_admin r) then
        if sc_admin_unavailable_time s <=? at_
        then set_admin s at_ (sc_admin_enabled_time s) (er_id r) else s
      else if bool_decide (er_admin r = SwitchAdminState.Enabled) then
        if sc_admin_enabled_time s <=? at_
        then set_admin s (sc_admin_unavailable_time s) at_ (er_id r) else s
      else s
  | _ => set_counts s (sc_recovering_time s) (sc_non_lifecycle s + 1)
  end.

(** The body of `for (const auto& record : records)`. *)
Definition scan_record (now_ns : Z) (policy : AssessmentPolicy) (s : AssessScan) (r : EvidenceRecord) :
  AssessScan :=
  let trust := trust_of (er_source r) in
  if bool_decide (trust = TrustLevel.Untrusted) then
    set_skipped s (sc_untrusted s ++ [er_id r]) (sc_out_of_window s) (sc_stale s)
  else if (now_ns <? er_observed_at_ns r)
          && (future_skew_tolerance_ns policy <? er_observed_at_ns r - now_ns) then
    set_skipped s (sc_untrusted s) (sc_out_of_window s ++ [er_id r]) (sc_stale s)
  else if negb (fresh_at r now_ns) then
    set_skipped s (sc_untrusted s) (sc_out_of_window s) (sc_stale s ++ [er_id r])
  else scan_kind (bool_decide (trust = TrustLevel.Authoritative)) s r.

(** The lambda [note]. *)
Definition note (supporting : list Z) (id : Z) : list Z :=
  if negb (id_valid id) then supporting
  else if vector_has id supporting then supporting else supporting ++ [id].

Definition assess_switch (subject : SwitchKey) (evidence : EvidenceStore) (failures : FailureTable)
  (now_ns : Z) (policy : AssessmentPolicy) : SwitchAssessment :=
  if negb (key_valid subject) then
    mkAssessment subject SwitchHealthState.Unknown Code.Invalid false true false failure_record_none
      [] [] [] [] [] "subject is not generation-qualified; no authority can be derived"
  else
    let s := foldl (scan_record now_ns policy) assess_scan_new (for_subject evidence subject) in
    let failure_time := (sc_failure s).1 in
    let recovery_time := (sc_recovery s).1 in
    let advisory_bad_time := (sc_advisory_bad s).1 in
    let advisory_good_time := (sc_advisory_good s).1 in
    let authoritative_good_time := (sc_authoritative_good s).1 in
    let admin_unavailable_time := sc_admin_unavailable_time s in
    let admin_enabled_time := sc_admin_enabled_time s in
    let supporting :=
      note (note (note (note [] (sc_failure s).2) (sc_recovery s).2) (sc_authoritative_good s).2)
        (sc_admin_evidence s) in
    let untrusted1 :=
      if id_valid (sc_advisory_bad s).2 && negb (advisory_bad_time =? failure_time)
      then sc_untrusted s ++ [(sc_advisory_bad s).2] else sc_untrusted s in
    let untrusted :=
      if id_valid (sc_advisory_good s).2 then untrusted1 ++ [(sc_advisory_good s).2] else untrusted1 in
    let durable := failure_find failures subject in
    let durable_present := match durable with Some _ => true | None => false end in
    let durable_failure := default failure_record_none durable in
    let same_generation_recovery := allow_same_generation_recovery policy in
    let effective_recovery :=
      if same_generation_recovery then Z.max recovery_time admin_enabled_time else 0 in
    let durable_active :=
      durable_present &&
      negb (same_generation_recovery && (fr_observed_at_ns durable_failure <? effective_recovery)) in
    let observed_anything :=
      negb (failure_time =? 0) || negb (recovery_time =? 0) || negb (admin_unavailable_time =? 0)
      || negb (admin_enabled_time =? 0) || negb (advisory_bad_time =? 0)
      || negb (advisory_good_time =? 0) || negb (authoritative_good_time =? 0) in
    let answer outcome health usable fence supporting conflicting rationale :=
      mkAssessment subject health outcome usable fence durable_present durable_failure supporting
        conflicting (sc_stale s) untrusted (sc_out_of_window s) rationale in
    let fence_missing := fence_on_missing_health policy in
    if durable_active then
      answer Code.Ok SwitchHealthState.Failed false true
        (note supporting (fr_evidence durable_failure)) []
        "durable committed failure lineage applies to this generation"%string
    else if negb (failure_time =? 0) && negb (recovery_time =? 0) && (failure_time =? recovery_time) then
      answer Code.Conflict SwitchHealthState.Unknown false (fence_on_authoritative_conflict policy)
        [] [(sc_failure s).2; (sc_recovery s).2]
        "authoritative failure and recovery declarations share the same observation instant"%string
    else if negb (recovery_time =? 0) && (failure_time <? recovery_time) then
      answer Code.Ok SwitchHealthState.Healthy true false supporting []
        "authoritative recovery declaration postdates every failure declaration"%string
    else if negb (failure_time =? 0) then
      answer Code.Ok SwitchHealthState.Failed false true supporting []
        "authoritative failure declaration for this exact generation"%string
    else if negb (advisory_bad_time =? 0) && negb (require_authoritative_failure_evidence policy) then
      answer Code.Ok SwitchHealthState.Unreachable false true supporting []
        "policy accepts advisory failure observation as sufficient to fence this generation"%string
    else if (admin_enabled_time <=? admin_unavailable_time) && negb (admin_unavailable_time =? 0) then
      answer Code.Ok SwitchHealthState.Unknown false false supporting []
        "authoritative administrative declaration makes the generation unavailable"%string
    else if negb (authoritative_good_time =? 0) then
      answer Code.Ok SwitchHealthState.Healthy true false supporting []
        "authoritative affirmative health observation within its validity window"%string
    else if negb (advisory_bad_time =? 0) then
      answer Code.Unknown SwitchHealthState.Unreachable false fence_missing supporting []
        "advisory observation only; policy requires authoritative evidence before fencing"%string
    else if negb (advisory_good_time =? 0) then
      answer Code.Unknown SwitchHealthState.Healthy false fence_missing supporting []
        "observation is not authority: advisory health cannot grant availability"%string
    else if negb (bool_decide (sc_stale s = [])) then
      answer Code.Stale SwitchHealthState.Unknown false fence_missing supporting []
        "every retained observation is outside its validity window"%string
    else if negb observed_anything then
      if negb (sc_recovering_time s =? 0) then
        answer Code.Unknown SwitchHealthState.Recovering false fence_missing supporting []
          "the generation is reported recovering; availability is not yet affirmed"%string
      else if negb (sc_non_lifecycle s =? 0) then
        answer Code.Unknown SwitchHealthState.Unknown false fence_missing supporting []
          "evidence exists for this generation but none of it adjudicates switch lifecycle"%string
      else if negb (bool_decide (sc_stale s = [])) then
        answer Code.Stale SwitchHealthState.Unknown false fence_missing supporting []
          "every lifecycle observation is outside its validity window"%string
      else if negb (bool_decide (untrusted = [])) then
        answer Code.Unknown SwitchHealthState.Unknown false fence_missing supporting []
          "no trusted evidence exists for this generation"%string
      else
        answer Code.Unknown SwitchHealthState.Unknown false fence_missing supporting []
          "no evidence exists for this generation"%string
    else
      answer Code.Unknown SwitchHealthState.Unknown false fence_missing supporting []
        "evidence present but insufficient to reach a conclusion"%string.

(** * The store invariant *)

Definition er_position (r : EvidenceRecord) : Z * Z := (er_observed_at_ns r, er_id r).

Lemma evidence_less_position a b : evidence_less a b = ltb (er_position a) (er_position b).
Proof.
  unfold evidence_less, ltb, pair_ordered, pair_less. simpl.
  destruct (er_observed_at_ns a =? er_observed_at_ns b) eqn:E; bool_prop; simpl.
  - by rewrite bool_decide_eq_true_2.
  - by rewrite bool_decide_eq_false_2.
Qed.

Lemma lower_bound_position (b : list EvidenceRecord) r :
  lower_bound evidence_less b r = lower_bound ltb (er_position <$> b) (er_position r).
Proof.
  unfold lower_bound. induction b as [|x b IH]; simpl; [done|].
  rewrite evidence_less_position. by rewrite IH.
Qed.

Lemma fmap_insert_at {A B} (f : A -> B) i x l : f <$> insert_at i x l = insert_at i (f x) (f <$> l).
Proof. unfold insert_at. by rewrite fmap_app, fmap_cons, fmap_take, fmap_drop. Qed.

Lemma insert_at_perm {A} i (x : A) l : insert_at i x l ≡ₚ x :: l.
Proof. unfold insert_at. by rewrite <- Permutation_middle, take_drop. Qed.

Record store_wf (s : EvidenceStore) : Prop := {
  swf_map : map_wf (es_by_subject s);
  (** a bucket is ordered by observation, bounded, and holds valid records of
      its own generation *)
  swf_bucket : forall k b, map_find k (es_by_subject s) = Some b ->
    canonical (er_position <$> b) /\ zlen b <= kPerSubjectRetention /\
    forall r, r ∈ b -> er_subject r = k /\ status_ok (evidence_validate r) = true /\
                       0 < er_observed_at_ns r;
  (** the identity set is exactly the identities of the retained records, each once *)
  swf_ids_canonical : canonical (es_identities s);
  swf_ids : (er_id <$> records s) ≡ₚ es_identities s;
  swf_total : es_total s = zlen (records s);
  swf_bound : es_total s <= max_evidence_records (es_limits s);
  swf_limit : in_u64 (max_evidence_records (es_limits s))
}.

Lemma store_new_wf limits has_clock :
  in_u64 (max_evidence_records limits) -> store_wf (store_new limits has_clock).
Proof. intros H. split; try done; try (by constructor); simpl. destruct H. lia. Qed.

Lemma store_rejecting_wf s : store_wf s -> store_wf (store_rejecting s).
Proof. by intros []. Qed.

Lemma set_erase_perm (x : Z) ids l : NoDup ids -> ids ≡ₚ x :: l -> set_erase x ids ≡ₚ l.
Proof.
  intros Hnd Hp. rewrite Hp in Hnd. apply NoDup_cons in Hnd as [Hx _].
  unfold set_erase. rewrite Hp. rewrite filter_cons, decide_False by tauto.
  rewrite filter_all; [done|]. congruence.
Qed.

Lemma set_insert_perm (x : Z) ids : x ∉ ids -> set_insert x ids ≡ₚ x :: ids.
Proof.
  intros Hx. unfold set_insert, set_contains. rewrite bool_decide_eq_false_2 by done.
  apply insert_at_perm.
Qed.

(** Eviction drops a prefix, just long enough, and forgets its identities. *)
Lemma evict_excess_spec b ids total evicted rest :
  canonical ids -> ids ≡ₚ (er_id <$> b) ++ rest -> zlen b <= total < two64 ->
  let '(b', ids', total', evicted') := evict_excess b ids total evicted in
  let n := (length b - 32)%nat in
  b' = drop n b /\ canonical ids' /\ ids' ≡ₚ (er_id <$> b') ++ rest /\
  total' = total - Z.of_nat n.
Proof.
  revert ids total evicted. induction b as [|x b IH]; intros ids total evicted Hc Hp Ht; cbn [evict_excess].
  { split; [done|]. split; [done|]. split; [done|simpl; lia]. }
  unfold kPerSubjectRetention. destruct (32 <? zlen (x :: b)) eqn:E; bool_prop.
  - rewrite zlen_cons in *. pose proof (zlen_nonneg b).
    specialize (IH (set_erase (er_id x) ids) (sub64 total 1) (add64 evicted 1)).
    assert (Hs : sub64 total 1 = total - 1) by (apply wrap64_small; ints_lia).
    rewrite Hs in *. unfold zlen in *.
    destruct (evict_excess b _ _ _) as [[[b' ids'] total'] evicted'].
    destruct IH as (-> & ? & ? & ->).
    + by apply canonical_filter.
    + apply set_erase_perm; [by apply canonical_NoDup|]. by rewrite Hp.
    + lia.
    + replace (length (x :: b) - 32)%nat with (S (length b - 32)) by (simpl length; lia). cbn [drop].
      split; [done|]. split; [done|]. split; [done|lia].
  - replace (length (x :: b) - 32)%nat with 0%nat by (unfold zlen in E; lia). cbn [drop].
    split; [done|]. split; [done|]. split; [done|lia].
Qed.

Lemma admit_accepts s now r s' :
  admit_record s now r = (success, s') -> store_wf s ->
  status_ok (evidence_validate r) = true /\ er_id r ∉ es_identities s /\
  es_total s < max_evidence_records (es_limits s) /\
  exists b ids evicted n,
    b = insert_at (lower_bound evidence_less (for_subject s (er_subject r)) r) r
          (for_subject s (er_subject r)) /\
    n = (length b - 32)%nat /\ canonical ids /\
    ids ≡ₚ (er_id <$> drop n b) ++
           (er_id <$> concat (map_values (map_erase (er_subject r) (es_by_subject s)))) /\
    s' = mkStore (es_limits s) (es_has_clock s)
           (map_set (er_subject r) (drop n b) (es_by_subject s)) ids
           (es_total s + 1 - Z.of_nat n) (es_rejected s) evicted.
Proof.
  intros Ha Hwf. unfold admit_record in Ha.
  destruct (status_ok (evidence_validate r)) eqn:Hv; [|injection Ha as E _; by rewrite E in Hv].
  cbn [negb] in Ha. split_test; [done|].
  destruct (set_contains (er_id r) (es_identities s)) eqn:Hid; [done|].
  apply set_contains_false in Hid.
  destruct (max_evidence_records (es_limits s) <=? es_total s) eqn:Hmax; [done|]. bool_prop.
  fold (for_subject s (er_subject r)) in Ha.
  set (b := insert_at _ r (for_subject s (er_subject r))) in *.
  pose proof (swf_limit _ Hwf) as [_ Hlim]. pose proof (swf_total _ Hwf) as Htot.
  pose proof (zlen_nonneg (records s)).
  assert (Hadd : add64 (es_total s) 1 = es_total s + 1) by (apply add64_small; ints_lia).
  rewrite Hadd in Ha.
  assert (Hflat : records s ≡ₚ for_subject s (er_subject r) ++
            concat (map_values (map_erase (er_subject r) (es_by_subject s))))
    by apply map_find_flat, Hwf.
  assert (Hb : b ≡ₚ r :: for_subject s (er_subject r)) by apply insert_at_perm.
  pose proof (evict_excess_spec b (set_insert (er_id r) (es_identities s)) (es_total s + 1)
    (es_evicted s) (er_id <$> concat (map_values (map_erase (er_subject r) (es_by_subject s))))) as He.
  destruct (evict_excess b _ _ _) as [[[b' ids'] total'] evicted'].
  destruct He as (-> & Hc & Hids & ->).
  - apply set_insert_canonical, Hwf.
  - rewrite set_insert_perm by done. rewrite <- (swf_ids _ Hwf), Hflat, Hb. by rewrite fmap_app.
  - assert (zlen b <= zlen (records s) + 1).
    { unfold zlen. rewrite Hflat, Hb. simpl. rewrite length_app. lia. }
    ints_lia.
  - split; [done|]. split; [done|]. split; [done|]. injection Ha as <-.
    exists b, ids', evicted', (length b - 32)%nat. done.
Qed.

Lemma bucket_elem_records s k r : r ∈ for_subject s k -> r ∈ records s.
Proof.
  unfold for_subject, records. destruct (map_find k (es_by_subject s)) as [b|] eqn:Hf; simpl;
    [|by intros ?%elem_of_nil].
  intros Hr. apply list_elem_of_In, in_concat. exists b. split; [|by apply list_elem_of_In].
  apply list_elem_of_In, list_elem_of_fmap. exists (k, b). split; [done|]. by apply map_find_in.
Qed.

Lemma bucket_wf s k :
  store_wf s ->
  canonical (er_position <$> for_subject s k) /\ zlen (for_subject s k) <= kPerSubjectRetention /\
  forall r, r ∈ for_subject s k -> er_subject r = k /\ status_ok (evidence_validate r) = true /\
                                   0 < er_observed_at_ns r.
Proof.
  intros Hwf. unfold for_subject. destruct (map_find k _) as [b|] eqn:Hf; simpl.
  - by apply (swf_bucket _ Hwf).
  - split; [constructor|]. split; [done|]. by intros r ?%elem_of_nil.
Qed.

Lemma evidence_validate_observed r :
  status_ok (evidence_validate r) = true -> er_observed_at_ns r <> 0.
Proof.
  unfold evidence_validate. do 5 (split_test; [by rewrite failure_not_ok|]).
  split_test; [by rewrite failure_not_ok|]. by bool_prop.
Qed.

Lemma accepted_bucket_wf s r :
  store_wf s -> status_ok (evidence_validate r) = true -> 0 <= er_observed_at_ns r ->
  er_id r ∉ es_identities s ->
  let b := insert_at (lower_bound evidence_less (for_subject s (er_subject r)) r) r
             (for_subject s (er_subject r)) in
  let b' := drop (length b - 32) b in
  canonical (er_position <$> b') /\ zlen b' <= kPerSubjectRetention /\
  forall x, x ∈ b' -> er_subject x = er_subject r /\ status_ok (evidence_validate x) = true /\
                       0 < er_observed_at_ns x.
Proof.
  intros Hwf Hv Hobs Hid b b'. destruct (bucket_wf s (er_subject r) Hwf) as (Hc & _ & Hin).
  split; [|split].
  - unfold b'. rewrite fmap_drop. apply canonical_drop. unfold b. rewrite fmap_insert_at, lower_bound_position.
    apply insert_at_lower_bound_canonical; [done|]. intros (x & Hx & Hxin)%list_elem_of_fmap.
    apply Hid. rewrite <- (swf_ids _ Hwf). apply list_elem_of_fmap. exists x.
    split; [by injection Hx|by eapply bucket_elem_records].
  - unfold b', zlen, kPerSubjectRetention. rewrite length_drop. lia.
  - intros x Hx. apply subseteq_drop in Hx as Hxb.
    apply insert_at_elem_of in Hxb as [->|Hxb]; [|auto].
    split; [done|split; [done|]]. pose proof (evidence_validate_observed _ Hv). lia.
Qed.

Lemma admit_refused s now r :
  (admit_record s now r).1 <> success ->
  (admit_record s now r).2 = store_rejecting s \/
  (admit_record s now r).2 = store_rejecting
    (mkStore (es_limits s) (es_has_clock s)
       (map_set (er_subject r) (for_subject s (er_subject r)) (es_by_subject s))
       (es_identities s) (es_total s) (es_rejected s) (es_evicted s)).
Proof.
  unfold admit_record. intros Hne. destruct (negb _); [by left|].
  destruct (_ && _); [by left|]. destruct (set_contains _ _); [by left|].
  destruct (_ <=? _); [by right|]. destruct (evict_excess _ _ _ _) as [[[? ?] ?] ?]. done.
Qed.

Lemma admit_wf s now r :
  0 <= er_observed_at_ns r -> store_wf s -> store_wf (admit_record s now r).2.
Proof.
  intros Hobs Hwf. destruct (decide ((admit_record s now r).1 = success)) as [Hok|Hno].
  - destruct (admit_record s now r) as [st s'] eqn:Ha. simpl in Hok. subst st.
    destruct (admit_accepts s now r s' Ha Hwf) as (Hv & Hid & Hlt & b & ids & ev & n & Hb & Hn & Hc & Hids & ->).
    pose proof (accepted_bucket_wf s r Hwf Hv Hobs Hid) as Hbucket. simpl in Hbucket. rewrite <- Hb, <- Hn in Hbucket.
    pose proof (map_set_flat (er_subject r) (drop n b) (es_by_subject s) (swf_map _ Hwf)) as Hflat.
    pose proof (map_find_flat (er_subject r) (es_by_subject s) (swf_map _ Hwf)) as Hold.
    split; simpl; [apply map_set_wf, Hwf| |done| | | |apply Hwf].
    + intros k b'. rewrite map_find_set. case_bool_decide; intros; simplify_eq; [done|].
      by apply (swf_bucket _ Hwf).
    + unfold records. simpl. by rewrite Hflat, fmap_app.
    + unfold records. simpl. unfold zlen. rewrite Hflat. pose proof (swf_total _ Hwf) as Ht.
      unfold records, zlen in Ht. rewrite Hold in Ht. rewrite !length_app in *.
      assert (Hlen : length b = S (length (for_subject s (er_subject r)))) by (subst b; by rewrite insert_at_perm).
      rewrite length_drop. fold (for_subject s (er_subject r)) in Ht. lia.
    + lia.
  - destruct (admit_refused s now r Hno) as [->| ->]; apply store_rejecting_wf; [done|].
    pose proof (map_set_flat (er_subject r) (for_subject s (er_subject r)) (es_by_subject s) (swf_map _ Hwf)) as Hflat.
    pose proof (map_find_flat (er_subject r) (es_by_subject s) (swf_map _ Hwf)) as Hold.
    fold (for_subject s (er_subject r)) in Hold. rewrite <- Hold in Hflat.
    split; simpl; [apply map_set_wf, Hwf| |apply Hwf| | |apply Hwf|apply Hwf].
    + intros k b'. rewrite map_find_set. case_bool_decide; intros; simplify_eq; [by apply bucket_wf|].
      by apply (swf_bucket _ Hwf).
    + unfold records at 1. simpl. rewrite Hflat. apply Hwf.
    + unfold records, zlen. simpl. rewrite Hflat. apply Hwf.
Qed.

Lemma store_clear_wf s : store_wf s -> store_wf (store_clear s).
Proof.
  intros Hwf. pose proof (swf_limit _ Hwf) as Hl.
  split; simpl; try apply SSorted_nil; try done. destruct Hl. lia.
Qed.

Inductive store_step : EvidenceStore -> EvidenceStore -> Prop :=
| step_admit s now r : 0 <= er_observed_at_ns r -> store_step s (admit_record s now r).2
| step_clear s : store_step s (store_clear s).

(** Admission touches only the record's own generation. *)
Lemma admit_other_subject s now r k :
  k <> er_subject r -> for_subject (admit_record s now r).2 k = for_subject s k.
Proof.
  intros Hk. unfold admit_record. destruct (negb _); [done|]. destruct (_ && _); [done|].
  destruct (set_contains _ _); [done|]. destruct (_ <=? _).
  - unfold for_subject. simpl. by rewrite map_find_set, bool_decide_eq_false_2.
  - destruct (evict_excess _ _ _ _) as [[[? ?] ?] ?]. unfold for_subject. simpl.
    by rewrite map_find_set, bool_decide_eq_false_2.
Qed.

(** * What the adjudication loop computes

    Each time kept by the loop is the latest observation of one class of fresh
    records; [latest] is that reference definition. *)

Definition advance (p : EvidenceRecord -> bool) (t : Z) (r : EvidenceRecord) : Z :=
  if p r then Z.max t (er_observed_at_ns r) else t.

Definition latest (p : EvidenceRecord -> bool) (rs : list EvidenceRecord) : Z :=
  foldl (advance p) 0 rs.

Lemma foldl_advance_ge p rs t r :
  (r ∈ rs -> p r = true -> er_observed_at_ns r <= foldl (advance p) t rs) /\
  t <= foldl (advance p) t rs.
Proof.
  revert t. induction rs as [|x rs IH]; intros t; simpl; [split; [by intros ?%elem_of_nil|lia]|].
  destruct (IH (advance p t x)) as [H1 H2].
  assert (Ht : t <= advance p t x) by (unfold advance; split_test; lia). split; [|lia].
  intros [->|?]%elem_of_cons Hp; [|auto].
  assert (er_observed_at_ns x <= advance p t x) by (unfold advance; rewrite Hp; lia). lia.
Qed.

Lemma latest_ge p rs r : r ∈ rs -> p r = true -> er_observed_at_ns r <= latest p rs.
Proof. apply foldl_advance_ge. Qed.

Lemma latest_nonneg p rs : 0 <= latest p rs.
Proof. by destruct (foldl_advance_ge p rs 0 (mkEvidence 0 EvidenceKind.Unknown EvidenceSource.Unknown
  (mkSwitchKey 0 0) 0 boot_none 0 0 SwitchHealthState.Unknown SwitchAdminState.Unknown 0
  (mkDependent DependentKind.Unknown 0) 0 0 "")). Qed.

Lemma latest_attained p rs :
  latest p rs <> 0 -> exists r, r ∈ rs /\ p r = true /\ er_observed_at_ns r = latest p rs.
Proof.
  unfold latest. assert (H : forall t, foldl (advance p) t rs <> t ->
    exists r, r ∈ rs /\ p r = true /\ er_observed_at_ns r = foldl (advance p) t rs); [|apply H].
  induction rs as [|x rs IH]; intros t; simpl; [done|]. intros Hne.
  destruct (decide (foldl (advance p) (advance p t x) rs = advance p t x)) as [E|E].
  - rewrite E in *. exists x. split; [left|]. unfold advance in *. destruct (p x); [|done].
    split; [done|lia].
  - destruct (IH _ E) as (r & ? & ?). exists r. split; [by right|done].
Qed.

Definition asserts_failure (r : EvidenceRecord) : bool :=
  match er_kind r with
  | EvidenceKind.SwitchFailureDeclaration => true
  | EvidenceKind.SwitchHealth => is_failure_health (er_health r)
  | _ => false
  end.

Definition asserts_recovery (r : EvidenceRecord) : bool :=
  bool_decide (er_kind r = EvidenceKind.SwitchRecoveryDeclaration).

Definition asserts_good (r : EvidenceRecord) : bool :=
  bool_decide (er_kind r = EvidenceKind.SwitchHealth) && is_positive_health (er_health r).

Definition asserts_unavailable (r : EvidenceRecord) : bool :=
  bool_decide (er_kind r = EvidenceKind.AdminStateDeclaration) && is_admin_unavailable (er_admin r).

Definition asserts_enabled (r : EvidenceRecord) : bool :=
  bool_decide (er_kind r = EvidenceKind.AdminStateDeclaration)
  && bool_decide (er_admin r = SwitchAdminState.Enabled).

Definition trusted_as (t : TrustLevel) (now : Z) (p : EvidenceRecord -> bool) (r : EvidenceRecord) : bool :=
  bool_decide (trust_of (er_source r) = t) && fresh_at r now && p r.

Lemma fresh_at_observed r now : fresh_at r now = true -> er_observed_at_ns r <= now.
Proof. unfold fresh_at. split_test; [done|]. by bool_prop. Qed.

Section scan.
Context (now : Z) (policy : AssessmentPolicy).
Local Notation auth := (trusted_as TrustLevel.Authoritative now).
Local Notation advisory := (trusted_as TrustLevel.Advisory now).

(** The times of the loop after one record. *)
Definition times (s : AssessScan) : list Z :=
  [(sc_failure s).1; (sc_recovery s).1; (sc_authoritative_good s).1; (sc_admin_unavailable_time s);
   (sc_admin_enabled_time s); (sc_advisory_bad s).1; (sc_advisory_good s).1].

Definition classes : list (EvidenceRecord -> bool) :=
  [auth asserts_failure; auth asserts_recovery; auth asserts_good; auth asserts_unavailable;
   auth asserts_enabled; advisory asserts_failure;
   advisory (fun r => asserts_good r || asserts_recovery r)].

Lemma scan_record_times s r :
  times (scan_record now policy s r) = zip_with (fun p t => advance p t r) classes (times s).
Proof.
  unfold scan_record, times, classes, advance, trusted_as. simpl.
  destruct (fresh_at r now) eqn:Hf.
  - apply fresh_at_observed in Hf as Ho. rewrite (proj2 (Z.ltb_ge _ _) Ho).
    destruct (trust_of (er_source r)) eqn:Ht; simpl; [done|..];
      unfold scan_kind, asserts_failure, asserts_recovery, asserts_good, asserts_unavailable, asserts_enabled;
      destruct (er_kind r); simpl; try done;
      try (destruct (er_health r)); try (destruct (er_admin r)); simpl; try done;
      repeat split_test; bool_prop; simpl; repeat f_equal; lia.
  - destruct (trust_of (er_source r)); simpl; [done|..]; by destruct (_ && _).
Qed.

Lemma scan_times_from rs s :
  times (foldl (scan_record now policy) s rs) =
  zip_with (fun p t => foldl (advance p) t rs) classes (times s).
Proof.
  revert s. induction rs as [|r rs IH]; intros s; [done|]. cbn [foldl].
  rewrite IH, scan_record_times. done.
Qed.

Lemma scan_times rs :
  times (foldl (scan_record now policy) assess_scan_new rs) = (fun p => latest p rs) <$> classes.
Proof. by rewrite scan_times_from. Qed.
End scan.

(** The proposition behind a class of records. *)
Lemma trusted_as_true t now p r :
  trusted_as t now p r = true <->
  trust_of (er_source r) = t /\ fresh_at r now = true /\ p r = true.
Proof. unfold trusted_as. bool_prop. tauto. Qed.

Section assessment.
Context (subject : SwitchKey) (evidence : EvidenceStore) (failures : FailureTable) (now : Z)
  (policy : AssessmentPolicy).
Local Notation rs := (for_subject evidence subject).
Local Notation auth p := (latest (trusted_as TrustLevel.Authoritative now p) rs).
Local Notation advisory p := (latest (trusted_as TrustLevel.Advisory now p) rs).
Local Notation verdict := (assess_switch subject evidence failures now policy).

(** Does the durable failure still stand against recovery evidence? *)
Definition durable_stands (d : FailureRecord) : Prop :=
  allow_same_generation_recovery policy = false \/
  Z.max (auth asserts_recovery) (auth asserts_enabled) <= fr_observed_at_ns d.

(** The affirmative bases of availability. *)
Definition affirmed : Prop :=
  (auth asserts_recovery <> 0 /\ auth asserts_failure < auth asserts_recovery) \/
  (auth asserts_recovery = 0 /\ auth asserts_failure = 0 /\ auth asserts_good <> 0 /\
   (advisory asserts_failure = 0 \/ require_authoritative_failure_evidence policy = true) /\
   (auth asserts_unavailable = 0 \/ auth asserts_unavailable < auth asserts_enabled)).

Lemma assess_usable :
  sa_usable verdict = true <->
  key_valid subject = true /\
  (forall d, failure_find failures subject = Some d -> ~ durable_stands d) /\ affirmed.
Proof.
  pose proof (scan_times now policy rs) as Ht. unfold times, classes in Ht. simpl in Ht.
  injection Ht as HF HR HG HU HE HB HA. unfold durable_stands, affirmed, assess_switch.
  destruct (key_valid subject); [|naive_solver]. cbn [negb]. rewrite HF, HR, HG, HU, HE, HB, HA.
  pose proof (latest_nonneg (trusted_as TrustLevel.Authoritative now asserts_failure) rs).
  pose proof (latest_nonneg (trusted_as TrustLevel.Authoritative now asserts_recovery) rs).
  clear HF HR HG HU HE HB HA.
  match goal with |- sa_usable (if ?b then _ else _) = _ <-> _ =>
    assert (Hd : b = false <-> forall d, failure_find failures subject = Some d ->
      ~ (allow_same_generation_recovery policy = false \/
         Z.max (auth asserts_recovery) (auth asserts_enabled) <= fr_observed_at_ns d)) end.
  { destruct (failure_find failures subject) as [d|]; simpl; [|naive_solver].
    destruct (allow_same_generation_recovery policy); simpl; [|naive_solver].
    rewrite negb_false_iff, Z.ltb_lt. split; [intros ? ? [= <-] [?|?]; [done|lia]|].
    intros Hall. specialize (Hall d eq_refl). lia. }
  rewrite <- Hd. clear Hd. split_test; [split; [done|intros (_ & ? & _); done]|].
  revert H H0. generalize (auth asserts_recovery) (auth asserts_failure) (auth asserts_good)
    (auth asserts_unavailable) (auth asserts_enabled) (advisory asserts_failure).
  generalize (require_authoritative_failure_evidence policy).
  clear Heqb. intros req R F G U E B HF HR.
  do 6 (match goal with |- sa_usable (if ?b then _ else _) = _ <-> _ => destruct b eqn:? end;
    [simpl; destruct req; bool_prop; (split; [intros; done || (split; [done|split; [done|]]); lia|]);
     intros (_ & _ & ?); first [done|lia]|]).
  match goal with |- sa_usable ?a = _ <-> _ =>
    assert (Ha : sa_usable a = false) by (repeat split_test; reflexivity); rewrite Ha; clear Ha end.
  split; [done|]. intros (_ & _ & ?). destruct req; bool_prop; lia.
Qed.

Lemma assess_not_both : sa_usable verdict = true ->
  sa_fence_required verdict = false /\ sa_outcome verdict = Code.Ok.
Proof.
  unfold assess_switch. split_test; [done|].
  do 7 (match goal with |- sa_usable (if ?b then _ else _) = _ -> _ => destruct b eqn:? end; [done|]).
  match goal with |- sa_usable ?a = _ -> _ =>
    assert (Ha : sa_usable a = false) by (repeat split_test; reflexivity); rewrite Ha; done end.
Qed.

Lemma assess_durable d :
  key_valid subject = true -> failure_find failures subject = Some d -> durable_stands d ->
  sa_outcome verdict = Code.Ok /\ sa_health verdict = SwitchHealthState.Failed /\
  sa_usable verdict = false /\ sa_fence_required verdict = true /\ sa_durable_failure verdict = d.
Proof.
  intros Hk Hd Hs. pose proof (scan_times now policy rs) as Ht. unfold times, classes in Ht.
  simpl in Ht. injection Ht as HF HR HG HU HE HB HA. unfold assess_switch. rewrite Hk, Hd. cbn [negb].
  match goal with |- context [if ?b then _ else _] => assert (Hb : b = true) end;
    [|rewrite Hb; done].
  simpl. rewrite negb_true_iff, HR, HE. destruct Hs as [->|Hle]; [done|].
  destruct (allow_same_generation_recovery policy); simpl; [|done]. by apply Z.ltb_ge.
Qed.

Lemma assess_failure :
  key_valid subject = true -> auth asserts_failure <> 0 ->
  auth asserts_recovery < auth asserts_failure ->
  sa_outcome verdict = Code.Ok /\ sa_health verdict = SwitchHealthState.Failed /\
  sa_usable verdict = false /\ sa_fence_required verdict = true.
Proof.
  intros Hk HF0 Hlt. pose proof (scan_times now policy rs) as Ht. unfold times, classes in Ht.
  simpl in Ht. injection Ht as HF HR _ _ _ _ _. unfold assess_switch. rewrite Hk, HF, HR. cbn [negb].
  split_test; [done|]. rewrite (proj2 (Z.eqb_neq _ 0) HF0).
  rewrite (proj2 (Z.eqb_neq _ (auth asserts_recovery))) by lia. rewrite andb_false_r.
  rewrite (proj2 (Z.ltb_ge _ _)) by lia. by rewrite andb_false_r.
Qed.

Lemma assess_unproven :
  key_valid subject = true -> failure_find failures subject = None ->
  require_authoritative_failure_evidence policy = true -> fence_on_missing_health policy = false ->
  auth asserts_failure = 0 -> auth asserts_recovery = 0 -> auth asserts_good = 0 ->
  auth asserts_unavailable = 0 ->
  sa_usable verdict = false /\ sa_fence_required verdict = false /\
  (sa_outcome verdict = Code.Unknown \/ sa_outcome verdict = Code.Stale).
Proof.
  intros Hk Hd Hreq Hmiss HF0 HR0 HG0 HU0. pose proof (scan_times now policy rs) as Ht.
  unfold times, classes in Ht. simpl in Ht. injection Ht as HF HR HG HU HE HB HA.
  unfold assess_switch. rewrite Hk, Hd, Hreq, Hmiss, HF, HR, HG, HU, HF0, HR0, HG0, HU0.
  cbn [negb andb Z.eqb]. rewrite !andb_false_r.
  repeat split_test; simpl; auto.
Qed.
End assessment.

(** A fresh record of an authoritative source about that exact generation. *)
Definition proves (evidence : EvidenceStore) (subject : SwitchKey) (now : Z)
  (p : EvidenceRecord -> bool) (r : EvidenceRecord) : Prop :=
  r ∈ for_subject evidence subject /\ er_subject r = subject /\
  trust_of (er_source r) = TrustLevel.Authoritative /\ fresh_at r now = true /\ p r = true.

Section proofs_of_health.
Context (evidence : EvidenceStore) (subject : SwitchKey) (now : Z) (Hwf : store_wf evidence).
Local Notation auth p :=
  (latest (trusted_as TrustLevel.Authoritative now p) (for_subject evidence subject)).
Local Notation proves := (proves evidence subject now).

Lemma latest_proof p : auth p <> 0 -> exists r, proves p r /\ er_observed_at_ns r = auth p.
Proof.
  destruct (bucket_wf evidence subject Hwf) as (_ & _ & Hin).
  intros (r & Hr & Hp & He)%latest_attained. apply trusted_as_true in Hp as (? & ? & ?).
  destruct (Hin r Hr) as (? & _). exists r. done.
Qed.

Lemma proof_bound p r : proves p r -> 0 < er_observed_at_ns r <= auth p.
Proof.
  destruct (bucket_wf evidence subject Hwf) as (_ & _ & Hin).
  intros (Hr & _ & ? & ? & ?). destruct (Hin r Hr) as (_ & _ & ?). split; [done|].
  apply latest_ge; [done|]. by apply trusted_as_true.
Qed.

Lemma no_proof p : (forall r, ~ proves p r) <-> auth p = 0.
Proof.
  split.
  - intros Hno. destruct (decide (auth p = 0)); [done|].
    destruct (latest_proof p) as (r & Hr & _); [done|]. by destruct (Hno r).
  - intros H0 r Hr%proof_bound. lia.
Qed.

(** The latest of two classes, when it is later than an unsigned instant. *)
Lemma latest_of_two p q t :
  0 <= t < Z.max (auth p) (auth q) ->
  exists r, (proves p r \/ proves q r) /\ t < er_observed_at_ns r.
Proof.
  intros Ht. destruct (Z.le_gt_cases (auth q) (auth p)).
  - destruct (latest_proof p) as (r & Hr & He); [lia|]. exists r. split; [by left|lia].
  - destruct (latest_proof q) as (r & Hr & He); [lia|]. exists r. split; [by right|lia].
Qed.
End proofs_of_health.

(** ** Properties *)

(** C17. A generation is reported usable only on fresh proof from an
    authoritative source about that exact generation: either a recovery
    declaration later than every fresh authoritative failure assertion, or
    positive health with no fresh authoritative failure assertion at all.
    Advisory failure assertions are not considered. A durable failure must
    moreover be older than a fresh authoritative recovery or enable declaration
    (the health proof itself may be older than the durable failure). Usable
    assessments are resolved (Ok) and never ask for a fence. *)
Theorem usable_requires_authoritative_proof subject evidence failures now policy :
  store_wf evidence ->
  let a := assess_switch subject evidence failures now policy in
  let proof := proves evidence subject now in
  sa_usable a = true ->
  sa_outcome a = Code.Ok /\ sa_fence_required a = false /\
  ((exists r, proof asserts_recovery r /\
      forall f, proof asserts_failure f -> er_observed_at_ns f < er_observed_at_ns r) \/
   (exists r, proof asserts_good r /\ forall f, ~ proof asserts_failure f)) /\
  (forall d, failure_find failures subject = Some d -> 0 <= fr_observed_at_ns d ->
     allow_same_generation_recovery policy = true /\
     exists r, (proof asserts_recovery r \/ proof asserts_enabled r) /\
               fr_observed_at_ns d < er_observed_at_ns r).
Proof.
  intros Hwf a proof Hu. destruct (assess_not_both _ _ _ _ _ Hu) as [Hf Ho].
  apply assess_usable in Hu as (Hk & Hd & Ha).
  split; [done|]. split; [done|]. split.
  - destruct Ha as [(HR & Hlt)|(_ & HF & HG & _)].
    + left. destruct (latest_proof _ _ _ Hwf _ HR) as (r & Hr & He). exists r. split; [done|].
      intros f Hp%proof_bound; [lia|done].
    + right. destruct (latest_proof _ _ _ Hwf _ HG) as (r & Hr & He). exists r. split; [done|].
      by apply no_proof.
  - intros d Hdf Hd0. specialize (Hd d Hdf). unfold durable_stands in Hd.
    destruct (allow_same_generation_recovery policy); [|by destruct Hd; left]. split; [done|].
    apply latest_of_two; [done|lia].
Qed.

(** Durable failure lineage dominates: while no authoritative recovery or
    enable declaration is fresh and strictly later than the recorded failure
    (or the policy forbids recovery of a generation), the generation is Failed,
    not usable and must be fenced. *)
Theorem durable_failure_dominates subject evidence failures now policy d :
  store_wf evidence -> key_valid subject = true -> failure_find failures subject = Some d ->
  0 <= fr_observed_at_ns d ->
  (allow_same_generation_recovery policy = false \/
   forall r, proves evidence subject now asserts_recovery r \/ proves evidence subject now asserts_enabled r ->
             er_observed_at_ns r <= fr_observed_at_ns d) ->
  let a := assess_switch subject evidence failures now policy in
  sa_outcome a = Code.Ok /\ sa_health a = SwitchHealthState.Failed /\
  sa_usable a = false /\ sa_fence_required a = true /\ sa_durable_failure a = d.
Proof.
  intros Hwf Hk Hd H0 Hr. apply assess_durable; [done..|].
  destruct Hr as [?|Hr]; [by left|]. right. apply Z.nlt_ge. intros Hlt.
  destruct (latest_of_two evidence subject now Hwf asserts_recovery asserts_enabled (fr_observed_at_ns d))
    as (r & Hp & ?); [lia|]. specialize (Hr r Hp). lia.
Qed.

(** C25. A failure is never missed: when an authoritative source has a fresh
    failure assertion about the generation and no fresh authoritative recovery
    declaration is as late as it, the assessment is Failed with a fence
    required, whatever advisory or health evidence says otherwise. *)
Theorem authoritative_failure_fences subject evidence failures now policy f :
  store_wf evidence -> key_valid subject = true ->
  proves evidence subject now asserts_failure f ->
  (forall r, proves evidence subject now asserts_recovery r ->
             er_observed_at_ns r < er_observed_at_ns f) ->
  let a := assess_switch subject evidence failures now policy in
  sa_outcome a = Code.Ok /\ sa_health a = SwitchHealthState.Failed /\
  sa_usable a = false /\ sa_fence_required a = true.
Proof.
  intros Hwf Hk Hp Hr. pose proof (proof_bound _ _ _ Hwf _ _ Hp) as Hb.
  apply assess_failure; [done|lia|].
  destruct (decide (latest (trusted_as TrustLevel.Authoritative now asserts_recovery)
                      (for_subject evidence subject) = 0)) as [->|Hne]; [lia|].
  destruct (latest_proof _ _ _ Hwf _ Hne) as (r & Hpr & He). specialize (Hr r Hpr). lia.
Qed.

(** Observation is not authority: without a durable failure and without any
    fresh authoritative assertion, the default policy neither declares a
    generation usable nor fences it; the assessment stays unresolved. *)
Theorem advisory_evidence_decides_nothing subject evidence now policy :
  store_wf evidence -> key_valid subject = true ->
  require_authoritative_failure_evidence policy = true -> fence_on_missing_health policy = false ->
  (forall r, r ∈ for_subject evidence subject -> fresh_at r now = true ->
             trust_of (er_source r) <> TrustLevel.Authoritative) ->
  let a := assess_switch subject evidence [] now policy in
  sa_usable a = false /\ sa_fence_required a = false /\
  (sa_outcome a = Code.Unknown \/ sa_outcome a = Code.Stale).
Proof.
  intros Hwf Hk Hreq Hmiss Hno.
  assert (forall p r, ~ proves evidence subject now p r) by (intros p r (? & _ & ? & ? & _); by eapply Hno).
  apply assess_unproven; try done; by apply no_proof.
Qed.

(** The evidence store keeps its promises under any sequence of admissions
    and clears: buckets are ordered by observation and hold at most 32 valid
    records of their own generation, the identity set is exactly the retained
    identities with no duplicates, and the total is the number of retained
    records and within the configured bound. *)
Theorem evidence_store_invariant limits has_clock s :
  in_u64 (max_evidence_records limits) ->
  rtc store_step (store_new limits has_clock) s -> store_wf s.
Proof.
  intros Hl Hrun. assert (Hwf : store_wf (store_new limits has_clock)) by by apply store_new_wf.
  revert Hwf. induction Hrun as [|s1 s2 s3 H12 _ IH]; [done|]. intros Hwf. apply IH.
  destruct H12; [by apply admit_wf|by apply store_clear_wf].
Qed.

(** Admission is generation-isolated and exact: an accepted record was
    valid, had an identity not seen among the retained ones, and enters its own
    bucket at its observation position, from which only the oldest records
    beyond 32 are dropped; whatever happens, no other generation's evidence,
    and hence no other generation's assessment, changes. *)
Theorem admit_isolated s now r :
  store_wf s ->
  (forall s', admit_record s now r = (success, s') ->
     status_ok (evidence_validate r) = true /\ er_id r ∉ es_identities s /\
     (let b := insert_at (lower_bound evidence_less (for_subject s (er_subject r)) r) r
                 (for_subject s (er_subject r)) in
      for_subject s' (er_subject r) = drop (length b - 32) b)) /\
  (forall k failures t policy, k <> er_subject r ->
     assess_switch k (admit_record s now r).2 failures t policy = assess_switch k s failures t policy).
Proof.
  intros Hwf. split.
  - intros s' Ha. destruct (admit_accepts s now r s' Ha Hwf)
      as (Hv & Hid & _ & b & ids & ev & n & -> & -> & _ & _ & ->).
    split; [done|split; [done|]]. unfold for_subject. cbn [es_by_subject]. by rewrite map_find_set_eq.
  - intros k failures t policy Hk. unfold assess_switch. by rewrite admit_other_subject.
Qed.

(** The failure table keeps the newest failure of a generation: recording
    never replaces a failure by an older one and never touches another
    generation, and a failure is forgotten only by a recovery observed strictly
    later, otherwise the attempt is refused as Stale. *)
Theorem failure_table_keeps_newest t f key at_ :
  (let '(st, t') := failure_record t f in
   (forall k d, map_find k t = Some d ->
      exists d', map_find k t' = Some d' /\ fr_observed_at_ns d <= fr_observed_at_ns d') /\
   (forall k, k <> fr_subject f -> map_find k t' = map_find k t) /\
   (st = success -> exists d', map_find (fr_subject f) t' = Some d' /\
                               fr_observed_at_ns f <= fr_observed_at_ns d')) /\
  (let '(st, t') := failure_supersede t key at_ in
   (forall k, k <> key -> map_find k t' = map_find k t) /\
   (forall d, map_find key t = Some d ->
      if fr_observed_at_ns d <? at_ then st = success /\ map_find key t' = None
      else status_code st = Code.Stale /\ t' = t)).
Proof.
  split.
  - unfold failure_record. split_test; [split; [|split; [done|done]]; intros k d ->; eexists; split; [done|lia]|].
    split_test; [split; [|split; [done|done]]; intros k d ->; eexists; split; [done|lia]|].
    assert (Hset : forall e, map_find (fr_subject f) t = Some e -> fr_observed_at_ns e <= fr_observed_at_ns f ->
      forall k d, map_find k t = Some d -> exists d', map_find k (map_set (fr_subject f) f t) = Some d' /\
        fr_observed_at_ns d <= fr_observed_at_ns d').
    { intros e He Hle k d Hd. rewrite map_find_set. case_bool_decide; subst; eexists; (split; [done|]); simplify_eq; lia. }
    destruct (map_find (fr_subject f) t) as [e|] eqn:He; [destruct (_ <? _) eqn:E; bool_prop|].
    + split; [intros k d ->; eexists; split; [done|lia]|split; [done|]]. intros _. exists e. split; [done|lia].
    + split; [by eapply Hset; eauto|]. split; [intros; by rewrite map_find_set_ne by done|].
      intros _. exists f. rewrite map_find_set_eq. split; [done|lia].
    + split; [|split; [intros; by rewrite map_find_set_ne by done|]].
      * intros k d Hd. rewrite map_find_set_ne by congruence. exists d. split; [done|lia].
      * intros _. exists f. rewrite map_find_set_eq. split; [done|lia].
  - unfold failure_supersede. destruct (map_find key t) as [d|] eqn:Hd; [|split; [done|by intros]].
    destruct (_ <=? _) eqn:E; bool_prop; (split; [intros; try done; by rewrite map_find_erase_ne by done|]);
      intros d' [= <-].
    + by rewrite (proj2 (Z.ltb_ge _ _)) by lia.
    + rewrite (proj2 (Z.ltb_lt _ _)) by lia. split; [done|apply map_find_erase_eq].
Qed.

(** * A concrete store *)

Definition sample_subject : SwitchKey := mkSwitchKey 4 2.

Definition sample_evidence (id : Z) (kind : EvidenceKind) (source : EvidenceSource) (at_ : Z)
  (health : SwitchHealthState) (admin : SwitchAdminState) : EvidenceRecord :=
  mkEvidence id kind source sample_subject 1 (mkBoot 100 1 0 0) at_ 1000 health admin 0
    (mkDependent DependentKind.Unknown 0) 0 0 "".

Definition admit_all (now : Z) (rs : list EvidenceRecord) (s : EvidenceStore) : EvidenceStore :=
  foldl (fun s r => (admit_record s now r).2) s rs.

Definition sample_failure : EvidenceRecord :=
  sample_evidence 1 EvidenceKind.SwitchFailureDeclaration EvidenceSource.FabricManager 100
    SwitchHealthState.Unknown SwitchAdminState.Unknown.

Definition sample_telemetry (id : Z) : EvidenceRecord :=
  sample_evidence id EvidenceKind.SwitchHealth EvidenceSource.TelemetryCollector (100 + id)
    SwitchHealthState.Healthy SwitchAdminState.Unknown.

Definition sample_recovery : EvidenceRecord :=
  sample_evidence 2 EvidenceKind.SwitchRecoveryDeclaration EvidenceSource.OperatorPolicy 200
    SwitchHealthState.Unknown SwitchAdminState.Unknown.

Definition sample_store : EvidenceStore := store_new limits_defaults true.

Lemma admit_all_wf now rs s :
  (forall r, r ∈ rs -> 0 <= er_observed_at_ns r) -> store_wf s -> store_wf (admit_all now rs s).
Proof.
  revert s. induction rs as [|r rs IH]; intros s Hrs Hwf; [done|]. apply IH.
  - intros x Hx. apply Hrs. by right.
  - apply admit_wf; [|done]. apply Hrs. left.
Qed.

Lemma sample_store_wf : store_wf sample_store.
Proof. apply store_new_wf. split; done. Qed.

Lemma sample_failure_wf : store_wf (admit_all 300 [sample_failure] sample_store).
Proof.
  apply admit_all_wf; [|apply sample_store_wf]. intros r Hr%list_elem_of_singleton. by subst.
Qed.

Lemma sample_recovery_wf : store_wf (admit_all 300 [sample_failure; sample_recovery] sample_store).
Proof.
  apply admit_all_wf; [|apply sample_store_wf].
  intros r [->|Hr%list_elem_of_singleton]%elem_of_cons; [done|by subst].
Qed.

(** Retention ignores trust: thirty-two later advisory observations evict a
    fresh authoritative failure declaration, after which the generation is no
    longer reported failed and no fence is required any more. *)
Theorem advisory_flood_evicts_failure :
  let before := admit_all 300 [sample_failure] sample_store in
  let after := admit_all 300 (sample_telemetry <$> (Z.of_nat <$> seq 2 32)) before in
  fresh_at sample_failure 300 = true /\
  sa_fence_required (assess_switch sample_subject before [] 300 assessment_policy_defaults) = true /\
  sa_fence_required (assess_switch sample_subject after [] 300 assessment_policy_defaults) = false /\
  sa_outcome (assess_switch sample_subject after [] 300 assessment_policy_defaults) = Code.Unknown.
Proof. vm_compute. done. Qed.

(** A refused admission still grows the store's index: when the retention
    bound is reached a record of a generation never seen before is refused as
    Exhausted, and yet an empty bucket for that generation is left behind. *)
Theorem exhausted_admission_grows_index :
  let l := mkLimits 1 1 1 1 1 1 1 1 1 1 1 1 1 1 1 1 1 1 1 1 1 1 1 in
  let full := admit_all 300 [sample_failure] (store_new l true) in
  let other := mkEvidence 9 EvidenceKind.SwitchFailureDeclaration EvidenceSource.FabricManager
    (mkSwitchKey 77 1) 1 (mkBoot 100 1 0 0) 100 1000 SwitchHealthState.Unknown
    SwitchAdminState.Unknown 0 (mkDependent DependentKind.Unknown 0) 0 0 "" in
  status_code (admit_record full 300 other).1 = Code.Exhausted /\
  map_size (es_by_subject full) = 1 /\
  map_size (es_by_subject (admit_record full 300 other).2) = 2.
Proof. vm_compute. done. Qed.

(** The switch against same-generation recovery covers durable failures
    only: with [allow_same_generation_recovery] off and no durable record, a
    later recovery declaration still makes a generation that was declared
    failed usable again. *)
Theorem recovery_switch_covers_durable_only :
  let policy := mkAssessmentPolicy true false false true kNanosPerSecond in
  let s := admit_all 300 [sample_failure; sample_recovery] sample_store in
  sa_usable (assess_switch sample_subject s [] 300 policy) = true.
Proof. vm_compute. done. Qed.

(** An administrative Enabled declaration supersedes a durable failure, although
    only a recovery declaration is documented to: a generation committed failed
    at 100 is usable on health observed at 50 and Enabled declared at 150. *)
Theorem enable_supersedes_durable_failure :
  let healthy := sample_evidence 1 EvidenceKind.SwitchHealth EvidenceSource.FabricManager 50
    SwitchHealthState.Healthy SwitchAdminState.Unknown in
  let enabled := sample_evidence 2 EvidenceKind.AdminStateDeclaration EvidenceSource.OperatorPolicy 150
    SwitchHealthState.Unknown SwitchAdminState.Enabled in
  let failed := mkFailureRecord sample_subject 1 1 (mkBoot 100 1 0 0) 100 100 "lost" in
  let s := admit_all 300 [healthy; enabled] sample_store in
  sa_usable (assess_switch sample_subject s (failure_record [] failed).2 300 assessment_policy_defaults) = true /\
  sa_usable (assess_switch sample_subject (admit_all 300 [healthy] sample_store) (failure_record [] failed).2 300
    assessment_policy_defaults) = false.
Proof. vm_compute. done. Qed.

(** ** Witnesses *)

Lemma usable_requires_authoritative_proof_witness :
  let s := admit_all 300 [sample_failure; sample_recovery] sample_store in
  sa_fence_required (assess_switch sample_subject s [] 300 assessment_policy_defaults) = false.
Proof.
  intros s.
  exact (proj1 (proj2 (usable_requires_authoritative_proof sample_subject s [] 300
    assessment_policy_defaults sample_recovery_wf ltac:(vm_compute; reflexivity)))).
Defined.

Lemma durable_failure_dominates_witness :
  let d := mkFailureRecord sample_subject 1 1 (mkBoot 100 1 0 0) 250 250 "x" in
  let policy := mkAssessmentPolicy true false false true kNanosPerSecond in
  sa_fence_required (assess_switch sample_subject sample_store [(sample_subject, d)] 300 policy) = true.
Proof.
  intros d policy.
  exact (proj1 (proj2 (proj2 (proj2 (durable_failure_dominates sample_subject sample_store
    [(sample_subject, d)] 300 policy d sample_store_wf eq_refl ltac:(vm_compute; reflexivity)
    ltac:(vm_compute; discriminate) (or_introl eq_refl)))))).
Defined.

Lemma authoritative_failure_fences_witness :
  let s := admit_all 300 [sample_failure] sample_store in
  sa_fence_required (assess_switch sample_subject s [] 300 assessment_policy_defaults) = true.
Proof.
  intros s. refine (proj2 (proj2 (proj2 (authoritative_failure_fences sample_subject s [] 300
    assessment_policy_defaults sample_failure sample_failure_wf eq_refl _ _)))).
  - split; [|vm_compute; tauto]. vm_compute. apply elem_of_cons. by left.
  - intros r (Hr & _ & _ & _ & Hp). vm_compute in Hr. apply list_elem_of_singleton in Hr. subst r.
    vm_compute in Hp. discriminate.
Defined.

Lemma advisory_evidence_decides_nothing_witness :
  sa_usable (assess_switch sample_subject sample_store [] 300 assessment_policy_defaults) = false.
Proof.
  refine (proj1 (advisory_evidence_decides_nothing sample_subject sample_store 300
    assessment_policy_defaults sample_store_wf eq_refl eq_refl eq_refl _)).
  intros r Hr. by apply elem_of_nil in Hr.
Defined.

Lemma evidence_store_invariant_witness : store_wf (admit_record sample_store 300 sample_failure).2.
Proof.
  apply (evidence_store_invariant limits_defaults true); [split; done|].
  apply rtc_once, step_admit. done.
Defined.

Lemma admit_isolated_witness :
  status_ok (evidence_validate sample_failure) = true /\
  (admit_record sample_store 300 sample_failure).1 = success.
Proof.
  assert (Ha : admit_record sample_store 300 sample_failure =
               (success, (admit_record sample_store 300 sample_failure).2)) by (vm_compute; reflexivity).
  split; [exact (proj1 (proj1 (admit_isolated sample_store 300 sample_failure sample_store_wf) _ Ha))|].
  vm_compute. reflexivity.
Defined.
