(* ===== verification/Topology.v ===== *)
(** Generation-qualified topology and the bounded dependency closure
    (include/sff/model/topology.hpp, src/model/topology.cpp). *)

From S2P Require Import Prelude Containers Core Generation Switch.

Record PortRef := mkPort { pr_sw : SwitchKey; pr_index : Z }.

#[export] Instance PortRef_eq_dec : EqDecision PortRef.
Proof. solve_decision. Defined.

Definition port_valid (p : PortRef) : bool := key_valid (pr_sw p).

Definition port_digest (p : PortRef) : Z :=
  dig_hi (absorb_u64 (pr_index p) (absorb_key (pr_sw p) (absorb_string "sff.port-ref.v1" digest_init))).

Record LinkDescriptor := mkLink {
  ld_id : Z;
  ld_a : PortRef;
  ld_b : PortRef;
  ld_cost : Z;
  ld_bandwidth_gbps : Z;
  ld_latency_ns : Z
}.

Definition link_valid (l : LinkDescriptor) : bool :=
  id_valid (ld_id l) && port_valid (ld_a l) && port_valid (ld_b l).

Definition link_digest (l : LinkDescriptor) : Z :=
  dig_hi
    (absorb_u64 (ld_latency_ns l)
      (absorb_u64 (ld_bandwidth_gbps l)
        (absorb_u64 (ld_cost l)
          (absorb_u64 (pr_index (ld_b l))
            (absorb_key (pr_sw (ld_b l))
              (absorb_u64 (pr_index (ld_a l))
                (absorb_key (pr_sw (ld_a l))
                  (absorb_u64 (ld_id l)
                    (absorb_string "sff.link-descriptor.v1" digest_init))))))))).

Definition link_validate (l : LinkDescriptor) : Status :=
  if negb (link_valid l) then
    failure Code.Invalid "link descriptor is not fully generation-qualified"
  else if bool_decide (ld_a l = ld_b l) then failure Code.Invalid "link descriptor is a self loop"
  else if ld_cost l =? 0 then failure Code.Invalid "link descriptor has a zero cost"
  else success.

Record PathDescriptor := mkPath {
  pd_id : Z;
  pd_source : Z;
  pd_destination : Z;
  pd_hops : list SwitchKey;
  pd_links : list Z;
  pd_cost : Z;
  pd_required_capabilities : Z
}.

Definition path_digest (p : PathDescriptor) : Z :=
  dig_hi
    (absorb_u64 (pd_required_capabilities p)
      (absorb_u64 (pd_cost p)
        (absorb_each absorb_u64 (pd_links p)
          (absorb_u64 (zlen (pd_links p))
            (absorb_each absorb_key (pd_hops p)
              (absorb_u64 (zlen (pd_hops p))
                (absorb_u64 (pd_destination p)
                  (absorb_u64 (pd_source p)
                    (absorb_u64 (pd_id p)
                      (absorb_string "sff.path-descriptor.v1" digest_init)))))))))).

Definition path_validate (p : PathDescriptor) : Status :=
  (if negb (id_valid (pd_id p)) then failure Code.Invalid "path descriptor has no identity"
   else if bool_decide (pd_hops p = []) then failure Code.Invalid "path descriptor has no hops"
   else if negb (forallb key_valid (pd_hops p)) then
     failure Code.Invalid "path descriptor has an unqualified hop generation"
   else
     check validate_capability_mask (pd_required_capabilities p);;
     success)%sff.

(** * Nodes and edges of the dependency graph *)

Inductive ClosureNode :=
| of_switch (key : SwitchKey)
| of_dependent (dependent : DependentRef).

#[export] Instance ClosureNode_eq_dec : EqDecision ClosureNode.
Proof. solve_decision. Defined.

Definition node_kind_raw (n : ClosureNode) : Z :=
  match n with of_switch _ => 0 | of_dependent _ => 1 end.

Definition is_switch (n : ClosureNode) : bool :=
  match n with of_switch _ => true | of_dependent _ => false end.

Definition node_valid (n : ClosureNode) : bool :=
  match n with of_switch k => key_valid k | of_dependent d => dependent_valid d end.

Definition node_to_string (n : ClosureNode) : string :=
  match n with of_switch k => key_to_string k | of_dependent d => dependent_to_string d end.

Definition node_less (a b : ClosureNode) : bool :=
  match a, b with
  | of_switch k, of_switch k' => ltb k k'
  | of_dependent d, of_dependent d' => ltb d d'
  | _, _ => node_kind_raw a <? node_kind_raw b
  end.

#[export] Instance node_strict_total : StrictTotal node_less.
Proof.
  split.
  - intros [k|d]; simpl; apply less_irrefl.
  - intros [k1|d1] [k2|d2] [k3|d3]; simpl; try done; apply less_trans.
  - intros [k1|d1] [k2|d2]; simpl; try done; intros; f_equal; by apply (less_total (less := ltb)).
Qed.

#[export] Instance node_ordered : Ordered ClosureNode := {| ltb := node_less |}.

(** [Digest128] absorption of a node, as the digests of edges and closures do it. *)
Definition absorb_node (n : ClosureNode) (d : Digest128) : Digest128 :=
  match n with
  | of_switch k => absorb_key k (absorb_byte 0 d)
  | of_dependent r =>
      absorb_u64 (dep_id r) (absorb_byte (dependent_kind_raw (dep_kind r)) (absorb_byte 1 d))
  end.

Record DependencyEdge := mkEdge { de_from : ClosureNode; de_to : ClosureNode }.

#[export] Instance DependencyEdge_eq_dec : EqDecision DependencyEdge.
Proof. solve_decision. Defined.

Definition edge_less (a b : DependencyEdge) : bool :=
  if negb (bool_decide (de_from a = de_from b)) then ltb (de_from a) (de_from b)
  else ltb (de_to a) (de_to b).

#[export] Instance edge_strict_total : StrictTotal edge_less.
Proof.
  assert (Heq : forall a b, edge_less a b = pair_less (de_from a, de_to a) (de_from b, de_to b)).
  { intros a b. unfold edge_less, pair_less. simpl. by case_bool_decide. }
  assert (Hinj : Inj (=) (=) (fun e => (de_from e, de_to e))) by (intros [] []; simpl; congruence).
  pose proof (strict_total_inj (fun e => (de_from e, de_to e)) pair_less Hinj) as [H1 H2 H3].
  split; setoid_rewrite Heq; eauto.
Qed.

#[export] Instance edge_ordered : Ordered DependencyEdge := {| ltb := edge_less |}.

Module ClosureState.
Inductive ClosureState := Empty | Complete | Truncated.
End ClosureState.
Abbreviation ClosureState := ClosureState.ClosureState.

#[export] Instance ClosureState_eq_dec : EqDecision ClosureState.
Proof. solve_decision. Defined.

Definition closure_state_raw (s : ClosureState) : Z :=
  match s with ClosureState.Empty => 0 | ClosureState.Complete => 1 | ClosureState.Truncated => 2 end.

Definition closure_state_to_string (s : ClosureState) : string :=
  match s with
  | ClosureState.Empty => "EMPTY"
  | ClosureState.Complete => "COMPLETE"
  | ClosureState.Truncated => "TRUNCATED"
  end.

Record DependencyClosure := mkClosure {
  dc_roots : GenerationVector;
  dc_members : list ClosureNode;
  dc_dependents : list DependentRef;
  dc_state : ClosureState;
  dc_edges_examined : Z;
  dc_omitted_frontier : Z;
  dc_omitted_edges : Z;
  dc_roots_absent : Z
}.

Definition enumerates_every_root (c : DependencyClosure) : bool := dc_roots_absent c =? 0.
Definition closure_truncated (c : DependencyClosure) : bool :=
  bool_decide (dc_state c = ClosureState.Truncated).
Definition closure_complete (c : DependencyClosure) : bool :=
  bool_decide (dc_state c = ClosureState.Complete).

Definition closure_digest (c : DependencyClosure) : Z :=
  dig_hi
    (absorb_u64 (dc_roots_absent c)
      (absorb_u64 (dc_omitted_frontier c)
        (absorb_byte (closure_state_raw (dc_state c))
          (absorb_each absorb_node (dc_members c)
            (absorb_u64 (zlen (dc_members c))
              (absorb_u64 (gv_digest (dc_roots c))
                (absorb_string "sff.dependency-closure.v1" digest_init))))))).

Record TopologyBuildStats := mkStats {
  ts_switches : Z;
  ts_links : Z;
  ts_paths : Z;
  ts_dependency_edges : Z;
  ts_nodes : Z;
  ts_duplicate_switches_dropped : Z;
  ts_duplicate_links_dropped : Z;
  ts_duplicate_paths_dropped : Z;
  ts_duplicate_edges_dropped : Z;
  ts_duplicate_hops_removed : Z
}.

Record TopologySnapshot := mkTopology {
  tp_version : Z;
  tp_switches : list SwitchDescriptor;
  tp_links : list LinkDescriptor;
  tp_paths : list PathDescriptor;
  tp_edges : list DependencyEdge;
  tp_nodes : list ClosureNode;
  tp_reverse_adjacency : list (list ClosureNode);
  tp_stats : TopologyBuildStats;
  tp_limits : Limits;
  tp_digest : Z
}.

(** * Building a snapshot *)

(** The loops over sorted switches, links and paths have one shape: prepare the
    descriptor (validation and normalisation), compare it with the last one
    kept, drop an identical re-declaration, refuse a contradictory one. *)
Section keep_unique.
Context {A K : Type} `{EqDecision K} (prepare : A -> Result A) (key : A -> K) (digest : A -> Z)
  (conflict : A -> string).

Fixpoint keep_unique (l kept : list A) (dropped : Z) : Result (list A * Z) :=
  match l with
  | [] => Value (kept, dropped)
  | d :: l' =>
      match prepare d with
      | Refused s => Refused s
      | Value d' =>
          match last kept with
          | Some back =>
              if bool_decide (key back = key d') then
                if digest back =? digest d' then keep_unique l' kept (dropped + 1)
                else Refused (failure Code.Conflict (conflict d'))
              else keep_unique l' (kept ++ [d']) dropped
          | None => keep_unique l' (kept ++ [d']) dropped
          end
      end
  end.
End keep_unique.

(** [std::lower_bound] by key, then the test that the key is the probe. *)
Definition find_by {A K} `{Ordered K, EqDecision K} (key : A -> K) (l : list A) (probe : K) : option A :=
  match l !! lower_bound_with (fun d => ltb (key d) probe) l with
  | Some d => if bool_decide (key d = probe) then Some d else None
  | None => None
  end.

Definition known_by {A K} `{Ordered K, EqDecision K} (key : A -> K) (l : list A) (probe : K) : bool :=
  match find_by key l probe with Some _ => true | None => false end.

Definition key_sort {A K} `{Ordered K} (key : A -> K) (l : list A) : list A :=
  std_sort (fun a b => ltb (key a) (key b)) l.

Definition prepare_switch (d : SwitchDescriptor) : Result SwitchDescriptor :=
  (check_r switch_validate d;; Value d)%sff.

Definition build_switches (switches : list SwitchDescriptor) : Result (list SwitchDescriptor * Z) :=
  keep_unique prepare_switch sd_key switch_digest
    (fun d => "contradictory declarations for the same switch generation: " +:+ key_to_string (sd_key d))
    (key_sort sd_key switches) [] 0.

Definition prepare_link (switches : list SwitchDescriptor) (l : LinkDescriptor) : Result LinkDescriptor :=
  (check_r link_validate l;;
   if negb (known_by sd_key switches (pr_sw (ld_a l))) || negb (known_by sd_key switches (pr_sw (ld_b l)))
   then Refused (failure Code.Invalid
          "link references a switch generation the snapshot does not contain")
   else Value l)%sff.

Definition build_links (switches : list SwitchDescriptor) (links : list LinkDescriptor) :
  Result (list LinkDescriptor * Z) :=
  keep_unique (prepare_link switches) ld_id link_digest
    (fun _ => "contradictory declarations for the same link identity"%string) (key_sort ld_id links) [] 0.

Definition normal_path (p : PathDescriptor) : PathDescriptor :=
  mkPath (pd_id p) (pd_source p) (pd_destination p) (sort_and_dedupe (pd_hops p))
    (sort_and_dedupe (pd_links p)) (pd_cost p) (pd_required_capabilities p).

Definition prepare_path (switches : list SwitchDescriptor) (links : list LinkDescriptor)
  (p : PathDescriptor) : Result PathDescriptor :=
  (check_r path_validate p;;
   if negb (forallb (known_by sd_key switches) (pd_hops (normal_path p))) then
     Refused (failure Code.Invalid "path references a switch generation the snapshot does not contain")
   else if negb (forallb (known_by ld_id links) (pd_links (normal_path p))) then
     Refused (failure Code.Invalid "path references a link the snapshot does not contain")
   else Value (normal_path p))%sff.

Definition build_paths (switches : list SwitchDescriptor) (links : list LinkDescriptor)
  (paths : list PathDescriptor) : Result (list PathDescriptor * Z) :=
  keep_unique (prepare_path switches links) pd_id path_digest
    (fun _ => "contradictory declarations for the same path identity"%string) (key_sort pd_id paths) [] 0.

Definition duplicate_hops (paths : list PathDescriptor) : Z :=
  foldl (fun n p => n + (zlen (pd_hops p) - zlen (sort_and_dedupe (pd_hops p)))) 0 paths.

Definition link_node (id : Z) : ClosureNode := of_dependent (dependent_link id).
Definition path_node (id : Z) : ClosureNode := of_dependent (dependent_path id).

Definition link_edges (l : LinkDescriptor) : list DependencyEdge :=
  [mkEdge (link_node (ld_id l)) (of_switch (pr_sw (ld_a l)));
   mkEdge (link_node (ld_id l)) (of_switch (pr_sw (ld_b l)))].

Definition path_edges (p : PathDescriptor) : list DependencyEdge :=
  ((fun hop => mkEdge (path_node (pd_id p)) (of_switch hop)) <$> pd_hops p)
  ++ ((fun link => mkEdge (path_node (pd_id p)) (link_node link)) <$> pd_links p).

Definition build_edges (links : list LinkDescriptor) (paths : list PathDescriptor)
  (explicit_edges : list DependencyEdge) : list DependencyEdge :=
  concat (link_edges <$> links) ++ concat (path_edges <$> paths) ++ explicit_edges.

Definition edge_qualified (e : DependencyEdge) : bool := node_valid (de_from e) && node_valid (de_to e).

Definition build_nodes (switches : list SwitchDescriptor) (links : list LinkDescriptor)
  (paths : list PathDescriptor) (edges : list DependencyEdge) : list ClosureNode :=
  sort_and_dedupe
    (((fun d => of_switch (sd_key d)) <$> switches)
     ++ ((fun p => path_node (pd_id p)) <$> paths)
     ++ ((fun l => link_node (ld_id l)) <$> links)
     ++ concat ((fun e => [de_from e; de_to e]) <$> edges)).

(** [TopologySnapshot::index_of]; the number of nodes stands for "absent". *)
Definition node_index (nodes : list ClosureNode) (node : ClosureNode) : nat :=
  let position := lower_bound ltb nodes node in
  match nodes !! position with
  | Some n => if bool_decide (n = node) then position else length nodes
  | None => length nodes
  end.

(** `for (const auto& edge : edges_) reverse_adjacency_[to_index].push_back(edge.from)` *)
Fixpoint fill_adjacency (nodes : list ClosureNode) (edges : list DependencyEdge)
  (adjacency : list (list ClosureNode)) : Result (list (list ClosureNode)) :=
  match edges with
  | [] => Value adjacency
  | e :: edges' =>
      let from_index := node_index nodes (de_from e) in
      let to_index := node_index nodes (de_to e) in
      if bool_decide (from_index = length nodes) || bool_decide (to_index = length nodes) then
        Refused (failure Code.Invalid "dependency edge references an unknown node")
      else fill_adjacency nodes edges' (alter (fun l => l ++ [de_from e]) to_index adjacency)
  end.

Definition topology_digest (version : Z) (switches : list SwitchDescriptor)
  (links : list LinkDescriptor) (paths : list PathDescriptor) (edges : list DependencyEdge) : Z :=
  dig_hi
    (absorb_each (fun e d => absorb_node (de_to e) (absorb_node (de_from e) d)) edges
      (absorb_each (fun p => absorb_u64 (path_digest p)) paths
        (absorb_each (fun l => absorb_u64 (link_digest l)) links
          (absorb_each (fun s => absorb_u64 (switch_digest s)) switches
            (absorb_u64 version (absorb_string "sff.topology.v1" digest_init)))))).

Definition build (version : Z) (switches : list SwitchDescriptor) (links : list LinkDescriptor)
  (paths : list PathDescriptor) (explicit_edges : list DependencyEdge) (limits : Limits) :
  Result TopologySnapshot :=
  (check_r limits_validate limits;;
   if negb (id_valid version) then Refused (failure Code.Invalid "topology version is not set")
   else if max_switches limits <? zlen switches then
     Refused (refuse_exhausted "max_switches" (zlen switches) (max_switches limits))
   else if max_links limits <? zlen links then
     Refused (refuse_exhausted "max_links" (zlen links) (max_links limits))
   else if max_paths limits <? zlen paths then
     Refused (refuse_exhausted "max_paths" (zlen paths) (max_paths limits))
   else if max_closure_edges limits <? zlen explicit_edges then
     Refused (refuse_exhausted "max_closure_edges" (zlen explicit_edges) (max_closure_edges limits))
   else
     match build_switches switches with
     | Refused s => Refused s
     | Value (switches', dropped_switches) =>
     match build_links switches' links with
     | Refused s => Refused s
     | Value (links', dropped_links) =>
     match build_paths switches' links' paths with
     | Refused s => Refused s
     | Value (paths', dropped_paths) =>
         if negb (forallb edge_qualified explicit_edges) then
           Refused (failure Code.Invalid "dependency edge endpoint is not fully qualified")
         else
           let all_edges := build_edges links' paths' explicit_edges in
           let edges := sort_and_dedupe all_edges in
           let nodes := build_nodes switches' links' paths' edges in
           if max_closure_nodes limits <? zlen nodes then
             Refused (refuse_exhausted "max_closure_nodes" (zlen nodes) (max_closure_nodes limits))
           else
             match fill_adjacency nodes edges (replicate (length nodes) []) with
             | Refused s => Refused s
             | Value adjacency =>
                 Value (mkTopology version switches' links' paths' edges nodes
                   (sort_and_dedupe <$> adjacency)
                   (mkStats (zlen switches') (zlen links') (zlen paths') (zlen edges) (zlen nodes)
                      dropped_switches dropped_links dropped_paths (zlen all_edges - zlen edges)
                      (duplicate_hops (key_sort pd_id paths)))
                   limits (topology_digest version switches' links' paths' edges))
             end
     end end end)%sff.

(** * Lookups *)

Definition index_of (t : TopologySnapshot) (node : ClosureNode) : nat := node_index (tp_nodes t) node.

Definition find_switch (t : TopologySnapshot) (key : SwitchKey) : option SwitchDescriptor :=
  find_by sd_key (tp_switches t) key.

(** The loop of [find_highest_generation]: the last of the run with that identity. *)
Fixpoint last_of_identity (l : list SwitchDescriptor) (id : Z) (best : option SwitchDescriptor) :
  option SwitchDescriptor :=
  match l with
  | d :: l' => if sk_id (sd_key d) =? id then last_of_identity l' id (Some d) else best
  | [] => best
  end.

Definition find_highest_generation (t : TopologySnapshot) (id : Z) : option SwitchDescriptor :=
  if negb (id_valid id) then None
  else
    let probe := mkSwitchKey id 1 in
    last_of_identity
      (drop (lower_bound_with (fun d => ltb (sd_key d) probe) (tp_switches t)) (tp_switches t)) id None.

Definition find_link (t : TopologySnapshot) (id : Z) : option LinkDescriptor :=
  find_by ld_id (tp_links t) id.
Definition find_path (t : TopologySnapshot) (id : Z) : option PathDescriptor :=
  find_by pd_id (tp_paths t) id.

Definition adjacency_at (t : TopologySnapshot) (index : nat) : list ClosureNode :=
  default [] (tp_reverse_adjacency t !! index).

Definition direct_dependents (t : TopologySnapshot) (node : ClosureNode) : list ClosureNode :=
  let index := index_of t node in
  if bool_decide (index = length (tp_nodes t)) then [] else adjacency_at t index.

(** * The bounded closure *)

(** The locals of [closure_from]. *)
Record ClosureScan := mkClosureScan {
  cs_members : list ClosureNode;
  cs_visited : list bool;
  cs_queue : list nat;
  cs_edges_examined : Z;
  cs_roots_absent : Z;
  cs_truncated : bool
}.

Definition is_visited (s : ClosureScan) (index : nat) : bool := default false (cs_visited s !! index).

(** `visited[index] = 1; members.push_back(node); queue.push_back(index);` *)
Definition enqueue (s : ClosureScan) (node : ClosureNode) (index : nat) : ClosureScan :=
  mkClosureScan (cs_members s ++ [node]) (<[index := true]> (cs_visited s)) (cs_queue s ++ [index])
    (cs_edges_examined s) (cs_roots_absent s) (cs_truncated s).

Definition add_root (t : TopologySnapshot) (s : ClosureScan) (root : ClosureNode) : ClosureScan :=
  let index := index_of t root in
  if bool_decide (index = length (tp_nodes t)) then
    mkClosureScan (cs_members s ++ [root]) (cs_visited s) (cs_queue s) (cs_edges_examined s)
      (cs_roots_absent s + 1) (cs_truncated s)
  else if is_visited s index then s
  else enqueue s root index.

Definition truncate (s : ClosureScan) : ClosureScan :=
  mkClosureScan (cs_members s) (cs_visited s) (cs_queue s) (cs_edges_examined s) (cs_roots_absent s) true.

Definition examine (s : ClosureScan) : ClosureScan :=
  mkClosureScan (cs_members s) (cs_visited s) (cs_queue s) (cs_edges_examined s + 1) (cs_roots_absent s)
    (cs_truncated s).

(** The loop over the dependents of one node. *)
Fixpoint expand (t : TopologySnapshot) (node_budget edge_budget : Z) (adjacency : list ClosureNode)
  (s : ClosureScan) : ClosureScan :=
  match adjacency with
  | [] => s
  | dependent :: adjacency' =>
      if edge_budget <=? cs_edges_examined s then truncate s
      else
        let s := examine s in
        let index := index_of t dependent in
        if bool_decide (index = length (tp_nodes t)) then expand t node_budget edge_budget adjacency' s
        else if is_visited s index then expand t node_budget edge_budget adjacency' s
        else if node_budget <=? zlen (cs_members s) then truncate s
        else expand t node_budget edge_budget adjacency' (enqueue s dependent index)
  end.

(** The loop `while (head < queue.size())`; [None] when the fuel runs out. *)
Fixpoint closure_loop (fuel : nat) (t : TopologySnapshot) (node_budget edge_budget : Z) (head : nat)
  (s : ClosureScan) : option (nat * ClosureScan) :=
  match cs_queue s !! head with
  | None => Some (head, s)
  | Some index =>
      match fuel with
      | O => None
      | S fuel' =>
          if node_budget <=? zlen (cs_members s) then Some (head, truncate s)
          else if edge_budget <=? cs_edges_examined s then Some (head, truncate s)
          else
            let s' := expand t node_budget edge_budget (adjacency_at t index) s in
            if cs_truncated s' then Some (S head, s')
            else closure_loop fuel' t node_budget edge_budget (S head) s'
      end
  end.

(** Each turn consumes one queue entry and every node enters the queue at most
    once, so the number of nodes is enough fuel. *)
Definition closure_fuel (t : TopologySnapshot) : nat := length (tp_nodes t).

Definition closure_from (t : TopologySnapshot) (roots : list ClosureNode) (limits : Limits) :
  option DependencyClosure :=
  let node_budget := Z.min (max_closure_nodes limits) (max_closure_nodes (tp_limits t)) in
  let edge_budget := Z.min (max_closure_edges limits) (max_closure_edges (tp_limits t)) in
  let start := foldl (add_root t)
    (mkClosureScan [] (replicate (length (tp_nodes t)) false) [] 0 0 false) (sort_and_dedupe roots) in
  match closure_loop (closure_fuel t) t node_budget edge_budget 0 start with
  | None => None
  | Some (head, s) =>
      let rest := if cs_truncated s then drop head (cs_queue s) else [] in
      let members := sort_and_dedupe (cs_members s) in
      let dependents := sort_and_dedupe
        (omap (fun m => match m with of_dependent d => Some d | of_switch _ => None end) members) in
      Some (mkClosure [] members dependents
        (if cs_truncated s then ClosureState.Truncated
         else if bool_decide (dependents = []) then ClosureState.Empty else ClosureState.Complete)
        (cs_edges_examined s) (zlen rest)
        (foldl (fun n index => n + zlen (adjacency_at t index)) 0 rest) (cs_roots_absent s))
  end.

Definition closure (t : TopologySnapshot) (roots : GenerationVector) (limits : Limits) :
  option DependencyClosure :=
  match closure_from t (of_switch <$> roots) limits with
  | None => None
  | Some c =>
      Some (mkClosure roots (dc_members c) (dc_dependents c) (dc_state c) (dc_edges_examined c)
              (dc_omitted_frontier c) (dc_omitted_edges c) (dc_roots_absent c))
  end.

(** * Facts about sorting and searching by key *)

Section by_key.
Context {A K : Type} `{Ordered K, EqDecision K} (key : A -> K).
Implicit Types (l : list A) (p : K).

Lemma fmap_insert_before x l :
  key <$> insert_before (fun a b => ltb (key a) (key b)) x l = insert_before ltb (key x) (key <$> l).
Proof.
  induction l as [|y l IH]; [done|]. rewrite fmap_cons. cbn [insert_before].
  split_test; rewrite ?fmap_cons, ?IH; done.
Qed.

Lemma fmap_key_sort l : key <$> key_sort key l = std_sort ltb (key <$> l).
Proof.
  unfold key_sort. induction l as [|x l IH]; [done|]. rewrite fmap_cons. cbn [std_sort].
  by rewrite fmap_insert_before, IH.
Qed.

Lemma key_sort_sorted l : sorted_by ltb (key <$> key_sort key l).
Proof. rewrite fmap_key_sort. apply (std_sort_sorted ltb). Qed.

Lemma elem_of_insert_before (less : A -> A -> bool) x y l :
  x ∈ insert_before less y l <-> x = y \/ x ∈ l.
Proof.
  induction l as [|z l IH]; simpl; [set_solver|]. split_test; rewrite !elem_of_cons, ?IH; tauto.
Qed.

Lemma elem_of_key_sort x l : x ∈ key_sort key l <-> x ∈ l.
Proof.
  unfold key_sort. induction l as [|y l IH]; simpl; [done|].
  by rewrite elem_of_insert_before, IH, elem_of_cons.
Qed.

Lemma length_insert_before (less : A -> A -> bool) x l : length (insert_before less x l) = S (length l).
Proof. induction l as [|z l IH]; simpl; [done|]. split_test; simpl; lia. Qed.

Lemma zlen_key_sort l : zlen (key_sort key l) = zlen l.
Proof.
  unfold key_sort, zlen. induction l as [|x l IH]; simpl; [done|]. rewrite length_insert_before. lia.
Qed.

Lemma find_by_spec l p d :
  canonical (key <$> l) -> find_by key l p = Some d <-> d ∈ l /\ key d = p.
Proof.
  unfold find_by. induction l as [|x l IH]; intros Hc; simpl.
  { split; [done|]. by intros [?%elem_of_nil _]. }
  rewrite fmap_cons in Hc. apply canonical_inv in Hc as [Hc Hx]. rewrite elem_of_cons.
  destruct (ltb (key x) p) eqn:E; simpl.
  - rewrite IH by done. split; [tauto|]. intros [[->|?] ?]; [|done]. subst.
    by rewrite less_irrefl in E.
  - assert (Hlater : forall y, y ∈ l -> key y <> p).
    { intros y Hy <-. rewrite Hx in E; [done|]. apply list_elem_of_fmap. eauto. }
    case_bool_decide as Hk; split.
    + intros [= <-]. split; [by left|done].
    + intros [[->|Hy] Hd]; [done|by destruct (Hlater d)].
    + done.
    + intros [[->|Hy] Hd]; [done|by destruct (Hlater d)].
Qed.

Lemma known_by_spec l p :
  canonical (key <$> l) -> known_by key l p = true <-> exists d, d ∈ l /\ key d = p.
Proof.
  intros Hc. unfold known_by. destruct (find_by key l p) as [d|] eqn:E.
  - apply find_by_spec in E; [|done]. naive_solver.
  - split; [done|]. intros [d Hd]. apply find_by_spec in Hd; [congruence|done].
Qed.
End by_key.

Lemma canonical_snoc {A} `{Ordered A} (l : list A) x :
  canonical l -> (forall y, y ∈ l -> ltb y x = true) -> canonical (l ++ [x]).
Proof.
  induction l as [|y l IH]; intros Hc Hx; simpl; [repeat constructor|].
  apply canonical_inv in Hc as [Hc Hy]. apply canonical_cons.
  - apply IH; [done|]. intros z Hz. apply Hx. by right.
  - intros z [Hz|Hz%list_elem_of_singleton]%elem_of_app; [auto|]. subst. apply Hx. left.
Qed.

Section keep_unique_facts.
Context {A K : Type} `{Ordered K, EqDecision K} (prepare : A -> Result A) (key : A -> K)
  (digest : A -> Z) (conflict : A -> string).
Hypothesis prepare_key : forall d d', prepare d = Value d' -> key d' = key d.

Lemma keep_unique_spec l kept dropped kept' dropped' :
  canonical (key <$> kept) -> sorted_by ltb (key <$> l) ->
  (forall b d, b ∈ kept -> d ∈ l -> ltb (key d) (key b) = false) ->
  keep_unique prepare key digest conflict l kept dropped = Value (kept', dropped') ->
  canonical (key <$> kept') /\
  (forall x, x ∈ kept' -> x ∈ kept \/ exists d, d ∈ l /\ prepare d = Value x) /\
  (forall x, x ∈ kept -> x ∈ kept') /\
  (forall d, d ∈ l -> exists x, x ∈ kept' /\ key x = key d) /\
  dropped' - dropped = zlen kept + zlen l - zlen kept'.
Proof.
  revert kept dropped. induction l as [|d l IH]; intros kept dropped Hc Hs Hle; simpl.
  { intros [= <- <-]. split; [done|]. split; [by left|]. split; [done|].
    split; [by intros d ?%elem_of_nil|]. rewrite zlen_nil. lia. }
  destruct (prepare d) as [d'|s] eqn:Hp; [|done]. pose proof (prepare_key _ _ Hp) as Hk.
  rewrite fmap_cons in Hs. apply StronglySorted_inv in Hs as [Hs Hd].
  rewrite Forall_forall in Hd.
  assert (Hpush : (forall b, b ∈ kept -> ltb (key b) (key d) = true) ->
    keep_unique prepare key digest conflict l (kept ++ [d']) dropped = Value (kept', dropped') -> 
    canonical (key <$> kept') /\
    (forall x, x ∈ kept' -> x ∈ kept \/ exists d0, d0 ∈ d :: l /\ prepare d0 = Value x) /\
    (forall x, x ∈ kept -> x ∈ kept') /\
    (forall d0, d0 ∈ d :: l -> exists x, x ∈ kept' /\ key x = key d0) /\
    dropped' - dropped = zlen kept + zlen (d :: l) - zlen kept').
  { intros Hlt Hrun. apply IH in Hrun as (H1 & H2 & H3 & H4 & H5).
    - split; [done|]. split; [|split; [|split]].
      + intros x [[?|?%list_elem_of_singleton]%elem_of_app|(d0 & ? & ?)]%H2; [by left|right..].
        * exists d. subst. split; [left|done].
        * exists d0. split; [by right|done].
      + intros x Hx. apply H3, elem_of_app. by left.
      + intros d0 [->|?]%elem_of_cons; [|auto]. exists d'. split; [|done].
        apply H3, elem_of_app. right. by apply list_elem_of_singleton.
      + rewrite zlen_app, zlen_cons, zlen_nil in H5. rewrite zlen_cons. lia.
    - rewrite fmap_app. apply canonical_snoc; [done|]. rewrite Hk.
      intros y (b & -> & Hb)%list_elem_of_fmap. auto.
    - done.
    - intros b x [Hb|Hb%list_elem_of_singleton]%elem_of_app Hx; [by apply Hle; [|right]|]. subst b.
      rewrite Hk. apply Hd, list_elem_of_fmap. eauto. }
  destruct (last kept) as [back|] eqn:Hl.
  - apply last_Some in Hl as [kept0 ->]. case_bool_decide as Hkey.
    + destruct (digest back =? digest d') eqn:Hdig; [|done]. intros Hrun.
      apply IH in Hrun as (H1 & H2 & H3 & H4 & H5); [|done|done|].
      * split; [done|]. split; [|split; [done|split]].
        -- intros x [?|(d0 & ? & ?)]%H2; [by left|right]. exists d0. split; [by right|done].
        -- intros d0 [->|?]%elem_of_cons; [|auto]. exists back. split; [|congruence].
           apply H3, elem_of_app. right. by apply list_elem_of_singleton.
        -- rewrite zlen_cons. lia.
      * intros b x Hb Hx. apply Hle; [done|by right].
    + apply Hpush. intros b Hb.
      assert (Hback : ltb (key back) (key d) = true).
      { destruct (less_cases ltb (key back) (key d)) as [?|[?|Hbad]]; [done|congruence|].
        rewrite Hle in Hbad; [done| |left]. apply elem_of_app. right. by apply list_elem_of_singleton. }
      apply elem_of_app in Hb as [Hb|Hb%list_elem_of_singleton]; [|by subst].
      eapply less_trans; [|exact Hback]. rewrite fmap_app in Hc.
      eapply (StronglySorted_app_1_elem_of _ _ _ _ _ Hc); apply list_elem_of_fmap; eauto.
      exists back. split; [done|left].
  - apply last_None in Hl as ->. apply Hpush. by intros b ?%elem_of_nil.
Qed.
End keep_unique_facts.

(** * The node table and the reverse adjacency *)

Lemma node_index_lookup nodes n i :
  canonical nodes -> nodes !! i = Some n -> node_index nodes n = i.
Proof.
  unfold node_index, lower_bound. revert i. induction nodes as [|x l IH]; intros i Hc Hi; [done|].
  apply canonical_inv in Hc as [Hc Hx]. simpl. destruct i as [|i]; simpl in Hi.
  - injection Hi as ->. rewrite less_irrefl. simpl. by rewrite bool_decide_eq_true_2.
  - assert (Hlt : ltb x n = true) by (apply Hx; by eapply list_elem_of_lookup_2).
    rewrite Hlt. simpl. specialize (IH i Hc Hi).
    destruct (l !! lower_bound_with _ l) as [y|] eqn:E; [case_bool_decide; [congruence|]|];
      exfalso; apply lookup_lt_Some in Hi; lia.
Qed.

Lemma node_index_absent nodes n : n ∉ nodes -> node_index nodes n = length nodes.
Proof.
  intros Hn. unfold node_index. destruct (nodes !! _) as [y|] eqn:E; [|done].
  case_bool_decide; [|done]. subst. by apply list_elem_of_lookup_2 in E.
Qed.

Lemma node_index_present nodes n :
  canonical nodes -> node_index nodes n <> length nodes -> nodes !! node_index nodes n = Some n.
Proof.
  intros Hc Hne. destruct (decide (n ∈ nodes)) as [Hin|Hnin]; [|by rewrite node_index_absent in Hne].
  apply list_elem_of_lookup in Hin as [i Hi]. by rewrite (node_index_lookup nodes n i).
Qed.

Lemma node_index_elem nodes n :
  canonical nodes -> n ∈ nodes <-> node_index nodes n <> length nodes.
Proof.
  intros Hc. split.
  - intros [i Hi]%list_elem_of_lookup. rewrite (node_index_lookup nodes n i) by done.
    apply lookup_lt_Some in Hi. lia.
  - intros Hne%node_index_present; [|done]. by eapply list_elem_of_lookup_2.
Qed.

Lemma fill_adjacency_spec nodes edges adj adj' :
  canonical nodes -> length adj = length nodes ->
  fill_adjacency nodes edges adj = Value adj' ->
  length adj' = length nodes /\
  forall i f, f ∈ default [] (adj' !! i) <->
    f ∈ default [] (adj !! i) \/ exists e, e ∈ edges /\ de_from e = f /\ nodes !! i = Some (de_to e).
Proof.
  intros Hc. revert adj. induction edges as [|e edges IH]; intros adj Hlen; simpl.
  { intros [= <-]. split; [done|]. intros i f. rewrite exists_nil. tauto. }
  split_test; [done|]. bool_prop. destruct Heqb as [Hf Ht]. intros Hrun.
  apply node_index_present in Ht as Hto; [|done].
  apply IH in Hrun as [H1 H2]; [|by rewrite length_alter]. split; [done|]. intros i f. rewrite H2, exists_cons.
  destruct (decide (node_index nodes (de_to e) = i)) as [Hi|Hi].
  - assert (Hadj : exists l, adj !! i = Some l).
    { apply lookup_lt_is_Some_2. apply lookup_lt_Some in Hto. subst. lia. }
    destruct Hadj as [l Hl]. subst i. rewrite list_lookup_alter_eq, Hl. simpl.
    rewrite elem_of_app, list_elem_of_singleton. rewrite Hto.
    assert (Hsame : f = de_from e <-> de_from e = f /\ Some (de_to e) = Some (de_to e)) by naive_solver.
    tauto.
  - rewrite list_lookup_alter_ne by done. split; [tauto|].
    intros [?|[[_ Hi']|?]]; [by left| |by right]. apply (node_index_lookup nodes) in Hi'; [congruence|done].
Qed.

Lemma fill_adjacency_total nodes edges adj :
  canonical nodes -> (forall e, e ∈ edges -> de_from e ∈ nodes /\ de_to e ∈ nodes) ->
  exists adj', fill_adjacency nodes edges adj = Value adj'.
Proof.
  intros Hc. revert adj. induction edges as [|e edges IH]; intros adj Hin; simpl; [eauto|].
  destruct (Hin e) as [Hf Ht]; [left|]. apply node_index_elem in Hf, Ht; [|done..].
  rewrite !bool_decide_eq_false_2 by done. simpl. apply IH. intros e' He'. apply Hin. by right.
Qed.

(** * The snapshot invariant *)

(** [f] depends on [n]: fencing [n] must invalidate [f]. *)
Definition depends (t : TopologySnapshot) (f n : ClosureNode) : Prop := mkEdge f n ∈ tp_edges t.

Record topology_wf (t : TopologySnapshot) : Prop := {
  tw_switches : canonical (sd_key <$> tp_switches t);
  tw_switch_valid : forall d, d ∈ tp_switches t -> status_ok (switch_validate d) = true;
  tw_links : canonical (ld_id <$> tp_links t);
  tw_link_valid : forall l, l ∈ tp_links t -> status_ok (link_validate l) = true /\
    forall p, p = ld_a l \/ p = ld_b l -> exists d, d ∈ tp_switches t /\ sd_key d = pr_sw p;
  tw_paths : canonical (pd_id <$> tp_paths t);
  tw_path_valid : forall p, p ∈ tp_paths t ->
    canonical (pd_hops p) /\ canonical (pd_links p) /\ pd_hops p <> [] /\
    (forall h, h ∈ pd_hops p -> exists d, d ∈ tp_switches t /\ sd_key d = h) /\
    (forall i, i ∈ pd_links p -> exists l, l ∈ tp_links t /\ ld_id l = i);
  tw_edges : canonical (tp_edges t);
  tw_nodes : canonical (tp_nodes t);
  tw_node_spec : forall n, n ∈ tp_nodes t <->
    (exists d, d ∈ tp_switches t /\ n = of_switch (sd_key d)) \/
    (exists p, p ∈ tp_paths t /\ n = path_node (pd_id p)) \/
    (exists l, l ∈ tp_links t /\ n = link_node (ld_id l)) \/
    (exists e, e ∈ tp_edges t /\ (n = de_from e \/ n = de_to e));
  tw_adjacency_length : length (tp_reverse_adjacency t) = length (tp_nodes t);
  tw_adjacency : forall i n, tp_nodes t !! i = Some n ->
    canonical (adjacency_at t i) /\ forall f, f ∈ adjacency_at t i <-> depends t f n;
  tw_bound : zlen (tp_nodes t) <= max_closure_nodes (tp_limits t)
}.

Lemma prepare_switch_value d d' :
  prepare_switch d = Value d' -> d' = d /\ status_ok (switch_validate d) = true.
Proof. unfold prepare_switch. split_test; [|done]. by intros [= <-]. Qed.

Lemma prepare_link_value switches l l' :
  canonical (sd_key <$> switches) -> prepare_link switches l = Value l' ->
  l' = l /\ status_ok (link_validate l) = true /\
  forall p, p = ld_a l \/ p = ld_b l -> exists d, d ∈ switches /\ sd_key d = pr_sw p.
Proof.
  intros Hc. unfold prepare_link. split_test; [|done]. split_test; [done|]. intros [= <-].
  bool_prop. destruct Heqb0 as [Ha Hb]. apply known_by_spec in Ha, Hb; [|done..].
  split; [done|split; [done|]]. intros p [->| ->]; done.
Qed.

Lemma sort_and_dedupe_nonempty {A} `{Ordered A, EqDecision A} (l : list A) :
  l <> [] -> sort_and_dedupe l <> [].
Proof.
  intros Hne E. destruct l as [|x l]; [done|].
  assert (Hx : x ∈ sort_and_dedupe (x :: l)) by (apply elem_of_sort_and_dedupe; left).
  rewrite E in Hx. by apply elem_of_nil in Hx.
Qed.

Lemma path_validate_hops p : status_ok (path_validate p) = true -> pd_hops p <> [].
Proof.
  unfold path_validate. split_test; [by rewrite failure_not_ok|].
  case_bool_decide; [by rewrite failure_not_ok|done].
Qed.

Lemma prepare_path_value switches links p p' :
  canonical (sd_key <$> switches) -> canonical (ld_id <$> links) ->
  prepare_path switches links p = Value p' ->
  p' = normal_path p /\ pd_hops p <> [] /\
  (forall h, h ∈ pd_hops p' -> exists d, d ∈ switches /\ sd_key d = h) /\
  (forall i, i ∈ pd_links p' -> exists l, l ∈ links /\ ld_id l = i).
Proof.
  intros Hs Hl. unfold prepare_path. destruct (status_ok (path_validate p)) eqn:Hv; [|done].
  apply path_validate_hops in Hv. split_test; [done|]. split_test; [done|]. intros [= <-]. bool_prop.
  rewrite forallb_forall in *. split; [done|split; [done|]]. split; intros x Hx%list_elem_of_In.
  - apply known_by_spec; [done|]. auto.
  - apply known_by_spec; [done|]. auto.
Qed.

Lemma build_switches_spec switches kept dropped :
  build_switches switches = Value (kept, dropped) ->
  canonical (sd_key <$> kept) /\
  (forall d, d ∈ kept -> d ∈ switches /\ status_ok (switch_validate d) = true) /\
  (forall d, d ∈ switches -> exists x, x ∈ kept /\ sd_key x = sd_key d) /\
  dropped = zlen switches - zlen kept.
Proof.
  intros Hrun. apply (keep_unique_spec prepare_switch sd_key) in Hrun as (H1 & H2 & _ & H4 & H5);
    [|by intros d d' [-> _]%prepare_switch_value|constructor|apply key_sort_sorted|by intros b d ?%elem_of_nil].
  split; [done|]. split; [|split].
  - intros d [?%elem_of_nil|(d0 & Hd0 & [-> Hv]%prepare_switch_value)]%H2; [done|].
    by apply elem_of_key_sort in Hd0.
  - intros d Hd. apply H4. by apply elem_of_key_sort.
  - pose proof (zlen_key_sort sd_key switches) as Hz. unfold zlen in *. simpl length in H5. lia.
Qed.

Lemma build_links_spec switches links kept dropped :
  canonical (sd_key <$> switches) -> build_links switches links = Value (kept, dropped) ->
  canonical (ld_id <$> kept) /\
  (forall l, l ∈ kept -> l ∈ links /\ status_ok (link_validate l) = true /\
     forall p, p = ld_a l \/ p = ld_b l -> exists d, d ∈ switches /\ sd_key d = pr_sw p).
Proof.
  intros Hs Hrun. apply (keep_unique_spec (prepare_link switches) ld_id) in Hrun as (H1 & H2 & _);
    [|by intros d d' [-> _]%prepare_link_value|constructor|apply key_sort_sorted|by intros b d ?%elem_of_nil].
  split; [done|]. intros l [?%elem_of_nil|(l0 & Hl0 & Hp)]%H2; [done|].
  apply prepare_link_value in Hp as (-> & ? & ?); [|done]. by apply elem_of_key_sort in Hl0.
Qed.

Lemma build_paths_spec switches links paths kept dropped :
  canonical (sd_key <$> switches) -> canonical (ld_id <$> links) ->
  build_paths switches links paths = Value (kept, dropped) ->
  canonical (pd_id <$> kept) /\
  (forall p, p ∈ kept -> canonical (pd_hops p) /\ canonical (pd_links p) /\ pd_hops p <> [] /\
     (forall h, h ∈ pd_hops p -> exists d, d ∈ switches /\ sd_key d = h) /\
     (forall i, i ∈ pd_links p -> exists l, l ∈ links /\ ld_id l = i)).
Proof.
  intros Hs Hl Hrun. apply (keep_unique_spec (prepare_path switches links) pd_id) in Hrun as (H1 & H2 & _);
    [|by intros d d' [-> _]%prepare_path_value|constructor|apply key_sort_sorted|by intros b d ?%elem_of_nil].
  split; [done|]. intros p [?%elem_of_nil|(p0 & Hp0 & Hp)]%H2; [done|].
  apply prepare_path_value in Hp as (-> & Hne & Hh & Hi); [|done..].
  split; [apply sort_and_dedupe_canonical|]. split; [apply sort_and_dedupe_canonical|].
  split; [by apply sort_and_dedupe_nonempty|done].
Qed.

Lemma elem_of_concat_fmap {A B} (f : A -> list B) l y :
  y ∈ concat (f <$> l) <-> exists x, x ∈ l /\ y ∈ f x.
Proof.
  induction l as [|x l IH].
  - simpl. rewrite exists_nil. apply elem_of_nil.
  - rewrite fmap_cons, exists_cons. simpl. by rewrite elem_of_app, IH.
Qed.

Lemma elem_of_build_nodes switches links paths edges n :
  n ∈ build_nodes switches links paths edges <->
    (exists d, d ∈ switches /\ n = of_switch (sd_key d)) \/
    (exists p, p ∈ paths /\ n = path_node (pd_id p)) \/
    (exists l, l ∈ links /\ n = link_node (ld_id l)) \/
    (exists e, e ∈ edges /\ (n = de_from e \/ n = de_to e)).
Proof.
  unfold build_nodes. rewrite elem_of_sort_and_dedupe, !elem_of_app, !list_elem_of_fmap, elem_of_concat_fmap.
  assert (Hswap : forall {A} (P : A -> ClosureNode) (l : list A), (exists x, n = P x /\ x ∈ l) <-> (exists x, x ∈ l /\ n = P x))
    by (intros; split; intros (x & ? & ?); eauto).
  rewrite !Hswap. setoid_rewrite elem_of_cons. setoid_rewrite list_elem_of_singleton. tauto.
Qed.

Lemma adjacency_sorted (adj : list (list ClosureNode)) i :
  default [] ((sort_and_dedupe <$> adj) !! i) = sort_and_dedupe (default [] (adj !! i)).
Proof. rewrite list_lookup_fmap. by destruct (adj !! i). Qed.

(** The accepting run of [build]. *)
Lemma build_value version switches links paths explicit limits t :
  build version switches links paths explicit limits = Value t ->
  exists ds dl dp,
    build_switches switches = Value (tp_switches t, ds) /\
    build_links (tp_switches t) links = Value (tp_links t, dl) /\
    build_paths (tp_switches t) (tp_links t) paths = Value (tp_paths t, dp) /\
    tp_edges t = sort_and_dedupe (build_edges (tp_links t) (tp_paths t) explicit) /\
    tp_nodes t = build_nodes (tp_switches t) (tp_links t) (tp_paths t) (tp_edges t) /\
    zlen (tp_nodes t) <= max_closure_nodes limits /\ tp_limits t = limits /\ tp_version t = version /\
    exists adj, fill_adjacency (tp_nodes t) (tp_edges t) (replicate (length (tp_nodes t)) []) = Value adj /\
                tp_reverse_adjacency t = sort_and_dedupe <$> adj.
Proof.
  unfold build. split_test; [|done]. do 5 (split_test; [done|]).
  destruct (build_switches switches) as [[sw ds]|] eqn:Hs; [|done].
  destruct (build_links sw links) as [[ln dl]|] eqn:Hl; [|done].
  destruct (build_paths sw ln paths) as [[pt dp]|] eqn:Hp; [|done].
  split_test; [done|]. cbv zeta. split_test; [done|].
  match goal with |- context [fill_adjacency ?n ?e ?a] => destruct (fill_adjacency n e a) as [adj|] eqn:Hf end;
    [|done].
  intros [= <-]. exists ds, dl, dp. bool_prop. simpl. eauto 12.
Qed.

Lemma build_wf version switches links paths explicit limits t :
  build version switches links paths explicit limits = Value t -> topology_wf t.
Proof.
  intros (ds & dl & dp & Hs & Hl & Hp & He & Hn & Hb & Hlim & _ & adj & Hf & Hadj)%build_value.
  apply build_switches_spec in Hs as (Hs1 & Hs2 & _).
  apply build_links_spec in Hl as (Hl1 & Hl2); [|done].
  apply build_paths_spec in Hp as (Hp1 & Hp2); [|done..].
  assert (Hnc : canonical (tp_nodes t)) by (rewrite Hn; apply sort_and_dedupe_canonical).
  apply fill_adjacency_spec in Hf as [Hlen Hspec]; [|done|by rewrite length_replicate].
  split; try done.
  - intros d Hd. by apply Hs2.
  - intros l Hin. by apply Hl2.
  - rewrite He. apply sort_and_dedupe_canonical.
  - intros n. rewrite Hn. apply elem_of_build_nodes.
  - by rewrite Hadj, length_fmap.
  - intros i n Hi. unfold adjacency_at, depends. rewrite Hadj, adjacency_sorted.
    split; [apply sort_and_dedupe_canonical|]. intros f. rewrite elem_of_sort_and_dedupe, Hspec.
    rewrite lookup_replicate_2 by (by eapply lookup_lt_Some). simpl. rewrite Hi. split.
    + intros [?%elem_of_nil|([f' n'] & ? & ? & ?)]; [done|]. naive_solver.
    + intros Hin. right. exists (mkEdge f n). done.
  - by rewrite Hlim.
Qed.

(** * The traversal *)

Section traversal.
Context (t : TopologySnapshot) (Hwf : topology_wf t) (roots : list ClosureNode).
Local Notation nodes := (tp_nodes t).

(** The node is a root or depends, transitively, on one. *)
Definition affected (n : ClosureNode) : Prop := exists r, r ∈ roots /\ rtc (depends t) n r.

Record scan_inv (s : ClosureScan) : Prop := {
  si_length : length (cs_visited s) = length nodes;
  si_nodup : NoDup (cs_queue s);
  si_visited : forall i, is_visited s i = true <-> i ∈ cs_queue s;
  si_queue : forall i, i ∈ cs_queue s -> exists m, nodes !! i = Some m /\ m ∈ cs_members s;
  si_members : forall m, m ∈ cs_members s -> m ∈ nodes -> index_of t m ∈ cs_queue s;
  si_sound : forall m, m ∈ cs_members s -> affected m;
  si_count : zlen (cs_members s) = cs_roots_absent s + zlen (cs_queue s)
}.

(** The dependents of the first [k] queued nodes are all queued. *)
Definition expanded (k : nat) (s : ClosureScan) : Prop :=
  forall j i n f, (j < k)%nat -> cs_queue s !! j = Some i -> nodes !! i = Some n ->
    depends t f n -> index_of t f ∈ cs_queue s.

Lemma edge_nodes f n : depends t f n -> f ∈ nodes /\ n ∈ nodes.
Proof.
  intros He. rewrite !(tw_node_spec _ Hwf). split; do 3 right; exists (mkEdge f n); simpl; auto.
Qed.

Lemma queue_bound s : scan_inv s -> (length (cs_queue s) <= length nodes)%nat.
Proof.
  intros Hs. rewrite <- (length_seq (length nodes) 0). apply submseteq_length, NoDup_submseteq;
    [apply Hs|]. intros i (m & Hm & _)%(si_queue _ Hs). apply elem_of_seq.
  apply lookup_lt_Some in Hm. lia.
Qed.

Lemma is_visited_insert s i j :
  length (cs_visited s) = length nodes -> (i < length nodes)%nat ->
  default false (<[i := true]> (cs_visited s) !! j) = true <-> i = j \/ is_visited s j = true.
Proof.
  intros Hl Hi. unfold is_visited. destruct (decide (i = j)) as [->|Hne].
  - rewrite list_lookup_insert_eq by lia. simpl. tauto.
  - rewrite list_lookup_insert_ne by done. tauto.
Qed.

Lemma enqueue_inv s n :
  scan_inv s -> n ∈ nodes -> is_visited s (index_of t n) = false -> affected n ->
  scan_inv (enqueue s n (index_of t n)).
Proof.
  intros Hs Hn Hv Ha. apply list_elem_of_lookup in Hn as [i Hi].
  assert (Hidx : index_of t n = i) by (apply node_index_lookup; [apply Hwf|done]). rewrite Hidx in *.
  apply lookup_lt_Some in Hi as Hlt. split; simpl.
  - rewrite length_insert. apply Hs.
  - apply NoDup_app. split; [apply Hs|]. split; [|by repeat constructor; apply not_elem_of_nil].
    intros x Hx Hx2%list_elem_of_singleton. subst x. apply (si_visited _ Hs) in Hx. congruence.
  - intros j. unfold is_visited. simpl. rewrite is_visited_insert by (apply Hs || done).
    rewrite elem_of_app, list_elem_of_singleton, (si_visited _ Hs). naive_solver.
  - intros j [(m & ? & ?)%(si_queue _ Hs)|Hj%list_elem_of_singleton]%elem_of_app.
    + exists m. split; [done|]. apply elem_of_app. by left.
    + subst j. exists n. split; [done|]. apply elem_of_app. right. by apply list_elem_of_singleton.
  - intros m [Hm|Hm%list_elem_of_singleton]%elem_of_app Hin; apply elem_of_app.
    + left. by apply (si_members _ Hs).
    + right. apply list_elem_of_singleton. by subst.
  - intros m [Hm|Hm%list_elem_of_singleton]%elem_of_app; [by apply (si_sound _ Hs)|by subst].
  - rewrite !zlen_app, (si_count _ Hs). unfold zlen. simpl. lia.
Qed.

Lemma add_root_spec s root :
  scan_inv s -> root ∈ roots ->
  scan_inv (add_root t s root) /\ root ∈ cs_members (add_root t s root) /\
  (forall m, m ∈ cs_members s -> m ∈ cs_members (add_root t s root)) /\
  cs_edges_examined (add_root t s root) = cs_edges_examined s /\
  cs_truncated (add_root t s root) = cs_truncated s /\
  zlen (cs_members (add_root t s root)) <= zlen (cs_members s) + 1.
Proof.
  intros Hs Hr. assert (Ha : affected root) by (exists root; split; [done|apply rtc_refl]).
  assert (Hlast : forall l : list ClosureNode, root ∈ l ++ [root])
    by (intros; apply elem_of_app; right; by apply list_elem_of_singleton).
  assert (Hkeep : forall (l : list ClosureNode) m, m ∈ l -> m ∈ l ++ [root])
    by (intros; apply elem_of_app; by left).
  assert (Hlen : forall l : list ClosureNode, zlen (l ++ [root]) <= zlen l + 1)
    by (intros; rewrite zlen_app; unfold zlen; simpl; lia).
  unfold add_root. case_bool_decide as Hi.
  - split; [|by simpl; auto 8]. split; simpl; try apply Hs.
    + intros i (m & ? & ?)%(si_queue _ Hs). eauto.
    + intros m [Hm|Hm%list_elem_of_singleton]%elem_of_app Hin; [by apply (si_members _ Hs)|].
      subst. apply node_index_elem in Hin; [done|apply Hwf].
    + intros m [Hm|Hm%list_elem_of_singleton]%elem_of_app; [by apply (si_sound _ Hs)|by subst].
    + rewrite zlen_app, (si_count _ Hs). unfold zlen. simpl. lia.
  - assert (Hn : root ∈ nodes) by (apply node_index_elem; [apply Hwf|done]).
    destruct (is_visited s (index_of t root)) eqn:Hv.
    + split; [done|]. split; [|split; [done|split; [done|split; [done|lia]]]].
      apply (si_visited _ Hs), (si_queue _ Hs) in Hv as (m & Hm & Hin).
      unfold index_of in Hm. rewrite (node_index_present nodes root) in Hm by (apply Hwf || done).
      by simplify_eq.
    + split; [by apply enqueue_inv|]. simpl. auto 8.
Qed.

(** Budgets are respected once they hold, and truncation is final. *)
Definition within (edge_budget limit : Z) (s : ClosureScan) : Prop :=
  cs_edges_examined s <= edge_budget /\ zlen (cs_members s) <= limit.

Lemma examine_inv s : scan_inv s -> scan_inv (examine s).
Proof. by intros []. Qed.

Lemma truncate_inv s : scan_inv s -> scan_inv (truncate s).
Proof. by intros []. Qed.

Lemma expand_spec node_budget edge_budget limit n adj s :
  scan_inv s -> affected n -> (forall f, f ∈ adj -> depends t f n) ->
  within edge_budget limit s -> node_budget <= limit ->
  let s' := expand t node_budget edge_budget adj s in
  scan_inv s' /\ within edge_budget limit s' /\ cs_queue s `prefix_of` cs_queue s' /\
  (forall m, m ∈ cs_members s -> m ∈ cs_members s') /\
  (cs_truncated s' = false -> forall f, f ∈ adj -> index_of t f ∈ cs_queue s').
Proof.
  revert s. induction adj as [|f adj IH]; intros s Hs Hn Hadj Hw Hb; cbn [expand].
  { split; [done|]. split; [done|]. split; [done|]. split; [done|]. by intros _ f ?%elem_of_nil. }
  destruct (edge_budget <=? cs_edges_examined s) eqn:He; bool_prop.
  { split; [by apply truncate_inv|]. split; [done|]. split; [done|]. split; [done|]. done. }
  assert (Hf : depends t f n) by (apply Hadj; left). destruct (edge_nodes _ _ Hf) as [Hfn _].
  rewrite (bool_decide_eq_false_2 (index_of t f = _)) by (apply node_index_elem; [apply Hwf|done]).
  assert (Hadj' : forall x, x ∈ adj -> depends t x n) by (intros; apply Hadj; by right).
  assert (Hw1 : within edge_budget limit (examine s)) by (destruct Hw; split; simpl; lia).
  destruct (is_visited (examine s) (index_of t f)) eqn:Hv.
  { destruct (IH (examine s)) as (H1 & H2 & H3 & H4 & H5); [by apply examine_inv|done..|].
    split; [done|]. split; [done|]. split; [done|]. split; [done|].
    intros Ht x [->|?]%elem_of_cons; [|auto]. apply (si_visited _ (examine_inv s Hs)) in Hv.
    destruct H3 as [q ->]. apply elem_of_app. by left. }
  destruct (node_budget <=? zlen (cs_members (examine s))) eqn:Hm; bool_prop.
  { split; [by apply truncate_inv, examine_inv|]. split; [done|]. split; [done|]. split; [done|]. done. }
  destruct (IH (enqueue (examine s) f (index_of t f))) as (H1 & H2 & H3 & H4 & H5); try done.
  - apply enqueue_inv; [by apply examine_inv|done..|].
    destruct Hn as (r & Hr & Hrtc). exists r. split; [done|]. by eapply rtc_l.
  - destruct Hw1 as [Hw1 _]. split; [done|]. simpl in *. rewrite zlen_app. unfold zlen in *. simpl in *. lia.
  - split; [done|]. split; [done|]. simpl in H3, H4. split; [|split].
    + etrans; [|exact H3]. by apply prefix_app_r.
    + intros m Hm'. apply H4, elem_of_app. by left.
    + intros Ht x [->|?]%elem_of_cons; [|auto]. destruct H3 as [q ->].
      apply elem_of_app. left. apply elem_of_app. right. by apply list_elem_of_singleton.
Qed.

Lemma expanded_prefix k s s' :
  cs_queue s `prefix_of` cs_queue s' -> (k <= length (cs_queue s))%nat -> expanded k s -> expanded k s'.
Proof.
  intros [q Hq] Hk Hx j i n f Hj Hi Hn Hf. rewrite Hq in *.
  rewrite lookup_app_l in Hi by lia. apply elem_of_app. left. by eapply Hx.
Qed.

Lemma closure_loop_spec node_budget edge_budget limit fuel head s :
  scan_inv s -> expanded head s -> cs_truncated s = false -> (head <= length (cs_queue s))%nat ->
  (length nodes <= fuel + head)%nat -> within edge_budget limit s -> node_budget <= limit ->
  exists head' s',
    closure_loop fuel t node_budget edge_budget head s = Some (head', s') /\
    scan_inv s' /\ within edge_budget limit s' /\
    (forall m, m ∈ cs_members s -> m ∈ cs_members s') /\
    (cs_truncated s' = false -> cs_queue s' !! head' = None /\ expanded head' s').
Proof.
  revert head s. induction fuel as [|fuel IH]; intros head s Hs Hx Ht Hh Hfuel Hw Hb;
    cbn [closure_loop]; destruct (cs_queue s !! head) as [index|] eqn:Hq.
  1: { apply lookup_lt_Some in Hq. pose proof (queue_bound s Hs). lia. }
  1, 3: by exists head, s.
  destruct (node_budget <=? zlen (cs_members s)).
  { exists head, (truncate s). split; [done|]. split; [by apply truncate_inv|]. done. }
  destruct (edge_budget <=? cs_edges_examined s).
  { exists head, (truncate s). split; [done|]. split; [by apply truncate_inv|]. done. }
  destruct (si_queue _ Hs index) as (n & Hn & Hnm); [by eapply list_elem_of_lookup_2|].
  destruct (tw_adjacency _ Hwf _ _ Hn) as [_ Hadj].
  destruct (expand_spec node_budget edge_budget limit n (adjacency_at t index) s) as (H1 & H2 & H3 & H4 & H5);
    [done|by apply (si_sound _ Hs)|by intros f ?%Hadj|done|done|].
  set (s' := expand t node_budget edge_budget (adjacency_at t index) s) in *.
  destruct (cs_truncated s') eqn:Ht'.
  { exists (S head), s'. split; [done|]. split; [done|]. split; [done|]. split; [done|]. congruence. }
  apply lookup_lt_Some in Hq as Hlt. apply prefix_length in H3 as Hlen.
  destruct (IH (S head) s') as (head' & s2 & Hrun & H6 & H7 & H8 & H9); try done; [|lia|lia|].
  - intros j i m f Hj Hi Hm Hf. destruct (decide (j = head)) as [->|Hne].
    + assert (i = index) as -> by (destruct H3 as [q E]; rewrite E, lookup_app_l in Hi by lia; congruence).
      assert (m = n) as -> by congruence. apply H5; [done|]. by apply Hadj.
    + eapply (expanded_prefix head s s'); [done|lia|done| |done..]. lia.
  - exists head', s2. split; [done|]. split; [done|]. split; [done|]. split; [|done]. auto.
Qed.

(** A fully expanded scan contains everything that depends on a root. *)
Lemma expanded_complete head s :
  scan_inv s -> expanded head s -> cs_queue s !! head = None ->
  (forall r, r ∈ roots -> r ∈ cs_members s) -> forall n, affected n -> n ∈ cs_members s.
Proof.
  intros Hs Hx Hend Hroots n (r & Hr & Hrtc). apply Hroots in Hr.
  induction Hrtc as [|f n r Hfn _ IH]; [done|]. specialize (IH Hr).
  destruct (edge_nodes _ _ Hfn) as [Hf Hn].
  pose proof (si_members _ Hs n IH Hn) as Hin. apply list_elem_of_lookup in Hin as [j Hj].
  apply lookup_ge_None in Hend. apply lookup_lt_Some in Hj as Hlt.
  assert (Hq : index_of t f ∈ cs_queue s).
  { eapply (Hx j _ n f); [lia|exact Hj| |done].
    apply node_index_present; [apply Hwf|]. by apply node_index_elem; [apply Hwf|]. }
  apply (si_queue _ Hs) in Hq as (m & Hm & Hmem).
  unfold index_of in Hm. rewrite (node_index_present nodes f) in Hm; [by simplify_eq|apply Hwf|].
  by apply node_index_elem; [apply Hwf|].
Qed.

Lemma fold_roots_spec rs s :
  (forall r, r ∈ rs -> r ∈ roots) -> scan_inv s ->
  let s' := foldl (add_root t) s rs in
  scan_inv s' /\ (forall r, r ∈ rs -> r ∈ cs_members s') /\
  (forall m, m ∈ cs_members s -> m ∈ cs_members s') /\
  cs_edges_examined s' = cs_edges_examined s /\ cs_truncated s' = cs_truncated s /\
  zlen (cs_members s') <= zlen (cs_members s) + zlen rs.
Proof.
  revert s. induction rs as [|r rs IH]; intros s Hrs Hs; simpl.
  { split; [done|]. split; [by intros r ?%elem_of_nil|]. split; [done|]. split; [done|].
    split; [done|]. rewrite zlen_nil. lia. }
  destruct (add_root_spec s r Hs) as (H1 & H2 & H3 & H4 & H5 & H6); [apply Hrs; left|].
  destruct (IH (add_root t s r)) as (I1 & I2 & I3 & I4 & I5 & I6); [intros; apply Hrs; by right|done|].
  split; [done|]. split; [|split; [auto|]].
  - intros x [->|?]%elem_of_cons; auto.
  - split; [congruence|]. split; [congruence|]. rewrite zlen_cons. lia.
Qed.

Lemma scan_start_inv : scan_inv (mkClosureScan [] (replicate (length nodes) false) [] 0 0 false).
Proof.
  split; simpl; try (by intros ? ?%elem_of_nil).
  - apply length_replicate.
  - constructor.
  - intros i. unfold is_visited. simpl. rewrite elem_of_nil.
    destruct (replicate _ false !! i) as [b|] eqn:E; simpl; [|done].
    apply lookup_replicate in E as [-> _]. done.
  - done.
Qed.
End traversal.

(** The members of a run of [closure_from]. *)
Lemma closure_from_spec t roots limits :
  topology_wf t -> 0 <= max_closure_edges limits -> 0 <= max_closure_edges (tp_limits t) ->
  exists c, closure_from t roots limits = Some c /\
    (forall n, n ∈ dc_members c -> affected t roots n) /\
    (forall r, r ∈ roots -> r ∈ dc_members c) /\
    (dc_state c <> ClosureState.Truncated -> forall n, affected t roots n -> n ∈ dc_members c) /\
    canonical (dc_members c) /\ canonical (dc_dependents c) /\
    (forall d, d ∈ dc_dependents c <-> of_dependent d ∈ dc_members c) /\
    dc_edges_examined c <= Z.min (max_closure_edges limits) (max_closure_edges (tp_limits t)) /\
    zlen (dc_members c) <= Z.max (Z.min (max_closure_nodes limits) (max_closure_nodes (tp_limits t)))
                             (zlen (sort_and_dedupe roots)) /\
    (dc_state c = ClosureState.Empty -> dc_dependents c = []).
Proof.
  intros Hwf He1 He2. unfold closure_from.
  set (node_budget := Z.min (max_closure_nodes limits) _).
  set (edge_budget := Z.min (max_closure_edges limits) _).
  set (s0 := foldl (add_root t) _ _).
  destruct (fold_roots_spec t Hwf roots (sort_and_dedupe roots)
    (mkClosureScan [] (replicate (length (tp_nodes t)) false) [] 0 0 false))
    as (H1 & H2 & _ & H4 & H5 & H6); [intros r; apply elem_of_sort_and_dedupe|apply scan_start_inv|].
  fold s0 in H1, H2, H4, H5, H6. simpl in H4, H5, H6. rewrite zlen_nil in H6.
  destruct (closure_loop_spec t Hwf roots node_budget edge_budget
    (Z.max node_budget (zlen (sort_and_dedupe roots))) (closure_fuel t) 0 s0)
    as (head & s & -> & I1 & [I2 I2'] & I3 & I4); try done; [intros j i n f Hj; lia|lia|unfold closure_fuel; lia| |lia|].
  { split; lia. }
  eexists. split; [done|]. cbn [dc_members dc_state dc_dependents dc_edges_examined].
  assert (Hroots : forall r, r ∈ roots -> r ∈ cs_members s)
    by (intros r Hr; apply I3, H2; by apply elem_of_sort_and_dedupe).
  split; [intros n; rewrite elem_of_sort_and_dedupe; apply (si_sound _ _ _ I1)|].
  split; [intros r ?%Hroots; by apply elem_of_sort_and_dedupe|].
  split.
  { intros Hst n Hn. apply elem_of_sort_and_dedupe. destruct (cs_truncated s) eqn:Ht; [done|].
    destruct I4 as [Hend Hx]; [done|]. by eapply expanded_complete. }
  split; [apply sort_and_dedupe_canonical|]. split; [apply sort_and_dedupe_canonical|].
  split.
  { intros d. rewrite elem_of_sort_and_dedupe, list_elem_of_omap. split.
    - intros ([k|d'] & ? & ?); by simplify_eq.
    - intros. by exists (of_dependent d). }
  split; [done|]. split.
  { unfold zlen in *. pose proof (length_sort_and_dedupe (cs_members s)). lia. }
  destruct (cs_truncated s); [done|]. by case_bool_decide.
Qed.

(** * Enough budget means no truncation *)

Section ample.
Context (t : TopologySnapshot) (Hwf : topology_wf t) (roots : list ClosureNode).
Local Notation nodes := (tp_nodes t).

Definition adjacency_sum (indices : list nat) : nat :=
  sum_list_with (fun i => length (adjacency_at t i)) indices.

(** Each edge is listed under its one target. *)
Lemma sum_indicator (e : DependencyEdge) (l : list ClosureNode) :
  NoDup l -> (sum_list_with (fun n => if decide (de_to e = n) then 1 else 0) l <= 1)%nat.
Proof.
  induction 1 as [|n l Hn Hnd IH]; simpl; [lia|]. destruct (decide (de_to e = n)) as [->|]; [|done].
  enough (sum_list_with (fun m => if decide (n = m) then 1 else 0) l = 0)%nat by lia.
  clear -Hn. induction l as [|m l IH]; simpl; [done|].
  apply not_elem_of_cons in Hn as [Hne Hn]. rewrite decide_False by done. by apply IH.
Qed.

Lemma sum_add {A} (f g : A -> nat) (l : list A) :
  sum_list_with (fun x => f x + g x)%nat l = (sum_list_with f l + sum_list_with g l)%nat.
Proof. induction l as [|x l IH]; simpl; lia. Qed.

Lemma sum_ext {A} (f g : A -> nat) (l : list A) :
  (forall x, x ∈ l -> f x = g x) -> sum_list_with f l = sum_list_with g l.
Proof.
  induction l as [|x l IH]; simpl; intros H; [done|].
  rewrite (H x) by left. rewrite IH; [done|]. intros y Hy. apply H. by right.
Qed.

Lemma edges_by_target (edges : list DependencyEdge) (l : list ClosureNode) :
  NoDup l ->
  (sum_list_with (fun n => length (filter (fun e => de_to e = n) edges)) l <= length edges)%nat.
Proof.
  intros Hl. induction edges as [|e edges IH]; simpl.
  - enough (sum_list_with (fun _ => 0%nat) l = 0%nat) as -> by lia. clear. by induction l.
  - rewrite (sum_ext _ (fun n => (if decide (de_to e = n) then 1 else 0) +
                          length (filter (fun e => de_to e = n) edges))%nat).
    + rewrite sum_add. pose proof (sum_indicator e l Hl). lia.
    + intros n _. rewrite filter_cons. by case_decide.
Qed.

Lemma adjacency_length i n :
  nodes !! i = Some n ->
  length (adjacency_at t i) = length (filter (fun e => de_to e = n) (tp_edges t)).
Proof.
  intros Hi. destruct (tw_adjacency _ Hwf i n Hi) as [Hc Ha].
  rewrite <- (length_fmap de_from (filter _ (tp_edges t))). apply Permutation_length, NoDup_Permutation.
  - by apply canonical_NoDup.
  - apply NoDup_fmap_2_strong; [|apply NoDup_filter, canonical_NoDup, Hwf].
    intros [f1 n1] [f2 n2] [? _]%list_elem_of_filter [? _]%list_elem_of_filter. simpl in *. congruence.
  - intros f. rewrite Ha, list_elem_of_fmap. unfold depends. split.
    + intros He. exists (mkEdge f n). split; [done|]. by apply list_elem_of_filter.
    + intros ([f' n'] & -> & [? ?]%list_elem_of_filter). simpl in *. congruence.
Qed.

Lemma adjacency_sum_total : (adjacency_sum (seq 0 (length nodes)) <= length (tp_edges t))%nat.
Proof.
  etrans; [|apply (edges_by_target (tp_edges t) nodes), canonical_NoDup, Hwf].
  unfold adjacency_sum. pose proof (fun i n => adjacency_length i n) as Hlen. revert Hlen.
  generalize nodes as l. intros l Hlen.
  assert (H : forall k, (forall i n, l !! i = Some n ->
     length (adjacency_at t (k + i)%nat) = length (filter (fun e => de_to e = n) (tp_edges t))) ->
     sum_list_with (fun i => length (adjacency_at t i)) (seq k (length l)) =
     sum_list_with (fun n => length (filter (fun e => de_to e = n) (tp_edges t))) l); [|by rewrite (H 0%nat)].
  clear Hlen. induction l as [|n l IH]; intros k Hlen; simpl; [done|].
  rewrite IH.
  - specialize (Hlen 0%nat n eq_refl). rewrite Nat.add_0_r in Hlen. lia.
  - intros i m Hi. rewrite <- (Hlen (S i) m Hi). f_equal. f_equal. lia.
Qed.

Lemma adjacency_sum_le indices :
  NoDup indices -> (forall i, i ∈ indices -> (i < length nodes)%nat) ->
  (adjacency_sum indices <= length (tp_edges t))%nat.
Proof.
  intros Hnd Hlt. etrans; [|apply adjacency_sum_total].
  assert (Hsub : indices ⊆+ seq 0 (length nodes)).
  { apply NoDup_submseteq; [done|]. intros i Hi. apply elem_of_seq. specialize (Hlt i Hi). lia. }
  apply submseteq_Permutation in Hsub as [rest Hp]. unfold adjacency_sum. rewrite Hp.
  rewrite sum_list_with_app. lia.
Qed.

(** With room for every node and every listed dependent, expanding a node does
    not truncate and examines each dependent once. *)
Lemma expand_ample node_budget edge_budget n adj s :
  scan_inv t roots s -> affected t roots n -> (forall f, f ∈ adj -> depends t f n) ->
  cs_roots_absent s + zlen nodes < node_budget -> cs_edges_examined s + zlen adj <= edge_budget ->
  let s' := expand t node_budget edge_budget adj s in
  cs_truncated s' = cs_truncated s /\ cs_roots_absent s' = cs_roots_absent s /\
  cs_edges_examined s' = cs_edges_examined s + zlen adj.
Proof.
  revert s. induction adj as [|f adj IH]; intros s Hs Hn Hadj Hnb Heb; cbn [expand].
  { rewrite zlen_nil. split; [done|split; [done|lia]]. }
  rewrite zlen_cons in Heb. pose proof (zlen_nonneg adj).
  rewrite (proj2 (Z.leb_gt _ _)) by lia.
  assert (Hf : depends t f n) by (apply Hadj; left). destruct (edge_nodes t Hwf _ _ Hf) as [Hfn _].
  rewrite (bool_decide_eq_false_2 (index_of t f = _)) by (apply node_index_elem; [apply Hwf|done]).
  assert (Hadj' : forall x, x ∈ adj -> depends t x n) by (intros; apply Hadj; by right).
  pose proof (examine_inv t roots s Hs) as Hs1.
  destruct (is_visited (examine s) (index_of t f)) eqn:Hv.
  { destruct (IH (examine s)) as (-> & -> & ->); try done; [simpl; lia|]. simpl. rewrite zlen_cons.
    split; [done|split; [done|lia]]. }
  pose proof (enqueue_inv t Hwf roots (examine s) f Hs1 Hfn Hv) as Hs2.
  assert (Ha : affected t roots f).
  { destruct Hn as (r & Hr & Hrtc). exists r. split; [done|]. by eapply rtc_l. }
  specialize (Hs2 Ha). pose proof (queue_bound t roots _ Hs2) as Hq. simpl in Hq.
  rewrite length_app in Hq. simpl in Hq. pose proof (si_count _ _ _ Hs1) as Hc. simpl in Hc.
  rewrite (proj2 (Z.leb_gt _ _)) by (simpl; unfold zlen in *; lia).
  destruct (IH (enqueue (examine s) f (index_of t f))) as (-> & -> & ->); try done; [simpl; lia|].
  simpl. rewrite zlen_cons. split; [done|split; [done|lia]].
Qed.

Lemma closure_loop_ample node_budget edge_budget fuel head s head' s' :
  scan_inv t roots s -> cs_truncated s = false -> (head <= length (cs_queue s))%nat ->
  cs_roots_absent s + zlen nodes < node_budget -> zlen (tp_edges t) < edge_budget ->
  cs_edges_examined s = Z.of_nat (adjacency_sum (take head (cs_queue s))) ->
  closure_loop fuel t node_budget edge_budget head s = Some (head', s') -> cs_truncated s' = false.
Proof.
  revert head s. induction fuel as [|fuel IH]; intros head s Hs Ht Hh Hnb Heb Hsum;
    cbn [closure_loop]; destruct (cs_queue s !! head) as [index|] eqn:Hq; try (by intros [= <- <-]).
  pose proof (queue_bound t roots s Hs) as Hqb. pose proof (si_count _ _ _ Hs) as Hc.
  assert (Hle : forall k, Z.of_nat (adjacency_sum (take k (cs_queue s))) <= zlen (tp_edges t)).
  { intros k. unfold zlen. apply inj_le. apply adjacency_sum_le.
    - eapply sublist_NoDup; [apply (si_nodup _ _ _ Hs)|apply sublist_take].
    - intros i Hi%subseteq_take. destruct (si_queue _ _ _ Hs i Hi) as (m & Hm & _).
      by eapply lookup_lt_Some. }
  rewrite (proj2 (Z.leb_gt _ _)) by (unfold zlen in *; lia).
  rewrite (proj2 (Z.leb_gt _ _)) by (pose proof (Hle head); lia).
  destruct (si_queue _ _ _ Hs index) as (n & Hn & Hnm); [by eapply list_elem_of_lookup_2|].
  destruct (tw_adjacency _ Hwf _ _ Hn) as [_ Hadj].
  assert (Hstep : adjacency_sum (take (S head) (cs_queue s)) =
    (adjacency_sum (take head (cs_queue s)) + length (adjacency_at t index))%nat).
  { unfold adjacency_sum. rewrite (take_S_r _ _ _ Hq), sum_list_with_app. simpl. lia. }
  assert (Hroom : cs_edges_examined s + zlen (adjacency_at t index) <= edge_budget).
  { pose proof (Hle (S head)). unfold zlen in *. lia. }
  destruct (expand_ample node_budget edge_budget n (adjacency_at t index) s) as (E1 & E2 & E3);
    [done|by apply (si_sound _ _ _ Hs)|by intros f ?%Hadj|done|done|].
  destruct (expand_spec t Hwf roots node_budget edge_budget (Z.max node_budget (zlen (cs_members s))) n
    (adjacency_at t index) s) as (H1 & _ & H3 & _);
    [done|by apply (si_sound _ _ _ Hs)|by intros f ?%Hadj|split; [pose proof (Hle head)|]; lia|lia|].
  rewrite E1, Ht. apply prefix_length in H3 as Hlen. apply lookup_lt_Some in Hq as Hlt.
  apply IH; try done; [by rewrite E1|lia|by rewrite E2|].
  rewrite E3, Hsum. destruct H3 as [q ->]. rewrite take_app_le by lia. unfold zlen. lia.
Qed.
End ample.

Lemma closure_from_ample t roots limits c :
  topology_wf t -> closure_from t roots limits = Some c ->
  zlen (sort_and_dedupe roots) + zlen (tp_nodes t) <
    Z.min (max_closure_nodes limits) (max_closure_nodes (tp_limits t)) ->
  zlen (tp_edges t) < Z.min (max_closure_edges limits) (max_closure_edges (tp_limits t)) ->
  dc_state c <> ClosureState.Truncated.
Proof.
  intros Hwf Hrun Hnb Heb. unfold closure_from in Hrun.
  set (s0 := foldl (add_root t) _ _) in Hrun.
  destruct (fold_roots_spec t Hwf roots (sort_and_dedupe roots)
    (mkClosureScan [] (replicate (length (tp_nodes t)) false) [] 0 0 false))
    as (H1 & _ & _ & H4 & H5 & H6); [intros r; apply elem_of_sort_and_dedupe|apply scan_start_inv|].
  fold s0 in H1, H4, H5, H6. simpl in H4, H5, H6. rewrite zlen_nil in H6.
  destruct (closure_loop _ _ _ _ _ _) as [[head s]|] eqn:Hl; [|done]. injection Hrun as <-.
  pose proof (si_count _ _ _ H1). pose proof (zlen_nonneg (cs_queue s0)).
  assert (Ht : cs_truncated s = false).
  { eapply (closure_loop_ample t Hwf roots _ _ _ 0%nat); [exact H1|exact H5| | |exact Heb| |exact Hl];
      [lia|lia|done]. }
  cbn [dc_state]. rewrite Ht. by case_bool_decide.
Qed.

Lemma closure_value t roots limits c :
  closure t roots limits = Some c ->
  exists c0, closure_from t (of_switch <$> roots) limits = Some c0 /\
    dc_members c = dc_members c0 /\ dc_dependents c = dc_dependents c0 /\ dc_state c = dc_state c0 /\
    dc_edges_examined c = dc_edges_examined c0.
Proof.
  unfold closure. destruct (closure_from t (of_switch <$> roots) limits) as [c0|]; [|done].
  intros [= <-]. by exists c0.
Qed.

Lemma last_of_identity_spec l id best :
  canonical (sd_key <$> l) ->
  (forall d, d ∈ l -> id <= sk_id (sd_key d)) ->
  match last_of_identity l id best with
  | Some d => (d ∈ l /\ sk_id (sd_key d) = id \/ best = Some d) /\
      forall d', d' ∈ l -> sk_id (sd_key d') = id ->
        d ∈ l /\ sk_generation (sd_key d') <= sk_generation (sd_key d)
  | None => best = None /\ forall d', d' ∈ l -> sk_id (sd_key d') <> id
  end.
Proof.
  revert best. induction l as [|x l IH]; intros best Hc Hge; simpl.
  { destruct best as [d|]; (split; [auto|]); by intros d' ?%elem_of_nil. }
  rewrite fmap_cons in Hc. apply canonical_inv in Hc as [Hc Hx].
  destruct (sk_id (sd_key x) =? id) eqn:E; bool_prop.
  - specialize (IH (Some x) Hc ltac:(intros; apply Hge; by right)).
    destruct (last_of_identity l id (Some x)) as [d|]; [|by destruct IH].
    destruct IH as [[[Hd He]|[= <-]] Hmax].
    + split; [left; split; [by right|done]|]. intros d' [->|Hd']%elem_of_cons Hid.
      * split; [by right|]. specialize (Hx (sd_key d)). unfold ltb in Hx. simpl in Hx. unfold key_less in Hx.
        rewrite (proj2 (Z.eqb_eq (sk_id (sd_key x)) _)) in Hx by lia. simpl in Hx.
        apply Z.lt_le_incl, Z.ltb_lt, Hx, list_elem_of_fmap. eauto.
      * destruct (Hmax d' Hd' Hid) as [_ ?]. split; [by right|done].
    + split; [left; split; [left|done]|]. intros d' [->|Hd']%elem_of_cons Hid; [split; [left|lia]|].
      destruct (Hmax d' Hd' Hid) as [? ?]. split; [by right|done].
  - assert (Hnone : forall d', d' ∈ x :: l -> sk_id (sd_key d') <> id).
    { pose proof (Hge x ltac:(left)). intros d' [->|Hd']%elem_of_cons; [done|].
      specialize (Hx (sd_key d') ltac:(apply list_elem_of_fmap; eauto)). unfold ltb in Hx. simpl in Hx.
      unfold key_less in Hx. destruct (sk_id (sd_key x) =? sk_id (sd_key d')) eqn:E2; simpl in Hx; bool_prop; lia. }
    destruct best as [d|]; (split; [by auto|done] || idtac).
    split; [by right|]. intros d' Hd' Hid. by destruct (Hnone d').
Qed.

Lemma find_highest_split (l : list SwitchDescriptor) probe :
  canonical (sd_key <$> l) ->
  (forall d, d ∈ drop (lower_bound_with (fun d => ltb (sd_key d) probe) l) l -> ltb (sd_key d) probe = false) /\
  (forall d, d ∈ l -> ltb (sd_key d) probe = false ->
             d ∈ drop (lower_bound_with (fun d => ltb (sd_key d) probe) l) l).
Proof.
  induction l as [|x l IH]; intros Hc; simpl; [by split; intros d ?%elem_of_nil|].
  rewrite fmap_cons in Hc. apply canonical_inv in Hc as [Hc Hx]. destruct (IH Hc) as [H1 H2].
  destruct (ltb (sd_key x) probe) eqn:E; simpl.
  - split; [done|]. intros d [->|Hd]%elem_of_cons Hl; [congruence|auto].
  - split; [|done]. intros d [->|Hd]%elem_of_cons; [done|].
    destruct (ltb (sd_key d) probe) eqn:E2; [|done].
    assert (Hlt : ltb (sd_key x) (sd_key d) = true) by (apply Hx, list_elem_of_fmap; eauto).
    by rewrite (less_trans _ _ _ Hlt E2) in E.
Qed.

(** ** Properties *)

(** C26. On a well-formed snapshot the bounded closure always terminates within
    its fuel and is sound: every member is a root or depends on one through
    declared edges. Unless it says it is Truncated it is also complete: it
    contains every node that depends, directly or transitively and across
    cycles, on a root. Members and dependents are strictly sorted, hence without
    repetition, and the dependents are exactly the dependent members. *)
Theorem closure_sound_and_complete t roots limits :
  topology_wf t -> 0 <= max_closure_edges limits -> 0 <= max_closure_edges (tp_limits t) ->
  exists c, closure t roots limits = Some c /\
    (forall n, n ∈ dc_members c -> affected t (of_switch <$> roots) n) /\
    (dc_state c <> ClosureState.Truncated ->
       forall n, n ∈ dc_members c <-> affected t (of_switch <$> roots) n) /\
    canonical (dc_members c) /\ canonical (dc_dependents c) /\
    (forall d, d ∈ dc_dependents c <-> of_dependent d ∈ dc_members c) /\
    (dc_state c = ClosureState.Empty -> dc_dependents c = []).
Proof.
  intros Hwf H1 H2. destruct (closure_from_spec t (of_switch <$> roots) limits Hwf H1 H2)
    as (c & Hc & Hsound & _ & Hcomplete & Hm & Hd & Hdep & _ & _ & Hempty).
  unfold closure. rewrite Hc. eexists. split; [done|]. simpl. split; [done|]. split; [|done].
  intros Ht n. split; [apply Hsound|by apply Hcomplete].
Qed.

(** The closure respects its declared bounds: it examines at most the edge
    budget (the smaller of the caller's and the snapshot's) and has at most the
    node budget many members, apart from the roots themselves; members and
    dependents are in canonical order and every root is a member. *)
Theorem closure_bounded t roots limits c :
  topology_wf t -> 0 <= max_closure_edges limits -> 0 <= max_closure_edges (tp_limits t) ->
  closure t roots limits = Some c ->
  dc_edges_examined c <= Z.min (max_closure_edges limits) (max_closure_edges (tp_limits t)) /\
  zlen (dc_members c) <= Z.max (Z.min (max_closure_nodes limits) (max_closure_nodes (tp_limits t)))
                           (zlen (sort_and_dedupe (of_switch <$> roots))) /\
  canonical (dc_members c) /\ canonical (dc_dependents c) /\
  (forall k, k ∈ roots -> of_switch k ∈ dc_members c).
Proof.
  intros Hwf H1 H2 (c0 & Hc0 & -> & -> & _ & ->)%closure_value.
  destruct (closure_from_spec t (of_switch <$> roots) limits Hwf H1 H2)
    as (c' & Hc' & _ & Hroots & _ & Hm & Hd & _ & He & Hn & _).
  rewrite Hc' in Hc0. injection Hc0 as ->. split; [done|]. split; [done|]. split; [done|]. split; [done|].
  intros k Hk. apply Hroots, list_elem_of_fmap. eauto.
Qed.

(** Truncation is not spurious: when the budgets leave room for every node
    of the snapshot besides the roots and for more than its edges, the closure
    is not Truncated, so it enumerates everything affected. *)
Theorem closure_ample_budget_complete t roots limits c :
  topology_wf t -> closure t roots limits = Some c ->
  zlen (sort_and_dedupe (of_switch <$> roots)) + zlen (tp_nodes t) <
    Z.min (max_closure_nodes limits) (max_closure_nodes (tp_limits t)) ->
  zlen (tp_edges t) < Z.min (max_closure_edges limits) (max_closure_edges (tp_limits t)) ->
  dc_state c <> ClosureState.Truncated /\
  forall n, n ∈ dc_members c <-> affected t (of_switch <$> roots) n.
Proof.
  intros Hwf (c0 & Hc0 & -> & _ & -> & _)%closure_value Hnb Heb.
  pose proof (closure_from_ample t _ limits c0 Hwf Hc0 Hnb Heb) as Ht. split; [done|].
  pose proof (zlen_nonneg (tp_edges t)).
  destruct (closure_from_spec t (of_switch <$> roots) limits Hwf ltac:(lia) ltac:(lia))
    as (c' & Hc' & Hsound & _ & Hcomplete & _).
  rewrite Hc' in Hc0. injection Hc0 as ->. intros n. split; [apply Hsound|by apply Hcomplete].
Qed.

(** C38. A snapshot that [build] accepts is well formed: switches, links and
    paths are unique and in key order, every link end and every hop and link of
    a path names an element of the snapshot, the node table is exactly the
    declared elements and edge endpoints, and the reverse adjacency lists for
    each node exactly the nodes with an edge to it. The edge set is exactly the
    edges derived from links and paths plus the explicit ones, and every
    declared switch generation is present. *)
Theorem build_snapshot_sound version switches links paths explicit limits t :
  build version switches links paths explicit limits = Value t ->
  topology_wf t /\
  (forall e, e ∈ tp_edges t <-> e ∈ build_edges (tp_links t) (tp_paths t) explicit) /\
  (forall d, d ∈ switches -> exists x, x ∈ tp_switches t /\ sd_key x = sd_key d).
Proof.
  intros Hb. split; [by eapply build_wf|].
  apply build_value in Hb as (ds & dl & dp & Hs & _ & _ & He & _). split.
  - intros e. rewrite He. apply elem_of_sort_and_dedupe.
  - by apply build_switches_spec in Hs as (_ & _ & ? & _).
Qed.

(** The node table covers every edge, so the refusal of [build] for an edge
    that references an unknown node cannot happen. *)
Theorem build_never_unknown_node switches links paths edges adjacency :
  exists adjacency',
    fill_adjacency (build_nodes switches links paths edges) edges adjacency = Value adjacency'.
Proof.
  apply fill_adjacency_total; [apply sort_and_dedupe_canonical|].
  intros e He. rewrite !elem_of_build_nodes. split; do 3 right; exists e; auto.
Qed.

(** Switch lookup is by exact generation and the highest-generation lookup
    is the maximum: [find_switch] finds a descriptor exactly when it is in the
    snapshot under that key, and [find_highest_generation] returns the present
    descriptor of the identity that no other generation exceeds, and nothing
    only when the identity is absent. *)
Theorem switch_lookup_exact t key d id :
  topology_wf t -> id <> 0 ->
  (find_switch t key = Some d <-> d ∈ tp_switches t /\ sd_key d = key) /\
  match find_highest_generation t id with
  | Some b => b ∈ tp_switches t /\ sk_id (sd_key b) = id /\
      forall x, x ∈ tp_switches t -> sk_id (sd_key x) = id -> 1 <= sk_generation (sd_key x) ->
        sk_generation (sd_key x) <= sk_generation (sd_key b)
  | None => forall x, x ∈ tp_switches t -> sk_id (sd_key x) = id -> ~ 1 <= sk_generation (sd_key x)
  end.
Proof.
  intros Hwf Hid. split; [apply find_by_spec, Hwf|]. unfold find_highest_generation, id_valid.
  rewrite (proj2 (Z.eqb_neq id 0)) by done. cbn [negb].
  pose proof (tw_switches _ Hwf) as Hc. destruct (find_highest_split _ (mkSwitchKey id 1) Hc) as [H1 H2].
  set (rest := drop _ (tp_switches t)) in *.
  assert (Hcr : canonical (sd_key <$> rest)) by (unfold rest; rewrite fmap_drop; by apply canonical_drop).
  assert (Hge : forall d, d ∈ rest -> id <= sk_id (sd_key d)).
  { intros x Hx%H1. unfold ltb in Hx. simpl in Hx. unfold key_less in Hx. simpl in Hx.
    destruct (sk_id (sd_key x) =? id) eqn:E; simpl in Hx; bool_prop; lia. }
  assert (Hin : forall x, x ∈ tp_switches t -> sk_id (sd_key x) = id -> 1 <= sk_generation (sd_key x) -> x ∈ rest).
  { intros x Hx Hxi Hg. apply H2; [done|]. unfold ltb. simpl. unfold key_less. simpl.
    rewrite (proj2 (Z.eqb_eq _ _) Hxi). simpl. apply Z.ltb_ge. lia. }
  pose proof (last_of_identity_spec rest id None Hcr Hge) as Hl.
  destruct (last_of_identity rest id None) as [b|].
  - destruct Hl as [[[Hb Hbi]|?] Hmax]; [|done]. split; [by apply subseteq_drop in Hb|]. split; [done|].
    intros x Hx Hxi Hg. by apply Hmax; [apply Hin|].
  - destruct Hl as [_ Hnone]. intros x Hx Hxi Hg. by apply (Hnone x); [apply Hin|].
Qed.

(** * A concrete topology *)

Definition leaf (id : Z) : SwitchDescriptor :=
  mkSwitchDescriptor (mkSwitchKey id 1) SwitchRole.Leaf SwitchAdminState.Enabled 0 0 4 4 1 "leaf".

Definition sample_link : LinkDescriptor :=
  mkLink 5 (mkPort (mkSwitchKey 1 1) 0) (mkPort (mkSwitchKey 2 1) 0) 1 100 10.

Definition sample_topology_path : PathDescriptor := mkPath 9 1 2 [mkSwitchKey 2 1] [5] 1 0.

Definition snapshot_of (r : Result TopologySnapshot) : TopologySnapshot :=
  match r with
  | Value t => t
  | Refused _ => mkTopology 0 [] [] [] [] [] [] (mkStats 0 0 0 0 0 0 0 0 0 0) limits_defaults 0
  end.

Definition sample_build : Result TopologySnapshot :=
  build 1 [leaf 2; leaf 1; leaf 1] [sample_link] [sample_topology_path]
    [mkEdge (of_dependent (dependent_service 3)) (of_dependent (dependent_path 9));
     mkEdge (of_dependent (dependent_path 9)) (of_dependent (dependent_service 3))] limits_defaults.

Definition sample_topology : TopologySnapshot := snapshot_of sample_build.

Lemma sample_build_value : sample_build = Value sample_topology.
Proof. vm_compute. reflexivity. Qed.

Lemma sample_topology_wf : topology_wf sample_topology.
Proof. exact (build_wf _ _ _ _ _ _ _ sample_build_value). Qed.

(** Switch 1 carries the link, the link the path, and the path and the service
    depend on each other. *)
Example sample_closure_members :
  dc_dependents <$> closure sample_topology [mkSwitchKey 1 1] limits_defaults =
  Some [dependent_link 5; dependent_path 9; dependent_service 3].
Proof. vm_compute. reflexivity. Qed.

(** A truncated closure can under-report what it skipped: with an edge
    budget of one, a switch with two ports depending on it is cut after the
    first, the second dependent is missing, and yet no omitted edge is
    reported, because the partially expanded node is not counted. *)
Theorem truncation_under_reports :
  let limits := mkLimits 9 9 9 9 9 9 1 9 9 9 9 9 9 9 9 9 9 9 9 9 9 9 9 in
  let t := snapshot_of (build 1 [leaf 1] [] []
    [mkEdge (of_dependent (dependent_port 1)) (of_switch (mkSwitchKey 1 1));
     mkEdge (of_dependent (dependent_port 2)) (of_switch (mkSwitchKey 1 1))] limits_defaults) in
  exists c, closure t [mkSwitchKey 1 1] limits = Some c /\
    dc_state c = ClosureState.Truncated /\ dc_dependents c = [dependent_port 1] /\
    adjacency_at t (index_of t (of_switch (mkSwitchKey 1 1))) =
      [of_dependent (dependent_port 1); of_dependent (dependent_port 2)] /\
    dc_edges_examined c = 1 /\ dc_omitted_edges c = 0.
Proof. eexists. split; [vm_compute; reflexivity|]. vm_compute. done. Qed.

(** ** Witnesses *)

Lemma closure_sound_and_complete_witness :
  exists c, closure sample_topology [mkSwitchKey 1 1] limits_defaults = Some c /\
            dc_state c = ClosureState.Complete.
Proof.
  destruct (closure_sound_and_complete sample_topology [mkSwitchKey 1 1] limits_defaults
    sample_topology_wf ltac:(vm_compute; discriminate) ltac:(vm_compute; discriminate)) as (c & Hc & _).
  exists c. split; [exact Hc|]. vm_compute in Hc. injection Hc as <-. reflexivity.
Defined.

Lemma closure_bounded_witness :
  match closure sample_topology [mkSwitchKey 1 1] limits_defaults with
  | Some c => canonical (dc_members c)
  | None => False
  end.
Proof.
  destruct (closure sample_topology [mkSwitchKey 1 1] limits_defaults) as [c|] eqn:Hc;
    [|vm_compute in Hc; discriminate].
  exact (proj1 (proj2 (proj2 (closure_bounded sample_topology [mkSwitchKey 1 1]
    limits_defaults c sample_topology_wf ltac:(vm_compute; discriminate) ltac:(vm_compute; discriminate) Hc)))).
Defined.

Lemma closure_ample_budget_complete_witness :
  match closure sample_topology [mkSwitchKey 1 1] limits_defaults with
  | Some c => dc_state c <> ClosureState.Truncated
  | None => False
  end.
Proof.
  destruct (closure sample_topology [mkSwitchKey 1 1] limits_defaults) as [c|] eqn:Hc;
    [|vm_compute in Hc; discriminate].
  exact (proj1 (closure_ample_budget_complete sample_topology [mkSwitchKey 1 1] limits_defaults c
    sample_topology_wf Hc ltac:(vm_compute; reflexivity) ltac:(vm_compute; reflexivity))).
Defined.

Lemma build_snapshot_sound_witness : topology_wf sample_topology.
Proof. exact (proj1 (build_snapshot_sound _ _ _ _ _ _ _ sample_build_value)). Defined.

Lemma switch_lookup_exact_witness :
  find_switch sample_topology (mkSwitchKey 2 1) = Some (leaf 2).
Proof.
  assert (Hs : tp_switches sample_topology = [leaf 1; leaf 2]) by (vm_compute; reflexivity).
  destruct (switch_lookup_exact sample_topology (mkSwitchKey 2 1) (leaf 2) 2 sample_topology_wf ltac:(lia))
    as [[_ Hfind] _].
  apply Hfind. rewrite Hs.
  split; [apply elem_of_cons; right; apply elem_of_cons; left; reflexivity|reflexivity].
Defined.
