(* ===== verification/Bytes.v ===== *)
(** The canonical, total, bounded binary codec (include/sff/codec/bytes.hpp,
    src/codec/bytes.cpp): the little-endian writer with its byte limit and the
    reader whose first failure is sticky. A writer operation is a function
    [ByteWriter -> Status * ByteWriter], a reader operation a computation of
    the state monad [ReaderM]. [WireFormat] states what the codec of a value
    promises to the record and frame codecs that are built from it. *)

From S2P Require Import Prelude Containers Core.

(** * Little-endian integers *)

Definition store_le (value : Z) (width : nat) : list Z := le_bytes value width.

(** `value |= uint64(in[index]) << (8 * index)`. *)
Fixpoint load_le_from (index : Z) (value : Z) (bytes : list Z) : Z :=
  match bytes with
  | [] => value
  | b :: rest => load_le_from (index + 1) (Z.lor value (wrap64 (Z.shiftl b (8 * index)))) rest
  end.

Definition load_le (bytes : list Z) : Z := load_le_from 0 0 bytes.

(** * Writer *)

Record ByteWriter := mkWriter {
  bw_bytes : list Z;
  bw_limit : Z;
  bw_failed : bool;
  bw_failure : Status
}.

Definition writer_new : ByteWriter := mkWriter [] (Z.shiftl 1 30) false success.

Definition set_limit (limit : Z) (w : ByteWriter) : ByteWriter :=
  mkWriter (bw_bytes w) limit (bw_failed w) (bw_failure w).

Definition overflowed (w : ByteWriter) : bool := bw_failed w.

Definition writer_clear (w : ByteWriter) : ByteWriter :=
  mkWriter [] (bw_limit w) (bw_failed w) (bw_failure w).

Definition checked_count (count : Z) : Z := if 0xffffffff <? count then 0xffffffff else count.

Definition WriterM : Type := ByteWriter -> Status * ByteWriter.

Definition writer_fail (s : Status) (w : ByteWriter) : Status * ByteWriter :=
  (s, mkWriter (bw_bytes w) (bw_limit w) true s).

(** The data pointer and size of [raw]; [None] is the null pointer. *)
Definition write_raw (data : option (list Z)) (size : Z) : WriterM := fun w =>
  if bw_failed w then (bw_failure w, w)
  else if (bw_limit w <? size) || (bw_limit w - size <? zlen (bw_bytes w)) then
    writer_fail (failure Code.Exhausted "canonical document exceeds the writer limit") w
  else if size =? 0 then (success, w)
  else match data with
    | None => writer_fail (failure Code.Invalid "null data with non-zero size") w
    | Some bytes => (success, mkWriter (bw_bytes w ++ take (Z.to_nat size) bytes) (bw_limit w) (bw_failed w)
                                (bw_failure w))
    end.

Definition write_all (bytes : list Z) : WriterM := write_raw (Some bytes) (zlen bytes).

Definition write_u8 (value : Z) : WriterM := write_all [value].
Definition write_u16 (value : Z) : WriterM := write_all (store_le value 2).
Definition write_u32 (value : Z) : WriterM := write_all (store_le value 4).
Definition write_u64 (value : Z) : WriterM := write_all (store_le value 8).
Definition write_boolean (value : bool) : WriterM := write_u8 (if value then 1 else 0).

Declare Scope codec_scope.
Delimit Scope codec_scope with codec.

(** `Status status = a; if (!status.ok()) return status; b;` *)
Definition write_guarded (a b : WriterM) : WriterM := fun w =>
  let '(status, w) := a w in if status_ok status then b w else (status, w).

(** `a; b;` with the status of [a] ignored. *)
Definition write_seq (a b : WriterM) : WriterM := fun w => b (a w).2.
Notation "a ;; b" := (write_seq a b) (at level 100, b at level 200, right associativity) : codec_scope.

(** The statement that writes nothing. *)
Definition write_nothing : WriterM := fun w => (success, w).

(** `for (const auto& x : l) write(x);` *)
Definition write_each {A} (write : A -> WriterM) (l : list A) : WriterM :=
  fold_right (fun x k => write_seq (write x) k) write_nothing l.

Definition write_blob (data : list Z) : WriterM :=
  write_guarded (write_u32 (checked_count (zlen data))) (write_all data).

Definition write_string (text : string) : WriterM :=
  write_guarded (write_u32 (checked_count (str_size text))) (write_all (string_bytes text)).

(** The bytes a writing procedure leaves in a fresh writer. *)
Definition written (m : WriterM) : list Z := bw_bytes (m writer_new).2.

(** * Reader *)

Record ByteReader := mkReader {
  br_data : list Z;
  br_offset : Z;
  br_element_limit : Z;
  br_failure : Status
}.

Definition reader_new (data : list Z) : ByteReader := mkReader data 0 (Z.shiftl 1 24) success.

Definition set_element_limit (limit : Z) (r : ByteReader) : ByteReader :=
  mkReader (br_data r) (br_offset r) limit (br_failure r).

Definition reader_ok (r : ByteReader) : bool := status_ok (br_failure r).
Definition remaining (r : ByteReader) : Z := zlen (br_data r) - br_offset r.
Definition at_end (r : ByteReader) : bool := br_offset r =? zlen (br_data r).

Definition reader_fail (code : Code) (message : string) (r : ByteReader) : ByteReader :=
  if negb (reader_ok r) then r
  else mkReader (br_data r) (br_offset r) (br_element_limit r) (failure code message).

Definition ensure (count : Z) (r : ByteReader) : bool * ByteReader :=
  if negb (reader_ok r) then (false, r)
  else if remaining r <? count then
    (false, reader_fail Code.Truncated "read past the end of the canonical document" r)
  else (true, r).

Definition ReaderM (A : Type) : Type := ByteReader -> A * ByteReader.

#[export] Instance reader_ret : MRet ReaderM := fun A a r => (a, r).
#[export] Instance reader_bind : MBind ReaderM := fun A B k m r => let '(a, r') := m r in k a r'.

(** The bytes [data_ + offset_ .. data_ + offset_ + count). *)
Definition peek (count : Z) (r : ByteReader) : list Z :=
  take (Z.to_nat count) (drop (Z.to_nat (br_offset r)) (br_data r)).

Definition advance_by (count : Z) (r : ByteReader) : ByteReader :=
  mkReader (br_data r) (br_offset r + count) (br_element_limit r) (br_failure r).

(** `if (!ensure(count)) return zero; value = parse(data_ + offset_); offset_ += count;` *)
Definition read_span {A} (zero : A) (count : Z) (parse : list Z -> A) : ReaderM A := fun r =>
  let '(fits, r) := ensure count r in
  if fits then (parse (peek count r), advance_by count r) else (zero, r).

Definition read_u8 : ReaderM Z := read_span 0 1 (fun b => default 0 (head b)).
Definition read_u16 : ReaderM Z := read_span 0 2 (fun b => wrap16 (load_le b)).
Definition read_u32 : ReaderM Z := read_span 0 4 (fun b => wrap32 (load_le b)).
Definition read_u64 : ReaderM Z := read_span 0 8 load_le.

Definition read_boolean : ReaderM bool := fun r =>
  let '(raw_value, r) := read_u8 r in
  if negb (reader_ok r) then (false, r)
  else if 1 <? raw_value then (false, reader_fail Code.Invalid "boolean field is not 0 or 1" r)
  else (raw_value =? 1, r).

(** The length-prefixed read shared by [blob] and [string]. *)
Definition read_prefixed {A} (zero : A) (message : string) (parse : list Z -> A) : ReaderM A := fun r =>
  let '(length, r) := read_u32 r in
  if negb (reader_ok r) then (zero, r)
  else if br_element_limit r <? length then (zero, reader_fail Code.Exhausted message r)
  else read_span zero length parse r.

Definition read_blob : ReaderM (list Z) :=
  read_prefixed [] "declared blob length exceeds the element limit" id.

(** The string with the given bytes. *)
Fixpoint bytes_string (bytes : list Z) : string :=
  match bytes with
  | [] => EmptyString
  | b :: rest => String (Ascii.ascii_of_N (Z.to_N b)) (bytes_string rest)
  end.

Definition read_string : ReaderM string :=
  read_prefixed EmptyString "declared string length exceeds the element limit" bytes_string.

Definition list_count (minimum_element_bytes : Z) : ReaderM Z := fun r =>
  let '(count, r) := read_u32 r in
  if negb (reader_ok r) then (0, r)
  else if br_element_limit r <? count then
    (0, reader_fail Code.Exhausted "declared element count exceeds the element limit" r)
  else if negb (minimum_element_bytes =? 0) && (remaining r / minimum_element_bytes <? count) then
    (0, reader_fail Code.Truncated "declared element count does not fit in the remaining bytes" r)
  else (count, r).

(** `for (index = 0; index < count; ++index) v.push_back(read(reader));` *)
Fixpoint read_times {A} (count : nat) (read : ReaderM A) : ReaderM (list A) :=
  match count with
  | O => mret []
  | S n => x ← read; xs ← read_times n read; mret (x :: xs)
  end.

(** `count = list_count(minimum)` and the loop that reads the elements. *)
Definition read_list {A} (minimum : Z) (read : ReaderM A) : ReaderM (list A) :=
  count ← list_count minimum; read_times (Z.to_nat count) read.

Definition require_end (r : ByteReader) : Status * ByteReader :=
  if negb (reader_ok r) then (br_failure r, r)
  else if negb (at_end r) then
    let r := reader_fail Code.Invalid "trailing bytes after the canonical document" r in
    (br_failure r, r)
  else (success, r).

(** `if (!reader.ok()) return reader.status();` *)
Definition check_ok {A} (k : ReaderM (Result A)) : ReaderM (Result A) := fun r =>
  if negb (reader_ok r) then (Refused (br_failure r), r) else k r.

(** `Status end = reader.require_end(); if (!end.ok()) return end;` *)
Definition check_end {A} (k : ReaderM (Result A)) : ReaderM (Result A) := fun r =>
  let '(status, r) := require_end r in
  if negb (status_ok status) then (Refused status, r) else k r.

(** Sequencing of readers that may return a refusal from the middle of a loop. *)
Definition try_bind {A B} (m : ReaderM (Result A)) (k : A -> ReaderM (Result B)) : ReaderM (Result B) := fun r =>
  let '(x, r) := m r in
  match x with
  | Refused s => (Refused s, r)
  | Value a => k a r
  end.

(** `for (index = 0; index < count; ++index) { ...; if (bad) return refusal; v.push_back(x); }` *)
Fixpoint try_times {A} (count : nat) (read : ReaderM (Result A)) : ReaderM (Result (list A)) :=
  match count with
  | O => mret (Value [])
  | S n => try_bind read (fun x => try_bind (try_times n read) (fun xs => mret (Value (x :: xs))))
  end.

Definition try_list {A} (minimum : Z) (read : ReaderM (Result A)) : ReaderM (Result (list A)) :=
  count ← list_count minimum; try_times (Z.to_nat count) read.

(** A decoder run on a document. *)
Definition decode_with {A} (m : ReaderM (Result A)) (data : list Z) : Result A :=
  (m (reader_new data)).1.

(** * Facts about little-endian integers *)

(** The value of a little-endian byte string. *)
Fixpoint le_value (bytes : list Z) : Z :=
  match bytes with
  | [] => 0
  | b :: rest => b + 256 * le_value rest
  end.

Lemma land_255 x : Z.land x 0xff = x mod 256.
Proof. change 0xff with (Z.ones 8). by rewrite Z.land_ones by lia. Qed.

Lemma shiftr_8 x : Z.shiftr x 8 = x / 256.
Proof. by rewrite Z.shiftr_div_pow2 by lia. Qed.

Lemma byte_at_range v i : in_u8 (byte_at v i).
Proof. unfold byte_at. rewrite land_255. ints. apply Z.mod_pos_bound. lia. Qed.

Lemma byte_at_S v i : byte_at v (S i) = byte_at (Z.shiftr v 8) i.
Proof. unfold byte_at. rewrite Z.shiftr_shiftr by lia. do 2 f_equal. lia. Qed.

Lemma le_bytes_S v n : le_bytes v (S n) = v mod 256 :: le_bytes (v / 256) n.
Proof.
  unfold le_bytes. simpl. f_equal.
  - unfold byte_at. rewrite land_255. by rewrite Z.shiftr_0_r.
  - rewrite <- fmap_S_seq, <- list_fmap_compose. apply list_fmap_ext. intros i j _.
    unfold compose. by rewrite byte_at_S, shiftr_8.
Qed.

Lemma length_le_bytes v n : length (le_bytes v n) = n.
Proof. unfold le_bytes. by rewrite length_fmap, length_seq. Qed.

Lemma zlen_le_bytes v n : zlen (le_bytes v n) = Z.of_nat n.
Proof. unfold zlen. by rewrite length_le_bytes. Qed.

Lemma le_bytes_bytes v n : Forall in_u8 (le_bytes v n).
Proof. apply Forall_fmap, Forall_forall. intros i _. apply byte_at_range. Qed.

Lemma le_value_range l : Forall in_u8 l -> 0 <= le_value l < 256 ^ zlen l.
Proof.
  induction 1 as [|b l Hb _ IH]; [done|]. rewrite zlen_cons, Z.pow_add_r by (pose proof (zlen_nonneg l); lia).
  cbn [le_value]. ints. lia.
Qed.

Lemma le_value_le_bytes v n : le_value (le_bytes v n) = v mod 256 ^ Z.of_nat n.
Proof.
  revert v. induction n as [|n IH]; intros v; [by rewrite Z.mod_1_r|].
  rewrite le_bytes_S. cbn [le_value]. rewrite IH, Nat2Z.inj_succ, Z.pow_succ_r by lia.
  rewrite Z.rem_mul_r by lia. done.
Qed.

Lemma le_bytes_le_value l : Forall in_u8 l -> le_bytes (le_value l) (length l) = l.
Proof.
  induction 1 as [|b l Hb _ IH]; [done|]. simpl length. rewrite le_bytes_S. cbn [le_value].
  ints. rewrite (Z.mul_comm 256), Z.mod_add, Z.div_add by lia.
  rewrite Z.mod_small, Z.div_small by lia. by rewrite Z.add_0_l, IH.
Qed.

Lemma le_value_inj l k : Forall in_u8 l -> Forall in_u8 k -> length l = length k ->
  le_value l = le_value k -> l = k.
Proof.
  intros Hl Hk Hn Hv. rewrite <- (le_bytes_le_value l Hl), <- (le_bytes_le_value k Hk). by rewrite Hv, Hn.
Qed.

Lemma land_shift_disjoint v b i : 0 <= i -> 0 <= v < 2 ^ i -> Z.land v (Z.shiftl b i) = 0.
Proof.
  intros Hi Hv. apply Z.bits_inj'. intros n Hn. rewrite Z.land_spec, Z.bits_0. destruct (Z.lt_ge_cases n i).
  - rewrite Z.shiftl_spec_low by lia. apply andb_false_r.
  - rewrite <- (Z.mod_small v (2 ^ i)) by lia. by rewrite Z.mod_pow2_bits_high by lia.
Qed.

Lemma lor_disjoint v b i : 0 <= i -> 0 <= v < 2 ^ i -> 0 <= b -> Z.lor v (b * 2 ^ i) = v + b * 2 ^ i.
Proof.
  intros Hi Hv Hb. rewrite <- Z.shiftl_mul_pow2 by lia.
  pose proof (land_shift_disjoint v b i Hi Hv). rewrite Z.add_nocarry_lxor by done. symmetry. by apply Z.lxor_lor.
Qed.

Lemma load_le_from_spec l i v : Forall in_u8 l -> 0 <= i -> i + zlen l <= 8 -> 0 <= v < 2 ^ (8 * i) ->
  load_le_from i v l = v + le_value l * 2 ^ (8 * i).
Proof.
  intros Hl. revert i v. induction Hl as [|b l Hb Hl IH]; intros i v Hi Hn Hv; [simpl; lia|].
  rewrite zlen_cons in Hn. pose proof (zlen_nonneg l). cbn [load_le_from le_value].
  assert (Hp : 2 ^ (8 * (i + 1)) = 256 * 2 ^ (8 * i)).
  { replace (8 * (i + 1)) with (8 + 8 * i) by lia. by rewrite Z.pow_add_r by lia. }
  assert (Hle : 2 ^ (8 * (i + 1)) <= two64) by (change two64 with (2 ^ 64); apply Z.pow_le_mono_r; lia).
  rewrite Z.shiftl_mul_pow2, wrap64_small by (ints; nia).
  rewrite lor_disjoint by (ints; lia). rewrite IH by (try rewrite Hp; ints; nia).
  rewrite Hp. lia.
Qed.

Lemma load_le_value l : Forall in_u8 l -> zlen l <= 8 -> load_le l = le_value l.
Proof. intros Hl Hn. unfold load_le. rewrite load_le_from_spec by (simpl; done || lia). simpl. lia. Qed.

(** A stored value is loaded back. *)
Lemma load_store_le v n : (n <= 8)%nat -> 0 <= v < 256 ^ Z.of_nat n -> load_le (store_le v n) = v.
Proof.
  intros Hn Hv. unfold store_le. rewrite load_le_value by (apply le_bytes_bytes || (rewrite zlen_le_bytes; lia)).
  rewrite le_value_le_bytes. by apply Z.mod_small.
Qed.

(** * What a writing procedure appends *)

(** [m] appends exactly [bs] to every healthy writer with room for it. *)
Definition writes (m : WriterM) (bs : list Z) : Prop := forall w,
  bw_failed w = false -> zlen (bw_bytes w) + zlen bs <= bw_limit w ->
  m w = (success, mkWriter (bw_bytes w ++ bs) (bw_limit w) false (bw_failure w)).

Lemma writes_all bs : writes (write_all bs) bs.
Proof.
  intros w Hf Hn. pose proof (zlen_nonneg (bw_bytes w)). unfold write_all, write_raw. rewrite Hf.
  rewrite (proj2 (Z.ltb_ge _ _)), (proj2 (Z.ltb_ge _ _)) by lia. cbn [orb].
  destruct (zlen bs =? 0) eqn:E; bool_prop.
  - destruct bs; [|rewrite zlen_cons in E; pose proof (zlen_nonneg bs); lia].
    rewrite app_nil_r. destruct w. simpl in *. by subst.
  - unfold zlen. by rewrite Nat2Z.id, firstn_all.
Qed.

Lemma writes_nothing : writes write_nothing [].
Proof. intros [bs n f s] Hf _. simpl in *. subst. unfold write_nothing. by rewrite app_nil_r. Qed.

Lemma writes_seq a b x y : writes a x -> writes b y -> writes (write_seq a b) (x ++ y).
Proof.
  intros Ha Hb w Hf Hn. rewrite zlen_app in Hn. pose proof (zlen_nonneg y). unfold write_seq.
  rewrite Ha by (done || lia). cbn [snd]. rewrite Hb by (simpl; try done; rewrite zlen_app; lia).
  simpl. by rewrite app_assoc.
Qed.

Lemma writes_guarded a b x y : writes a x -> writes b y -> writes (write_guarded a b) (x ++ y).
Proof.
  intros Ha Hb w Hf Hn. rewrite zlen_app in Hn. pose proof (zlen_nonneg y). unfold write_guarded.
  rewrite Ha by (done || lia). rewrite success_ok.
  rewrite Hb by (simpl; try done; rewrite zlen_app; lia). simpl. by rewrite app_assoc.
Qed.

Lemma writes_each {A} (write : A -> WriterM) (enc : A -> list Z) l :
  (forall x, x ∈ l -> writes (write x) (enc x)) -> writes (write_each write l) (concat (enc <$> l)).
Proof.
  induction l as [|x l IH]; intros Hl; [apply writes_nothing|].
  apply (writes_seq _ _ (enc x)); [apply Hl; left|]. apply IH. intros y Hy. apply Hl. by right.
Qed.

Lemma checked_count_small n : n < two32 -> checked_count n = n.
Proof. intros H. unfold checked_count. by rewrite (proj2 (Z.ltb_ge _ _)) by ints_lia. Qed.

Lemma writes_u8 v : writes (write_u8 v) [v].
Proof. apply writes_all. Qed.
Lemma writes_u16 v : writes (write_u16 v) (le_bytes v 2).
Proof. apply writes_all. Qed.
Lemma writes_u32 v : writes (write_u32 v) (le_bytes v 4).
Proof. apply writes_all. Qed.
Lemma writes_u64 v : writes (write_u64 v) (le_bytes v 8).
Proof. apply writes_all. Qed.
Lemma writes_boolean b : writes (write_boolean b) [if b then 1 else 0].
Proof. apply writes_all. Qed.

(** A length-prefixed byte string. *)
Definition prefixed (bs : list Z) : list Z := le_bytes (zlen bs) 4 ++ bs.

Lemma writes_blob bs : zlen bs < two32 -> writes (write_blob bs) (prefixed bs).
Proof.
  intros H. unfold write_blob. rewrite checked_count_small by done.
  apply writes_guarded; apply writes_all.
Qed.

Lemma writes_string s : str_size s < two32 -> writes (write_string s) (prefixed (string_bytes s)).
Proof.
  intros H. unfold write_string. rewrite checked_count_small by done. rewrite <- length_string_bytes.
  apply writes_guarded; apply writes_all.
Qed.

Create HintDb codec.
#[export] Hint Resolve writes_u8 writes_u16 writes_u32 writes_u64 writes_boolean writes_seq
  writes_blob writes_string writes_each writes_nothing : codec.

Lemma written_writes m bs : writes m bs -> zlen bs <= bw_limit writer_new -> written m = bs.
Proof. intros Hm Hn. unfold written. rewrite Hm by done. done. Qed.

(** ** Limits: a writer never holds more than its limit and a failure is final. *)

(** The later state [w'] of a writer that was in state [w]. *)
Record writer_extends (w w' : ByteWriter) : Prop := {
  we_limit : bw_limit w' = bw_limit w;
  we_bound : zlen (bw_bytes w') <= bw_limit w;
  we_prefix : bw_bytes w `prefix_of` bw_bytes w'
}.

Lemma writer_extends_trans a b c : writer_extends a b -> writer_extends b c -> writer_extends a c.
Proof.
  intros [L1 B1 P1] [L2 B2 P2]. split; [congruence|by rewrite <- L1|by etrans].
Qed.

Definition strict_prefix (p bs : list Z) : Prop := exists q, q <> [] /\ bs = p ++ q.

Lemma strict_prefix_nil bs : 0 < zlen bs -> strict_prefix [] bs.
Proof. intros H. exists bs. split; [by intros ->|done]. Qed.

Lemma strict_prefix_weaken p x y : strict_prefix p x -> strict_prefix p (x ++ y).
Proof. intros (q & Hq & ->). exists (q ++ y). rewrite app_assoc. by destruct q. Qed.

Lemma strict_prefix_skip p x y : strict_prefix p y -> strict_prefix (x ++ p) (x ++ y).
Proof. intros (q & Hq & ->). exists q. by rewrite app_assoc. Qed.

(** The outcome of writing [bs] without room for it: an initial part of [bs]
    may have been appended, never all of it. *)
Record overflows (w : ByteWriter) (bs : list Z) (r : Status * ByteWriter) : Prop := {
  ov_extends : writer_extends w r.2;
  ov_failed : bw_failed r.2 = true;
  ov_code : status_code (bw_failure r.2) = Code.Exhausted;
  ov_status : status_ok r.1 = false;
  ov_cut : exists p, strict_prefix p bs /\ bw_bytes r.2 = bw_bytes w ++ p
}.

(** An overflow in the first of two writes, and in the second. *)
Lemma overflows_first w x y r : overflows w x r -> overflows w (x ++ y) r.
Proof. intros [? ? ? ? (p & Hp & ?)]. split; try done. exists p. split; [by apply strict_prefix_weaken|done]. Qed.

Lemma overflows_second w w' x y r : writer_extends w w' -> bw_bytes w' = bw_bytes w ++ x ->
  overflows w' y r -> overflows w (x ++ y) r.
Proof.
  intros He Hb [? ? ? ? (p & Hp & Hc)]. split; try done; [by eapply writer_extends_trans|].
  exists (x ++ p). split; [by apply strict_prefix_skip|]. by rewrite Hc, Hb, app_assoc.
Qed.

(** [m] appends exactly [bs] when it fits, fails closed with Exhausted when it
    does not, and does nothing to a writer that has already failed. *)
Record exact_writes (m : WriterM) (bs : list Z) : Prop := {
  ew_fits : writes m bs;
  ew_overflows : forall w, bw_failed w = false -> zlen (bw_bytes w) <= bw_limit w ->
    bw_limit w < zlen (bw_bytes w) + zlen bs -> overflows w bs (m w);
  ew_sticky : forall w, bw_failed w = true -> status_ok (bw_failure w) = false ->
    (m w).2 = w /\ status_ok (m w).1 = false
}.

Lemma exact_all bs : exact_writes (write_all bs) bs.
Proof.
  split; [apply writes_all| |].
  - intros w Hf Hb Hn. unfold write_all, write_raw. rewrite Hf.
    destruct (_ || _) eqn:E; [|bool_prop; lia]. split; simpl; [|done|done|apply failure_not_ok|].
    + split; simpl; done.
    + exists []. split; [apply strict_prefix_nil; lia|by rewrite app_nil_r].
  - intros w Hf Hs. unfold write_all, write_raw. by rewrite Hf.
Qed.

(** The state of a healthy writer after an exact write that fits. *)
Lemma writes_extends m bs w : writes m bs -> bw_failed w = false ->
  zlen (bw_bytes w) + zlen bs <= bw_limit w ->
  status_ok (m w).1 = true /\ writer_extends w (m w).2 /\ bw_failed (m w).2 = false /\
  bw_bytes (m w).2 = bw_bytes w ++ bs.
Proof.
  intros Hm Hf Hn. rewrite Hm by done. simpl. split; [done|]. split; [|split; done].
  split; simpl; [done|by rewrite zlen_app|by apply prefix_app_r].
Qed.

Lemma overflows_not_ok w bs r : overflows w bs r -> status_ok (bw_failure r.2) = false.
Proof. intros H. unfold status_ok. apply bool_decide_eq_false. by rewrite (ov_code _ _ _ H). Qed.

Section sequencing.
Context (a b : WriterM) (x y : list Z) (Ha : exact_writes a x) (Hb : exact_writes b y).

Lemma exact_guarded : exact_writes (write_guarded a b) (x ++ y).
Proof.
  split; [apply writes_guarded; [apply Ha|apply Hb]| |].
  - intros w Hf Hw Hn. rewrite zlen_app in Hn. unfold write_guarded.
    destruct (Z.le_gt_cases (zlen (bw_bytes w) + zlen x) (bw_limit w)) as [Hx|Hx].
    + destruct (writes_extends _ _ _ (ew_fits _ _ Ha) Hf Hx) as (Hok & He & Hf' & Hl).
      destruct (a w) as [s w'] eqn:E. cbn [fst snd] in *. rewrite Hok.
      eapply overflows_second; [exact He|done|]. destruct He as [Hlim Hbound Hpre].
      apply (ew_overflows _ _ Hb w' Hf'); [lia|]. rewrite Hl, zlen_app. lia.
    + pose proof (ew_overflows _ _ Ha w Hf Hw ltac:(lia)) as Ho.
      destruct (a w) as [s w'] eqn:E. pose proof (ov_status _ _ _ Ho) as Hs. cbn [fst] in Hs. rewrite Hs.
      by apply overflows_first.
  - intros w Hf Hs. unfold write_guarded. destruct (ew_sticky _ _ Ha w Hf Hs) as [H1 H2].
    destruct (a w) as [s w'] eqn:E. cbn [fst snd] in *. rewrite H2. by subst.
Qed.

(** Ignoring a status loses nothing: the failure is recorded in the writer. *)
Lemma exact_seq : exact_writes (write_seq a b) (x ++ y).
Proof.
  split; [apply writes_seq; [apply Ha|apply Hb]| |].
  - intros w Hf Hw Hn. rewrite zlen_app in Hn. unfold write_seq.
    destruct (Z.le_gt_cases (zlen (bw_bytes w) + zlen x) (bw_limit w)) as [Hx|Hx].
    + destruct (writes_extends _ _ _ (ew_fits _ _ Ha) Hf Hx) as (Hok & He & Hf' & Hl).
      eapply overflows_second; [exact He|done|]. destruct He as [Hlim Hbound Hpre].
      apply (ew_overflows _ _ Hb _ Hf'); [lia|]. rewrite Hl, zlen_app. lia.
    + pose proof (ew_overflows _ _ Ha w Hf Hw ltac:(lia)) as Ho.
      destruct (ew_sticky _ _ Hb (a w).2 (ov_failed _ _ _ Ho) (overflows_not_ok _ _ _ Ho)) as [H1 H2].
      apply overflows_first. destruct Ho. split; by rewrite ?H1.
  - intros w Hf Hs. unfold write_seq. destruct (ew_sticky _ _ Ha w Hf Hs) as [H1 _].
    rewrite H1. by apply Hb.
Qed.
End sequencing.

(** The same with every status ignored, as the document encoders write: [m]
    appends [bs], or a proper initial part of it and leaves the writer failed. *)
Record cut_writes (m : WriterM) (bs : list Z) : Prop := {
  cw_fits : writes m bs;
  cw_cut : forall w, bw_failed w = false -> zlen (bw_bytes w) <= bw_limit w ->
    bw_limit w < zlen (bw_bytes w) + zlen bs ->
    bw_failed (m w).2 = true /\ status_ok (bw_failure (m w).2) = false /\
    exists p, strict_prefix p bs /\ bw_bytes (m w).2 = bw_bytes w ++ p;
  cw_sticky : forall w, bw_failed w = true -> status_ok (bw_failure w) = false -> (m w).2 = w
}.

Lemma cut_exact m bs : exact_writes m bs -> cut_writes m bs.
Proof.
  intros [Hf Ho Hs]. split; [done| |by apply Hs]. intros w H1 H2 H3. pose proof (Ho w H1 H2 H3) as H.
  split; [apply H|]. split; [by eapply overflows_not_ok|apply H].
Qed.

Lemma cut_nothing : cut_writes write_nothing [].
Proof. split; [apply writes_nothing| |done]. intros w _ Hw. rewrite zlen_nil. lia. Qed.

Lemma cut_seq a b x y : cut_writes a x -> cut_writes b y -> cut_writes (write_seq a b) (x ++ y).
Proof.
  intros Ha Hb. split; [apply writes_seq; [apply Ha|apply Hb]| |].
  - intros w Hf Hw Hn. rewrite zlen_app in Hn. unfold write_seq.
    destruct (Z.le_gt_cases (zlen (bw_bytes w) + zlen x) (bw_limit w)) as [Hx|Hx].
    + destruct (writes_extends _ _ _ (cw_fits _ _ Ha) Hf Hx) as (_ & [Hlim Hbound _] & Hf' & Hl).
      destruct (cw_cut _ _ Hb (a w).2 Hf') as (? & ? & p & Hp & Hc); [lia|rewrite Hl, zlen_app; lia|].
      split; [done|]. split; [done|]. exists (x ++ p). split; [by apply strict_prefix_skip|].
      by rewrite Hc, Hl, app_assoc.
    + destruct (cw_cut _ _ Ha w Hf Hw ltac:(lia)) as (H1 & H2 & p & Hp & Hc).
      rewrite (cw_sticky _ _ Hb) by done. split; [done|]. split; [done|]. exists p.
      split; [by apply strict_prefix_weaken|done].
  - intros w Hf Hs. unfold write_seq. by rewrite (cw_sticky _ _ Ha), (cw_sticky _ _ Hb).
Qed.

Lemma cut_each {A} (write : A -> WriterM) (enc : A -> list Z) l :
  Forall (fun x => cut_writes (write x) (enc x)) l -> cut_writes (write_each write l) (concat (enc <$> l)).
Proof. induction 1 as [|x l Hx _ IH]; [apply cut_nothing|]. by apply (cut_seq _ _ (enc x)). Qed.

Lemma cut_all bs : cut_writes (write_all bs) bs.
Proof. apply cut_exact, exact_all. Qed.

Lemma exact_string s : str_size s < two32 -> exact_writes (write_string s) (prefixed (string_bytes s)).
Proof.
  intros H. unfold write_string. rewrite <- length_string_bytes in *. rewrite checked_count_small by done.
  apply exact_guarded; apply exact_all.
Qed.

Create HintDb cut.
#[export] Hint Resolve cut_nothing cut_each cut_all : cut.
#[export] Hint Extern 1 (cut_writes (write_u8 _) _) => apply cut_all : cut.
#[export] Hint Extern 1 (cut_writes (write_u16 _) _) => apply cut_all : cut.
#[export] Hint Extern 1 (cut_writes (write_u32 _) _) => apply cut_all : cut.
#[export] Hint Extern 1 (cut_writes (write_u64 _) _) => apply cut_all : cut.
#[export] Hint Extern 1 (cut_writes (write_boolean _) _) => apply cut_all : cut.

(** What an encoder that ignores every status returns. *)
Lemma cut_encode m bs limit : cut_writes m bs -> 0 <= limit ->
  let data := bw_bytes (m (set_limit limit writer_new)).2 in
  if zlen bs <=? limit then data = bs else strict_prefix data bs.
Proof.
  intros Hm Hl. destruct (Z.leb_spec (zlen bs) limit) as [H|H]; cbv zeta.
  - by rewrite (cw_fits _ _ Hm).
  - destruct (cw_cut _ _ Hm (set_limit limit writer_new)) as (_ & _ & p & Hp & ->); [done|done|exact H|exact Hp].
Qed.

(** * What a reading procedure accepts *)

(** A healthy reader at a position of a document. *)
Definition at_pos (lim : Z) (data : list Z) (offset : Z) : ByteReader :=
  mkReader data offset lim success.

(** [m] consumes exactly [bs] wherever it occurs and returns [a]. *)
Definition decodes {A} (lim : Z) (bs : list Z) (m : ReaderM A) (a : A) : Prop :=
  forall pre post, m (at_pos lim (pre ++ bs ++ post) (zlen pre)) =
    (a, at_pos lim (pre ++ bs ++ post) (zlen pre + zlen bs)).

Definition truncated (r : ByteReader) : Prop := status_code (br_failure r) = Code.Truncated.

(** [m] fails with Truncated on a document that ends inside [bs]. *)
Definition truncates {A} (lim : Z) (bs : list Z) (m : ReaderM A) : Prop :=
  forall pre p, strict_prefix p bs -> truncated (m (at_pos lim (pre ++ p) (zlen pre))).2.

(** The first failure is preserved. *)
Class Sticky {A} (m : ReaderM A) : Prop :=
  sticky : forall r, reader_ok r = false -> (m r).2 = r.

(** What the reader of a value promises to the decoders built from it: values
    satisfying [ok] are read back from their encoding, every proper prefix of
    an encoding is reported as Truncated, and failures are sticky. *)
Class WireFormat {A} (lim : Z) (ok : A -> Prop) (enc : A -> list Z) (read : ReaderM A) : Prop := {
  wire_decodes : forall a, ok a -> decodes lim (enc a) read a;
  wire_truncates : forall a, ok a -> truncates lim (enc a) read;
  wire_sticky :: Sticky read
}.

Lemma truncated_not_ok r : truncated r -> reader_ok r = false.
Proof. intros H. unfold reader_ok, status_ok. apply bool_decide_eq_false. by rewrite H. Qed.

Lemma strict_prefix_app p b1 b2 : strict_prefix p (b1 ++ b2) ->
  strict_prefix p b1 \/ exists p2, p = b1 ++ p2 /\ strict_prefix p2 b2.
Proof.
  intros (q & Hq & He). apply app_eq_inv in He as [(k & H1 & H2)|(k & H1 & H2)].
  - destruct k as [|z k].
    + right. exists []. simplify_list_eq. split; [done|]. by exists b2.
    + left. by exists (z :: k).
  - right. exists k. split; [done|]. by exists q.
Qed.

Lemma strict_prefix_length p bs : strict_prefix p bs -> zlen p < zlen bs.
Proof.
  intros (q & Hq & ->). rewrite zlen_app. destruct q as [|z q]; [done|].
  rewrite zlen_cons. pose proof (zlen_nonneg q). lia.
Qed.

Lemma reader_ok_at_pos lim data off : reader_ok (at_pos lim data off) = true.
Proof. done. Qed.

#[export] Instance sticky_ret {A} (a : A) : Sticky (mret a).
Proof. by intros r. Qed.

#[export] Instance sticky_bind {A B} (m : ReaderM A) (k : A -> ReaderM B) :
  Sticky m -> (forall a, Sticky (k a)) -> Sticky (m ≫= k).
Proof.
  intros Hm Hk r Hr. unfold mbind, reader_bind. pose proof (Hm r Hr) as H.
  destruct (m r) as [a r'] eqn:E. cbn [snd] in H. subst. by apply Hk.
Qed.

#[export] Instance sticky_span {A} (zero : A) count parse : Sticky (read_span zero count parse).
Proof. intros r Hr. unfold read_span, ensure. by rewrite Hr. Qed.

#[export] Instance sticky_u8 : Sticky read_u8 := _.
#[export] Instance sticky_u16 : Sticky read_u16 := _.
#[export] Instance sticky_u32 : Sticky read_u32 := _.
#[export] Instance sticky_u64 : Sticky read_u64 := _.

#[export] Instance sticky_boolean : Sticky read_boolean.
Proof.
  intros r Hr. unfold read_boolean. pose proof (sticky_u8 r Hr) as H.
  destruct (read_u8 r) as [v r']. cbn [snd] in H. subst. by rewrite Hr.
Qed.

#[export] Instance sticky_prefixed {A} (zero : A) message parse :
  Sticky (read_prefixed zero message parse).
Proof.
  intros r Hr. unfold read_prefixed. pose proof (sticky_u32 r Hr) as H.
  destruct (read_u32 r) as [v r']. cbn [snd] in H. subst. by rewrite Hr.
Qed.

#[export] Instance sticky_count n : Sticky (list_count n).
Proof.
  intros r Hr. unfold list_count. pose proof (sticky_u32 r Hr) as H.
  destruct (read_u32 r) as [v r']. cbn [snd] in H. subst. by rewrite Hr.
Qed.

#[export] Instance sticky_times {A} n (m : ReaderM A) : Sticky m -> Sticky (read_times n m).
Proof. intros Hm. induction n as [|n IH]; simpl; apply _. Qed.

(** ** Composition *)

Lemma decodes_ret {A} lim (a : A) : decodes lim [] (mret a) a.
Proof. intros pre post. unfold mret, reader_ret. by rewrite zlen_nil, Z.add_0_r. Qed.

Lemma decodes_bind {A B} lim b1 b2 (m : ReaderM A) (k : A -> ReaderM B) a b :
  decodes lim b1 m a -> decodes lim b2 (k a) b -> decodes lim (b1 ++ b2) (m ≫= k) b.
Proof.
  intros Hm Hk pre post. unfold mbind, reader_bind. rewrite <- app_assoc. rewrite Hm.
  specialize (Hk (pre ++ b1) post). rewrite zlen_app, <- app_assoc in Hk. rewrite Hk.
  by rewrite zlen_app, Z.add_assoc.
Qed.

Lemma truncates_bind {A B} lim b1 b2 (m : ReaderM A) (k : A -> ReaderM B) a :
  decodes lim b1 m a -> truncates lim b1 m -> (forall x, Sticky (k x)) ->
  truncates lim b2 (k a) -> truncates lim (b1 ++ b2) (m ≫= k).
Proof.
  intros Hd Ht Hs Hk pre p [Hp|(p2 & -> & Hp)]%strict_prefix_app; unfold mbind, reader_bind.
  - specialize (Ht pre p Hp). destruct (m _) as [x r] eqn:E. cbn [snd] in Ht.
    by rewrite Hs by (by apply truncated_not_ok).
  - rewrite Hd. specialize (Hk (pre ++ b1) p2 Hp). by rewrite zlen_app, <- app_assoc in Hk.
Qed.

Lemma truncates_nil {A} lim (m : ReaderM A) : truncates lim [] m.
Proof. intros pre p (q & Hq & He). symmetry in He. apply app_nil in He as [_ ?]. done. Qed.

(** A value read as the function of another one. *)
Lemma wire_map {A B} lim (ok : A -> Prop) enc (read : ReaderM A) (f : A -> B) (okb : B -> Prop) encb :
  WireFormat lim ok enc read -> (forall b, okb b -> exists a, b = f a /\ ok a /\ encb b = enc a) ->
  WireFormat lim okb encb (read ≫= fun a => mret (f a)).
Proof.
  intros Hw Hb. split; [| |apply _]; intros b (a & -> & Hok & ->)%Hb; rewrite <- (app_nil_r (enc a)).
  - eapply decodes_bind; [by apply Hw|]. apply decodes_ret.
  - eapply truncates_bind; [by apply Hw|by apply Hw|apply _|apply truncates_nil].
Qed.

(** ** The primitive readers *)

Lemma peek_app lim pre bs post : peek (zlen bs) (at_pos lim (pre ++ bs ++ post) (zlen pre)) = bs.
Proof. unfold peek, zlen. simpl. by rewrite !Nat2Z.id, drop_app_length, take_app_length. Qed.

Lemma decodes_span {A} lim bs (zero : A) count parse : zlen bs = count ->
  decodes lim bs (read_span zero count parse) (parse bs).
Proof.
  intros Hc pre post. unfold read_span, ensure. rewrite reader_ok_at_pos. cbn [negb].
  unfold remaining. cbn [br_data br_offset at_pos]. rewrite !zlen_app.
  pose proof (zlen_nonneg post). rewrite (proj2 (Z.ltb_ge _ _)) by lia. subst count. by rewrite peek_app.
Qed.

Lemma truncates_span {A} lim bs (zero : A) count parse : zlen bs = count ->
  truncates lim bs (read_span zero count parse).
Proof.
  intros Hc pre p Hp%strict_prefix_length. unfold read_span, ensure. rewrite reader_ok_at_pos. cbn [negb].
  unfold remaining. cbn [br_data br_offset at_pos]. rewrite zlen_app.
  by rewrite (proj2 (Z.ltb_lt _ _)) by lia.
Qed.

#[export] Instance wire_u8 lim : WireFormat lim in_u8 (fun v => [v]) read_u8.
Proof.
  split; [|intros v _; by apply truncates_span|apply _].
  intros v _. by apply (decodes_span lim [v] 0 1 (fun b => default 0 (head b))).
Qed.

Lemma wire_le lim width wrap (inw : Z -> Prop) : (width <= 8)%nat ->
  (forall v, inw v -> 0 <= v < 256 ^ Z.of_nat width /\ wrap v = v) ->
  WireFormat lim inw (fun v => le_bytes v width) (read_span 0 (Z.of_nat width) (fun b => wrap (load_le b))).
Proof.
  intros Hw Hin. split; [|intros v _; apply truncates_span, zlen_le_bytes|apply _].
  intros v Hv. destruct (Hin v Hv) as [Hr Hwrap].
  pose proof (decodes_span lim (le_bytes v width) 0 (Z.of_nat width) (fun b => wrap (load_le b))
                (zlen_le_bytes v width)) as H.
  assert (He : load_le (le_bytes v width) = v) by (by apply load_store_le).
  cbn beta in H. by rewrite He, Hwrap in H.
Qed.

#[export] Instance wire_u16 lim : WireFormat lim in_u16 (fun v => le_bytes v 2) read_u16.
Proof.
  apply (wire_le lim 2 wrap16 in_u16); [lia|]. intros v Hv. split; [ints_lia|].
  ints. by apply Z.mod_small.
Qed.

#[export] Instance wire_u32 lim : WireFormat lim in_u32 (fun v => le_bytes v 4) read_u32.
Proof.
  apply (wire_le lim 4 wrap32 in_u32); [lia|]. intros v Hv. split; [ints_lia|].
  ints. by apply Z.mod_small.
Qed.

#[export] Instance wire_u64 lim : WireFormat lim in_u64 (fun v => le_bytes v 8) read_u64.
Proof. apply (wire_le lim 8 id in_u64); [lia|]. intros v Hv. split; [ints_lia|done]. Qed.

#[export] Instance wire_boolean lim :
  WireFormat lim (fun _ => True) (fun b : bool => [if b then 1 else 0]) read_boolean.
Proof.
  split; [| |apply _].
  - intros b _ pre post. unfold read_boolean.
    rewrite (wire_decodes (WireFormat := wire_u8 lim) (if b then 1 else 0) ltac:(destruct b; ints_lia)). by destruct b.
  - intros b _ pre p Hp. unfold read_boolean.
    pose proof (wire_truncates (WireFormat := wire_u8 lim) (if b then 1 else 0)
                  ltac:(destruct b; ints_lia) pre p Hp) as Ht.
    destruct (read_u8 _) as [v r]. cbn [snd] in Ht. by rewrite (truncated_not_ok r Ht).
Qed.

(** Byte strings short enough for their prefix and for the element limit. *)
Definition short (lim : Z) (bs : list Z) : Prop := zlen bs <= lim /\ zlen bs < two32.

Lemma wire_prefixed {A} lim (zero : A) message (parse : list Z -> A) (bytes : A -> list Z) :
  (forall a, parse (bytes a) = a) ->
  WireFormat lim (fun a => short lim (bytes a)) (fun a => prefixed (bytes a))
    (read_prefixed zero message parse).
Proof.
  intros Hinv. split; [| |apply _].
  - intros a [Hl H32] pre post. unfold read_prefixed, prefixed. rewrite <- app_assoc.
    rewrite (wire_decodes (WireFormat := wire_u32 lim) (zlen (bytes a))) by (pose proof (zlen_nonneg (bytes a)); ints_lia).
    rewrite reader_ok_at_pos. cbn [negb br_element_limit at_pos]. rewrite (proj2 (Z.ltb_ge _ _)) by done.
    pose proof (decodes_span lim (bytes a) zero (zlen (bytes a)) parse eq_refl
                  (pre ++ le_bytes (zlen (bytes a)) 4) post) as H.
    rewrite <- app_assoc, zlen_app in H. rewrite H, Hinv, zlen_app. by rewrite Z.add_assoc.
  - intros a [Hl H32] pre p Hp. unfold read_prefixed.
    assert (Hu : in_u32 (zlen (bytes a))) by (pose proof (zlen_nonneg (bytes a)); ints_lia).
    apply strict_prefix_app in Hp as [Hp|(p2 & -> & Hp)].
    + pose proof (wire_truncates (WireFormat := wire_u32 lim) _ Hu pre p Hp) as Ht.
      destruct (read_u32 _) as [v r]. cbn [snd] in Ht. by rewrite (truncated_not_ok r Ht).
    + rewrite (wire_decodes (WireFormat := wire_u32 lim) _ Hu). rewrite reader_ok_at_pos. cbn [negb br_element_limit at_pos].
      rewrite (proj2 (Z.ltb_ge _ _)) by done.
      pose proof (truncates_span lim (bytes a) zero _ parse eq_refl (pre ++ le_bytes (zlen (bytes a)) 4) p2 Hp) as H.
      by rewrite <- app_assoc, zlen_app in H.
Qed.

Lemma bytes_string_bytes s : bytes_string (string_bytes s) = s.
Proof.
  induction s as [|c s IH]; [done|]. simpl. by rewrite N2Z.id, Ascii.ascii_N_embedding, IH.
Qed.

#[export] Instance wire_blob lim : WireFormat lim (short lim) prefixed read_blob.
Proof. by apply (wire_prefixed lim [] _ id id). Qed.

#[export] Instance wire_string lim :
  WireFormat lim (fun s => short lim (string_bytes s)) (fun s => prefixed (string_bytes s)) read_string.
Proof. apply (wire_prefixed lim EmptyString). apply bytes_string_bytes. Qed.

(** ** Lists *)

Definition list_bytes {A} (enc : A -> list Z) (l : list A) : list Z :=
  le_bytes (zlen l) 4 ++ concat (enc <$> l).

(** A declared element count in front of the elements it announces. *)
Section counted.
Context (lim minimum : Z) (Hmin : 0 < minimum).

Lemma list_count_at pre n rest : 0 <= n -> n < two32 -> n <= lim ->
  list_count minimum (at_pos lim (pre ++ le_bytes n 4 ++ rest) (zlen pre)) =
    if zlen rest / minimum <? n then
      (0, reader_fail Code.Truncated "declared element count does not fit in the remaining bytes"
            (at_pos lim (pre ++ le_bytes n 4 ++ rest) (zlen pre + 4)))
    else (n, at_pos lim (pre ++ le_bytes n 4 ++ rest) (zlen pre + 4)).
Proof.
  intros H0 H32 Hl. unfold list_count.
  rewrite (wire_decodes (WireFormat := wire_u32 lim) n ltac:(ints_lia)), zlen_le_bytes.
  change (Z.of_nat 4) with 4. rewrite reader_ok_at_pos. cbn [negb br_element_limit at_pos].
  rewrite (proj2 (Z.ltb_ge _ _)) by done. rewrite (proj2 (Z.eqb_neq _ _)) by lia. cbn [negb andb].
  unfold remaining. cbn [br_data br_offset at_pos]. rewrite !zlen_app, zlen_le_bytes.
  replace (_ - _) with (zlen rest) by lia. done.
Qed.

Context {A : Type} (k : Z -> ReaderM A) (n : Z) (items : list Z).
Context (Hn : 0 <= n) (H32 : n < two32) (Hl : n <= lim) (Hlong : minimum * n <= zlen items).

Lemma counted_decodes a : decodes lim items (k n) a ->
  decodes lim (le_bytes n 4 ++ items) (list_count minimum ≫= k) a.
Proof.
  intros Hk pre post. unfold mbind, reader_bind. rewrite <- app_assoc, list_count_at by done.
  rewrite (proj2 (Z.ltb_ge _ _)).
  2: { apply Z.div_le_lower_bound; [done|]. rewrite zlen_app. pose proof (zlen_nonneg post). lia. }
  specialize (Hk (pre ++ le_bytes n 4) post).
  rewrite zlen_app, <- app_assoc, zlen_le_bytes in Hk. change (Z.of_nat 4) with 4 in Hk.
  rewrite Hk, zlen_app, zlen_le_bytes. by rewrite Z.add_assoc.
Qed.

Lemma counted_truncates : (forall x, Sticky (k x)) -> truncates lim items (k n) ->
  truncates lim (le_bytes n 4 ++ items) (list_count minimum ≫= k).
Proof.
  intros Hs Ht pre p [Hp|(p2 & -> & Hp)]%strict_prefix_app; unfold mbind, reader_bind.
  - pose proof (wire_truncates (WireFormat := wire_u32 lim) n ltac:(ints_lia) pre p Hp) as Hr.
    unfold list_count. destruct (read_u32 _) as [v r]. cbn [snd] in Hr.
    rewrite (truncated_not_ok r Hr). cbn [negb]. by rewrite (Hs 0 r (truncated_not_ok r Hr)).
  - rewrite list_count_at by done. destruct (_ <? _).
    + by rewrite Hs.
    + specialize (Ht (pre ++ le_bytes n 4) p2 Hp). by rewrite zlen_app, <- app_assoc, zlen_le_bytes in Ht.
Qed.
End counted.

Section lists.
Context {A : Type} (lim : Z) (ok : A -> Prop) (enc : A -> list Z) (read : ReaderM A).
Context {Hwire : WireFormat lim ok enc read}.
Context (minimum : Z) (Hmin : 0 < minimum) (Hlong : forall a, ok a -> minimum <= zlen (enc a)).

Lemma to_nat_zlen {B} (l : list B) : Z.to_nat (zlen l) = length l.
Proof. unfold zlen. lia. Qed.

Lemma times_decodes l : Forall ok l -> decodes lim (concat (enc <$> l)) (read_times (length l) read) l.
Proof.
  induction 1 as [|a l Ha Hl IH]; [apply decodes_ret|]. cbn [read_times length fmap list_fmap concat].
  eapply decodes_bind; [by apply Hwire|]. rewrite <- (app_nil_r (concat _)).
  eapply decodes_bind; [exact IH|apply decodes_ret].
Qed.

Lemma times_truncates l : Forall ok l -> truncates lim (concat (enc <$> l)) (read_times (length l) read).
Proof.
  induction 1 as [|a l Ha Hl IH]; [apply truncates_nil|]. cbn [read_times length fmap list_fmap concat].
  eapply truncates_bind; [by apply Hwire|by apply Hwire|apply _|]. rewrite <- (app_nil_r (concat _)).
  eapply truncates_bind; [by apply times_decodes|exact IH|apply _|apply truncates_nil].
Qed.

Lemma elements_long l : Forall ok l -> minimum * zlen l <= zlen (concat (enc <$> l)).
Proof.
  induction 1 as [|a l Ha Hl IH]; [cbn [fmap list_fmap concat]; autorewrite with zlen; lia|].
  cbn [fmap list_fmap concat]. rewrite zlen_cons, zlen_app. specialize (Hlong a Ha). lia.
Qed.

#[export] Instance wire_list : WireFormat lim (fun l => Forall ok l /\ zlen l <= lim /\ zlen l < two32)
    (list_bytes enc) (read_list minimum read).
Proof.
  split; [| |unfold read_list; apply _]; intros l (Hok & Hl & H32);
    pose proof (zlen_nonneg l); pose proof (elements_long l Hok).
  - apply counted_decodes; try done. rewrite to_nat_zlen. by apply times_decodes.
  - apply counted_truncates; try done; [apply _|]. rewrite to_nat_zlen. by apply times_truncates.
Qed.
End lists.

(** ** Documents: decoders that end in a value or a refusal *)

(** A failed reader makes the decoder answer with its first failure. *)
Class FailClosed {A} (m : ReaderM (Result A)) : Prop :=
  fail_closed : forall r, reader_ok r = false -> (m r).1 = Refused (br_failure r).

(** [m] reads the rest [bs] of a document as [a], and refuses every document
    that ends earlier as Truncated. *)
Record document {A} (lim : Z) (bs : list Z) (m : ReaderM (Result A)) (a : A) : Prop := {
  doc_value : forall pre, (m (at_pos lim (pre ++ bs) (zlen pre))).1 = Value a;
  doc_prefix : forall pre p, strict_prefix p bs ->
    exists s, (m (at_pos lim (pre ++ p) (zlen pre))).1 = Refused s /\ status_code s = Code.Truncated
}.

#[export] Instance fail_closed_ok {A} (k : ReaderM (Result A)) : FailClosed (check_ok k).
Proof. intros r Hr. unfold check_ok. by rewrite Hr. Qed.

#[export] Instance fail_closed_end {A} (k : ReaderM (Result A)) : FailClosed (check_end k).
Proof.
  intros r Hr. unfold check_end, require_end. rewrite Hr. cbn [negb]. unfold reader_ok in Hr. by rewrite Hr.
Qed.

#[export] Instance fail_closed_bind {A B} (m : ReaderM A) (k : A -> ReaderM (Result B)) :
  Sticky m -> (forall a, FailClosed (k a)) -> FailClosed (m ≫= k).
Proof.
  intros Hm Hk r Hr. unfold mbind, reader_bind. pose proof (Hm r Hr) as H.
  destruct (m r) as [a r'] eqn:E. cbn [snd] in H. subst. by apply Hk.
Qed.

Lemma document_bind {A B} lim (ok : A -> Prop) enc (read : ReaderM A) (k : A -> ReaderM (Result B)) x bs b :
  WireFormat lim ok enc read -> ok x -> (forall y, FailClosed (k y)) ->
  document lim bs (k x) b -> document lim (enc x ++ bs) (read ≫= k) b.
Proof.
  intros Hw Hx Hk [Hv Hp]. split; unfold mbind, reader_bind.
  - intros pre. rewrite (wire_decodes x Hx). specialize (Hv (pre ++ enc x)).
    by rewrite zlen_app, <- app_assoc in Hv.
  - intros pre p [Hq|(p2 & -> & Hq)]%strict_prefix_app.
    + pose proof (wire_truncates x Hx pre p Hq) as Ht. destruct (read _) as [y r]. cbn [snd] in Ht.
      exists (br_failure r). split; [|done]. by apply Hk, truncated_not_ok.
    + rewrite (wire_decodes x Hx). specialize (Hp (pre ++ enc x) p2 Hq).
      by rewrite zlen_app, <- app_assoc in Hp.
Qed.

Lemma document_ok {A} lim bs (k : ReaderM (Result A)) a : document lim bs k a -> document lim bs (check_ok k) a.
Proof. intros [Hv Hp]. by split. Qed.

Lemma document_end {A} lim (k : ReaderM (Result A)) a :
  (forall r, (k r).1 = Value a) -> document lim [] (check_end k) a.
Proof.
  intros Hk. split.
  - intros pre. unfold check_end, require_end, at_end. rewrite reader_ok_at_pos. cbn [negb br_offset br_data at_pos].
    rewrite app_nil_r, Z.eqb_refl. simpl. apply Hk.
  - intros pre p (q & Hq & He). symmetry in He. by apply app_nil in He as [_ ?].
Qed.

(** The reader of a decoder that starts by lowering the element limit. *)
Lemma document_decode {A} lim bs (m : ReaderM (Result A)) a : document lim bs m a ->
  (m (set_element_limit lim (reader_new bs))).1 = Value a /\
  forall p, strict_prefix p bs ->
    exists s, (m (set_element_limit lim (reader_new p))).1 = Refused s /\ status_code s = Code.Truncated.
Proof. intros [Hv Hp]. split; [exact (Hv [])|intros p Hq; exact (Hp [] p Hq)]. Qed.

(** ** Parts: readers that may refuse, inside a document *)

(** What a refusing reader does on a failed reader: it answers with the first
    failure, or passes the failed reader on untouched. *)
Class Tolerant {A} (m : ReaderM (Result A)) : Prop :=
  tolerant : forall r, reader_ok r = false ->
    (m r).1 = Refused (br_failure r) \/ ((m r).2 = r /\ exists a, (m r).1 = Value a).

Definition cut_short {A} (res : Result A * ByteReader) : Prop :=
  match res.1 with Refused s => status_code s = Code.Truncated | Value _ => truncated res.2 end.

(** [m] reads [bs] as [a], and notices a document that ends inside [bs]. *)
Record part {A} (lim : Z) (bs : list Z) (m : ReaderM (Result A)) (a : A) : Prop := {
  part_value : decodes lim bs m (Value a);
  part_prefix : forall pre p, strict_prefix p bs -> cut_short (m (at_pos lim (pre ++ p) (zlen pre)))
}.

#[export] Instance tolerant_closed {A} (m : ReaderM (Result A)) : FailClosed m -> Tolerant m.
Proof. intros H r Hr. left. by apply H. Qed.

#[export] Instance fail_closed_try {A B} (m : ReaderM (Result A)) (k : A -> ReaderM (Result B)) :
  Tolerant m -> (forall a, FailClosed (k a)) -> FailClosed (try_bind m k).
Proof.
  intros Hm Hk r Hr. unfold try_bind. destruct (Hm r Hr) as [H|[H [a Ha]]].
  - destruct (m r) as [x r']. cbn [fst] in H. by subst.
  - destruct (m r) as [x r']. cbn [fst snd] in *. subst. by apply Hk.
Qed.

#[export] Instance tolerant_list {A} minimum (read : ReaderM (Result A)) : Tolerant (try_list minimum read).
Proof.
  intros r Hr. right. unfold try_list, mbind, reader_bind. pose proof (sticky_count minimum r Hr) as Hs.
  assert (H0 : (list_count minimum r).1 = 0).
  { unfold list_count. pose proof (sticky_u32 r Hr) as H. destruct (read_u32 r) as [v r']. cbn [snd] in H. subst.
    by rewrite Hr. }
  destruct (list_count minimum r) as [n r']. cbn [fst snd] in *. subst. split; [done|]. by exists [].
Qed.

Lemma part_ret {A} lim (a : A) : part lim [] (mret (Value a)) a.
Proof.
  split; [apply decodes_ret|]. intros pre p (q & Hq & He). symmetry in He. by apply app_nil in He as [_ ?].
Qed.

Lemma part_ok {A} lim bs (m : ReaderM (Result A)) a : part lim bs m a -> part lim bs (check_ok m) a.
Proof. intros [Hd Hp]. by split. Qed.

Lemma part_bind {A B} lim (ok : A -> Prop) enc (read : ReaderM A) (k : A -> ReaderM (Result B)) x bs b :
  WireFormat lim ok enc read -> ok x -> (forall y, FailClosed (k y)) ->
  part lim bs (k x) b -> part lim (enc x ++ bs) (read ≫= k) b.
Proof.
  intros Hw Hx Hk [Hd Hp]. split; [eapply decodes_bind; [by apply Hw|done]|].
  intros pre p [Hq|(p2 & -> & Hq)]%strict_prefix_app; unfold mbind, reader_bind.
  - pose proof (wire_truncates x Hx pre p Hq) as Ht. destruct (read _) as [y r]. cbn [snd] in Ht.
    unfold cut_short. by rewrite (Hk y r (truncated_not_ok r Ht)).
  - rewrite (wire_decodes x Hx). specialize (Hp (pre ++ enc x) p2 Hq). by rewrite zlen_app, <- app_assoc in Hp.
Qed.

Lemma cut_short_try {A B} (m : ReaderM (Result A)) (k : A -> ReaderM (Result B)) r :
  cut_short (m r) -> (forall a, FailClosed (k a)) -> cut_short (try_bind m k r).
Proof.
  intros Hc Hk. unfold try_bind, cut_short in *. destruct (m r) as [[a|s] r']; cbn [fst snd] in *; [|done].
  by rewrite (Hk a r' (truncated_not_ok r' Hc)).
Qed.

Lemma part_try {A B} lim b1 b2 (m : ReaderM (Result A)) (k : A -> ReaderM (Result B)) a b :
  part lim b1 m a -> (forall y, FailClosed (k y)) -> part lim b2 (k a) b -> part lim (b1 ++ b2) (try_bind m k) b.
Proof.
  intros [Hd Hp] Hk [Kd Kp]. split.
  - intros pre post. unfold try_bind. rewrite <- app_assoc, Hd. specialize (Kd (pre ++ b1) post).
    rewrite zlen_app, <- app_assoc in Kd. rewrite Kd, zlen_app. by rewrite Z.add_assoc.
  - intros pre p [Hq|(p2 & -> & Hq)]%strict_prefix_app; [apply cut_short_try; [by apply Hp|done]|].
    unfold try_bind. rewrite Hd. specialize (Kp (pre ++ b1) p2 Hq). by rewrite zlen_app, <- app_assoc in Kp.
Qed.

Lemma document_try {A B} lim b1 b2 (m : ReaderM (Result A)) (k : A -> ReaderM (Result B)) a b :
  part lim b1 m a -> (forall y, FailClosed (k y)) -> document lim b2 (k a) b ->
  document lim (b1 ++ b2) (try_bind m k) b.
Proof.
  intros [Hd Hp] Hk [Kv Kp]. split.
  - intros pre. unfold try_bind. rewrite Hd. specialize (Kv (pre ++ b1)). by rewrite zlen_app, <- app_assoc in Kv.
  - intros pre p [Hq|(p2 & -> & Hq)]%strict_prefix_app; unfold try_bind.
    + specialize (Hp pre p Hq). unfold cut_short in Hp. destruct (m _) as [[y|s] r]; cbn [fst snd] in *.
      * exists (br_failure r). split; [by apply Hk, truncated_not_ok|done].
      * by exists s.
    + rewrite Hd. specialize (Kp (pre ++ b1) p2 Hq). by rewrite zlen_app, <- app_assoc in Kp.
Qed.

Section part_lists.
Context {A : Type} (lim : Z) (ok : A -> Prop) (enc : A -> list Z) (read : ReaderM (Result A)).
Context (Hpart : forall a, ok a -> part lim (enc a) read a) {Hclosed : FailClosed read}.
Context (minimum : Z) (Hmin : 0 < minimum) (Hlong : forall a, ok a -> minimum <= zlen (enc a)).

Lemma try_times_decodes l : Forall ok l ->
  decodes lim (concat (enc <$> l)) (try_times (length l) read) (Value l).
Proof.
  induction 1 as [|a l Ha Hl IH]; [apply decodes_ret|]. cbn [try_times length fmap list_fmap concat].
  intros pre post. unfold try_bind. rewrite <- app_assoc, (part_value _ _ _ _ (Hpart a Ha)).
  specialize (IH (pre ++ enc a) post). rewrite zlen_app, <- app_assoc in IH. rewrite IH.
  unfold mret, reader_ret. rewrite zlen_app. by rewrite Z.add_assoc.
Qed.

Lemma try_times_prefix l : Forall ok l -> forall pre p, strict_prefix p (concat (enc <$> l)) ->
  cut_short (try_times (length l) read (at_pos lim (pre ++ p) (zlen pre))).
Proof.
  induction 1 as [|a l Ha Hl IH]; intros pre p Hp.
  - destruct Hp as (q & Hq & He). symmetry in He. by apply app_nil in He as [_ ?].
  - cbn [try_times length fmap list_fmap concat] in *. apply strict_prefix_app in Hp as [Hp|(p2 & -> & Hp)].
    + pose proof (part_prefix _ _ _ _ (Hpart a Ha) pre p Hp) as Hc. unfold try_bind at 1.
      destruct (read _) as [[y|s] r]; [|done]. unfold cut_short in Hc. cbn [fst snd] in Hc.
      pose proof (truncated_not_ok r Hc) as Hr. destruct (length l) as [|n]; [exact Hc|]. cbn [try_times].
      unfold try_bind. pose proof (Hclosed r Hr) as Hfc. destruct (read r) as [x r']. cbn [fst] in Hfc. by subst.
    + unfold try_bind at 1. rewrite (part_value _ _ _ _ (Hpart a Ha)).
      specialize (IH (pre ++ enc a) p2 Hp). rewrite zlen_app, <- app_assoc in IH.
      unfold try_bind, cut_short in *. destruct (try_times _ _ _) as [[xs|s] r]; by cbn [fst snd] in *.
Qed.

Lemma part_list l : Forall ok l -> zlen l <= lim -> zlen l < two32 ->
  part lim (list_bytes enc l) (try_list minimum read) l.
Proof.
  intros Hok Hl H32. assert (Hlen : minimum * zlen l <= zlen (concat (enc <$> l))).
  { clear -Hok Hlong. induction Hok as [|a l Ha _ IH]; [cbn [fmap list_fmap concat]; autorewrite with zlen; lia|].
    cbn [fmap list_fmap concat]. rewrite zlen_cons, zlen_app. specialize (Hlong a Ha). lia. }
  pose proof (zlen_nonneg l) as Hn. split.
  - apply counted_decodes; try done. rewrite to_nat_zlen. by apply try_times_decodes.
  - unfold try_list, mbind, reader_bind, list_bytes. intros pre p [Hp|(p2 & -> & Hp)]%strict_prefix_app.
    + pose proof (wire_truncates (WireFormat := wire_u32 lim) (zlen l)
        ltac:(pose proof (zlen_nonneg l); ints_lia) pre p Hp) as Ht.
      unfold list_count. destruct (read_u32 _) as [v r]. cbn [snd] in Ht. by rewrite (truncated_not_ok r Ht).
    + rewrite list_count_at by (done || apply zlen_nonneg). destruct (_ <? _); [done|].
      pose proof (try_times_prefix l Hok (pre ++ le_bytes (zlen l) 4) p2 Hp) as H.
      rewrite zlen_app, <- app_assoc, zlen_le_bytes in H. by rewrite to_nat_zlen.
Qed.
End part_lists.

(** ** Canonical reading: a successful read determines the bytes it consumed *)

Definition in_bounds (r : ByteReader) : Prop := 0 <= br_offset r <= zlen (br_data r).
Definition bytes_from (offset : Z) (data : list Z) : list Z := drop (Z.to_nat offset) data.

(** The outcome of a read: the document is untouched, the position moves
    forward and stays inside it, and a successful read consumed exactly the
    encoding of its value. *)
Record reads_from {A} (ok : A -> Prop) (enc : A -> list Z) (r : ByteReader) (res : A * ByteReader) : Prop := {
  rf_data : br_data res.2 = br_data r;
  rf_limit : br_element_limit res.2 = br_element_limit r;
  rf_offset : br_offset r <= br_offset res.2 <= zlen (br_data r);
  rf_bytes : reader_ok res.2 = true ->
    ok res.1 /\ bytes_from (br_offset r) (br_data r) = enc res.1 ++ bytes_from (br_offset res.2) (br_data r)
}.

Definition reads_canonically {A} (ok : A -> Prop) (enc : A -> list Z) (m : ReaderM A) : Prop :=
  forall r, in_bounds r -> Forall in_u8 (br_data r) -> reads_from ok enc r (m r).

Lemma reads_failed {A} (ok : A -> Prop) enc r (a : A) r' : in_bounds r -> reader_ok r' = false ->
  br_data r' = br_data r -> br_element_limit r' = br_element_limit r -> br_offset r' = br_offset r ->
  reads_from ok enc r (a, r').
Proof. intros [? ?] Hr Hd Hl Ho. split; simpl; [done|done|lia|congruence]. Qed.

Lemma reader_fail_not_ok c m r : reader_ok (reader_fail c m r) = false.
Proof.
  unfold reader_fail. destruct (reader_ok r) eqn:E; simpl; [|done]. unfold reader_ok. simpl. apply failure_not_ok.
Qed.

Lemma reader_fail_fields c m r : br_data (reader_fail c m r) = br_data r /\
  br_element_limit (reader_fail c m r) = br_element_limit r /\ br_offset (reader_fail c m r) = br_offset r.
Proof. unfold reader_fail. by destruct (negb _). Qed.

(** An operation that reports a failure at a position reached by an earlier read. *)
Lemma reads_then_fail {A B} (ok : A -> Prop) enc (okb : B -> Prop) encb r (a : A) r' (b : B) c m :
  reads_from ok enc r (a, r') -> reads_from okb encb r (b, reader_fail c m r').
Proof.
  intros [H1 H2 H3 _]. destruct (reader_fail_fields c m r') as (E1 & E2 & E3). simpl in *.
  split; cbn [fst snd]; [congruence|congruence|by rewrite E3|]. by rewrite reader_fail_not_ok.
Qed.

Lemma reads_then_stop {A B} (ok : A -> Prop) enc (okb : B -> Prop) encb r (a : A) r' (b : B) :
  reads_from ok enc r (a, r') -> reader_ok r' = false -> reads_from okb encb r (b, r').
Proof. intros [H1 H2 H3 _] Hr. split; cbn [fst snd]; [done|done|done|congruence]. Qed.

Lemma reads_then {A B C} (oka : A -> Prop) enca (okb : B -> Prop) encb (okc : C -> Prop) encc r a r' (res : B * ByteReader) (c : C) :
  reads_from oka enca r (a, r') -> reads_from okb encb r' res ->
  (reader_ok r' = true -> oka a -> reader_ok res.2 = true -> okb res.1 -> okc c /\ encc c = enca a ++ encb res.1) ->
  (reader_ok r' = false -> res.2 = r') ->
  reads_from okc encc r (c, res.2).
Proof.
  intros [H1 H2 H3 H4] [G1 G2 G3 G4] Hc Hs. cbn [fst snd] in *.
  split; cbn [fst snd]; [congruence|congruence|rewrite H1 in G3; lia|].
  intros Hok. destruct (reader_ok r') eqn:E.
  - destruct (H4 eq_refl) as [Ha Hb]. destruct (G4 Hok) as [Hb' Hd]. rewrite H1 in Hd.
    destruct (Hc eq_refl Ha Hok Hb') as [Hokc ->]. split; [done|]. by rewrite Hb, Hd, app_assoc.
  - rewrite (Hs eq_refl) in Hok. congruence.
Qed.

Lemma reads_bounds {A} (ok : A -> Prop) enc r (a : A) r' :
  reads_from ok enc r (a, r') -> in_bounds r -> Forall in_u8 (br_data r) ->
  in_bounds r' /\ Forall in_u8 (br_data r').
Proof. intros [H1 _ H3 _] [? ?] Hb. simpl in *. unfold in_bounds. rewrite H1. split; [lia|done]. Qed.

Lemma canonical_span {A} (ok : A -> Prop) enc (zero : A) count parse : 0 <= count ->
  (forall bs, Forall in_u8 bs -> zlen bs = count -> ok (parse bs) /\ enc (parse bs) = bs) ->
  reads_canonically ok enc (read_span zero count parse).
Proof.
  intros Hc Hp r Hb Hu. unfold read_span, ensure. destruct (reader_ok r) eqn:Hr; cbn [negb].
  2: { by apply reads_failed. }
  destruct (remaining r <? count) eqn:E.
  { destruct (reader_fail_fields Code.Truncated "read past the end of the canonical document" r) as (? & ? & ?).
    apply reads_failed; [done|apply reader_fail_not_ok|done..]. }
  bool_prop. unfold remaining in E. destruct Hb as [H0 H1]. split; simpl; [done|done|lia|]. intros _.
  assert (Hlen : zlen (peek count r) = count).
  { unfold peek, zlen in *. rewrite length_take, length_drop. lia. }
  destruct (Hp (peek count r)) as [Hok Henc]; [|done|].
  { by apply Forall_take, Forall_drop. }
  split; [done|]. rewrite Henc. unfold bytes_from, peek.
  rewrite Z2Nat.inj_add by lia. rewrite <- drop_drop. symmetry. apply take_drop.
Qed.

Lemma canonical_u8 : reads_canonically in_u8 (fun v => [v]) read_u8.
Proof.
  apply canonical_span; [lia|]. intros [|b [|c bs]] Hb Hl; try done.
  - simpl. split; [by inversion Hb|done].
  - rewrite !zlen_cons in Hl. pose proof (zlen_nonneg bs). lia.
Qed.

Lemma canonical_le width wrap (inw : Z -> Prop) : (width <= 8)%nat ->
  (forall v, 0 <= v < 256 ^ Z.of_nat width -> inw v /\ wrap v = v) ->
  reads_canonically inw (fun v => le_bytes v width) (read_span 0 (Z.of_nat width) (fun b => wrap (load_le b))).
Proof.
  intros Hw Hin. apply canonical_span; [lia|]. intros bs Hb Hl.
  rewrite load_le_value by (done || lia). pose proof (le_value_range bs Hb) as Hr. rewrite Hl in Hr.
  destruct (Hin _ Hr) as [Hi ->]. split; [done|].
  replace width with (length bs) by (unfold zlen in Hl; lia). by apply le_bytes_le_value.
Qed.

Lemma canonical_u16 : reads_canonically in_u16 (fun v => le_bytes v 2) read_u16.
Proof.
  apply (canonical_le 2 wrap16 in_u16); [lia|]. intros v Hv. split; [ints_lia|]. ints. by apply Z.mod_small.
Qed.

Lemma canonical_u32 : reads_canonically in_u32 (fun v => le_bytes v 4) read_u32.
Proof.
  apply (canonical_le 4 wrap32 in_u32); [lia|]. intros v Hv. split; [ints_lia|]. ints. by apply Z.mod_small.
Qed.

Lemma canonical_u64 : reads_canonically in_u64 (fun v => le_bytes v 8) read_u64.
Proof. apply (canonical_le 8 id in_u64); [lia|]. intros v Hv. split; [ints_lia|done]. Qed.

Lemma canonical_boolean :
  reads_canonically (fun _ => True) (fun b : bool => [if b then 1 else 0]) read_boolean.
Proof.
  intros r Hb Hu. unfold read_boolean. pose proof (canonical_u8 r Hb Hu) as H.
  destruct (read_u8 r) as [v r'] eqn:E. destruct (reader_ok r') eqn:Hr; cbn [negb].
  2: { by eapply reads_then_stop. }
  destruct (1 <? v) eqn:Ev; [by eapply reads_then_fail|]. destruct H as [H1 H2 H3 H4]. cbn [fst snd] in *.
  split; cbn [fst snd]; [done|done|done|]. intros _. destruct (H4 Hr) as [Hv ->]. split; [done|].
  bool_prop. do 2 f_equal. destruct (v =? 1) eqn:E1; bool_prop; ints_lia.
Qed.

Lemma canonical_prefixed {A} lim (zero : A) message (parse : list Z -> A) (bytes : A -> list Z) :
  (forall bs, Forall in_u8 bs -> bytes (parse bs) = bs) ->
  forall r, in_bounds r -> Forall in_u8 (br_data r) -> br_element_limit r = lim ->
    reads_from (fun a => short lim (bytes a)) (fun a => prefixed (bytes a)) r (read_prefixed zero message parse r).
Proof.
  intros Hinv r Hb Hu Hlim. unfold read_prefixed. pose proof (canonical_u32 r Hb Hu) as H.
  destruct (read_u32 r) as [n r'] eqn:E. destruct (reader_ok r') eqn:Hr; cbn [negb].
  2: { by eapply reads_then_stop. }
  destruct (br_element_limit r' <? n) eqn:El; [by eapply reads_then_fail|].
  pose proof (rf_limit _ _ _ _ H) as Hl. cbn [snd] in Hl. destruct (reads_bounds _ _ _ _ _ H Hb Hu) as [Hb' Hu'].
  assert (Hn : 0 <= n) by (destruct (rf_bytes _ _ _ _ H Hr) as [Hn _]; simpl in Hn; ints_lia).
  assert (G : reads_from (fun a => zlen (bytes a) = n) bytes r' (read_span zero n parse r')).
  { apply canonical_span; [done| |done|done]. intros bs Hbs Hlen. by rewrite Hinv. }
  pose proof (sticky_span zero n parse r') as Hst.
  destruct (read_span zero n parse r') as [a r''] eqn:Es.
  apply (reads_then _ _ _ _ _ _ _ _ _ (a, r'') a H G); [|by intros ?%Hst].
  cbn [fst snd]. intros _ Hn32 _ Hlen. unfold short, prefixed. rewrite Hlen. bool_prop. ints. split; [lia|done].
Qed.

(** * Documents of fields *)

(** A field of a document, its kind, and how it is written and read. *)
Inductive FieldKind := KU8 | KU16 | KU32 | KU64 | KBool | KBlob | KString.

Inductive Field :=
| FU8 (v : Z) | FU16 (v : Z) | FU32 (v : Z) | FU64 (v : Z)
| FBool (b : bool) | FBlob (bs : list Z) | FString (s : string).

Definition field_kind (f : Field) : FieldKind :=
  match f with
  | FU8 _ => KU8 | FU16 _ => KU16 | FU32 _ => KU32 | FU64 _ => KU64
  | FBool _ => KBool | FBlob _ => KBlob | FString _ => KString
  end.

Definition write_field (f : Field) : WriterM :=
  match f with
  | FU8 v => write_u8 v | FU16 v => write_u16 v | FU32 v => write_u32 v | FU64 v => write_u64 v
  | FBool b => write_boolean b | FBlob bs => write_blob bs | FString s => write_string s
  end.

Definition read_field (k : FieldKind) : ReaderM Field :=
  match k with
  | KU8 => v ← read_u8; mret (FU8 v)
  | KU16 => v ← read_u16; mret (FU16 v)
  | KU32 => v ← read_u32; mret (FU32 v)
  | KU64 => v ← read_u64; mret (FU64 v)
  | KBool => b ← read_boolean; mret (FBool b)
  | KBlob => bs ← read_blob; mret (FBlob bs)
  | KString => s ← read_string; mret (FString s)
  end.

Definition field_ok (lim : Z) (f : Field) : Prop :=
  match f with
  | FU8 v => in_u8 v | FU16 v => in_u16 v | FU32 v => in_u32 v | FU64 v => in_u64 v
  | FBool _ => True | FBlob bs => short lim bs | FString s => short lim (string_bytes s)
  end.

Definition field_bytes (f : Field) : list Z :=
  match f with
  | FU8 v => [v] | FU16 v => le_bytes v 2 | FU32 v => le_bytes v 4 | FU64 v => le_bytes v 8
  | FBool b => [if b then 1 else 0] | FBlob bs => prefixed bs | FString s => prefixed (string_bytes s)
  end.

Definition document_bytes (fs : list Field) : list Z := concat (field_bytes <$> fs).

(** Write the fields one after the other, ignoring every status. *)
Definition write_fields (fs : list Field) (w : ByteWriter) : ByteWriter :=
  foldl (fun w f => (write_field f w).2) w fs.

Fixpoint read_fields (ks : list FieldKind) : ReaderM (list Field) :=
  match ks with
  | [] => mret []
  | k :: ks => f ← read_field k; fs ← read_fields ks; mret (f :: fs)
  end.

Lemma exact_field lim f : field_ok lim f -> exact_writes (write_field f) (field_bytes f).
Proof.
  destruct f as [v|v|v|v|b|bs|s]; simpl; try (intros _; apply exact_all).
  - intros [_ H]. unfold write_blob. rewrite checked_count_small by done. apply exact_guarded; apply exact_all.
  - intros [_ H]. apply exact_string. by rewrite <- length_string_bytes.
Qed.

#[export] Instance wire_field lim k :
  WireFormat lim (fun f => field_ok lim f /\ field_kind f = k) field_bytes (read_field k).
Proof.
  destruct k; (eapply wire_map; [apply _|]); intros f [Hok Hk]; destruct f; try discriminate Hk; eauto.
Qed.

Lemma canonical_map {A B} (ok : A -> Prop) enc (read : ReaderM A) (f : A -> B) (okb : B -> Prop) encb r :
  reads_from ok enc r (read r) -> (forall a, ok a -> okb (f a) /\ encb (f a) = enc a) ->
  reads_from okb encb r ((read ≫= fun a => mret (f a)) r).
Proof.
  intros H Hf. unfold mbind, reader_bind. destruct (read r) as [a r']. destruct H as [H1 H2 H3 H4].
  split; cbn [fst snd mret reader_ret] in *; [done|done|done|]. intros Hr. destruct (H4 Hr) as [Ha ->].
  destruct (Hf a Ha) as [? ->]. done.
Qed.

Lemma string_bytes_u8 s : Forall in_u8 (string_bytes s).
Proof.
  induction s as [|a s IH]; [constructor|]. simpl. constructor; [|done].
  pose proof (Ascii.N_ascii_bounded a). ints_lia.
Qed.

Lemma string_bytes_string bs : Forall in_u8 bs -> string_bytes (bytes_string bs) = bs.
Proof.
  induction 1 as [|b bs Hb _ IH]; [done|]. simpl. rewrite IH, Ascii.N_ascii_embedding by ints_lia.
  f_equal. ints_lia.
Qed.

Lemma canonical_field lim k r : in_bounds r -> Forall in_u8 (br_data r) -> br_element_limit r = lim ->
  reads_from (fun f => field_ok lim f /\ field_kind f = k) field_bytes r (read_field k r).
Proof.
  intros Hb Hu Hl. destruct k; simpl.
  1: eapply canonical_map; [by apply canonical_u8|].
  2: eapply canonical_map; [by apply canonical_u16|].
  3: eapply canonical_map; [by apply canonical_u32|].
  4: eapply canonical_map; [by apply canonical_u64|].
  5: eapply canonical_map; [by apply canonical_boolean|].
  6: eapply canonical_map; [by apply (canonical_prefixed lim [] _ id id)|].
  7: eapply canonical_map; [apply (canonical_prefixed lim EmptyString _ bytes_string string_bytes);
       [apply string_bytes_string|done..]|].
  all: intros a Ha; split; [split|]; done.
Qed.

#[export] Instance sticky_field k : Sticky (read_field k).
Proof. destruct k; simpl; apply _. Qed.

#[export] Instance sticky_fields ks : Sticky (read_fields ks).
Proof. induction ks; simpl; apply _. Qed.

(** Lists of fields form a wire format: the document format of their kinds. *)
#[export] Instance wire_fields lim ks : WireFormat lim
  (fun fs => Forall (field_ok lim) fs /\ field_kind <$> fs = ks) document_bytes (read_fields ks).
Proof.
  induction ks as [|k ks IH]; split; try apply _; intros fs [Hok Hk]; destruct fs as [|f fs]; try discriminate Hk.
  - apply decodes_ret.
  - apply truncates_nil.
  - injection Hk as Hk Hks. inversion_clear Hok.
    change (document_bytes (f :: fs)) with (field_bytes f ++ document_bytes fs). cbn [read_fields].
    eapply decodes_bind; [by apply wire_field|].
    rewrite <- (app_nil_r (document_bytes fs)). eapply decodes_bind; [by apply IH|apply decodes_ret].
  - injection Hk as Hk Hks. inversion_clear Hok.
    change (document_bytes (f :: fs)) with (field_bytes f ++ document_bytes fs). cbn [read_fields].
    eapply truncates_bind; [by apply wire_field|by apply wire_field|apply _|].
    rewrite <- (app_nil_r (document_bytes fs)). eapply truncates_bind; [by apply IH|by apply IH|apply _|apply truncates_nil].
Qed.

Lemma canonical_fields lim ks r : in_bounds r -> Forall in_u8 (br_data r) -> br_element_limit r = lim ->
  reads_from (fun fs => Forall (field_ok lim) fs /\ field_kind <$> fs = ks) document_bytes r (read_fields ks r).
Proof.
  revert r. induction ks as [|k ks IH]; intros r Hb Hu Hl; simpl.
  - unfold mret, reader_ret. destruct Hb. split; simpl; [done|done|lia|done].
  - unfold mbind, reader_bind. pose proof (canonical_field lim k r Hb Hu Hl) as H.
    destruct (read_field k r) as [f r'] eqn:E. destruct (reads_bounds _ _ _ _ _ H Hb Hu) as [Hb' Hu'].
    pose proof (rf_limit _ _ _ _ H) as Hl'. cbn [snd] in Hl'.
    pose proof (IH r' Hb' Hu' ltac:(congruence)) as G. pose proof (sticky_fields ks r') as Hs.
    destruct (read_fields ks r') as [fs r''] eqn:Es.
    apply (reads_then _ _ _ _ _ _ _ _ _ (fs, r'') (f :: fs) H G); [|by intros ?%Hs].
    cbn [fst snd]. intros _ [Hf <-] _ [Hfs <-]. split; [split; [by constructor|done]|done].
Qed.

Lemma write_fields_sticky lim fs w : Forall (field_ok lim) fs ->
  bw_failed w = true -> status_ok (bw_failure w) = false -> write_fields fs w = w.
Proof.
  intros Hok Hf Hs. induction Hok as [|f fs Hf' _ IH]; [done|]. simpl.
  by rewrite (proj1 (ew_sticky _ _ (exact_field lim f Hf') w Hf Hs)).
Qed.

(** Writing fields into a healthy writer. *)
Lemma write_fields_spec lim fs w : Forall (field_ok lim) fs ->
  bw_failed w = false -> zlen (bw_bytes w) <= bw_limit w ->
  let w' := write_fields fs w in
  writer_extends w w' /\
  if zlen (bw_bytes w) + zlen (document_bytes fs) <=? bw_limit w
  then bw_failed w' = false /\ bw_bytes w' = bw_bytes w ++ document_bytes fs
  else bw_failed w' = true /\ status_code (bw_failure w') = Code.Exhausted.
Proof.
  intros Hok. revert w. induction Hok as [|f fs Hf Hfs IH]; intros w Hw Hb; simpl.
  - change (document_bytes []) with (@nil Z). rewrite zlen_nil, Z.add_0_r, (proj2 (Z.leb_le _ _) Hb), app_nil_r.
    split; [by split|done].
  - change (document_bytes (f :: fs)) with (field_bytes f ++ document_bytes fs). rewrite zlen_app.
    pose proof (exact_field lim f Hf) as He. pose proof (zlen_nonneg (document_bytes fs)).
    fold (write_fields fs (write_field f w).2).
    destruct (Z.le_gt_cases (zlen (bw_bytes w) + zlen (field_bytes f)) (bw_limit w)) as [Hx|Hx].
    + destruct (writes_extends _ _ _ (ew_fits _ _ He) Hw Hx) as (_ & Hext & Hf' & Hl).
      destruct (IH _ Hf' ltac:(destruct Hext; lia)) as [IH1 IH2].
      split; [by eapply writer_extends_trans|]. rewrite (we_limit _ _ Hext), Hl, zlen_app in IH2.
      rewrite Z.add_assoc. destruct (_ <=? _); [|done]. destruct IH2 as [? IH2]. split; [done|].
      by rewrite IH2, app_assoc.
    + pose proof (ew_overflows _ _ He w Hw Hb ltac:(lia)) as Ho. rewrite (proj2 (Z.leb_gt _ _)) by lia.
      rewrite (write_fields_sticky lim) by (done || apply Ho || by eapply overflows_not_ok). destruct Ho. done.
Qed.

(** ** Properties *)

(** The writer fails closed at its limit. Whatever sequence of fields is
    written, and although the callers ignore every returned status, the
    document never exceeds the limit and never loses what was already in it; it
    is complete, exactly the concatenated field encodings, when they fit, and
    otherwise the writer is left failed with Exhausted. *)
Theorem writer_fails_closed lim fs w :
  Forall (field_ok lim) fs -> bw_failed w = false -> zlen (bw_bytes w) <= bw_limit w ->
  writer_extends w (write_fields fs w) /\
  if zlen (bw_bytes w) + zlen (document_bytes fs) <=? bw_limit w
  then overflowed (write_fields fs w) = false /\
       bw_bytes (write_fields fs w) = bw_bytes w ++ document_bytes fs
  else overflowed (write_fields fs w) = true /\
       status_code (bw_failure (write_fields fs w)) = Code.Exhausted.
Proof. apply write_fields_spec. Qed.

Lemma writer_fails_closed_witness :
  overflowed (write_fields [FU64 7; FString "abc"] (set_limit 10 writer_new)) = true.
Proof.
  refine (proj1 (proj2 (writer_fails_closed 100 [FU64 7; FString "abc"] (set_limit 10 writer_new) _ _ _)));
    [repeat constructor; vm_compute; congruence|reflexivity|vm_compute; congruence].
Defined.

(** What the writer produced the reader reads back: a document of any
    sequence of fields that fits the writer limit is decoded to the same
    fields by the reads of their kinds, with nothing left over; a document cut
    anywhere inside is refused as Truncated. *)
Theorem document_roundtrip fs :
  Forall (field_ok (Z.shiftl 1 24)) fs -> zlen (document_bytes fs) <= Z.shiftl 1 30 ->
  let data := bw_bytes (write_fields fs writer_new) in
  let '(fs', r) := read_fields (field_kind <$> fs) (reader_new data) in
  fs' = fs /\ (require_end r).1 = success /\
  forall p, strict_prefix p data -> truncated (read_fields (field_kind <$> fs) (reader_new p)).2.
Proof.
  intros Hok Hn. destruct (write_fields_spec _ fs writer_new Hok eq_refl) as [_ H]; [done|].
  change (zlen (bw_bytes writer_new)) with 0 in H. rewrite Z.add_0_l in H.
  rewrite (proj2 (Z.leb_le _ _)) in H by done. destruct H as [_ ->]. cbn zeta.
  change (bw_bytes writer_new ++ document_bytes fs) with (document_bytes fs).
  pose proof (wire_decodes (WireFormat := wire_fields (Z.shiftl 1 24) (field_kind <$> fs)) fs
                (conj Hok eq_refl) [] []) as Hd. rewrite app_nil_r in Hd.
  change (reader_new (document_bytes fs)) with (at_pos (Z.shiftl 1 24) ([] ++ document_bytes fs) (zlen (@nil Z))).
  rewrite Hd. split; [done|]. split.
  - unfold require_end, at_end. rewrite reader_ok_at_pos. cbn [negb br_offset br_data at_pos app].
    by rewrite zlen_nil, Z.add_0_l, Z.eqb_refl.
  - intros p Hp. by apply (wire_truncates (WireFormat := wire_fields (Z.shiftl 1 24) (field_kind <$> fs)) fs
                             (conj Hok eq_refl) [] p).
Qed.

Definition sample_fields : list Field := [FU8 1; FU16 515; FBool true; FString "port"; FBlob [9; 8]; FU64 77].

Lemma document_roundtrip_witness :
  (read_fields (field_kind <$> sample_fields)
     (reader_new (bw_bytes (write_fields sample_fields writer_new)))).1 = sample_fields.
Proof.
  pose proof (document_roundtrip sample_fields ltac:(repeat constructor; vm_compute; congruence)
                ltac:(vm_compute; congruence)) as H.
  cbn zeta in H. destruct (read_fields _ _) as [fs r] in H |- *. exact (proj1 H).
Defined.

(** Reading is total and canonical: on any bytes and for any sequence of
    field kinds the reader stays inside the document, a failed reader never
    changes again, and a read that succeeds returns well-formed fields of the
    requested kinds whose encoding is exactly the bytes consumed; so a
    document accepted to its end has only one reading and re-encodes to itself. *)
Theorem reader_total_and_canonical ks r :
  in_bounds r -> Forall in_u8 (br_data r) ->
  let '(fs, r') := read_fields ks r in
  in_bounds r' /\ br_data r' = br_data r /\ (reader_ok r = false -> r' = r) /\
  (reader_ok r' = true -> Forall (field_ok (br_element_limit r)) fs /\ field_kind <$> fs = ks /\
     bytes_from (br_offset r) (br_data r) = document_bytes fs ++ bytes_from (br_offset r') (br_data r)) /\
  ((require_end r').1 = success -> bytes_from (br_offset r) (br_data r) = document_bytes fs).
Proof.
  intros Hb Hu. pose proof (canonical_fields _ ks r Hb Hu eq_refl) as H. pose proof (sticky_fields ks r) as Hs.
  destruct (read_fields ks r) as [fs r'] eqn:E. destruct (reads_bounds _ _ _ _ _ H Hb Hu) as [Hb' _].
  destruct H as [H1 H2 H3 H4]. cbn [fst snd] in *. split; [done|]. split; [done|]. split; [done|]. split.
  - intros Hr. destruct (H4 Hr) as [[? ?] ?]. done.
  - unfold require_end. destruct (reader_ok r') eqn:Hr; cbn [negb].
    2: { cbn [fst]. intros He. unfold reader_ok in Hr. by rewrite He in Hr. }
    destruct (at_end r') eqn:Ha; cbn [negb].
    2: { cbn [fst]. intros He. pose proof (reader_fail_not_ok Code.Invalid
           "trailing bytes after the canonical document" r') as Hn. unfold reader_ok in Hn. by rewrite He in Hn. }
    intros _. destruct (H4 eq_refl) as [_ ->]. unfold at_end in Ha. bool_prop. rewrite Ha, H1.
    unfold bytes_from, zlen. by rewrite Nat2Z.id, drop_all, app_nil_r.
Qed.

Lemma reader_total_and_canonical_witness :
  Forall (field_ok (Z.shiftl 1 24)) [FU16 515; FBool true].
Proof.
  pose proof (reader_total_and_canonical [KU16; KBool] (reader_new [3; 2; 1])
                ltac:(split; vm_compute; congruence) ltac:(repeat constructor; vm_compute; congruence)) as H.
  exact (proj1 (proj1 (proj2 (proj2 (proj2 H))) eq_refl)).
Defined.
