(* ===== verification/Integrity.v ===== *)
(** Integrity primitives (include/sff/codec/integrity.hpp,
    src/codec/integrity.cpp): the table-driven CRC-32 used for frames and
    durable records, byte-range digests and hexadecimal rendering. *)

From S2P Require Import Prelude Containers Core Bytes.

(** * Definitions *)

Definition kCrcPolynomial : Z := 0xEDB88320.

(** One of the eight inner steps that compute a table entry. *)
Definition crc_table_step (value : Z) : Z :=
  if negb (Z.land value 1 =? 0) then Z.lxor kCrcPolynomial (Z.shiftr value 1)
  else Z.shiftr value 1.

Definition crc_table_entry (index : Z) : Z := Nat.iter 8 crc_table_step index.

Definition make_crc_table : list Z := (fun i => crc_table_entry (Z.of_nat i)) <$> seq 0 256.

(** A [constexpr] table: evaluated once. *)
Definition kCrcTable : list Z := Eval vm_compute in make_crc_table.

(** [~x] on 32 bits. *)
Definition not32 (x : Z) : Z := Z.lxor x 0xffffffff.

Definition crc_index (crc byte : Z) : Z := Z.land (Z.lxor crc byte) 0xff.

Definition crc_step (crc byte : Z) : Z :=
  Z.lxor (default 0 (kCrcTable !! Z.to_nat (crc_index crc byte))) (Z.shiftr crc 8).

Definition crc_bytes (bytes : list Z) (crc : Z) : Z := foldl crc_step crc bytes.

(** [crc32_ieee(data, size, seed)]; the default seed is 0. *)
Definition crc32_seeded (seed : Z) (bytes : list Z) : Z := not32 (crc_bytes bytes (not32 seed)).

Definition crc32_ieee (bytes : list Z) : Z := crc32_seeded 0 bytes.

Definition digest128_of (bytes : list Z) : Digest128 := absorb_bytes bytes digest_init.

Definition to_hex (value width : Z) : string :=
  let bounded_width := if width <=? 0 then 16 else if 16 <? width then 16 else width in
  hex_digits value (Z.to_nat bounded_width).

(** The check value of CRC-32/ISO-HDLC: the CRC of the digits 1 to 9. *)
Example crc_check_value : crc32_ieee (string_bytes "123456789") = 0xCBF43926.
Proof. vm_compute. reflexivity. Qed.

Example to_hex_sample : to_hex 0xBEEF 6 = "00beef"%string.
Proof. reflexivity. Qed.

(** * Facts about the table *)

(** The constant evaluated above is the table the code computes. *)
Lemma kCrcTable_eq : kCrcTable = make_crc_table.
Proof. vm_compute. reflexivity. Qed.

(** Every entry is a 32-bit value, and distinct entries have distinct high bytes. *)
Definition table_ok : bool :=
  forallb (fun v => (0 <=? v) && (v <? two32)) kCrcTable &&
  bool_decide (NoDup ((fun v => Z.shiftr v 24) <$> kCrcTable)).

Lemma table_ok_true : table_ok = true.
Proof. vm_compute. reflexivity. Qed.

Lemma length_kCrcTable : length kCrcTable = 256%nat.
Proof. reflexivity. Qed.

Lemma crc_index_range crc b : in_u8 (crc_index crc b).
Proof. unfold crc_index. rewrite land_255. ints. apply Z.mod_pos_bound. lia. Qed.

Lemma crc_entry_lookup i : in_u8 i ->
  exists v, kCrcTable !! Z.to_nat i = Some v /\ in_u32 v.
Proof.
  intros Hi. destruct (lookup_lt_is_Some_2 kCrcTable (Z.to_nat i)) as [v Hv].
  { rewrite length_kCrcTable. ints_lia. }
  exists v. split; [done|]. pose proof table_ok_true as Ht. unfold table_ok in Ht.
  apply andb_true_iff in Ht as [Ht _]. rewrite forallb_forall in Ht.
  specialize (Ht v). rewrite <- list_elem_of_In in Ht. apply list_elem_of_lookup_2 in Hv.
  specialize (Ht Hv). bool_prop. ints_lia.
Qed.

Lemma crc_entry_high_inj i j v w : in_u8 i -> in_u8 j ->
  kCrcTable !! Z.to_nat i = Some v -> kCrcTable !! Z.to_nat j = Some w ->
  Z.shiftr v 24 = Z.shiftr w 24 -> i = j.
Proof.
  intros Hi Hj Hv Hw He. pose proof table_ok_true as Ht. unfold table_ok in Ht.
  apply andb_true_iff in Ht as [_ Ht]. apply bool_decide_eq_true in Ht.
  assert (Z.to_nat i = Z.to_nat j); [|ints_lia].
  apply (proj1 (NoDup_alt _) Ht _ _ (Z.shiftr v 24)).
  - rewrite list_lookup_fmap, Hv. done.
  - rewrite list_lookup_fmap, Hw. simpl. by rewrite He.
Qed.

(** * The step of the checksum *)

Lemma lxor_u32 a b : in_u32 a -> in_u32 b -> in_u32 (Z.lxor a b).
Proof.
  intros Ha Hb. unfold in_u32. change two32 with (2 ^ 32) in *.
  assert (H0 : 0 <= Z.lxor a b) by (apply Z.lxor_nonneg; ints_lia). split; [done|].
  assert (He : Z.lxor a b = Z.lxor a b mod 2 ^ 32); [|rewrite He; apply Z.mod_pos_bound; lia].
  apply Z.bits_inj'. intros n Hn. destruct (Z.lt_ge_cases n 32).
  - by rewrite Z.mod_pow2_bits_low by lia.
  - rewrite Z.mod_pow2_bits_high, Z.lxor_spec by lia.
    rewrite <- (Z.mod_small a (2 ^ 32)), <- (Z.mod_small b (2 ^ 32)) by ints_lia.
    by rewrite !Z.mod_pow2_bits_high by lia.
Qed.

Lemma shiftr_u32 a n : 0 <= n -> in_u32 a -> in_u32 (Z.shiftr a n).
Proof.
  intros Hn Ha. ints. rewrite Z.shiftr_div_pow2 by lia. pose proof (Z.pow_pos_nonneg 2 n). split.
  - apply Z.div_pos; lia.
  - apply Z.div_lt_upper_bound; nia.
Qed.

Lemma crc_step_u32 crc b : in_u32 crc -> in_u32 (crc_step crc b).
Proof.
  intros Hc. unfold crc_step. destruct (crc_entry_lookup _ (crc_index_range crc b)) as (v & -> & Hv).
  apply lxor_u32; [done|]. by apply shiftr_u32.
Qed.

(** The next byte enters the low byte of the register. *)
Lemma crc_step_byte crc b : in_u8 b -> crc_step crc b = crc_step (Z.lxor crc b) 0.
Proof.
  intros Hb. unfold crc_step, crc_index. rewrite Z.lxor_0_r, Z.shiftr_lxor, (shiftr_8 b).
  rewrite (Z.div_small b 256) by ints_lia. by rewrite Z.lxor_0_r.
Qed.

(** A step shifts: what is above the low byte comes out of the step unchanged. *)
Lemma crc_step_high crc v : crc_step (Z.lxor crc (Z.shiftl v 8)) 0 = Z.lxor (crc_step crc 0) v.
Proof.
  unfold crc_step, crc_index. rewrite !Z.lxor_0_r, Z.shiftr_lxor, Z.shiftr_shiftl_l by lia.
  rewrite Z.sub_diag, Z.shiftl_0_r. rewrite <- Z.lxor_assoc. do 4 f_equal.
  rewrite !land_255, <- !Z.land_ones with (n := 8) by lia. f_equal. apply Z.bits_inj'. intros n Hn.
  rewrite !Z.land_spec, Z.lxor_spec. destruct (Z.lt_ge_cases n 8).
  - by rewrite Z.shiftl_spec_low, xorb_false_r by lia.
  - by rewrite Z.ones_spec_high, !andb_false_r by lia.
Qed.

Lemma shiftr_32 a : in_u32 a -> Z.shiftr a 32 = 0.
Proof. intros Ha. rewrite Z.shiftr_div_pow2 by lia. apply Z.div_small. ints_lia. Qed.

Lemma lxor_cancel_l a b c : Z.lxor a b = Z.lxor a c -> b = c.
Proof.
  intros H. rewrite <- (Z.lxor_0_l b), <- (Z.lxor_0_l c), <- (Z.lxor_nilpotent a), !Z.lxor_assoc. by rewrite H.
Qed.

Lemma lxor_cancel_r a b c : Z.lxor b a = Z.lxor c a -> b = c.
Proof. rewrite !(Z.lxor_comm _ a). apply lxor_cancel_l. Qed.

Lemma crc_step_zero_inj a b : in_u32 a -> in_u32 b -> crc_step a 0 = crc_step b 0 -> a = b.
Proof.
  intros Ha Hb H. unfold crc_step in H.
  destruct (crc_entry_lookup _ (crc_index_range a 0)) as (v & Hv & Hvr).
  destruct (crc_entry_lookup _ (crc_index_range b 0)) as (w & Hw & Hwr). rewrite Hv, Hw in H. simpl in H.
  assert (Hi : crc_index a 0 = crc_index b 0).
  { eapply crc_entry_high_inj; [apply crc_index_range..|exact Hv|exact Hw|].
    apply (f_equal (fun x => Z.shiftr x 24)) in H. rewrite !Z.shiftr_lxor, !Z.shiftr_shiftr in H by lia.
    change (8 + 24) with 32 in H. by rewrite !shiftr_32, !Z.lxor_0_r in H by done. }
  rewrite Hi, Hw in Hv. injection Hv as ->. apply lxor_cancel_l in H.
  unfold crc_index in Hi. rewrite !Z.lxor_0_r, !land_255 in Hi. rewrite !shiftr_8 in H.
  rewrite (Z.div_mod a 256), (Z.div_mod b 256) by lia. congruence.
Qed.

Lemma byte_u32 b : in_u8 b -> in_u32 b.
Proof. ints_lia. Qed.

(** The register after a byte determines the register before it. *)
Lemma crc_step_inj a b c : in_u32 a -> in_u32 b -> in_u8 c -> crc_step a c = crc_step b c -> a = b.
Proof.
  intros Ha Hb Hc. rewrite !(crc_step_byte _ c) by done. intros H%crc_step_zero_inj.
  - by apply lxor_cancel_r in H.
  - by apply lxor_u32, byte_u32.
  - by apply lxor_u32, byte_u32.
Qed.

Lemma crc_bytes_u32 bs crc : in_u32 crc -> in_u32 (crc_bytes bs crc).
Proof. revert crc. induction bs as [|b bs IH]; intros crc Hc; [done|]. by apply IH, crc_step_u32. Qed.

Lemma crc_bytes_inj bs a b : Forall in_u8 bs -> in_u32 a -> in_u32 b ->
  crc_bytes bs a = crc_bytes bs b -> a = b.
Proof.
  intros Hbs. revert a b. induction Hbs as [|c bs Hc _ IH]; intros a b Ha Hb H; [done|].
  eapply crc_step_inj; [done|done|exact Hc|]. apply IH; [by apply crc_step_u32..|exact H].
Qed.

Lemma crc_bytes_app l k crc : crc_bytes (l ++ k) crc = crc_bytes k (crc_bytes l crc).
Proof. apply foldl_app. Qed.

(** * Error detection *)

Lemma add_shift_lxor b v : in_u8 b -> 0 <= v -> b + 256 * v = Z.lxor b (Z.shiftl v 8).
Proof.
  intros Hb Hv. rewrite <- Z.add_nocarry_lxor by (apply land_shift_disjoint; ints_lia).
  rewrite Z.shiftl_mul_pow2 by lia. lia.
Qed.

(** Feeding bytes is feeding zeros into a register with their little-endian
    value added to it (without carry). *)
Lemma crc_bytes_value l crc : Forall in_u8 l ->
  crc_bytes l crc = Nat.iter (length l) (fun r => crc_step r 0) (Z.lxor crc (le_value l)).
Proof.
  intros Hl. revert crc. induction Hl as [|b l Hb Hl IH]; intros crc; [simpl; by rewrite Z.lxor_0_r|].
  change (crc_bytes (b :: l) crc) with (crc_bytes l (crc_step crc b)). rewrite IH, crc_step_byte by done.
  cbn [length]. rewrite <- crc_step_high, Nat.iter_succ_r. do 2 f_equal. rewrite Z.lxor_assoc. f_equal.
  cbn [le_value]. rewrite add_shift_lxor by (done || apply le_value_range, Hl). done.
Qed.

Lemma iter_step_inj n a b : in_u32 a -> in_u32 b ->
  Nat.iter n (fun r => crc_step r 0) a = Nat.iter n (fun r => crc_step r 0) b -> a = b.
Proof.
  revert a b. induction n as [|n IH]; intros a b Ha Hb; [done|]. rewrite !Nat.iter_succ_r.
  intros H%IH; [|by apply crc_step_u32..]. by apply crc_step_zero_inj.
Qed.

Lemma le_value_u32 l : Forall in_u8 l -> (length l <= 4)%nat -> in_u32 (le_value l).
Proof.
  intros Hl Hn. pose proof (le_value_range l Hl) as [H0 H1]. split; [done|].
  eapply Z.lt_le_trans; [exact H1|]. change two32 with (256 ^ 4). apply Z.pow_le_mono_r; unfold zlen; lia.
Qed.

Lemma not32_inj a b : not32 a = not32 b -> a = b.
Proof. apply lxor_cancel_r. Qed.

Lemma not32_u32 a : in_u32 a -> in_u32 (not32 a).
Proof. intros Ha. apply lxor_u32; [done|]. ints_lia. Qed.

Lemma crc32_u32 bs : in_u32 (crc32_ieee bs).
Proof. apply not32_u32, crc_bytes_u32, not32_u32. ints_lia. Qed.

Lemma crc_window_differs seed pre x y post :
  in_u32 seed -> Forall in_u8 x -> Forall in_u8 y -> Forall in_u8 post ->
  length x = length y -> (length x <= 4)%nat -> x <> y ->
  crc32_seeded seed (pre ++ x ++ post) <> crc32_seeded seed (pre ++ y ++ post).
Proof.
  intros Hs Hx Hy Hp Hlen H4 Hne H%not32_inj. apply Hne. rewrite !crc_bytes_app in H.
  assert (Hr : in_u32 (crc_bytes pre (not32 seed))) by by apply crc_bytes_u32, not32_u32.
  apply crc_bytes_inj in H; [|done|by apply crc_bytes_u32..].
  rewrite (crc_bytes_value x), (crc_bytes_value y), Hlen in H by done.
  apply iter_step_inj in H; [|apply lxor_u32; [done|apply le_value_u32; done || lia]..].
  apply lxor_cancel_l in H. by apply le_value_inj.
Qed.

(** Two byte strings that differ only inside a window of at most four bytes. *)
Definition burst (a b : list Z) : Prop := exists pre x y post,
  a = pre ++ x ++ post /\ b = pre ++ y ++ post /\ length x = length y /\ (length x <= 4)%nat /\ x <> y.

Lemma burst_differs a b : Forall in_u8 a -> Forall in_u8 b -> burst a b -> crc32_ieee a <> crc32_ieee b.
Proof.
  intros Ha Hb (pre & x & y & post & -> & -> & Hl & H4 & Hne).
  apply Forall_app in Ha as [_ [Hx Hp]%Forall_app]. apply Forall_app in Hb as [_ [Hy _]%Forall_app].
  apply crc_window_differs; done || ints_lia.
Qed.

(** A burst in a concatenation corrupts the first part, or spares it and
    corrupts the second. *)
Lemma burst_split a1 a2 b : burst (a1 ++ a2) b -> exists b1 b2, b = b1 ++ b2 /\
  length b1 = length a1 /\ length b2 = length a2 /\ (burst a1 b1 \/ (b1 = a1 /\ burst a2 b2)).
Proof.
  intros (pre & x & y & post & He & -> & Hl & H4 & Hne).
  apply app_eq_inv in He as [(k & -> & He)|(k & -> & ->)].
  2: { exists a1, (k ++ y ++ post). rewrite <- app_assoc. split; [done|]. split; [done|].
       split; [rewrite !length_app; lia|]. right. split; [done|]. by exists k, x, y, post. }
  apply app_eq_inv in He as [(k' & -> & ->)|(k' & -> & ->)].
  - exists (pre ++ take (length k) y), (drop (length k) y ++ post).
    rewrite length_app in Hl, H4. rewrite !length_app, length_take, length_drop.
    split; [by rewrite <- app_assoc, (app_assoc (take _ _)), take_drop|]. split; [lia|]. split; [lia|].
    destruct (decide (take (length k) y = k)) as [Hk|Hk].
    + right. split; [by rewrite Hk|]. exists [], k', (drop (length k) y), post.
      split; [done|]. split; [done|]. rewrite length_drop. split; [lia|]. split; [lia|].
      intros ->. apply Hne. rewrite <- Hk at 1. apply take_drop.
    + left. exists pre, k, (take (length k) y), []. rewrite !app_nil_r, length_take.
      split; [done|]. split; [done|]. split; [lia|]. split; [lia|done].
  - exists (pre ++ y ++ k'), a2. rewrite <- !app_assoc. split; [done|]. split; [rewrite !length_app; lia|].
    split; [done|]. left. by exists pre, x, y, k'.
Qed.

(** ** Sealed blocks: bytes followed by their little-endian CRC *)

(** The CRC of every sealed block. *)
Definition kCrcResidue : Z := 0x2144DF1C.

Lemma crc_sealed y c : Forall in_u8 c -> length c = 4%nat ->
  le_value c = crc32_ieee y <-> crc32_ieee (y ++ c) = kCrcResidue.
Proof.
  intros Hc Hl. unfold crc32_ieee, crc32_seeded. rewrite crc_bytes_app, (crc_bytes_value c) by done.
  set (s := crc_bytes y (not32 0)). assert (Hs : in_u32 s) by (apply crc_bytes_u32, not32_u32; ints_lia).
  rewrite Hl. assert (Hk : not32 (Nat.iter 4 (fun r => crc_step r 0) 0xffffffff) = kCrcResidue) by reflexivity.
  rewrite <- Hk. split.
  - intros ->. do 2 f_equal. unfold not32. by rewrite <- Z.lxor_assoc, Z.lxor_nilpotent.
  - intros H%not32_inj%iter_step_inj.
    + unfold not32. rewrite <- H. by rewrite <- Z.lxor_assoc, Z.lxor_nilpotent.
    + apply lxor_u32; [done|]. apply le_value_u32; [done|lia].
    + ints_lia.
Qed.

Definition sealed (bs : list Z) : list Z := bs ++ le_bytes (crc32_ieee bs) 4.

Lemma sealed_bytes bs : Forall in_u8 bs -> Forall in_u8 (sealed bs).
Proof. intros H. apply Forall_app. split; [done|apply le_bytes_bytes]. Qed.

(** No burst turns a sealed block into bytes that pass the check. *)
Lemma sealed_burst bs y c : Forall in_u8 bs -> Forall in_u8 y -> Forall in_u8 c -> length c = 4%nat ->
  burst (sealed bs) (y ++ c) -> le_value c <> crc32_ieee y.
Proof.
  intros Hbs Hy Hc Hl Hb He. apply (crc_sealed y c Hc Hl) in He.
  apply (burst_differs (sealed bs) (y ++ c)); [by apply sealed_bytes|by apply Forall_app|done|].
  rewrite He. unfold sealed. apply crc_sealed; [apply le_bytes_bytes|apply length_le_bytes|].
  rewrite le_value_le_bytes. apply Z.mod_small. apply crc32_u32.
Qed.

(** ** Property *)

(** The checksum detects every burst of up to four corrupted bytes: two
    byte strings that differ only inside a window of at most 32 bits, wherever
    it lies and whatever follows it, have different CRCs, for every seed. *)
Theorem crc32_detects_bursts seed pre x y post :
  in_u32 seed -> Forall in_u8 (pre ++ x ++ post) -> Forall in_u8 y ->
  length x = length y -> (length x <= 4)%nat -> x <> y ->
  crc32_seeded seed (pre ++ x ++ post) <> crc32_seeded seed (pre ++ y ++ post).
Proof.
  intros Hs [_ [Hx Hp]%Forall_app]%Forall_app Hy Hlen H4 Hne. by apply crc_window_differs.
Qed.

Lemma crc32_detects_bursts_witness :
  crc32_seeded 0 ([1; 2] ++ [3; 4; 5; 6] ++ [7]) <> crc32_seeded 0 ([1; 2] ++ [9; 4; 5; 0] ++ [7]).
Proof.
  apply crc32_detects_bursts; [ints_lia| | |done|simpl; lia|done];
    repeat constructor; vm_compute; congruence.
Defined.
