(* ===== verification/Records.v ===== *)
(** Versioned, integrity-checked durable records
    (include/sff/persist/records.hpp, src/persist/records.cpp): the record
    header, the total record decoder with its four dispositions, the encoder,
    and the payload codecs of failures, fences, grants, withdrawals and plain
    64-bit values. *)

From S2P Require Import Prelude Containers Core Generation Authority Bytes Integrity.

(** * Header and record *)

Definition kRecordMagic : Z := 0x31464653.
Definition kRecordFormatVersion : Z := 1.
Definition kRecordHeaderBytes : Z := 28.
Definition kMaxRecordPayload : Z := Z.shiftl 16 20.
Definition kMagicBytes : list Z := [0x53; 0x46; 0x46; 0x31].
Definition kPayloadFormatTag : Z := 1.

Module RecordKind.
Inductive RecordKind :=
| Unknown | StreamHeader | EpochAdvance | BootRegistered | TopologyInstalled | PolicyInstalled
| FailureCommitted | FenceCommitted | GrantMinted | GrantWithdrawn | PlanCommitted | ApplyCompleted
| RestoreDecided | Checkpoint | ShutdownClean.
End RecordKind.
Abbreviation RecordKind := RecordKind.RecordKind.

Definition record_kind_raw (k : RecordKind) : Z :=
  match k with
  | RecordKind.Unknown => 0 | RecordKind.StreamHeader => 1 | RecordKind.EpochAdvance => 2
  | RecordKind.BootRegistered => 3 | RecordKind.TopologyInstalled => 4 | RecordKind.PolicyInstalled => 5
  | RecordKind.FailureCommitted => 6 | RecordKind.FenceCommitted => 7 | RecordKind.GrantMinted => 8
  | RecordKind.GrantWithdrawn => 9 | RecordKind.PlanCommitted => 10 | RecordKind.ApplyCompleted => 11
  | RecordKind.RestoreDecided => 12 | RecordKind.Checkpoint => 13 | RecordKind.ShutdownClean => 14
  end.

Definition record_kind_to_string (k : RecordKind) : string :=
  match k with
  | RecordKind.Unknown => "UNKNOWN"
  | RecordKind.StreamHeader => "STREAM_HEADER"
  | RecordKind.EpochAdvance => "EPOCH_ADVANCE"
  | RecordKind.BootRegistered => "BOOT_REGISTERED"
  | RecordKind.TopologyInstalled => "TOPOLOGY_INSTALLED"
  | RecordKind.PolicyInstalled => "POLICY_INSTALLED"
  | RecordKind.FailureCommitted => "FAILURE_COMMITTED"
  | RecordKind.FenceCommitted => "FENCE_COMMITTED"
  | RecordKind.GrantMinted => "GRANT_MINTED"
  | RecordKind.GrantWithdrawn => "GRANT_WITHDRAWN"
  | RecordKind.PlanCommitted => "PLAN_COMMITTED"
  | RecordKind.ApplyCompleted => "APPLY_COMPLETED"
  | RecordKind.RestoreDecided => "RESTORE_DECIDED"
  | RecordKind.Checkpoint => "CHECKPOINT"
  | RecordKind.ShutdownClean => "SHUTDOWN_CLEAN"
  end.

Definition is_valid_record_kind (raw : Z) : bool :=
  (record_kind_raw RecordKind.StreamHeader <=? raw) && (raw <=? record_kind_raw RecordKind.ShutdownClean).

Module DecodeDisposition.
Inductive DecodeDisposition := Complete | TornTail | Corrupt | Unsupported.
End DecodeDisposition.
Abbreviation DecodeDisposition := DecodeDisposition.DecodeDisposition.

#[export] Instance DecodeDisposition_eq_dec : EqDecision DecodeDisposition.
Proof. solve_decision. Defined.

Definition disposition_to_string (d : DecodeDisposition) : string :=
  match d with
  | DecodeDisposition.Complete => "COMPLETE"
  | DecodeDisposition.TornTail => "TORN_TAIL"
  | DecodeDisposition.Corrupt => "CORRUPT"
  | DecodeDisposition.Unsupported => "UNSUPPORTED"
  end.

(** The kind is the raw 16-bit value: a decoded header can hold an undefined one. *)
Record RecordHeader := mkHeader {
  rh_magic : Z;
  rh_format_version : Z;
  rh_kind : Z;
  rh_flags : Z;
  rh_seq : Z;
  rh_payload_len : Z;
  rh_header_crc : Z
}.

Definition header_default : RecordHeader := mkHeader kRecordMagic kRecordFormatVersion 0 0 0 0 0.

Record DurableRecord := mkRecord { rec_header : RecordHeader; rec_payload : list Z }.

Definition record_default : DurableRecord := mkRecord header_default [].

Record DecodeResult := mkDecode {
  dr_disposition : DecodeDisposition;
  dr_record : DurableRecord;
  dr_consumed : Z;
  dr_status : Status
}.

Definition decode_complete (r : DecodeResult) : bool :=
  bool_decide (dr_disposition r = DecodeDisposition.Complete).

Definition write_u32_le (value : Z) : list Z := le_bytes value 4.
Definition write_u64_le (value : Z) : list Z := le_bytes value 8.

(** The bytes [data + offset .. data + offset + count). *)
Definition slice (data : list Z) (offset count : Z) : list Z :=
  take (Z.to_nat count) (drop (Z.to_nat offset) data).

Definition read_u16_le (data : list Z) (offset : Z) : Z := load_le (slice data offset 2).
Definition read_u32_le (data : list Z) (offset : Z) : Z := load_le (slice data offset 4).
Definition read_u64_le (data : list Z) (offset : Z) : Z := load_le (slice data offset 8).

(** The first 24 header bytes, which the header CRC covers. *)
Definition header_prefix (h : RecordHeader) : list Z :=
  write_u32_le (rh_magic h) ++ le_bytes (rh_format_version h) 2 ++ le_bytes (rh_kind h) 2 ++
  write_u32_le (rh_flags h) ++ write_u64_le (rh_seq h) ++ write_u32_le (rh_payload_len h).

Definition compute_crc (h : RecordHeader) : Z := crc32_ieee (header_prefix h).

Definition header_encode (h : RecordHeader) : list Z := header_prefix h ++ write_u32_le (rh_header_crc h).

Definition payload_ceiling (limits : Limits) : Z := Z.min (max_document_bytes limits) kMaxRecordPayload.

Definition header_validate (limits : Limits) (h : RecordHeader) : Status :=
  if negb (rh_magic h =? kRecordMagic) then failure Code.Corrupt "record magic does not match"
  else if negb (rh_format_version h =? kRecordFormatVersion) then
    failure Code.VersionMismatch "record format version is not supported"
  else if negb (is_valid_record_kind (rh_kind h)) then
    failure Code.Unsupported "record kind is not defined by this build"
  else if payload_ceiling limits <? rh_payload_len h then
    failure Code.Corrupt "record declares an impossible payload length"
  else if negb (compute_crc h =? rh_header_crc h) then
    failure Code.Corrupt "record header integrity check failed"
  else success.

Definition record_digest (r : DurableRecord) : Z :=
  dig_hi
    (absorb_bytes (rec_payload r)
      (absorb_u64 (zlen (rec_payload r))
        (absorb_u64 (rh_flags (rec_header r))
          (absorb_byte (Z.land (Z.shiftr (rh_kind (rec_header r)) 8) 0xff)
            (absorb_byte (Z.land (rh_kind (rec_header r)) 0xff)
              (absorb_u64 (rh_seq (rec_header r))
                (absorb_string "sff.record.v1" digest_init))))))).

(** `data[index] == kMagicBytes[index]` for the first min(size, 4) bytes. *)
Definition magic_matches (data : list Z) : bool :=
  let n := Nat.min (length data) 4 in bool_decide (take n data = take n kMagicBytes).

Definition decode_header (data : list Z) : RecordHeader :=
  mkHeader (read_u32_le data 0) (read_u16_le data 4) (read_u16_le data 6) (read_u32_le data 8)
    (read_u64_le data 12) (read_u32_le data 20) (read_u32_le data 24).

Definition refused_decode (d : DecodeDisposition) (s : Status) : DecodeResult :=
  mkDecode d record_default 0 s.

(** The whole decoder on a non-null range; the size is the length of the range. *)
Definition decode_bytes (data : list Z) (limits : Limits) : DecodeResult :=
  let size := zlen data in
  if size =? 0 then mkDecode DecodeDisposition.TornTail record_default 0 success
  else if negb (magic_matches data) then
    refused_decode DecodeDisposition.Corrupt (failure Code.Corrupt "record does not begin with the SFF1 magic")
  else if size <? kRecordHeaderBytes then mkDecode DecodeDisposition.TornTail record_default size success
  else
    let header := decode_header data in
    let header_status := header_validate limits header in
    if negb (status_ok header_status) then
      refused_decode
        (if bool_decide (status_code header_status = Code.VersionMismatch)
            || bool_decide (status_code header_status = Code.Unsupported)
         then DecodeDisposition.Unsupported else DecodeDisposition.Corrupt)
        header_status
    else
      let total := kRecordHeaderBytes + rh_payload_len header + 4 in
      if size <? total then mkDecode DecodeDisposition.TornTail (mkRecord header []) size success
      else
        let payload := slice data kRecordHeaderBytes (rh_payload_len header) in
        let stored_crc := read_u32_le data (kRecordHeaderBytes + rh_payload_len header) in
        if negb (stored_crc =? crc32_ieee payload) then
          refused_decode DecodeDisposition.Corrupt
            (failure Code.Corrupt
               "record payload integrity check failed; the record is refused, not truncated")
        else mkDecode DecodeDisposition.Complete (mkRecord header payload) total success.

(** [decode_record(data, size, limits)]; [None] is the null pointer. *)
Definition decode_record (data : option (list Z)) (size : Z) (limits : Limits) : DecodeResult :=
  match data with
  | None =>
      if size =? 0 then decode_bytes [] limits
      else refused_decode DecodeDisposition.Corrupt (failure Code.Corrupt "record range is null")
  | Some bytes => decode_bytes (take (Z.to_nat size) bytes) limits
  end.

Definition encode_record (record : DurableRecord) (limits : Limits) : Result (list Z) :=
  let ceiling := payload_ceiling limits in
  let size := zlen (rec_payload record) in
  if ceiling <? size then Refused (refuse_exhausted "record payload" size ceiling)
  else
    let h := rec_header record in
    let h := mkHeader kRecordMagic kRecordFormatVersion (rh_kind h) (rh_flags h) (rh_seq h) (wrap32 size)
               (rh_header_crc h) in
    let h := mkHeader (rh_magic h) (rh_format_version h) (rh_kind h) (rh_flags h) (rh_seq h)
               (rh_payload_len h) (compute_crc h) in
    (check_r (header_validate limits h) ;;
     Value (header_encode h ++ rec_payload record ++ write_u32_le (crc32_ieee (rec_payload record))))%sff.

(** The checksum is used through its lemmas only. *)
#[local] Opaque crc32_ieee.

(** * Facts about framing *)

Record header_in_range (h : RecordHeader) : Prop := {
  hr_magic : in_u32 (rh_magic h);
  hr_version : in_u16 (rh_format_version h);
  hr_kind : in_u16 (rh_kind h);
  hr_flags : in_u32 (rh_flags h);
  hr_seq : in_u64 (rh_seq h);
  hr_len : in_u32 (rh_payload_len h);
  hr_crc : in_u32 (rh_header_crc h)
}.

Lemma length_header_prefix h : length (header_prefix h) = 24%nat.
Proof. unfold header_prefix, write_u32_le, write_u64_le. by rewrite !length_app, !length_le_bytes. Qed.

Lemma length_header_encode h : length (header_encode h) = 28%nat.
Proof. unfold header_encode, write_u32_le. by rewrite length_app, length_header_prefix, length_le_bytes. Qed.

Lemma header_prefix_bytes h : Forall in_u8 (header_prefix h).
Proof. unfold header_prefix, write_u32_le, write_u64_le. rewrite !Forall_app. split_and!; apply le_bytes_bytes. Qed.

Lemma decode_header_encode h rest : header_in_range h -> decode_header (header_encode h ++ rest) = h.
Proof.
  intros [H1 H2 H3 H4 H5 H6 H7]. unfold decode_header, read_u16_le, read_u32_le, read_u64_le.
  change (slice (header_encode h ++ rest) 0 4) with (store_le (rh_magic h) 4).
  change (slice (header_encode h ++ rest) 4 2) with (store_le (rh_format_version h) 2).
  change (slice (header_encode h ++ rest) 6 2) with (store_le (rh_kind h) 2).
  change (slice (header_encode h ++ rest) 8 4) with (store_le (rh_flags h) 4).
  change (slice (header_encode h ++ rest) 12 8) with (store_le (rh_seq h) 8).
  change (slice (header_encode h ++ rest) 20 4) with (store_le (rh_payload_len h) 4).
  change (slice (header_encode h ++ rest) 24 4) with (store_le (rh_header_crc h) 4).
  rewrite !load_store_le by (lia || ints_lia). by destruct h.
Qed.

Lemma slice_join data o a b o' n : o' = o + a -> n = a + b -> 0 <= o -> 0 <= a -> 0 <= b ->
  slice data o n = slice data o a ++ slice data o' b.
Proof.
  intros -> -> Ho Ha Hb. unfold slice. rewrite !Z2Nat.inj_add by lia. rewrite <- drop_drop. symmetry. apply take_take_drop.
Qed.

Lemma slice_bytes data o n : Forall in_u8 data -> Forall in_u8 (slice data o n).
Proof. intros H. by apply Forall_take, Forall_drop. Qed.

Lemma length_slice data o n : 0 <= o -> 0 <= n -> o + n <= zlen data -> length (slice data o n) = Z.to_nat n.
Proof. intros Ho Hn H. unfold slice, zlen in *. rewrite length_take, length_drop. lia. Qed.

(** Reading a little-endian field loses nothing. *)
Lemma le_bytes_slice data o n w : Forall in_u8 data -> n = Z.of_nat w -> 0 <= o -> 0 <= n <= 8 ->
  o + n <= zlen data -> le_bytes (load_le (slice data o n)) w = slice data o n.
Proof.
  intros Hd Hw Ho Hn Hl. pose proof (length_slice data o n Ho ltac:(lia) Hl) as Hs.
  rewrite load_le_value by (try apply slice_bytes; try done; unfold zlen; lia).
  replace w with (length (slice data o n)) by lia. apply le_bytes_le_value. by apply slice_bytes.
Qed.

Lemma load_slice_range data o n : Forall in_u8 data -> 0 <= o -> 0 <= n <= 8 -> o + n <= zlen data ->
  0 <= load_le (slice data o n) < 256 ^ n.
Proof.
  intros Hd Ho Hn Hl. pose proof (length_slice data o n Ho ltac:(lia) Hl) as Hs.
  rewrite load_le_value by (try apply slice_bytes; try done; unfold zlen; lia).
  pose proof (le_value_range (slice data o n) (slice_bytes data o n Hd)) as H.
  unfold zlen in H. rewrite Hs, Z2Nat.id in H by lia. done.
Qed.

Lemma slice_prefix data n : slice data 0 n = take (Z.to_nat n) data.
Proof. done. Qed.

(** The header read from 28 bytes encodes to these bytes, in two parts: what
    the CRC covers, and the CRC. *)
Lemma header_decoded data : Forall in_u8 data -> kRecordHeaderBytes <= zlen data ->
  header_prefix (decode_header data) = take 24 data /\
  rh_header_crc (decode_header data) = le_value (slice data 24 4) /\
  header_in_range (decode_header data).
Proof.
  unfold kRecordHeaderBytes. intros Hd Hl. split; [|split].
  - unfold header_prefix, write_u32_le, write_u64_le, decode_header, read_u16_le, read_u32_le, read_u64_le.
    cbn [rh_magic rh_format_version rh_kind rh_flags rh_seq rh_payload_len].
    rewrite (le_bytes_slice data 0 4 4), (le_bytes_slice data 4 2 2), (le_bytes_slice data 6 2 2),
      (le_bytes_slice data 8 4 4), (le_bytes_slice data 12 8 8), (le_bytes_slice data 20 4 4) by (done || lia).
    rewrite <- (slice_join data 12 8 4 20 12), <- (slice_join data 8 4 12 12 16),
      <- (slice_join data 6 2 16 8 18), <- (slice_join data 4 2 18 6 20), <- (slice_join data 0 4 20 4 24) by lia.
    done.
  - simpl. unfold read_u32_le. apply load_le_value; [by apply slice_bytes|].
    unfold zlen at 1. rewrite length_slice by lia. done.
  - unfold decode_header, read_u16_le, read_u32_le, read_u64_le. split; simpl;
      (eapply load_slice_range; [done|lia..]).
Qed.

(** The header an encoded record carries. *)
Definition sealed_header (r : DurableRecord) : RecordHeader :=
  let h := mkHeader kRecordMagic kRecordFormatVersion (rh_kind (rec_header r)) (rh_flags (rec_header r))
             (rh_seq (rec_header r)) (zlen (rec_payload r)) (rh_header_crc (rec_header r)) in
  mkHeader (rh_magic h) (rh_format_version h) (rh_kind h) (rh_flags h) (rh_seq h) (rh_payload_len h)
    (compute_crc h).

Record record_in_range (r : DurableRecord) : Prop := {
  rr_flags : in_u32 (rh_flags (rec_header r));
  rr_seq : in_u64 (rh_seq (rec_header r));
  rr_payload : Forall in_u8 (rec_payload r)
}.

Lemma payload_ceiling_u32 limits n : n <= payload_ceiling limits -> n < two32.
Proof. unfold payload_ceiling, kMaxRecordPayload. change (Z.shiftl 16 20) with 16777216. ints. lia. Qed.

Lemma header_validate_ok limits h : status_ok (header_validate limits h) = true ->
  header_validate limits h = success /\ rh_magic h = kRecordMagic /\
  rh_format_version h = kRecordFormatVersion /\ is_valid_record_kind (rh_kind h) = true /\
  rh_payload_len h <= payload_ceiling limits /\ compute_crc h = rh_header_crc h.
Proof.
  unfold header_validate.
  destruct (rh_magic h =? _) eqn:E1; cbn [negb]; [|by rewrite failure_not_ok].
  destruct (rh_format_version h =? _) eqn:E2; cbn [negb]; [|by rewrite failure_not_ok].
  destruct (is_valid_record_kind _) eqn:E3; cbn [negb]; [|by rewrite failure_not_ok].
  destruct (payload_ceiling limits <? _) eqn:E4; [by rewrite failure_not_ok|].
  destruct (compute_crc h =? _) eqn:E5; cbn [negb]; [|by rewrite failure_not_ok].
  bool_prop. done.
Qed.

Lemma encode_record_value r limits bs : encode_record r limits = Value bs ->
  bs = sealed (header_prefix (sealed_header r)) ++ sealed (rec_payload r) /\
  header_validate limits (sealed_header r) = success /\
  is_valid_record_kind (rh_kind (rec_header r)) = true /\
  zlen (rec_payload r) <= payload_ceiling limits.
Proof.
  unfold encode_record. destruct (payload_ceiling limits <? zlen (rec_payload r)) eqn:E; [done|].
  bool_prop. assert (Hw : wrap32 (zlen (rec_payload r)) = zlen (rec_payload r)).
  { apply Z.mod_small. pose proof (payload_ceiling_u32 limits _ E). pose proof (zlen_nonneg (rec_payload r)). ints_lia. }
  rewrite Hw. fold (sealed_header r).
  destruct (status_ok (header_validate limits (sealed_header r))) eqn:Hv; [|done].
  apply header_validate_ok in Hv as (Hv & _ & _ & Hk & _). intros [= <-]. split; [reflexivity|done].
Qed.

Lemma magic_matches_take n data : take 4 data = kMagicBytes -> magic_matches (take n data) = true.
Proof.
  intros H. unfold magic_matches. apply bool_decide_eq_true. rewrite take_take, <- H, take_take.
  rewrite length_take. f_equal. lia.
Qed.

Lemma header_magic h rest : rh_magic h = kRecordMagic -> take 4 (header_encode h ++ rest) = kMagicBytes.
Proof.
  intros H. unfold header_encode, header_prefix. rewrite H. reflexivity.
Qed.

(** What the decoder does once a valid header has been read. *)
Definition decode_body (limits : Limits) (data : list Z) (header : RecordHeader) : DecodeResult :=
  let total := kRecordHeaderBytes + rh_payload_len header + 4 in
  if zlen data <? total then mkDecode DecodeDisposition.TornTail (mkRecord header []) (zlen data) success
  else
    let payload := slice data kRecordHeaderBytes (rh_payload_len header) in
    if negb (read_u32_le data (kRecordHeaderBytes + rh_payload_len header) =? crc32_ieee payload) then
      refused_decode DecodeDisposition.Corrupt
        (failure Code.Corrupt "record payload integrity check failed; the record is refused, not truncated")
    else mkDecode DecodeDisposition.Complete (mkRecord header payload) total success.

Lemma decode_bytes_long data limits : kRecordHeaderBytes <= zlen data -> magic_matches data = true ->
  decode_bytes data limits =
    let s := header_validate limits (decode_header data) in
    if negb (status_ok s) then
      refused_decode (if bool_decide (status_code s = Code.VersionMismatch)
                         || bool_decide (status_code s = Code.Unsupported)
                      then DecodeDisposition.Unsupported else DecodeDisposition.Corrupt) s
    else decode_body limits data (decode_header data).
Proof.
  unfold kRecordHeaderBytes. intros Hl Hm. unfold decode_bytes, kRecordHeaderBytes.
  rewrite (proj2 (Z.eqb_neq _ _)) by lia. rewrite Hm. by rewrite (proj2 (Z.ltb_ge _ _)) by lia.
Qed.

Lemma decode_bytes_header h body limits : header_in_range h -> header_validate limits h = success ->
  decode_bytes (header_encode h ++ body) limits = decode_body limits (header_encode h ++ body) h.
Proof.
  intros Hr Hv. assert (Hm : rh_magic h = kRecordMagic) by (apply (header_validate_ok limits h); by rewrite Hv).
  rewrite decode_bytes_long.
  - rewrite decode_header_encode by done. cbn zeta. by rewrite Hv.
  - rewrite zlen_app. unfold zlen at 1. rewrite length_header_encode. pose proof (zlen_nonneg body).
    unfold kRecordHeaderBytes. lia.
  - rewrite <- (firstn_all (header_encode h ++ body)). apply magic_matches_take. by apply header_magic.
Qed.

Lemma slice_app pre x post : slice (pre ++ x ++ post) (zlen pre) (zlen x) = x.
Proof. unfold slice, zlen. by rewrite !Nat2Z.id, drop_app_length, take_app_length. Qed.

Section encoded.
Context (r : DurableRecord) (limits : Limits) (bs : list Z).
Context (Hrange : record_in_range r) (Henc : encode_record r limits = Value bs).

Let h := sealed_header r.

Lemma encoded_bytes : bs = header_encode h ++ sealed (rec_payload r).
Proof. by apply encode_record_value in Henc as (-> & _). Qed.

Lemma encoded_valid : header_validate limits h = success.
Proof. by apply encode_record_value in Henc as (_ & ? & _). Qed.

Lemma encoded_in_range : header_in_range h.
Proof.
  apply encode_record_value in Henc as (_ & _ & Hk & Hl). destruct Hrange as [Hf Hs _].
  apply payload_ceiling_u32 in Hl. pose proof (zlen_nonneg (rec_payload r)).
  unfold is_valid_record_kind in Hk. simpl in Hk. bool_prop.
  split; simpl; [split; vm_compute; congruence|split; vm_compute; congruence|ints_lia|done|done|ints_lia|apply crc32_u32].
Qed.

Lemma zlen_encoded : zlen bs = kRecordHeaderBytes + zlen (rec_payload r) + 4.
Proof.
  rewrite encoded_bytes, zlen_app. unfold zlen at 1. rewrite length_header_encode.
  unfold sealed. rewrite zlen_app, zlen_le_bytes. unfold kRecordHeaderBytes. lia.
Qed.

Lemma zlen_header : zlen (header_encode h) = kRecordHeaderBytes.
Proof. unfold zlen. by rewrite length_header_encode. Qed.

Lemma decode_encoded rest : decode_bytes (bs ++ rest) limits =
  mkDecode DecodeDisposition.Complete (mkRecord h (rec_payload r)) (zlen bs) success.
Proof.
  pose proof (zlen_nonneg rest) as Hrest. pose proof zlen_encoded as Hl.
  assert (Hz : zlen (bs ++ rest) = zlen bs + zlen rest) by apply zlen_app.
  rewrite encoded_bytes, <- app_assoc in Hz |- *.
  rewrite decode_bytes_header by (apply encoded_in_range || apply encoded_valid).
  unfold decode_body. change (rh_payload_len h) with (zlen (rec_payload r)). rewrite Hz.
  rewrite <- encoded_bytes, Hl. rewrite (proj2 (Z.ltb_ge _ _)) by lia. unfold sealed. rewrite <- app_assoc.
  rewrite <- zlen_header, slice_app. unfold read_u32_le.
  pose proof (slice_app (header_encode h ++ rec_payload r) (le_bytes (crc32_ieee (rec_payload r)) 4) rest) as Hs.
  rewrite zlen_app, zlen_le_bytes, <- app_assoc in Hs. change (Z.of_nat 4) with 4 in Hs. rewrite Hs.
  assert (Hc : load_le (le_bytes (crc32_ieee (rec_payload r)) 4) = crc32_ieee (rec_payload r)).
  { apply load_store_le; [lia|]. apply (crc32_u32 (rec_payload r)). }
  rewrite Hc, Z.eqb_refl. done.
Qed.

(** Every proper prefix of an encoded record is a torn tail. *)
Lemma decode_torn p : strict_prefix p bs ->
  let d := decode_bytes p limits in
  dr_disposition d = DecodeDisposition.TornTail /\ dr_consumed d = zlen p /\ dr_status d = success.
Proof.
  intros (q & Hq & He). assert (Hlt : zlen p < zlen bs) by (apply strict_prefix_length; by exists q).
  assert (Hpre : forall rest, magic_matches (take (length p) (header_encode h ++ rest)) = true).
  { intros rest. apply magic_matches_take, header_magic. done. }
  destruct (Z.lt_ge_cases (zlen p) kRecordHeaderBytes) as [Hs|Hs].
  - unfold decode_bytes. destruct (zlen p =? 0) eqn:E0; [bool_prop; by rewrite E0|].
    assert (Hm : magic_matches p = true).
    { rewrite <- (take_app_length p q), <- He, encoded_bytes. apply Hpre. }
    rewrite Hm. cbn [negb]. by rewrite (proj2 (Z.ltb_lt _ _)) by done.
  - assert (Hbody : p = header_encode h ++ drop 28 p).
    { rewrite <- (take_drop 28 p) at 1. f_equal. rewrite encoded_bytes in He.
      apply (f_equal (take 28)) in He. rewrite !take_app_le in He
        by (rewrite ?length_header_encode; unfold zlen, kRecordHeaderBytes in Hs; lia).
      rewrite <- He. apply take_ge. by rewrite length_header_encode. }
    rewrite Hbody, decode_bytes_header by (apply encoded_in_range || apply encoded_valid). rewrite <- Hbody.
    unfold decode_body. change (rh_payload_len h) with (zlen (rec_payload r)). rewrite <- zlen_encoded.
    by rewrite (proj2 (Z.ltb_lt _ _)) by done.
Qed.
End encoded.

Definition refused_as_damaged (d : DecodeResult) : Prop :=
  dr_disposition d = DecodeDisposition.Corrupt \/ dr_disposition d = DecodeDisposition.Unsupported.

(** Damage in the header is refused: if the header were accepted its bytes
    would be a sealed block. *)
Lemma damaged_header h b rest limits : rh_header_crc h = compute_crc h -> burst (header_encode h) b ->
  Forall in_u8 (b ++ rest) -> length b = 28%nat -> refused_as_damaged (decode_bytes (b ++ rest) limits).
Proof.
  intros Hcrc Hburst Hbytes Hlen. pose proof (zlen_nonneg rest).
  assert (Hl : kRecordHeaderBytes <= zlen (b ++ rest)).
  { rewrite zlen_app. unfold zlen at 1. rewrite Hlen. unfold kRecordHeaderBytes. lia. }
  destruct (magic_matches (b ++ rest)) eqn:Hm.
  2: { left. unfold decode_bytes. unfold kRecordHeaderBytes in Hl.
       rewrite (proj2 (Z.eqb_neq _ _)) by lia. by rewrite Hm. }
  rewrite decode_bytes_long by done. cbn zeta.
  destruct (status_ok _) eqn:Hs; cbn [negb]; [|simpl; unfold refused_as_damaged; simpl; destruct (_ || _); auto].
  exfalso. apply header_validate_ok in Hs as (_ & _ & _ & _ & _ & Hc).
  destruct (header_decoded _ Hbytes Hl) as (Hp & Hv & _).
  unfold compute_crc in Hc. rewrite Hp, Hv in Hc.
  apply Forall_app in Hbytes as [Hb _].
  apply (sealed_burst (header_prefix h) (take 24 b) (drop 24 b)).
  - apply header_prefix_bytes.
  - by apply Forall_take.
  - by apply Forall_drop.
  - rewrite length_drop. lia.
  - rewrite take_drop. unfold header_encode, write_u32_le in Hburst. by rewrite Hcrc in Hburst.
  - rewrite take_app_le in Hc by lia. rewrite Hc. f_equal. unfold slice.
    change (Z.to_nat 24) with 24%nat. change (Z.to_nat 4) with 4%nat.
    rewrite drop_app_le, take_app_le by (rewrite ?length_drop; lia).
    symmetry. apply take_ge. rewrite length_drop. lia.
Qed.

Lemma damaged_payload h payload b rest limits : header_in_range h -> header_validate limits h = success ->
  rh_payload_len h = zlen payload -> Forall in_u8 payload -> Forall in_u8 b ->
  burst (sealed payload) b -> length b = (length payload + 4)%nat ->
  refused_as_damaged (decode_bytes (header_encode h ++ b ++ rest) limits).
Proof.
  intros Hr Hv Hlen Hp Hb Hburst Hl. rewrite decode_bytes_header by done. unfold decode_body. rewrite Hlen.
  assert (Hh : zlen (header_encode h) = kRecordHeaderBytes) by (unfold zlen; by rewrite length_header_encode).
  assert (Hzb : zlen b = zlen payload + 4) by (unfold zlen; lia).
  pose proof (zlen_nonneg rest). rewrite !zlen_app, Hh, Hzb. rewrite (proj2 (Z.ltb_ge _ _)) by lia.
  set (y := take (length payload) b). set (c := drop (length payload) b).
  assert (Hy : zlen y = zlen payload) by (unfold zlen, y; rewrite length_take; lia).
  assert (Hc : length c = 4%nat) by (unfold c; rewrite length_drop; lia).
  assert (Hbc : b = y ++ c) by (symmetry; apply take_drop).
  assert (Hpay : slice (header_encode h ++ b ++ rest) kRecordHeaderBytes (zlen payload) = y).
  { rewrite Hbc, <- app_assoc, <- Hh, <- Hy. apply slice_app. }
  assert (Hcrc : read_u32_le (header_encode h ++ b ++ rest) (kRecordHeaderBytes + zlen payload) = le_value c).
  { unfold read_u32_le. pose proof (slice_app (header_encode h ++ y) c rest) as Hs.
    rewrite zlen_app, Hh, Hy in Hs. unfold zlen in Hs at 2. rewrite Hc in Hs. change (Z.of_nat 4) with 4 in Hs.
    rewrite Hbc. rewrite <- !app_assoc in *. rewrite Hs. apply load_le_value; [by apply Forall_drop|].
    unfold zlen. rewrite Hc. lia. }
  rewrite Hpay, Hcrc, (proj2 (Z.eqb_neq _ _)).
  - by left.
  - apply (sealed_burst payload); [done|by apply Forall_take|by apply Forall_drop|done|by rewrite <- Hbc].
Qed.

(** An accepted record is exactly the encoding of what it was decoded to. *)
Lemma decode_bytes_complete data limits : Forall in_u8 data ->
  dr_disposition (decode_bytes data limits) = DecodeDisposition.Complete ->
  let d := decode_bytes data limits in
  encode_record (dr_record d) limits = Value (take (Z.to_nat (dr_consumed d)) data) /\
  kRecordHeaderBytes + 4 <= dr_consumed d <= zlen data /\ dr_status d = success /\
  header_in_range (rec_header (dr_record d)) /\ rec_header (dr_record d) = decode_header data /\
  dr_consumed d = kRecordHeaderBytes + rh_payload_len (rec_header (dr_record d)) + 4.
Proof.
  intros Hbytes. unfold decode_bytes. destruct (zlen data =? 0); [done|].
  destruct (negb (magic_matches data)); [done|].
  destruct (zlen data <? kRecordHeaderBytes) eqn:Hlt; [done|]. bool_prop.
  destruct (header_decoded data Hbytes Hlt) as (Hp & Hv & Hr). set (h := decode_header data) in *. cbn zeta.
  destruct (status_ok _) eqn:Hs; cbn [negb]; [|simpl; by destruct (_ || _)].
  apply header_validate_ok in Hs as (Hval & Hm & Hver & Hk & Hlen & Hc).
  destruct (zlen data <? _) eqn:Ht; [done|]. destruct (_ =? _) eqn:Hcrc; cbn [negb]; [|done]. bool_prop.
  intros _. cbn [dr_record dr_consumed dr_status rec_header rec_payload].
  set (payload := slice data kRecordHeaderBytes (rh_payload_len h)) in *.
  assert (H0 : 0 <= rh_payload_len h) by apply Hr. unfold kRecordHeaderBytes in *.
  assert (Hzp : zlen payload = rh_payload_len h).
  { unfold zlen, payload. rewrite length_slice by lia. lia. }
  split; [|split; [lia|done]]. unfold encode_record. cbn [rec_header rec_payload]. rewrite Hzp.
  rewrite (proj2 (Z.ltb_ge _ _)) by done.
  assert (Hw : wrap32 (rh_payload_len h) = rh_payload_len h) by (apply Z.mod_small; apply Hr).
  rewrite Hw. cbn [rh_magic rh_format_version rh_kind rh_flags rh_seq rh_payload_len].
  rewrite <- Hm, <- Hver. assert (Hsame : forall crc, compute_crc (mkHeader (rh_magic h) (rh_format_version h)
    (rh_kind h) (rh_flags h) (rh_seq h) (rh_payload_len h) crc) = rh_header_crc h) by (intros; exact Hc).
  rewrite Hsame. assert (Heta : mkHeader (rh_magic h) (rh_format_version h) (rh_kind h) (rh_flags h) (rh_seq h)
    (rh_payload_len h) (rh_header_crc h) = h) by (by destruct h). rewrite Heta, Hval, success_ok. f_equal.
  rewrite <- slice_prefix, (slice_join data 0 28 (rh_payload_len h + 4) 28 (28 + rh_payload_len h + 4)) by lia.
  rewrite (slice_join data 28 (rh_payload_len h) 4 (28 + rh_payload_len h) (rh_payload_len h + 4)) by lia. f_equal; [|f_equal].
  - unfold header_encode, write_u32_le. rewrite Hp, Hv. change (take 24 data) with (slice data 0 24).
    rewrite (slice_join data 0 24 4 24 28) by lia.
    f_equal. rewrite <- load_le_value.
    + by apply le_bytes_slice; try lia.
    + by apply slice_bytes.
    + unfold zlen at 1. rewrite length_slice by lia. lia.
  - unfold write_u32_le. rewrite <- Hcrc. unfold read_u32_le. apply le_bytes_slice; done || lia.
Qed.

(** ** Properties *)

(** A record that is encoded is decoded again, whatever follows it: the
    decoder answers Complete with the same kind, flags, sequence number and
    payload, and consumes exactly the encoded bytes. *)
Theorem record_roundtrip r limits bs rest :
  record_in_range r -> encode_record r limits = Value bs ->
  let data := bs ++ rest in
  let d := decode_record (Some data) (zlen data) limits in
  dr_disposition d = DecodeDisposition.Complete /\ dr_consumed d = zlen bs /\
  dr_status d = success /\ rec_payload (dr_record d) = rec_payload r /\
  rh_kind (rec_header (dr_record d)) = rh_kind (rec_header r) /\
  rh_flags (rec_header (dr_record d)) = rh_flags (rec_header r) /\
  rh_seq (rec_header (dr_record d)) = rh_seq (rec_header r).
Proof.
  intros Hr He data d. unfold d, decode_record, data, zlen. rewrite Nat2Z.id, firstn_all.
  by rewrite (decode_encoded r limits bs).
Qed.

(** A crash during an append is recognised: a file that ends anywhere
    inside an encoded record, also before its first byte, is a TornTail of
    exactly the bytes present, never Corrupt and never Complete. *)
Theorem torn_append_recognised r limits bs p :
  record_in_range r -> encode_record r limits = Value bs -> strict_prefix p bs ->
  let d := decode_record (Some p) (zlen p) limits in
  dr_disposition d = DecodeDisposition.TornTail /\ dr_consumed d = zlen p /\ dr_status d = success.
Proof.
  intros Hr He Hp d. unfold d, decode_record, zlen. rewrite Nat2Z.id, firstn_all.
  by apply (decode_torn r limits bs).
Qed.

(** Damage is never mistaken for a torn tail or for a record: when up to
    four adjacent bytes of an encoded record are overwritten, anywhere in the
    magic, the header, the payload or the checksums, the decoder answers
    Corrupt or Unsupported, whatever follows the record. *)
Theorem damaged_record_refused r limits bs bs' rest :
  record_in_range r -> encode_record r limits = Value bs ->
  burst bs bs' -> Forall in_u8 (bs' ++ rest) ->
  refused_as_damaged (decode_record (Some (bs' ++ rest)) (zlen (bs' ++ rest)) limits).
Proof.
  intros Hr He Hb Hbytes. unfold decode_record, zlen. rewrite Nat2Z.id, firstn_all.
  rewrite (encoded_bytes r limits bs He) in Hb.
  destruct (burst_split _ _ _ Hb) as (b1 & b2 & -> & H1 & H2 & [Hc|[-> Hc]]); rewrite <- app_assoc in *.
  - apply (damaged_header (sealed_header r)); [done|done|done|]. by rewrite H1, length_header_encode.
  - apply (damaged_payload _ (rec_payload r)).
    + by apply (encoded_in_range r limits bs).
    + by apply (encoded_valid r limits bs).
    + done.
    + apply Hr.
    + by apply Forall_app in Hbytes as [_ [? _]%Forall_app].
    + done.
    + rewrite H2. unfold sealed. by rewrite length_app, length_le_bytes.
Qed.

(** The decoder accepts nothing but encoded records: when it answers
    Complete on arbitrary bytes, the bytes it consumed lie inside the range
    and are exactly what the encoder produces for the decoded record. *)
Theorem accepted_record_is_encoded data limits :
  Forall in_u8 data ->
  let d := decode_record (Some data) (zlen data) limits in
  decode_complete d = true ->
  encode_record (dr_record d) limits = Value (take (Z.to_nat (dr_consumed d)) data) /\
  kRecordHeaderBytes + 4 <= dr_consumed d <= zlen data /\ dr_status d = success.
Proof.
  intros Hb d. unfold d, decode_record, zlen. rewrite Nat2Z.id, firstn_all. unfold decode_complete.
  intros Hc%bool_decide_eq_true. destruct (decode_bytes_complete data limits Hb Hc) as (? & ? & ? & _). done.
Qed.

(** A concrete record: an epoch advance with a nine-byte payload. *)
Definition sample_record : DurableRecord :=
  mkRecord (mkHeader 0 0 (record_kind_raw RecordKind.EpochAdvance) 0 42 0 0) [1; 7; 0; 0; 0; 0; 0; 0; 0].

Definition sample_encoding : list Z := Eval vm_compute in
  match encode_record sample_record limits_defaults with Value bs => bs | Refused _ => [] end.

Lemma sample_record_in_range : record_in_range sample_record.
Proof. split; simpl; [ints_lia|ints_lia|]. repeat constructor; vm_compute; congruence. Qed.

Lemma sample_record_encoded : encode_record sample_record limits_defaults = Value sample_encoding.
Proof. vm_compute. reflexivity. Qed.

Lemma record_roundtrip_witness :
  dr_consumed (decode_record (Some (sample_encoding ++ [83; 70])) 43 limits_defaults) = 41.
Proof.
  exact (proj1 (proj2 (record_roundtrip sample_record limits_defaults sample_encoding [83; 70]
                         sample_record_in_range sample_record_encoded))).
Defined.

Lemma torn_append_recognised_witness :
  dr_disposition (decode_record (Some (take 30 sample_encoding)) 30 limits_defaults) = DecodeDisposition.TornTail.
Proof.
  refine (proj1 (torn_append_recognised sample_record limits_defaults sample_encoding (take 30 sample_encoding)
                   sample_record_in_range sample_record_encoded _)).
  exists (drop 30 sample_encoding). split; [done|reflexivity].
Defined.

Lemma damaged_record_refused_witness :
  refused_as_damaged (decode_record (Some (<[20%nat := 8]> sample_encoding ++ [1])) 42 limits_defaults).
Proof.
  refine (damaged_record_refused sample_record limits_defaults sample_encoding (<[20%nat := 8]> sample_encoding) [1]
            sample_record_in_range sample_record_encoded _ _).
  - exists (take 20 sample_encoding), [9], [8], (drop 21 sample_encoding).
    split; [reflexivity|]. split; [reflexivity|]. split; [reflexivity|]. split; [simpl; lia|congruence].
  - repeat constructor; vm_compute; congruence.
Defined.

Lemma accepted_record_is_encoded_witness :
  encode_record (dr_record (decode_record (Some sample_encoding) 41 limits_defaults)) limits_defaults
    = Value sample_encoding.
Proof.
  pose proof (accepted_record_is_encoded sample_encoding limits_defaults) as H. cbn zeta in H.
  destruct H as [H _]; [repeat constructor; vm_compute; congruence|vm_compute; reflexivity|].
  change (zlen sample_encoding) with 41 in H. rewrite H. vm_compute. reflexivity.
Defined.
