(* ===== verification/Wire.v ===== *)
(** Codecs of the values durable documents share (the file-local helpers of
    src/persist/records.cpp and src/plan/plan.cpp): keys, dependents, boot
    incarnations, counted lists and the leading format tag, with their wire
    formats and the steps that peel them off a document. *)

From S2P Require Import Prelude Containers Core Generation Bytes.

#[local] Open Scope codec_scope.

(** * Shared parts *)

Definition write_key (key : SwitchKey) : WriterM :=
  write_u64 (sk_id key);; write_u64 (sk_generation key).

Definition read_key : ReaderM SwitchKey :=
  id ← read_u64; generation ← read_u64; mret (mkSwitchKey id generation).

Definition write_dependent (d : DependentRef) : WriterM :=
  write_u8 (dependent_kind_raw (dep_kind d));; write_u64 (dep_id d).

(** The test of the kind that ends [read_dependent]. *)
Definition checked_dependent (message : string) (kind id : Z) : ReaderM DependentRef := fun r =>
  if negb (reader_ok r) then (dependent_none, r)
  else if negb (is_valid_dependent_kind kind) then
    (dependent_none, reader_fail Code.Invalid message r)
  else (mkDependent (default DependentKind.Unknown (dependent_kind_of_raw kind)) id, r).

Definition read_dependent (message : string) : ReaderM DependentRef :=
  kind ← read_u8; id ← read_u64; checked_dependent message kind id.

Definition write_boot (b : BootIncarnation) : WriterM :=
  write_u64 (boot_process_id b);; write_u64 (boot_ordinal b);;
  write_u64 (boot_nonce_hi b);; write_u64 (boot_nonce_lo b).

Definition read_boot : ReaderM BootIncarnation :=
  process_id ← read_u64; ordinal ← read_u64; nonce_hi ← read_u64; nonce_lo ← read_u64;
  mret (mkBoot process_id ordinal nonce_hi nonce_lo).

(** `writer.u32(uint32(l.size())); for (x : l) write(x);` before the rest. *)
Definition write_counted {A} (write : A -> WriterM) (l : list A) (rest : WriterM) : WriterM :=
  write_u32 (wrap32 (zlen l));; write_each write l;; rest.

(** The format tag a document starts with. *)
Definition check_tag {A} (expected : Z) (message : string) (k : ReaderM (Result A)) : ReaderM (Result A) :=
  tag ← read_u8;
  check_ok (if negb (tag =? expected) then mret (Refused (failure Code.VersionMismatch message)) else k).

(** * The formats of the shared parts *)

Definition key_bytes (k : SwitchKey) : list Z := le_bytes (sk_id k) 8 ++ le_bytes (sk_generation k) 8.
Definition key_in_range (k : SwitchKey) : Prop := in_u64 (sk_id k) /\ in_u64 (sk_generation k).

Definition dependent_bytes (d : DependentRef) : list Z :=
  [dependent_kind_raw (dep_kind d)] ++ le_bytes (dep_id d) 8.
Definition dependent_in_range (d : DependentRef) : Prop :=
  dep_kind d <> DependentKind.Unknown /\ in_u64 (dep_id d).

Definition boot_bytes (b : BootIncarnation) : list Z :=
  le_bytes (boot_process_id b) 8 ++ le_bytes (boot_ordinal b) 8 ++
  le_bytes (boot_nonce_hi b) 8 ++ le_bytes (boot_nonce_lo b) 8.
Definition boot_in_range (b : BootIncarnation) : Prop :=
  in_u64 (boot_process_id b) /\ in_u64 (boot_ordinal b) /\ in_u64 (boot_nonce_hi b) /\ in_u64 (boot_nonce_lo b).

Lemma writes_key k : writes (write_key k) (key_bytes k).
Proof. apply writes_seq; auto with codec. Qed.
Lemma writes_dependent d : writes (write_dependent d) (dependent_bytes d).
Proof. apply writes_seq; auto with codec. Qed.
Lemma writes_boot b : writes (write_boot b) (boot_bytes b).
Proof. repeat apply writes_seq; auto with codec. Qed.

Lemma writes_counted_ok {A} (write : A -> WriterM) (enc : A -> list Z) l rest bs : zlen l < two32 ->
  Forall (fun x => writes (write x) (enc x)) l -> writes rest bs ->
  writes (write_counted write l rest) (list_bytes enc l ++ bs).
Proof.
  intros Hl Hw Hr. unfold write_counted, list_bytes. rewrite <- app_assoc.
  pose proof (zlen_nonneg l). replace (wrap32 (zlen l)) with (zlen l) by (symmetry; apply Z.mod_small; ints_lia).
  apply writes_seq; [apply writes_u32|]. apply writes_seq; [|done]. apply writes_each. by apply Forall_forall.
Qed.

Lemma writes_counted {A} (write : A -> WriterM) (enc : A -> list Z) l rest bs : zlen l < two32 ->
  (forall x, writes (write x) (enc x)) -> writes rest bs ->
  writes (write_counted write l rest) (list_bytes enc l ++ bs).
Proof. intros Hl Hw Hr. apply writes_counted_ok; [done| |done]. by apply Forall_true. Qed.

#[export] Hint Resolve writes_key writes_dependent writes_boot : codec.

Lemma cut_key k : cut_writes (write_key k) (key_bytes k).
Proof. apply cut_seq; auto with cut. Qed.
Lemma cut_dependent d : cut_writes (write_dependent d) (dependent_bytes d).
Proof. apply cut_seq; auto with cut. Qed.
Lemma cut_boot b : cut_writes (write_boot b) (boot_bytes b).
Proof. repeat apply cut_seq; auto with cut. Qed.

Lemma cut_counted {A} (write : A -> WriterM) (enc : A -> list Z) l rest bs : zlen l < two32 ->
  Forall (fun x => cut_writes (write x) (enc x)) l -> cut_writes rest bs ->
  cut_writes (write_counted write l rest) (list_bytes enc l ++ bs).
Proof.
  intros Hl Hw Hr. unfold write_counted, list_bytes. rewrite <- app_assoc.
  pose proof (zlen_nonneg l). replace (wrap32 (zlen l)) with (zlen l) by (symmetry; apply Z.mod_small; ints_lia).
  apply cut_seq; [apply cut_all|]. apply cut_seq; [by apply cut_each|done].
Qed.

#[export] Hint Resolve cut_key cut_dependent cut_boot : cut.

(** Two consecutive reads, the second of which determines the value. *)
Lemma wire_bind {A B} lim (ok : A -> Prop) enc (read : ReaderM A) (k : A -> ReaderM B) (okb : B -> Prop) encb encr
  (first : B -> A) :
  WireFormat lim ok enc read -> (forall x, Sticky (k x)) ->
  (forall b, okb b -> ok (first b) /\ encb b = enc (first b) ++ encr b) ->
  (forall x, WireFormat lim (fun b => okb b /\ first b = x) encr (k x)) ->
  WireFormat lim okb encb (read ≫= k).
Proof.
  intros Hw Hs Hok Hk. split; [| |apply _]; intros b Hb; destruct (Hok b Hb) as [Hf ->].
  - eapply decodes_bind; [by apply Hw|by apply Hk].
  - eapply truncates_bind; [by apply Hw|by apply Hw|done|by apply Hk].
Qed.

#[export] Instance wire_key lim : WireFormat lim key_in_range key_bytes read_key.
Proof.
  apply (wire_bind lim in_u64 (fun v => le_bytes v 8) _ _ _ _ (fun k => le_bytes (sk_generation k) 8) sk_id);
    [apply _|apply _|by intros k [? ?]|].
  intros id. eapply wire_map; [apply (wire_u64 lim)|]. intros [i g] [[_ ?] <-]. eauto.
Qed.

#[export] Instance wire_boot lim : WireFormat lim boot_in_range boot_bytes read_boot.
Proof.
  unfold read_boot.
  apply (wire_bind lim in_u64 (fun v => le_bytes v 8) _ _ _ _
    (fun b => le_bytes (boot_ordinal b) 8 ++ le_bytes (boot_nonce_hi b) 8 ++ le_bytes (boot_nonce_lo b) 8)
    boot_process_id); [apply _|apply _|by intros b [? ?]|]. intros p.
  apply (wire_bind lim in_u64 (fun v => le_bytes v 8) _ _ _ _
    (fun b => le_bytes (boot_nonce_hi b) 8 ++ le_bytes (boot_nonce_lo b) 8) boot_ordinal);
    [apply _|apply _|by intros b [(? & ? & ?) _]|]. intros o.
  apply (wire_bind lim in_u64 (fun v => le_bytes v 8) _ _ _ _ (fun b => le_bytes (boot_nonce_lo b) 8) boot_nonce_hi);
    [apply _|apply _|by intros b [[(? & ? & ? & ?) _] _]|]. intros hi.
  eapply wire_map; [apply (wire_u64 lim)|]. intros [p' o' hi' lo'] [[[(_ & _ & _ & ?) <-] <-] <-]. eauto.
Qed.

#[export] Instance sticky_checked message kind id : Sticky (checked_dependent message kind id).
Proof. intros r Hr. unfold checked_dependent. by rewrite Hr. Qed.

#[export] Instance wire_dependent lim message :
  WireFormat lim dependent_in_range dependent_bytes (read_dependent message).
Proof.
  assert (Hk : forall d, dependent_in_range d -> in_u8 (dependent_kind_raw (dep_kind d)) /\
    is_valid_dependent_kind (dependent_kind_raw (dep_kind d)) = true /\
    dependent_kind_of_raw (dependent_kind_raw (dep_kind d)) = Some (dep_kind d)).
  { intros [[] i] [? ?]; simpl in *; try congruence; (split; [ints_lia|done]). }
  split; [| |unfold read_dependent; apply _]; intros d Hd; destruct (Hk d Hd) as (Hr & Hv & Hof); destruct Hd as [_ Hi].
  - eapply decodes_bind; [by apply wire_u8|]. rewrite <- (app_nil_r (le_bytes _ 8)).
    eapply decodes_bind; [by apply wire_u64|]. intros pre post. unfold checked_dependent.
    rewrite reader_ok_at_pos, Hv, Hof. cbn [negb default]. rewrite zlen_nil, Z.add_0_r. by destruct d.
  - eapply truncates_bind; [by apply wire_u8|by apply (wire_truncates (WireFormat := wire_u8 lim))|apply _|].
    rewrite <- (app_nil_r (le_bytes _ 8)).
    eapply truncates_bind; [by apply wire_u64|by apply wire_u64|apply _|apply truncates_nil].
Qed.

#[export] Instance wire_keys lim : WireFormat lim
  (fun l => Forall key_in_range l /\ zlen l <= lim /\ zlen l < two32) (list_bytes key_bytes) (read_list 16 read_key).
Proof.
  apply (wire_list lim key_in_range key_bytes read_key); [lia|].
  intros key _. unfold key_bytes. rewrite zlen_app, !zlen_le_bytes. lia.
Qed.

#[export] Instance wire_u64s lim : WireFormat lim
  (fun l => Forall in_u64 l /\ zlen l <= lim /\ zlen l < two32) (list_bytes (fun v => le_bytes v 8))
  (read_list 8 read_u64).
Proof. apply (wire_list lim in_u64 (fun v => le_bytes v 8) read_u64); [lia|]. intros v _. rewrite zlen_le_bytes. lia. Qed.

(** * Steps through a document *)

Section steps.
Context {B : Type} (lim : Z) (bs : list Z) (b : B).

Lemma document_u8 (k : Z -> ReaderM (Result B)) x : in_u8 x -> (forall y, FailClosed (k y)) ->
  document lim bs (k x) b -> document lim ([x] ++ bs) (read_u8 ≫= k) b.
Proof. intros. by apply (document_bind lim in_u8 (fun v => [v])); [apply _|..]. Qed.

Lemma document_u64 (k : Z -> ReaderM (Result B)) x : in_u64 x -> (forall y, FailClosed (k y)) ->
  document lim bs (k x) b -> document lim (le_bytes x 8 ++ bs) (read_u64 ≫= k) b.
Proof. intros. by apply (document_bind lim in_u64 (fun v => le_bytes v 8)); [apply _|..]. Qed.

Lemma document_key (k : SwitchKey -> ReaderM (Result B)) x : key_in_range x -> (forall y, FailClosed (k y)) ->
  document lim bs (k x) b -> document lim (key_bytes x ++ bs) (read_key ≫= k) b.
Proof. intros. by apply (document_bind lim key_in_range); [apply _|..]. Qed.

Lemma document_boot (k : BootIncarnation -> ReaderM (Result B)) x : boot_in_range x -> (forall y, FailClosed (k y)) ->
  document lim bs (k x) b -> document lim (boot_bytes x ++ bs) (read_boot ≫= k) b.
Proof. intros. by apply (document_bind lim boot_in_range); [apply _|..]. Qed.

Lemma document_dependent message (k : DependentRef -> ReaderM (Result B)) x : dependent_in_range x ->
  (forall y, FailClosed (k y)) ->
  document lim bs (k x) b -> document lim (dependent_bytes x ++ bs) (read_dependent message ≫= k) b.
Proof. intros. by apply (document_bind lim dependent_in_range); [apply _|..]. Qed.

Lemma document_keys (k : list SwitchKey -> ReaderM (Result B)) x :
  Forall key_in_range x /\ zlen x <= lim /\ zlen x < two32 -> (forall y, FailClosed (k y)) ->
  document lim bs (k x) b -> document lim (list_bytes key_bytes x ++ bs) (read_list 16 read_key ≫= k) b.
Proof.
  intros. apply (document_bind lim (fun l => Forall key_in_range l /\ zlen l <= lim /\ zlen l < two32)
    (list_bytes key_bytes)); [apply _|done..].
Qed.

(** The last field of most payloads is a string. *)
Lemma document_string (k : string -> ReaderM (Result B)) s : short lim (string_bytes s) ->
  (forall y, FailClosed (k y)) ->
  document lim [] (k s) b -> document lim (prefixed (string_bytes s)) (read_string ≫= k) b.
Proof.
  intros. rewrite <- (app_nil_r (prefixed _)).
  by apply (document_bind lim (fun s => short lim (string_bytes s)) (fun s => prefixed (string_bytes s))); [apply _|..].
Qed.

Lemma document_tag tag message (k : ReaderM (Result B)) : in_u8 tag ->
  document lim bs k b -> document lim ([tag] ++ bs) (check_tag tag message k) b.
Proof.
  intros Ht Hk. apply document_u8; [done|apply _|]. apply document_ok.
  by rewrite Z.eqb_refl.
Qed.
End steps.

(** The field in front of an element of a list of steps, and of a document. *)
Ltac part_field ok enc := apply (part_bind _ ok enc); [apply _| |intros; apply _|].
Ltac document_field ok enc := apply (document_bind _ ok enc); [apply _| |intros; apply _|].

(** Peel the fields of a payload off both sides. *)
Ltac document_steps :=
  repeat first
    [ apply document_tag; [split; vm_compute; congruence|] | apply document_key | apply document_boot | apply document_dependent
    | apply document_keys | apply document_u64 | apply document_u8 | apply document_string
    | apply document_ok ];
  try (intros; apply _).

Ltac writes_steps :=
  repeat first [ eapply writes_counted | eapply writes_seq ]; eauto with codec.

Definition small_text (lim : Z) (s : string) : Prop := str_size s <= lim.

Lemma small_text_short lim s : small_text lim s -> lim <= Z.shiftl 1 24 -> short lim (string_bytes s).
Proof.
  unfold small_text, short. rewrite length_string_bytes. change (Z.shiftl 1 24) with 16777216. ints. lia.
Qed.

Lemma writes_text lim s : short lim (string_bytes s) -> writes (write_string s) (prefixed (string_bytes s)).
Proof. intros [_ H]. apply writes_string. by rewrite <- length_string_bytes. Qed.

Lemma zlen_prefixed_string s : zlen (prefixed (string_bytes s)) = 4 + str_size s.
Proof. unfold prefixed. by rewrite zlen_app, zlen_le_bytes, length_string_bytes. Qed.

Lemma zlen_key_bytes k : zlen (key_bytes k) = 16.
Proof. unfold key_bytes. by rewrite zlen_app, !zlen_le_bytes. Qed.
Lemma zlen_boot_bytes b : zlen (boot_bytes b) = 32.
Proof. unfold boot_bytes. by rewrite !zlen_app, !zlen_le_bytes. Qed.
Lemma zlen_dependent_bytes d : zlen (dependent_bytes d) = 9.
Proof. unfold dependent_bytes. by rewrite zlen_app, zlen_le_bytes. Qed.
Lemma zlen_keys_bytes l : zlen (list_bytes key_bytes l) = 4 + 16 * zlen l.
Proof.
  unfold list_bytes. rewrite zlen_app, zlen_le_bytes. change (Z.of_nat 4) with 4. f_equal.
  induction l as [|k l IH]; [done|]. cbn [fmap list_fmap concat]. rewrite zlen_app, zlen_cons, zlen_key_bytes. lia.
Qed.

#[export] Hint Rewrite zlen_prefixed_string zlen_key_bytes zlen_boot_bytes zlen_dependent_bytes
  zlen_keys_bytes zlen_le_bytes : zlen.
