(* ===== verification/Decision.v ===== *)
(** Decisions, bounded explanations and the bounded logs
    (include/sff/model/decision.hpp, src/model/decision.cpp,
    include/sff/core/log.hpp, src/core/log.cpp, src/core/version.cpp). *)

From S2P Require Import Prelude Containers Core Generation.

(** * Provenance *)

Module EvidenceClass.
Inductive EvidenceClass := Real | Synthetic | Unsupported.
End EvidenceClass.
Abbreviation EvidenceClass := EvidenceClass.EvidenceClass.

Definition evidence_class_raw (c : EvidenceClass) : Z :=
  match c with EvidenceClass.Real => 0 | EvidenceClass.Synthetic => 1 | EvidenceClass.Unsupported => 2 end.

Definition evidence_class_to_string (c : EvidenceClass) : string :=
  match c with
  | EvidenceClass.Real => "REAL"
  | EvidenceClass.Synthetic => "SYNTHETIC"
  | EvidenceClass.Unsupported => "UNSUPPORTED"
  end.

(** * Explanations *)

Definition kMaxTermBytes : Z := 256.

Definition bounded_term (text : string) : string :=
  if str_size text <=? kMaxTermBytes then text else str_prefix kMaxTermBytes text.

Record ExplanationTerm := mkTerm { term_key : string; term_value : string }.

Record Explanation := mkExplanation {
  ex_terms : list ExplanationTerm;
  ex_limit : Z;
  ex_truncated : bool
}.

Definition explanation_new (term_limit : Z) : Explanation :=
  mkExplanation [] (if term_limit =? 0 then 1 else term_limit) false.

Definition explanation_default : Explanation := mkExplanation [] 64 false.

Definition explain (e : Explanation) (key value : string) : Explanation :=
  if ex_limit e <=? zlen (ex_terms e) then mkExplanation (ex_terms e) (ex_limit e) true
  else mkExplanation (ex_terms e ++ [mkTerm (bounded_term key) (bounded_term value)]) (ex_limit e) (ex_truncated e).

Definition explain_u64 (e : Explanation) (key : string) (value : Z) : Explanation := explain e key (dec value).
Definition explain_bool (e : Explanation) (key : string) (value : bool) : Explanation :=
  explain e key (if value then "true" else "false").
Definition explain_code (e : Explanation) (key : string) (code : Code) : Explanation :=
  explain e key (code_to_string code).
Definition explain_key (e : Explanation) (key : string) (k : SwitchKey) : Explanation :=
  explain e key (key_to_string k).
Definition explain_dependent (e : Explanation) (key : string) (d : DependentRef) : Explanation :=
  explain e key (dependent_to_string d).

Definition explanation_canonical (e : Explanation) : string :=
  foldl (fun acc t => acc +:+ term_key t +:+ "=" +:+ term_value t +:+ ";") "" (ex_terms e)
  +:+ (if ex_truncated e then "truncated=true;" else "").

Definition absorb_term (t : ExplanationTerm) (d : Digest128) : Digest128 :=
  absorb_string (term_value t) (absorb_string (term_key t) d).

Definition explanation_digest (e : Explanation) : Z :=
  dig_hi (absorb_bool (ex_truncated e)
    (absorb_each absorb_term (ex_terms e) (absorb_string "sff.explanation.v1" digest_init))).

(** * Decisions *)

Module DecisionKind.
Inductive DecisionKind :=
| Unknown | SwitchFailure | FenceCommit | ClosureComputation | ReplacementEligibility
| ReconstructionPlan | PlanValidation | ApplyEffect | ServiceRestore | AuthorityQuery
| RestartReconciliation | EvidenceAdmission.
End DecisionKind.
Abbreviation DecisionKind := DecisionKind.DecisionKind.

Definition decision_kind_raw (k : DecisionKind) : Z :=
  match k with
  | DecisionKind.Unknown => 0 | DecisionKind.SwitchFailure => 1 | DecisionKind.FenceCommit => 2
  | DecisionKind.ClosureComputation => 3 | DecisionKind.ReplacementEligibility => 4
  | DecisionKind.ReconstructionPlan => 5 | DecisionKind.PlanValidation => 6 | DecisionKind.ApplyEffect => 7
  | DecisionKind.ServiceRestore => 8 | DecisionKind.AuthorityQuery => 9
  | DecisionKind.RestartReconciliation => 10 | DecisionKind.EvidenceAdmission => 11
  end.

Definition decision_kind_to_string (k : DecisionKind) : string :=
  match k with
  | DecisionKind.Unknown => "UNKNOWN"
  | DecisionKind.SwitchFailure => "SWITCH_FAILURE"
  | DecisionKind.FenceCommit => "FENCE_COMMIT"
  | DecisionKind.ClosureComputation => "CLOSURE_COMPUTATION"
  | DecisionKind.ReplacementEligibility => "REPLACEMENT_ELIGIBILITY"
  | DecisionKind.ReconstructionPlan => "RECONSTRUCTION_PLAN"
  | DecisionKind.PlanValidation => "PLAN_VALIDATION"
  | DecisionKind.ApplyEffect => "APPLY_EFFECT"
  | DecisionKind.ServiceRestore => "SERVICE_RESTORE"
  | DecisionKind.AuthorityQuery => "AUTHORITY_QUERY"
  | DecisionKind.RestartReconciliation => "RESTART_RECONCILIATION"
  | DecisionKind.EvidenceAdmission => "EVIDENCE_ADMISSION"
  end.

Module SubjectKind.
Inductive SubjectKind := None | Switch | Dependent | Plan | Runtime.
End SubjectKind.
Abbreviation DecisionSubjectKind := SubjectKind.SubjectKind.

Definition subject_kind_raw (k : DecisionSubjectKind) : Z :=
  match k with
  | SubjectKind.None => 0 | SubjectKind.Switch => 1 | SubjectKind.Dependent => 2 | SubjectKind.Plan => 3
  | SubjectKind.Runtime => 4
  end.

Definition subject_kind_to_string (k : DecisionSubjectKind) : string :=
  match k with
  | SubjectKind.None => "NONE"
  | SubjectKind.Switch => "SWITCH"
  | SubjectKind.Dependent => "DEPENDENT"
  | SubjectKind.Plan => "PLAN"
  | SubjectKind.Runtime => "RUNTIME"
  end.

Record DecisionScope := mkScope {
  scope_kind : DecisionSubjectKind;
  scope_subject : SwitchKey;
  scope_dependent : DependentRef;
  scope_plan : Z;
  scope_label : string
}.

Definition key_none : SwitchKey := mkSwitchKey 0 0.

Definition scope_of_switch (key : SwitchKey) (label : string) : DecisionScope :=
  mkScope SubjectKind.Switch key dependent_none 0 (bounded_term label).
Definition scope_of_dependent (d : DependentRef) (label : string) : DecisionScope :=
  mkScope SubjectKind.Dependent key_none d 0 (bounded_term label).
Definition scope_of_plan (plan : Z) (label : string) : DecisionScope :=
  mkScope SubjectKind.Plan key_none dependent_none plan (bounded_term label).
Definition scope_of_runtime (label : string) : DecisionScope :=
  mkScope SubjectKind.Runtime key_none dependent_none 0 (bounded_term label).

Definition scope_valid (s : DecisionScope) : bool :=
  match scope_kind s with
  | SubjectKind.Switch => key_valid (scope_subject s)
  | SubjectKind.Dependent => dependent_valid (scope_dependent s)
  | SubjectKind.Plan => id_valid (scope_plan s)
  | SubjectKind.Runtime => true
  | SubjectKind.None => false
  end.

Definition scope_digest (s : DecisionScope) : Z :=
  dig_hi (absorb_u64 (scope_plan s) (absorb_dependent (scope_dependent s) (absorb_key (scope_subject s)
    (absorb_byte (subject_kind_raw (scope_kind s)) (absorb_string "sff.decision-scope.v1" digest_init))))).

Definition scope_to_string (s : DecisionScope) : string :=
  match scope_kind s with
  | SubjectKind.Switch => "switch:" +:+ key_to_string (scope_subject s)
  | SubjectKind.Dependent => "dependent:" +:+ dependent_to_string (scope_dependent s)
  | SubjectKind.Plan => "plan:" +:+ dec (scope_plan s)
  | SubjectKind.Runtime => "runtime"
  | SubjectKind.None => "none"
  end.

Record Decision := mkDecision {
  dn_id : Z;
  dn_kind : DecisionKind;
  dn_scope : DecisionScope;
  dn_outcome : Code;
  dn_reason : Code;
  dn_bound : GenerationVector;
  dn_epoch : Z;
  dn_boot : BootIncarnation;
  dn_evidence_class : EvidenceClass;
  dn_explanation : Explanation;
  dn_recorded_at_ns : Z
}.

(** Outcome and reason are absorbed as `uint8_t(code)`: the low byte of the code. *)
Definition decision_digest (d : Decision) : Z :=
  dig_hi
    (absorb_u64 (explanation_digest (dn_explanation d))
      (absorb_byte (evidence_class_raw (dn_evidence_class d))
        (absorb_u64 (boot_ordinal (dn_boot d))
          (absorb_u64 (dn_epoch d)
            (absorb_u64 (gv_digest (dn_bound d))
              (absorb_byte (wrap8 (code_raw (dn_reason d)))
                (absorb_byte (wrap8 (code_raw (dn_outcome d)))
                  (absorb_u64 (scope_digest (dn_scope d))
                    (absorb_byte (decision_kind_raw (dn_kind d))
                      (absorb_u64 (dn_id d) (absorb_string "sff.decision.v1" digest_init))))))))))).

Definition decision_to_string (d : Decision) : string :=
  decision_kind_to_string (dn_kind d) +:+ " " +:+ scope_to_string (dn_scope d) +:+ " outcome="
  +:+ code_to_string (dn_outcome d) +:+ " reason=" +:+ code_to_string (dn_reason d) +:+ " class="
  +:+ evidence_class_to_string (dn_evidence_class d).

(** * Bounded logs *)

(** Entries that carry the number the log gives them. *)
Class Numbered (A : Type) := {
  number : A -> Z;
  with_number : Z -> A -> A;
  number_with_number : forall n a, number (with_number n a) = n
}.

(** The state shared by EventLog and DecisionLog. *)
Record BoundedLog (A : Type) := mkLog {
  log_items : list A;
  log_capacity : Z;
  log_next : Z;
  log_dropped : Z
}.
Arguments mkLog {A}.
Arguments log_items {A}.
Arguments log_capacity {A}.
Arguments log_next {A}.
Arguments log_dropped {A}.

Section logs.
Context {A : Type} `{Numbered A}.

Definition log_new (capacity : Z) : BoundedLog A := mkLog [] (if capacity =? 0 then 1 else capacity) 1 0.

(** `while (items.size() > capacity) { items.pop_front(); dropped += 1; }` *)
Fixpoint evict (items : list A) (capacity dropped : Z) : list A * Z :=
  match items with
  | [] => ([], dropped)
  | _ :: rest => if capacity <? zlen items then evict rest capacity (add64 dropped 1) else (items, dropped)
  end.

Definition log_append (x : A) (log : BoundedLog A) : BoundedLog A :=
  let '(items, dropped) :=
    evict (log_items log ++ [with_number (log_next log) x]) (log_capacity log) (log_dropped log) in
  mkLog items (log_capacity log) (add64 (log_next log) 1) dropped.

(** The last [min(count, size)] entries, oldest first. *)
Definition log_tail (count : Z) (log : BoundedLog A) : list A :=
  let n := Z.min count (zlen (log_items log)) in
  drop (Z.to_nat (zlen (log_items log) - n)) (log_items log).

Definition log_clear (log : BoundedLog A) : BoundedLog A :=
  mkLog [] (log_capacity log) (log_next log) (log_dropped log).

Definition log_set_capacity (capacity : Z) (log : BoundedLog A) : BoundedLog A :=
  let capacity := if capacity =? 0 then 1 else capacity in
  let '(items, dropped) := evict (log_items log) capacity (log_dropped log) in
  mkLog items capacity (log_next log) dropped.

Definition log_first (log : BoundedLog A) : Z := match head (log_items log) with None => 0 | Some x => number x end.
Definition log_last (log : BoundedLog A) : Z := match last (log_items log) with None => 0 | Some x => number x end.
Definition log_last_id (log : BoundedLog A) : Z := sub64 (log_next log) 1.
End logs.

Module EventKind.
Inductive EventKind :=
| Unknown | RuntimeBooted | RuntimeShutdown | EpochAdvanced | TopologyInstalled | EvidenceAdmitted
| EvidenceRejected | FailureDeclared | FenceCommitted | AuthorityGranted | AuthorityRevoked
| PlanProposed | PlanValidated | PlanRejected | PlanCommitted | ApplyAttempted | ApplyAcknowledged
| ApplyVerified | RestoreDecided | RestartReconciled | SessionOpened | SessionClosed | Refused.
End EventKind.
Abbreviation EventKind := EventKind.EventKind.

Definition event_kind_to_string (k : EventKind) : string :=
  match k with
  | EventKind.Unknown => "UNKNOWN"
  | EventKind.RuntimeBooted => "RUNTIME_BOOTED"
  | EventKind.RuntimeShutdown => "RUNTIME_SHUTDOWN"
  | EventKind.EpochAdvanced => "EPOCH_ADVANCED"
  | EventKind.TopologyInstalled => "TOPOLOGY_INSTALLED"
  | EventKind.EvidenceAdmitted => "EVIDENCE_ADMITTED"
  | EventKind.EvidenceRejected => "EVIDENCE_REJECTED"
  | EventKind.FailureDeclared => "FAILURE_DECLARED"
  | EventKind.FenceCommitted => "FENCE_COMMITTED"
  | EventKind.AuthorityGranted => "AUTHORITY_GRANTED"
  | EventKind.AuthorityRevoked => "AUTHORITY_REVOKED"
  | EventKind.PlanProposed => "PLAN_PROPOSED"
  | EventKind.PlanValidated => "PLAN_VALIDATED"
  | EventKind.PlanRejected => "PLAN_REJECTED"
  | EventKind.PlanCommitted => "PLAN_COMMITTED"
  | EventKind.ApplyAttempted => "APPLY_ATTEMPTED"
  | EventKind.ApplyAcknowledged => "APPLY_ACKNOWLEDGED"
  | EventKind.ApplyVerified => "APPLY_VERIFIED"
  | EventKind.RestoreDecided => "RESTORE_DECIDED"
  | EventKind.RestartReconciled => "RESTART_RECONCILED"
  | EventKind.SessionOpened => "SESSION_OPENED"
  | EventKind.SessionClosed => "SESSION_CLOSED"
  | EventKind.Refused => "REFUSED"
  end.

Record EventRecord := mkEvent {
  ev_seq : Z;
  ev_at_ns : Z;
  ev_kind : EventKind;
  ev_code : Code;
  ev_subject : Z;
  ev_generation : Z;
  ev_text : string
}.

#[export] Instance event_numbered : Numbered EventRecord := {|
  number := ev_seq;
  with_number n e := mkEvent n (ev_at_ns e) (ev_kind e) (ev_code e) (ev_subject e) (ev_generation e) (ev_text e);
  number_with_number _ _ := eq_refl
|}.

#[export] Instance decision_numbered : Numbered Decision := {|
  number := dn_id;
  with_number n d := mkDecision n (dn_kind d) (dn_scope d) (dn_outcome d) (dn_reason d) (dn_bound d) (dn_epoch d)
    (dn_boot d) (dn_evidence_class d) (dn_explanation d) (dn_recorded_at_ns d);
  number_with_number _ _ := eq_refl
|}.

Abbreviation EventLog := (BoundedLog EventRecord).
Abbreviation DecisionLog := (BoundedLog Decision).

(** [EventLog::append]; the clock reading is an argument, 0 without a clock. *)
Definition event_append (now_ns : Z) (kind : EventKind) (code : Code) (text : string) (subject generation : Z)
  (log : EventLog) : EventLog :=
  log_append (mkEvent 0 now_ns kind code subject generation (bounded_message text)) log.

Definition decision_append (d : Decision) (log : DecisionLog) : DecisionLog := log_append d log.

(** * Facts about logs *)

(** The operations of a log's history. *)
Inductive LogOp (A : Type) := OpAppend (x : A) | OpClear | OpSetCapacity (capacity : Z).
Arguments OpAppend {A}.
Arguments OpClear {A}.
Arguments OpSetCapacity {A}.

Definition log_run {A} `{Numbered A} (ops : list (LogOp A)) (log : BoundedLog A) : BoundedLog A :=
  foldl (fun log op => match op with
                       | OpAppend x => log_append x log
                       | OpClear => log_clear log
                       | OpSetCapacity c => log_set_capacity c log
                       end) log ops.

Section log_facts.
Context {A : Type} `{Numbered A}.

(** Retained entries are the newest ones: within the capacity, numbered
    consecutively up to the last number given out. *)
Record log_inv (log : BoundedLog A) : Prop := {
  li_capacity : 1 <= log_capacity log;
  li_bound : zlen (log_items log) <= log_capacity log;
  li_numbers : number <$> log_items log = seqZ (log_next log - zlen (log_items log)) (zlen (log_items log))
}.

Lemma evict_spec (items : list A) capacity dropped : 1 <= capacity ->
  evict items capacity dropped =
    (drop (Z.to_nat (zlen items - capacity)) items,
     (evict items capacity dropped).2).
Proof.
  intros Hc. revert dropped. induction items as [|x items IH]; intros dropped; [by rewrite drop_nil|].
  cbn [evict]. destruct (capacity <? zlen (x :: items)) eqn:E; bool_prop; rewrite zlen_cons in *.
  - rewrite IH. replace (Z.to_nat (zlen items + 1 - capacity)) with (S (Z.to_nat (zlen items - capacity))) by lia.
    done.
  - by replace (Z.to_nat (zlen items + 1 - capacity)) with 0%nat by lia.
Qed.

Lemma drop_seqZ k m n : drop k (seqZ m n) = seqZ (m + Z.of_nat k) (n - Z.of_nat k).
Proof.
  apply list_eq. intros i. rewrite lookup_drop. apply option_eq. intros x. rewrite !lookup_seqZ. lia.
Qed.

Lemma evict_inv capacity next dropped (items : list A) : 1 <= capacity ->
  number <$> items = seqZ (next - zlen items) (zlen items) ->
  let kept := (evict items capacity dropped).1 in
  zlen kept <= capacity /\ number <$> kept = seqZ (next - zlen kept) (zlen kept).
Proof.
  intros Hc Hn kept. unfold kept. rewrite evict_spec by done. cbn [fst]. set (k := Z.to_nat (zlen items - capacity)).
  assert (Hz : zlen (drop k items) = zlen items - Z.of_nat k) by (unfold k, zlen; rewrite length_drop; lia).
  split; [unfold k in *; lia|]. rewrite fmap_drop, Hn, drop_seqZ, Hz. f_equal. lia.
Qed.

Lemma log_append_inv x log : log_inv log -> 0 <= log_next log < UINT64_MAX ->
  log_inv (log_append x log) /\ log_next (log_append x log) = log_next log + 1.
Proof.
  intros [H1 H2 H3] Hb. unfold log_append.
  assert (Hnum : number <$> (log_items log ++ [with_number (log_next log) x]) =
    seqZ (log_next log + 1 - zlen (log_items log ++ [with_number (log_next log) x]))
         (zlen (log_items log ++ [with_number (log_next log) x]))).
  { rewrite fmap_app, H3, zlen_app, zlen_cons, zlen_nil. cbn [fmap list_fmap]. rewrite number_with_number.
    pose proof (zlen_nonneg (log_items log)). rewrite seqZ_app by lia. f_equal; [f_equal; lia|].
    rewrite seqZ_cons by lia. rewrite seqZ_nil by lia. f_equal. lia. }
  destruct (evict_inv (log_capacity log) (log_next log + 1) (log_dropped log) _ H1 Hnum) as [E1 E2].
  destruct (evict _ _ _) as [items dropped]. cbn [fst] in *.
  assert (Ha : add64 (log_next log) 1 = log_next log + 1) by (apply add64_small; ints_lia).
  rewrite Ha. split; [|done]. by split.
Qed.

Lemma log_set_capacity_inv c log : log_inv log -> 0 <= c -> log_inv (log_set_capacity c log).
Proof.
  intros [H1 H2 H3] Hc. unfold log_set_capacity. set (cap := if c =? 0 then 1 else c).
  assert (Hcap : 1 <= cap) by (unfold cap; destruct (c =? 0) eqn:E; bool_prop; lia).
  destruct (evict_inv cap (log_next log) (log_dropped log) _ Hcap H3) as [E1 E2].
  destruct (evict _ _ _) as [items dropped]. by split.
Qed.

Definition op_ok (op : LogOp A) : Prop := match op with OpSetCapacity c => 0 <= c | _ => True end.

Lemma log_run_inv ops : forall log, Forall op_ok ops -> log_inv log -> 0 <= log_next log ->
  log_next log + zlen ops <= UINT64_MAX ->
  log_inv (log_run ops log) /\ log_next log <= log_next (log_run ops log) <= log_next log + zlen ops.
Proof.
  induction ops as [|op ops IH]; intros log Hok Hi H0 Hb; [split; [done|rewrite zlen_nil; simpl; lia]|].
  inversion_clear Hok. rewrite zlen_cons in *. pose proof (zlen_nonneg ops). cbn [log_run foldl].
  fold (log_run ops). destruct op as [x| |c].
  - destruct (log_append_inv x log Hi ltac:(lia)) as [Hi' Hn]. destruct (IH (log_append x log)) as [G1 G2]; [done|done|lia|lia|].
    split; [done|]. change (foldl _ (log_append x log) ops) with (log_run ops (log_append x log)). lia.
  - assert (Hc : log_inv (log_clear log)) by (destruct Hi; split; simpl; [done|unfold zlen; simpl; lia|done]).
    destruct (IH (log_clear log)) as [G1 G2]; [done|done|done|simpl; lia|]. split; [done|].
    change (foldl _ (log_clear log) ops) with (log_run ops (log_clear log)). simpl in G2. lia.
  - assert (Hn : log_next (log_set_capacity c log) = log_next log)
      by (unfold log_set_capacity; by destruct (evict _ _ _)).
    destruct (IH (log_set_capacity c log)) as [G1 G2]; [done|by apply log_set_capacity_inv|lia|lia|]. split; [done|].
    change (foldl _ (log_set_capacity c log) ops) with (log_run ops (log_set_capacity c log)). lia.
Qed.
End log_facts.

(** ** Properties *)

(** A bounded log keeps exactly the newest entries. After any history of
    appends, clears and capacity changes it is within its capacity, its
    entries carry consecutive numbers that end with the last number given out,
    numbers are never reused, and a tail of any length is the end of what is
    retained, in order. *)
Theorem logs_keep_newest {A} `{Numbered A} capacity (ops : list (LogOp A)) :
  0 <= capacity -> Forall op_ok ops -> zlen ops < UINT64_MAX ->
  let log := log_run ops (log_new capacity) in
  log_inv log /\ 1 <= log_next log <= 1 + zlen ops /\
  forall count, 0 <= count ->
    zlen (log_tail count log) = Z.min count (zlen (log_items log)) /\
    exists older, log_items log = older ++ log_tail count log.
Proof.
  intros Hc Hok Hb log.
  assert (Hnew : log_inv (log_new (A := A) capacity)).
  { unfold log_new. split; simpl; [destruct (capacity =? 0) eqn:E; bool_prop; lia| |done].
    unfold zlen. simpl. destruct (capacity =? 0); lia. }
  destruct (log_run_inv ops (log_new capacity) Hok Hnew) as [Hi Hn]; [simpl; lia|simpl; lia|].
  split; [done|]. split; [simpl in Hn; done|]. intros count H0. unfold log_tail. fold log.
  pose proof (zlen_nonneg (log_items log)). split.
  - unfold zlen at 1. rewrite length_drop. unfold zlen in *. lia.
  - exists (take (Z.to_nat (zlen (log_items log) - Z.min count (zlen (log_items log)))) (log_items log)).
    by rewrite take_drop.
Qed.

Definition sample_decision : Decision :=
  mkDecision 0 DecisionKind.FenceCommit (scope_of_runtime "boot") Code.Ok Code.Ok [] 1 boot_none
    EvidenceClass.Real explanation_default 5.

Lemma logs_keep_newest_witness :
  log_inv (log_run [OpAppend sample_decision; OpAppend sample_decision; OpAppend sample_decision] (log_new 2)).
Proof.
  refine (proj1 (logs_keep_newest 2 [OpAppend sample_decision; OpAppend sample_decision; OpAppend sample_decision] _ _ _));
    [lia|repeat constructor|vm_compute; reflexivity].
Defined.

Example sample_log_numbers :
  number <$> log_items (log_run [OpAppend sample_decision; OpAppend sample_decision; OpAppend sample_decision]
    (log_new 2)) = [2; 3].
Proof. reflexivity. Qed.

(** The budget of an explanation holds whatever is added to it, and an addition
    it refuses is reported as truncation. *)
Lemma explain_bounded e key value : zlen (ex_terms e) <= ex_limit e ->
  zlen (ex_terms (explain e key value)) <= ex_limit (explain e key value) /\
  ex_limit (explain e key value) = ex_limit e /\
  (ex_terms (explain e key value) = ex_terms e -> ex_truncated (explain e key value) = true).
Proof.
  intros Hb. unfold explain. destruct (_ <=? _) eqn:E; bool_prop; simpl; [done|].
  rewrite zlen_app, zlen_cons, zlen_nil. split; [lia|]. split; [done|].
  intros He. apply (f_equal length) in He. rewrite length_app in He. simpl in He. lia.
Qed.
