(* ===== verification/Plan.v ===== *)
(** Reconstruction plans and effect accounting (include/sff/plan/plan.hpp,
    src/plan/plan.cpp): candidates, plan steps, the plan with its digest, the
    planner's preference order, and the plan document. *)

From S2P Require Import Prelude Containers Core Generation Switch Authority Evidence Topology Bytes Wire Decision.

#[local] Open Scope codec_scope.

(** * Data *)

Definition kPlanFormatTag : Z := 1.

Record ReconstructionCandidate := mkCandidate {
  rc_dependent : DependentRef;
  rc_covers_failed : SwitchKey;
  rc_hops : list SwitchKey;
  rc_links : list Z;
  rc_cost : Z;
  rc_capabilities : Z;
  rc_evidence : Z;
  rc_source : EvidenceSource
}.

Definition candidate_digest (c : ReconstructionCandidate) : Z :=
  dig_hi
    (absorb_byte (evidence_source_raw (rc_source c))
      (absorb_u64 (rc_evidence c)
        (absorb_u64 (rc_capabilities c)
          (absorb_u64 (rc_cost c)
            (absorb_each absorb_u64 (rc_links c)
              (absorb_u64 (zlen (rc_links c))
                (absorb_each absorb_key (rc_hops c)
                  (absorb_u64 (zlen (rc_hops c))
                    (absorb_key (rc_covers_failed c)
                      (absorb_dependent (rc_dependent c)
                        (absorb_string "sff.reconstruction-candidate.v1" digest_init))))))))))).

Definition candidate_validate (c : ReconstructionCandidate) : Status :=
  if negb (dependent_valid (rc_dependent c)) then
    failure Code.Invalid "reconstruction alternative names no dependent"
  else if negb (key_valid (rc_covers_failed c)) then
    failure Code.Invalid "reconstruction alternative is not bound to a failed generation"
  else if bool_decide (rc_hops c = []) then
    failure Code.Invalid "reconstruction alternative supplies no hops"
  else if existsb (fun hop => negb (key_valid hop)) (rc_hops c) then
    failure Code.Invalid "reconstruction alternative contains an unqualified generation"
  else if rc_cost c =? 0 then failure Code.Invalid "reconstruction alternative has a zero cost"
  else validate_capability_mask (rc_capabilities c).

Module UnresolvedReason.
Inductive UnresolvedReason :=
| Unknown | NoCandidateSupplied | CandidateGenerationStale | CapabilityInsufficient | BehindFence
| CapacityExhausted | FailureDomainConflict | Withheld | ClosureTruncated | SearchLimitReached
| ContradictoryEvidence | HopNotInTopology | NonAuthoritativeOrigin.
End UnresolvedReason.
Abbreviation UnresolvedReason := UnresolvedReason.UnresolvedReason.

#[export] Instance UnresolvedReason_eq_dec : EqDecision UnresolvedReason.
Proof. solve_decision. Defined.

Definition unresolved_reasons : list UnresolvedReason :=
  [UnresolvedReason.Unknown; UnresolvedReason.NoCandidateSupplied; UnresolvedReason.CandidateGenerationStale;
   UnresolvedReason.CapabilityInsufficient; UnresolvedReason.BehindFence; UnresolvedReason.CapacityExhausted;
   UnresolvedReason.FailureDomainConflict; UnresolvedReason.Withheld; UnresolvedReason.ClosureTruncated;
   UnresolvedReason.SearchLimitReached; UnresolvedReason.ContradictoryEvidence;
   UnresolvedReason.HopNotInTopology; UnresolvedReason.NonAuthoritativeOrigin].

Definition unresolved_reason_raw (r : UnresolvedReason) : Z :=
  match r with
  | UnresolvedReason.Unknown => 0 | UnresolvedReason.NoCandidateSupplied => 1
  | UnresolvedReason.CandidateGenerationStale => 2 | UnresolvedReason.CapabilityInsufficient => 3
  | UnresolvedReason.BehindFence => 4 | UnresolvedReason.CapacityExhausted => 5
  | UnresolvedReason.FailureDomainConflict => 6 | UnresolvedReason.Withheld => 7
  | UnresolvedReason.ClosureTruncated => 8 | UnresolvedReason.SearchLimitReached => 9
  | UnresolvedReason.ContradictoryEvidence => 10 | UnresolvedReason.HopNotInTopology => 11
  | UnresolvedReason.NonAuthoritativeOrigin => 12
  end.

Definition unresolved_reason_to_string (r : UnresolvedReason) : string :=
  match r with
  | UnresolvedReason.Unknown => "UNKNOWN"
  | UnresolvedReason.NoCandidateSupplied => "NO_CANDIDATE_SUPPLIED"
  | UnresolvedReason.CandidateGenerationStale => "CANDIDATE_GENERATION_STALE"
  | UnresolvedReason.CapabilityInsufficient => "CAPABILITY_INSUFFICIENT"
  | UnresolvedReason.BehindFence => "BEHIND_FENCE"
  | UnresolvedReason.CapacityExhausted => "CAPACITY_EXHAUSTED"
  | UnresolvedReason.FailureDomainConflict => "FAILURE_DOMAIN_CONFLICT"
  | UnresolvedReason.Withheld => "WITHHELD"
  | UnresolvedReason.ClosureTruncated => "CLOSURE_TRUNCATED"
  | UnresolvedReason.SearchLimitReached => "SEARCH_LIMIT_REACHED"
  | UnresolvedReason.ContradictoryEvidence => "CONTRADICTORY_EVIDENCE"
  | UnresolvedReason.HopNotInTopology => "HOP_NOT_IN_TOPOLOGY"
  | UnresolvedReason.NonAuthoritativeOrigin => "NON_AUTHORITATIVE_ORIGIN"
  end.

Definition is_proven_negative (r : UnresolvedReason) : bool :=
  match r with
  | UnresolvedReason.NoCandidateSupplied | UnresolvedReason.CandidateGenerationStale
  | UnresolvedReason.CapabilityInsufficient | UnresolvedReason.BehindFence
  | UnresolvedReason.CapacityExhausted | UnresolvedReason.FailureDomainConflict
  | UnresolvedReason.Withheld | UnresolvedReason.ContradictoryEvidence
  | UnresolvedReason.HopNotInTopology | UnresolvedReason.NonAuthoritativeOrigin => true
  | _ => false
  end.

Record UnresolvedDependent := mkUnresolved {
  ud_dependent : DependentRef;
  ud_covers_failed : SwitchKey;
  ud_reason : UnresolvedReason;
  ud_detail : string
}.

Definition unresolved_digest (u : UnresolvedDependent) : Z :=
  dig_hi
    (absorb_string (ud_detail u)
      (absorb_byte (unresolved_reason_raw (ud_reason u))
        (absorb_key (ud_covers_failed u)
          (absorb_dependent (ud_dependent u)
            (absorb_string "sff.unresolved-dependent.v2" digest_init))))).

Module PlanAction.
Inductive PlanAction := Unknown | RebindReplacement.
End PlanAction.
Abbreviation PlanAction := PlanAction.PlanAction.

#[export] Instance PlanAction_eq_dec : EqDecision PlanAction.
Proof. solve_decision. Defined.

Definition plan_action_raw (a : PlanAction) : Z :=
  match a with PlanAction.Unknown => 0 | PlanAction.RebindReplacement => 1 end.

Definition plan_action_to_string (a : PlanAction) : string :=
  match a with PlanAction.Unknown => "UNKNOWN" | PlanAction.RebindReplacement => "REBIND_REPLACEMENT" end.

Record FenceStep := mkFenceStep {
  fs_failed : SwitchKey;
  fs_closure_digest : Z;
  fs_closure_state : ClosureState;
  fs_closure_members : Z;
  fs_omitted_dependents : Z
}.

Definition fence_step_digest (f : FenceStep) : Z :=
  dig_hi
    (absorb_u64 (fs_omitted_dependents f)
      (absorb_u64 (fs_closure_members f)
        (absorb_byte (closure_state_raw (fs_closure_state f))
          (absorb_u64 (fs_closure_digest f)
            (absorb_key (fs_failed f) (absorb_string "sff.fence-step.v1" digest_init)))))).

Record RestoreStep := mkRestore {
  rs_dependent : DependentRef;
  rs_covers_failed : SwitchKey;
  rs_action : PlanAction;
  rs_replacement : SwitchKey;
  rs_hops : list SwitchKey;
  rs_links : list Z;
  rs_cost : Z;
  rs_evidence : Z
}.

Definition restore_step_digest (s : RestoreStep) : Z :=
  dig_hi
    (absorb_u64 (rs_evidence s)
      (absorb_u64 (rs_cost s)
        (absorb_each absorb_u64 (rs_links s)
          (absorb_u64 (zlen (rs_links s))
            (absorb_each absorb_key (rs_hops s)
              (absorb_u64 (zlen (rs_hops s))
                (absorb_key (rs_replacement s)
                  (absorb_byte (plan_action_raw (rs_action s))
                    (absorb_key (rs_covers_failed s)
                      (absorb_dependent (rs_dependent s)
                        (absorb_string "sff.restore-step.v2" digest_init))))))))))).

Module PlanFeasibility.
Inductive PlanFeasibility :=
| Unknown | ProvenFeasible | ProvenInfeasible | Indeterminate | SearchLimitReached | NothingToRestore.
End PlanFeasibility.
Abbreviation PlanFeasibility := PlanFeasibility.PlanFeasibility.

Definition feasibilities : list PlanFeasibility :=
  [PlanFeasibility.Unknown; PlanFeasibility.ProvenFeasible; PlanFeasibility.ProvenInfeasible;
   PlanFeasibility.Indeterminate; PlanFeasibility.SearchLimitReached; PlanFeasibility.NothingToRestore].

Definition feasibility_raw (f : PlanFeasibility) : Z :=
  match f with
  | PlanFeasibility.Unknown => 0 | PlanFeasibility.ProvenFeasible => 1 | PlanFeasibility.ProvenInfeasible => 2
  | PlanFeasibility.Indeterminate => 3 | PlanFeasibility.SearchLimitReached => 4
  | PlanFeasibility.NothingToRestore => 5
  end.

Definition feasibility_to_string (f : PlanFeasibility) : string :=
  match f with
  | PlanFeasibility.Unknown => "UNKNOWN"
  | PlanFeasibility.ProvenFeasible => "PROVEN_FEASIBLE"
  | PlanFeasibility.ProvenInfeasible => "PROVEN_INFEASIBLE"
  | PlanFeasibility.Indeterminate => "INDETERMINATE"
  | PlanFeasibility.SearchLimitReached => "SEARCH_LIMIT_REACHED"
  | PlanFeasibility.NothingToRestore => "NOTHING_TO_RESTORE"
  end.

Module PlanState.
Inductive PlanState :=
| Draft | Validated | Rejected | Committed | Applying | Applied | PartiallyApplied | Failed | Superseded.
End PlanState.
Abbreviation PlanState := PlanState.PlanState.

Definition plan_states : list PlanState :=
  [PlanState.Draft; PlanState.Validated; PlanState.Rejected; PlanState.Committed; PlanState.Applying;
   PlanState.Applied; PlanState.PartiallyApplied; PlanState.Failed; PlanState.Superseded].

Definition plan_state_raw (s : PlanState) : Z :=
  match s with
  | PlanState.Draft => 0 | PlanState.Validated => 1 | PlanState.Rejected => 2 | PlanState.Committed => 3
  | PlanState.Applying => 4 | PlanState.Applied => 5 | PlanState.PartiallyApplied => 6
  | PlanState.Failed => 7 | PlanState.Superseded => 8
  end.

Definition plan_state_to_string (s : PlanState) : string :=
  match s with
  | PlanState.Draft => "DRAFT" | PlanState.Validated => "VALIDATED" | PlanState.Rejected => "REJECTED"
  | PlanState.Committed => "COMMITTED" | PlanState.Applying => "APPLYING" | PlanState.Applied => "APPLIED"
  | PlanState.PartiallyApplied => "PARTIALLY_APPLIED" | PlanState.Failed => "FAILED"
  | PlanState.Superseded => "SUPERSEDED"
  end.

Record ReconstructionPlan := mkPlan {
  pl_id : Z;
  pl_epoch : Z;
  pl_boot : BootIncarnation;
  pl_failed_generations : GenerationVector;
  pl_fences : list FenceStep;
  pl_restores : list RestoreStep;
  pl_unresolved : list UnresolvedDependent;
  pl_feasibility : PlanFeasibility;
  pl_state : PlanState;
  pl_closure_complete : bool;
  pl_service_withheld : bool;
  pl_topology_digest : Z;
  pl_policy_digest : Z;
  pl_plan_digest : Z
}.

Definition compute_digest (p : ReconstructionPlan) : Z :=
  dig_hi
    (absorb_u64 (pl_policy_digest p)
      (absorb_u64 (pl_topology_digest p)
        (absorb_bool (pl_service_withheld p)
          (absorb_bool (pl_closure_complete p)
            (absorb_byte (plan_state_raw (pl_state p))
              (absorb_byte (feasibility_raw (pl_feasibility p))
                (absorb_each (fun u => absorb_u64 (unresolved_digest u)) (pl_unresolved p)
                  (absorb_u64 (zlen (pl_unresolved p))
                    (absorb_each (fun s => absorb_u64 (restore_step_digest s)) (pl_restores p)
                      (absorb_u64 (zlen (pl_restores p))
                        (absorb_each (fun s => absorb_u64 (fence_step_digest s)) (pl_fences p)
                          (absorb_u64 (zlen (pl_fences p))
                            (absorb_u64 (gv_digest (pl_failed_generations p))
                              (absorb_u64 (boot_nonce_lo (pl_boot p))
                                (absorb_u64 (boot_nonce_hi (pl_boot p))
                                  (absorb_u64 (boot_ordinal (pl_boot p))
                                    (absorb_u64 (boot_process_id (pl_boot p))
                                      (absorb_u64 (pl_epoch p)
                                        (absorb_u64 (pl_id p)
                                          (absorb_string "sff.reconstruction-plan.v1" digest_init)))))))))))))))))))).

Definition plan_with_digest (p : ReconstructionPlan) (digest : Z) : ReconstructionPlan :=
  mkPlan (pl_id p) (pl_epoch p) (pl_boot p) (pl_failed_generations p) (pl_fences p) (pl_restores p)
    (pl_unresolved p) (pl_feasibility p) (pl_state p) (pl_closure_complete p) (pl_service_withheld p)
    (pl_topology_digest p) (pl_policy_digest p) digest.

Definition seal (p : ReconstructionPlan) : ReconstructionPlan := plan_with_digest p (compute_digest p).

Definition digest_valid (p : ReconstructionPlan) : bool :=
  negb (pl_plan_digest p =? 0) && (pl_plan_digest p =? compute_digest p).

Definition restored_count (p : ReconstructionPlan) : Z := zlen (pl_restores p).
Definition unresolved_count (p : ReconstructionPlan) : Z := zlen (pl_unresolved p).

Module AckState.
Inductive AckState := Unknown | Applied | Verified | Failed | Unverified.
End AckState.
Abbreviation AckState := AckState.AckState.

#[export] Instance AckState_eq_dec : EqDecision AckState.
Proof. solve_decision. Defined.

Definition ack_states : list AckState :=
  [AckState.Unknown; AckState.Applied; AckState.Verified; AckState.Failed; AckState.Unverified].

Definition ack_state_raw (s : AckState) : Z :=
  match s with
  | AckState.Unknown => 0 | AckState.Applied => 1 | AckState.Verified => 2 | AckState.Failed => 3
  | AckState.Unverified => 4
  end.

Definition ack_state_to_string (s : AckState) : string :=
  match s with
  | AckState.Unknown => "UNKNOWN" | AckState.Applied => "APPLIED" | AckState.Verified => "VERIFIED"
  | AckState.Failed => "FAILED" | AckState.Unverified => "UNVERIFIED"
  end.

Record ApplyStepResult := mkStepResult {
  sr_dependent : DependentRef;
  sr_replacement : SwitchKey;
  sr_state : AckState;
  sr_attempt : Z;
  sr_verification : Z;
  sr_detail : string
}.

Record ApplyReceipt := mkReceipt {
  ap_plan : Z;
  ap_epoch : Z;
  ap_boot : BootIncarnation;
  ap_steps : list ApplyStepResult;
  ap_applied : Z;
  ap_verified : Z;
  ap_failed : Z;
  ap_unverified : Z;
  ap_complete : bool;
  ap_outcome : Code
}.

Definition fully_verified (r : ApplyReceipt) : bool :=
  ap_complete r && (ap_failed r =? 0) && (ap_unverified r =? 0) && (ap_verified r =? ap_applied r).

Record RestoreDecision := mkRestoreDecision {
  rd_dependent : DependentRef;
  rd_outcome : Code;
  rd_reason : Code;
  rd_may_restore : bool;
  rd_effect_verified : bool;
  rd_bound : GenerationVector;
  rd_plan : Z;
  rd_grants : list Z;
  rd_blocking : list SwitchKey;
  rd_explanation : Explanation
}.

Definition restore_decision_digest (d : RestoreDecision) : Z :=
  dig_hi
    (absorb_u64 (explanation_digest (rd_explanation d))
      (absorb_each absorb_key (rd_blocking d)
        (absorb_each absorb_u64 (rd_grants d)
          (absorb_u64 (rd_plan d)
            (absorb_u64 (gv_digest (rd_bound d))
              (absorb_bool (rd_effect_verified d)
                (absorb_bool (rd_may_restore d)
                  (absorb_byte (code_raw (rd_reason d) mod two8)
                    (absorb_byte (code_raw (rd_outcome d) mod two8)
                      (absorb_dependent (rd_dependent d)
                        (absorb_string "sff.restore-decision.v1" digest_init))))))))))).

(** The digest does not cover itself. *)
Lemma compute_digest_ignores p digest : compute_digest (plan_with_digest p digest) = compute_digest p.
Proof. destruct p. unfold compute_digest, plan_with_digest. reflexivity. Qed.

Lemma seal_again p digest : seal (plan_with_digest p digest) = seal p.
Proof. unfold seal. rewrite compute_digest_ignores. by destruct p. Qed.

(** * The planner's preference *)

(** `for (step) { if (total > max - size) return max; total += size; }` *)
Fixpoint saturating_sum (total : Z) (sizes : list Z) : Z :=
  match sizes with
  | [] => total
  | size :: rest => if UINT64_MAX - size <? total then UINT64_MAX else saturating_sum (total + size) rest
  end.

Definition total_hops (p : ReconstructionPlan) : Z :=
  saturating_sum 0 ((fun s => zlen (rs_hops s)) <$> pl_restores p).

Definition total_cost (p : ReconstructionPlan) : Z := saturating_sum 0 (rs_cost <$> pl_restores p).

(** The body of the loop of [sequence_less]: [Some] is its early return. *)
Definition restore_step_less (lhs rhs : RestoreStep) : option bool :=
  if negb (bool_decide (rs_dependent lhs = rs_dependent rhs)) then
    Some (dependent_less (rs_dependent lhs) (rs_dependent rhs))
  else if negb (bool_decide (rs_covers_failed lhs = rs_covers_failed rhs)) then
    Some (key_less (rs_covers_failed lhs) (rs_covers_failed rhs))
  else if negb (bool_decide (rs_action lhs = rs_action rhs)) then
    Some (plan_action_raw (rs_action lhs) <? plan_action_raw (rs_action rhs))
  else if negb (bool_decide (rs_replacement lhs = rs_replacement rhs)) then
    Some (key_less (rs_replacement lhs) (rs_replacement rhs))
  else if negb (bool_decide (rs_hops lhs = rs_hops rhs)) then
    Some (vector_less (rs_hops lhs) (rs_hops rhs))
  else if negb (bool_decide (rs_links lhs = rs_links rhs)) then
    Some (vector_less (rs_links lhs) (rs_links rhs))
  else if negb (rs_cost lhs =? rs_cost rhs) then Some (rs_cost lhs <? rs_cost rhs)
  else if negb (rs_evidence lhs =? rs_evidence rhs) then Some (rs_evidence lhs <? rs_evidence rhs)
  else None.

(** The loop over the shared prefix of the two sequences. *)
Fixpoint shared_steps_less (a b : list RestoreStep) : option bool :=
  match a, b with
  | lhs :: a', rhs :: b' =>
      match restore_step_less lhs rhs with
      | Some verdict => Some verdict
      | None => shared_steps_less a' b'
      end
  | _, _ => None
  end.

Definition sequence_less (a b : list RestoreStep) : bool :=
  match shared_steps_less a b with
  | Some verdict => verdict
  | None => zlen a <? zlen b
  end.

Definition plan_less (a b : ReconstructionPlan) : bool :=
  if negb (zlen (pl_unresolved a) =? zlen (pl_unresolved b)) then
    zlen (pl_unresolved a) <? zlen (pl_unresolved b)
  else if negb (total_cost a =? total_cost b) then total_cost a <? total_cost b
  else if negb (total_hops a =? total_hops b) then total_hops a <? total_hops b
  else sequence_less (pl_restores a) (pl_restores b).

(** ** The preference as a lexicographic order *)

Lemma saturating_sum_spec l : Forall (fun x => 0 <= x) l -> forall total, 0 <= total <= UINT64_MAX ->
  saturating_sum total l = Z.min UINT64_MAX (foldl Z.add total l).
Proof.
  assert (Hmono : forall l t, Forall (fun x => 0 <= x) l -> t <= foldl Z.add t l).
  { clear. induction l as [|x l IH]; intros t Hl; simpl; [lia|]. apply Forall_cons in Hl as [Hx Hl].
    specialize (IH (t + x) Hl). lia. }
  induction 1 as [|x l Hx Hl IH]; intros total Ht; simpl; [lia|].
  destruct (Z.ltb_spec (UINT64_MAX - x) total) as [H|H].
  - specialize (Hmono l (total + x) Hl). lia.
  - apply IH. lia.
Qed.

#[export] Instance PlanAction_ordered : Ordered PlanAction.
Proof.
  refine {| ltb := fun a b => plan_action_raw a <? plan_action_raw b |}.
  apply (strict_total_inj plan_action_raw Z.ltb). intros [] []; by simpl.
Defined.

Definition restore_step_key (s : RestoreStep) :=
  (rs_dependent s, (rs_covers_failed s, (rs_action s, (rs_replacement s,
    (rs_hops s, (rs_links s, (rs_cost s, rs_evidence s))))))).

#[export] Instance restore_step_key_inj : Inj (=) (=) restore_step_key.
Proof. intros [] []. unfold restore_step_key. simpl. by intros [= -> -> -> -> -> -> -> ->]. Qed.

#[export] Instance RestoreStep_eq_dec : EqDecision RestoreStep.
Proof. solve_decision. Defined.

#[export] Instance RestoreStep_ordered : Ordered RestoreStep :=
  {| ltb := fun a b => ltb (restore_step_key a) (restore_step_key b);
     ordered_strict := strict_total_inj restore_step_key ltb restore_step_key_inj |}.

Lemma eqb_decide x y : (x =? y) = bool_decide (x = y).
Proof. case_bool_decide; lia. Qed.

(** One field of a lexicographic comparison with an early return. *)
Lemma lex_step {A B} `{Ordered A, EqDecision A, Ordered B, EqDecision B} (x y : A) (p q : B) :
  (if negb (bool_decide (x = y)) then Some (ltb x y)
   else if bool_decide (p = q) then None else Some (ltb p q)) =
  if bool_decide ((x, p) = (y, q)) then None else Some (ltb (x, p) (y, q)).
Proof.
  change (ltb (x, p) (y, q)) with (pair_less (x, p) (y, q)). unfold pair_less. cbn [fst snd].
  destruct (decide (x = y)) as [->|Hxy].
  - rewrite (bool_decide_eq_true_2 (y = y)) by done. cbn [negb].
    by rewrite (bool_decide_ext ((y, p) = (y, q)) (p = q)) by (split; [by intros [= ->]|by intros ->]).
  - rewrite (bool_decide_eq_false_2 (x = y)) by done. cbn [negb].
    by rewrite (bool_decide_eq_false_2 ((x, p) = (y, q))) by (intros [= ? ?]; by apply Hxy).
Qed.

Lemma restore_step_less_spec a b :
  restore_step_less a b = if bool_decide (a = b) then None else Some (ltb a b).
Proof.
  rewrite (bool_decide_ext (a = b) (restore_step_key a = restore_step_key b))
    by (split; [by intros ->|apply restore_step_key_inj]).
  change (ltb a b) with (ltb (restore_step_key a) (restore_step_key b)).
  unfold restore_step_key, restore_step_less. rewrite <- !lex_step. rewrite !eqb_decide.
  repeat (destruct (negb _); [done|]). by destruct (bool_decide _).
Qed.

Lemma sequence_less_spec a b : sequence_less a b = vector_less a b.
Proof.
  unfold sequence_less. revert b. induction a as [|x a IH]; intros [|y b]; cbn [shared_steps_less vector_less].
  - done.
  - rewrite zlen_nil, zlen_cons. pose proof (zlen_nonneg b). lia.
  - rewrite zlen_nil, zlen_cons. pose proof (zlen_nonneg a). lia.
  - rewrite restore_step_less_spec. destruct (bool_decide (x = y)); [|done]. rewrite <- IH.
    destruct (shared_steps_less a b); [done|]. rewrite !zlen_cons. lia.
Qed.

(** What the objective looks at, in order. *)
Definition plan_objective (p : ReconstructionPlan) : Z * (Z * (Z * list RestoreStep)) :=
  (zlen (pl_unresolved p), (total_cost p, (total_hops p, pl_restores p))).

Lemma ltb_pair {A B} `{Ordered A, EqDecision A, Ordered B} (x y : A) (p q : B) :
  ltb (x, p) (y, q) = if negb (bool_decide (x = y)) then ltb x y else ltb p q.
Proof. change (ltb (x, p) (y, q)) with (pair_less (x, p) (y, q)). unfold pair_less. simpl. by case_bool_decide. Qed.

Lemma plan_less_objective a b : plan_less a b = ltb (plan_objective a) (plan_objective b).
Proof.
  unfold plan_less. rewrite sequence_less_spec, !eqb_decide. unfold plan_objective. by rewrite !ltb_pair.
Qed.

(** Plans the preference does not separate. *)
Lemma plan_less_incomparable a b :
  plan_less a b = false /\ plan_less b a = false <->
  zlen (pl_unresolved a) = zlen (pl_unresolved b) /\ pl_restores a = pl_restores b.
Proof.
  rewrite !plan_less_objective. split.
  - intros [H1 H2]. pose proof (less_total (less := ltb) _ _ H1 H2) as H. by injection H as ? _ _ ?.
  - intros [H1 H2]. assert (plan_objective a = plan_objective b) as ->.
    { unfold plan_objective, total_cost, total_hops. by rewrite H1, H2. }
    split; apply less_irrefl.
Qed.

(** * The plan document *)

Definition write_fence_step (step : FenceStep) : WriterM :=
  write_key (fs_failed step);; write_u64 (fs_closure_digest step);;
  write_u8 (closure_state_raw (fs_closure_state step));; write_u64 (fs_closure_members step);;
  write_u64 (fs_omitted_dependents step).

Definition write_restore_step (step : RestoreStep) : WriterM :=
  write_dependent (rs_dependent step);; write_key (rs_covers_failed step);;
  write_u8 (plan_action_raw (rs_action step));; write_key (rs_replacement step);;
  write_counted write_key (rs_hops step)
    (write_counted write_u64 (rs_links step)
      (write_u32 (rs_cost step);; write_u64 (rs_evidence step))).

Definition write_unresolved (entry : UnresolvedDependent) : WriterM :=
  write_dependent (ud_dependent entry);; write_key (ud_covers_failed entry);;
  write_u8 (unresolved_reason_raw (ud_reason entry));; write_string (ud_detail entry).

Definition write_plan (p : ReconstructionPlan) : WriterM :=
  write_u8 kPlanFormatTag;; write_u64 (pl_id p);; write_u64 (pl_epoch p);; write_boot (pl_boot p);;
  write_counted write_key (pl_failed_generations p)
    (write_counted write_fence_step (pl_fences p)
      (write_counted write_restore_step (pl_restores p)
        (write_counted write_unresolved (pl_unresolved p)
          (write_u8 (feasibility_raw (pl_feasibility p));; write_u8 (plan_state_raw (pl_state p));;
           write_boolean (pl_closure_complete p);; write_boolean (pl_service_withheld p);;
           write_u64 (pl_topology_digest p);; write_u64 (pl_policy_digest p))))).

Definition kPlanWriterLimit : Z := Z.shiftl 8 20.

(** The statuses of the writer are ignored and [bytes()] is returned as it is. *)
Definition plan_encode (p : ReconstructionPlan) : list Z :=
  bw_bytes (write_plan p (set_limit kPlanWriterLimit writer_new)).2.

Definition closure_state_of_raw (raw : Z) : ClosureState :=
  match raw with 1 => ClosureState.Complete | 2 => ClosureState.Truncated | _ => ClosureState.Empty end.

Definition plan_action_of_raw (raw : Z) : PlanAction :=
  match raw with 1 => PlanAction.RebindReplacement | _ => PlanAction.Unknown end.

(** `static_cast` of a checked value to the enumeration with the given members. *)
Definition enum_cast {A} (members : list A) (zero : A) (raw : Z) : A :=
  default zero (members !! Z.to_nat raw).

Definition read_plan_dependent : ReaderM DependentRef := read_dependent "dependent kind is not defined".

Definition kDependentBytes : Z := 9.
Definition kKeyBytes : Z := 16.
Definition kU64Bytes : Z := 8.

Definition read_fence_step : ReaderM (Result FenceStep) :=
  failed ← read_key; closure_digest ← read_u64; closure_state ← read_u8; members ← read_u64;
  omitted ← read_u64;
  check_ok
    (if closure_state_raw ClosureState.Truncated <? closure_state
     then mret (Refused (failure Code.Invalid "plan fence step has an undefined closure state"))
     else mret (Value (mkFenceStep failed closure_digest (closure_state_of_raw closure_state) members omitted))).

Definition read_restore_step (limits : Limits) : ReaderM (Result RestoreStep) :=
  dependent ← read_plan_dependent; covers_failed ← read_key; action ← read_u8; replacement ← read_key;
  check_ok
    (if plan_action_raw PlanAction.RebindReplacement <? action
     then mret (Refused (failure Code.Invalid "plan restore step has an undefined action"))
     else
       hops ← read_list kKeyBytes read_key; links ← read_list kU64Bytes read_u64;
       cost ← read_u32; evidence ← read_u64;
       check_ok
         (if (max_plan_steps limits <? zlen hops) || (max_plan_steps limits <? zlen links)
          then mret (Refused (failure Code.Exhausted "plan restore step exceeds the planning bound"))
          else mret (Value (mkRestore dependent covers_failed (plan_action_of_raw action) replacement hops links
                              cost evidence)))).

Definition read_unresolved : ReaderM (Result UnresolvedDependent) :=
  dependent ← read_plan_dependent; covers_failed ← read_key; reason ← read_u8; detail ← read_string;
  check_ok
    (if unresolved_reason_raw UnresolvedReason.NonAuthoritativeOrigin <? reason
     then mret (Refused (failure Code.Invalid "plan unresolved entry has an undefined reason"))
     else mret (Value (mkUnresolved dependent covers_failed
                         (enum_cast unresolved_reasons UnresolvedReason.Unknown reason) detail))).

Definition plan_is_empty (p : ReconstructionPlan) : bool :=
  bool_decide (pl_failed_generations p = []) && bool_decide (zlen (pl_fences p) = 0) &&
  bool_decide (zlen (pl_restores p) = 0) && bool_decide (zlen (pl_unresolved p) = 0) && negb (id_valid (pl_id p)).

(** The end of [decode], from [plan.seal()]. *)
Definition finish_plan (p : ReconstructionPlan) : Result ReconstructionPlan :=
  if plan_is_empty p then Refused (failure Code.Invalid "decoded plan is empty") else Value p.

Definition read_plan (limits : Limits) : ReaderM (Result ReconstructionPlan) :=
  check_tag kPlanFormatTag "reconstruction plan format tag is unsupported"
    (id ← read_u64; epoch ← read_u64; boot ← read_boot;
     keys ← read_list kKeyBytes read_key;
     try_bind (try_list (kKeyBytes + 8 + 1 + 8 + 8) read_fence_step) (fun fences =>
     try_bind (try_list (kDependentBytes + kKeyBytes + 1 + kKeyBytes + 4) (read_restore_step limits)) (fun restores =>
     try_bind (try_list (kDependentBytes + kKeyBytes + 1) read_unresolved) (fun unresolved =>
       feasibility ← read_u8; state ← read_u8; closure_complete ← read_boolean;
       service_withheld ← read_boolean; topology_digest ← read_u64; policy_digest ← read_u64;
       check_ok
         (if feasibility_raw PlanFeasibility.NothingToRestore <? feasibility
          then mret (Refused (failure Code.Invalid "plan has an undefined feasibility value"))
          else if plan_state_raw PlanState.Superseded <? state
          then mret (Refused (failure Code.Invalid "plan has an undefined state value"))
          else check_end
            (mret (finish_plan (seal
              (mkPlan id epoch boot (canonicalise keys) fences restores unresolved
                 (enum_cast feasibilities PlanFeasibility.Unknown feasibility)
                 (enum_cast plan_states PlanState.Draft state) closure_complete service_withheld
                 topology_digest policy_digest 0))))))))).

Definition plan_decode (bytes : list Z) (limits : Limits) : Result ReconstructionPlan :=
  (read_plan limits (set_element_limit (max_plan_steps limits) (reader_new bytes))).1.

(** ** The format of the plan document *)

Definition fence_step_bytes (s : FenceStep) : list Z :=
  key_bytes (fs_failed s) ++ le_bytes (fs_closure_digest s) 8 ++ [closure_state_raw (fs_closure_state s)] ++
  le_bytes (fs_closure_members s) 8 ++ le_bytes (fs_omitted_dependents s) 8.

Definition restore_step_bytes (s : RestoreStep) : list Z :=
  dependent_bytes (rs_dependent s) ++ key_bytes (rs_covers_failed s) ++ [plan_action_raw (rs_action s)] ++
  key_bytes (rs_replacement s) ++ list_bytes key_bytes (rs_hops s) ++
  list_bytes (fun v => le_bytes v 8) (rs_links s) ++ le_bytes (rs_cost s) 4 ++ le_bytes (rs_evidence s) 8.

Definition unresolved_bytes (u : UnresolvedDependent) : list Z :=
  dependent_bytes (ud_dependent u) ++ key_bytes (ud_covers_failed u) ++
  [unresolved_reason_raw (ud_reason u)] ++ prefixed (string_bytes (ud_detail u)).

Definition plan_bytes (p : ReconstructionPlan) : list Z :=
  [kPlanFormatTag] ++ le_bytes (pl_id p) 8 ++ le_bytes (pl_epoch p) 8 ++ boot_bytes (pl_boot p) ++
  list_bytes key_bytes (pl_failed_generations p) ++ list_bytes fence_step_bytes (pl_fences p) ++
  list_bytes restore_step_bytes (pl_restores p) ++ list_bytes unresolved_bytes (pl_unresolved p) ++
  [feasibility_raw (pl_feasibility p)] ++ [plan_state_raw (pl_state p)] ++
  [if pl_closure_complete p then 1 else 0] ++ [if pl_service_withheld p then 1 else 0] ++
  le_bytes (pl_topology_digest p) 8 ++ le_bytes (pl_policy_digest p) 8.

(** Steps whose fields have their machine width and whose lists and texts are
    within the bound [lim]. *)
Record fence_step_ok (s : FenceStep) : Prop := {
  fso_failed : key_in_range (fs_failed s);
  fso_digest : in_u64 (fs_closure_digest s);
  fso_members : in_u64 (fs_closure_members s);
  fso_omitted : in_u64 (fs_omitted_dependents s)
}.

Record restore_step_ok (lim : Z) (s : RestoreStep) : Prop := {
  rso_dependent : dependent_in_range (rs_dependent s);
  rso_covers : key_in_range (rs_covers_failed s);
  rso_replacement : key_in_range (rs_replacement s);
  rso_hops : Forall key_in_range (rs_hops s);
  rso_hop_count : zlen (rs_hops s) <= lim;
  rso_links : Forall in_u64 (rs_links s);
  rso_link_count : zlen (rs_links s) <= lim;
  rso_cost : in_u32 (rs_cost s);
  rso_evidence : in_u64 (rs_evidence s)
}.

Record unresolved_ok (lim : Z) (u : UnresolvedDependent) : Prop := {
  uo_dependent : dependent_in_range (ud_dependent u);
  uo_covers : key_in_range (ud_covers_failed u);
  uo_detail : small_text lim (ud_detail u)
}.

Section plan_format.
Context (limits : Limits) (Hhard : max_plan_steps limits <= kHardMaxElements).
Let lim := max_plan_steps limits.

Lemma plan_bound_small n : n <= lim -> n < two32.
Proof. intros H. change kHardMaxElements with 67108864 in Hhard. subst lim. ints_lia. Qed.

Lemma closure_state_range s : in_u8 (closure_state_raw s) /\ (2 <? closure_state_raw s) = false /\
  closure_state_of_raw (closure_state_raw s) = s.
Proof. by destruct s. Qed.

Lemma plan_action_range a : in_u8 (plan_action_raw a) /\ (1 <? plan_action_raw a) = false /\
  plan_action_of_raw (plan_action_raw a) = a.
Proof. by destruct a. Qed.

Lemma unresolved_reason_range r : in_u8 (unresolved_reason_raw r) /\ (12 <? unresolved_reason_raw r) = false /\
  enum_cast unresolved_reasons UnresolvedReason.Unknown (unresolved_reason_raw r) = r.
Proof. by destruct r. Qed.

Lemma feasibility_range f : in_u8 (feasibility_raw f) /\ (5 <? feasibility_raw f) = false /\
  enum_cast feasibilities PlanFeasibility.Unknown (feasibility_raw f) = f.
Proof. by destruct f. Qed.

Lemma plan_state_range s : in_u8 (plan_state_raw s) /\ (8 <? plan_state_raw s) = false /\
  enum_cast plan_states PlanState.Draft (plan_state_raw s) = s.
Proof. by destruct s. Qed.

#[local] Instance fence_step_closed : FailClosed read_fence_step.
Proof. unfold read_fence_step. apply _. Qed.
#[local] Instance restore_step_closed : FailClosed (read_restore_step limits).
Proof. unfold read_restore_step, read_plan_dependent. apply _. Qed.
#[local] Instance unresolved_closed : FailClosed read_unresolved.
Proof. unfold read_unresolved, read_plan_dependent. apply _. Qed.

Lemma fence_step_part s : fence_step_ok s -> part lim (fence_step_bytes s) read_fence_step s.
Proof.
  intros [H1 H2 H3 H4]. destruct (closure_state_range (fs_closure_state s)) as (R1 & R2 & R3).
  unfold fence_step_bytes, read_fence_step. rewrite <- (app_nil_r (le_bytes (fs_omitted_dependents s) 8)).
  part_field key_in_range key_bytes; [done|]. part_field in_u64 (fun v => le_bytes v 8); [done|].
  part_field in_u8 (fun v : Z => [v]); [done|]. part_field in_u64 (fun v => le_bytes v 8); [done|].
  part_field in_u64 (fun v => le_bytes v 8); [done|]. apply part_ok.
  cbn [closure_state_raw]. rewrite R2, R3. destruct s. apply part_ret.
Qed.
Lemma restore_step_part s : restore_step_ok lim s -> part lim (restore_step_bytes s) (read_restore_step limits) s.
Proof.
  intros [H1 H2 H3 H4 H5 H6 H7 H8 H9]. destruct (plan_action_range (rs_action s)) as (R1 & R2 & R3).
  pose proof (plan_bound_small _ H5). pose proof (plan_bound_small _ H7).
  unfold restore_step_bytes, read_restore_step. rewrite <- (app_nil_r (le_bytes (rs_evidence s) 8)).
  part_field dependent_in_range dependent_bytes; [done|]. part_field key_in_range key_bytes; [done|].
  part_field in_u8 (fun v : Z => [v]); [done|]. part_field key_in_range key_bytes; [done|].
  apply part_ok. cbn [plan_action_raw]. rewrite R2, R3.
  part_field (fun l => Forall key_in_range l /\ zlen l <= lim /\ zlen l < two32) (list_bytes key_bytes); [done|].
  part_field (fun l => Forall in_u64 l /\ zlen l <= lim /\ zlen l < two32) (list_bytes (fun v => le_bytes v 8)); [done|].
  part_field in_u32 (fun v => le_bytes v 4); [done|]. part_field in_u64 (fun v => le_bytes v 8); [done|].
  apply part_ok. fold lim. rewrite !(proj2 (Z.ltb_ge _ _)) by done. destruct s. apply part_ret.
Qed.

Lemma unresolved_part u : unresolved_ok lim u -> part lim (unresolved_bytes u) read_unresolved u.
Proof.
  intros [H1 H2 H3]. destruct (unresolved_reason_range (ud_reason u)) as (R1 & R2 & R3).
  assert (Hs : short lim (string_bytes (ud_detail u))).
  { unfold short. rewrite length_string_bytes. split; [done|by apply plan_bound_small]. }
  unfold unresolved_bytes, read_unresolved. rewrite <- (app_nil_r (prefixed _)).
  part_field dependent_in_range dependent_bytes; [done|]. part_field key_in_range key_bytes; [done|].
  part_field in_u8 (fun v : Z => [v]); [done|].
  part_field (fun s => short lim (string_bytes s)) (fun s => prefixed (string_bytes s)); [done|].
  apply part_ok. cbn [unresolved_reason_raw]. rewrite R2, R3. destruct u. apply part_ret.
Qed.

Lemma fence_step_cut s : cut_writes (write_fence_step s) (fence_step_bytes s).
Proof. repeat apply cut_seq; auto with cut. Qed.

Lemma restore_step_cut s : restore_step_ok lim s -> cut_writes (write_restore_step s) (restore_step_bytes s).
Proof.
  intros H. do 4 (apply cut_seq; [auto with cut|]).
  apply cut_counted; [by eapply plan_bound_small, rso_hop_count|apply Forall_true; auto with cut|].
  apply cut_counted; [by eapply plan_bound_small, rso_link_count|apply Forall_true; auto with cut|].
  apply cut_seq; auto with cut.
Qed.

Lemma unresolved_cut u : unresolved_ok lim u -> cut_writes (write_unresolved u) (unresolved_bytes u).
Proof.
  intros H. do 3 (apply cut_seq; [auto with cut|]). apply cut_exact, exact_string.
  by apply plan_bound_small, uo_detail.
Qed.

(** A plan the document can carry. *)
Record plan_storable (p : ReconstructionPlan) : Prop := {
  po_id : in_u64 (pl_id p);
  po_epoch : in_u64 (pl_epoch p);
  po_boot : boot_in_range (pl_boot p);
  po_failed : gv_wf (pl_failed_generations p);
  po_failed_keys : Forall key_in_range (pl_failed_generations p);
  po_failed_count : zlen (pl_failed_generations p) <= lim;
  po_fences : Forall fence_step_ok (pl_fences p);
  po_fence_count : zlen (pl_fences p) <= lim;
  po_restores : Forall (restore_step_ok lim) (pl_restores p);
  po_restore_count : zlen (pl_restores p) <= lim;
  po_unresolved : Forall (unresolved_ok lim) (pl_unresolved p);
  po_unresolved_count : zlen (pl_unresolved p) <= lim;
  po_topology : in_u64 (pl_topology_digest p);
  po_policy : in_u64 (pl_policy_digest p);
  po_nonempty : plan_is_empty p = false
}.

Lemma plan_cut p : plan_storable p -> cut_writes (write_plan p) (plan_bytes p).
Proof.
  intros H. do 4 (apply cut_seq; [auto with cut|]).
  apply cut_counted; [by apply plan_bound_small, po_failed_count|apply Forall_true; auto with cut|].
  apply cut_counted; [by apply plan_bound_small, po_fence_count|apply Forall_true; apply fence_step_cut|].
  apply cut_counted; [by apply plan_bound_small, po_restore_count| |].
  { eapply Forall_impl; [by apply po_restores|]. apply restore_step_cut. }
  apply cut_counted; [by apply plan_bound_small, po_unresolved_count| |].
  { eapply Forall_impl; [by apply po_unresolved|]. apply unresolved_cut. }
  repeat apply cut_seq; auto with cut.
Qed.

Lemma fence_step_long s : 41 <= zlen (fence_step_bytes s).
Proof. unfold fence_step_bytes. autorewrite with zlen. lia. Qed.

Lemma restore_step_long s : 46 <= zlen (restore_step_bytes s).
Proof.
  unfold restore_step_bytes. autorewrite with zlen. pose proof (zlen_nonneg (rs_hops s)).
  pose proof (zlen_nonneg (list_bytes (fun v => le_bytes v 8) (rs_links s))). lia.
Qed.

Lemma unresolved_long u : 26 <= zlen (unresolved_bytes u).
Proof. unfold unresolved_bytes. autorewrite with zlen. unfold str_size. lia. Qed.

Lemma fence_list_part l : Forall fence_step_ok l -> zlen l <= lim ->
  part lim (list_bytes fence_step_bytes l) (try_list 41 read_fence_step) l.
Proof.
  intros H1 H2. apply (part_list lim fence_step_ok); auto using plan_bound_small, fence_step_long with typeclass_instances.
  - apply fence_step_part.
  - lia.
Qed.

Lemma restore_list_part l : Forall (restore_step_ok lim) l -> zlen l <= lim ->
  part lim (list_bytes restore_step_bytes l) (try_list 46 (read_restore_step limits)) l.
Proof.
  intros H1 H2. apply (part_list lim (restore_step_ok lim)); auto using plan_bound_small, restore_step_long with typeclass_instances.
  - apply restore_step_part.
  - lia.
Qed.

Lemma unresolved_list_part l : Forall (unresolved_ok lim) l -> zlen l <= lim ->
  part lim (list_bytes unresolved_bytes l) (try_list 26 read_unresolved) l.
Proof.
  intros H1 H2. apply (part_list lim (unresolved_ok lim)); auto using plan_bound_small, unresolved_long with typeclass_instances.
  - apply unresolved_part.
  - lia.
Qed.

Lemma plan_document p : plan_storable p -> document lim (plan_bytes p) (read_plan limits) (seal p).
Proof.
  intros [H1 H2 H3 H4 H5 H6 H7 H8 H9 H10 H11 H12 H13 H14 H15].
  destruct (feasibility_range (pl_feasibility p)) as (F1 & F2 & F3).
  destruct (plan_state_range (pl_state p)) as (S1 & S2 & S3).
  unfold plan_bytes, read_plan. rewrite <- (app_nil_r (le_bytes (pl_policy_digest p) 8)).
  apply document_tag; [split; vm_compute; congruence|]. apply document_u64; [done|intros; apply _|].
  apply document_u64; [done|intros; apply _|]. apply document_boot; [done|intros; apply _|].
  apply document_keys; [by auto using plan_bound_small|intros; apply _|].
  eapply document_try; [by apply fence_list_part|intros; apply _|].
  eapply document_try; [by apply restore_list_part|intros; apply _|].
  eapply document_try; [by apply unresolved_list_part|intros; apply _|].
  apply document_u8; [done|intros; apply _|]. apply document_u8; [done|intros; apply _|].
  do 2 (document_field (fun _ : bool => True) (fun b : bool => [if b then 1 else 0]); [done|]).
  apply document_u64; [done|intros; apply _|]. apply document_u64; [done|intros; apply _|].
  apply document_ok. cbn [feasibility_raw plan_state_raw]. rewrite F2, S2, F3, S3. apply document_end. intros r.
  rewrite canonicalise_id by done.
  match goal with |- context [seal ?q] => change q with (plan_with_digest p 0) end. rewrite seal_again.
  change (finish_plan (seal p) = Value (seal p)).
  unfold finish_plan. by rewrite (H15 : plan_is_empty (seal p) = false).
Qed.
End plan_format.

(** What [encode] returns, within the writer limit and beyond it. *)
Lemma plan_encode_cut limits : max_plan_steps limits <= kHardMaxElements -> forall p, plan_storable limits p ->
  if zlen (plan_bytes p) <=? kPlanWriterLimit then plan_encode p = plan_bytes p
  else strict_prefix (plan_encode p) (plan_bytes p).
Proof. intros Hl p Hp. unfold plan_encode. apply cut_encode; [by eapply plan_cut|done]. Qed.

(** * Properties *)

(** The planner's preference is what its comment promises, an
    object-independent order: no plan is preferred to itself, preference is
    transitive, and two plans are left unordered exactly when they leave the
    same number of dependents unresolved and restore the same steps. Fewer
    unresolved dependents always win, and the cost compared is the true sum
    saturated at the 64-bit maximum. *)
Theorem plan_preference_order a b c :
  plan_less a a = false /\
  (plan_less a b = true -> plan_less b c = true -> plan_less a c = true) /\
  (plan_less a b = false /\ plan_less b a = false <->
   zlen (pl_unresolved a) = zlen (pl_unresolved b) /\ pl_restores a = pl_restores b) /\
  (zlen (pl_unresolved a) < zlen (pl_unresolved b) -> plan_less a b = true) /\
  (Forall (fun s => in_u32 (rs_cost s)) (pl_restores a) ->
   total_cost a = Z.min UINT64_MAX (foldl Z.add 0 (rs_cost <$> pl_restores a))).
Proof.
  split; [|split; [|split; [apply plan_less_incomparable|split]]].
  - rewrite plan_less_objective. apply less_irrefl.
  - rewrite !plan_less_objective. apply less_trans.
  - intros H. unfold plan_less. rewrite (proj2 (Z.eqb_neq _ _)) by lia. simpl. lia.
  - intros H. apply saturating_sum_spec; [|ints_lia]. apply Forall_fmap. eapply Forall_impl; [exact H|].
    simpl. intros s [? _]. done.
Qed.

(** A plan survives its document. A plan whose lists and texts are within
    the planning bound decodes from its encoding to the same plan with its
    digest sealed, and any proper prefix of the encoding is refused as
    Truncated. [encode] ignores the writer's overflow: a plan whose document
    would exceed 8 MiB is returned cut off, and [decode] refuses that document
    as Truncated rather than reading another plan from it. *)
Theorem plan_document_roundtrip limits p :
  max_plan_steps limits <= kHardMaxElements -> plan_storable limits p ->
  (if zlen (plan_bytes p) <=? kPlanWriterLimit
   then plan_decode (plan_encode p) limits = Value (seal p)
   else exists s, plan_decode (plan_encode p) limits = Refused s /\ status_code s = Code.Truncated) /\
  forall q, strict_prefix q (plan_encode p) ->
    exists s, plan_decode q limits = Refused s /\ status_code s = Code.Truncated.
Proof.
  intros Hl Hp. pose proof (plan_encode_cut limits Hl p Hp) as He.
  destruct (document_decode _ _ _ _ (plan_document limits Hl p Hp)) as [Hv Hq].
  destruct (_ <=? _).
  - rewrite He. exact (conj Hv Hq).
  - split; [exact (Hq _ He)|]. intros q (q' & Hq' & Heq). apply Hq. destruct He as (t & Ht & He).
    exists (q' ++ t). split; [by destruct q'|]. by rewrite He, Heq, app_assoc.
Qed.

Definition sample_plan : ReconstructionPlan :=
  mkPlan 5 2 (mkBoot 11 1 5 6) [mkSwitchKey 1 2]
    [mkFenceStep (mkSwitchKey 1 2) 77 ClosureState.Complete 3 0]
    [mkRestore (dependent_path 3) (mkSwitchKey 1 2) PlanAction.RebindReplacement (mkSwitchKey 4 1)
       [mkSwitchKey 4 1; mkSwitchKey 6 2] [9; 10] 12 8]
    [mkUnresolved (dependent_service 2) (mkSwitchKey 1 2) UnresolvedReason.NoCandidateSupplied "no alternative"]
    PlanFeasibility.ProvenFeasible PlanState.Validated true false 100 200 0.

Lemma sample_plan_storable : plan_storable limits_defaults sample_plan.
Proof.
  split; simpl; try ints_lia; try done; repeat (constructor; simpl); try ints_lia; try done.
  change [mkSwitchKey 1 2] with (canonicalise [mkSwitchKey 1 2]). apply canonicalise_wf.
Qed.

Lemma plan_document_roundtrip_witness :
  plan_decode (plan_encode sample_plan) limits_defaults = Value (seal sample_plan).
Proof.
  pose proof (proj1 (plan_document_roundtrip limits_defaults sample_plan ltac:(vm_compute; congruence)
    sample_plan_storable)) as H.
  replace (zlen (plan_bytes sample_plan) <=? kPlanWriterLimit) with true in H by (vm_compute; reflexivity).
  exact H.
Defined.
