(* ===== verification/Payloads.v ===== *)
(** The payload codecs of durable records (src/persist/records.cpp):
    failures, fences, grants, withdrawals, plans, apply receipts, restore
    decisions, stream headers and plain 64-bit values, as documents of the
    canonical codec. *)

From S2P Require Import Prelude Containers Core Generation Authority Bytes Records Wire Decision Plan.

#[local] Open Scope codec_scope.

(** The format tag every payload decoder checks first. *)
Definition check_payload_tag {A} (k : ReaderM (Result A)) : ReaderM (Result A) :=
  check_tag kPayloadFormatTag "payload format tag is unsupported" k.

Definition read_durable_dependent : ReaderM DependentRef :=
  read_dependent "durable dependent kind is not defined".

(** * Encoders *)

Definition encode_stream_header (format_version boot_ordinal process_id epoch nonce_hi nonce_lo : Z) : list Z :=
  written (write_u8 kPayloadFormatTag;; write_u16 format_version;; write_u64 boot_ordinal;;
           write_u64 process_id;; write_u64 epoch;; write_u64 nonce_hi;; write_u64 nonce_lo).

Definition encode_u64_payload (value : Z) : list Z :=
  written (write_u8 kPayloadFormatTag;; write_u64 value).

Definition encode_failure_record (r : FailureRecord) : list Z :=
  written (write_u8 kPayloadFormatTag;; write_key (fr_subject r);; write_u64 (fr_evidence r);;
           write_u64 (fr_epoch r);; write_boot (fr_boot r);; write_u64 (fr_observed_at_ns r);;
           write_u64 (fr_recorded_at_ns r);; write_string (fr_reason r)).

Definition encode_fence_record (r : FenceRecord) : list Z :=
  written (write_u8 kPayloadFormatTag;; write_u64 (fence_id r);; write_key (fence_subject r);;
           write_u64 (fence_epoch r);; write_boot (fence_boot r);; write_u64 (fence_created_at_ns r);;
           write_u8 (fence_scope_raw (fence_scope_state r));; write_u64 (fence_closure_digest r);;
           write_u64 (fence_closure_members r);; write_u64 (fence_fenced_grants r);;
           write_u64 (fence_omitted_dependents r);; write_string (fence_reason r)).

Definition encode_grant_record (g : AuthorityGrant) : list Z :=
  written (write_u8 kPayloadFormatTag;; write_u64 (ag_id g);; write_dependent (ag_dependent g);;
           write_counted write_key (ag_bound g)
             (write_u64 (ag_epoch g);; write_boot (ag_boot g);; write_u64 (ag_attempt g);;
              write_u64 (ag_granted_at_ns g);; write_u64 (ag_expires_at_ns g);;
              write_u8 (grant_state_raw (ag_state g));; write_u8 (revocation_cause_raw (ag_cause g));;
              write_string (ag_detail g))).

Record WithdrawRecord := mkWithdraw { wd_grant : Z; wd_cause : Z; wd_detail : string }.

Definition encode_withdraw_record (r : WithdrawRecord) : list Z :=
  written (write_u8 kPayloadFormatTag;; write_u64 (wd_grant r);; write_u8 (wd_cause r);;
           write_string (wd_detail r)).

Definition encode_plan_record (p : ReconstructionPlan) : list Z := plan_encode p.

Definition write_step_result (s : ApplyStepResult) : WriterM :=
  write_dependent (sr_dependent s);; write_key (sr_replacement s);; write_u8 (ack_state_raw (sr_state s));;
  write_u64 (sr_attempt s);; write_u64 (sr_verification s);; write_string (sr_detail s).

Definition encode_apply_receipt (r : ApplyReceipt) : list Z :=
  written (write_u8 kPayloadFormatTag;; write_u64 (ap_plan r);; write_u64 (ap_epoch r);; write_boot (ap_boot r);;
           write_counted write_step_result (ap_steps r)
             (write_u64 (ap_applied r);; write_u64 (ap_verified r);; write_u64 (ap_failed r);;
              write_u64 (ap_unverified r);; write_boolean (ap_complete r);; write_u16 (code_raw (ap_outcome r)))).

Definition write_term (t : ExplanationTerm) : WriterM := write_string (term_key t);; write_string (term_value t).

Definition write_explanation (e : Explanation) : WriterM :=
  write_counted write_term (ex_terms e) (write_boolean (ex_truncated e)).

Definition encode_restore_decision (d : RestoreDecision) : list Z :=
  written (write_u8 kPayloadFormatTag;; write_dependent (rd_dependent d);; write_u16 (code_raw (rd_outcome d));;
           write_u16 (code_raw (rd_reason d));; write_boolean (rd_may_restore d);;
           write_boolean (rd_effect_verified d);;
           write_counted write_key (rd_bound d)
             (write_u64 (rd_plan d);;
              write_counted write_u64 (rd_grants d)
                (write_counted write_key (rd_blocking d) (write_explanation (rd_explanation d))))).

(** * Decoders *)

Definition grant_state_of_raw (raw : Z) : GrantState :=
  match raw with
  | 1 => GrantState.Active | 2 => GrantState.Stale | 3 => GrantState.Revoked
  | 4 => GrantState.Expired | 5 => GrantState.Fenced | _ => GrantState.Unknown
  end.

Definition revocation_cause_of_raw (raw : Z) : RevocationCause :=
  match raw with
  | 1 => RevocationCause.Superseded | 2 => RevocationCause.Fence | 3 => RevocationCause.Restart
  | 4 => RevocationCause.Expiry | 5 => RevocationCause.OperatorRevocation
  | 6 => RevocationCause.RevalidationFailed | 7 => RevocationCause.Shutdown
  | _ => RevocationCause.Unknown
  end.

Definition fence_scope_of_raw (raw : Z) : FenceScopeState :=
  match raw with
  | 1 => FenceScopeState.Partial | 2 => FenceScopeState.Committed | _ => FenceScopeState.Open
  end.

Definition read_u64_payload : ReaderM (Result Z) :=
  check_payload_tag (value ← read_u64; check_end (mret (Value value))).

Definition read_failure_record : ReaderM (Result FailureRecord) :=
  check_payload_tag
    (subject ← read_key; evidence ← read_u64; epoch ← read_u64; boot ← read_boot;
     observed ← read_u64; recorded ← read_u64; reason ← read_string;
     check_end
       (if negb (key_valid subject) || (observed =? 0)
        then mret (Refused (failure Code.Invalid "durable failure record is not a valid lineage entry"))
        else mret (Value (mkFailureRecord subject evidence epoch boot observed recorded reason)))).

Definition read_fence_record : ReaderM (Result FenceRecord) :=
  check_payload_tag
    (id ← read_u64; subject ← read_key; epoch ← read_u64; boot ← read_boot; created ← read_u64;
     scope ← read_u8; digest ← read_u64; members ← read_u64; grants ← read_u64; omitted ← read_u64;
     reason ← read_string;
     check_ok
       (if fence_scope_raw FenceScopeState.Committed <? scope
        then mret (Refused (failure Code.Invalid "durable fence record has an undefined scope state"))
        else check_end
          (if negb (key_valid subject)
           then mret (Refused (failure Code.Invalid "durable fence record is not generation-qualified"))
           else mret (Value (mkFence id subject epoch boot created (fence_scope_of_raw scope) digest members
                               grants omitted reason))))).

Definition read_grant_record : ReaderM (Result AuthorityGrant) :=
  check_payload_tag
    (id ← read_u64; dependent ← read_durable_dependent; keys ← read_list 16 read_key;
     epoch ← read_u64; boot ← read_boot; attempt ← read_u64; granted ← read_u64; expires ← read_u64;
     state ← read_u8; cause ← read_u8; detail ← read_string;
     check_ok
       (if grant_state_raw GrantState.Fenced <? state
        then mret (Refused (failure Code.Invalid "durable grant record has an undefined state"))
        else if revocation_cause_raw RevocationCause.Shutdown <? cause
        then mret (Refused (failure Code.Invalid "durable grant record has an undefined cause"))
        else check_end
          (if negb (id_valid id) || negb (dependent_valid dependent)
           then mret (Refused (failure Code.Invalid "durable grant record is malformed"))
           else mret (Value (mkGrant id dependent (canonicalise keys) epoch boot attempt granted expires
                               (grant_state_of_raw state) (revocation_cause_of_raw cause) detail))))).

Definition read_withdraw_record : ReaderM (Result WithdrawRecord) :=
  check_payload_tag
    (grant ← read_u64; cause ← read_u8; detail ← read_string;
     check_ok
       (if revocation_cause_raw RevocationCause.Shutdown <? cause
        then mret (Refused (failure Code.Invalid "withdraw record has an undefined cause"))
        else check_end
          (if negb (id_valid grant)
           then mret (Refused (failure Code.Invalid "withdraw record names no grant"))
           else mret (Value (mkWithdraw grant cause detail))))).

Definition read_step_result : ReaderM (Result ApplyStepResult) :=
  dependent ← read_durable_dependent; replacement ← read_key; state ← read_u8; attempt ← read_u64;
  verification ← read_u64; detail ← read_string;
  check_ok
    (if ack_state_raw AckState.Unverified <? state
     then mret (Refused (failure Code.Invalid "apply receipt step has an undefined state"))
     else mret (Value (mkStepResult dependent replacement (enum_cast ack_states AckState.Unknown state) attempt
                         verification detail))).

(** `applied + verified + failed + unverified > steps.size() * 2`, in 64-bit arithmetic. *)
Definition counters_inconsistent (steps applied verified failed unverified : Z) : bool :=
  wrap64 (steps * 2) <? add64 (add64 (add64 applied verified) failed) unverified.

Definition read_apply_receipt : ReaderM (Result ApplyReceipt) :=
  check_payload_tag
    (plan ← read_u64; epoch ← read_u64; boot ← read_boot;
     try_bind (try_list 32 read_step_result) (fun steps =>
       applied ← read_u64; verified ← read_u64; failed ← read_u64; unverified ← read_u64;
       complete ← read_boolean; outcome ← read_u16;
       check_end
         (if counters_inconsistent (zlen steps) applied verified failed unverified
          then mret (Refused (failure Code.Invalid "apply receipt counters are inconsistent"))
          else mret (Value (mkReceipt plan epoch boot steps applied verified failed unverified complete
                              (code_of_raw outcome)))))).

(** `if (!reader.ok()) return a;` *)
Definition unless_failed {A} (a : A) (k : ReaderM A) : ReaderM A := fun r =>
  if negb (reader_ok r) then (a, r) else k r.

Fixpoint read_terms (count : nat) (e : Explanation) : ReaderM Explanation :=
  match count with
  | O => mret e
  | S n => key ← read_string; value ← read_string; unless_failed e (read_terms n (explain e key value))
  end.

(** The early return of the loop leaves a failed reader, whose [boolean()] is
    false and changes nothing. *)
Definition read_explanation (limits : Limits) : ReaderM Explanation :=
  count ← list_count 8;
  explanation ← read_terms (Z.to_nat count) (explanation_new (max_explanation_terms limits));
  truncated ← read_boolean;
  mret (if truncated : bool then explain explanation "__truncated__" "true" else explanation).

Definition read_restore_decision : ReaderM (Result RestoreDecision) :=
  check_payload_tag
    (dependent ← read_durable_dependent; outcome ← read_u16; reason ← read_u16; may_restore ← read_boolean;
     effect_verified ← read_boolean; keys ← read_list 16 read_key; plan ← read_u64;
     grants ← read_list 8 read_u64; blocking ← read_list 16 read_key;
     explanation ← read_explanation limits_defaults;
     check_ok (check_end
       (mret (Value (mkRestoreDecision dependent (code_of_raw outcome) (code_of_raw reason) may_restore
                       effect_verified (canonicalise keys) plan grants blocking explanation))))).

Definition decode_plan_record (payload : list Z) (limits : Limits) : Result ReconstructionPlan :=
  plan_decode payload limits.
Definition decode_apply_receipt (payload : list Z) : Result ApplyReceipt :=
  (read_apply_receipt (set_element_limit (Z.shiftl 1 20) (reader_new payload))).1.
Definition decode_restore_decision (payload : list Z) : Result RestoreDecision :=
  (read_restore_decision (set_element_limit (Z.shiftl 1 20) (reader_new payload))).1.

Definition decode_u64_payload (payload : list Z) : Result Z := decode_with read_u64_payload payload.
Definition decode_failure_record (payload : list Z) : Result FailureRecord :=
  decode_with read_failure_record payload.
Definition decode_fence_record (payload : list Z) : Result FenceRecord :=
  decode_with read_fence_record payload.
Definition decode_grant_record (payload : list Z) : Result AuthorityGrant :=
  (read_grant_record (set_element_limit (Z.shiftl 1 20) (reader_new payload))).1.
Definition decode_withdraw_record (payload : list Z) : Result WithdrawRecord :=
  decode_with read_withdraw_record payload.

(** * Payload documents *)

(** The decoder of a payload reads what its encoder wrote, and refuses every
    shorter document as Truncated. *)
Definition payload_codec {A} (lim : Z) (bytes : list Z) (m : ReaderM (Result A)) (a : A) : Prop :=
  (m (set_element_limit lim (reader_new bytes))).1 = Value a /\
  forall p, strict_prefix p bytes ->
    exists s, (m (set_element_limit lim (reader_new p))).1 = Refused s /\ status_code s = Code.Truncated.

Lemma payload_codec_intro {A} lim w (m : ReaderM (Result A)) a bs :
  writes w bs -> zlen bs <= bw_limit writer_new -> document lim bs m a ->
  payload_codec lim (written w) m a.
Proof. intros Hw Hl Hd. rewrite (written_writes w bs) by done. by apply document_decode. Qed.

(** Which values the encoders are given: fields of their machine width, texts
    within the reader's element limit. *)
Record failure_storable (r : FailureRecord) : Prop := {
  fs_subject : key_in_range (fr_subject r);
  fs_valid : key_valid (fr_subject r) = true;
  fs_observed_set : fr_observed_at_ns r <> 0;
  fs_evidence : in_u64 (fr_evidence r);
  fs_epoch : in_u64 (fr_epoch r);
  fs_boot : boot_in_range (fr_boot r);
  fs_observed : in_u64 (fr_observed_at_ns r);
  fs_recorded : in_u64 (fr_recorded_at_ns r);
  fs_reason : small_text (Z.shiftl 1 24) (fr_reason r)
}.

Lemma failure_codec r : failure_storable r ->
  payload_codec (Z.shiftl 1 24) (encode_failure_record r) read_failure_record r.
Proof.
  intros [H1 H2 H3 H4 H5 H6 H7 H8 H9]. pose proof (small_text_short _ _ H9 ltac:(lia)) as Hs.
  eapply payload_codec_intro.
  - writes_steps. by eapply writes_text.
  - autorewrite with zlen. unfold small_text in H9. change (Z.shiftl 1 24) with 16777216 in H9.
    change (bw_limit writer_new) with 1073741824. lia.
  - unfold read_failure_record. document_steps; try done. apply document_end. intros rd.
    rewrite H2, (proj2 (Z.eqb_neq _ _)) by done. by destruct r.
Qed.

Record fence_storable (f : FenceRecord) : Prop := {
  fc_subject : key_in_range (fence_subject f);
  fc_valid : key_valid (fence_subject f) = true;
  fc_id : in_u64 (fence_id f);
  fc_epoch : in_u64 (fence_epoch f);
  fc_boot : boot_in_range (fence_boot f);
  fc_created : in_u64 (fence_created_at_ns f);
  fc_digest : in_u64 (fence_closure_digest f);
  fc_members : in_u64 (fence_closure_members f);
  fc_grants : in_u64 (fence_fenced_grants f);
  fc_omitted : in_u64 (fence_omitted_dependents f);
  fc_reason : small_text (Z.shiftl 1 24) (fence_reason f)
}.

Lemma fence_scope_raw_range s : in_u8 (fence_scope_raw s) /\ fence_scope_raw s <= 2 /\
  fence_scope_of_raw (fence_scope_raw s) = s.
Proof. by destruct s. Qed.

Lemma fence_codec f : fence_storable f ->
  payload_codec (Z.shiftl 1 24) (encode_fence_record f) read_fence_record f.
Proof.
  intros [H1 H2 H3 H4 H5 H6 H7 H8 H9 H10 H11]. pose proof (small_text_short _ _ H11 ltac:(lia)) as Hs.
  destruct (fence_scope_raw_range (fence_scope_state f)) as (Hr & Hle & Hof).
  eapply payload_codec_intro.
  - writes_steps. by eapply writes_text.
  - autorewrite with zlen. unfold small_text in H11. change (Z.shiftl 1 24) with 16777216 in H11.
    change (bw_limit writer_new) with 1073741824. lia.
  - unfold read_fence_record. document_steps; try done. cbn [fence_scope_raw].
    rewrite (proj2 (Z.ltb_ge _ _)) by done. apply document_end. intros rd.
    rewrite H2, Hof. by destruct f.
Qed.

Record grant_storable (g : AuthorityGrant) : Prop := {
  gc_id : in_u64 (ag_id g);
  gc_id_set : ag_id g <> 0;
  gc_dependent : dependent_in_range (ag_dependent g);
  gc_dependent_valid : dependent_valid (ag_dependent g) = true;
  gc_bound : gv_wf (ag_bound g);
  gc_keys : Forall key_in_range (ag_bound g);
  gc_count : zlen (ag_bound g) <= Z.shiftl 1 20;
  gc_epoch : in_u64 (ag_epoch g);
  gc_boot : boot_in_range (ag_boot g);
  gc_attempt : in_u64 (ag_attempt g);
  gc_granted : in_u64 (ag_granted_at_ns g);
  gc_expires : in_u64 (ag_expires_at_ns g);
  gc_detail : small_text (Z.shiftl 1 20) (ag_detail g)
}.

Lemma grant_state_raw_range s : in_u8 (grant_state_raw s) /\ grant_state_raw s <= 5 /\
  grant_state_of_raw (grant_state_raw s) = s.
Proof. by destruct s. Qed.

Lemma revocation_cause_raw_range c : in_u8 (revocation_cause_raw c) /\ revocation_cause_raw c <= 7 /\
  revocation_cause_of_raw (revocation_cause_raw c) = c.
Proof. by destruct c. Qed.

Lemma grant_codec g : grant_storable g ->
  payload_codec (Z.shiftl 1 20) (encode_grant_record g) read_grant_record g.
Proof.
  intros [H1 H2 H3 H4 H5 H6 H7 H8 H9 H10 H11 H12 H13].
  pose proof (small_text_short _ _ H13 ltac:(done)) as Hs.
  destruct (grant_state_raw_range (ag_state g)) as (Hr & Hle & Hof).
  destruct (revocation_cause_raw_range (ag_cause g)) as (Hr' & Hle' & Hof').
  assert (H32 : zlen (ag_bound g) < two32) by (change (Z.shiftl 1 20) with 1048576 in H7; ints_lia).
  eapply payload_codec_intro.
  - writes_steps. by eapply writes_text.
  - autorewrite with zlen. unfold small_text in H13. change (Z.shiftl 1 20) with 1048576 in *.
    change (bw_limit writer_new) with 1073741824. lia.
  - unfold read_grant_record. document_steps; try done. cbn [grant_state_raw revocation_cause_raw].
    rewrite (proj2 (Z.ltb_ge 5 _)), (proj2 (Z.ltb_ge 7 _)) by done. apply document_end. intros rd.
    unfold id_valid. rewrite (proj2 (Z.eqb_neq _ _)) by done. rewrite H4, Hof, Hof', canonicalise_id by done.
    by destruct g.
Qed.

Record withdraw_storable (w : WithdrawRecord) : Prop := {
  wc_grant : in_u64 (wd_grant w);
  wc_grant_set : wd_grant w <> 0;
  wc_cause : 0 <= wd_cause w <= revocation_cause_raw RevocationCause.Shutdown;
  wc_detail : small_text (Z.shiftl 1 24) (wd_detail w)
}.

Lemma withdraw_codec w : withdraw_storable w ->
  payload_codec (Z.shiftl 1 24) (encode_withdraw_record w) read_withdraw_record w.
Proof.
  intros [H1 H2 H3 H4]. simpl in H3. pose proof (small_text_short _ _ H4 ltac:(lia)) as Hs.
  eapply payload_codec_intro.
  - writes_steps. by eapply writes_text.
  - autorewrite with zlen. unfold small_text in H4. change (Z.shiftl 1 24) with 16777216 in H4.
    change (bw_limit writer_new) with 1073741824. lia.
  - unfold read_withdraw_record. document_steps; try done; [ints_lia|]. cbn [revocation_cause_raw].
    rewrite (proj2 (Z.ltb_ge _ _)) by lia. apply document_end. intros rd.
    unfold id_valid. rewrite (proj2 (Z.eqb_neq _ _)) by done. by destruct w.
Qed.

Lemma value_codec v : in_u64 v -> payload_codec (Z.shiftl 1 24) (encode_u64_payload v) read_u64_payload v.
Proof.
  intros Hv. eapply payload_codec_intro; [writes_steps|done|].
  unfold read_u64_payload. rewrite <- (app_nil_r (le_bytes v 8)). document_steps; [done|]. by apply document_end.
Qed.

(** ** Apply receipts *)

Definition step_result_bytes (s : ApplyStepResult) : list Z :=
  dependent_bytes (sr_dependent s) ++ key_bytes (sr_replacement s) ++ [ack_state_raw (sr_state s)] ++
  le_bytes (sr_attempt s) 8 ++ le_bytes (sr_verification s) 8 ++ prefixed (string_bytes (sr_detail s)).

Record step_result_ok (lim : Z) (s : ApplyStepResult) : Prop := {
  sro_dependent : dependent_in_range (sr_dependent s);
  sro_replacement : key_in_range (sr_replacement s);
  sro_attempt : in_u64 (sr_attempt s);
  sro_verification : in_u64 (sr_verification s);
  sro_detail : small_text lim (sr_detail s)
}.

#[local] Instance step_result_closed : FailClosed read_step_result.
Proof. unfold read_step_result, read_durable_dependent. apply _. Qed.

Lemma ack_state_range s : in_u8 (ack_state_raw s) /\ (4 <? ack_state_raw s) = false /\
  enum_cast ack_states AckState.Unknown (ack_state_raw s) = s.
Proof. by destruct s. Qed.

Lemma step_result_part lim s : lim <= Z.shiftl 1 24 -> step_result_ok lim s ->
  part lim (step_result_bytes s) read_step_result s.
Proof.
  intros Hl [H1 H2 H3 H4 H5]. destruct (ack_state_range (sr_state s)) as (R1 & R2 & R3).
  pose proof (small_text_short _ _ H5 Hl) as Hs.
  unfold step_result_bytes, read_step_result. rewrite <- (app_nil_r (prefixed _)).
  part_field dependent_in_range dependent_bytes; [done|]. part_field key_in_range key_bytes; [done|].
  part_field in_u8 (fun v : Z => [v]); [done|]. do 2 (part_field in_u64 (fun v => le_bytes v 8); [done|]).
  part_field (fun s => short lim (string_bytes s)) (fun s => prefixed (string_bytes s)); [done|].
  apply part_ok. cbn [ack_state_raw]. rewrite R2, R3. destruct s. apply part_ret.
Qed.

Lemma step_result_long s : 32 <= zlen (step_result_bytes s).
Proof. unfold step_result_bytes. autorewrite with zlen. unfold str_size. lia. Qed.

Lemma writes_step_result s : small_text (Z.shiftl 1 20) (sr_detail s) ->
  writes (write_step_result s) (step_result_bytes s).
Proof.
  intros H. repeat apply writes_seq; auto with codec. eapply writes_text, small_text_short; [exact H|done].
Qed.

Definition receipt_bytes (r : ApplyReceipt) : list Z :=
  [kPayloadFormatTag] ++ le_bytes (ap_plan r) 8 ++ le_bytes (ap_epoch r) 8 ++ boot_bytes (ap_boot r) ++
  list_bytes step_result_bytes (ap_steps r) ++ le_bytes (ap_applied r) 8 ++ le_bytes (ap_verified r) 8 ++
  le_bytes (ap_failed r) 8 ++ le_bytes (ap_unverified r) 8 ++ [if ap_complete r then 1 else 0] ++
  le_bytes (code_raw (ap_outcome r)) 2.

Record receipt_storable (r : ApplyReceipt) : Prop := {
  re_plan : in_u64 (ap_plan r);
  re_epoch : in_u64 (ap_epoch r);
  re_boot : boot_in_range (ap_boot r);
  re_steps : Forall (step_result_ok (Z.shiftl 1 20)) (ap_steps r);
  re_count : zlen (ap_steps r) <= Z.shiftl 1 20;
  re_applied : in_u64 (ap_applied r);
  re_verified : in_u64 (ap_verified r);
  re_failed : in_u64 (ap_failed r);
  re_unverified : in_u64 (ap_unverified r);
  re_counters : ap_applied r + ap_verified r + ap_failed r + ap_unverified r <= zlen (ap_steps r) * 2;
  re_outcome : code_canonical (ap_outcome r);
  re_fits : zlen (receipt_bytes r) <= Z.shiftl 1 30
}.

Lemma counters_consistent steps a v f u : in_u64 a -> in_u64 v -> in_u64 f -> in_u64 u ->
  steps <= Z.shiftl 1 20 -> a + v + f + u <= steps * 2 -> counters_inconsistent steps a v f u = false.
Proof.
  intros Ha Hv Hf Hu Hs Hsum. change (Z.shiftl 1 20) with 1048576 in Hs. unfold counters_inconsistent.
  rewrite (add64_small a v), (add64_small (a + v) f), (add64_small (a + v + f) u) by ints_lia. apply Z.ltb_ge. unfold wrap64. rewrite Z.mod_small by ints_lia. lia.
Qed.

Lemma code_raw_range c : code_canonical c -> in_u16 (code_raw c).
Proof. destruct c; simpl; ints_lia. Qed.

Lemma receipt_codec r : receipt_storable r ->
  payload_codec (Z.shiftl 1 20) (encode_apply_receipt r) read_apply_receipt r.
Proof.
  intros [H1 H2 H3 H4 H5 H6 H7 H8 H9 H10 H11 H12].
  assert (H32 : zlen (ap_steps r) < two32) by (change (Z.shiftl 1 20) with 1048576 in H5; ints_lia).
  eapply (payload_codec_intro _ _ _ _ (receipt_bytes r)); [|done|].
  - do 4 (apply writes_seq; [auto with codec|]). apply writes_counted_ok; [done| |repeat apply writes_seq; auto with codec].
    eapply Forall_impl; [exact H4|]. intros s Hs. apply writes_step_result, Hs.
  - unfold receipt_bytes, read_apply_receipt. rewrite <- (app_nil_r (le_bytes (code_raw _) 2)).
    unfold check_payload_tag. document_steps; try done.
    eapply document_try; [|intros; apply _|].
    { apply (part_list _ (step_result_ok (Z.shiftl 1 20))); auto using step_result_long with typeclass_instances.
      - intros s Hs. by apply step_result_part.
      - lia. }
    document_steps; try done.
    document_field (fun _ : bool => True) (fun b : bool => [if b then 1 else 0]); [done|].
    document_field in_u16 (fun v => le_bytes v 2); [by apply code_raw_range|].
    apply document_end. intros rd. rewrite counters_consistent, code_of_raw_of_code by done. by destruct r.
Qed.

(** ** Restore decisions *)

Definition term_bytes (t : ExplanationTerm) : list Z :=
  prefixed (string_bytes (term_key t)) ++ prefixed (string_bytes (term_value t)).

(** Explanations as they are built: bounded terms, and no truncation before
    the limit is reached. The decoder rebuilds them under the default limit. *)
Definition term_ok (t : ExplanationTerm) : Prop :=
  str_size (term_key t) <= kMaxTermBytes /\ str_size (term_value t) <= kMaxTermBytes.

Record explanation_storable (e : Explanation) : Prop := {
  eo_limit : ex_limit e = max_explanation_terms limits_defaults;
  eo_terms : Forall term_ok (ex_terms e);
  eo_bound : zlen (ex_terms e) <= ex_limit e;
  eo_truncated : ex_truncated e = true -> zlen (ex_terms e) = ex_limit e
}.

Definition explanation_bytes (e : Explanation) : list Z :=
  list_bytes term_bytes (ex_terms e) ++ [if ex_truncated e then 1 else 0].

Definition explain_term (e : Explanation) (t : ExplanationTerm) : Explanation :=
  explain e (term_key t) (term_value t).

#[local] Instance sticky_unless {A} (a : A) (k : ReaderM A) : Sticky (unless_failed a k).
Proof. intros r Hr. unfold unless_failed. by rewrite Hr. Qed.

#[local] Instance sticky_terms n e : Sticky (read_terms n e).
Proof. destruct n; simpl; apply _. Qed.

Section explanations.
Context (lim : Z) (Hlim : kMaxTermBytes <= lim) (Hsmall : lim <= Z.shiftl 1 24).

Lemma term_text_short s : str_size s <= kMaxTermBytes -> short lim (string_bytes s).
Proof. intros H. apply small_text_short; [|done]. unfold small_text. lia. Qed.

Lemma decodes_unless {A} (a0 a : A) bs k : decodes lim bs k a -> decodes lim bs (unless_failed a0 k) a.
Proof. intros H pre post. unfold unless_failed. rewrite reader_ok_at_pos. apply H. Qed.

Lemma truncates_unless {A} (a : A) bs k : truncates lim bs k -> truncates lim bs (unless_failed a k).
Proof. intros H pre post Hp. unfold unless_failed. rewrite reader_ok_at_pos. by apply H. Qed.

Lemma decodes_terms l e : Forall term_ok l ->
  decodes lim (concat (term_bytes <$> l)) (read_terms (length l) e) (foldl explain_term e l).
Proof.
  intros Hl. revert e. induction Hl as [|t l [Hk Hv] _ IH]; intros e; [apply decodes_ret|].
  cbn [fmap list_fmap concat length read_terms foldl]. unfold term_bytes at 1. rewrite <- app_assoc.
  eapply decodes_bind; [apply (wire_decodes (WireFormat := wire_string lim)), term_text_short; done|].
  eapply decodes_bind; [apply (wire_decodes (WireFormat := wire_string lim)), term_text_short; done|].
  apply decodes_unless, IH.
Qed.

Lemma truncates_terms l e : Forall term_ok l ->
  truncates lim (concat (term_bytes <$> l)) (read_terms (length l) e).
Proof.
  intros Hl. revert e. induction Hl as [|t l [Hk Hv] _ IH]; intros e; [apply truncates_nil|].
  pose proof (term_text_short _ Hk). pose proof (term_text_short _ Hv).
  cbn [fmap list_fmap concat length read_terms foldl]. unfold term_bytes at 1. rewrite <- app_assoc.
  eapply truncates_bind; [by apply (wire_decodes (WireFormat := wire_string lim))
    |by apply (wire_truncates (WireFormat := wire_string lim))|apply _|].
  eapply truncates_bind; [by apply (wire_decodes (WireFormat := wire_string lim))
    |by apply (wire_truncates (WireFormat := wire_string lim))|apply _|].
  apply truncates_unless, IH.
Qed.

Lemma explain_terms e l : Forall term_ok l -> zlen (ex_terms e) + zlen l <= ex_limit e ->
  foldl explain_term e l = mkExplanation (ex_terms e ++ l) (ex_limit e) (ex_truncated e).
Proof.
  intros Hl. revert e. induction Hl as [|t l [Hk Hv] _ IH]; intros e Hn; simpl.
  - rewrite app_nil_r. by destruct e.
  - rewrite zlen_cons in Hn. pose proof (zlen_nonneg l).
    assert (He : explain_term e t = mkExplanation (ex_terms e ++ [t]) (ex_limit e) (ex_truncated e)).
    { unfold explain_term, explain, bounded_term. rewrite (proj2 (Z.leb_gt _ _)) by lia.
      rewrite !(proj2 (Z.leb_le _ _)) by done. by destruct t. }
    rewrite He, IH; simpl; [by rewrite <- app_assoc|]. rewrite zlen_app, zlen_cons, zlen_nil. lia.
Qed.

Lemma explanation_rebuilt e : explanation_storable e ->
  (if ex_truncated e then explain (foldl explain_term (explanation_new 64) (ex_terms e)) "__truncated__" "true"
   else foldl explain_term (explanation_new 64) (ex_terms e)) = e.
Proof.
  intros [Hl Ht Hb Hr]. rewrite explain_terms by (simpl in *; rewrite ?zlen_nil; lia || done).
  destruct e as [ts n b]. simpl in *. subst. destruct b; [|done].
  unfold explain. simpl. by rewrite (Hr eq_refl).
Qed.

Lemma terms_long l : 8 * zlen l <= zlen (concat (term_bytes <$> l)).
Proof.
  induction l as [|t l IH]; [by cbn|]. cbn [fmap list_fmap concat]. rewrite zlen_cons, zlen_app.
  unfold term_bytes at 1. autorewrite with zlen. unfold str_size. lia.
Qed.

Lemma wire_explanation : 64 <= lim ->
  WireFormat lim explanation_storable explanation_bytes (read_explanation limits_defaults).
Proof.
  intros H64. split; [| |unfold read_explanation; apply _]; intros e He; pose proof (eo_terms _ He) as Hts;
    pose proof (eo_bound _ He) as Hb; rewrite (eo_limit _ He) in Hb; simpl in Hb;
    pose proof (zlen_nonneg (ex_terms e)); pose proof (terms_long (ex_terms e));
    unfold explanation_bytes, list_bytes, read_explanation; rewrite <- app_assoc.
  - apply counted_decodes; [lia|lia|ints_lia|lia|rewrite zlen_app; pose proof (zlen_nonneg [if ex_truncated e then 1 else 0]); lia|].
    rewrite to_nat_zlen. eapply decodes_bind; [by apply decodes_terms|].
    rewrite <- (app_nil_r [_]).
    eapply decodes_bind; [by apply (wire_decodes (WireFormat := wire_boolean lim))|].
    rewrite explanation_rebuilt by done. apply decodes_ret.
  - apply counted_truncates; [lia|lia|ints_lia|lia|apply _|].
    rewrite to_nat_zlen. eapply truncates_bind; [by apply decodes_terms|by apply truncates_terms|apply _|].
    rewrite <- (app_nil_r [_]).
    eapply truncates_bind; [by apply (wire_decodes (WireFormat := wire_boolean lim))
      |by apply (wire_truncates (WireFormat := wire_boolean lim))|apply _|apply truncates_nil].
Qed.
End explanations.

Definition restore_decision_bytes (d : RestoreDecision) : list Z :=
  [kPayloadFormatTag] ++ dependent_bytes (rd_dependent d) ++ le_bytes (code_raw (rd_outcome d)) 2 ++
  le_bytes (code_raw (rd_reason d)) 2 ++ [if rd_may_restore d then 1 else 0] ++
  [if rd_effect_verified d then 1 else 0] ++ list_bytes key_bytes (rd_bound d) ++ le_bytes (rd_plan d) 8 ++
  list_bytes (fun v => le_bytes v 8) (rd_grants d) ++ list_bytes key_bytes (rd_blocking d) ++
  explanation_bytes (rd_explanation d).

Record restore_decision_storable (d : RestoreDecision) : Prop := {
  do_dependent : dependent_in_range (rd_dependent d);
  do_outcome : code_canonical (rd_outcome d);
  do_reason : code_canonical (rd_reason d);
  do_bound : gv_wf (rd_bound d);
  do_keys : Forall key_in_range (rd_bound d);
  do_key_count : zlen (rd_bound d) <= Z.shiftl 1 20;
  do_plan : in_u64 (rd_plan d);
  do_grants : Forall in_u64 (rd_grants d);
  do_grant_count : zlen (rd_grants d) <= Z.shiftl 1 20;
  do_blocking : Forall key_in_range (rd_blocking d);
  do_blocking_count : zlen (rd_blocking d) <= Z.shiftl 1 20;
  do_explanation : explanation_storable (rd_explanation d);
  do_fits : zlen (restore_decision_bytes d) <= Z.shiftl 1 30
}.

Lemma million_small n : n <= Z.shiftl 1 20 -> n < two32.
Proof. change (Z.shiftl 1 20) with 1048576. intros. ints_lia. Qed.

Lemma writes_explanation e : explanation_storable e -> writes (write_explanation e) (explanation_bytes e).
Proof.
  intros [Hl Ht Hb _]. rewrite Hl in Hb. simpl in Hb. apply writes_counted_ok; [ints_lia| |apply writes_boolean].
  eapply Forall_impl; [exact Ht|]. intros t [? ?]. unfold kMaxTermBytes in *.
  apply writes_seq; apply writes_string; ints_lia.
Qed.

Lemma restore_decision_writes d : restore_decision_storable d ->
  encode_restore_decision d = restore_decision_bytes d.
Proof.
  intros [H1 H2 H3 H4 H5 H6 H7 H8 H9 H10 H11 H12 H13]. apply written_writes; [|done].
  do 6 (apply writes_seq; [auto with codec|]).
  apply writes_counted_ok; [by apply million_small|apply Forall_true; auto with codec|].
  apply writes_seq; [auto with codec|].
  apply writes_counted_ok; [by apply million_small|apply Forall_true; auto with codec|].
  apply writes_counted_ok; [by apply million_small|apply Forall_true; auto with codec|].
  by apply writes_explanation.
Qed.

Lemma restore_decision_codec d : restore_decision_storable d ->
  payload_codec (Z.shiftl 1 20) (encode_restore_decision d) read_restore_decision d.
Proof.
  intros H. rewrite restore_decision_writes by done. apply document_decode.
  destruct H as [H1 H2 H3 H4 H5 H6 H7 H8 H9 H10 H11 H12 H13].
  unfold restore_decision_bytes, read_restore_decision, check_payload_tag.
  rewrite <- (app_nil_r (explanation_bytes _)). document_steps; [done|].
  do 2 (document_field in_u16 (fun v => le_bytes v 2); [by apply code_raw_range|]).
  do 2 (document_field (fun _ : bool => True) (fun b : bool => [if b then 1 else 0]); [done|]).
  document_steps; [by auto using million_small|done|].
  document_field (fun l => Forall in_u64 l /\ zlen l <= Z.shiftl 1 20 /\ zlen l < two32)
    (list_bytes (fun v => le_bytes v 8)); [by auto using million_small|].
  document_steps; [by auto using million_small|].
  apply (document_bind _ explanation_storable explanation_bytes);
    [by apply wire_explanation|done|intros; apply _|].
  apply document_ok, document_end. intros r. rewrite !code_of_raw_of_code, canonicalise_id by done. by destruct d.
Qed.

(** * All payloads *)

Inductive Payload :=
| PValue (v : Z) | PFailure (r : FailureRecord) | PFence (f : FenceRecord) | PGrant (g : AuthorityGrant)
| PWithdraw (w : WithdrawRecord) | PReceipt (r : ApplyReceipt) | PRestore (d : RestoreDecision).

Definition payload_storable (p : Payload) : Prop :=
  match p with
  | PValue v => in_u64 v | PFailure r => failure_storable r | PFence f => fence_storable f
  | PGrant g => grant_storable g | PWithdraw w => withdraw_storable w
  | PReceipt r => receipt_storable r | PRestore d => restore_decision_storable d
  end.

Definition encode_payload (p : Payload) : list Z :=
  match p with
  | PValue v => encode_u64_payload v | PFailure r => encode_failure_record r
  | PFence f => encode_fence_record f | PGrant g => encode_grant_record g
  | PWithdraw w => encode_withdraw_record w | PReceipt r => encode_apply_receipt r
  | PRestore d => encode_restore_decision d
  end.

Definition result_map {A B} (f : A -> B) (r : Result A) : Result B :=
  match r with Value v => Value (f v) | Refused s => Refused s end.

(** The decoder for payloads of the same kind as [p]. *)
Definition decode_like (p : Payload) (bytes : list Z) : Result Payload :=
  match p with
  | PValue _ => result_map PValue (decode_u64_payload bytes)
  | PFailure _ => result_map PFailure (decode_failure_record bytes)
  | PFence _ => result_map PFence (decode_fence_record bytes)
  | PGrant _ => result_map PGrant (decode_grant_record bytes)
  | PWithdraw _ => result_map PWithdraw (decode_withdraw_record bytes)
  | PReceipt _ => result_map PReceipt (decode_apply_receipt bytes)
  | PRestore _ => result_map PRestore (decode_restore_decision bytes)
  end.

Lemma codec_mapped {A} lim bytes (m : ReaderM (Result A)) a (c : A -> Payload)
  (decode : list Z -> Result Payload) :
  (forall bs, decode bs = result_map c (m (set_element_limit lim (reader_new bs))).1) ->
  payload_codec lim bytes m a ->
  decode bytes = Value (c a) /\
  forall q, strict_prefix q bytes -> exists s, decode q = Refused s /\ status_code s = Code.Truncated.
Proof.
  intros Hd [Hv Hp]. split; [by rewrite Hd, Hv|]. intros q (s & Hs & Hc)%Hp. exists s. by rewrite Hd, Hs.
Qed.

(** ** Properties *)

(** C36. Every storable payload survives storage: a failure, fence, grant,
    withdrawal, apply receipt, restore decision or 64-bit value decodes from its
    encoding to the identical record, enumerations, explanations and the bound
    generation vector included, and a payload cut short at any byte is refused as
    Truncated instead of being read as a different record. Storable
    ([payload_storable]) means that the fields have their machine widths and the
    texts fit the codec, that the subjects and identities a decoder insists on are
    valid, that the counters of a receipt agree with its steps, and that an
    explanation was kept under the default limit of 64 terms: one that was cut at
    a smaller limit does not come back as it was. *)
Theorem payload_roundtrip p :
  payload_storable p ->
  decode_like p (encode_payload p) = Value p /\
  forall q, strict_prefix q (encode_payload p) ->
    exists s, decode_like p q = Refused s /\ status_code s = Code.Truncated.
Proof.
  intros H. destruct p as [v|r|f|g|w|r|d].
  - exact (codec_mapped _ _ _ _ PValue (decode_like (PValue v)) (fun _ => eq_refl) (value_codec v H)).
  - exact (codec_mapped _ _ _ _ PFailure (decode_like (PFailure r)) (fun _ => eq_refl) (failure_codec r H)).
  - exact (codec_mapped _ _ _ _ PFence (decode_like (PFence f)) (fun _ => eq_refl) (fence_codec f H)).
  - exact (codec_mapped _ _ _ _ PGrant (decode_like (PGrant g)) (fun _ => eq_refl) (grant_codec g H)).
  - exact (codec_mapped _ _ _ _ PWithdraw (decode_like (PWithdraw w)) (fun _ => eq_refl) (withdraw_codec w H)).
  - exact (codec_mapped _ _ _ _ PReceipt (decode_like (PReceipt r)) (fun _ => eq_refl) (receipt_codec r H)).
  - exact (codec_mapped _ _ _ _ PRestore (decode_like (PRestore d)) (fun _ => eq_refl) (restore_decision_codec d H)).
Qed.

Definition sample_stored_grant : AuthorityGrant :=
  mkGrant 7 (dependent_path 3) [mkSwitchKey 1 2; mkSwitchKey 4 1] 9 (mkBoot 11 1 5 6) 1 100 200
    GrantState.Revoked RevocationCause.OperatorRevocation "maintenance".

Lemma payload_roundtrip_witness :
  decode_grant_record (encode_grant_record sample_stored_grant) = Value sample_stored_grant.
Proof.
  assert (H : payload_storable (PGrant sample_stored_grant)).
  { split; simpl; try ints_lia; try done.
    - change [mkSwitchKey 1 2; mkSwitchKey 4 1] with (canonicalise [mkSwitchKey 1 2; mkSwitchKey 4 1]).
      apply canonicalise_wf.
    - repeat constructor; vm_compute; congruence. }
  pose proof (proj1 (payload_roundtrip (PGrant sample_stored_grant) H)) as Hr.
  unfold decode_like, encode_payload in Hr.
  destruct (decode_grant_record _) as [g|s]; simpl in Hr; [|discriminate Hr]. by injection Hr as ->.
Defined.
