(* ===== verification/Journal.v ===== *)
(** The durable store (include/sff/persist/store.hpp, src/persist/store.cpp):
    the append-only journal with its replay, torn-tail recovery and
    compaction, and the snapshot that is replaced by renaming a staging file.

    The files are byte strings of a [Disk]; what the operating system answers
    (whether a file could be opened, how many bytes of a write reached the
    file, whether a flush, truncation or rename succeeded) is an argument of
    each operation, so that every I/O failure path of the code is a branch. A
    write that is reported complete and flushed has reached the file; otherwise
    any part of it may have. *)

From S2P Require Import Prelude Containers Core Bytes Integrity Records.

(** * State *)

Module OpenMode.
Inductive OpenMode := CreateNew | OpenExisting | OpenOrCreate.
End OpenMode.
Abbreviation OpenMode := OpenMode.OpenMode.

#[export] Instance OpenMode_eq_dec : EqDecision OpenMode.
Proof. solve_decision. Defined.

Definition open_mode_to_string (m : OpenMode) : string :=
  match m with
  | OpenMode.CreateNew => "CREATE_NEW"
  | OpenMode.OpenExisting => "OPEN_EXISTING"
  | OpenMode.OpenOrCreate => "OPEN_OR_CREATE"
  end.

Record Disk := mkDisk {
  disk_root : bool;
  disk_journal : option (list Z);
  disk_snapshot : option (list Z);
  disk_journal_staging : option (list Z);
  disk_snapshot_staging : option (list Z)
}.

Definition disk_with_journal (d : Disk) (j : option (list Z)) : Disk :=
  mkDisk (disk_root d) j (disk_snapshot d) (disk_journal_staging d) (disk_snapshot_staging d).

Record ReplayReport := mkReport {
  rp_records : list DurableRecord;
  rp_corrupt_records : Z;
  rp_torn_records : Z;
  rp_unsupported_records : Z;
  rp_recovered_bytes : Z;
  rp_truncated_tail : bool;
  rp_clean_shutdown : bool;
  rp_last_sequence : Z;
  rp_status : Status
}.

Definition report_empty : ReplayReport := mkReport [] 0 0 0 0 false false 0 success.

Record StoreOptions := mkOptions {
  so_root : list string;
  so_limits : Limits;
  so_mode : OpenMode;
  so_durable_writes : bool
}.

Record DurableStore := mkStore {
  ds_options : StoreOptions;
  ds_open : bool;
  ds_next_sequence : Z;
  ds_records_written : Z;
  ds_open_report : ReplayReport
}.

Definition io_failure (what : string) : Status := failure Code.IoError what.

(** [sanitise_path]: the operating system resolves a path to an absolute,
    normalised one. *)
Definition sanitise_path (resolve : list string -> option (list string)) (path : list string) :
  Result (list string) :=
  if bool_decide (path = []) then Refused (failure Code.Invalid "path is empty")
  else if existsb (fun c => bool_decide (c = ".."%string)) path then
    Refused (failure Code.Invalid "path contains a parent directory reference")
  else match resolve path with
    | None => Refused (failure Code.Invalid "path could not be resolved to an absolute location")
    | Some absolute => Value absolute
    end.

(** * Replay *)

Definition report_torn (r : ReplayReport) (bytes : Z) : ReplayReport :=
  mkReport (rp_records r) (rp_corrupt_records r) (rp_torn_records r + 1) (rp_unsupported_records r) bytes true
    (rp_clean_shutdown r) (rp_last_sequence r) (rp_status r).

Definition report_corrupt (r : ReplayReport) : ReplayReport :=
  mkReport (rp_records r) (rp_corrupt_records r + 1) (rp_torn_records r) (rp_unsupported_records r)
    (rp_recovered_bytes r) (rp_truncated_tail r) (rp_clean_shutdown r) (rp_last_sequence r) (rp_status r).

Definition report_unsupported (r : ReplayReport) : ReplayReport :=
  mkReport (rp_records r) (rp_corrupt_records r) (rp_torn_records r) (rp_unsupported_records r + 1)
    (rp_recovered_bytes r) (rp_truncated_tail r) (rp_clean_shutdown r) (rp_last_sequence r) (rp_status r).

(** `report.last_sequence = sequence; report.clean_shutdown = kind == ShutdownClean;` *)
Definition report_sequence (r : ReplayReport) (h : RecordHeader) : ReplayReport :=
  mkReport (rp_records r) (rp_corrupt_records r) (rp_torn_records r) (rp_unsupported_records r)
    (rp_recovered_bytes r) (rp_truncated_tail r)
    (rh_kind h =? record_kind_raw RecordKind.ShutdownClean) (rh_seq h) (rp_status r).

Definition report_push (r : ReplayReport) (record : DurableRecord) : ReplayReport :=
  mkReport (rp_records r ++ [record]) (rp_corrupt_records r) (rp_torn_records r) (rp_unsupported_records r)
    (rp_recovered_bytes r) (rp_truncated_tail r) (rp_clean_shutdown r) (rp_last_sequence r) (rp_status r).

Definition report_with_status (r : ReplayReport) (s : Status) : ReplayReport :=
  mkReport (rp_records r) (rp_corrupt_records r) (rp_torn_records r) (rp_unsupported_records r)
    (rp_recovered_bytes r) (rp_truncated_tail r) (rp_clean_shutdown r) (rp_last_sequence r) s.

(** One decoded record: stop with a status, or go on with the next expected
    sequence number. *)
Definition accept_record (limits : Limits) (expected : option Z) (rep : ReplayReport) (record : DurableRecord) :
  (ReplayReport * Status) + (ReplayReport * Z) :=
  let sequence := rh_seq (rec_header record) in
  let expected := default sequence expected in
  if negb (sequence =? expected) then
    inl (report_corrupt rep,
         failure (if sequence <? expected then Code.Replay else Code.Corrupt)
           (if sequence <? expected then "journal sequence number regressed"
            else "journal sequence number is not contiguous"))
  else
    let rep := report_sequence rep (rec_header record) in
    if max_journal_records limits <=? zlen (rp_records rep) then
      inl (rep, refuse_exhausted "max_journal_records" (zlen (rp_records rep) + 1) (max_journal_records limits))
    else inr (report_push rep record, add64 expected 1).

(** The streaming loop over the bytes from the file position on; [expected] is
    [None] before the first record. Reads deliver the bytes of the file: fread
    failing part way through it, which the code takes for the end of the file, is
    not modelled. *)
Fixpoint replay_loop (fuel : nat) (limits : Limits) (data : list Z) (expected : option Z) (rep : ReplayReport) :
  option (ReplayReport * Status) :=
  match fuel with
  | O => None
  | S fuel =>
    let header := take (Z.to_nat kRecordHeaderBytes) data in
    let header_read := zlen header in
    if header_read =? 0 then Some (rep, success)
    else if header_read <? kRecordHeaderBytes then
      let probe := decode_record (Some header) header_read limits in
      Some (if bool_decide (dr_disposition probe = DecodeDisposition.TornTail)
            then (report_torn rep header_read, success)
            else (report_corrupt rep,
                  if status_ok (dr_status probe)
                  then failure Code.Corrupt "truncated record header is not a valid prefix"
                  else dr_status probe))
    else
      let probe := decode_record (Some header) kRecordHeaderBytes limits in
      if bool_decide (dr_disposition probe = DecodeDisposition.Corrupt)
         || bool_decide (dr_disposition probe = DecodeDisposition.Unsupported) then
        Some (if bool_decide (dr_disposition probe = DecodeDisposition.Corrupt)
              then report_corrupt rep else report_unsupported rep, dr_status probe)
      else
        let payload_len := rh_payload_len (rec_header (dr_record probe)) in
        let total := kRecordHeaderBytes + payload_len + 4 in
        let body := take (Z.to_nat (payload_len + 4)) (drop (Z.to_nat kRecordHeaderBytes) data) in
        if zlen body <? payload_len + 4 then
          Some (report_torn rep (kRecordHeaderBytes + zlen body), success)
        else
          let decoded := decode_record (Some (header ++ body)) total limits in
          if negb (decode_complete decoded) then
            Some (if bool_decide (dr_disposition decoded = DecodeDisposition.Unsupported)
                  then report_unsupported rep else report_corrupt rep, dr_status decoded)
          else match accept_record limits expected rep (dr_record decoded) with
            | inl stop => Some stop
            | inr (rep, expected) => replay_loop fuel limits (drop (Z.to_nat total) data) (Some expected) rep
            end
  end.

(** Every iteration that goes on consumes a whole record. *)
Definition replay_fuel (data : list Z) : nat := S (length data).

Record ReplayIo := mkReplayIo { io_flushed : bool; io_opened : bool }.

(** [replay]: the status of the result and the report that travels with it. *)
Definition replay (io : ReplayIo) (limits : Limits) (is_open : bool) (disk : Disk) : option (Status * ReplayReport) :=
  match disk_journal disk with
  | None => Some (success, report_empty)
  | Some data =>
      if is_open && negb (io_flushed io) then
        Some (io_failure "journal could not be flushed before replay", report_empty)
      else if negb (io_opened io) then Some (io_failure "journal could not be opened for replay", report_empty)
      else match replay_loop (replay_fuel data) limits data None report_empty with
        | None => None
        | Some (rep, status) => Some (status, report_with_status rep status)
        end
  end.

(** * Opening *)

(** [truncate_torn_tail]; [resized] is the answer of the resize call. *)
Definition truncate_torn_tail (flushed resized : bool) (is_open : bool) (recovered_bytes : Z) (disk : Disk) :
  Status * Disk :=
  match disk_journal disk with
  | None => (io_failure "journal size could not be determined", disk)
  | Some data =>
      let size := zlen data in
      if size <? recovered_bytes then (failure Code.Invalid "torn tail is larger than the journal", disk)
      else if is_open && negb flushed then (io_failure "flush before truncation failed", disk)
      else if negb resized then (io_failure "journal could not be truncated", disk)
      else (success, disk_with_journal disk (Some (take (Z.to_nat (size - recovered_bytes)) data)))
  end.

Record OpenIo := mkOpenIo {
  io_directory : bool;
  io_replay : ReplayIo;
  io_resized : bool;
  io_journal : bool
}.

Definition open_io_ok : OpenIo := mkOpenIo true (mkReplayIo true true) true true.

(** The last step of [open]: fopen with "r+b" or, for a new journal, "w+b". *)
Definition open_file (io : OpenIo) (options : StoreOptions) (next : Z) (rep : ReplayReport) (disk : Disk) :
  Result DurableStore * Disk :=
  if negb (io_journal io) then (Refused (io_failure "journal could not be opened"), disk)
  else (Value (mkStore options true next 0 rep),
        match disk_journal disk with Some _ => disk | None => disk_with_journal disk (Some []) end).

Definition open (resolve : list string -> option (list string)) (io : OpenIo) (options : StoreOptions)
  (disk : Disk) : option (Result DurableStore * Disk) :=
  let limit_status := limits_validate (so_limits options) in
  if negb (status_ok limit_status) then Some (Refused limit_status, disk)
  else match sanitise_path resolve (so_root options) with
  | Refused s => Some (Refused s, disk)
  | Value root =>
    let options := mkOptions root (so_limits options) (so_mode options) (so_durable_writes options) in
    let journal_exists := bool_decide (is_Some (disk_journal disk)) in
    if bool_decide (so_mode options = OpenMode.CreateNew) && journal_exists then
      Some (Refused (failure Code.AlreadyExists "journal already exists"), disk)
    else if bool_decide (so_mode options = OpenMode.OpenExisting) && negb journal_exists then
      Some (Refused (failure Code.NotFound "journal does not exist"), disk)
    else if negb (disk_root disk) && negb (io_directory io) then
      Some (Refused (io_failure "durable root directory could not be created"), disk)
    else
      let disk := mkDisk true (disk_journal disk) (disk_snapshot disk) (disk_journal_staging disk)
                    (disk_snapshot_staging disk) in
      if journal_exists then
        match replay (io_replay io) (so_limits options) false disk with
        | None => None
        | Some (status, rep) =>
          if negb (status_ok status) then
            Some (Refused (failure (status_code (rp_status rep))
                    "journal contains a record that failed its integrity check"), disk)
          else if rp_truncated_tail rep then
            let '(truncated, disk) := truncate_torn_tail true (io_resized io) false (rp_recovered_bytes rep) disk in
            if negb (status_ok truncated) then Some (Refused truncated, disk)
            else Some (open_file io options (add64 (rp_last_sequence rep) 1) rep disk)
          else Some (open_file io options (add64 (rp_last_sequence rep) 1) rep disk)
        end
      else Some (open_file io options 1 report_empty disk)
  end.

(** * Appending *)

(** How a write ended: how many bytes reached the file when the write or the
    flush failed, and whether each was reported successful. *)
Record WriteIo := mkWriteIo { io_reached : nat; io_written : bool; io_durable : bool }.

Definition write_io_ok : WriteIo := mkWriteIo 0 true true.

(** The bytes in the file after writing [bytes] at the end of [old]. *)
Definition append_bytes (io : WriteIo) (old bytes : list Z) : list Z :=
  if io_written io && io_durable io then old ++ bytes else old ++ take (io_reached io) bytes.

Definition store_closed : Status := failure Code.Closed "durable store is closed".

Definition append (io : WriteIo) (kind : Z) (payload : list Z) (flags : Z) (s : DurableStore) (disk : Disk) :
  Status * DurableStore * Disk :=
  let limits := so_limits (ds_options s) in
  if negb (ds_open s) then (store_closed, s, disk)
  else if max_journal_records limits <=? ds_records_written s then
    (refuse_exhausted "max_journal_records" (ds_records_written s + 1) (max_journal_records limits), s, disk)
  else if negb (is_valid_record_kind kind) then
    (failure Code.Invalid "record kind cannot be persisted", s, disk)
  else
    let record := mkRecord (mkHeader kRecordMagic kRecordFormatVersion kind flags (ds_next_sequence s) 0 0) payload in
    match encode_record record limits with
    | Refused st => (st, s, disk)
    | Value encoded =>
      let disk := disk_with_journal disk (Some (append_bytes io (default [] (disk_journal disk)) encoded)) in
      if negb (io_written io) then (io_failure "record could not be written in full", s, disk)
      else if negb (io_durable io) then
        (io_failure (if so_durable_writes (ds_options s) then "record could not be forced to stable storage"
                     else "record could not be flushed"), s, disk)
      else (success,
            mkStore (ds_options s) (ds_open s) (add64 (ds_next_sequence s) 1) (add64 (ds_records_written s) 1)
              (ds_open_report s), disk)
    end.

Definition flush (flushed : bool) (s : DurableStore) : Status :=
  if negb (ds_open s) then store_closed else if negb flushed then io_failure "flush failed" else success.

Definition sync (synced : bool) (s : DurableStore) : Status :=
  if negb (ds_open s) then store_closed else if negb synced then io_failure "sync failed" else success.

Definition close (synced : bool) (s : DurableStore) : Status * DurableStore :=
  if negb (ds_open s) then (success, s)
  else
    let s := mkStore (ds_options s) false (ds_next_sequence s) (ds_records_written s) (ds_open_report s) in
    (if synced then success else io_failure "journal could not be synced while closing", s).

(** * Snapshots *)

Record StageIo := mkStageIo { io_created : bool; io_staged : bool; io_renamed : bool }.

Definition stage_io_ok : StageIo := mkStageIo true true true.

Definition disk_with_snapshot (d : Disk) (snapshot staging : option (list Z)) : Disk :=
  mkDisk (disk_root d) (disk_journal d) snapshot (disk_journal_staging d) staging.

(** The staging file is removed on every failure after it was created. *)
Definition write_snapshot (io : StageIo) (document : list Z) (s : DurableStore) (disk : Disk) : Status * Disk :=
  let limit := max_document_bytes (so_limits (ds_options s)) in
  if negb (ds_open s) then (store_closed, disk)
  else if limit <? zlen document then (refuse_exhausted "max_document_bytes" (zlen document) limit, disk)
  else if negb (io_created io) then (io_failure "snapshot staging file could not be created", disk)
  else if negb (io_staged io) then
    (io_failure "snapshot staging file could not be written in full",
     disk_with_snapshot disk (disk_snapshot disk) None)
  else if negb (io_renamed io) then
    (io_failure "snapshot could not be published atomically", disk_with_snapshot disk (disk_snapshot disk) None)
  else (success, disk_with_snapshot disk (Some (document ++ le_bytes (crc32_ieee document) 4)) None).

Definition has_snapshot (disk : Disk) : bool := bool_decide (is_Some (disk_snapshot disk)).

(** [readable] is whether the snapshot file could be opened and read. *)
Definition read_snapshot (readable : bool) (s : DurableStore) (disk : Disk) : Result (list Z) :=
  match disk_snapshot disk with
  | None => Refused (failure Code.NotFound "snapshot does not exist")
  | Some raw =>
      if negb readable || (max_document_bytes (so_limits (ds_options s)) + 4 <? zlen raw) then
        Refused (failure Code.Corrupt "snapshot could not be read or exceeds the document bound")
      else if zlen raw <? 4 then
        Refused (failure Code.Truncated "snapshot is shorter than its integrity trailer")
      else
        let document_size := zlen raw - 4 in
        let document := take (Z.to_nat document_size) raw in
        if negb (crc32_ieee document =? read_u32_le raw document_size) then
          Refused (failure Code.Corrupt "snapshot integrity check failed")
        else Value document
  end.

(** * Compaction *)

(** The encodings written to the staging file, or [None] when a record is refused. *)
Fixpoint encode_all (limits : Limits) (records : list DurableRecord) : option (list Z) :=
  match records with
  | [] => Some []
  | r :: rest =>
      match encode_record r limits with
      | Refused _ => None
      | Value bytes => option_map (fun more => bytes ++ more) (encode_all limits rest)
      end
  end.

Record CompactIo := mkCompactIo { ci_stage : StageIo; ci_flushed : bool; ci_reopened : bool }.

Definition compact_io_ok : CompactIo := mkCompactIo stage_io_ok true true.

Definition store_with (s : DurableStore) (is_open : bool) (next written : Z) : DurableStore :=
  mkStore (ds_options s) is_open next written (ds_open_report s).

Definition disk_with_staging (d : Disk) (journal staging : option (list Z)) : Disk :=
  mkDisk (disk_root d) journal (disk_snapshot d) staging (disk_snapshot_staging d).

Definition compact (io : CompactIo) (records : list DurableRecord) (s : DurableStore) (disk : Disk) :
  Status * DurableStore * Disk :=
  let limits := so_limits (ds_options s) in
  if negb (ds_open s) then (store_closed, s, disk)
  else if max_journal_records limits <? zlen records then
    (refuse_exhausted "max_journal_records" (zlen records) (max_journal_records limits), s, disk)
  else if negb (io_created (ci_stage io)) then (io_failure "journal staging file could not be created", s, disk)
  else match encode_all limits records with
  | None => (io_failure "journal compaction could not be written in full", s,
             disk_with_staging disk (disk_journal disk) None)
  | Some bytes =>
    if negb (io_staged (ci_stage io)) then
      (io_failure "journal compaction could not be written in full", s,
       disk_with_staging disk (disk_journal disk) None)
    else if negb (ci_flushed io) then
      (io_failure "journal could not be flushed before compaction", s,
       disk_with_staging disk (disk_journal disk) (Some bytes))
    else if negb (io_renamed (ci_stage io)) then
      (io_failure "journal could not be replaced atomically",
       store_with s false (ds_next_sequence s) (ds_records_written s),
       disk_with_staging disk (disk_journal disk) None)
    else
      let disk := disk_with_staging disk (Some bytes) None in
      if negb (ci_reopened io) then
        (io_failure "journal could not be reopened after compaction",
         store_with s false (ds_next_sequence s) (ds_records_written s), disk)
      else
        let next := match last records with
                    | None => 1
                    | Some r => add64 (rh_seq (rec_header r)) 1
                    end in
        (success, store_with s true next (zlen records), disk)
  end.

(** * Facts about replay *)

#[local] Opaque crc32_ieee.

(** A record as it is read back: with the fields the encoder fills in. *)
Definition sealed_record (r : DurableRecord) : DurableRecord := mkRecord (sealed_header r) (rec_payload r).

Lemma decode_record_all data limits : decode_record (Some data) (zlen data) limits = decode_bytes data limits.
Proof. unfold decode_record, zlen. by rewrite Nat2Z.id, firstn_all. Qed.

Lemma take_header h rest : take (Z.to_nat kRecordHeaderBytes) (header_encode h ++ rest) = header_encode h.
Proof. change (Z.to_nat kRecordHeaderBytes) with 28%nat. apply take_app_length'; by rewrite length_header_encode. Qed.

Lemma drop_header h rest : drop (Z.to_nat kRecordHeaderBytes) (header_encode h ++ rest) = rest.
Proof. change (Z.to_nat kRecordHeaderBytes) with 28%nat. apply drop_app_length'; by rewrite length_header_encode. Qed.

(** A valid header alone is a torn tail that reports the header. *)
Lemma probe_header h limits : header_in_range h -> header_validate limits h = success ->
  decode_record (Some (header_encode h)) kRecordHeaderBytes limits =
    mkDecode DecodeDisposition.TornTail (mkRecord h []) kRecordHeaderBytes success.
Proof.
  intros Hr Hv. replace kRecordHeaderBytes with (zlen (header_encode h)) by (unfold zlen; by rewrite length_header_encode).
  rewrite decode_record_all. rewrite <- (app_nil_r (header_encode h)) at 1.
  rewrite decode_bytes_header, app_nil_r by done. unfold decode_body. rewrite (proj2 (Z.ltb_lt _ _)); [done|].
  unfold zlen. rewrite length_header_encode. unfold kRecordHeaderBytes. pose proof (hr_len _ Hr). ints_lia.
Qed.

(** One iteration of the loop on an intact record. *)
Lemma replay_step fuel limits r bs rest expected rep :
  record_in_range r -> encode_record r limits = Value bs ->
  replay_loop (S fuel) limits (bs ++ rest) expected rep =
    match accept_record limits expected rep (sealed_record r) with
    | inl stop => Some stop
    | inr (rep, expected) => replay_loop fuel limits rest (Some expected) rep
    end.
Proof.
  intros Hr He. pose proof (encoded_bytes r limits bs He) as Hb.
  pose proof (encoded_in_range r limits bs Hr He) as Hir. pose proof (encoded_valid r limits bs He) as Hv.
  pose proof (zlen_encoded r limits bs He) as Hl. pose proof (decode_encoded r limits bs Hr He []) as Hd.
  rewrite app_nil_r in Hd. cbn [replay_loop].
  assert (Hs : bs ++ rest = header_encode (sealed_header r) ++ sealed (rec_payload r) ++ rest)
    by (by rewrite Hb, app_assoc).
  rewrite Hs, take_header, drop_header.
  assert (Hz : zlen (header_encode (sealed_header r)) = kRecordHeaderBytes)
    by (unfold zlen; by rewrite length_header_encode).
  rewrite Hz. cbn [Z.eqb kRecordHeaderBytes]. rewrite Z.ltb_irrefl. cbn zeta. rewrite probe_header by done.
  cbn [dr_disposition dr_record rec_header]. rewrite !bool_decide_eq_false_2 by done. cbn [orb].
  change (rh_payload_len (sealed_header r)) with (zlen (rec_payload r)).
  assert (Hbody : take (Z.to_nat (zlen (rec_payload r) + 4)) (sealed (rec_payload r) ++ rest) = sealed (rec_payload r)).
  { apply take_app_length'. unfold sealed. rewrite length_app, length_le_bytes. unfold zlen. lia. }
  assert (Hzb : zlen (sealed (rec_payload r)) = zlen (rec_payload r) + 4)
    by (unfold sealed; by rewrite zlen_app, zlen_le_bytes).
  rewrite Hbody, Hzb, Z.ltb_irrefl, <- Hb, <- Hl, decode_record_all, Hd.
  unfold decode_complete. rewrite bool_decide_eq_true_2 by done. cbn [negb dr_record].
  change (mkRecord (sealed_header r) (rec_payload r)) with (sealed_record r).
  destruct (accept_record _ _ _ _) as [stop|[rep' e]]; [done|]. f_equal.
  rewrite <- Hs. unfold zlen. rewrite Nat2Z.id. apply drop_app_length.
Qed.

(** The report after a run of accepted records. *)
Definition report_accept (rep : ReplayReport) (r : DurableRecord) : ReplayReport :=
  report_push (report_sequence rep (rec_header r)) r.
Definition report_all (rep : ReplayReport) (rs : list DurableRecord) : ReplayReport := foldl report_accept rep rs.

(** Records numbered without gap from the expected number on. *)
Fixpoint numbered (expected : option Z) (rs : list DurableRecord) : Prop :=
  match rs with
  | [] => True
  | r :: rest => (forall e, expected = Some e -> rh_seq (rec_header r) = e) /\
                 numbered (Some (add64 (rh_seq (rec_header r)) 1)) rest
  end.

Definition expected_after (expected : option Z) (rs : list DurableRecord) : option Z :=
  match last rs with None => expected | Some r => Some (add64 (rh_seq (rec_header r)) 1) end.

Lemma accept_record_ok limits expected rep r :
  (forall e, expected = Some e -> rh_seq (rec_header r) = e) -> zlen (rp_records rep) < max_journal_records limits ->
  accept_record limits expected rep r = inr (report_accept rep r, add64 (rh_seq (rec_header r)) 1).
Proof.
  intros He Hl. unfold accept_record.
  assert (Hd : default (rh_seq (rec_header r)) expected = rh_seq (rec_header r)).
  { destruct expected as [e|]; simpl; [symmetry; by apply He|done]. }
  rewrite Hd, Z.eqb_refl. cbn [negb]. rewrite (proj2 (Z.leb_gt _ _)) by done. done.
Qed.

Lemma expected_after_cons expected r rs :
  expected_after expected (r :: rs) = expected_after (Some (add64 (rh_seq (rec_header r)) 1)) rs.
Proof.
  unfold expected_after. destruct rs as [|r' rs]; [done|]. rewrite last_cons_cons.
  destruct (last (r' :: rs)) eqn:E; [done|]. by apply last_None in E.
Qed.

Lemma sealed_seq r : rh_seq (rec_header (sealed_record r)) = rh_seq (rec_header r).
Proof. done. Qed.

(** Replaying the encodings of numbered records reports them all and goes on
    with what follows. *)
Lemma replay_records rs : forall bytes tail expected rep fuel limits,
  Forall record_in_range rs -> encode_all limits rs = Some bytes -> numbered expected rs ->
  zlen (rp_records rep) + zlen rs <= max_journal_records limits ->
  (length (bytes ++ tail) < fuel)%nat ->
  exists fuel', (length tail < fuel')%nat /\
    replay_loop fuel limits (bytes ++ tail) expected rep =
    replay_loop fuel' limits tail (expected_after expected rs) (report_all rep (sealed_record <$> rs)).
Proof.
  induction rs as [|r rs IH]; intros bytes tail expected rep fuel limits Hr He Hn Hl Hf.
  - injection He as <-. by exists fuel.
  - inversion_clear Hr. simpl in He. destruct (encode_record r limits) as [bs|] eqn:Eb; [|done].
    destruct (encode_all limits rs) as [more|] eqn:Em; [|done]. injection He as <-. destruct Hn as [Hn1 Hn2].
    rewrite zlen_cons in Hl. pose proof (zlen_nonneg rs). destruct fuel as [|fuel]; [simpl in Hf; lia|].
    rewrite <- app_assoc in *. rewrite (replay_step _ _ r) by done.
    rewrite accept_record_ok by (rewrite ?sealed_seq; done || lia). rewrite expected_after_cons.
    apply (IH more tail (Some (add64 (rh_seq (rec_header r)) 1))); [done|done|done| |].
    + simpl. rewrite zlen_app, zlen_cons, zlen_nil. lia.
    + rewrite length_app in Hf. rewrite (encoded_bytes r limits bs Eb), length_app, length_header_encode in Hf. lia.
Qed.

(** A file that ends inside a record. *)
Lemma replay_torn fuel limits r bs p expected rep :
  record_in_range r -> encode_record r limits = Value bs -> strict_prefix p bs ->
  replay_loop (S fuel) limits p expected rep =
    Some (if bool_decide (p = []) then rep else report_torn rep (zlen p), success).
Proof.
  intros Hr He Hp. destruct (decode_torn r limits bs Hr He p Hp) as (Hd & _ & _).
  destruct Hp as (q & Hq & Hbs). destruct (decide (p = [])) as [->|E0]; [done|].
  rewrite (bool_decide_eq_false_2 (p = [])) by done. cbn [replay_loop].
  assert (Hpos : 0 < zlen p) by (destruct p; [done|]; rewrite zlen_cons; pose proof (zlen_nonneg p); lia).
  destruct (Z.lt_ge_cases (zlen p) kRecordHeaderBytes) as [Hs|Hs].
  - rewrite take_ge by (unfold zlen, kRecordHeaderBytes in *; lia).
    rewrite (proj2 (Z.eqb_neq _ _)), (proj2 (Z.ltb_lt _ _)) by lia. cbn zeta.
    rewrite decode_record_all, Hd. by rewrite bool_decide_eq_true_2.
  - pose proof (encoded_bytes r limits bs He) as Hb.
    assert (Hsplit : p = header_encode (sealed_header r) ++ drop 28 p).
    { rewrite <- (take_drop 28 p) at 1. f_equal. rewrite Hb in Hbs. apply (f_equal (take 28)) in Hbs.
      rewrite !take_app_le in Hbs by (rewrite ?length_header_encode; unfold zlen, kRecordHeaderBytes in Hs; lia).
      rewrite <- Hbs. apply take_ge. by rewrite length_header_encode. }
    set (p2 := drop 28 p) in *. assert (Hlt : zlen p < zlen bs) by (apply strict_prefix_length; by exists q).
    rewrite (zlen_encoded r limits bs He) in Hlt.
    assert (Hz : zlen (header_encode (sealed_header r)) = kRecordHeaderBytes)
      by (unfold zlen; by rewrite length_header_encode).
    assert (Hzp : zlen p = kRecordHeaderBytes + zlen p2) by (by rewrite Hsplit, zlen_app, Hz).
    rewrite Hsplit, take_header, drop_header, Hz. cbn [Z.eqb kRecordHeaderBytes]. rewrite Z.ltb_irrefl. cbn zeta.
    rewrite probe_header by (by apply (encoded_in_range r limits bs) || by apply (encoded_valid r limits bs)).
    cbn [dr_disposition dr_record rec_header]. rewrite !bool_decide_eq_false_2 by done. cbn [orb].
    change (rh_payload_len (sealed_header r)) with (zlen (rec_payload r)).
    rewrite (take_ge p2) by (unfold zlen in *; lia). rewrite (proj2 (Z.ltb_lt _ _)) by lia.
    by rewrite zlen_app, Hz.
Qed.

Lemma slice_app_l a b o n : 0 <= o -> 0 <= n -> o + n <= zlen a -> slice (a ++ b) o n = slice a o n.
Proof.
  intros Ho Hn Hl. unfold slice, zlen in *. rewrite drop_app_le by lia. apply take_app_le. rewrite length_drop. lia.
Qed.

Lemma decode_header_app a b : kRecordHeaderBytes <= zlen a -> decode_header (a ++ b) = decode_header a.
Proof.
  unfold kRecordHeaderBytes. intros H. unfold decode_header, read_u16_le, read_u32_le, read_u64_le.
  by rewrite !slice_app_l by lia.
Qed.

(** What the probe of a whole header answers. *)
Lemma probe_cases header limits : Forall in_u8 header -> zlen header = kRecordHeaderBytes ->
  dr_disposition (decode_bytes header limits) = DecodeDisposition.Corrupt /\
    status_ok (dr_status (decode_bytes header limits)) = false \/
  dr_disposition (decode_bytes header limits) = DecodeDisposition.Unsupported /\
    status_ok (dr_status (decode_bytes header limits)) = false \/
  decode_bytes header limits =
    mkDecode DecodeDisposition.TornTail (mkRecord (decode_header header) []) kRecordHeaderBytes success.
Proof.
  intros Hb Hl. destruct (header_decoded header Hb ltac:(lia)) as (_ & _ & Hr).
  destruct (magic_matches header) eqn:Hm.
  2: { left. unfold decode_bytes. rewrite Hl, Hm. split; [done|apply (failure_not_ok Code.Corrupt)]. }
  rewrite decode_bytes_long by (done || lia). cbn zeta.
  destruct (status_ok _) eqn:Hs; cbn [negb].
  - right; right. unfold decode_body. rewrite Hl, (proj2 (Z.ltb_lt _ _)); [done|].
    unfold kRecordHeaderBytes. pose proof (hr_len _ Hr). ints_lia.
  - simpl. rewrite Hs. destruct (_ || _); auto.
Qed.

(** A decoded record that is not Complete carries a failure, unless torn. *)
Lemma decode_not_complete data limits : kRecordHeaderBytes + rh_payload_len (decode_header data) + 4 <= zlen data ->
  kRecordHeaderBytes <= zlen data ->
  dr_disposition (decode_bytes data limits) <> DecodeDisposition.Complete ->
  status_ok (dr_status (decode_bytes data limits)) = false.
Proof.
  intros Ht Hl. destruct (magic_matches data) eqn:Hm.
  2: { unfold decode_bytes. unfold kRecordHeaderBytes in Hl. rewrite (proj2 (Z.eqb_neq _ _)) by lia.
       rewrite Hm. intros _. apply failure_not_ok. }
  rewrite decode_bytes_long by done. cbn zeta. destruct (status_ok _) eqn:Hs; cbn [negb]; [|by simpl].
  unfold decode_body. rewrite (proj2 (Z.ltb_ge _ _)) by done.
  destruct (_ =? _); cbn [negb]; [done|]. intros _. apply failure_not_ok.
Qed.

(** What a scan of arbitrary bytes reports: a run of intact, numbered records
    that is exactly the front of the file, and, when it ends well, either
    nothing after them or a torn tail of exactly the remaining bytes. *)
Record scan_result (limits : Limits) (expected : option Z) (rep : ReplayReport) (data : list Z)
  (rep' : ReplayReport) (status : Status) (rs : list DurableRecord) (bytes tail : list Z) : Prop := {
  sr_data : data = bytes ++ tail;
  sr_encoded : encode_all limits rs = Some bytes;
  sr_numbered : numbered expected rs;
  sr_records : rp_records rep' = rp_records rep ++ rs;
  sr_range : Forall (fun r => header_in_range (rec_header r)) rs;
  sr_ok : status_ok status = true ->
    status = success /\
    ((tail = [] /\ rep' = report_all rep rs) \/ (tail <> [] /\ rep' = report_torn (report_all rep rs) (zlen tail)))
}.

(** A scan that stops at once. *)
Lemma scan_stop limits expected rep data rep' status :
  rp_records rep' = rp_records rep ->
  (status_ok status = true -> status = success /\
    ((data = [] /\ rep' = rep) \/ (data <> [] /\ rep' = report_torn rep (zlen data)))) ->
  exists rs bytes tail, scan_result limits expected rep data rep' status rs bytes tail.
Proof. intros Hr Hok. exists [], [], data. split; try done. by rewrite app_nil_r. Qed.

Lemma accept_record_cases limits expected rep r :
  match accept_record limits expected rep r with
  | inl (rep', status) => rp_records rep' = rp_records rep /\ status_ok status = false
  | inr (rep', e) => rep' = report_accept rep r /\ e = add64 (rh_seq (rec_header r)) 1 /\
      (forall e, expected = Some e -> rh_seq (rec_header r) = e)
  end.
Proof.
  unfold accept_record. destruct (_ =? _) eqn:E; cbn [negb].
  2: { simpl. split; [done|apply failure_not_ok]. }
  bool_prop. destruct (_ <=? _).
  - split; [done|apply refuse_exhausted_not_ok].
  - rewrite <- E. split; [done|]. split; [done|]. intros e ->. done.
Qed.

(** The part of an iteration after the header was accepted. *)
Lemma scan_body fuel limits data expected rep :
  (forall data expected rep, Forall in_u8 data -> (length data < fuel)%nat -> exists rep' status,
     replay_loop fuel limits data expected rep = Some (rep', status) /\
     exists rs bytes tail, scan_result limits expected rep data rep' status rs bytes tail) ->
  Forall in_u8 data -> (length data < S fuel)%nat ->
  kRecordHeaderBytes + rh_payload_len (decode_header data) + 4 <= zlen data ->
  0 <= rh_payload_len (decode_header data) ->
  let total := kRecordHeaderBytes + rh_payload_len (decode_header data) + 4 in
  let d := decode_bytes (take (Z.to_nat total) data) limits in
  exists rep' status,
    (if negb (decode_complete d)
     then Some (if bool_decide (dr_disposition d = DecodeDisposition.Unsupported)
                then report_unsupported rep else report_corrupt rep, dr_status d)
     else match accept_record limits expected rep (dr_record d) with
          | inl stop => Some stop
          | inr (rep, expected) => replay_loop fuel limits (drop (Z.to_nat total) data) (Some expected) rep
          end) = Some (rep', status) /\
    exists rs bytes tail, scan_result limits expected rep data rep' status rs bytes tail.
Proof.
  intros IH Hb Hf Hl H0 total d. unfold kRecordHeaderBytes in Hl, total.
  assert (Hbt : Forall in_u8 (take (Z.to_nat total) data)) by (by apply Forall_take).
  assert (Hzt : zlen (take (Z.to_nat total) data) = total).
  { unfold zlen, total in *. rewrite length_take. lia. }
  assert (Hh : decode_header (take (Z.to_nat total) data) = decode_header data).
  { rewrite <- (take_drop (Z.to_nat total) data) at 2. symmetry. apply decode_header_app.
    rewrite Hzt. unfold total, kRecordHeaderBytes. lia. }
  destruct (decode_complete d) eqn:Hd; cbn [negb].
  2: { eexists _, _. split; [done|]. apply scan_stop; [by case_bool_decide|].
       unfold decode_complete in Hd. apply bool_decide_eq_false in Hd. unfold d. rewrite decode_not_complete; [done| | |done].
       - rewrite Hh, Hzt. unfold total, kRecordHeaderBytes. lia.
       - rewrite Hzt. unfold total, kRecordHeaderBytes. lia. }
  unfold decode_complete in Hd. apply bool_decide_eq_true in Hd.
  destruct (decode_bytes_complete _ limits Hbt Hd) as (Henc & _ & _ & Hr & Hhd & Hcons).
  fold d in Henc, Hr, Hhd, Hcons. rewrite Hhd, Hh in Hcons. fold total in Hcons.
  pose proof (accept_record_cases limits expected rep (dr_record d)) as Hacc.
  destruct (accept_record limits expected rep (dr_record d)) as [[rep' status]|[rep' e]].
  { destruct Hacc as [Hr1 Hr2]. eexists _, _. split; [done|]. apply scan_stop; [done|]. by rewrite Hr2. }
  destruct Hacc as (-> & -> & He).
  destruct (IH (drop (Z.to_nat total) data) (Some (add64 (rh_seq (rec_header (dr_record d))) 1))
    (report_accept rep (dr_record d))) as (rep' & status & Hloop & rs & bytes & tail & Hscan).
  { by apply Forall_drop. }
  { rewrite length_drop. clear -Hl H0 Hf. unfold zlen, total in *. lia. }
  exists rep', status. split; [done|]. destruct Hscan as [S1 S2 S3 S4 S5 S6].
  exists (dr_record d :: rs), (take (Z.to_nat total) data ++ bytes), tail. split.
  - by rewrite <- app_assoc, <- S1, take_drop.
  - simpl. rewrite Henc, Hcons, S2, take_take, Nat.min_id. done.
  - done.
  - rewrite S4. simpl. by rewrite <- app_assoc.
  - by constructor.
  - done.
Qed.

Lemma replay_scan fuel : forall limits data expected rep, Forall in_u8 data -> (length data < fuel)%nat ->
  exists rep' status, replay_loop fuel limits data expected rep = Some (rep', status) /\
  exists rs bytes tail, scan_result limits expected rep data rep' status rs bytes tail.
Proof.
  induction fuel as [|fuel IH]; intros limits data expected rep Hb Hf; [lia|]. cbn [replay_loop].
  set (header := take (Z.to_nat kRecordHeaderBytes) data).
  assert (Hbh : Forall in_u8 header) by (by apply Forall_take).
  assert (Hhl : zlen header = Z.min kRecordHeaderBytes (zlen data)).
  { unfold zlen, header, kRecordHeaderBytes. rewrite length_take. lia. }
  destruct (zlen header =? 0) eqn:E0; bool_prop.
  { assert (data = []) as -> by (destruct data; [done|]; rewrite zlen_cons in Hhl; pose proof (zlen_nonneg data);
      unfold kRecordHeaderBytes in Hhl; lia).
    eexists _, _. split; [done|]. apply scan_stop; [done|]. intros _. split; [done|]. by left. }
  destruct (zlen header <? kRecordHeaderBytes) eqn:E1; bool_prop.
  { assert (Hhd : header = data) by (apply take_ge; unfold zlen, kRecordHeaderBytes in *; lia).
    rewrite decode_record_all, Hhd in *. case_bool_decide; eexists _, _; (split; [done|]).
    - apply scan_stop; [done|]. intros _. split; [done|]. right. split; [by intros ->|done].
    - apply scan_stop; [done|]. destruct (status_ok (dr_status _)) eqn:Es; [by rewrite failure_not_ok|by rewrite Es]. }
  cbn zeta. assert (Hh28 : zlen header = kRecordHeaderBytes) by lia.
  assert (Hdh : decode_header data = decode_header header).
  { rewrite <- (take_drop (Z.to_nat kRecordHeaderBytes) data) at 1. apply decode_header_app. fold header. lia. }
  destruct (header_decoded header Hbh ltac:(lia)) as (_ & _ & Hr).
  replace (decode_record (Some header) kRecordHeaderBytes limits) with (decode_bytes header limits)
    by (by rewrite <- Hh28, decode_record_all).
  destruct (probe_cases header limits Hbh Hh28) as [[Hp Hs]|[[Hp Hs]|Hp]].
  1,2: rewrite Hp; cbn [bool_decide orb]; eexists _, _; split; [done|]; apply scan_stop; [done|]; by rewrite Hs.
  rewrite Hp. cbn [dr_disposition dr_record rec_header]. rewrite !(bool_decide_eq_false_2 (_ = _)) by done. cbn [orb].
  pose proof (hr_len _ Hr) as H0. rewrite <- Hdh in H0 |- *. set (n := rh_payload_len (decode_header data)) in *.
  set (body := take (Z.to_nat (n + 4)) (drop (Z.to_nat kRecordHeaderBytes) data)).
  assert (Hzb : zlen body = Z.min (n + 4) (zlen data - kRecordHeaderBytes)).
  { unfold zlen, body, kRecordHeaderBytes in *. rewrite length_take, length_drop. ints. lia. }
  destruct (zlen body <? n + 4) eqn:E2; bool_prop.
  { eexists _, _. split; [done|]. apply scan_stop; [done|]. intros _. split; [done|]. right.
    split; [by intros ->; change (zlen (@nil Z)) with 0 in Hhl; unfold kRecordHeaderBytes in *; lia|]. f_equal. lia. }
  assert (Hjoin : header ++ body = take (Z.to_nat (kRecordHeaderBytes + n + 4)) data).
  { unfold header, body. rewrite take_take_drop. f_equal. unfold kRecordHeaderBytes. ints. lia. }
  assert (Hzj : zlen (header ++ body) = kRecordHeaderBytes + n + 4) by (rewrite zlen_app; lia).
  replace (decode_record (Some (header ++ body)) (kRecordHeaderBytes + n + 4) limits)
    with (decode_bytes (take (Z.to_nat (kRecordHeaderBytes + n + 4)) data) limits)
    by (by rewrite <- Hjoin, <- Hzj, decode_record_all).
  apply scan_body; [intros; by apply IH|done|done|fold n; lia|fold n; ints; lia].
Qed.

(** * Recovery *)

Lemma report_all_fields rs rep :
  rp_records (report_all rep rs) = rp_records rep ++ rs /\
  rp_truncated_tail (report_all rep rs) = rp_truncated_tail rep /\
  rp_last_sequence (report_all rep rs) =
    match last rs with None => rp_last_sequence rep | Some r => rh_seq (rec_header r) end.
Proof.
  revert rep. induction rs as [|r rs IH]; intros rep; [by rewrite app_nil_r|].
  destruct (IH (report_accept rep r)) as (H1 & H2 & H3). simpl. rewrite H1, H2, H3. simpl.
  split; [by rewrite <- app_assoc|]. split; [done|]. destruct rs as [|r' rs]; [done|].
  rewrite last_cons_cons. destruct (last (r' :: rs)) eqn:E; [done|]. by apply last_None in E.
Qed.

(** The options of a store whose directory can be used. *)
Definition usable (resolve : list string -> option (list string)) (options : StoreOptions) : Prop :=
  status_ok (limits_validate (so_limits options)) = true /\
  result_ok (sanitise_path resolve (so_root options)) = true /\
  so_mode options <> OpenMode.CreateNew.

(** The sequence number after a run of records. *)
Definition next_after (rs : list DurableRecord) : Z :=
  match last rs with None => 1 | Some r => add64 (rh_seq (rec_header r)) 1 end.

(** The bytes after the last whole record: nothing, or the beginning of a record. *)
Definition torn_tail (limits : Limits) (tail : list Z) : Prop :=
  tail = [] \/ exists r bs, record_in_range r /\ encode_record r limits = Value bs /\ strict_prefix tail bs.

Lemma replay_journal limits rs bytes tail :
  Forall record_in_range rs -> encode_all limits rs = Some bytes -> numbered None rs ->
  zlen rs <= max_journal_records limits -> torn_tail limits tail ->
  replay_loop (replay_fuel (bytes ++ tail)) limits (bytes ++ tail) None report_empty =
    Some (let rep := report_all report_empty (sealed_record <$> rs) in
          if bool_decide (tail = []) then rep else report_torn rep (zlen tail), success).
Proof.
  intros Hr He Hn Hl Ht.
  destruct (replay_records rs bytes tail None report_empty (replay_fuel (bytes ++ tail)) limits)
    as ([|fuel] & Hf & ->); [done|done|done|done|unfold replay_fuel; lia|lia|]. cbn zeta.
  destruct Ht as [->|(r & bs & Hr' & He' & Hp)]; [done|]. by erewrite replay_torn.
Qed.

Lemma sealed_fields rs : last (sealed_record <$> rs) = sealed_record <$> last rs.
Proof. by rewrite fmap_last. Qed.

(** Opening a journal of numbered records that may end in a torn record. *)
Lemma open_journal resolve options disk rs bytes tail :
  usable resolve options -> disk_journal disk = Some (bytes ++ tail) ->
  Forall record_in_range rs -> encode_all (so_limits options) rs = Some bytes -> numbered None rs ->
  zlen rs <= max_journal_records (so_limits options) -> torn_tail (so_limits options) tail ->
  exists s disk', open resolve open_io_ok options disk = Some (Value s, disk') /\
    rp_records (ds_open_report s) = sealed_record <$> rs /\ ds_open s = true /\
    so_limits (ds_options s) = so_limits options /\
    ds_next_sequence s = next_after rs /\ disk_journal disk' = Some bytes.
Proof.
  intros (Hlim & Hroot & Hmode) Hj Hr He Hn Hl Ht. unfold open. rewrite Hlim. cbn [negb].
  destruct (sanitise_path resolve (so_root options)) as [root|st] eqn:Es.
  2: { unfold sanitise_path in Es. simpl in Hroot. exfalso. revert Es Hroot.
       destruct (bool_decide _); [intros [= <-]; by rewrite failure_not_ok|].
       destruct (existsb _ _); [intros [= <-]; by rewrite failure_not_ok|].
       destruct (resolve _); [done|intros [= <-]; by rewrite failure_not_ok]. }
  rewrite Hj. cbn [so_mode so_limits]. rewrite (bool_decide_eq_false_2 (so_mode options = OpenMode.CreateNew)) by done.
  rewrite (bool_decide_eq_true_2 (is_Some _)) by eauto. cbn [andb negb]. rewrite !andb_false_r. cbn zeta.
  unfold replay. cbn [disk_journal]. cbn [io_replay open_io_ok io_opened andb negb].
  rewrite (replay_journal _ rs) by done. cbn zeta.
  destruct (report_all_fields (sealed_record <$> rs) report_empty) as (F1 & F2 & F3).
  rewrite sealed_fields in F3. set (rep := report_all report_empty (sealed_record <$> rs)) in *.
  assert (Hnext : add64 (rp_last_sequence rep) 1 = next_after rs).
  { rewrite F3. unfold next_after. by destruct (last rs). }
  rewrite success_ok. cbn [negb]. case_bool_decide as E.
  - subst tail. rewrite app_nil_r in *. cbn [report_with_status rp_truncated_tail]. rewrite F2. cbn [rp_truncated_tail report_empty].
    eexists _, _. split; [done|]. simpl. rewrite F1. by rewrite Hnext.
  - cbn [report_with_status rp_truncated_tail report_torn rp_recovered_bytes].
    unfold truncate_torn_tail. cbn [disk_journal]. pose proof (zlen_nonneg bytes). pose proof (zlen_app bytes tail).
    rewrite (proj2 (Z.ltb_ge _ _)) by lia. cbn [andb negb io_resized open_io_ok]. rewrite success_ok. cbn [negb].
    eexists _, _. split; [done|]. simpl. rewrite F1. split; [done|]. split; [done|]. split; [done|]. split; [done|].
    f_equal. rewrite H0, Z.add_simpl_r. unfold zlen. rewrite Nat2Z.id. apply take_app_length.
Qed.

(** ** The invariant of an open store *)

Record journal_inv (s : DurableStore) (disk : Disk) (rs : list DurableRecord) : Prop := {
  ji_open : ds_open s = true;
  ji_journal : exists bytes, disk_journal disk = Some bytes /\ encode_all (so_limits (ds_options s)) rs = Some bytes;
  ji_numbered : numbered None rs;
  ji_range : Forall record_in_range rs;
  ji_next : ds_next_sequence s = next_after rs
}.

Lemma numbered_snoc rs r e : numbered e rs ->
  (forall x, expected_after e rs = Some x -> rh_seq (rec_header r) = x) -> numbered e (rs ++ [r]).
Proof.
  revert e. induction rs as [|r' rs IH]; intros e Hn Hx; [done|]. destruct Hn as [H1 H2]. split; [done|].
  apply IH; [done|]. intros x Hx'. apply Hx. by rewrite expected_after_cons.
Qed.

Lemma encode_all_snoc limits rs bytes r bs :
  encode_all limits rs = Some bytes -> encode_record r limits = Value bs ->
  encode_all limits (rs ++ [r]) = Some (bytes ++ bs).
Proof.
  intros He Hr. revert bytes He. induction rs as [|r' rs IH]; intros bytes He; simpl in *.
  - injection He as <-. rewrite Hr. simpl. by rewrite app_nil_r.
  - destruct (encode_record r' limits); [|done]. destruct (encode_all limits rs) as [more|]; [|done].
    injection He as <-. rewrite (IH more) by done. simpl. by rewrite app_assoc.
Qed.

Lemma next_after_u64 rs : in_u64 (next_after rs).
Proof. unfold next_after. destruct (last rs); [apply wrap64_range|ints_lia]. Qed.

(** The record an append writes. *)
Definition new_record (s : DurableStore) (kind flags : Z) (payload : list Z) : DurableRecord :=
  mkRecord (mkHeader kRecordMagic kRecordFormatVersion kind flags (ds_next_sequence s) 0 0) payload.

Lemma new_record_numbered s disk rs kind flags payload : journal_inv s disk rs ->
  numbered None (rs ++ [new_record s kind flags payload]).
Proof.
  intros Hi. apply numbered_snoc; [apply Hi|]. intros x. unfold expected_after. simpl. rewrite (ji_next _ _ _ Hi).
  unfold next_after. by destruct (last rs); intros [= <-].
Qed.

Lemma new_record_in_range s disk rs kind flags payload : journal_inv s disk rs ->
  in_u32 flags -> Forall in_u8 payload -> record_in_range (new_record s kind flags payload).
Proof.
  intros Hi Hf Hp. split; [done| |done]. simpl. rewrite (ji_next _ _ _ Hi). apply next_after_u64.
Qed.

(** What an append leaves on disk: the old journal, or the old journal followed
    by a part of the new record, all of it when the append is acknowledged. *)
Lemma append_outcome io kind payload flags s disk rs status s' disk' :
  journal_inv s disk rs -> in_u32 flags -> Forall in_u8 payload ->
  append io kind payload flags s disk = (status, s', disk') ->
  exists bytes, encode_all (so_limits (ds_options s)) rs = Some bytes /\
  ((disk' = disk /\ s' = s /\ status_ok status = false) \/
   exists bs k, encode_record (new_record s kind flags payload) (so_limits (ds_options s)) = Value bs /\
     disk_journal disk' = Some (bytes ++ take k bs) /\
     (status_ok status = true -> k = length bs /\ ds_options s' = ds_options s /\ ds_open s' = true /\
        ds_next_sequence s' = add64 (ds_next_sequence s) 1)).
Proof.
  intros Hi Hf Hp. destruct (ji_journal _ _ _ Hi) as (bytes & Hj & He). unfold append. rewrite (ji_open _ _ _ Hi).
  cbn [negb]. intros Ha. exists bytes. split; [done|]. revert Ha.
  destruct (_ <=? _); [intros [= <- <- <-]; left; split; [done|]; split; [done|apply refuse_exhausted_not_ok]|].
  destruct (negb (is_valid_record_kind kind)); [intros [= <- <- <-]; left; split; [done|]; split; [done|apply failure_not_ok]|].
  change (mkRecord _ payload) with (new_record s kind flags payload).
  destruct (encode_record _ _) as [bs|st] eqn:Eb.
  2: { intros [= <- <- <-]. left. split; [done|]. split; [done|]. unfold encode_record in Eb. revert Eb.
       destruct (_ <? _); [intros [= <-]; apply refuse_exhausted_not_ok|].
       destruct (status_ok _) eqn:Es; [done|]. by intros [= <-]. }
  rewrite Hj. cbn [default]. unfold append_bytes. intros Ha. right. exists bs.
  destruct (io_written io) eqn:Ew; cbn [negb andb] in Ha.
  2: { injection Ha as <- <- <-. exists (io_reached io). split; [done|]. split; [done|].
       intros Hok. by rewrite (failure_not_ok Code.IoError) in Hok. }
  destruct (io_durable io) eqn:Ed; cbn [negb] in Ha.
  2: { injection Ha as <- <- <-. exists (io_reached io). split; [done|]. split; [done|].
       intros Hok. by rewrite (failure_not_ok Code.IoError) in Hok. }
  injection Ha as <- <- <-. exists (length bs). split; [done|]. split; [by rewrite firstn_all|]. intros _.
  split; [done|]. split; [done|]. done.
Qed.

(** Reopening after any of these outcomes. *)
Lemma reopen_recovers resolve options s disk rs bytes tail :
  usable resolve options -> so_limits options = so_limits (ds_options s) ->
  Forall record_in_range rs -> encode_all (so_limits (ds_options s)) rs = Some bytes -> numbered None rs ->
  zlen rs <= max_journal_records (so_limits options) -> torn_tail (so_limits options) tail ->
  disk_journal disk = Some (bytes ++ tail) ->
  exists s2 disk2, open resolve open_io_ok options disk = Some (Value s2, disk2) /\
    rp_records (ds_open_report s2) = sealed_record <$> rs /\ journal_inv s2 disk2 rs.
Proof.
  intros Hu Hl Hr He Hn Hz Ht Hj. rewrite <- Hl in He.
  destruct (open_journal resolve options disk rs bytes tail) as (s2 & disk2 & Ho & Hrec & Hopen & Hlim & Hnext & Hd);
    [done..|]. exists s2, disk2. split; [done|]. split; [done|]. split; [done| |done|done|done].
  exists bytes. by rewrite Hlim.
Qed.

(** An acknowledged append extends the journal by its record. *)
Lemma append_acknowledged io kind payload flags s disk rs status s' disk' :
  journal_inv s disk rs -> in_u32 flags -> Forall in_u8 payload ->
  append io kind payload flags s disk = (status, s', disk') -> status_ok status = true ->
  journal_inv s' disk' (rs ++ [new_record s kind flags payload]) /\ ds_options s' = ds_options s.
Proof.
  intros Hi Hf Hp Ha Hst.
  destruct (append_outcome _ _ _ _ _ _ _ _ _ _ Hi Hf Hp Ha) as (bytes & He & [(-> & -> & Hs)|(bs & k & Hb & Hd & Hok)]).
  { congruence. }
  destruct (Hok Hst) as (-> & Ho & Hopen & Hnext). rewrite firstn_all in Hd. split; [|done]. split; [done| | | |].
  - exists (bytes ++ bs). split; [done|]. rewrite Ho. by apply encode_all_snoc.
  - by eapply new_record_numbered.
  - apply Forall_app. split; [apply Hi|]. apply Forall_singleton. by eapply new_record_in_range.
  - rewrite Hnext. unfold next_after. by rewrite last_snoc.
Qed.

(** ** What a successful opening has read *)

(** The loop only ever adds records to its report. *)
Lemma replay_extends fuel limits data expected rep rep' status :
  replay_loop fuel limits data expected rep = Some (rep', status) ->
  exists more, rp_records rep' = rp_records rep ++ more.
Proof.
  revert data expected rep. induction fuel as [|fuel IH]; intros data expected rep; [done|]. cbn [replay_loop].
  assert (Hsame : forall r : ReplayReport, rp_records r = rp_records rep ->
    exists more, rp_records r = rp_records rep ++ more) by (intros r ->; exists []; by rewrite app_nil_r).
  split_test; [intros [= <- <-]; by apply Hsame|].
  split_test; [case_bool_decide; intros [= <- <-]; by apply Hsame|]. cbn zeta.
  split_test; [case_bool_decide; intros [= <- <-]; by apply Hsame|].
  split_test; [intros [= <- <-]; by apply Hsame|].
  split_test; [intros [= <- <-]; apply Hsame; by case_match|].
  match goal with |- context [accept_record limits expected rep ?r] =>
    pose proof (accept_record_cases limits expected rep r) as Hc;
    destruct (accept_record limits expected rep r) as [[rep1 status1]|[rep1 e]] end.
  - intros [= <- <-]. apply Hsame, Hc.
  - intros (more & Hmore)%IH. destruct Hc as [-> _]. eexists (_ :: more).
    rewrite Hmore. simpl. by rewrite <- app_assoc.
Qed.

(** A replay that succeeds on a file that starts with whole records reports
    them first. *)
Lemma replay_prefix rs : forall bytes tail expected rep fuel limits rep' status,
  Forall record_in_range rs -> encode_all limits rs = Some bytes ->
  replay_loop fuel limits (bytes ++ tail) expected rep = Some (rep', status) -> status_ok status = true ->
  exists more, rp_records rep' = rp_records rep ++ (sealed_record <$> rs) ++ more.
Proof.
  induction rs as [|r rs IH]; intros bytes tail expected rep fuel limits rep' status Hr He Hloop Hok.
  - by eapply replay_extends.
  - inversion_clear Hr. simpl in He. destruct (encode_record r limits) as [bs|] eqn:Eb; [|done].
    destruct (encode_all limits rs) as [bytes'|] eqn:Em; [|done]. injection He as <-.
    destruct fuel as [|fuel]; [done|]. rewrite <- app_assoc, (replay_step _ _ r) in Hloop by done.
    pose proof (accept_record_cases limits expected rep (sealed_record r)) as Hc.
    destruct (accept_record _ _ _ _) as [[rep1 status1]|[rep1 e]].
    { injection Hloop as -> ->. destruct Hc. congruence. }
    destruct Hc as [-> _]. destruct (IH _ _ _ _ _ _ _ _ H0 Em Hloop Hok) as [more ->]. exists more.
    simpl. by rewrite <- app_assoc.
Qed.

(** Whatever the operating system answers, a store that could be opened on a
    journal that starts with whole records has recovered them. *)
Lemma open_recovers resolve io options disk rs bytes tail s disk' :
  Forall record_in_range rs -> encode_all (so_limits options) rs = Some bytes ->
  disk_journal disk = Some (bytes ++ tail) -> open resolve io options disk = Some (Value s, disk') ->
  exists more, rp_records (ds_open_report s) = (sealed_record <$> rs) ++ more.
Proof.
  intros Hr He Hj. unfold open. split_test; [done|]. destruct (sanitise_path _ _) as [root|]; [|done].
  cbn [so_mode so_limits]. do 3 (split_test; [done|]). cbn zeta. rewrite Hj.
  rewrite (bool_decide_eq_true_2 (is_Some _)) by eauto. unfold replay. cbn [disk_journal].
  cbn [andb]. destruct (negb (io_opened _)); [by rewrite (failure_not_ok Code.IoError)|].
  destruct (replay_loop _ _ _ _ _) as [[rep status]|] eqn:E; [|done]. destruct (status_ok status) eqn:Es; [|done].
  destruct (replay_prefix _ _ _ _ _ _ _ _ _ Hr He E Es) as [more Hmore]. cbn [negb].
  assert (Hfile : forall next d, open_file io (mkOptions root (so_limits options) (so_mode options)
    (so_durable_writes options)) next (report_with_status rep status) d = (Value s, disk') ->
    exists more, rp_records (ds_open_report s) = (sealed_record <$> rs) ++ more).
  { intros next d. unfold open_file. split_test; [done|]. intros [= <- _]. by exists more. }
  split_test.
  - destruct (truncate_torn_tail _ _ _ _ _) as [st d]. split_test; [done|]. intros [= H]. by eapply Hfile.
  - intros [= H]. by eapply Hfile.
Qed.

(** A replay that succeeds on a file of whole records reports exactly them. *)
Lemma replay_whole rs : forall bytes expected rep fuel limits rep' status,
  Forall record_in_range rs -> encode_all limits rs = Some bytes ->
  replay_loop fuel limits bytes expected rep = Some (rep', status) -> status_ok status = true ->
  rep' = report_all rep (sealed_record <$> rs).
Proof.
  induction rs as [|r rs IH]; intros bytes expected rep fuel limits rep' status Hr He Hloop Hok.
  - injection He as <-. destruct fuel; [done|]. by injection Hloop as <- _.
  - inversion_clear Hr. simpl in He. destruct (encode_record r limits) as [bs|] eqn:Eb; [|done].
    destruct (encode_all limits rs) as [bytes'|] eqn:Em; [|done]. injection He as <-.
    destruct fuel as [|fuel]; [done|]. rewrite (replay_step _ _ r) in Hloop by done.
    pose proof (accept_record_cases limits expected rep (sealed_record r)) as Hc.
    destruct (accept_record _ _ _ _) as [[rep1 status1]|[rep1 e]].
    { injection Hloop as -> ->. destruct Hc. congruence. }
    destruct Hc as [-> _]. by rewrite (IH _ _ _ _ _ _ _ H0 Em Hloop Hok).
Qed.

(** The journal of a disk: absent, or the encoding of numbered records. *)
Record disk_holds (limits : Limits) (disk : Disk) (rs : list DurableRecord) : Prop := {
  dh_bytes : match disk_journal disk with None => rs = [] | Some bytes => encode_all limits rs = Some bytes end;
  dh_numbered : numbered None rs;
  dh_range : Forall record_in_range rs
}.

(** Opening it recovers exactly those records, and the store goes on from there. *)
Lemma open_whole resolve io options disk rs s disk' :
  disk_holds (so_limits options) disk rs -> open resolve io options disk = Some (Value s, disk') ->
  rp_records (ds_open_report s) = sealed_record <$> rs /\ journal_inv s disk' rs /\
  so_limits (ds_options s) = so_limits options.
Proof.
  intros [Hb Hn Hr]. unfold open. split_test; [done|]. destruct (sanitise_path _ _) as [root|]; [|done].
  cbn [so_mode so_limits]. do 3 (split_test; [done|]). cbn zeta.
  set (options' := mkOptions root (so_limits options) (so_mode options) (so_durable_writes options)).
  destruct (disk_journal disk) as [bytes|] eqn:Ej.
  - rewrite (bool_decide_eq_true_2 (is_Some _)) by eauto. unfold replay. cbn [disk_journal andb].
    destruct (negb (io_opened _)); [by rewrite (failure_not_ok Code.IoError)|].
    destruct (replay_loop _ _ _ _ _) as [[rep status]|] eqn:E; [|done]. destruct (status_ok status) eqn:Es; [|done].
    pose proof (replay_whole _ _ _ _ _ _ _ _ Hr Hb E Es) as ->. cbn [negb].
    destruct (report_all_fields (sealed_record <$> rs) report_empty) as (F1 & F2 & F3). rewrite sealed_fields in F3.
    cbn [report_with_status rp_truncated_tail]. rewrite F2. cbn [rp_truncated_tail report_empty]. intros [= H].
    unfold open_file in H. split_test; [done|]. injection H as <- <-. cbn [ds_open_report report_with_status rp_records].
    split; [by rewrite F1|]. split; [|done]. split; [done|by exists bytes|done|done|].
    cbn [ds_next_sequence report_with_status rp_last_sequence]. rewrite F3. unfold next_after. by destruct (last rs).
  - subst rs. rewrite bool_decide_eq_false_2 by (intros [? ?]; done). intros [= H]. unfold open_file in H.
    split_test; [done|]. injection H as <- <-. split; [done|]. split; [|done]. split; [done|by exists []|done|done|done].
Qed.

(** ** Damage *)

(** The first damaged record stops the scan with a failure. *)
Lemma replay_damaged fuel limits r bs b more expected rep :
  record_in_range r -> encode_record r limits = Value bs -> burst bs b -> Forall in_u8 (b ++ more) ->
  exists rep' status, replay_loop (S fuel) limits (b ++ more) expected rep = Some (rep', status) /\
    status_ok status = false.
Proof.
  intros Hr He Hburst Hbytes. rewrite (encoded_bytes r limits bs He) in Hburst.
  destruct (burst_split _ _ _ Hburst) as (hb & pb & -> & Hhl & Hpl & Hcase).
  rewrite length_header_encode in Hhl. rewrite <- app_assoc in *. cbn [replay_loop].
  apply Forall_app in Hbytes as [Hbh [Hbp Hbm]%Forall_app].
  assert (Hzh : zlen hb = kRecordHeaderBytes) by (unfold zlen; by rewrite Hhl).
  assert (Ht : take (Z.to_nat kRecordHeaderBytes) (hb ++ pb ++ more) = hb)
    by (apply take_app_length'; by rewrite Hhl).
  rewrite Ht, Hzh. cbn [Z.eqb kRecordHeaderBytes]. rewrite Z.ltb_irrefl. cbn zeta.
  destruct Hcase as [Hc|[-> Hc]].
  - replace (decode_record (Some hb) kRecordHeaderBytes limits) with (decode_bytes hb limits)
      by (by rewrite <- Hzh, decode_record_all).
    pose proof (damaged_header (sealed_header r) hb [] limits eq_refl Hc) as Hd. rewrite app_nil_r in Hd.
    specialize (Hd Hbh Hhl).
    destruct (probe_cases hb limits Hbh Hzh) as [[Hp Hs]|[[Hp Hs]|Hp]].
    1,2: rewrite Hp; cbn [bool_decide orb]; eexists _, _; by split.
    exfalso. unfold refused_as_damaged in Hd. rewrite Hp in Hd. by destruct Hd.
  - pose proof (encoded_in_range r limits bs Hr He) as Hir. pose proof (encoded_valid r limits bs He) as Hv.
    rewrite probe_header by done. cbn [dr_disposition dr_record rec_header].
    rewrite !(bool_decide_eq_false_2 (DecodeDisposition.TornTail = _)) by done. cbn [orb]. rewrite drop_header.
    change (rh_payload_len (sealed_header r)) with (zlen (rec_payload r)).
    assert (Hlp : length pb = (length (rec_payload r) + 4)%nat)
      by (rewrite Hpl; unfold sealed; by rewrite length_app, length_le_bytes).
    assert (Hbody : take (Z.to_nat (zlen (rec_payload r) + 4)) (pb ++ more) = pb)
      by (apply take_app_length'; unfold zlen; lia).
    rewrite Hbody. rewrite (proj2 (Z.ltb_ge _ _)) by (unfold zlen; lia).
    assert (Hz : zlen (header_encode (sealed_header r) ++ pb) = kRecordHeaderBytes + zlen (rec_payload r) + 4)
      by (rewrite zlen_app; unfold zlen at 1; rewrite length_header_encode; unfold zlen, kRecordHeaderBytes; lia).
    replace (decode_record (Some (header_encode (sealed_header r) ++ pb)) _ limits)
      with (decode_bytes (header_encode (sealed_header r) ++ pb) limits) by (by rewrite <- Hz, decode_record_all).
    pose proof (damaged_payload (sealed_header r) (rec_payload r) pb [] limits Hir Hv eq_refl (rr_payload _ Hr) Hbp Hc Hlp) as Hd.
    rewrite app_nil_r in Hd.
    assert (Hnc : dr_disposition (decode_bytes (header_encode (sealed_header r) ++ pb) limits) <> DecodeDisposition.Complete)
      by (destruct Hd as [-> | ->]; done).
    unfold decode_complete. rewrite bool_decide_eq_false_2 by done. cbn [negb]. eexists _, _. split; [done|].
    apply decode_not_complete; [|unfold kRecordHeaderBytes in *; pose proof (zlen_nonneg (rec_payload r)); lia|done].
    rewrite decode_header_encode by done. rewrite Hz. change (rh_payload_len (sealed_header r)) with (zlen (rec_payload r)). lia.
Qed.

Lemma replay_damaged_journal rs : forall limits bytes bytes' expected rep fuel,
  Forall record_in_range rs -> encode_all limits rs = Some bytes -> burst bytes bytes' ->
  Forall in_u8 bytes' -> (length bytes' < fuel)%nat ->
  exists rep' status, replay_loop fuel limits bytes' expected rep = Some (rep', status) /\ status_ok status = false.
Proof.
  induction rs as [|r rs IH]; intros limits bytes bytes' expected rep fuel Hr He Hb Hbytes Hf.
  - injection He as <-. destruct Hb as (pre & x & y & post & H1 & _ & Hl & _ & Hne). exfalso.
    symmetry in H1. apply app_nil in H1 as [_ [-> _]%app_nil]. apply Hne. symmetry. by apply length_zero_iff_nil.
  - inversion_clear Hr. simpl in He. destruct (encode_record r limits) as [bs|] eqn:Eb; [|done].
    destruct (encode_all limits rs) as [more|] eqn:Em; [|done]. injection He as <-.
    destruct fuel as [|fuel]; [lia|].
    destruct (burst_split _ _ _ Hb) as (b1 & b2 & -> & H1 & H2 & [Hc|[-> Hc]]).
    + by apply (replay_damaged fuel limits r bs).
    + rewrite (replay_step _ _ r) by done. apply Forall_app in Hbytes as [_ Hb2].
      pose proof (accept_record_cases limits expected rep (sealed_record r)) as Hacc.
      destruct (accept_record _ _ _ _) as [[rep' status]|[rep' e]].
      * destruct Hacc as [_ Hs]. eauto.
      * apply (IH limits more b2); [done|done|done|done|].
        rewrite length_app, (encoded_bytes r limits bs Eb), length_app, length_header_encode in Hf. lia.
Qed.

Lemma sanitise_refused resolve path st : sanitise_path resolve path = Refused st -> status_ok st = false.
Proof.
  unfold sanitise_path. destruct (bool_decide _); [intros [= <-]; apply failure_not_ok|].
  destruct (existsb _ _); [intros [= <-]; apply failure_not_ok|].
  destruct (resolve _); [done|intros [= <-]; apply failure_not_ok].
Qed.

(** ** Staged replacement *)

Lemma io_failure_not_ok what : status_ok (io_failure what) = false.
Proof. apply failure_not_ok. Qed.

Lemma store_closed_not_ok : status_ok store_closed = false.
Proof. apply failure_not_ok. Qed.

#[export] Hint Rewrite io_failure_not_ok store_closed_not_ok : status.

Lemma read_snapshot_written s disk document :
  zlen document <= max_document_bytes (so_limits (ds_options s)) ->
  disk_snapshot disk = Some (sealed document) -> read_snapshot true s disk = Value document.
Proof.
  intros Hl Hs. unfold read_snapshot. rewrite Hs. cbn [negb orb].
  assert (Hz : zlen (sealed document) = zlen document + 4) by (unfold sealed; by rewrite zlen_app, zlen_le_bytes).
  pose proof (zlen_nonneg document). rewrite Hz, (proj2 (Z.ltb_ge _ _)), (proj2 (Z.ltb_ge _ _)) by lia.
  rewrite Z.add_simpl_r, to_nat_zlen. unfold sealed. rewrite take_app_length. unfold read_u32_le.
  pose proof (slice_app document (le_bytes (crc32_ieee document) 4) []) as Hsl.
  rewrite app_nil_r, zlen_le_bytes in Hsl. change (Z.of_nat 4) with 4 in Hsl. rewrite Hsl.
  assert (Hc : load_le (le_bytes (crc32_ieee document) 4) = crc32_ieee document)
    by (apply load_store_le; [lia|apply (crc32_u32 document)]).
  by rewrite Hc, Z.eqb_refl.
Qed.

Lemma read_snapshot_damaged s disk document raw :
  Forall in_u8 document -> disk_snapshot disk = Some raw -> Forall in_u8 raw -> burst (sealed document) raw ->
  result_ok (read_snapshot true s disk) = false.
Proof.
  intros Hd Hs Hr Hb. unfold read_snapshot. rewrite Hs. destruct (_ || _); [apply failure_not_ok|].
  destruct (zlen raw <? 4) eqn:E4; [apply failure_not_ok|]. bool_prop.
  set (y := take (Z.to_nat (zlen raw - 4)) raw). set (c := drop (Z.to_nat (zlen raw - 4)) raw).
  assert (Hlc : length c = 4%nat) by (unfold c, zlen in *; rewrite length_drop; lia).
  assert (Hread : read_u32_le raw (zlen raw - 4) = le_value c).
  { unfold read_u32_le, slice. fold c. change (Z.to_nat 4) with 4%nat. rewrite take_ge by lia.
    apply load_le_value; [by apply Forall_drop|unfold zlen; lia]. }
  rewrite Hread, (proj2 (Z.eqb_neq _ _)); [apply failure_not_ok|]. apply not_eq_sym.
  apply (sealed_burst document); [done|by apply Forall_take|by apply Forall_drop|done|]. unfold y, c. by rewrite take_drop.
Qed.

Lemma write_snapshot_spec io document s disk : Forall in_u8 document ->
  let '(st, disk') := write_snapshot io document s disk in
  (if status_ok st then
     read_snapshot true s disk' = Value document /\
     forall raw raw', disk_snapshot disk' = Some raw -> burst raw raw' -> Forall in_u8 raw' ->
       result_ok (read_snapshot true s (disk_with_snapshot disk' (Some raw') None)) = false
   else disk_snapshot disk' = disk_snapshot disk) /\
  disk_journal disk' = disk_journal disk.
Proof.
  intros Hdoc. unfold write_snapshot. destruct (negb (ds_open s)); [by autorewrite with status|].
  destruct (_ <? _) eqn:El; [by autorewrite with status|].
  destruct (negb (io_created io)); [by autorewrite with status|].
  destruct (negb (io_staged io)); [by autorewrite with status|].
  destruct (negb (io_renamed io)); [by autorewrite with status|]. bool_prop.
  rewrite success_ok. fold (sealed document). split; [|done]. split; [by apply read_snapshot_written|].
  intros raw raw' [= <-] Hb Hr. by apply (read_snapshot_damaged s _ document raw').
Qed.

(** A refused compaction: what is on disk is kept or replaced as a whole. *)
Ltac refused := autorewrite with status; split; [done|]; split; [eauto|done].

Lemma compact_spec io records s disk :
  let '(st, s', disk') := compact io records s disk in
  disk_snapshot disk' = disk_snapshot disk /\
  (disk_journal disk' = disk_journal disk \/
   exists bytes, encode_all (so_limits (ds_options s)) records = Some bytes /\ disk_journal disk' = Some bytes) /\
  (status_ok st = true -> numbered None records -> Forall record_in_range records -> journal_inv s' disk' records).
Proof.
  unfold compact. cbn zeta. destruct (negb (ds_open s)); [refused|].
  destruct (max_journal_records _ <? _); [refused|].
  destruct (negb (io_created _)); [refused|].
  destruct (encode_all _ records) as [bytes|] eqn:Ee; [|refused].
  destruct (negb (io_staged _)); [refused|].
  destruct (negb (ci_flushed _)); [refused|].
  destruct (negb (io_renamed _)); [refused|].
  destruct (negb (ci_reopened _)); [refused|].
  split; [done|]. split; [eauto|]. intros _ Hn Hr. split; [done|by exists bytes|done|done|done].
Qed.

(** ** Properties *)

(** C27. Appending is crash safe. On a store whose journal holds exactly the
    records [rs] it counts ([journal_inv]: in particular no earlier append failed
    half-way) and has room for one more under max_journal_records, whatever the
    operating system does with an append (any part of the record reaches the
    file, the write or the sync fails, the process dies), reopening the store
    with working I/O succeeds and recovers exactly the records that were there
    before, possibly followed by the new one, with a torn tail cut off and the
    sequence continued; if the append was acknowledged, it is recovered, and the
    running store satisfies [journal_inv] again. *)
Theorem crash_safe_append resolve options io kind payload flags s disk rs status s' disk' :
  usable resolve options -> so_limits options = so_limits (ds_options s) ->
  journal_inv s disk rs -> in_u32 flags -> Forall in_u8 payload ->
  zlen rs < max_journal_records (so_limits options) ->
  append io kind payload flags s disk = (status, s', disk') ->
  exists rs' s2 disk2,
    open resolve open_io_ok options disk' = Some (Value s2, disk2) /\
    rp_records (ds_open_report s2) = sealed_record <$> rs' /\ journal_inv s2 disk2 rs' /\
    (rs' = rs \/ rs' = rs ++ [new_record s kind flags payload]) /\
    (status_ok status = true ->
       rs' = rs ++ [new_record s kind flags payload] /\ journal_inv s' disk' rs').
Proof.
  intros Hu Hl Hi Hf Hp Hz Ha.
  destruct (append_outcome _ _ _ _ _ _ _ _ _ _ Hi Hf Hp Ha) as (bytes & He & [(-> & -> & Hs)|(bs & k & Hb & Hd & Hok)]).
  - destruct (ji_journal _ _ _ Hi) as (bytes' & Hj & He'). rewrite He in He'. injection He' as <-.
    destruct (reopen_recovers resolve options s disk rs bytes []) as (s2 & disk2 & H1 & H2 & H3);
      [done|done|apply Hi|done|apply Hi|lia|by left|by rewrite app_nil_r|].
    exists rs, s2, disk2. split; [done|]. split; [done|]. split; [done|]. split; [by left|congruence].
  - pose proof (new_record_in_range s disk rs kind flags payload Hi Hf Hp) as Hr.
    destruct (decide (length bs <= k)%nat) as [Hk|Hk].
    + rewrite take_ge in Hd by done. pose proof (encode_all_snoc _ _ _ _ _ He Hb) as He'.
      assert (Hall : Forall record_in_range (rs ++ [new_record s kind flags payload]))
        by (apply Forall_app; split; [apply Hi|by apply Forall_singleton]).
      pose proof (new_record_numbered s disk rs kind flags payload Hi) as Hn.
      destruct (reopen_recovers resolve options s disk' (rs ++ [new_record s kind flags payload]) (bytes ++ bs) [])
        as (s2 & disk2 & H1 & H2 & H3);
        [done|done|done|done|done|rewrite zlen_app, zlen_cons, zlen_nil; lia|by left|by rewrite app_nil_r|].
      exists (rs ++ [new_record s kind flags payload]), s2, disk2.
      split; [done|]. split; [done|]. split; [done|]. split; [by right|]. intros Hst. split; [done|].
      destruct (Hok Hst) as (_ & Ho & Hopen & Hnext). split; [done| |done|done|].
      * exists (bytes ++ bs). by rewrite Ho.
      * rewrite Hnext. unfold next_after. by rewrite last_snoc.
    + destruct (reopen_recovers resolve options s disk' rs bytes (take k bs)) as (s2 & disk2 & H1 & H2 & H3);
        [done|done|apply Hi|done|apply Hi|lia| |done|].
      { right. exists (new_record s kind flags payload), bs. rewrite Hl. split; [done|]. split; [done|].
        exists (drop k bs). split; [|by rewrite take_drop]. intros Hn. apply (f_equal length) in Hn.
        rewrite length_drop in Hn. simpl in Hn. lia. }
      exists rs, s2, disk2. split; [done|]. split; [done|]. split; [done|]. split; [by left|].
      intros Hst. destruct (Hok Hst) as [-> _]. lia.
Qed.

(** C28. Damage is never repaired away. When up to four adjacent bytes of a
    journal are overwritten, in any record, opening the store is refused and
    the journal file is left as it is, whatever the other I/O calls answer. *)
Theorem damaged_journal_refused resolve io options disk rs bytes bytes' :
  Forall record_in_range rs -> encode_all (so_limits options) rs = Some bytes ->
  burst bytes bytes' -> Forall in_u8 bytes' -> disk_journal disk = Some bytes' ->
  exists st disk', open resolve io options disk = Some (Refused st, disk') /\
    status_ok st = false /\ disk_journal disk' = Some bytes'.
Proof.
  intros Hr He Hb Hbytes Hj. unfold open.
  destruct (status_ok (limits_validate (so_limits options))) eqn:Hlim; cbn [negb].
  2: { eexists _, _. split; [done|]. by split. }
  destruct (sanitise_path resolve (so_root options)) as [root|st] eqn:Es.
  2: { eexists _, _. split; [done|]. split; [by eapply sanitise_refused|done]. }
  cbn [so_mode so_limits]. rewrite Hj, (bool_decide_eq_true_2 (is_Some _)) by eauto. cbn [negb andb].
  rewrite andb_true_r, andb_false_r. case_bool_decide.
  { eexists _, _. split; [done|]. split; [apply failure_not_ok|done]. }
  destruct (_ && _). { eexists _, _. split; [done|]. split; [apply failure_not_ok|done]. }
  unfold replay. cbn [disk_journal andb]. destruct (io_opened _); cbn [negb].
  2: { eexists _, _. split; [done|]. split; [apply failure_not_ok|done]. }
  destruct (replay_damaged_journal rs (so_limits options) bytes bytes' None report_empty (replay_fuel bytes'))
    as (rep & status & -> & Hs); [done|done|done|done|unfold replay_fuel; lia|].
  rewrite Hs. cbn [negb]. eexists _, _. split; [done|]. split; [apply failure_not_ok|done].
Qed.

(** C32. Replay always ends and reports only what is in the file: on arbitrary
    bytes it returns a report whose records are, in order, exactly the decoded
    front of the file, numbered without gap; when its status is success the
    rest of the file is empty or a torn tail whose length is the number of
    bytes reported for recovery. *)
Theorem replay_exact limits data :
  Forall in_u8 data ->
  exists rep status rs bytes tail,
    replay_loop (replay_fuel data) limits data None report_empty = Some (rep, status) /\
    data = bytes ++ tail /\ encode_all limits rs = Some bytes /\ rp_records rep = rs /\ numbered None rs /\
    (status_ok status = true ->
       if rp_truncated_tail rep then tail <> [] /\ rp_recovered_bytes rep = zlen tail else tail = []).
Proof.
  intros Hb. destruct (replay_scan (replay_fuel data) limits data None report_empty Hb)
    as (rep & status & Hloop & rs & bytes & tail & [S1 S2 S3 S4 S5 S6]); [unfold replay_fuel; lia|].
  exists rep, status, rs, bytes, tail. split; [done|]. split; [done|]. split; [done|]. split; [done|].
  split; [done|]. intros Hs. destruct (report_all_fields rs report_empty) as (_ & F2 & _).
  destruct (S6 Hs) as [_ [[-> ->]|[Ht ->]]]; [by rewrite F2|done].
Qed.

(** C33. Snapshots and compactions are replaced atomically. Whatever the
    operating system answers, the snapshot on disk afterwards is the old one,
    or, exactly when the write is acknowledged, the new document, which reads
    back as written and is refused once up to four adjacent bytes of the file
    are overwritten; the journal after a compaction is the old one or exactly the
    encodings of the supplied records, and an acknowledged compaction of numbered
    records leaves the store in the state that opening that journal would. *)
Theorem staged_replacement_atomic io cio document records s disk :
  Forall in_u8 document ->
  let '(st, disk1) := write_snapshot io document s disk in
  let '(st2, s2, disk2) := compact cio records s disk in
  (if status_ok st then
     read_snapshot true s disk1 = Value document /\
     forall raw raw', disk_snapshot disk1 = Some raw -> burst raw raw' -> Forall in_u8 raw' ->
       result_ok (read_snapshot true s (disk_with_snapshot disk1 (Some raw') None)) = false
   else disk_snapshot disk1 = disk_snapshot disk) /\
  disk_journal disk1 = disk_journal disk /\ disk_snapshot disk2 = disk_snapshot disk /\
  (disk_journal disk2 = disk_journal disk \/
   exists bytes, encode_all (so_limits (ds_options s)) records = Some bytes /\ disk_journal disk2 = Some bytes) /\
  (status_ok st2 = true -> numbered None records -> Forall record_in_range records ->
     journal_inv s2 disk2 records).
Proof.
  intros Hdoc. pose proof (write_snapshot_spec io document s disk Hdoc) as Hs.
  pose proof (compact_spec cio records s disk) as Hc.
  destruct (write_snapshot io document s disk) as [st disk1].
  destruct (compact cio records s disk) as [[st2 s2] disk2].
  destruct Hs as (H1 & H2). destruct Hc as (H3 & H4 & H5). done.
Qed.

(** * A concrete store *)

Definition sample_options : StoreOptions :=
  mkOptions ["var"; "sff"] limits_defaults OpenMode.OpenOrCreate true.
Definition empty_disk : Disk := mkDisk false None None None None.

Definition epoch_kind : Z := record_kind_raw RecordKind.EpochAdvance.
Definition epoch_payload : list Z := [1; 7; 0; 0; 0; 0; 0; 0; 0].

(** The store and the disk after opening, with the empty ones as defaults. *)
Definition opened (options : StoreOptions) (disk : Disk) : DurableStore * Disk :=
  match open Some open_io_ok options disk with
  | Some (Value s, disk') => (s, disk')
  | _ => (mkStore options false 0 0 report_empty, disk)
  end.

Definition fresh_store : DurableStore := (opened sample_options empty_disk).1.
Definition fresh_disk : Disk := (opened sample_options empty_disk).2.

Lemma sample_usable : usable Some sample_options.
Proof. split; [vm_compute; reflexivity|]. split; [reflexivity|discriminate]. Qed.

Lemma fresh_inv : journal_inv fresh_store fresh_disk [].
Proof. split; [reflexivity|by exists []|done|constructor|reflexivity]. Qed.

Lemma crash_safe_append_witness :
  exists rs' s2 disk2,
    open Some open_io_ok sample_options
      (append (mkWriteIo 30 true false) epoch_kind epoch_payload 0 fresh_store fresh_disk).2
      = Some (Value s2, disk2) /\ journal_inv s2 disk2 rs'.
Proof.
  pose proof (crash_safe_append Some sample_options (mkWriteIo 30 true false) epoch_kind epoch_payload 0
    fresh_store fresh_disk []
    (append (mkWriteIo 30 true false) epoch_kind epoch_payload 0 fresh_store fresh_disk).1.1
    (append (mkWriteIo 30 true false) epoch_kind epoch_payload 0 fresh_store fresh_disk).1.2
    (append (mkWriteIo 30 true false) epoch_kind epoch_payload 0 fresh_store fresh_disk).2
    sample_usable eq_refl fresh_inv ltac:(ints_lia) ltac:(repeat constructor; vm_compute; congruence)
    ltac:(vm_compute; reflexivity) ltac:(by destruct (append _ _ _ _ _ _) as [[? ?] ?])) as H.
  destruct H as (rs' & s2 & disk2 & H1 & _ & H2 & _). exists rs', s2, disk2. by split.
Defined.

Definition sample_journal : list Z := sample_encoding.

Lemma damaged_journal_refused_witness :
  exists st disk', open Some open_io_ok sample_options
    (mkDisk true (Some (<[35%nat := 9]> sample_journal)) None None None) = Some (Refused st, disk') /\
    status_ok st = false /\ disk_journal disk' = Some (<[35%nat := 9]> sample_journal).
Proof.
  refine (damaged_journal_refused Some open_io_ok sample_options
    (mkDisk true (Some (<[35%nat := 9]> sample_journal)) None None None) [sample_record] sample_journal
    (<[35%nat := 9]> sample_journal) _ _ _ _ eq_refl).
  - constructor; [apply sample_record_in_range|constructor].
  - vm_compute. reflexivity.
  - exists (take 35 sample_journal), [0], [9], (drop 36 sample_journal).
    split; [reflexivity|]. split; [reflexivity|]. split; [reflexivity|]. split; [simpl; lia|congruence].
  - repeat constructor; vm_compute; congruence.
Defined.

Lemma replay_exact_witness :
  exists rep status, replay_loop (replay_fuel (sample_journal ++ [83; 70])) limits_defaults
    (sample_journal ++ [83; 70]) None report_empty = Some (rep, status).
Proof.
  destruct (replay_exact limits_defaults (sample_journal ++ [83; 70])) as (rep & status & rs & b & t & H & _).
  - repeat constructor; vm_compute; congruence.
  - exists rep, status. exact H.
Defined.

Lemma staged_replacement_atomic_witness :
  read_snapshot true fresh_store (write_snapshot stage_io_ok [1; 2; 3] fresh_store fresh_disk).2 = Value [1; 2; 3].
Proof.
  pose proof (staged_replacement_atomic stage_io_ok compact_io_ok [1; 2; 3] [] fresh_store fresh_disk
    ltac:(repeat constructor; vm_compute; congruence)) as H.
  destruct (write_snapshot stage_io_ok [1; 2; 3] fresh_store fresh_disk) as [st disk1] eqn:E.
  destruct (compact compact_io_ok [] fresh_store fresh_disk) as [[st2 s2] disk2].
  assert (Hst : status_ok st = true) by (vm_compute in E; injection E as <- _; reflexivity).
  rewrite Hst in H. exact (proj1 (proj1 H)).
Defined.

(** ** Where the store loses data it acknowledged *)

(** An append whose sync fails leaves its record in the file without
    advancing the sequence number. *)
Definition after_failed_sync : Status * DurableStore * Disk :=
  append (mkWriteIo 1000 true false) epoch_kind epoch_payload 0 fresh_store fresh_disk.

Definition after_retry : Status * DurableStore * Disk :=
  append write_io_ok epoch_kind epoch_payload 0 after_failed_sync.1.2 after_failed_sync.2.

(** A failed sync poisons the journal: the record whose sync failed stays
    in the file, the next append is acknowledged with the same sequence
    number, and from then on opening the store is refused because the sequence
    regressed. *)
Theorem failed_sync_poisons_journal :
  status_code after_failed_sync.1.1 = Code.IoError /\ after_retry.1.1 = success /\
  exists st disk', open Some open_io_ok sample_options after_retry.2 = Some (Refused st, disk') /\
    status_code st = Code.Replay.
Proof.
  split; [vm_compute; reflexivity|]. split; [vm_compute; reflexivity|].
  eexists _, _. split; [vm_compute; reflexivity|]. vm_compute. reflexivity.
Qed.

(** Options with room for a single journal record. *)
Definition one_record_options : StoreOptions :=
  let l := limits_defaults in
  mkOptions ["var"; "sff"]
    (mkLimits (max_switches l) (max_links l) (max_paths l) (max_ports l) (max_failure_domains l)
       (max_closure_nodes l) (max_closure_edges l) (max_plan_steps l) (max_candidates_evaluated l)
       (max_unresolved_dependents l) (max_explanation_terms l) (max_retained_attempts l)
       (max_authority_grants l) (max_fences l) (max_evidence_records l) (max_event_records l) 1
       (max_sessions l) (max_session_queue l) (max_frame_payload l) (max_document_bytes l)
       (freshness_window_ns l) (fence_horizon_ns l))
    OpenMode.OpenOrCreate true.

(** Open the store, append one record with working I/O, and let it go. *)
Definition run_once (disk : Disk) : Status * Disk :=
  let '(s, disk) := opened one_record_options disk in
  let '(st, _, disk) := append write_io_ok epoch_kind epoch_payload 0 s disk in (st, disk).

(** The journal bound is forgotten on reopen: with room for one record, a
    second run of the program appends another one and is acknowledged,
    because the count of written records starts again at zero; the third run
    can no longer open the store. *)
Theorem journal_bound_resets_on_reopen :
  (run_once empty_disk).1 = success /\ (run_once (run_once empty_disk).2).1 = success /\
  exists st disk', open Some open_io_ok one_record_options (run_once (run_once empty_disk).2).2
    = Some (Refused st, disk') /\ status_code st = Code.Exhausted.
Proof.
  split; [vm_compute; reflexivity|]. split; [vm_compute; reflexivity|].
  eexists _, _. split; [vm_compute; reflexivity|]. vm_compute. reflexivity.
Qed.
