(* ===== verification/Policy.v ===== *)
(** The runtime policy and its document (include/sff/runtime/policy.hpp,
    src/runtime/policy.cpp) and the planning knobs (PlanningPolicy of
    include/sff/plan/planner.hpp, src/plan/planner.cpp). *)

From S2P Require Import Prelude Containers Core Generation Evidence Bytes Wire.

#[local] Open Scope codec_scope.

(** * Data *)

Record PlanningPolicy := mkPlanningPolicy {
  allow_replacement_in_same_failure_domain : bool;
  require_capability_superset : bool;
  require_authoritative_candidate_evidence : bool;
  allow_withhold_on_unresolved : bool;
  allow_restore_when_closure_truncated : bool;
  max_candidates_per_dependent : Z
}.

Definition planning_policy_defaults : PlanningPolicy := mkPlanningPolicy false true true true false 256.

Definition planning_policy_digest (p : PlanningPolicy) : Z :=
  dig_hi
    (absorb_u64 (max_candidates_per_dependent p)
      (absorb_bool (allow_restore_when_closure_truncated p)
        (absorb_bool (allow_withhold_on_unresolved p)
          (absorb_bool (require_authoritative_candidate_evidence p)
            (absorb_bool (require_capability_superset p)
              (absorb_bool (allow_replacement_in_same_failure_domain p)
                (absorb_string "sff.planning-policy.v1" digest_init))))))).

Record Policy := mkPolicy {
  po_format_version : Z;
  po_assessment : AssessmentPolicy;
  po_planning : PlanningPolicy;
  po_require_verified_effect : bool;
  po_allow_acknowledgement : bool;
  po_allow_truncated : bool;
  po_fence_on_restart : bool;
  po_grant_ttl_ns : Z;
  po_max_retained_plans : Z
}.

Definition policy_defaults : Policy :=
  mkPolicy 1 assessment_policy_defaults planning_policy_defaults true false false false
    (30 * kNanosPerSecond) 256.

Definition kPolicyFormatTag : Z := 1.

(** * Operations *)

Definition policy_validate (p : Policy) : Status :=
  if negb (po_format_version p =? 1) then
    failure Code.VersionMismatch "policy format version is not supported"
  else if po_grant_ttl_ns p =? 0 then failure Code.Invalid "grant_ttl_ns must be positive"
  else if (po_max_retained_plans p =? 0) || (kHardMaxElements <? po_max_retained_plans p) then
    failure Code.Invalid "max_retained_plans is outside the supported range"
  else if (max_candidates_per_dependent (po_planning p) =? 0)
          || (kHardMaxElements <? max_candidates_per_dependent (po_planning p)) then
    failure Code.Invalid "max_candidates_per_dependent is outside the supported range"
  else if po_allow_acknowledgement p && po_require_verified_effect p then
    failure Code.Invalid "acknowledgement-only restore contradicts the verified-effect requirement"
  else success.

Definition policy_digest (p : Policy) : Z :=
  let a := po_assessment p in
  dig_hi
    (absorb_u64 (po_max_retained_plans p)
      (absorb_u64 (po_grant_ttl_ns p)
        (absorb_bool (po_fence_on_restart p)
          (absorb_bool (po_allow_truncated p)
            (absorb_bool (po_allow_acknowledgement p)
              (absorb_bool (po_require_verified_effect p)
                (absorb_u64 (planning_policy_digest (po_planning p))
                  (absorb_u64 (future_skew_tolerance_ns a)
                    (absorb_bool (require_authoritative_failure_evidence a)
                      (absorb_bool (allow_same_generation_recovery a)
                        (absorb_bool (fence_on_missing_health a)
                          (absorb_bool (fence_on_authoritative_conflict a)
                            (absorb_u64 (po_format_version p)
                              (absorb_string "sff.policy.v1" digest_init)))))))))))))).

Definition write_assessment (a : AssessmentPolicy) : WriterM :=
  write_boolean (fence_on_authoritative_conflict a);; write_boolean (fence_on_missing_health a);;
  write_boolean (allow_same_generation_recovery a);; write_boolean (require_authoritative_failure_evidence a);;
  write_u64 (future_skew_tolerance_ns a).

Definition write_planning (p : PlanningPolicy) : WriterM :=
  write_boolean (allow_replacement_in_same_failure_domain p);; write_boolean (require_capability_superset p);;
  write_boolean (require_authoritative_candidate_evidence p);; write_boolean (allow_withhold_on_unresolved p);;
  write_boolean (allow_restore_when_closure_truncated p);; write_u32 (max_candidates_per_dependent p).

Definition policy_encode (p : Policy) : list Z :=
  written (write_u8 kPolicyFormatTag;; write_u32 (po_format_version p);; write_assessment (po_assessment p);;
           write_planning (po_planning p);; write_boolean (po_require_verified_effect p);;
           write_boolean (po_allow_acknowledgement p);; write_boolean (po_allow_truncated p);;
           write_boolean (po_fence_on_restart p);; write_u64 (po_grant_ttl_ns p);;
           write_u64 (po_max_retained_plans p)).

Definition read_assessment : ReaderM AssessmentPolicy :=
  conflict ← read_boolean; missing ← read_boolean; recovery ← read_boolean; authoritative ← read_boolean;
  skew ← read_u64; mret (mkAssessmentPolicy conflict missing recovery authoritative skew).

Definition read_planning : ReaderM PlanningPolicy :=
  same_domain ← read_boolean; superset ← read_boolean; authoritative ← read_boolean; withhold ← read_boolean;
  truncated ← read_boolean; candidates ← read_u32;
  mret (mkPlanningPolicy same_domain superset authoritative withhold truncated candidates).

Definition read_policy : ReaderM (Result Policy) :=
  check_tag kPolicyFormatTag "policy format tag is unsupported"
    (version ← read_u32; assessment ← read_assessment; planning ← read_planning;
     verified ← read_boolean; acknowledgement ← read_boolean; truncated ← read_boolean;
     restart ← read_boolean; ttl ← read_u64; retained ← read_u64;
     check_end
       (let policy := mkPolicy version assessment planning verified acknowledgement truncated restart ttl retained in
        let valid := policy_validate policy in
        if negb (status_ok valid) then mret (Refused valid) else mret (Value policy))).

Definition policy_decode (bytes : list Z) : Result Policy := decode_with read_policy bytes.

(** * The format of the document *)

Definition flag_bytes (b : bool) : list Z := [if b then 1 else 0].

Definition assessment_bytes (a : AssessmentPolicy) : list Z :=
  flag_bytes (fence_on_authoritative_conflict a) ++ flag_bytes (fence_on_missing_health a) ++
  flag_bytes (allow_same_generation_recovery a) ++ flag_bytes (require_authoritative_failure_evidence a) ++
  le_bytes (future_skew_tolerance_ns a) 8.

Definition planning_bytes (p : PlanningPolicy) : list Z :=
  flag_bytes (allow_replacement_in_same_failure_domain p) ++ flag_bytes (require_capability_superset p) ++
  flag_bytes (require_authoritative_candidate_evidence p) ++ flag_bytes (allow_withhold_on_unresolved p) ++
  flag_bytes (allow_restore_when_closure_truncated p) ++ le_bytes (max_candidates_per_dependent p) 4.

Definition policy_bytes (p : Policy) : list Z :=
  [kPolicyFormatTag] ++ le_bytes (po_format_version p) 4 ++ assessment_bytes (po_assessment p) ++
  planning_bytes (po_planning p) ++ flag_bytes (po_require_verified_effect p) ++
  flag_bytes (po_allow_acknowledgement p) ++ flag_bytes (po_allow_truncated p) ++
  flag_bytes (po_fence_on_restart p) ++ le_bytes (po_grant_ttl_ns p) 8 ++ le_bytes (po_max_retained_plans p) 8.

(** A policy whose fields have their machine width. *)
Record policy_in_range (p : Policy) : Prop := {
  pr_version : in_u32 (po_format_version p);
  pr_skew : in_u64 (future_skew_tolerance_ns (po_assessment p));
  pr_candidates : in_u32 (max_candidates_per_dependent (po_planning p));
  pr_ttl : in_u64 (po_grant_ttl_ns p);
  pr_retained : in_u64 (po_max_retained_plans p)
}.

#[local] Instance wire_flag lim : WireFormat lim (fun _ => True) flag_bytes read_boolean := wire_boolean lim.

(** Peel a flag off the front of a record of fields read one by one. *)
Ltac wire_field first ok enc rest :=
  apply (wire_bind _ ok enc _ _ _ _ rest first); [apply _|apply _|by intros ? ?|intros ?].

#[local] Instance wire_assessment lim : WireFormat lim (fun a => in_u64 (future_skew_tolerance_ns a))
  assessment_bytes read_assessment.
Proof.
  unfold read_assessment.
  wire_field fence_on_authoritative_conflict (fun _ : bool => True) flag_bytes
    (fun a => flag_bytes (fence_on_missing_health a) ++ flag_bytes (allow_same_generation_recovery a) ++
       flag_bytes (require_authoritative_failure_evidence a) ++ le_bytes (future_skew_tolerance_ns a) 8).
  wire_field fence_on_missing_health (fun _ : bool => True) flag_bytes
    (fun a => flag_bytes (allow_same_generation_recovery a) ++
       flag_bytes (require_authoritative_failure_evidence a) ++ le_bytes (future_skew_tolerance_ns a) 8).
  wire_field allow_same_generation_recovery (fun _ : bool => True) flag_bytes
    (fun a => flag_bytes (require_authoritative_failure_evidence a) ++ le_bytes (future_skew_tolerance_ns a) 8).
  wire_field require_authoritative_failure_evidence (fun _ : bool => True) flag_bytes
    (fun a => le_bytes (future_skew_tolerance_ns a) 8).
  eapply wire_map; [apply (wire_u64 lim)|]. intros [] [[[[Hs <-] <-] <-] <-]. eauto.
Qed.

#[local] Instance wire_planning lim : WireFormat lim (fun p => in_u32 (max_candidates_per_dependent p))
  planning_bytes read_planning.
Proof.
  unfold read_planning.
  wire_field allow_replacement_in_same_failure_domain (fun _ : bool => True) flag_bytes
    (fun p => flag_bytes (require_capability_superset p) ++
       flag_bytes (require_authoritative_candidate_evidence p) ++ flag_bytes (allow_withhold_on_unresolved p) ++
       flag_bytes (allow_restore_when_closure_truncated p) ++ le_bytes (max_candidates_per_dependent p) 4).
  wire_field require_capability_superset (fun _ : bool => True) flag_bytes
    (fun p => flag_bytes (require_authoritative_candidate_evidence p) ++ flag_bytes (allow_withhold_on_unresolved p) ++
       flag_bytes (allow_restore_when_closure_truncated p) ++ le_bytes (max_candidates_per_dependent p) 4).
  wire_field require_authoritative_candidate_evidence (fun _ : bool => True) flag_bytes
    (fun p => flag_bytes (allow_withhold_on_unresolved p) ++
       flag_bytes (allow_restore_when_closure_truncated p) ++ le_bytes (max_candidates_per_dependent p) 4).
  wire_field allow_withhold_on_unresolved (fun _ : bool => True) flag_bytes
    (fun p => flag_bytes (allow_restore_when_closure_truncated p) ++ le_bytes (max_candidates_per_dependent p) 4).
  wire_field allow_restore_when_closure_truncated (fun _ : bool => True) flag_bytes
    (fun p => le_bytes (max_candidates_per_dependent p) 4).
  eapply wire_map; [apply (wire_u32 lim)|]. intros [] [[[[[Hs <-] <-] <-] <-] <-]. eauto.
Qed.

Lemma policy_writes p : policy_encode p = policy_bytes p.
Proof.
  apply written_writes; [repeat apply writes_seq; auto with codec|].
  unfold policy_bytes, assessment_bytes, planning_bytes, flag_bytes. autorewrite with zlen. done.
Qed.

(** Every value a decoder returns satisfies [P], whatever the bytes. *)
Definition yields {A} (P : A -> Prop) (m : ReaderM (Result A)) : Prop := forall r a, (m r).1 = Value a -> P a.

Section yields.
Context {A : Type} (P : A -> Prop).

Lemma yields_bind {B} (m : ReaderM B) (k : B -> ReaderM (Result A)) : (forall b, yields P (k b)) -> yields P (m ≫= k).
Proof. intros H r a. unfold mbind, reader_bind. destruct (m r) as [b r']. apply H. Qed.

Lemma yields_ok (k : ReaderM (Result A)) : yields P k -> yields P (check_ok k).
Proof. intros H r a. unfold check_ok. destruct (negb _); [done|apply H]. Qed.

Lemma yields_end (k : ReaderM (Result A)) : yields P k -> yields P (check_end k).
Proof. intros H r a. unfold check_end. destruct (require_end r) as [s r']. destruct (negb _); [done|apply H]. Qed.

Lemma yields_tag tag message (k : ReaderM (Result A)) : yields P k -> yields P (check_tag tag message k).
Proof. intros H. apply yields_bind. intros b. apply yields_ok. by destruct (negb _). Qed.
End yields.

Lemma status_ok_failure code message : status_ok (failure code message) = false.
Proof. apply failure_not_ok. Qed.

(** What validation guarantees. *)
Record policy_sane (p : Policy) : Prop := {
  sane_version : po_format_version p = 1;
  sane_restore : po_allow_acknowledgement p && po_require_verified_effect p = false;
  sane_ttl : po_grant_ttl_ns p <> 0;
  sane_retained : po_max_retained_plans p <> 0 /\ po_max_retained_plans p <= kHardMaxElements;
  sane_candidates : max_candidates_per_dependent (po_planning p) <> 0 /\
    max_candidates_per_dependent (po_planning p) <= kHardMaxElements
}.

Lemma policy_validate_sane p : status_ok (policy_validate p) = true <-> policy_sane p.
Proof.
  unfold policy_validate. split.
  - destruct (po_allow_acknowledgement p && po_require_verified_effect p) eqn:Ha;
      repeat case_match; rewrite ?failure_not_ok; try done; intros _; bool_prop.
    split; try done. by apply andb_false_iff.
  - intros [H1 H2 H3 [H4 H5] [H6 H7]]. rewrite H1, H2. change (1 =? 1) with true. cbn [negb].
    rewrite !(proj2 (Z.eqb_neq _ _)), !(proj2 (Z.ltb_ge _ _)) by done. done.
Qed.

Lemma policy_document p : policy_in_range p -> policy_sane p ->
  document (Z.shiftl 1 24) (policy_bytes p) read_policy p.
Proof.
  intros [H1 H2 H3 H4 H5] Hs. unfold policy_bytes, read_policy. rewrite <- (app_nil_r (le_bytes (po_max_retained_plans p) 8)).
  apply document_tag; [split; vm_compute; congruence|].
  document_field in_u32 (fun v => le_bytes v 4); [done|].
  document_field (fun a => in_u64 (future_skew_tolerance_ns a)) assessment_bytes; [done|].
  document_field (fun p => in_u32 (max_candidates_per_dependent p)) planning_bytes; [done|].
  do 4 (document_field (fun _ : bool => True) flag_bytes; [done|]). document_steps; try done.
  apply document_end. intros r. replace (mkPolicy _ _ _ _ _ _ _ _ _) with p by (by destruct p).
  cbv zeta. by rewrite (proj2 (policy_validate_sane p) Hs).
Qed.

(** * Properties *)

(** The policy document is faithful and validated at the door. The encoding
    of a valid policy decodes to the identical policy, every proper prefix of
    it is refused as Truncated, and no bytes whatever decode to a policy that
    combines acknowledgement-only restoration with the verified-effect
    requirement, has an unsupported version, a zero validity window, or a bound
    outside its range. *)
Theorem policy_roundtrip p :
  policy_in_range p -> policy_sane p ->
  policy_decode (policy_encode p) = Value p /\
  (forall q, strict_prefix q (policy_encode p) ->
    exists s, policy_decode q = Refused s /\ status_code s = Code.Truncated) /\
  (forall bytes q, policy_decode bytes = Value q -> policy_sane q).
Proof.
  intros Hr Hs. rewrite policy_writes.
  destruct (document_decode _ _ _ _ (policy_document p Hr Hs)) as [Hv Hq]. split; [exact Hv|]. split; [exact Hq|].
  intros bytes q. unfold policy_decode, decode_with. apply (yields_tag policy_sane).
  do 9 (apply yields_bind; intros ?). apply yields_end. intros r a. cbv zeta.
  destruct (status_ok _) eqn:E; cbn [negb]; [|done]. intros [= <-]. by apply policy_validate_sane.
Qed.

Lemma policy_roundtrip_witness : policy_decode (policy_encode policy_defaults) = Value policy_defaults.
Proof.
  refine (proj1 (policy_roundtrip policy_defaults _ _)).
  - split; vm_compute; split; congruence.
  - apply policy_validate_sane. vm_compute. reflexivity.
Defined.
