(* ===== verification/Closures.v ===== *)
(** Closures of several failed generations against closures of each alone
    (TopologySnapshot::closure of src/model/topology.cpp, as used by
    build_demand_plan of src/plan/planning_core.cpp): a joint closure that was
    not cut short leaves room for every single one. *)

From S2P Require Import Prelude Containers Core Generation Switch Topology.

Section counting.
Context (t : TopologySnapshot) (Hwf : topology_wf t) (roots : list ClosureNode).
Local Notation nodes := (tp_nodes t).

Lemma adjacency_sum_mono (q A : list nat) : NoDup q -> (forall i, i ∈ q -> i ∈ A) ->
  (adjacency_sum t q <= adjacency_sum t A)%nat /\ (length q <= length A)%nat.
Proof.
  intros Hn Hsub. assert (Hq : q ⊆+ A) by (apply NoDup_submseteq; [done|]; intros i Hi; auto).
  apply submseteq_Permutation in Hq as [rest Hp]. unfold adjacency_sum. rewrite Hp.
  rewrite sum_list_with_app, length_app. lia.
Qed.

(** What an expansion that is not cut short has counted. *)
Lemma expand_counts node_budget edge_budget n adj s :
  (forall f, f ∈ adj -> depends t f n) ->
  let s' := expand t node_budget edge_budget adj s in
  cs_truncated s' = false ->
  cs_edges_examined s' = cs_edges_examined s + zlen adj /\
  (zlen (cs_members s) <= node_budget -> zlen (cs_members s') <= node_budget).
Proof using Hwf.
  revert s. induction adj as [|f adj IH]; intros s Hadj; cbn [expand].
  { cbv zeta. rewrite zlen_nil. intros _. split; [lia|done]. }
  assert (Hf : depends t f n) by (apply Hadj; left). destruct (edge_nodes t Hwf _ _ Hf) as [Hfn _].
  assert (Hadj' : forall x, x ∈ adj -> depends t x n) by (intros; apply Hadj; by right).
  cbv zeta. destruct (edge_budget <=? cs_edges_examined s); [done|].
  rewrite (bool_decide_eq_false_2 (index_of t f = _)) by (apply node_index_elem; [apply Hwf|done]).
  rewrite zlen_cons. destruct (is_visited _ _).
  - intros Ht. destruct (IH (examine s) Hadj' Ht) as [-> H]. cbn [examine cs_edges_examined cs_members] in *. split; [lia|done].
  - destruct (Z.leb_spec node_budget (zlen (cs_members (examine s)))) as [|Hlt]; [done|].
    intros Ht. destruct (IH _ Hadj' Ht) as [-> H]. cbn [enqueue examine cs_edges_examined cs_members] in *.
    split; [lia|]. intros _. apply H. rewrite zlen_app, zlen_cons, zlen_nil. lia.
Qed.

Lemma loop_counts node_budget edge_budget fuel head s head' s' :
  scan_inv t roots s -> (head <= length (cs_queue s))%nat ->
  cs_edges_examined s = Z.of_nat (adjacency_sum t (take head (cs_queue s))) ->
  (head <> 0%nat -> zlen (cs_members s) <= node_budget) ->
  closure_loop fuel t node_budget edge_budget head s = Some (head', s') -> cs_truncated s' = false ->
  cs_edges_examined s' = Z.of_nat (adjacency_sum t (cs_queue s')) /\
  (cs_queue s' <> [] -> zlen (cs_members s') <= node_budget).
Proof using Hwf.
  revert head s. induction fuel as [|fuel IH]; intros head s Hs Hh Hsum Hm;
    cbn [closure_loop]; destruct (cs_queue s !! head) as [index|] eqn:Hq; try done.
  1, 3: intros [= <- <-] Ht; apply lookup_ge_None in Hq; rewrite take_ge in Hsum by lia; split; [done|];
    intros Hne; apply Hm; intros ->; apply Hne; apply length_zero_iff_nil; lia.
  destruct (Z.leb_spec node_budget (zlen (cs_members s))) as [|Hnb]; [by intros [= <- <-]|].
  destruct (Z.leb_spec edge_budget (cs_edges_examined s)) as [|Heb]; [by intros [= <- <-]|].
  destruct (si_queue _ _ _ Hs index) as (n & Hn & Hnm); [by eapply list_elem_of_lookup_2|].
  destruct (tw_adjacency _ Hwf _ _ Hn) as [_ Hadj].
  destruct (expand_spec t Hwf roots node_budget edge_budget (Z.max node_budget (zlen (cs_members s))) n
    (adjacency_at t index) s) as (H1 & _ & H3 & _);
    [done|by apply (si_sound _ _ _ Hs)|by intros f ?%Hadj|split; lia|lia|].
  pose proof (expand_counts node_budget edge_budget n (adjacency_at t index) s) as Hc. cbv zeta in Hc.
  set (e := expand t node_budget edge_budget (adjacency_at t index) s) in *.
  destruct (cs_truncated e) eqn:Ht; [intros [= <- <-]; congruence|].
  destruct (Hc ltac:(by intros f ?%Hadj) eq_refl) as [C1 C2].
  apply prefix_length in H3 as Hlen. apply lookup_lt_Some in Hq as Hlt. apply IH; [done|lia| |].
  - rewrite C1, Hsum. destruct H3 as [q ->]. rewrite take_app_le by lia. unfold adjacency_sum, zlen.
    rewrite (take_S_r _ _ _ Hq), sum_list_with_app. simpl. lia.
  - intros _. apply C2. lia.
Qed.

(** ** Room *)

Context (A : list nat) (node_budget edge_budget : Z).
Context (Hcover : forall m, affected t roots m -> m ∈ nodes -> index_of t m ∈ A).
Context (Hedges : Z.of_nat (adjacency_sum t A) <= edge_budget).

Lemma queue_covered s i : scan_inv t roots s -> i ∈ cs_queue s -> i ∈ A.
Proof using Hwf Hcover.
  intros Hs Hi. destruct (si_queue _ _ _ Hs i Hi) as (m & Hm & Hin).
  rewrite <- (node_index_lookup nodes m i) by (apply Hwf || done). apply Hcover; [by apply (si_sound _ _ _ Hs)|].
  by eapply list_elem_of_lookup_2.
Qed.

Lemma expand_room n adj s :
  scan_inv t roots s -> affected t roots n -> (forall f, f ∈ adj -> depends t f n) ->
  cs_roots_absent s + zlen A <= node_budget -> cs_edges_examined s + zlen adj <= edge_budget ->
  let s' := expand t node_budget edge_budget adj s in
  cs_truncated s' = cs_truncated s /\ cs_roots_absent s' = cs_roots_absent s /\
  cs_edges_examined s' = cs_edges_examined s + zlen adj.
Proof using Hwf Hcover.
  revert s. induction adj as [|f adj IH]; intros s Hs Hn Hadj Hnb Heb; cbn [expand].
  { rewrite zlen_nil. split; [done|split; [done|lia]]. }
  rewrite zlen_cons in Heb. pose proof (zlen_nonneg adj). rewrite (proj2 (Z.leb_gt _ _)) by lia.
  assert (Hf : depends t f n) by (apply Hadj; left). destruct (edge_nodes t Hwf _ _ Hf) as [Hfn _].
  rewrite (bool_decide_eq_false_2 (index_of t f = _)) by (apply node_index_elem; [apply Hwf|done]).
  assert (Hadj' : forall x, x ∈ adj -> depends t x n) by (intros; apply Hadj; by right).
  pose proof (examine_inv t roots s Hs) as Hs1.
  destruct (is_visited (examine s) (index_of t f)) eqn:Hv.
  { destruct (IH (examine s)) as (-> & -> & ->); try done; [simpl; lia|]. simpl. rewrite zlen_cons.
    split; [done|split; [done|lia]]. }
  assert (Ha : affected t roots f).
  { destruct Hn as (r & Hr & Hrtc). exists r. split; [done|]. by eapply rtc_l. }
  pose proof (enqueue_inv t Hwf roots (examine s) f Hs1 Hfn Hv Ha) as Hs2.
  destruct (adjacency_sum_mono (cs_queue (enqueue (examine s) f (index_of t f))) A) as [_ Hq];
    [apply (si_nodup _ _ _ Hs2)|intros i; by apply queue_covered|].
  simpl in Hq. rewrite length_app in Hq. simpl in Hq. pose proof (si_count _ _ _ Hs1) as Hc. simpl in Hc.
  rewrite (proj2 (Z.leb_gt _ _)) by (simpl; unfold zlen in *; lia).
  destruct (IH (enqueue (examine s) f (index_of t f))) as (-> & -> & ->); try done; [simpl; lia|].
  simpl. rewrite zlen_cons. split; [done|split; [done|lia]].
Qed.

Lemma loop_room fuel head s head' s' :
  scan_inv t roots s -> expanded t head s -> cs_truncated s = false -> (head <= length (cs_queue s))%nat ->
  cs_edges_examined s = Z.of_nat (adjacency_sum t (take head (cs_queue s))) ->
  cs_roots_absent s + zlen A <= node_budget -> (forall r, r ∈ roots -> r ∈ cs_members s) ->
  closure_loop fuel t node_budget edge_budget head s = Some (head', s') ->
  forall n, affected t roots n -> n ∈ cs_members s'.
Proof using Hwf Hcover Hedges.
  revert head s. induction fuel as [|fuel IH]; intros head s Hs Hx Ht Hh Hsum Hnb Hroots;
    cbn [closure_loop]; destruct (cs_queue s !! head) as [index|] eqn:Hq; try done.
  1, 3: intros [= <- <-]; by apply (expanded_complete t Hwf roots head s).
  destruct (adjacency_sum_mono (cs_queue s) A) as [Hsle Hlle];
    [apply (si_nodup _ _ _ Hs)|intros i; by apply queue_covered|].
  pose proof (si_count _ _ _ Hs) as Hc. apply lookup_lt_Some in Hq as Hlt.
  destruct (Z.leb_spec node_budget (zlen (cs_members s))) as [Hfull|_].
  { intros [= <- <-] n Hn. cbn [truncate cs_members].
    assert (Hp : cs_queue s ≡ₚ A).
    { apply submseteq_length_Permutation; [|unfold zlen in *; lia].
      apply NoDup_submseteq; [apply (si_nodup _ _ _ Hs)|]. intros i Hi. by eapply queue_covered. }
    destruct (decide (n ∈ nodes)) as [Hin|Hout].
    - assert (Hi : index_of t n ∈ cs_queue s) by (rewrite Hp; by apply Hcover).
      destruct (si_queue _ _ _ Hs _ Hi) as (m & Hm & Hmem). unfold index_of in Hm.
      rewrite (node_index_present nodes n) in Hm; [by simplify_eq|apply Hwf|]. by apply node_index_elem; [apply Hwf|].
    - destruct Hn as (r & Hr & Hrtc). inversion Hrtc as [|? y ? Hd ?]; subst; [by apply Hroots|].
      by destruct (edge_nodes t Hwf _ _ Hd). }
  destruct (Z.leb_spec edge_budget (cs_edges_examined s)) as [Hspent|_].
  { intros [= <- <-]. cbn [truncate cs_members].
    apply (expanded_complete t Hwf roots (length (cs_queue s)) s Hs); [|by apply lookup_ge_None|done].
    intros j i n f Hj Hi Hn Hd. destruct (decide (j < head)%nat) as [Hb|Hge]; [by eapply (Hx j i n f)|]. exfalso.
    assert (Hsplit : adjacency_sum t (cs_queue s) =
      (adjacency_sum t (take head (cs_queue s)) + adjacency_sum t (drop head (cs_queue s)))%nat).
    { unfold adjacency_sum. by rewrite <- sum_list_with_app, take_drop. }
    assert (Hz : length (adjacency_at t i) = 0%nat).
    { assert (Hin : i ∈ drop head (cs_queue s)).
      { apply list_elem_of_lookup. exists (j - head)%nat. rewrite lookup_drop. by replace (head + (j - head))%nat with j by lia. }
      apply list_elem_of_split in Hin as (l1 & l2 & He). unfold adjacency_sum in Hsplit at 3.
      rewrite He, sum_list_with_app in Hsplit. simpl in Hsplit. lia. }
    destruct (tw_adjacency _ Hwf i n Hn) as [_ Hadj]. apply Hadj in Hd. apply length_zero_iff_nil in Hz.
    rewrite Hz in Hd. by apply not_elem_of_nil in Hd. }
  destruct (si_queue _ _ _ Hs index) as (n & Hn & Hnm); [by eapply list_elem_of_lookup_2|].
  destruct (tw_adjacency _ Hwf _ _ Hn) as [_ Hadj].
  assert (Hstep : adjacency_sum t (take (S head) (cs_queue s)) =
    (adjacency_sum t (take head (cs_queue s)) + length (adjacency_at t index))%nat).
  { unfold adjacency_sum. rewrite (take_S_r _ _ _ Hq), sum_list_with_app. simpl. lia. }
  assert (Hpre : (adjacency_sum t (take (S head) (cs_queue s)) <= adjacency_sum t (cs_queue s))%nat).
  { unfold adjacency_sum. rewrite <- (take_drop (S head) (cs_queue s)) at 2. rewrite sum_list_with_app. lia. }
  destruct (expand_room n (adjacency_at t index) s) as (E1 & E2 & E3);
    [done|by apply (si_sound _ _ _ Hs)|by intros f ?%Hadj|done|unfold zlen; lia|].
  destruct (expand_spec t Hwf roots node_budget edge_budget (Z.max node_budget (zlen (cs_members s))) n
    (adjacency_at t index) s) as (H1 & _ & H3 & H4 & H5);
    [done|by apply (si_sound _ _ _ Hs)|by intros f ?%Hadj|split; lia|lia|].
  set (e := expand t node_budget edge_budget (adjacency_at t index) s) in *.
  rewrite E1, Ht. apply prefix_length in H3 as Hlen. apply IH; try done; [|by rewrite E1|lia| |by rewrite E2|auto].
  - intros j i m f Hj Hi Hm Hf. destruct (decide (j = head)) as [->|Hne].
    + assert (i = index) as -> by (destruct H3 as [q E]; rewrite E, lookup_app_l in Hi by lia; congruence).
      assert (m = n) as -> by congruence. apply H5; [by rewrite E1|]. by apply Hadj.
    + eapply (expanded_prefix t head s e); [done|lia|done| |done..]. lia.
  - rewrite E3, Hsum. destruct H3 as [q ->]. rewrite take_app_le by lia. unfold zlen. lia.
Qed.
End counting.

(** The final scan of a closure that was not cut short. *)
Lemma joint_scan t roots limits c : topology_wf t -> 0 <= max_closure_edges limits -> 0 <= max_closure_edges (tp_limits t) ->
  closure_from t roots limits = Some c -> dc_state c <> ClosureState.Truncated ->
  exists s, scan_inv t roots s /\ (forall n, affected t roots n -> n ∈ cs_members s) /\
    Z.of_nat (adjacency_sum t (cs_queue s)) <= Z.min (max_closure_edges limits) (max_closure_edges (tp_limits t)) /\
    (cs_queue s <> [] -> zlen (cs_members s) <= Z.min (max_closure_nodes limits) (max_closure_nodes (tp_limits t))).
Proof.
  intros Hwf He1 He2. unfold closure_from.
  set (node_budget := Z.min (max_closure_nodes limits) _). set (edge_budget := Z.min (max_closure_edges limits) _).
  set (s0 := foldl (add_root t) _ _).
  destruct (fold_roots_spec t Hwf roots (sort_and_dedupe roots)
    (mkClosureScan [] (replicate (length (tp_nodes t)) false) [] 0 0 false))
    as (H1 & H2 & _ & H4 & H5 & H6); [intros r; apply elem_of_sort_and_dedupe|apply scan_start_inv|].
  fold s0 in H1, H2, H4, H5, H6. simpl in H4, H5, H6. rewrite zlen_nil in H6.
  destruct (closure_loop_spec t Hwf roots node_budget edge_budget
    (Z.max node_budget (zlen (sort_and_dedupe roots))) (closure_fuel t) 0 s0)
    as (head & s & Hrun & I1 & [I2 _] & I3 & I4); try done; [intros j i n f Hj; lia|lia|unfold closure_fuel; lia| |lia|].
  { split; lia. }
  rewrite Hrun. intros [= <-]. cbn [dc_state]. intros Hst.
  assert (Ht : cs_truncated s = false) by (by destruct (cs_truncated s)). destruct (I4 Ht) as [Hend Hx].
  destruct (loop_counts t Hwf roots node_budget edge_budget (closure_fuel t) 0 s0 head s) as [C1 C2];
    [done|lia|by rewrite H4|done|done|done|].
  exists s. split; [done|]. split; [|split; [rewrite <- C1; lia|done]].
  apply (expanded_complete t Hwf roots head s I1 Hx Hend). intros r Hr. apply I3, H2. by apply elem_of_sort_and_dedupe.
Qed.

(** The closure of one present root, within the room a joint closure leaves. *)
Lemma single_in_room t roots limits c root c' : topology_wf t ->
  0 <= max_closure_edges limits -> 0 <= max_closure_edges (tp_limits t) ->
  closure_from t roots limits = Some c -> dc_state c <> ClosureState.Truncated -> root ∈ roots -> root ∈ tp_nodes t ->
  closure_from t [root] limits = Some c' -> forall n, affected t [root] n -> n ∈ dc_members c'.
Proof.
  intros Hwf He1 He2 Hc Hst Hr Hin Hc'. destruct (joint_scan t roots limits c Hwf He1 He2 Hc Hst) as (s & I1 & I2 & I3 & I4).
  assert (Hrq : index_of t root ∈ cs_queue s).
  { apply (si_members _ _ _ I1); [|done]. apply I2. exists root. split; [done|apply rtc_refl]. }
  assert (Hcover : forall m, affected t [root] m -> m ∈ tp_nodes t -> index_of t m ∈ cs_queue s).
  { intros m (r & ->%list_elem_of_singleton & Hrtc) Hm. apply (si_members _ _ _ I1); [|done]. apply I2. by exists root. }
  revert Hc'. unfold closure_from.
  set (node_budget := Z.min (max_closure_nodes limits) _) in *. set (edge_budget := Z.min (max_closure_edges limits) _) in *.
  assert (Hroom : zlen (cs_queue s) <= node_budget).
  { etrans; [|apply I4; intros Hn; rewrite Hn in Hrq; by apply not_elem_of_nil in Hrq].
    pose proof (si_count _ _ _ I1). pose proof (zlen_nonneg (cs_members s)).
    destruct (adjacency_sum_mono t (cs_queue s) (index_of t <$> cs_members s)) as [_ Hl].
    - apply (si_nodup _ _ _ I1).
    - intros i Hi. destruct (si_queue _ _ _ I1 i Hi) as (m & Hm & Hmem). apply list_elem_of_fmap. exists m. split; [|done].
      symmetry. apply node_index_lookup; [apply Hwf|done].
    - rewrite length_fmap in Hl. unfold zlen. lia. }
  set (s0 := foldl (add_root t) _ _).
  destruct (fold_roots_spec t Hwf [root] (sort_and_dedupe [root])
    (mkClosureScan [] (replicate (length (tp_nodes t)) false) [] 0 0 false))
    as (H1 & H2 & _ & H4 & H5 & _); [intros r; apply elem_of_sort_and_dedupe|apply scan_start_inv|].
  fold s0 in H1, H2, H4, H5. simpl in H4, H5.
  assert (Habsent : cs_roots_absent s0 = 0).
  { unfold s0. change (sort_and_dedupe [root]) with [root]. cbn [foldl]. unfold add_root.
    rewrite bool_decide_eq_false_2 by (by apply node_index_elem; [apply Hwf|]).
    destruct (is_visited _ _); done. }
  destruct (closure_loop _ _ _ _ _ _) as [[head s']|] eqn:Hrun; [|done]. intros [= <-]. cbn [dc_members].
  intros n Hn. apply elem_of_sort_and_dedupe.
  eapply (loop_room t Hwf [root] (cs_queue s) node_budget edge_budget Hcover I3 (closure_fuel t) 0 s0 head s');
    [done|intros j i m f Hj; lia|done|lia|by rewrite H4|lia| |exact Hrun|done].
  intros r Hr'. apply H2. by apply elem_of_sort_and_dedupe.
Qed.

Lemma closure_total t roots limits : topology_wf t -> 0 <= max_closure_edges limits -> 0 <= max_closure_edges (tp_limits t) ->
  exists c, closure t roots limits = Some c.
Proof.
  intros Hwf H1 H2. unfold closure. destruct (closure_from_spec t (of_switch <$> roots) limits Hwf H1 H2) as (c & -> & _). eauto.
Qed.

Lemma closure_dependents t roots limits c d : topology_wf t -> 0 <= max_closure_edges limits ->
  0 <= max_closure_edges (tp_limits t) -> closure t roots limits = Some c ->
  d ∈ dc_dependents c <-> of_dependent d ∈ dc_members c.
Proof.
  intros Hwf H1 H2 (c0 & Hc0 & -> & -> & _)%closure_value.
  destruct (closure_from_spec t (of_switch <$> roots) limits Hwf H1 H2) as (c1 & Hc1 & _ & _ & _ & _ & _ & Hd & _).
  rewrite Hc0 in Hc1. injection Hc1 as <-. apply Hd.
Qed.

Lemma joint_closure_members t roots limits c k c' :
  topology_wf t -> 0 <= max_closure_edges limits -> 0 <= max_closure_edges (tp_limits t) ->
  closure t roots limits = Some c -> dc_state c <> ClosureState.Truncated -> k ∈ roots ->
  closure t [k] limits = Some c' ->
  forall n, n ∈ dc_members c' <-> affected t [of_switch k] n.
Proof.
  intros Hwf He1 He2 (c0 & Hc0 & _ & _ & Es & _)%closure_value Hst Hk (c1 & Hc1 & Em & _)%closure_value n.
  rewrite Em. rewrite Es in Hst. change (of_switch <$> [k]) with [of_switch k] in Hc1.
  destruct (closure_from_spec t [of_switch k] limits Hwf He1 He2) as (c2 & Hc2 & Hsound & Hroots & _).
  rewrite Hc1 in Hc2. injection Hc2 as <-. split; [apply Hsound|].
  assert (Hin : of_switch k ∈ of_switch <$> roots) by (apply list_elem_of_fmap; eauto).
  destruct (decide (of_switch k ∈ tp_nodes t)) as [Hp|Hp].
  - by apply (single_in_room t (of_switch <$> roots) limits c0 (of_switch k) c1).
  - intros (r & ->%list_elem_of_singleton & Hrtc). inversion Hrtc as [|? y ? Hd Hrest]; subst; [apply Hroots; by left|].
    exfalso. apply Hp. clear -Hwf Hd Hrest. revert Hd. generalize n. induction Hrest as [x|x y z Hxy Hrest IH]; intros m Hd.
    + by destruct (edge_nodes t Hwf _ _ Hd).
    + by apply (IH x).
Qed.

(** The closure contains exactly what depends on the generation. *)
Definition enumerates_exactly (t : TopologySnapshot) (k : SwitchKey) (c : DependencyClosure) : Prop :=
  forall n, n ∈ dc_members c <-> affected t [of_switch k] n.

(** A complete joint closure makes every single closure exact. When the closure
    of a set of failed generations was not cut short, the closure of each of
    them alone contains exactly the elements that depend on it, even where it
    reports itself truncated. *)
Theorem joint_closure_covers_each t roots limits c k c' :
  topology_wf t -> 0 <= max_closure_edges limits -> 0 <= max_closure_edges (tp_limits t) ->
  closure t roots limits = Some c -> dc_state c <> ClosureState.Truncated -> k ∈ roots ->
  closure t [k] limits = Some c' ->
  enumerates_exactly t k c'.
Proof. intros H1 H2 H3 H4 H5 H6 H7 n. by apply (joint_closure_members t roots limits c k c'). Qed.

Lemma joint_closure_covers_each_witness :
  affected sample_topology [of_switch (mkSwitchKey 1 1)] (of_switch (mkSwitchKey 1 1)).
Proof.
  destruct (closure_total sample_topology [mkSwitchKey 1 1; mkSwitchKey 2 1] limits_defaults sample_topology_wf
    ltac:(vm_compute; discriminate) ltac:(vm_compute; discriminate)) as [c Hc].
  destruct (closure_total sample_topology [mkSwitchKey 1 1] limits_defaults sample_topology_wf
    ltac:(vm_compute; discriminate) ltac:(vm_compute; discriminate)) as [c' Hc'].
  refine (proj1 (joint_closure_covers_each sample_topology [mkSwitchKey 1 1; mkSwitchKey 2 1] limits_defaults c
    (mkSwitchKey 1 1) c' sample_topology_wf ltac:(vm_compute; discriminate) ltac:(vm_compute; discriminate) Hc _
    ltac:(by left) Hc' (of_switch (mkSwitchKey 1 1))) _).
  - vm_compute in Hc. injection Hc as <-. discriminate.
  - vm_compute in Hc'. injection Hc' as <-. left.
Defined.
