(* ===== verification/Candidates.v ===== *)
(** Reconstruction alternatives and their admissibility: the candidate table
    and the planning inputs (include/sff/plan/planner.hpp,
    src/plan/planner.cpp) and the evaluation of the alternatives of one demand
    (evaluate_demand of src/plan/planning_core.cpp). *)

From S2P Require Import Prelude Containers Core Generation Switch Authority Evidence Topology Decision Plan Policy.

(** * The candidate table *)

Record CandidateTable := mkTable { ct_candidates : list ReconstructionCandidate; ct_digest : Z }.

(** [identity_less] of [CandidateTable::build]. *)
Definition identity_less (a b : ReconstructionCandidate) : bool :=
  if negb (bool_decide (rc_dependent a = rc_dependent b)) then ltb (rc_dependent a) (rc_dependent b)
  else if negb (rc_cost a =? rc_cost b) then rc_cost a <? rc_cost b
  else if negb (zlen (rc_hops a) =? zlen (rc_hops b)) then zlen (rc_hops a) <? zlen (rc_hops b)
  else if negb (bool_decide (rc_hops a = rc_hops b)) then vector_less (rc_hops a) (rc_hops b)
  else if negb (bool_decide (rc_links a = rc_links b)) then vector_less (rc_links a) (rc_links b)
  else if negb (rc_capabilities a =? rc_capabilities b) then rc_capabilities a <? rc_capabilities b
  else if negb (bool_decide (rc_covers_failed a = rc_covers_failed b))
       then ltb (rc_covers_failed a) (rc_covers_failed b)
  else rc_evidence a <? rc_evidence b.

(** The predicate [std::unique] is called with. *)
Definition same_alternative (a b : ReconstructionCandidate) : bool :=
  bool_decide (rc_dependent a = rc_dependent b) && bool_decide (rc_covers_failed a = rc_covers_failed b)
  && bool_decide (rc_hops a = rc_hops b) && bool_decide (rc_links a = rc_links b)
  && (rc_cost a =? rc_cost b) && (rc_capabilities a =? rc_capabilities b).

(** The first refusal of the validation loop. *)
Fixpoint validate_candidates (candidates : list ReconstructionCandidate) : Status :=
  match candidates with
  | [] => success
  | c :: rest => let status := candidate_validate c in
                 if negb (status_ok status) then status else validate_candidates rest
  end.

Definition table_digest (candidates : list ReconstructionCandidate) : Z :=
  dig_hi (absorb_each (fun c => absorb_u64 (candidate_digest c)) candidates
    (absorb_u64 (zlen candidates) (absorb_string "sff.candidate-table.v1" digest_init))).

Definition table_build (candidates : list ReconstructionCandidate) (limits : Limits) : Result CandidateTable :=
  let status := limits_validate limits in
  if negb (status_ok status) then Refused status
  else if max_candidates_evaluated limits <? zlen candidates then
    Refused (refuse_exhausted "max_candidates_evaluated" (zlen candidates) (max_candidates_evaluated limits))
  else
    let status := validate_candidates candidates in
    if negb (status_ok status) then Refused status
    else
      let candidates := std_unique same_alternative (std_sort identity_less candidates) in
      Value (mkTable candidates (table_digest candidates)).

(** `for (it = lower; it != end && it->dependent == dependent; ++it)` *)
Fixpoint take_dependent (dependent : DependentRef) (l : list ReconstructionCandidate) :
  list ReconstructionCandidate :=
  match l with
  | c :: rest => if bool_decide (rc_dependent c = dependent) then c :: take_dependent dependent rest else []
  | [] => []
  end.

Definition for_dependent (table : CandidateTable) (dependent : DependentRef) : list ReconstructionCandidate :=
  take_dependent dependent
    (drop (lower_bound_with (fun c => ltb (rc_dependent c) dependent) (ct_candidates table)) (ct_candidates table)).

(** * Planning inputs *)

(** Borrowed pointers are options; the clock pointer is never read. *)
Record PlanInputs := mkInputs {
  pi_topology : option TopologySnapshot;
  pi_candidates : option CandidateTable;
  pi_evidence : option EvidenceStore;
  pi_failures : option FailureTable;
  pi_authority : option AuthorityRegistry;
  pi_limits : Limits;
  pi_assessment : AssessmentPolicy;
  pi_planning : PlanningPolicy;
  pi_epoch : Z;
  pi_boot : BootIncarnation;
  pi_plan_id : Z;
  pi_now_ns : Z
}.

Definition inputs_validate (i : PlanInputs) : Status :=
  match pi_topology i with
  | None => failure Code.Unsupported "planning requires an installed topology"
  | Some _ =>
    match pi_candidates i with
    | None => failure Code.Unsupported "planning requires a supplied candidate table"
    | Some _ =>
      match pi_authority i with
      | None => failure Code.Unsupported "planning requires the authority registry"
      | Some _ =>
        if negb (id_valid (pi_epoch i)) || negb (boot_valid (pi_boot i)) then
          failure Code.Unauthorized "planning requires a current epoch and boot incarnation"
        else limits_validate (pi_limits i)
      end
    end
  end.

Definition inputs_policy_digest (i : PlanInputs) : Z :=
  let a := pi_assessment i in
  let flag (b : bool) : Z := if b then 1 else 0 in
  dig_hi
    (absorb_u64 (match pi_candidates i with Some t => ct_digest t | None => 0 end)
      (absorb_u64 (planning_policy_digest (pi_planning i))
        (absorb_u64 (future_skew_tolerance_ns a)
          (absorb_u64 (flag (require_authoritative_failure_evidence a))
            (absorb_u64 (flag (allow_same_generation_recovery a))
              (absorb_u64 (flag (fence_on_missing_health a))
                (absorb_u64 (flag (fence_on_authoritative_conflict a))
                  (absorb_string "sff.plan-inputs-policy.v1" digest_init)))))))).

(** `*inputs.topology` and the like; the planner only gets here with non-null
    pointers, which [inputs_validate] tests. *)
Definition topology_none : TopologySnapshot :=
  mkTopology 0 [] [] [] [] [] [] (mkStats 0 0 0 0 0 0 0 0 0 0) limits_defaults 0.
Definition in_topology (i : PlanInputs) : TopologySnapshot := default topology_none (pi_topology i).
Definition in_candidates (i : PlanInputs) : CandidateTable := default (mkTable [] 0) (pi_candidates i).
Definition in_authority (i : PlanInputs) : AuthorityRegistry :=
  default (registry_new limits_defaults) (pi_authority i).

Definition empty_evidence : EvidenceStore := store_new limits_defaults false.
Definition empty_failures : FailureTable := [].

Definition assess (i : PlanInputs) (key : SwitchKey) : SwitchAssessment :=
  assess_switch key (default empty_evidence (pi_evidence i)) (default empty_failures (pi_failures i))
    (pi_now_ns i) (pi_assessment i).

Definition required_capabilities (i : PlanInputs) (dependent : DependentRef) : Z :=
  if negb (bool_decide (dep_kind dependent = DependentKind.Path)) then 0
  else match find_path (in_topology i) (dep_id dependent) with
       | Some path => pd_required_capabilities path
       | None => 0
       end.

Definition capacity_of (i : PlanInputs) (key : SwitchKey) : Z :=
  match find_switch (in_topology i) key with Some d => sd_capacity_score d | None => 0 end.

(** * Admissibility of one alternative *)

Record Demand := mkDemand { dm_dependent : DependentRef; dm_failed : SwitchKey }.

#[export] Instance Demand_eq_dec : EqDecision Demand.
Proof. solve_decision. Defined.

Definition demand_less (a b : Demand) : bool :=
  if negb (bool_decide (dm_dependent a = dm_dependent b)) then ltb (dm_dependent a) (dm_dependent b)
  else ltb (dm_failed a) (dm_failed b).

Record CandidateUse := mkUse { cu_candidate : ReconstructionCandidate; cu_capacity_keys : list SwitchKey }.

Record CandidateEligibility := mkEligibility {
  ce_dependent : DependentRef;
  ce_covers_failed : SwitchKey;
  ce_hops : list SwitchKey;
  ce_cost : Z;
  ce_eligible : bool;
  ce_outcome : Code;
  ce_reason : UnresolvedReason;
  ce_detail : string
}.

Definition eligibility_digest (e : CandidateEligibility) : Z :=
  dig_hi
    (absorb_string (ce_detail e)
      (absorb_byte (unresolved_reason_raw (ce_reason e))
        (absorb_byte (wrap8 (code_raw (ce_outcome e)))
          (absorb_bool (ce_eligible e)
            (absorb_u64 (ce_cost e)
              (absorb_each absorb_key (ce_hops e)
                (absorb_u64 (zlen (ce_hops e))
                  (absorb_key (ce_covers_failed e)
                    (absorb_dependent (ce_dependent e)
                      (absorb_string "sff.candidate-eligibility.v1" digest_init)))))))))).

(** The arguments of the lambda [reject]. *)
Record Rejection := mkRejection { rj_outcome : Code; rj_reason : UnresolvedReason; rj_detail : string }.

(** The tests of one hop, in the order of the loop body. *)
Definition capability_rejection (i : PlanInputs) (d : SwitchDescriptor) (c : ReconstructionCandidate)
  (required : Z) : option Rejection :=
  if require_capability_superset (pi_planning i) then
    if negb (has_all_capabilities (sd_capabilities d) required) then
      Some (mkRejection Code.Unsupported UnresolvedReason.CapabilityInsufficient
              "hop generation does not provide the required capability set")
    else if negb (has_all_capabilities (rc_capabilities c) required) then
      Some (mkRejection Code.Unsupported UnresolvedReason.CapabilityInsufficient
              "alternative does not provide the required capability set")
    else None
  else None.

Definition domain_rejection (i : PlanInputs) (failed_descriptor : option SwitchDescriptor) (d : SwitchDescriptor) :
  option Rejection :=
  if negb (allow_replacement_in_same_failure_domain (pi_planning i)) then
    match failed_descriptor with
    | Some f =>
        if negb (id_valid (sd_failure_domain f)) || negb (id_valid (sd_failure_domain d)) then
          Some (mkRejection Code.Denied UnresolvedReason.FailureDomainConflict
                  "failure-domain separation from the failed generation cannot be established")
        else if sd_failure_domain d =? sd_failure_domain f then
          Some (mkRejection Code.Denied UnresolvedReason.FailureDomainConflict
                  "alternative reuses the failed generation failure domain")
        else None
    | None =>
        Some (mkRejection Code.Denied UnresolvedReason.FailureDomainConflict
                "failure-domain separation from the failed generation cannot be established")
    end
  else None.

Definition hop_rejection (i : PlanInputs) (failed : SwitchKey) (failed_descriptor : option SwitchDescriptor)
  (required : Z) (c : ReconstructionCandidate) (hop : SwitchKey) : option Rejection :=
  if bool_decide (hop = failed) then
    Some (mkRejection Code.Fenced UnresolvedReason.BehindFence "alternative reuses the failed generation")
  else
    match find_switch (in_topology i) hop with
    | None =>
        match find_highest_generation (in_topology i) (sk_id hop) with
        | Some _ => Some (mkRejection Code.Stale UnresolvedReason.CandidateGenerationStale
                            "alternative names a superseded generation of a known switch identity")
        | None => Some (mkRejection Code.NotFound UnresolvedReason.HopNotInTopology
                          "alternative names a switch generation the topology does not contain")
        end
    | Some d =>
        if is_fenced (in_authority i) hop then
          Some (mkRejection Code.Fenced UnresolvedReason.BehindFence "alternative crosses a fenced generation")
        else
          let a := assess i hop in
          if bool_decide (sa_outcome a = Code.Conflict) then
            Some (mkRejection Code.Conflict UnresolvedReason.ContradictoryEvidence
                    "authoritative evidence about a hop generation contradicts itself")
          else if sa_fence_required a then
            Some (mkRejection Code.Fenced UnresolvedReason.BehindFence
                    "a hop generation carries a fence obligation")
          else
            match capability_rejection i d c required with
            | Some r => Some r
            | None =>
                match domain_rejection i failed_descriptor d with
                | Some r => Some r
                | None =>
                    if sd_capacity_score d =? 0 then
                      Some (mkRejection Code.Exhausted UnresolvedReason.CapacityExhausted
                              "replacement generation declares no spare capacity")
                    else None
                end
            end
    end.

(** The loop over the hops: the first rejection, or the distinct generations
    whose capacity the alternative consumes. *)
Fixpoint check_hops (reject : SwitchKey -> option Rejection) (hops capacity_keys : list SwitchKey) :
  Rejection + list SwitchKey :=
  match hops with
  | [] => inr capacity_keys
  | hop :: rest =>
      match reject hop with
      | Some r => inl r
      | None => check_hops reject rest (if vector_has hop capacity_keys then capacity_keys else capacity_keys ++ [hop])
      end
  end.

(** The body of the loop over the supplied alternatives. *)
Definition judge_candidate (i : PlanInputs) (demand : Demand) (c : ReconstructionCandidate) :
  Rejection + list SwitchKey :=
  if negb (bool_decide (rc_covers_failed c = dm_failed demand)) then
    if sk_id (rc_covers_failed c) =? sk_id (dm_failed demand) then
      inl (mkRejection Code.Stale UnresolvedReason.CandidateGenerationStale
             "alternative covers a different generation of the same switch identity")
    else
      inl (mkRejection Code.NotFound UnresolvedReason.NoCandidateSupplied
             "alternative does not cover this failed generation")
  else if require_authoritative_candidate_evidence (pi_planning i)
          && negb (bool_decide (trust_of (rc_source c) = TrustLevel.Authoritative)) then
    inl (mkRejection Code.Unauthorized UnresolvedReason.NonAuthoritativeOrigin
           "alternative origin is not an authoritative evidence source")
  else
    check_hops
      (hop_rejection i (dm_failed demand) (find_switch (in_topology i) (dm_failed demand))
         (required_capabilities i (dm_dependent demand)) c)
      (rc_hops c) [].

(** The entry of [evaluation.reports] for one alternative. *)
Definition eligibility_report (demand : Demand) (c : ReconstructionCandidate) (verdict : Rejection + list SwitchKey) :
  CandidateEligibility :=
  match verdict with
  | inl r => mkEligibility (dm_dependent demand) (rc_covers_failed c) (rc_hops c) (rc_cost c) false
               (rj_outcome r) (rj_reason r) (rj_detail r)
  | inr _ => mkEligibility (dm_dependent demand) (rc_covers_failed c) (rc_hops c) (rc_cost c) true
               Code.Ok UnresolvedReason.Unknown "admissible under current generations"
  end.

(** * The alternatives of one demand *)

Record DemandOptions := mkOptions {
  do_demand : Demand;
  do_eligible : list CandidateUse;
  do_reports : list CandidateEligibility;
  do_enumeration_complete : bool;
  do_blocking_reason : UnresolvedReason;
  do_blocking_detail : string
}.

(** The loop over the supplied alternatives: eligible uses and reports in
    input order, and whether the bound cut the enumeration short. *)
Fixpoint enumerate (i : PlanInputs) (demand : Demand) (examined : Z) (supplied : list ReconstructionCandidate)
  (eligible : list CandidateUse) (reports : list CandidateEligibility) :
  list CandidateUse * list CandidateEligibility * bool :=
  match supplied with
  | [] => (eligible, reports, true)
  | c :: rest =>
      if max_candidates_per_dependent (pi_planning i) <=? examined then (eligible, reports, false)
      else
        let verdict := judge_candidate i demand c in
        let reports := reports ++ [eligibility_report demand c verdict] in
        match verdict with
        | inl _ => enumerate i demand (examined + 1) rest eligible reports
        | inr keys => enumerate i demand (examined + 1) rest (eligible ++ [mkUse c keys]) reports
        end
  end.

Definition candidate_order_less (a b : ReconstructionCandidate) : bool :=
  if negb (rc_cost a =? rc_cost b) then rc_cost a <? rc_cost b
  else if negb (zlen (rc_hops a) =? zlen (rc_hops b)) then zlen (rc_hops a) <? zlen (rc_hops b)
  else if negb (bool_decide (rc_hops a = rc_hops b)) then vector_less (rc_hops a) (rc_hops b)
  else if negb (bool_decide (rc_links a = rc_links b)) then vector_less (rc_links a) (rc_links b)
  else if negb (rc_capabilities a =? rc_capabilities b) then rc_capabilities a <? rc_capabilities b
  else rc_evidence a <? rc_evidence b.

Definition use_less (a b : CandidateUse) : bool := candidate_order_less (cu_candidate a) (cu_candidate b).

(** The first ineligible report the predicate accepts. *)
Definition first_refusal (p : CandidateEligibility -> bool) (reports : list CandidateEligibility) :
  option CandidateEligibility :=
  snd <$> list_find (fun r => negb (ce_eligible r) && p r = true) reports.

Definition blocking (reports : list CandidateEligibility) (complete : bool) : UnresolvedReason * string :=
  let block := (UnresolvedReason.NoCandidateSupplied, "no admissible reconstruction alternative is available"%string) in
  let block :=
    match first_refusal (fun r => is_proven_negative (ce_reason r)) reports with
    | Some r => (ce_reason r, ce_detail r)
    | None => block
    end in
  let block :=
    if bool_decide (block.1 = UnresolvedReason.NoCandidateSupplied) && negb (bool_decide (zlen reports = 0)) then
      match first_refusal (fun _ => true) reports with
      | Some r => (ce_reason r, ce_detail r)
      | None => block
      end
    else block in
  if negb complete then
    (UnresolvedReason.SearchLimitReached, "candidate enumeration was cut short by a declared bound"%string)
  else block.

Definition evaluate_demand (i : PlanInputs) (demand : Demand) : DemandOptions :=
  let '(eligible, reports, complete) :=
    enumerate i demand 0 (for_dependent (in_candidates i) (dm_dependent demand)) [] [] in
  let block := blocking reports complete in
  mkOptions demand (std_sort use_less eligible) reports complete block.1 block.2.

Definition evaluate_candidates (dependent : DependentRef) (failed : SwitchKey) (i : PlanInputs) :
  list CandidateEligibility :=
  do_reports (evaluate_demand i (mkDemand dependent failed)).

(** * Admissibility *)

(** What the hop tests establish about a hop. *)
Record hop_admissible (i : PlanInputs) (demand : Demand) (c : ReconstructionCandidate) (hop : SwitchKey)
  (d : SwitchDescriptor) : Prop := {
  ha_other : hop <> dm_failed demand;
  ha_installed : find_switch (in_topology i) hop = Some d;
  ha_unfenced : is_fenced (in_authority i) hop = false;
  ha_consistent : sa_outcome (assess i hop) <> Code.Conflict;
  ha_healthy : sa_fence_required (assess i hop) = false;
  ha_capable : require_capability_superset (pi_planning i) = true ->
    has_all_capabilities (sd_capabilities d) (required_capabilities i (dm_dependent demand)) = true /\
    has_all_capabilities (rc_capabilities c) (required_capabilities i (dm_dependent demand)) = true;
  ha_separated : allow_replacement_in_same_failure_domain (pi_planning i) = false ->
    exists f, find_switch (in_topology i) (dm_failed demand) = Some f /\ sd_failure_domain f <> 0 /\
      sd_failure_domain d <> 0 /\ sd_failure_domain d <> sd_failure_domain f;
  ha_capacity : sd_capacity_score d <> 0
}.

(** The alternatives the planner may choose for a demand. *)
Record admissible (i : PlanInputs) (demand : Demand) (c : ReconstructionCandidate) : Prop := {
  ad_covers : rc_covers_failed c = dm_failed demand;
  ad_origin : require_authoritative_candidate_evidence (pi_planning i) = true ->
    trust_of (rc_source c) = TrustLevel.Authoritative;
  ad_hops : forall hop, hop ∈ rc_hops c -> exists d, hop_admissible i demand c hop d
}.

Lemma capability_none i d c required :
  capability_rejection i d c required = None <->
  (require_capability_superset (pi_planning i) = true ->
   has_all_capabilities (sd_capabilities d) required = true /\ has_all_capabilities (rc_capabilities c) required = true).
Proof.
  unfold capability_rejection. destruct (require_capability_superset _); [|naive_solver].
  destruct (has_all_capabilities (sd_capabilities d) required), (has_all_capabilities (rc_capabilities c) required);
    naive_solver.
Qed.

Lemma domain_none i f d :
  domain_rejection i f d = None <->
  (allow_replacement_in_same_failure_domain (pi_planning i) = false ->
   exists e, f = Some e /\ sd_failure_domain e <> 0 /\ sd_failure_domain d <> 0 /\
     sd_failure_domain d <> sd_failure_domain e).
Proof.
  unfold domain_rejection, id_valid. destruct (allow_replacement_in_same_failure_domain _); [naive_solver|].
  destruct f as [e|]; [|naive_solver]. cbn [negb].
  destruct (Z.eqb_spec (sd_failure_domain e) 0), (Z.eqb_spec (sd_failure_domain d) 0); cbn [negb orb];
    try naive_solver.
  destruct (Z.eqb_spec (sd_failure_domain d) (sd_failure_domain e)); naive_solver.
Qed.

Lemma hop_none i demand c hop :
  hop_rejection i (dm_failed demand) (find_switch (in_topology i) (dm_failed demand))
    (required_capabilities i (dm_dependent demand)) c hop = None <->
  exists d, hop_admissible i demand c hop d.
Proof.
  unfold hop_rejection. split.
  - case_bool_decide as Ho; [done|]. destruct (find_switch (in_topology i) hop) as [d|] eqn:Hd; [|by case_match].
    destruct (is_fenced _ hop) eqn:Hf; [done|]. cbv zeta. case_bool_decide as Hc; [done|].
    destruct (sa_fence_required _) eqn:Hr; [done|].
    destruct (capability_rejection _ _ _ _) eqn:Hk; [done|]. destruct (domain_rejection _ _ _) eqn:Hm; [done|].
    destruct (Z.eqb_spec (sd_capacity_score d) 0); [done|]. intros _. exists d.
    split; try done; [by apply capability_none|by apply (domain_none i)].
  - intros (d & [H1 H2 H3 H4 H5 H6 H7 H8]). rewrite bool_decide_eq_false_2, H2, H3 by done. cbv zeta.
    rewrite bool_decide_eq_false_2, H5 by done.
    rewrite (proj2 (capability_none _ _ _ _) H6), (proj2 (domain_none _ _ _) H7).
    by rewrite (proj2 (Z.eqb_neq _ _)).
Qed.

(** Distinct elements in order of first occurrence. *)
Definition first_occurrences (hops keys : list SwitchKey) : list SwitchKey :=
  foldl (fun keys hop => if vector_has hop keys then keys else keys ++ [hop]) keys hops.

Lemma check_hops_spec reject hops keys :
  match check_hops reject hops keys with
  | inl _ => exists hop, hop ∈ hops /\ reject hop <> None
  | inr ks => (forall hop, hop ∈ hops -> reject hop = None) /\ ks = first_occurrences hops keys
  end.
Proof.
  revert keys. induction hops as [|hop hops IH]; intros keys; simpl.
  - split; [by intros ? ?%not_elem_of_nil|done].
  - destruct (reject hop) as [r|] eqn:E; [exists hop; split; [by left|congruence]|].
    specialize (IH (if vector_has hop keys then keys else keys ++ [hop])).
    destruct (check_hops _ _ _) as [r|ks].
    + destruct IH as (h & Hh & Hr). exists h. split; [by right|done].
    + destruct IH as [Hall ->]. split; [|done]. intros h [->|Hh]%elem_of_cons; [done|by apply Hall].
Qed.

Lemma first_occurrences_spec hops keys : NoDup keys ->
  NoDup (first_occurrences hops keys) /\
  forall k, k ∈ first_occurrences hops keys <-> k ∈ keys \/ k ∈ hops.
Proof.
  unfold first_occurrences. revert keys. induction hops as [|hop hops IH]; intros keys Hk; simpl.
  - split; [done|]. intros k. set_solver.
  - destruct (vector_has hop keys) eqn:E.
    + apply vector_has_spec in E. destruct (IH keys Hk) as [H1 H2]. split; [done|]. intros k. rewrite H2. set_solver.
    + assert (hop ∉ keys) by (rewrite <- vector_has_spec, E; done).
      destruct (IH (keys ++ [hop])) as [H1 H2].
      { apply NoDup_app. split; [done|]. split; [set_solver|apply NoDup_singleton]. }
      split; [done|]. intros k. rewrite H2. set_solver.
Qed.

Lemma judge_spec i demand c :
  match judge_candidate i demand c with
  | inl _ => ~ admissible i demand c
  | inr keys => admissible i demand c /\ keys = first_occurrences (rc_hops c) []
  end.
Proof.
  unfold judge_candidate. case_bool_decide as Hc; cbn [negb]; [|destruct (_ =? _); by intros [? _ _]].
  destruct (require_authoritative_candidate_evidence _ && _) eqn:Ha.
  { apply andb_true_iff in Ha as [Ha1 Ha2]. rewrite negb_true_iff, bool_decide_eq_false in Ha2. intros [_ H _]. auto. }
  pose proof (check_hops_spec (hop_rejection i (dm_failed demand) (find_switch (in_topology i) (dm_failed demand))
         (required_capabilities i (dm_dependent demand)) c) (rc_hops c) []) as H.
  destruct (check_hops _ _ _) as [r|ks].
  - destruct H as (hop & Hin & Hr). intros [_ _ Hh]. by apply Hr, hop_none, Hh.
  - destruct H as [Hall ->]. split; [|done]. split; [done| |].
    + intros Ht. rewrite Ht in Ha. simpl in Ha. by rewrite negb_false_iff, bool_decide_eq_true in Ha.
    + intros hop Hin. by apply hop_none, Hall.
Qed.

(** * Enumeration *)

(** The uses and reports of a list of alternatives. *)
Definition use_of (i : PlanInputs) (demand : Demand) (c : ReconstructionCandidate) : option CandidateUse :=
  match judge_candidate i demand c with inr keys => Some (mkUse c keys) | inl _ => None end.

Lemma enumerate_spec i demand supplied examined eligible reports :
  let seen := take (Z.to_nat (max_candidates_per_dependent (pi_planning i) - examined)) supplied in
  enumerate i demand examined supplied eligible reports =
    (eligible ++ omap (use_of i demand) seen,
     reports ++ ((fun c => eligibility_report demand c (judge_candidate i demand c)) <$> seen),
     bool_decide (zlen seen = zlen supplied)).
Proof.
  revert examined eligible reports. induction supplied as [|c supplied IH]; intros examined eligible reports; cbv zeta.
  { rewrite take_nil. simpl. by rewrite !app_nil_r. }
  cbn [enumerate]. destruct (Z.leb_spec (max_candidates_per_dependent (pi_planning i)) examined) as [H|H].
  - replace (Z.to_nat _) with 0%nat by lia. cbn [take omap list_omap fmap list_fmap].
    rewrite !app_nil_r, bool_decide_eq_false_2; [done|].
    rewrite zlen_nil, zlen_cons. pose proof (zlen_nonneg supplied). lia.
  - replace (Z.to_nat (max_candidates_per_dependent (pi_planning i) - examined))
      with (S (Z.to_nat (max_candidates_per_dependent (pi_planning i) - (examined + 1)))) by lia.
    cbn [take]. cbn [omap list_omap fmap list_fmap]. unfold use_of at 1.
    assert (Hb : forall l, bool_decide (zlen (c :: l) = zlen (c :: supplied)) = bool_decide (zlen l = zlen supplied)).
    { intros l. apply bool_decide_ext. rewrite !zlen_cons. lia. }
    rewrite Hb. destruct (judge_candidate i demand c) as [r|keys] eqn:E; rewrite IH; cbv zeta;
      rewrite <- ?app_assoc; done.
Qed.

(** ** The order of alternatives *)

Definition candidate_key (c : ReconstructionCandidate) :=
  (rc_cost c, (zlen (rc_hops c), (rc_hops c, (rc_links c, (rc_capabilities c, rc_evidence c))))).

Lemma candidate_order_key a b : candidate_order_less a b = ltb (candidate_key a) (candidate_key b).
Proof. unfold candidate_order_less, candidate_key. rewrite !eqb_decide. by rewrite !ltb_pair. Qed.

Definition use_key (u : CandidateUse) := candidate_key (cu_candidate u).

(** Everything [same_alternative] compares, in the order of [identity_less]. *)
Definition alternative_key (c : ReconstructionCandidate) :=
  (rc_dependent c, (rc_cost c, (zlen (rc_hops c), (rc_hops c, (rc_links c, (rc_capabilities c, rc_covers_failed c)))))).

Definition identity_key (c : ReconstructionCandidate) :=
  (rc_dependent c, (rc_cost c, (zlen (rc_hops c), (rc_hops c, (rc_links c, (rc_capabilities c,
    (rc_covers_failed c, rc_evidence c))))))).

Lemma identity_less_key a b : identity_less a b = ltb (identity_key a) (identity_key b).
Proof. unfold identity_less, identity_key. rewrite !eqb_decide. by rewrite !ltb_pair. Qed.

Lemma same_alternative_key a b : same_alternative a b = true <-> alternative_key a = alternative_key b.
Proof.
  unfold same_alternative, alternative_key. rewrite !andb_true_iff, !bool_decide_eq_true, !Z.eqb_eq. split.
  - intros [[[[[-> ->] ->] ->] ->] ->]. done.
  - intros [= -> -> _ -> -> -> ->]. done.
Qed.

(** Sorting only depends on the values of the order. *)
Lemma std_sort_ext {A} (f g : A -> A -> bool) l : (forall a b, f a b = g a b) -> std_sort f l = std_sort g l.
Proof.
  intros H. induction l as [|x l IH]; simpl; [done|]. rewrite IH. clear IH.
  induction (std_sort g l) as [|y k IHk]; simpl; [done|]. by rewrite H, IHk.
Qed.

Lemma sorted_mono {A} (R S : A -> A -> Prop) l : (forall a b, R a b -> S a b) -> StronglySorted R l -> StronglySorted S l.
Proof. intros H. induction 1 as [|x l Hs IH Hall]; constructor; [done|]. eapply Forall_impl; [exact Hall|]. auto. Qed.

Lemma eligible_sorted i demand : sorted_by (fun a b => ltb (use_key a) (use_key b)) (do_eligible (evaluate_demand i demand)).
Proof.
  unfold evaluate_demand. rewrite enumerate_spec. cbn [do_eligible].
  rewrite (std_sort_ext _ (fun a b => ltb (use_key a) (use_key b))) by (intros; apply candidate_order_key).
  apply std_sort_key_sorted.
Qed.

Lemma elem_of_eligible i demand u :
  u ∈ do_eligible (evaluate_demand i demand) <->
  exists c, c ∈ take (Z.to_nat (max_candidates_per_dependent (pi_planning i)))
                  (for_dependent (in_candidates i) (dm_dependent demand)) /\
    admissible i demand c /\ u = mkUse c (first_occurrences (rc_hops c) []).
Proof.
  unfold evaluate_demand. rewrite enumerate_spec. cbn [do_eligible]. rewrite Z.sub_0_r.
  rewrite (std_sort_ext _ (fun a b => ltb (use_key a) (use_key b))) by (intros; apply candidate_order_key).
  rewrite std_sort_key_perm. cbn [app]. rewrite list_elem_of_omap. split.
  - intros (c & Hc & Hu). exists c. split; [done|]. unfold use_of in Hu. pose proof (judge_spec i demand c) as Hj.
    destruct (judge_candidate i demand c) as [r|keys]; [done|]. injection Hu as <-. by destruct Hj as [? ->].
  - intros (c & Hc & Ha & ->). exists c. split; [done|]. unfold use_of. pose proof (judge_spec i demand c) as Hj.
    destruct (judge_candidate i demand c) as [r|keys]; [done|]. by destruct Hj as [? ->].
Qed.

(** ** The table *)

Lemma filter_none {A} (P : A -> Prop) `{!forall x, base.Decision (P x)} l : Forall (fun x => ~ P x) l -> filter P l = [].
Proof. induction 1 as [|x l Hx _ IH]; [done|]. rewrite filter_cons. by destruct (decide (P x)). Qed.

Section tables.
Context (l : list ReconstructionCandidate).
Context (Hl : StronglySorted (fun a b => ltb (alternative_key a) (alternative_key b) = true) l).

Lemma dependents_sorted a b : ltb (alternative_key a) (alternative_key b) = true ->
  ltb (rc_dependent b) (rc_dependent a) = false.
Proof.
  unfold alternative_key. rewrite ltb_pair. case_bool_decide as He; cbn [negb].
  - rewrite He. intros _. apply less_irrefl.
  - intros H. by apply (less_asym ltb).
Qed.

Lemma for_dependent_filter digest d : for_dependent (mkTable l digest) d = filter (fun c => rc_dependent c = d) l.
Proof.
  unfold for_dependent. cbn [ct_candidates]. induction Hl as [|c k Hk IH Hall]; [done|].
  cbn [lower_bound_with]. rewrite filter_cons. destruct (ltb (rc_dependent c) d) eqn:E.
  - cbn [drop]. rewrite IH by done. destruct (decide (rc_dependent c = d)) as [He|]; [|done].
    by rewrite He, less_irrefl in E.
  - cbn [drop take_dependent]. clear IH. assert (Hge : Forall (fun b => ltb (rc_dependent b) (rc_dependent c) = false) k).
    { eapply Forall_impl; [exact Hall|]. intros b. apply dependents_sorted. }
    clear Hall. destruct (decide (rc_dependent c = d)) as [<-|Hne].
    + rewrite bool_decide_eq_true_2 by done. f_equal. clear E. clear -Hk Hge.
      induction Hk as [|b k Hk IH Hall]; [done|]. inversion_clear Hge as [|? ? Hb Hge'].
      cbn [take_dependent]. rewrite filter_cons. destruct (decide (rc_dependent b = rc_dependent c)) as [Hbc|Hbc].
      * rewrite bool_decide_eq_true_2 by done. by rewrite IH.
      * rewrite bool_decide_eq_false_2 by done. symmetry. apply filter_none.
        eapply Forall_impl; [exact Hall|]. intros e He%dependents_sorted Heq. rewrite Heq in He.
        apply Hbc. by apply (less_total (less := ltb)).
    + rewrite bool_decide_eq_false_2 by done. symmetry. apply filter_none.
      assert (Hlt : ltb d (rc_dependent c) = true).
      { destruct (less_cases ltb d (rc_dependent c)) as [?|[?|?]]; congruence. }
      eapply Forall_impl; [exact Hge|]. intros b Hb Hbd. cbv beta in *. rewrite Hbd in Hb. congruence.
Qed.
End tables.

Lemma sorted_lookup {A} (R : A -> A -> Prop) l j k a b : StronglySorted R l ->
  l !! j = Some a -> l !! k = Some b -> (j < k)%nat -> R a b.
Proof.
  intros Hs. revert j k. induction Hs as [|x l Hs IH Hall]; intros j k Hj Hk Hlt; [done|].
  destruct k as [|k]; [lia|]. destruct j as [|j]; simpl in *.
  - injection Hj as ->. rewrite Forall_forall in Hall. apply Hall. by eapply list_elem_of_lookup_2.
  - eapply IH; [exact Hj|exact Hk|lia].
Qed.

Lemma alternative_of_identity a b : ltb (identity_key b) (identity_key a) = false ->
  ltb (alternative_key b) (alternative_key a) = false.
Proof.
  unfold identity_key, alternative_key. rewrite !ltb_pair.
  repeat (case_bool_decide; cbn [negb]; [|done]). intros _.
  match goal with Hc : rc_covers_failed _ = rc_covers_failed _ |- _ => rewrite Hc end. apply less_irrefl.
Qed.

Lemma validate_candidates_ok l : status_ok (validate_candidates l) = true <->
  Forall (fun c => status_ok (candidate_validate c) = true) l.
Proof.
  induction l as [|c l IH]; simpl; [done|]. rewrite Forall_cons.
  destruct (status_ok (candidate_validate c)) eqn:E; cbn [negb]; [rewrite IH; naive_solver|].
  rewrite E. naive_solver.
Qed.

Lemma table_build_sorted candidates limits t : table_build candidates limits = Value t ->
  StronglySorted (fun a b => ltb (alternative_key a) (alternative_key b) = true) (ct_candidates t) /\
  (forall c, c ∈ ct_candidates t -> c ∈ candidates) /\
  (forall c, c ∈ candidates -> exists c', c' ∈ ct_candidates t /\ same_alternative c' c = true) /\
  Forall (fun c => status_ok (candidate_validate c) = true) candidates.
Proof.
  unfold table_build. destruct (status_ok (limits_validate limits)); cbn [negb]; [|done].
  destruct (_ <? _); [done|]. destruct (status_ok (validate_candidates candidates)) eqn:Ev; cbn [negb]; [|done].
  apply validate_candidates_ok in Ev. intros [= <-]. cbn [ct_candidates].
  rewrite (std_sort_ext _ (fun a b => ltb (identity_key a) (identity_key b))) by apply identity_less_key.
  pose proof (std_sort_key_sorted identity_key candidates) as Hs.
  pose proof (std_sort_key_perm identity_key candidates) as Hp.
  set (sorted := std_sort _ candidates) in *.
  assert (Ha : sorted_by (fun a b => ltb (alternative_key a) (alternative_key b)) sorted).
  { eapply sorted_mono; [|exact Hs]. intros a b. apply alternative_of_identity. }
  destruct (std_unique_key alternative_key same_alternative same_alternative_key sorted Ha) as (H1 & H2 & H3).
  split; [done|]. split; [|split; [|done]].
  - intros c ?%H2. by rewrite Hp in *.
  - intros c Hc. destruct (H3 c) as (c' & ? & ?); [by rewrite Hp|]. exists c'. split; [done|]. by apply same_alternative_key.
Qed.

(** * Properties *)

(** The candidate table answers exactly: a built table contains only
    supplied, valid alternatives, keeps one entry for every supplied one (an
    entry equal in everything but evidence and origin), holds no two entries
    for the same alternative, and [for_dependent] returns precisely the entries
    of that dependent in canonical order. *)
Theorem candidate_table_exact candidates limits t :
  table_build candidates limits = Value t ->
  (forall c, c ∈ ct_candidates t -> c ∈ candidates /\ status_ok (candidate_validate c) = true) /\
  (forall c, c ∈ candidates -> exists c', c' ∈ ct_candidates t /\ same_alternative c' c = true) /\
  (forall j k a b, ct_candidates t !! j = Some a -> ct_candidates t !! k = Some b ->
     same_alternative a b = true -> j = k) /\
  (forall d, for_dependent t d = filter (fun c => rc_dependent c = d) (ct_candidates t)).
Proof.
  intros Ht. destruct (table_build_sorted _ _ _ Ht) as (H1 & H2 & H3 & H4). rewrite Forall_forall in H4.
  split; [auto|]. split; [done|]. split; [|intros d; destruct t; by apply for_dependent_filter].
  intros j k a b Hj Hk Hab%same_alternative_key. destruct (Nat.lt_trichotomy j k) as [Hlt|[|Hlt]]; [|done|].
  - pose proof (sorted_lookup _ _ _ _ _ _ H1 Hj Hk Hlt) as H. simpl in H.
    by rewrite Hab, less_irrefl in H.
  - pose proof (sorted_lookup _ _ _ _ _ _ H1 Hk Hj Hlt) as H. simpl in H.
    by rewrite Hab, less_irrefl in H.
Qed.

(** The planner's choice for a demand is limited to admissible alternatives
    and misses none. Every eligible alternative was supplied for that
    dependent, covers exactly the failed generation, comes from an
    authoritative source when the policy demands it, and crosses only installed
    generations that are neither the failed one, nor fenced, nor conflicting,
    nor under a fence obligation, that provide the required capabilities, lie in
    another failure domain and have spare capacity; it consumes each generation
    it crosses once. When the enumeration is reported complete every such
    alternative is eligible; it is reported incomplete only when more
    alternatives were supplied than the bound allows. The eligible alternatives
    are ordered cheapest first. *)
Theorem eligible_alternatives_exact i demand :
  let o := evaluate_demand i demand in
  let supplied := for_dependent (in_candidates i) (dm_dependent demand) in
  (forall u, u ∈ do_eligible o ->
     cu_candidate u ∈ supplied /\ admissible i demand (cu_candidate u) /\
     NoDup (cu_capacity_keys u) /\ (forall k, k ∈ cu_capacity_keys u <-> k ∈ rc_hops (cu_candidate u))) /\
  (do_enumeration_complete o = true ->
     forall c, c ∈ supplied -> admissible i demand c -> exists u, u ∈ do_eligible o /\ cu_candidate u = c) /\
  (do_enumeration_complete o = false -> max_candidates_per_dependent (pi_planning i) < zlen supplied) /\
  sorted_by use_less (do_eligible o).
Proof.
  cbv zeta. split; [|split; [|split]].
  - intros u (c & Hc & Ha & ->)%elem_of_eligible. cbn [cu_candidate cu_capacity_keys].
    destruct (first_occurrences_spec (rc_hops c) [] (NoDup_nil_2)) as [Hn Hk].
    split; [by eapply elem_of_take in Hc as (? & ? & _); eapply list_elem_of_lookup_2|].
    split; [done|]. split; [done|]. intros k. rewrite Hk. set_solver.
  - intros Hc c Hin Ha. exists (mkUse c (first_occurrences (rc_hops c) [])). split; [|done].
    apply elem_of_eligible. exists c. split; [|done]. revert Hc. unfold evaluate_demand.
    rewrite enumerate_spec, Z.sub_0_r. cbn [do_enumeration_complete]. rewrite bool_decide_eq_true.
    intros Hz. rewrite take_ge; [done|]. unfold zlen in Hz. rewrite length_take in Hz. lia.
  - unfold evaluate_demand. rewrite enumerate_spec, Z.sub_0_r. cbn [do_enumeration_complete].
    rewrite bool_decide_eq_false. unfold zlen. rewrite length_take. lia.
  - eapply sorted_mono; [|apply eligible_sorted]. intros a b. unfold use_less. by rewrite candidate_order_key.
Qed.
