(* ===== verification/Search.v ===== *)
(** The bounded backtracking search over one component of demands
    (Assignment, summarise and ComponentSearch of src/plan/planning_core.cpp),
    and its optimality. *)

From S2P Require Import Prelude Containers Core Generation Plan Candidates.

(** * Assignments *)

Definition kSkipped : Z := SIZE_MAX.

Record Assignment := mkAssignment {
  as_choice : list Z;
  as_skipped : Z;
  as_cost : Z;
  as_hops : Z
}.

Definition assignment_better (a b : Assignment) : bool :=
  if negb (as_skipped a =? as_skipped b) then as_skipped a <? as_skipped b
  else if negb (as_cost a =? as_cost b) then as_cost a <? as_cost b
  else if negb (as_hops a =? as_hops b) then as_hops a <? as_hops b
  else vector_less (as_choice a) (as_choice b).

(** `cost > UINT64_MAX - added ? UINT64_MAX : cost + added` *)
Definition saturating_add (cost added : Z) : Z :=
  if UINT64_MAX - added <? cost then UINT64_MAX else cost + added.

(** The alternative an entry of a choice vector selects. *)
Definition selected_use (option_ : DemandOptions) (selected : Z) : option CandidateUse :=
  if selected =? kSkipped then None else do_eligible option_ !! Z.to_nat selected.

Definition account_use (a : Assignment) (use : CandidateUse) (selected : Z) : Assignment :=
  mkAssignment (as_choice a ++ [selected]) (as_skipped a)
    (saturating_add (as_cost a) (rc_cost (cu_candidate use)))
    (add64 (as_hops a) (zlen (rc_hops (cu_candidate use)))).

Definition account_skip (a : Assignment) : Assignment :=
  mkAssignment (as_choice a ++ [kSkipped]) (as_skipped a + 1) (as_cost a) (as_hops a).

(** The body of the loop of [summarise]. *)
Definition summarise_step (a : Assignment) (e : DemandOptions * Z) : Assignment :=
  match selected_use e.1 e.2 with
  | Some use => account_use a use e.2
  | None => account_skip a
  end.

Definition assignment_empty : Assignment := mkAssignment [] 0 0 0.

Definition summarise (choice : list Z) (evaluations : list DemandOptions) : Assignment :=
  foldl summarise_step assignment_empty (zip evaluations choice).

(** * The search *)

Abbreviation UseCounts := (list (SwitchKey * Z)).

Record SearchState := mkSearch {
  ss_used : UseCounts;
  ss_remaining : Z;
  ss_nodes : Z;
  ss_exhausted : bool;
  ss_have_best : bool;
  ss_choices : list Z;
  ss_best : Assignment
}.

Definition used_at (used : UseCounts) (key : SwitchKey) : Z := default 0 (map_find key used).

(** `for (key : keys) used_[key] = used_[key] + 1;` *)
Definition occupy (keys : list SwitchKey) (used : UseCounts) : UseCounts :=
  foldl (fun m k => map_set k (wrap32 (used_at m k + 1)) m) used keys.

(** `for (key : keys) { used_[key] = used_[key] - 1; if (used_[key] == 0) used_.erase(key); }` *)
Definition release (keys : list SwitchKey) (used : UseCounts) : UseCounts :=
  foldl (fun m k => let count := wrap32 (used_at m k - 1) in
                    if count =? 0 then map_erase k m else map_set k count m) used keys.

(** The loop that computes [fits]. *)
Definition fits (capacity used : UseCounts) (use : CandidateUse) : bool :=
  forallb (fun k => match map_find k capacity with
                    | None => true
                    | Some limit => negb (limit <=? used_at used k)
                    end) (cu_capacity_keys use).

Definition search_spend (s : SearchState) : SearchState :=
  mkSearch (ss_used s) (ss_remaining s - 1) (ss_nodes s + 1) (ss_exhausted s) (ss_have_best s) (ss_choices s)
    (ss_best s).

Definition search_stop (s : SearchState) : SearchState :=
  mkSearch (ss_used s) (ss_remaining s) (ss_nodes s) false (ss_have_best s) (ss_choices s) (ss_best s).

Definition search_choose (position : nat) (selected : Z) (s : SearchState) : SearchState :=
  mkSearch (ss_used s) (ss_remaining s) (ss_nodes s) (ss_exhausted s) (ss_have_best s)
    (<[position := selected]> (ss_choices s)) (ss_best s).

Definition search_used (f : UseCounts -> UseCounts) (s : SearchState) : SearchState :=
  mkSearch (f (ss_used s)) (ss_remaining s) (ss_nodes s) (ss_exhausted s) (ss_have_best s) (ss_choices s)
    (ss_best s).

(** At a leaf: keep the better of the current choice and the best so far. *)
Definition search_leaf (evaluations : list DemandOptions) (s : SearchState) : SearchState :=
  let candidate := summarise (ss_choices s) evaluations in
  if negb (ss_have_best s) || assignment_better candidate (ss_best s) then
    mkSearch (ss_used s) (ss_remaining s) (ss_nodes s) (ss_exhausted s) true (ss_choices s) candidate
  else s.

(** The tests [dfs] starts with: true when it returns at once. *)
Definition search_prunes (s : SearchState) (partial_skipped partial_cost : Z) : bool :=
  negb (ss_exhausted s)
  || (ss_have_best s && (as_skipped (ss_best s) <? partial_skipped))
  || (ss_have_best s && (partial_skipped =? as_skipped (ss_best s)) && (as_cost (ss_best s) <? partial_cost)).

(** The loop of [dfs] over the eligible alternatives from [index], followed by
    the branch that skips the demand; [descend] is the recursive call. *)
Fixpoint try_options (capacity : UseCounts) (position : nat) (partial_skipped partial_cost partial_hops : Z)
  (descend : Z -> Z -> Z -> SearchState -> SearchState) (index : Z) (uses : list CandidateUse) (s : SearchState) :
  SearchState :=
  match uses with
  | [] =>
      if ss_remaining s =? 0 then search_stop s
      else descend (partial_skipped + 1) partial_cost partial_hops
             (search_choose position kSkipped (search_spend s))
  | use :: rest =>
      if ss_remaining s =? 0 then search_stop s
      else
        let s := search_spend s in
        if negb (fits capacity (ss_used s) use) then
          try_options capacity position partial_skipped partial_cost partial_hops descend (index + 1) rest s
        else
          let s := search_choose position index (search_used (occupy (cu_capacity_keys use)) s) in
          let s := descend partial_skipped (saturating_add partial_cost (rc_cost (cu_candidate use)))
                     (add64 partial_hops (zlen (rc_hops (cu_candidate use)))) s in
          let s := search_used (release (cu_capacity_keys use)) s in
          if negb (ss_exhausted s) then search_choose position kSkipped s
          else try_options capacity position partial_skipped partial_cost partial_hops descend (index + 1) rest s
  end.

(** [dfs]; [remaining] are the evaluations from [position] on. *)
Fixpoint dfs (capacity : UseCounts) (evaluations remaining : list DemandOptions) (position : nat)
  (partial_skipped partial_cost partial_hops : Z) (s : SearchState) : SearchState :=
  if search_prunes s partial_skipped partial_cost then s
  else match remaining with
       | [] => search_leaf evaluations s
       | evaluation :: rest =>
           try_options capacity position partial_skipped partial_cost partial_hops
             (dfs capacity evaluations rest (S position)) 0 (do_eligible evaluation) s
       end.

(** [ComponentSearch::run]: the best assignment, whether the space was
    exhausted, the nodes visited and the budget left. *)
Definition run (capacity : UseCounts) (evaluations : list DemandOptions) (budget : Z) : SearchState :=
  dfs capacity evaluations evaluations 0 0 0 0
    (mkSearch [] budget 0 true false (replicate (length evaluations) kSkipped)
       (mkAssignment (replicate (length evaluations) kSkipped) 0 0 0)).

(** * The space of assignments *)

(** Entries of a choice vector the search can produce. *)
Definition valid_choice (option_ : DemandOptions) (selected : Z) : Prop :=
  selected = kSkipped \/ 0 <= selected < zlen (do_eligible option_).

Definition count_use (k : SwitchKey) (option_ : DemandOptions) (selected : Z) : Z :=
  match selected_use option_ selected with
  | Some use => if bool_decide (k ∈ cu_capacity_keys use) then 1 else 0
  | None => 0
  end.

(** How many of the chosen alternatives consume capacity of a generation. *)
Fixpoint usage (k : SwitchKey) (evaluations : list DemandOptions) (choice : list Z) : Z :=
  match evaluations, choice with
  | e :: es, c :: cs => count_use k e c + usage k es cs
  | _, _ => 0
  end.

(** The assignments that respect every capacity. *)
Definition feasible (capacity : UseCounts) (evaluations : list DemandOptions) (choice : list Z) : Prop :=
  Forall2 valid_choice evaluations choice /\
  forall k limit, map_find k capacity = Some limit -> usage k evaluations choice <= limit.

(** What the search relies on: alternative indices are distinct from
    [kSkipped], costs are non-negative and an alternative counts a generation
    once. *)
Record options_ok (option_ : DemandOptions) : Prop := {
  oo_count : zlen (do_eligible option_) < SIZE_MAX;
  oo_cost : Forall (fun u => 0 <= rc_cost (cu_candidate u)) (do_eligible option_);
  oo_keys : Forall (fun u => NoDup (cu_capacity_keys u)) (do_eligible option_)
}.

Definition assignment_key (a : Assignment) := (as_skipped a, (as_cost a, (as_hops a, as_choice a))).

Lemma assignment_better_key a b : assignment_better a b = ltb (assignment_key a) (assignment_key b).
Proof. unfold assignment_better, assignment_key. rewrite !eqb_decide. by rewrite !ltb_pair. Qed.

Lemma count_use_bound k e c : 0 <= count_use k e c <= 1.
Proof. unfold count_use. destruct (selected_use e c) as [u|]; [|lia]. case_bool_decide; lia. Qed.

Lemma usage_bound k es cs : 0 <= usage k es cs <= zlen es.
Proof.
  revert cs. induction es as [|e es IH]; intros cs; [by destruct cs|]. rewrite zlen_cons. pose proof (zlen_nonneg es).
  destruct cs as [|c cs]; cbn [usage]; [lia|]. specialize (IH cs). pose proof (count_use_bound k e c). lia.
Qed.

Lemma usage_app k es1 es2 cs1 cs2 : length es1 = length cs1 ->
  usage k (es1 ++ es2) (cs1 ++ cs2) = usage k es1 cs1 + usage k es2 cs2.
Proof.
  revert cs1. induction es1 as [|e es1 IH]; intros [|c cs1] Hl; try done; cbn [usage app].
  rewrite IH by (simpl in Hl; lia). lia.
Qed.

Lemma summarise_app es1 es2 cs1 cs2 : length es1 = length cs1 ->
  summarise (cs1 ++ cs2) (es1 ++ es2) = foldl summarise_step (summarise cs1 es1) (zip es2 cs2).
Proof. intros Hl. unfold summarise. by rewrite zip_with_app, foldl_app. Qed.

(** Skips and cost only grow along an assignment. *)
Definition account_le (a b : Assignment) : Prop :=
  as_skipped a <= as_skipped b /\ as_cost a <= as_cost b.

Lemma saturating_add_spec cost added : 0 <= cost <= UINT64_MAX -> 0 <= added ->
  cost <= saturating_add cost added <= UINT64_MAX.
Proof. intros Hc Ha. unfold saturating_add. destruct (Z.ltb_spec (UINT64_MAX - added) cost); lia. Qed.

Lemma selected_ok e c u : options_ok e -> selected_use e c = Some u ->
  u ∈ do_eligible e /\ 0 <= rc_cost (cu_candidate u) /\ NoDup (cu_capacity_keys u).
Proof.
  intros [_ Hc Hk]. unfold selected_use. destruct (_ =? _); [done|]. intros Hu%list_elem_of_lookup_2.
  rewrite Forall_forall in Hc, Hk. auto.
Qed.

Lemma summarise_grows es cs a : Forall options_ok es -> 0 <= as_cost a <= UINT64_MAX ->
  account_le a (foldl summarise_step a (zip es cs)) /\
  0 <= as_cost (foldl summarise_step a (zip es cs)) <= UINT64_MAX.
Proof.
  intros Hes. revert cs a. induction Hes as [|e es He Hes IH]; intros [|c cs] a Ha; cbn [zip zip_with foldl];
    try (split; [split; lia|done]).
  assert (Hstep : account_le a (summarise_step a (e, c)) /\ 0 <= as_cost (summarise_step a (e, c)) <= UINT64_MAX).
  { unfold summarise_step. cbn [fst snd]. destruct (selected_use e c) as [u|] eqn:E.
    - destruct (selected_ok e c u He E) as (_ & Hu & _). pose proof (saturating_add_spec _ _ Ha Hu).
      unfold account_use, account_le. cbn [as_skipped as_cost]. lia.
    - unfold account_skip, account_le. cbn [as_skipped as_cost]. lia. }
  destruct Hstep as [[H1 H2] H3]. destruct (IH cs _ H3) as [[H4 H5] H6]. split; [split; lia|done].
Qed.

Lemma summarise_cost_range es cs : Forall options_ok es -> 0 <= as_cost (summarise cs es) <= UINT64_MAX.
Proof. intros H. apply (summarise_grows es cs assignment_empty H). simpl. ints_lia. Qed.

(** ** Occupying and releasing capacity *)

Lemma used_at_set k k' v m : used_at (map_set k v m) k' = if bool_decide (k = k') then v else used_at m k'.
Proof. unfold used_at. rewrite map_find_set. by case_bool_decide. Qed.

Lemma used_at_erase k k' m : used_at (map_erase k m) k' = if bool_decide (k = k') then 0 else used_at m k'.
Proof.
  unfold used_at. case_bool_decide as Hk; [subst; by rewrite map_find_erase_eq|by rewrite map_find_erase_ne].
Qed.

Lemma occupy_spec keys m : NoDup keys -> (forall k, 0 <= used_at m k < two32 - 1) ->
  forall k, used_at (occupy keys m) k = used_at m k + if bool_decide (k ∈ keys) then 1 else 0.
Proof.
  intros Hn. unfold occupy.
  enough (H : forall m, (forall k, k ∈ keys -> 0 <= used_at m k < two32 - 1) -> forall k,
    used_at (foldl (fun m k => map_set k (wrap32 (used_at m k + 1)) m) m keys) k =
    used_at m k + if bool_decide (k ∈ keys) then 1 else 0) by auto.
  induction Hn as [|x keys Hx Hn IH]; intros m' Hm k; cbn [foldl].
  { rewrite bool_decide_eq_false_2 by apply not_elem_of_nil. lia. }
  rewrite IH.
  - rewrite used_at_set. assert (Hw : wrap32 (used_at m' x + 1) = used_at m' x + 1).
    { unfold wrap32. apply Z.mod_small. specialize (Hm x ltac:(by left)). ints_lia. }
    destruct (decide (x = k)) as [->|Hne].
    + rewrite (bool_decide_eq_true_2 (k = k)), (bool_decide_eq_false_2 (k ∈ keys)),
        (bool_decide_eq_true_2 (k ∈ k :: keys)) by (done || by left). lia.
    + rewrite (bool_decide_eq_false_2 (x = k)) by done.
      by rewrite (bool_decide_ext (k ∈ x :: keys) (k ∈ keys)) by set_solver.
  - intros y Hy. rewrite used_at_set, bool_decide_eq_false_2 by (by intros ->). apply Hm. by right.
Qed.

Lemma release_spec keys m : NoDup keys -> (forall k, 0 <= used_at m k < two32) -> (forall k, k ∈ keys -> 1 <= used_at m k) ->
  forall k, used_at (release keys m) k = used_at m k - if bool_decide (k ∈ keys) then 1 else 0.
Proof.
  intros Hn. unfold release. revert m. induction Hn as [|x keys Hx Hn IH]; intros m Hb Hm k; cbn [foldl].
  { rewrite bool_decide_eq_false_2 by apply not_elem_of_nil. lia. }
  set (count := wrap32 (used_at m x - 1)). cbv zeta.
  set (m' := if count =? 0 then map_erase x m else map_set x count m).
  assert (Hw : count = used_at m x - 1).
  { unfold count, wrap32. apply Z.mod_small. specialize (Hm x ltac:(by left)). specialize (Hb x). ints_lia. }
  assert (Hm' : forall k, used_at m' k = if bool_decide (x = k) then count else used_at m k).
  { intros k'. unfold m'. destruct (Z.eqb_spec count 0) as [He|He]; rewrite ?used_at_erase, ?used_at_set; [|done].
    by rewrite <- He. }
  rewrite IH.
  - rewrite Hm'. destruct (decide (x = k)) as [->|Hne].
    + rewrite (bool_decide_eq_true_2 (k = k)), (bool_decide_eq_false_2 (k ∈ keys)),
        (bool_decide_eq_true_2 (k ∈ k :: keys)) by (done || by left). lia.
    + rewrite (bool_decide_eq_false_2 (x = k)) by done.
      by rewrite (bool_decide_ext (k ∈ x :: keys) (k ∈ keys)) by set_solver.
  - intros y. rewrite Hm'. case_bool_decide; [|apply Hb]. specialize (Hm x ltac:(by left)). specialize (Hb x). lia.
  - intros y Hy. rewrite Hm', bool_decide_eq_false_2 by (by intros ->). apply Hm. by right.
Qed.

(** * Correctness of the search *)

Section correctness.
Context (capacity : UseCounts) (all : list DemandOptions).
Context (Hlen : zlen all < two32) (Hok : Forall options_ok all).

Abbreviation account := (fun choice => assignment_key (summarise choice all)).

(** The state on entry to the node of the search tree that has chosen [pre]
    for the demands [done]. *)
Record at_node (done : list DemandOptions) (pre : list Z) (s : SearchState) : Prop := {
  an_choices : length (ss_choices s) = length all;
  an_prefix : take (length pre) (ss_choices s) = pre;
  an_used : forall k, used_at (ss_used s) k = usage k done pre;
  an_remaining : 0 <= ss_remaining s;
  an_best : ss_have_best s = true ->
    exists choice, feasible capacity all choice /\ ss_best s = summarise choice all
}.

(** The assignments below a node, restricted to those starting with the
    entries [starts] accepts, are accounted for in [s]. *)
Definition covered (pre : list Z) (starts : list Z -> Prop) (s : SearchState) : Prop :=
  forall post, starts post -> feasible capacity all (pre ++ post) ->
    ss_have_best s = true /\ ltb (account (pre ++ post)) (assignment_key (ss_best s)) = false.

(** What a part of the search does to the state. *)
Record search_progress (s s' : SearchState) : Prop := {
  sp_budget : ss_nodes s' + ss_remaining s' = ss_nodes s + ss_remaining s;
  sp_spent : ss_remaining s' <= ss_remaining s;
  sp_best : ss_have_best s = true ->
    ss_have_best s' = true /\ ltb (assignment_key (ss_best s)) (assignment_key (ss_best s')) = false;
  sp_none : ss_have_best s' = false -> ss_best s' = ss_best s;
  sp_exhausted : ss_exhausted s' = true -> ss_exhausted s = true
}.

Lemma progress_refl s : search_progress s s.
Proof. split; try done. intros. split; [done|apply less_irrefl]. Qed.

Lemma not_less_trans {A} `{Ordered A} (a b c : A) : ltb a b = false -> ltb b c = false -> ltb a c = false.
Proof.
  intros Hab Hbc. destruct (ltb a c) eqn:E; [|done].
  by rewrite (less_false_trans ltb a c b E Hbc) in Hab.
Qed.

Lemma progress_trans a b c : search_progress a b -> search_progress b c -> search_progress a c.
Proof.
  intros [B1 S1 T1 N1 E1] [B2 S2 T2 N2 E2]. split; [lia|lia| | |auto].
  - intros Ha. destruct (T1 Ha) as [Hb L1]. destruct (T2 Hb) as [Hc L2]. split; [done|]. by eapply not_less_trans.
  - intros Hc. destruct (ss_have_best b) eqn:Hb; [destruct (T2 eq_refl); congruence|]. rewrite N2, N1 by done. done.
Qed.

Lemma covered_progress pre starts s s' : search_progress s s' -> covered pre starts s -> covered pre starts s'.
Proof.
  intros Hp Hc post Hs Hf. destruct (Hc post Hs Hf) as [Hb Hl]. destruct (sp_best _ _ Hp Hb) as [Hb' Hl'].
  split; [done|]. by eapply not_less_trans.
Qed.

(** The contract of a node: from a state at the node it comes back to the node,
    with every assignment below accounted for unless the budget ran out. *)
Definition explores (done : list DemandOptions) (pre : list Z) (starts : list Z -> Prop) (s s' : SearchState) : Prop :=
  at_node done pre s' /\ search_progress s s' /\ (ss_exhausted s' = true -> covered pre starts s').

Lemma feasible_prefix done rest pre post : all = done ++ rest -> length done = length pre ->
  feasible capacity all (pre ++ post) ->
  forall k limit, map_find k capacity = Some limit -> usage k done pre <= limit.
Proof.
  intros Hall Hl [_ Hf] k limit Hk. specialize (Hf k limit Hk). rewrite Hall, usage_app in Hf by done.
  pose proof (usage_bound k rest post). lia.
Qed.

(** Pruning discards only assignments that cannot win. *)
Lemma prune_explores done rest pre s : all = done ++ rest -> length done = length pre -> at_node done pre s ->
  search_prunes s (as_skipped (summarise pre done)) (as_cost (summarise pre done)) = true ->
  explores done pre (fun _ => True) s s.
Proof.
  intros Hall Hl Hn Hp. split; [done|]. split; [apply progress_refl|]. intros He post _ _.
  unfold search_prunes in Hp. rewrite He in Hp. cbn [negb orb] in Hp.
  assert (Hrest : Forall options_ok rest /\ Forall options_ok done).
  { rewrite Hall in Hok. apply Forall_app in Hok as [? ?]. done. }
  destruct Hrest as [Hr Hd].
  destruct (summarise_grows rest post (summarise pre done) Hr (summarise_cost_range done pre Hd)) as [[Hs Hc] _].
  rewrite <- summarise_app, <- Hall in Hs, Hc by done.
  destruct (ss_have_best s); [|done]. split; [done|]. cbn [andb] in Hp.
  unfold assignment_key. rewrite ltb_pair. apply orb_true_iff in Hp as [Hp|Hp].
  - apply Z.ltb_lt in Hp. rewrite bool_decide_eq_false_2 by lia. cbn [negb]. apply Z.ltb_ge. lia.
  - apply andb_true_iff in Hp as [Hp1%Z.eqb_eq Hp2%Z.ltb_lt]. case_bool_decide; cbn [negb]; [|apply Z.ltb_ge; lia].
    rewrite ltb_pair, bool_decide_eq_false_2 by lia. cbn [negb]. apply Z.ltb_ge. lia.
Qed.

Lemma leaf_explores pre s : Forall2 valid_choice all pre ->
  (forall k limit, map_find k capacity = Some limit -> usage k all pre <= limit) ->
  at_node all pre s -> explores all pre (fun _ => True) s (search_leaf all s).
Proof.
  intros Hv Hf [H1 H2 H3 H4 H5].
  assert (Hpre : ss_choices s = pre).
  { rewrite <- (take_ge (ss_choices s) (length pre)); [done|]. rewrite H1. by rewrite (Forall2_length _ _ _ Hv). }
  assert (Hpost : forall post, feasible capacity all (pre ++ post) -> post = []).
  { intros post [Hp _]. apply Forall2_length in Hp. rewrite length_app, (Forall2_length _ _ _ Hv) in Hp.
    by destruct post; simpl in Hp; [|lia]. }
  unfold search_leaf. rewrite Hpre in *. rewrite assignment_better_key.
  destruct (ss_have_best s) eqn:Hb; cbn [negb orb].
  - destruct (ltb _ _) eqn:Hlt.
    + split; [|split].
      * split; try done. intros _. exists pre. done.
      * split; try done. intros _. split; [done|]. cbn [ss_best]. by apply (less_asym ltb).
      * intros _ post _ ->%Hpost. split; [done|]. cbn [ss_best]. rewrite app_nil_r. apply less_irrefl.
    + split; [split; rewrite ?Hpre, ?Hb; auto|]. split; [apply progress_refl|]. intros _ post _ ->%Hpost. by rewrite app_nil_r.
  - split; [|split].
    + split; try done. intros _. exists pre. done.
    + split; try done. by rewrite Hb.
    + intros _ post _ ->%Hpost. split; [done|]. cbn [ss_best]. rewrite app_nil_r. apply less_irrefl.
Qed.

(** ** Moving between a node and its children *)

Lemma choose_prefix (choices pre : list Z) sel : (length pre < length choices)%nat -> take (length pre) choices = pre ->
  take (length (pre ++ [sel])) (<[length pre := sel]> choices) = pre ++ [sel].
Proof.
  intros Hl Hp. rewrite <- (take_drop (length pre) choices), Hp. destruct (drop (length pre) choices) as [|x tl] eqn:E.
  { apply (f_equal length) in E. rewrite length_drop in E. simpl in E. lia. }
  rewrite insert_app_r_alt, Nat.sub_diag by lia. cbn [insert list_insert].
  rewrite length_app, firstn_app_2. done.
Qed.

Lemma enter_child done pre ev sel s used : length done = length pre -> (length pre < length all)%nat -> at_node done pre s ->
  (forall k, used_at used k = usage k done pre + count_use k ev sel) ->
  at_node (done ++ [ev]) (pre ++ [sel]) (search_choose (length pre) sel (search_used (fun _ => used) s)).
Proof.
  intros Hl Hp [H1 H2 H3 H4 H5] Hu. split; cbn [search_choose search_used ss_choices ss_used ss_remaining ss_have_best ss_best]; try done.
  - by rewrite length_insert.
  - apply choose_prefix; [lia|done].
  - intros k. rewrite Hu, usage_app by done. cbn [usage]. lia.
Qed.

Lemma leave_child done pre ev sel s used : at_node (done ++ [ev]) (pre ++ [sel]) s ->
  (forall k, used_at used k = usage k done pre) -> at_node done pre (search_used (fun _ => used) s).
Proof.
  intros [H1 H2 H3 H4 H5] Hu. split; cbn [search_used ss_choices ss_used ss_remaining ss_have_best ss_best]; try done.
  apply (f_equal (take (length pre))) in H2. rewrite take_take, take_app_length, length_app in H2.
  by rewrite Nat.min_l in H2 by lia.
Qed.

Lemma stop_node done pre s : at_node done pre s -> at_node done pre (search_stop s).
Proof. intros [H1 H2 H3 H4 H5]. by split. Qed.

Lemma spend_node done pre s : 0 < ss_remaining s -> at_node done pre s -> at_node done pre (search_spend s).
Proof. intros Hr [H1 H2 H3 H4 H5]. split; try done. simpl. lia. Qed.

Lemma unchoose_node done pre sel s : at_node done pre s -> at_node done pre (search_choose (length pre) sel s).
Proof.
  intros [H1 H2 H3 H4 H5]. split; try done; cbn [search_choose ss_choices]; [by rewrite length_insert|].
  by rewrite take_insert_ge by lia.
Qed.

(** States that differ only in what the bookkeeping changes. *)
Lemma progress_spend s s' : 0 < ss_remaining s -> search_progress (search_spend s) s' -> search_progress s s'.
Proof. intros Hr [H1 H2 H3 H4 H5]. simpl in *. by split; [lia|lia|..]. Qed.

Lemma progress_stop s : search_progress s (search_stop s).
Proof. split; try done. intros. split; [done|apply less_irrefl]. Qed.

Definition same_progress (s s' : SearchState) : Prop :=
  ss_remaining s' = ss_remaining s /\ ss_nodes s' = ss_nodes s /\ ss_exhausted s' = ss_exhausted s /\
  ss_have_best s' = ss_have_best s /\ ss_best s' = ss_best s.

Lemma progress_same a b c d : same_progress a b -> same_progress c d -> search_progress b c -> search_progress a d.
Proof.
  intros (A1 & A2 & A3 & A4 & A5) (B1 & B2 & B3 & B4 & B5) [H1 H2 H3 H4 H5].
  by split; rewrite ?B1, ?B2, ?B3, ?B4, ?B5, <- ?A1, <- ?A2, <- ?A3, <- ?A4, <- ?A5; [lia|lia|..].
Qed.

Lemma covered_same pre starts s s' : same_progress s s' -> covered pre starts s -> covered pre starts s'.
Proof. intros (A1 & A2 & A3 & A4 & A5) Hc post Hs Hf. rewrite A4, A5. by apply Hc. Qed.

Section node.
Context (done rest : list DemandOptions) (ev : DemandOptions) (pre : list Z).
Context (Hall : all = done ++ ev :: rest) (Hv : Forall2 valid_choice done pre).
Context (Hfit : forall k limit, map_find k capacity = Some limit -> usage k done pre <= limit).

(** The contract of the recursive calls. *)
Context (IH : forall sel s, valid_choice ev sel ->
  (forall k limit, map_find k capacity = Some limit -> usage k (done ++ [ev]) (pre ++ [sel]) <= limit) ->
  at_node (done ++ [ev]) (pre ++ [sel]) s ->
  let a := summarise (pre ++ [sel]) (done ++ [ev]) in
  explores (done ++ [ev]) (pre ++ [sel]) (fun _ => True) s
    (dfs capacity all rest (S (length pre)) (as_skipped a) (as_cost a) (as_hops a) s)).

Let account_here := summarise pre done.

Lemma node_lengths : length done = length pre /\ (length pre < length all)%nat /\ options_ok ev.
Proof.
  pose proof (Forall2_length _ _ _ Hv) as Hl. split; [done|]. rewrite Hall. split.
  - rewrite length_app, Hl. simpl. lia.
  - rewrite Hall in Hok. apply Forall_app in Hok as [_ H]. by inversion H.
Qed.

Lemma usage_small k : 0 <= usage k done pre < two32 - 1.
Proof.
  pose proof (usage_bound k done pre). pose proof Hlen as Hz. rewrite Hall, zlen_app, zlen_cons in Hz.
  pose proof (zlen_nonneg rest). lia.
Qed.

Lemma summarise_child sel : summarise (pre ++ [sel]) (done ++ [ev]) = summarise_step account_here (ev, sel).
Proof. rewrite summarise_app by apply node_lengths. done. Qed.

(** What a child covers of the node. *)
Lemma child_covers sel s : covered (pre ++ [sel]) (fun _ => True) s ->
  covered pre (fun post => match post with [] => False | c :: _ => c = sel end) s.
Proof.
  intros Hc [|c post] Hs Hf; [done|]. subst. specialize (Hc post I). rewrite <- app_assoc in Hc. by apply Hc.
Qed.

Lemma feasible_next c post : feasible capacity all (pre ++ c :: post) ->
  valid_choice ev c /\ forall k limit, map_find k capacity = Some limit -> usage k done pre + count_use k ev c <= limit.
Proof.
  intros Hf. destruct node_lengths as (Hl & _ & _). split.
  - destruct Hf as [Hf _]. rewrite Hall in Hf. apply Forall2_app_inv in Hf as [_ Hf]; [|done]. by inversion Hf.
  - intros k limit Hk. rewrite (cons_middle c), app_assoc in Hf.
    pose proof (feasible_prefix (done ++ [ev]) rest (pre ++ [c]) post) as Hp. rewrite <- app_assoc in Hp.
    specialize (Hp Hall ltac:(rewrite !length_app; simpl; lia) Hf k limit Hk).
    rewrite usage_app in Hp by done. cbn [usage] in Hp. lia.
Qed.

Lemma selected_skip e : selected_use e kSkipped = None.
Proof. unfold selected_use. by rewrite Z.eqb_refl. Qed.

Lemma selected_index e index use : options_ok e -> 0 <= index -> do_eligible e !! Z.to_nat index = Some use ->
  selected_use e index = Some use /\ valid_choice e index.
Proof.
  intros [Hc _ _] Hi Hu. pose proof (lookup_lt_Some _ _ _ Hu) as Hlt. unfold selected_use, kSkipped.
  rewrite (proj2 (Z.eqb_neq _ _)) by (unfold zlen in Hc; lia). split; [done|]. right. unfold zlen. lia.
Qed.

(** The branch that skips the demand. *)
Lemma skip_branch s : at_node done pre s -> 0 < ss_remaining s ->
  explores done pre (fun post => match post with [] => False | c :: _ => c = kSkipped end) s
    (dfs capacity all rest (S (length pre)) (as_skipped account_here + 1) (as_cost account_here)
       (as_hops account_here) (search_choose (length pre) kSkipped (search_spend s))).
Proof.
  intros Hn Hr. destruct node_lengths as (Hl & Hp & Ho).
  assert (Hc : forall k, count_use k ev kSkipped = 0) by (intros k; unfold count_use; by rewrite selected_skip).
  assert (Hu : forall k, used_at (ss_used s) k = usage k done pre + count_use k ev kSkipped).
  { intros k. rewrite Hc, (an_used _ _ _ Hn). lia. }
  pose proof (enter_child done pre ev kSkipped (search_spend s) (ss_used s) Hl Hp (spend_node _ _ _ Hr Hn) Hu) as Hn'.
  destruct (IH kSkipped _ ltac:(by left) ltac:(intros k limit Hk; rewrite usage_app by done; cbn [usage]; rewrite Hc;
    specialize (Hfit k limit Hk); lia) Hn') as (E1 & E2 & E3).
  rewrite summarise_child in E1, E2, E3. unfold summarise_step in E1, E2, E3. cbn [fst snd] in E1, E2, E3.
  rewrite selected_skip in E1, E2, E3. cbn [account_skip as_skipped as_cost as_hops] in E1, E2, E3.
  change (search_choose (length pre) kSkipped (search_used (fun _ => ss_used s) (search_spend s)))
    with (search_choose (length pre) kSkipped (search_spend s)) in *.
  set (s' := dfs _ _ _ _ _ _ _ _) in *. split; [|split].
  - assert (Hs : s' = search_used (fun _ => ss_used s') s') by (by destruct s'). rewrite Hs.
    eapply leave_child; [exact E1|]. intros k. rewrite (an_used _ _ _ E1), usage_app by done. cbn [usage]. rewrite Hc. lia.
  - apply progress_spend; [done|]. by eapply progress_same; [| |exact E2]; repeat split.
  - intros He. by apply child_covers, E3.
Qed.

(** The branch that takes an alternative, up to the release of its capacity. *)
Lemma take_branch index use s : 0 <= index -> do_eligible ev !! Z.to_nat index = Some use ->
  at_node done pre s -> fits capacity (ss_used s) use = true ->
  explores done pre (fun post => match post with [] => False | c :: _ => c = index end) s
    (search_used (release (cu_capacity_keys use))
      (dfs capacity all rest (S (length pre)) (as_skipped account_here)
         (saturating_add (as_cost account_here) (rc_cost (cu_candidate use)))
         (add64 (as_hops account_here) (zlen (rc_hops (cu_candidate use))))
         (search_choose (length pre) index (search_used (occupy (cu_capacity_keys use)) s)))).
Proof.
  intros Hi Hu Hn Hf. destruct node_lengths as (Hl & Hp & Ho).
  destruct (selected_index ev index use Ho Hi Hu) as [Hs Hvi].
  destruct (selected_ok ev index use Ho Hs) as (_ & _ & Hnd).
  assert (Hc : forall k, count_use k ev index = if bool_decide (k ∈ cu_capacity_keys use) then 1 else 0).
  { intros k. unfold count_use. by rewrite Hs. }
  assert (Hocc : forall k, used_at (occupy (cu_capacity_keys use) (ss_used s)) k = usage k done pre + count_use k ev index).
  { intros k. rewrite occupy_spec, Hc, (an_used _ _ _ Hn); [done|done|]. intros k'. rewrite (an_used _ _ _ Hn).
    apply usage_small. }
  pose proof (enter_child done pre ev index s _ Hl Hp Hn Hocc) as Hn'.
  assert (Hfit' : forall k limit, map_find k capacity = Some limit -> usage k (done ++ [ev]) (pre ++ [index]) <= limit).
  { intros k limit Hk. rewrite usage_app by done. cbn [usage]. rewrite Hc. specialize (Hfit k limit Hk).
    case_bool_decide as Hin; [|lia]. unfold fits in Hf. rewrite forallb_forall in Hf.
    specialize (Hf k ltac:(by apply list_elem_of_In)). rewrite Hk, (an_used _ _ _ Hn) in Hf. bool_prop. lia. }
  destruct (IH index _ Hvi Hfit' Hn') as (E1 & E2 & E3).
  rewrite summarise_child in E1, E2, E3. unfold summarise_step in E1, E2, E3. cbn [fst snd] in E1, E2, E3.
  rewrite Hs in E1, E2, E3. cbn [account_use as_skipped as_cost as_hops] in E1, E2, E3.
  change (search_used (fun _ => occupy (cu_capacity_keys use) (ss_used s)) s)
    with (search_used (occupy (cu_capacity_keys use)) s) in *.
  set (s' := dfs _ _ _ _ _ _ _ _) in *. split; [|split].
  - change (search_used (release (cu_capacity_keys use)) s')
      with (search_used (fun _ => release (cu_capacity_keys use) (ss_used s')) s').
    eapply leave_child; [exact E1|]. intros k. rewrite release_spec; [|done| |].
    + rewrite (an_used _ _ _ E1), usage_app by done. cbn [usage]. rewrite Hc. lia.
    + intros k'. rewrite (an_used _ _ _ E1), usage_app by done. cbn [usage].
      pose proof (usage_small k'). pose proof (count_use_bound k' ev index). lia.
    + intros k' Hk'. rewrite (an_used _ _ _ E1), usage_app by done. cbn [usage].
      pose proof (usage_small k'). rewrite Hc, bool_decide_eq_true_2 by done. lia.
  - by eapply progress_same; [| |exact E2]; repeat split.
  - intros He. apply child_covers. eapply covered_same; [|by apply E3]. by repeat split.
Qed.

Definition starts_from (index : Z) (post : list Z) : Prop :=
  match post with [] => False | c :: _ => c = kSkipped \/ index <= c end.

Lemma fits_necessary index use s post : 0 <= index -> do_eligible ev !! Z.to_nat index = Some use -> at_node done pre s ->
  feasible capacity all (pre ++ index :: post) -> fits capacity (ss_used s) use = true.
Proof.
  intros Hi Hu Hn Hf. destruct node_lengths as (_ & _ & Ho). destruct (selected_index ev index use Ho Hi Hu) as [Hs _].
  destruct (feasible_next _ _ Hf) as [_ Hc]. unfold fits. apply forallb_forall. intros k Hk%list_elem_of_In.
  destruct (map_find k capacity) as [limit|] eqn:E; [|done]. specialize (Hc k limit E).
  unfold count_use in Hc. rewrite Hs, bool_decide_eq_true_2 in Hc by done.
  rewrite (an_used _ _ _ Hn). apply negb_true_iff, Z.leb_gt. lia.
Qed.

Lemma loop_explores uses index s : 0 <= index -> drop (Z.to_nat index) (do_eligible ev) = uses -> at_node done pre s ->
  explores done pre (starts_from index) s
    (try_options capacity (length pre) (as_skipped account_here) (as_cost account_here) (as_hops account_here)
       (dfs capacity all rest (S (length pre))) index uses s).
Proof.
  revert index s. induction uses as [|use uses IHu]; intros index s Hi Hd Hn; cbn [try_options].
  - destruct (Z.eqb_spec (ss_remaining s) 0) as [Hr|Hr].
    { split; [by apply stop_node|]. split; [apply progress_stop|done]. }
    pose proof (an_remaining _ _ _ Hn). destruct (skip_branch s Hn ltac:(lia)) as (E1 & E2 & E3).
    split; [done|]. split; [done|]. intros He [|c post] Hst Hf; [done|]. apply E3; [done| |done].
    destruct Hst as [->|Hge]; [done|]. destruct (feasible_next _ _ Hf) as [[->|[_ Hlt]] _]; [done|].
    apply (f_equal length) in Hd. rewrite length_drop in Hd. simpl in Hd. unfold zlen in Hlt. lia.
  - assert (Hu : do_eligible ev !! Z.to_nat index = Some use).
    { rewrite <- (Nat.add_0_r (Z.to_nat index)), <- lookup_drop, Hd. done. }
    assert (Hd' : drop (Z.to_nat (index + 1)) (do_eligible ev) = uses).
    { replace (Z.to_nat (index + 1)) with (Z.to_nat index + 1)%nat by lia. by rewrite <- drop_drop, Hd. }
    destruct (Z.eqb_spec (ss_remaining s) 0) as [Hr|Hr].
    { split; [by apply stop_node|]. split; [apply progress_stop|done]. }
    pose proof (an_remaining _ _ _ Hn). assert (Hpos : 0 < ss_remaining s) by lia.
    pose proof (spend_node _ _ _ Hpos Hn) as Hn1. cbv zeta.
    destruct (fits capacity (ss_used (search_spend s)) use) eqn:Hf; cbn [negb].
    + destruct (take_branch index use (search_spend s) Hi Hu Hn1 Hf) as (E1 & E2 & E3).
      set (s2 := search_used _ (dfs _ _ _ _ _ _ _ _)) in *.
      destruct (ss_exhausted s2) eqn:Hex; cbn [negb].
      * destruct (IHu (index + 1) s2 ltac:(lia) Hd' E1) as (F1 & F2 & F3). split; [done|].
        split; [apply progress_spend; [done|]; by eapply progress_trans|].
        intros He [|c post] Hst Hfe; [done|]. destruct (decide (c = index)) as [->|Hne].
        -- by apply (covered_progress _ _ _ _ F2 (E3 eq_refl)).
        -- apply F3; [done| |done]. simpl in *. lia.
      * split; [by apply unchoose_node|]. split.
        -- apply progress_spend; [done|]. by eapply progress_same; [| |exact E2]; repeat split.
        -- cbn [search_choose ss_exhausted]. by rewrite Hex.
    + destruct (IHu (index + 1) (search_spend s) ltac:(lia) Hd' Hn1) as (F1 & F2 & F3). split; [done|].
      split; [by apply progress_spend|]. intros He [|c post] Hst Hfe; [done|]. apply F3; [done| |done].
      simpl in *. destruct Hst as [?|Hge]; [by left|]. right. destruct (decide (c = index)) as [->|]; [|lia].
      pose proof (fits_necessary index use (search_spend s) post Hi Hu Hn1 Hfe) as Hft. cbn [search_spend ss_used] in Hft.
      congruence.
Qed.
End node.

Lemma dfs_explores rest done pre s : all = done ++ rest -> Forall2 valid_choice done pre ->
  (forall k limit, map_find k capacity = Some limit -> usage k done pre <= limit) -> at_node done pre s ->
  let a := summarise pre done in
  explores done pre (fun _ => True) s
    (dfs capacity all rest (length pre) (as_skipped a) (as_cost a) (as_hops a) s).
Proof.
  revert done pre s. induction rest as [|ev rest IH]; intros done pre s Hall Hv Hfit Hn; cbv zeta; cbn [dfs].
  - destruct (search_prunes _ _ _) eqn:Hp.
    { eapply prune_explores; [exact Hall|by eapply Forall2_length|done|done]. }
    rewrite app_nil_r in Hall. subst. by apply leaf_explores.
  - destruct (search_prunes _ _ _) eqn:Hp.
    { eapply prune_explores; [exact Hall|by eapply Forall2_length|done|done]. }
    destruct (loop_explores done rest ev pre Hall Hv Hfit) with (uses := do_eligible ev) (index := 0) (s := s)
      as (E1 & E2 & E3); [|done|done|done|].
    + intros sel s1 Hsel Hfit1 Hn1. cbv zeta. replace (S (length pre)) with (length (pre ++ [sel]))
        by (rewrite length_app; simpl; lia).
      apply IH; [by rewrite <- app_assoc|by apply Forall2_app; [|constructor]|done|done].
    + split; [done|]. split; [done|]. intros He post _ Hf. apply E3; [done| |done].
      destruct post as [|c post]; simpl.
      * destruct Hf as [Hf%Forall2_length _]. rewrite Hall, app_nil_r, length_app, (Forall2_length _ _ _ Hv) in Hf.
        simpl in Hf. lia.
      * destruct Hf as [Hf _]. rewrite Hall in Hf. apply Forall2_app_inv in Hf as [_ Hf]; [|by eapply Forall2_length].
        inversion Hf as [|? ? ? ? [?|?] ?]; subst; [by left|right; lia].
Qed.
End correctness.

(** * Budget *)

(** The number of nodes of the search tree. *)
Fixpoint tree_size (evaluations : list DemandOptions) : Z :=
  match evaluations with
  | [] => 0
  | e :: es => (zlen (do_eligible e) + 1) * (1 + tree_size es)
  end.

Lemma tree_size_nonneg es : 0 <= tree_size es.
Proof.
  induction es as [|e es IH]; cbn [tree_size]; [lia|]. pose proof (zlen_nonneg (do_eligible e)). nia.
Qed.

(** With a budget for every node below, the search stays exhaustive and spends
    no more than that. *)
Definition affordable (size : Z) (s s' : SearchState) : Prop :=
  ss_exhausted s = true -> size <= ss_remaining s ->
  ss_exhausted s' = true /\ ss_remaining s - size <= ss_remaining s'.

Lemma options_affordable capacity position ps pc ph descend size uses index s :
  0 <= size -> (forall a b c s, affordable size s (descend a b c s)) ->
  affordable ((zlen uses + 1) * (1 + size)) s (try_options capacity position ps pc ph descend index uses s).
Proof.
  intros Hs Hd. revert index s. unfold affordable in *.
  induction uses as [|use uses IH]; intros index s He Hb; cbn [try_options].
  - change (zlen (@nil CandidateUse)) with 0 in *. rewrite (proj2 (Z.eqb_neq _ _)) by lia.
    destruct (Hd (ps + 1) pc ph (search_choose position kSkipped (search_spend s)) He) as [H1 H2];
      cbn [search_choose search_spend ss_remaining] in *; [lia|]. split; [done|lia].
  - rewrite zlen_cons in Hb |- *. pose proof (zlen_nonneg uses).
    assert (0 <= (zlen uses + 1) * (1 + size)) by (apply Z.mul_nonneg_nonneg; lia).
    rewrite (proj2 (Z.eqb_neq _ _)) by lia. cbv zeta.
    destruct (fits _ _ _); cbn [negb].
    + match goal with |- context [descend ?a ?b ?c ?t] => destruct (Hd a b c t He) as [H1 H2]; [cbn [search_choose search_used search_spend ss_remaining]; lia|] end.
      set (t := descend _ _ _ _) in *. cbn [search_used ss_exhausted ss_remaining search_choose search_spend] in *.
      rewrite H1. cbn [negb]. destruct (IH (index + 1) (search_used (release (cu_capacity_keys use)) t) H1) as [H3 H4];
        cbn [search_used ss_remaining] in *; [lia|]. split; [done|lia].
    + destruct (IH (index + 1) (search_spend s) He) as [H3 H4]; cbn [search_spend ss_remaining] in *; [lia|]. split; [done|lia].
Qed.

Lemma dfs_affordable capacity all rest position ps pc ph s :
  affordable (tree_size rest) s (dfs capacity all rest position ps pc ph s).
Proof.
  revert position ps pc ph s. induction rest as [|ev rest IH]; intros position ps pc ph s He Hb; cbn [dfs].
  - destruct (search_prunes _ _ _); [split; [done|simpl; lia]|].
    unfold search_leaf. destruct (_ || _); (split; [done|simpl; lia]).
  - destruct (search_prunes _ _ _).
    { split; [done|]. pose proof (tree_size_nonneg (ev :: rest)). lia. }
    apply options_affordable; [apply tree_size_nonneg| |done|done]. intros a b c s'. apply IH.
Qed.

(** * The result of a component *)

Lemma summarise_from_choice es cs a : Forall2 valid_choice es cs -> Forall options_ok es ->
  as_choice (foldl summarise_step a (zip es cs)) = as_choice a ++ cs.
Proof.
  intros Hv. revert a. induction Hv as [|e c es cs Hc Hv IH]; intros a Ho; [by rewrite app_nil_r|].
  inversion_clear Ho as [|? ? He Hes]. cbn [zip zip_with foldl]. rewrite IH by done.
  unfold summarise_step. cbn [fst snd]. destruct (selected_use e c) as [u|] eqn:E.
  - unfold account_use. cbn [as_choice]. by rewrite <- app_assoc.
  - destruct Hc as [->|Hc]; [unfold account_skip; cbn [as_choice]; by rewrite <- app_assoc|].
    destruct (lookup_lt_is_Some_2 (do_eligible e) (Z.to_nat c)) as [u Hu]; [unfold zlen in Hc; lia|].
    destruct (selected_index e c u He ltac:(lia) Hu) as [Hs _]. congruence.
Qed.

Lemma summarise_choice es cs : Forall2 valid_choice es cs -> Forall options_ok es -> as_choice (summarise cs es) = cs.
Proof. intros Hv Ho. unfold summarise. by rewrite summarise_from_choice. Qed.

Lemma skip_all_feasible capacity es : (forall k limit, map_find k capacity = Some limit -> 0 <= limit) ->
  feasible capacity es (replicate (length es) kSkipped).
Proof.
  intros Hc. split.
  - induction es; simpl; constructor; [by left|done].
  - intros k limit Hk. replace (usage _ _ _) with 0; [by eapply Hc|]. clear.
    induction es as [|e es IH]; [done|]. cbn [length replicate usage]. rewrite <- IH. unfold count_use.
    by rewrite selected_skip.
Qed.

(** The assignment is the best one that respects every capacity. *)
Definition optimal (capacity : UseCounts) (evaluations : list DemandOptions) (choice : list Z) : Prop :=
  feasible capacity evaluations choice /\
  forall other, feasible capacity evaluations other ->
    assignment_better (summarise other evaluations) (summarise choice evaluations) = false.

Lemma run_explores capacity all budget : zlen all < two32 -> Forall options_ok all ->
  (forall k limit, map_find k capacity = Some limit -> 0 <= limit) -> 0 <= budget ->
  let s := run capacity all budget in
  ss_nodes s + ss_remaining s = budget /\ 0 <= ss_remaining s <= budget /\
  feasible capacity all (as_choice (ss_best s)) /\
  (ss_exhausted s = true -> optimal capacity all (as_choice (ss_best s)) /\
     ss_best s = summarise (as_choice (ss_best s)) all).
Proof.
  intros Hlen Hok Hcap Hb. cbv zeta. set (s0 := mkSearch [] budget 0 true false (replicate (length all) kSkipped)
       (mkAssignment (replicate (length all) kSkipped) 0 0 0)).
  pose proof (skip_all_feasible capacity all Hcap) as Hskip.
  destruct (dfs_explores capacity all Hlen Hok all [] [] s0 eq_refl) as (E1 & E2 & E3).
  { constructor. }
  { intros k limit Hk. simpl. by eapply Hcap. }
  { split; simpl; try done. by rewrite length_replicate. }
  change (dfs capacity all all (length []) _ _ _ s0) with (run capacity all budget) in *.
  set (s := run capacity all budget) in *. split; [|split; [split; [apply E1|apply E2]|split]].
  - pose proof (sp_budget _ _ E2) as H. simpl in H. lia.
  - destruct (ss_have_best s) eqn:Hh.
    + destruct (an_best _ _ _ _ _ E1 Hh) as (c & Hc & ->). rewrite summarise_choice; [done|apply Hc|done].
    + by rewrite (sp_none _ _ E2 Hh).
  - intros He. destruct (E3 He _ I Hskip) as [Hh _].
    destruct (an_best _ _ _ _ _ E1 Hh) as (c & Hc & Hbest). rewrite Hbest, summarise_choice by (apply Hc || done).
    split; [|done]. split; [done|]. intros other Ho. destruct (E3 He _ I Ho) as [_ Hl].
    by rewrite assignment_better_key, <- Hbest.
Qed.

(** ** Properties *)

(** The search of a component finds the best assignment. Whatever the
    budget, the assignment it returns respects every capacity and the nodes
    visited never exceed the budget. When it reports the space exhausted, no
    assignment that respects the capacities leaves fewer demands unresolved, or
    costs less at equal count, or has fewer hops at equal cost, or precedes it
    in canonical order; pruning loses nothing. A budget of the size of the
    search tree always suffices. *)
Theorem component_search_optimal capacity all budget :
  zlen all < two32 -> Forall options_ok all ->
  (forall k limit, map_find k capacity = Some limit -> 0 <= limit) -> 0 <= budget ->
  let s := run capacity all budget in
  feasible capacity all (as_choice (ss_best s)) /\
  0 <= ss_nodes s <= budget /\
  (ss_exhausted s = true -> optimal capacity all (as_choice (ss_best s))) /\
  (tree_size all <= budget -> ss_exhausted s = true).
Proof.
  intros Hlen Hok Hcap Hb. cbv zeta. destruct (run_explores capacity all budget Hlen Hok Hcap Hb) as (H1 & H2 & H3 & H4).
  split; [done|]. split; [|split].
  - lia.
  - intros He. by apply H4.
  - intros Ht. by apply dfs_affordable.
Qed.
