(* ===== verification/Partition.v ===== *)
(** The disjoint sets of src/plan/planning_core.cpp (DisjointSet: path halving,
    union by smaller root) and the grouping of demands into components. *)

From S2P Require Import Prelude Containers.

#[export] Instance nat_strict_total : StrictTotal Nat.ltb.
Proof. split; intros *; rewrite ?Nat.ltb_lt, ?Nat.ltb_ge; lia. Qed.

#[export] Instance nat_ordered : Ordered nat := {| ltb := Nat.ltb |}.

(** * Disjoint sets *)

Abbreviation DisjointSet := (list nat).

Definition parent_of (sets : DisjointSet) (value : nat) : nat := default value (sets !! value).

Definition sets_new (size : nat) : DisjointSet := seq 0 size.

(** The loop of [find]; parents never exceed their children, so the loop ends
    within as many steps as there are elements. *)
Fixpoint find_loop (fuel : nat) (sets : DisjointSet) (value : nat) : nat * DisjointSet :=
  match fuel with
  | O => (value, sets)
  | S fuel =>
      if bool_decide (parent_of sets value = value) then (value, sets)
      else
        let sets := <[value := parent_of sets (parent_of sets value)]> sets in
        find_loop fuel sets (parent_of sets value)
  end.

Definition sets_find (sets : DisjointSet) (value : nat) : nat * DisjointSet := find_loop (S value) sets value.

Definition unite (sets : DisjointSet) (a b : nat) : DisjointSet :=
  let '(root_a, sets) := sets_find sets a in
  let '(root_b, sets) := sets_find sets b in
  if bool_decide (root_a = root_b) then sets
  else if (root_a <? root_b)%nat then <[root_b := root_a]> sets else <[root_a := root_b]> sets.

(** `for (index = 0; index < size; ++index) components[sets.find(index)].push_back(index);` *)
Definition group_step (state : list (nat * list nat) * DisjointSet) (index : nat) : list (nat * list nat) * DisjointSet :=
  let '(root, sets) := sets_find state.2 index in
  (map_set root (default [] (map_find root state.1) ++ [index]) state.1, sets).

Definition components (sets : DisjointSet) (size : nat) : list (nat * list nat) :=
  (foldl group_step ([], sets) (seq 0 size)).1.

(** * Roots *)

Record sets_wf (sets : DisjointSet) : Prop := {
  sw_below : forall i, (parent_of sets i <= i)%nat
}.

Inductive is_root (sets : DisjointSet) : nat -> nat -> Prop :=
| root_self i : parent_of sets i = i -> is_root sets i i
| root_step i r : parent_of sets i <> i -> is_root sets (parent_of sets i) r -> is_root sets i r.

Lemma root_unique sets i r r' : is_root sets i r -> is_root sets i r' -> r = r'.
Proof.
  intros H. revert r'. induction H as [i Hi|i r Hi H IH]; intros r' H'; inversion H'; subst; try done; auto.
Qed.

Lemma root_fixed sets i r : is_root sets i r -> parent_of sets r = r.
Proof. by induction 1. Qed.

Lemma root_le sets i r : sets_wf sets -> is_root sets i r -> (r <= i)%nat.
Proof. intros Hw. induction 1 as [|i r Hi H IH]; [done|]. pose proof (sw_below _ Hw i). lia. Qed.

Lemma root_exists sets i : sets_wf sets -> exists r, is_root sets i r.
Proof.
  intros Hw. induction (lt_wf i) as [i _ IH]. destruct (decide (parent_of sets i = i)) as [He|He].
  - exists i. by constructor.
  - destruct (IH (parent_of sets i)) as [r Hr]; [pose proof (sw_below _ Hw i); lia|]. exists r. by apply root_step.
Qed.

Lemma parent_insert sets v w i : (v < length sets)%nat ->
  parent_of (<[v := w]> sets) i = if decide (i = v) then w else parent_of sets i.
Proof.
  intros Hv. unfold parent_of. destruct (decide (i = v)) as [->|Hne].
  - by rewrite list_lookup_insert_eq.
  - by rewrite list_lookup_insert_ne.
Qed.

Lemma parent_inside sets v : parent_of sets v <> v -> (v < length sets)%nat.
Proof.
  intros H. destruct (decide (v < length sets)%nat) as [|Hge]; [done|]. exfalso. apply H. unfold parent_of.
  by rewrite (proj2 (lookup_ge_None _ _)) by lia.
Qed.

(** [sets'] has at least the joins of [sets], with the same roots. *)
Definition same_roots (sets sets' : DisjointSet) : Prop :=
  sets_wf sets' /\ length sets' = length sets /\ forall i r, is_root sets i r -> is_root sets' i r.

Lemma halve_roots sets v : sets_wf sets -> parent_of sets v <> v ->
  same_roots sets (<[v := parent_of sets (parent_of sets v)]> sets).
Proof.
  intros Hw Hv. pose proof (parent_inside sets v Hv) as Hin.
  pose proof (sw_below _ Hw v) as H1. pose proof (sw_below _ Hw (parent_of sets v)) as H2.
  split; [|split; [by rewrite length_insert|]].
  - split. intros i. rewrite parent_insert by done. destruct (decide (i = v)) as [->|]; [lia|apply Hw].
  - intros i r Hr. induction Hr as [i Hi|i r Hi Hr IH].
    + constructor. rewrite parent_insert by done. destruct (decide (i = v)); congruence.
    + destruct (decide (i = v)) as [->|Hne].
      * apply root_step; [rewrite parent_insert by done; rewrite decide_True by done; lia|].
        rewrite parent_insert, decide_True by done.
        destruct (decide (parent_of sets (parent_of sets v) = parent_of sets v)) as [Heq|Hne].
        { by rewrite Heq in IH |- *. }
        inversion IH as [? Hp|? ? Hp IH2]; subst; rewrite parent_insert, decide_False in Hp by (done || lia); [done|].
        by rewrite parent_insert, decide_False in IH2 by (done || lia).
      * apply root_step; rewrite parent_insert, decide_False by done; done.
Qed.

Lemma same_roots_trans a b c : same_roots a b -> same_roots b c -> same_roots a c.
Proof. intros (A1 & A2 & A3) (B1 & B2 & B3). split; [done|]. split; [congruence|auto]. Qed.

Lemma find_loop_spec fuel sets v r : sets_wf sets -> (v < fuel)%nat -> is_root sets v r ->
  (find_loop fuel sets v).1 = r /\ same_roots sets (find_loop fuel sets v).2.
Proof.
  revert sets v. induction fuel as [|fuel IH]; intros sets v Hw Hf Hr; [lia|]. cbn [find_loop].
  case_bool_decide as Hp.
  - split; [|done]. eapply root_unique; [by constructor|done].
  - cbv zeta. pose proof (halve_roots sets v Hw Hp) as Hh. destruct Hh as (W & L & R).
    pose proof (sw_below _ Hw v) as H1. pose proof (sw_below _ Hw (parent_of sets v)) as H2.
    set (sets' := <[v := _]> sets) in *.
    assert (Hpv : parent_of sets' v = parent_of sets (parent_of sets v)).
    { unfold sets'. rewrite parent_insert, decide_True by (done || by apply parent_inside). done. }
    destruct (IH sets' (parent_of sets' v) W) as [E1 E2]; [rewrite Hpv; lia| |].
    + specialize (R v r Hr). inversion R as [? Hs|]; subst; [lia|done].
    + split; [done|]. eapply same_roots_trans; [|exact E2]. done.
Qed.

Lemma find_spec sets v : sets_wf sets ->
  is_root sets v (sets_find sets v).1 /\ same_roots sets (sets_find sets v).2.
Proof.
  intros Hw. destruct (root_exists sets v Hw) as [r Hr].
  destruct (find_loop_spec (S v) sets v r Hw ltac:(lia) Hr) as [H1 H2]. unfold sets_find. rewrite H1. done.
Qed.

(** Elements in the same set. *)
Definition joined (sets : DisjointSet) (i j : nat) : Prop := exists r, is_root sets i r /\ is_root sets j r.

Lemma joined_same_roots sets sets' i j : same_roots sets sets' -> joined sets i j -> joined sets' i j.
Proof. intros (_ & _ & H) (r & Hi & Hj). exists r. auto. Qed.

Lemma link_roots sets a b : sets_wf sets -> parent_of sets a = a -> parent_of sets b = b -> (a < b < length sets)%nat ->
  sets_wf (<[b := a]> sets) /\
  forall i r, is_root sets i r -> is_root (<[b := a]> sets) i (if decide (r = b) then a else r).
Proof.
  intros Hw Ha Hb Hlt. split.
  - split. intros i. rewrite parent_insert by lia. destruct (decide (i = b)) as [->|]; [lia|apply Hw].
  - intros i r Hr. induction Hr as [i Hi|i r Hi Hr IH].
    + destruct (decide (i = b)) as [->|Hne].
      * apply root_step; rewrite parent_insert, decide_True by (done || lia); [lia|].
        constructor. rewrite parent_insert, decide_False by lia. done.
      * constructor. by rewrite parent_insert, decide_False by (done || lia).
    + assert (i <> b) by (intros ->; done).
      apply root_step; rewrite parent_insert, decide_False by (done || lia); done.
Qed.

Lemma unite_spec sets a b : sets_wf sets -> (a < length sets)%nat -> (b < length sets)%nat ->
  sets_wf (unite sets a b) /\ length (unite sets a b) = length sets /\ joined (unite sets a b) a b /\
  forall i j, joined sets i j -> joined (unite sets a b) i j.
Proof.
  intros Hw Ha Hb. unfold unite. destruct (find_spec sets a Hw) as [Ra Sa].
  destruct (sets_find sets a) as [ra s1]. cbn [fst snd] in *. destruct Sa as (W1 & L1 & R1).
  destruct (find_spec s1 b W1) as [Rb Sb]. destruct (sets_find s1 b) as [rb s2]. cbn [fst snd] in *.
  destruct Sb as (W2 & L2 & R2).
  assert (Ra2 : is_root s2 a ra) by auto. assert (Rb2 : is_root s2 b rb) by auto.
  assert (Hj : forall i j, joined sets i j -> joined s2 i j).
  { intros i j (r & Hi & Hj). exists r. auto. }
  pose proof (root_le _ _ _ W2 Ra2). pose proof (root_le _ _ _ W2 Rb2).
  pose proof (root_fixed _ _ _ Ra2). pose proof (root_fixed _ _ _ Rb2).
  case_bool_decide as He.
  - subst. split; [done|]. split; [congruence|]. split; [by exists rb|done].
  - destruct (Nat.ltb_spec ra rb) as [Hlt|Hge].
    + destruct (link_roots s2 ra rb W2) as [W R]; [done|done|lia|]. split; [done|].
      split; [rewrite length_insert; congruence|]. split.
      * exists ra. pose proof (R a ra Ra2) as H3. pose proof (R b rb Rb2) as H4.
        rewrite decide_False in H3 by lia. by rewrite decide_True in H4.
      * intros i j (r & Hi & Hjr)%Hj. eexists. split; by apply R.
    + destruct (link_roots s2 rb ra W2) as [W R]; [done|done|lia|]. split; [done|].
      split; [rewrite length_insert; congruence|]. split.
      * exists rb. pose proof (R a ra Ra2) as H3. pose proof (R b rb Rb2) as H4.
        rewrite decide_True in H3 by done. by rewrite decide_False in H4 by lia.
      * intros i j (r & Hi & Hjr)%Hj. eexists. split; by apply R.
Qed.

Lemma sets_new_wf n : sets_wf (sets_new n).
Proof.
  split. intros i. unfold parent_of, sets_new. destruct (decide (i < n)%nat) as [H|H].
  - by rewrite lookup_seq_lt.
  - by rewrite (proj2 (lookup_ge_None _ _)) by (rewrite length_seq; lia).
Qed.

Lemma sets_new_length n : length (sets_new n) = n.
Proof. apply length_seq. Qed.

(** * Components *)

Lemma increasing_snoc (l : list nat) x : canonical l -> (forall y, y ∈ l -> (y < x)%nat) -> canonical (l ++ [x]).
Proof.
  intros Hl Hx. induction l as [|y l IH]; [by apply canonical_cons; [constructor|set_solver]|].
  apply canonical_inv in Hl as [Hl Hy]. simpl. apply canonical_cons; [apply IH; [done|set_solver]|].
  intros z [Hz| ->%list_elem_of_singleton]%elem_of_app; [auto|]. apply Nat.ltb_lt, Hx. by left.
Qed.

Record grouped (sets : DisjointSet) (n : nat) (state : list (nat * list nat) * DisjointSet) : Prop := {
  gr_sets : same_roots sets state.2;
  gr_wf : map_wf state.1;
  gr_all : concat (map_values state.1) ≡ₚ seq 0 n;
  gr_class : forall r c, map_find r state.1 = Some c -> canonical c /\ forall i, i ∈ c -> is_root sets i r
}.

Lemma elem_of_concat {A} (x : A) (ls : list (list A)) : x ∈ concat ls <-> exists l, x ∈ l /\ l ∈ ls.
Proof.
  rewrite list_elem_of_In, in_concat. split; intros (l & H1 & H2); exists l; rewrite ?list_elem_of_In in *;
    rewrite <- ?list_elem_of_In in *; done.
Qed.

Lemma find_in_flat {A} (r : nat) (c : list A) m i : map_find r m = Some c -> i ∈ c -> i ∈ concat (map_values m).
Proof.
  intros Hf%map_find_in Hi. apply elem_of_concat. exists c. split; [done|].
  apply list_elem_of_fmap. by exists (r, c).
Qed.

Lemma group_step_spec sets n state : sets_wf sets -> grouped sets n state -> grouped sets (S n) (group_step state n).
Proof.
  intros Hw [Hs Hwf Hall Hcl]. destruct state as [m s]. cbn [fst snd] in *. unfold group_step. cbn [fst snd].
  destruct Hs as (W & L & R). destruct (find_spec s n W) as [Hr Hs]. destruct (sets_find s n) as [r s'].
  cbn [fst snd] in *. destruct (root_exists sets n Hw) as [r0 Hr0].
  assert (r0 = r) as -> by (eapply root_unique; [by apply R|done]).
  assert (Hbelow : forall c i, map_find r m = Some c -> i ∈ c -> (i < n)%nat).
  { intros c i Hf Hi. pose proof (find_in_flat r c m i Hf Hi) as Hin. rewrite Hall in Hin.
    apply elem_of_seq in Hin. lia. }
  split; cbn [fst snd].
  - by eapply same_roots_trans; [split; [exact W|done]|].
  - by apply map_set_wf.
  - rewrite map_set_flat, seq_S by done. rewrite <- Hall, (map_find_flat r m Hwf). simpl. solve_Permutation.
  - intros r' c. rewrite map_find_set. case_bool_decide as Hrr; [|by apply Hcl]. intros [= <-]. subst r'.
    destruct (map_find r m) as [c|] eqn:Hf; simpl.
    + destruct (Hcl r c Hf) as [H1 H2]. split; [apply increasing_snoc; eauto|].
      intros i [Hi| ->%list_elem_of_singleton]%elem_of_app; auto.
    + split; [apply (increasing_snoc []); [constructor|set_solver]|]. intros i ->%list_elem_of_singleton. done.
Qed.

Lemma components_grouped sets n : sets_wf sets -> exists s, grouped sets n (components sets n, s).
Proof.
  intros Hw. unfold components.
  assert (H : grouped sets n (foldl group_step ([], sets) (seq 0 n))).
  { induction n as [|n IH].
    - split; try done. constructor.
    - rewrite seq_S, foldl_app. by apply group_step_spec. }
  destruct (foldl _ _ _) as [m s]. by exists s.
Qed.

(** The classes partition the indices, each in increasing order, and joined
    indices share a class. *)
Record partition (n : nat) (link : nat -> nat -> Prop) (classes : list (list nat)) : Prop := {
  pt_all : concat classes ≡ₚ seq 0 n;
  pt_sorted : Forall canonical classes;
  pt_link : forall i j c, link i j -> c ∈ classes -> i ∈ c -> (j < n)%nat -> j ∈ c
}.

Lemma components_partition sets n : sets_wf sets ->
  partition n (joined sets) (map_values (components sets n)).
Proof.
  intros Hw. destruct (components_grouped sets n Hw) as [s [_ Hwf Hall Hcl]]. cbn [fst] in *.
  assert (Hfind : forall c, c ∈ map_values (components sets n) -> exists r, map_find r (components sets n) = Some c).
  { intros c [[r c'] [-> Hin]]%list_elem_of_fmap. exists r. by apply map_in_find. }
  split; [done|apply Forall_forall; intros c [r Hr]%Hfind; by apply (Hcl r)|].
  intros i j c (r & Ri & Rj) [rc Hc]%Hfind Hi Hj.
  assert (Hjin : j ∈ concat (map_values (components sets n))) by (rewrite Hall; apply elem_of_seq; lia).
  apply elem_of_concat in Hjin as (c' & Hjc & [rj Hc']%Hfind).
  pose proof (proj2 (Hcl rc c Hc) i Hi) as R1. pose proof (proj2 (Hcl rj c' Hc') j Hjc) as R2.
  assert (rc = rj) as <- by (rewrite (root_unique _ _ _ _ R1 Ri); symmetry; by eapply root_unique).
  congruence.
Qed.
