(* ===== verification/Assign.v ===== *)
(** The choice of one alternative per demand (the assignment phase of
    plan_internal, src/plan/planning_core.cpp): the capacity table, the fast
    path when no generation can be oversubscribed, the split into independent
    components and their searches under one shared budget; and the global
    optimality of the result. *)

From S2P Require Import Prelude Containers Core Generation Plan Candidates Search Partition.

(** * The assignment phase *)

(** The keys the loops `for (use : option.eligible) for (key : use.capacity_keys)`
    visit, in their order. *)
Definition option_keys (option_ : DemandOptions) : list SwitchKey :=
  concat (cu_capacity_keys <$> do_eligible option_).

Definition capacity_step (i : PlanInputs) (capacity : UseCounts) (key : SwitchKey) : UseCounts :=
  match map_find key capacity with
  | None => map_set key (capacity_of i key) capacity
  | Some _ => capacity
  end.

Definition capacity_table (i : PlanInputs) (options : list DemandOptions) : UseCounts :=
  foldl (capacity_step i) [] (concat (option_keys <$> options)).

Definition touched (option_ : DemandOptions) : list SwitchKey := sort_and_dedupe (option_keys option_).

Definition count_key (potential : UseCounts) (key : SwitchKey) : UseCounts :=
  map_set key (used_at potential key + 1) potential.

Definition potential (options : list DemandOptions) : UseCounts :=
  foldl (fun p option_ => foldl count_key p (touched option_)) [] options.

Definition capacity_binding (i : PlanInputs) (options : list DemandOptions) : bool :=
  existsb (fun entry : SwitchKey * Z =>
             match map_find entry.1 (capacity_table i options) with
             | None => true
             | Some limit => limit <? entry.2
             end) (potential options).

(** The state of the assignment phase. *)
Record AssignState := mkAssign {
  av_assignment : Assignment;
  av_remaining : Z;
  av_nodes : Z;
  av_proven : bool
}.

(** Adding a selected alternative to the running totals. *)
Definition take_use (a : Assignment) (index : nat) (selected : Z) (use : CandidateUse) : Assignment :=
  mkAssignment (<[index := selected]> (as_choice a)) (as_skipped a)
    (saturating_add (as_cost a) (rc_cost (cu_candidate use)))
    (add64 (as_hops a) (zlen (rc_hops (cu_candidate use)))).

(** The body of the fast path; the map [used] it fills is never read. *)
Definition greedy_step (a : Assignment) (e : nat * DemandOptions) : Assignment :=
  match do_eligible e.2 with
  | [] => mkAssignment (as_choice a) (as_skipped a + 1) (as_cost a) (as_hops a)
  | use :: _ => take_use a e.1 0 use
  end.

Definition user_step (users : list (SwitchKey * list nat)) (e : nat * DemandOptions) : list (SwitchKey * list nat) :=
  foldl (fun m key => map_set key (default [] (map_find key m) ++ [e.1]) m) users (touched e.2).

Definition indexed (options : list DemandOptions) : list (nat * DemandOptions) :=
  zip (seq 0 (length options)) options.

Definition users (options : list DemandOptions) : list (SwitchKey * list nat) :=
  foldl user_step [] (indexed options).

(** `for (index = 1; index < entry.second.size(); ++index) sets.unite(entry.second.front(), entry.second[index]);` *)
Definition unite_users (sets : DisjointSet) (entry : SwitchKey * list nat) : DisjointSet :=
  match entry.2 with
  | [] => sets
  | front :: rest => foldl (fun s index => unite s front index) sets rest
  end.

Definition demand_sets (options : list DemandOptions) : DisjointSet :=
  foldl unite_users (sets_new (length options)) (users options).

(** `demand_plan.options[index]` for the indices of a component. *)
Definition evaluations_at (options : list DemandOptions) (indices : list nat) : list DemandOptions :=
  omap (fun index => options !! index) indices.

Definition component_capacity (i : PlanInputs) (evaluations : list DemandOptions) : UseCounts :=
  foldl (fun m key => map_set key (capacity_of i key) m) [] (concat (option_keys <$> evaluations)).

(** Storing the choice of one demand of a component. *)
Definition record_choice (options : list DemandOptions) (a : Assignment) (e : nat * Z) : Assignment :=
  if e.2 =? kSkipped then mkAssignment (<[e.1 := e.2]> (as_choice a)) (as_skipped a + 1) (as_cost a) (as_hops a)
  else
    match options !! e.1 ≫= (fun option_ => do_eligible option_ !! Z.to_nat e.2) with
    | Some use => take_use a e.1 e.2 use
    | None => a
    end.

(** The body of the loop over the components. *)
Definition component_step (i : PlanInputs) (options : list DemandOptions) (v : AssignState)
  (entry : nat * list nat) : AssignState :=
  let evaluations := evaluations_at options entry.2 in
  let search := run (component_capacity i evaluations) evaluations (av_remaining v) in
  mkAssign (foldl (record_choice options) (av_assignment v) (zip entry.2 (as_choice (ss_best search))))
    (ss_remaining search)
    (av_nodes v + ss_nodes search)
    (av_proven v && ss_exhausted search).

Definition assign_demands (i : PlanInputs) (options : list DemandOptions) (reference_mode : bool) : AssignState :=
  let assignment := mkAssignment (replicate (length options) kSkipped) 0 0 0 in
  if negb (capacity_binding i options) && negb reference_mode then
    mkAssign (foldl greedy_step assignment (indexed options)) 0 0 true
  else
    foldl (component_step i options)
      (mkAssign assignment (max_candidates_evaluated (pi_limits i)) 0 true)
      (components (demand_sets options) (length options)).

(** * Weights *)

(** Sums over lists of integers. *)
Definition zsum (l : list Z) : Z := foldr Z.add 0 l.

Lemma zsum_app l k : zsum (l ++ k) = zsum l + zsum k.
Proof. induction l as [|x l IH]; simpl; [done|]. rewrite IH. lia. Qed.

Lemma zsum_perm l k : l ≡ₚ k -> zsum l = zsum k.
Proof. induction 1; simpl; lia. Qed.

Lemma zsum_le {A} (f g : A -> Z) l : (forall x, x ∈ l -> f x <= g x) -> zsum (f <$> l) <= zsum (g <$> l).
Proof.
  induction l as [|x l IH]; intros H; [done|]. cbn [fmap list_fmap]. cbn [zsum foldr].
  specialize (H x ltac:(by left)) as Hx. specialize (IH (fun y Hy => H y (list_elem_of_further _ _ _ Hy))).
  unfold zsum in IH. lia.
Qed.

Lemma zsum_eq {A} (f g : A -> Z) l : (forall x, x ∈ l -> f x <= g x) -> zsum (f <$> l) = zsum (g <$> l) ->
  forall x, x ∈ l -> f x = g x.
Proof.
  induction l as [|y l IH]; intros H Hs x Hx; [by apply not_elem_of_nil in Hx|].
  assert (Hl : forall z, z ∈ l -> f z <= g z) by (intros z Hz; apply H; by right).
  pose proof (zsum_le f g l Hl) as Hle. specialize (H y ltac:(by left)) as Hy.
  cbn [fmap list_fmap zsum foldr] in Hs. fold (zsum (f <$> l)) in Hs. fold (zsum (g <$> l)) in Hs.
  apply elem_of_cons in Hx as [->|Hx]; [lia|]. apply IH; [done|lia|done].
Qed.

Lemma zsum_zero {A} (f : A -> Z) l : (forall x, x ∈ l -> f x = 0) -> zsum (f <$> l) = 0.
Proof.
  induction l as [|x l IH]; intros H; [done|]. cbn [fmap list_fmap zsum foldr]. fold (zsum (f <$> l)).
  rewrite IH, H by (set_solver). done.
Qed.

Lemma zsum_concat {A} (f : A -> Z) (ls : list (list A)) :
  zsum (f <$> concat ls) = zsum ((fun l => zsum (f <$> l)) <$> ls).
Proof. induction ls as [|l ls IH]; [done|]. cbn [concat fmap list_fmap]. rewrite fmap_app, zsum_app, IH. done. Qed.

(** One number for the three quantities an assignment is compared on. *)
Definition weight_at (option_ : DemandOptions) (selected : Z) : Z :=
  match selected_use option_ selected with
  | Some use => two64 * rc_cost (cu_candidate use) + zlen (rc_hops (cu_candidate use))
  | None => two64 * two64
  end.

(** The sum of a quantity over the demands of an assignment. *)
Fixpoint zip_sum (f : DemandOptions -> Z -> Z) (evaluations : list DemandOptions) (choice : list Z) : Z :=
  match evaluations, choice with
  | e :: es, c :: cs => f e c + zip_sum f es cs
  | _, _ => 0
  end.

Abbreviation weight := (zip_sum weight_at).

(** The alternatives of a demand as [evaluate_demand] delivers them. *)
Record options_fine (option_ : DemandOptions) : Prop := {
  of_ok : options_ok option_;
  of_cost : Forall (fun u => 0 <= rc_cost (cu_candidate u) < two32) (do_eligible option_);
  of_hops : Forall (fun u => zlen (rc_hops (cu_candidate u)) < two32) (do_eligible option_);
  of_sorted : sorted_by use_less (do_eligible option_)
}.

Lemma fine_ok es : Forall options_fine es -> Forall options_ok es.
Proof. intros H. eapply Forall_impl; [exact H|]. by intros e []. Qed.

Lemma selected_fine e c u : options_fine e -> selected_use e c = Some u ->
  0 <= rc_cost (cu_candidate u) < two32 /\ 0 <= zlen (rc_hops (cu_candidate u)) < two32.
Proof.
  intros [_ Hc Hh _]. unfold selected_use. destruct (_ =? _); [done|]. intros Hu%list_elem_of_lookup_2.
  rewrite Forall_forall in Hc, Hh. specialize (Hc u Hu). specialize (Hh u Hu). cbv beta in *.
  pose proof (zlen_nonneg (rc_hops (cu_candidate u))). lia.
Qed.

(** The totals of a summary stay below [2^64], so nothing saturates or wraps. *)
Record totals (n : Z) (a : Assignment) : Prop := {
  tt_skipped : 0 <= as_skipped a <= n;
  tt_cost : 0 <= as_cost a <= n * (two32 - 1);
  tt_hops : 0 <= as_hops a <= n * (two32 - 1)
}.

Definition weight_of (a : Assignment) : Z := two64 * two64 * as_skipped a + two64 * as_cost a + as_hops a.

Lemma summarise_from_weight es cs a n : Forall options_fine es -> length es = length cs ->
  0 <= n -> n + zlen es < two32 -> totals n a ->
  let b := foldl summarise_step a (zip es cs) in
  totals (n + zlen es) b /\ weight_of b = weight_of a + weight es cs.
Proof.
  intros Hes. revert cs a n. induction Hes as [|e es He Hes IH]; intros [|c cs] a n Hl Hn Hb Ha; try done; cbv zeta.
  { simpl. rewrite zlen_nil, Z.add_0_r. split; [done|lia]. }
  cbn [zip zip_with foldl zip_sum]. rewrite zlen_cons in *. pose proof (zlen_nonneg es) as Hz.
  assert (Hstep : totals (n + 1) (summarise_step a (e, c)) /\
                  weight_of (summarise_step a (e, c)) = weight_of a + weight_at e c).
  { destruct Ha as [A1 A2 A3]. unfold summarise_step, weight_at. cbn [fst snd].
    assert (Hbig : n * (two32 - 1) + (two32 - 1) < two64) by ints_lia.
    destruct (selected_use e c) as [u|] eqn:E.
    - destruct (selected_fine e c u He E) as [Hu1 Hu2]. unfold account_use, weight_of.
      cbn [as_skipped as_cost as_hops as_choice].
      assert (Hsat : saturating_add (as_cost a) (rc_cost (cu_candidate u)) = as_cost a + rc_cost (cu_candidate u)).
      { unfold saturating_add. rewrite (proj2 (Z.ltb_ge _ _)) by ints_lia. done. }
      assert (Hadd : add64 (as_hops a) (zlen (rc_hops (cu_candidate u))) = as_hops a + zlen (rc_hops (cu_candidate u))).
      { unfold add64, wrap64. apply Z.mod_small. lia. }
      rewrite Hadd, Hsat. split; [split; cbn [as_skipped as_cost as_hops]; lia|lia].
    - unfold account_skip, weight_of. cbn [as_skipped as_cost as_hops]. split; [split; cbn [as_skipped as_cost as_hops]; lia|lia]. }
  destruct Hstep as [H1 H2]. destruct (IH cs _ (n + 1) ltac:(simpl in Hl; lia) ltac:(lia) ltac:(lia) H1) as [H3 H4].
  replace (n + (zlen es + 1)) with (n + 1 + zlen es) by lia. split; [done|]. rewrite H4, H2. lia.
Qed.

Lemma summarise_weight es cs : Forall options_fine es -> length es = length cs -> zlen es < two32 ->
  totals (zlen es) (summarise cs es) /\ weight_of (summarise cs es) = weight es cs.
Proof.
  intros Hes Hl Hb. unfold summarise.
  destruct (summarise_from_weight es cs assignment_empty 0 Hes Hl) as [H1 H2]; [lia|lia|split; simpl; lia|].
  split; [done|]. rewrite H2. done.
Qed.

Lemma better_weight es a b : Forall options_fine es -> zlen es < two32 ->
  Forall2 valid_choice es a -> Forall2 valid_choice es b ->
  assignment_better (summarise a es) (summarise b es) =
  (weight es a <? weight es b) || ((weight es a =? weight es b) && vector_less a b).
Proof.
  intros Hes Hb Ha Hc. pose proof (fine_ok es Hes) as Ho.
  destruct (summarise_weight es a Hes (Forall2_length _ _ _ Ha) Hb) as [[A1 A2 A3] <-].
  destruct (summarise_weight es b Hes (Forall2_length _ _ _ Hc) Hb) as [[B1 B2 B3] <-].
  unfold assignment_better. rewrite !summarise_choice by done. unfold weight_of. pose proof (zlen_nonneg es).
  assert (zlen es * (two32 - 1) < two64) by ints_lia.
  set (x := summarise a es) in *. set (y := summarise b es) in *. unfold two64 in *.
  destruct (Z.eqb_spec (as_skipped x) (as_skipped y)) as [E1|E1]; cbn [negb].
  - destruct (Z.eqb_spec (as_cost x) (as_cost y)) as [E2|E2]; cbn [negb].
    + destruct (Z.eqb_spec (as_hops x) (as_hops y)) as [E3|E3]; cbn [negb].
      * rewrite (proj2 (Z.ltb_ge _ _)), (proj2 (Z.eqb_eq _ _)) by lia. done.
      * rewrite (proj2 (Z.eqb_neq _ _)) by lia. rewrite orb_false_r.
        destruct (Z.ltb_spec (as_hops x) (as_hops y)); symmetry; rewrite ?Z.ltb_lt, ?Z.ltb_ge; lia.
    + rewrite (proj2 (Z.eqb_neq _ _)) by lia. rewrite orb_false_r.
      destruct (Z.ltb_spec (as_cost x) (as_cost y)); symmetry; rewrite ?Z.ltb_lt, ?Z.ltb_ge; lia.
  - rewrite (proj2 (Z.eqb_neq _ _)) by lia. rewrite orb_false_r.
    destruct (Z.ltb_spec (as_skipped x) (as_skipped y)); symmetry; rewrite ?Z.ltb_lt, ?Z.ltb_ge; lia.
Qed.

(** ** Sums by index *)

Definition at_index (f : DemandOptions -> Z -> Z) (options : list DemandOptions) (choice : list Z) (index : nat) : Z :=
  match options !! index, choice !! index with Some e, Some c => f e c | _, _ => 0 end.

(** The part of a choice vector that concerns a component. *)
Definition restrict (choice : list Z) (indices : list nat) : list Z := omap (fun index => choice !! index) indices.

Lemma usage_zip_sum k es cs : usage k es cs = zip_sum (count_use k) es cs.
Proof. revert cs. induction es as [|e es IH]; intros [|c cs]; simpl; [done..|]. by rewrite IH. Qed.

Lemma at_index_here f options choice index e c : options !! index = Some e -> choice !! index = Some c ->
  at_index f options choice index = f e c.
Proof. unfold at_index. by intros -> ->. Qed.

Lemma sum_by_index f options choice : length options = length choice ->
  zip_sum f options choice = zsum (at_index f options choice <$> seq 0 (length options)).
Proof.
  revert choice. induction options as [|e es IH]; intros [|c cs] Hl; try done.
  cbn [zip_sum length]. rewrite <- cons_seq. cbn [fmap list_fmap zsum foldr]. f_equal.
  rewrite IH by (simpl in Hl; lia). rewrite <- fmap_S_seq, <- list_fmap_compose. done.
Qed.

Definition inside (n : nat) (indices : list nat) : Prop := forall index, index ∈ indices -> (index < n)%nat.

Lemma sum_restricted f options choice indices : length options = length choice -> inside (length options) indices ->
  zip_sum f (evaluations_at options indices) (restrict choice indices) =
  zsum (at_index f options choice <$> indices).
Proof.
  intros Hl. induction indices as [|i rest IH]; intros Hi; [done|].
  unfold evaluations_at, restrict in *. cbn [omap list_omap].
  destruct (lookup_lt_is_Some_2 options i) as [e He]; [apply Hi; by left|].
  destruct (lookup_lt_is_Some_2 choice i) as [c Hc]; [rewrite <- Hl; apply Hi; by left|].
  rewrite He, Hc. cbn [zip_sum fmap list_fmap zsum foldr]. rewrite (at_index_here f options choice i e c) by done.
  f_equal. apply IH. intros j Hj. apply Hi. by right.
Qed.

Lemma restrict_valid options choice indices : Forall2 valid_choice options choice ->
  Forall2 valid_choice (evaluations_at options indices) (restrict choice indices).
Proof.
  intros Hv. induction indices as [|i rest IH]; [constructor|]. unfold evaluations_at, restrict in *. cbn [omap list_omap].
  destruct (options !! i) as [e|] eqn:He, (choice !! i) as [c|] eqn:Hc; [|exfalso|exfalso|done].
  - constructor; [|done]. by apply (Forall2_lookup_lr _ _ _ _ _ _ Hv He Hc).
  - apply lookup_lt_Some in He. apply lookup_ge_None in Hc. rewrite (Forall2_length _ _ _ Hv) in He. lia.
  - apply lookup_lt_Some in Hc. apply lookup_ge_None in He. rewrite (Forall2_length _ _ _ Hv) in He. lia.
Qed.

Lemma evaluations_forall (P : DemandOptions -> Prop) options indices : Forall P options -> Forall P (evaluations_at options indices).
Proof.
  intros H. apply Forall_forall. intros e (i & _ & He)%list_elem_of_omap. rewrite Forall_forall in H.
  apply H. by eapply list_elem_of_lookup_2.
Qed.

Lemma elem_of_evaluations options indices e : e ∈ evaluations_at options indices <->
  exists index, index ∈ indices /\ options !! index = Some e.
Proof. unfold evaluations_at. by rewrite list_elem_of_omap. Qed.

Lemma length_evaluations options indices : inside (length options) indices ->
  length (evaluations_at options indices) = length indices.
Proof.
  unfold evaluations_at. induction indices as [|i rest IH]; intros Hi; [done|]. cbn [omap list_omap].
  destruct (lookup_lt_is_Some_2 options i) as [e He]; [apply Hi; by left|]. rewrite He. simpl. f_equal.
  apply IH. intros j Hj. apply Hi. by right.
Qed.

(** ** Capacity *)

(** The assignments that respect the capacity of every generation. *)
Definition within_capacity (i : PlanInputs) (options : list DemandOptions) (choice : list Z) : Prop :=
  Forall2 valid_choice options choice /\ forall k, usage k options choice <= capacity_of i k.

Lemma count_use_untouched k e c : k ∉ option_keys e -> count_use k e c = 0.
Proof.
  intros Hk. unfold count_use. destruct (selected_use e c) as [u|] eqn:E; [|done].
  rewrite bool_decide_eq_false_2; [done|]. intros Hin. apply Hk. unfold option_keys. apply elem_of_concat.
  exists (cu_capacity_keys u). split; [done|]. apply list_elem_of_fmap. exists u. split; [done|].
  unfold selected_use in E. destruct (_ =? _); [done|]. by eapply list_elem_of_lookup_2.
Qed.

Lemma usage_untouched k es cs : (forall e, e ∈ es -> k ∉ option_keys e) -> usage k es cs = 0.
Proof.
  revert cs. induction es as [|e es IH]; intros [|c cs] H; try done. cbn [usage].
  rewrite count_use_untouched, IH by set_solver. done.
Qed.

Lemma capacity_fold i keys m k :
  map_find k (foldl (fun m key => map_set key (capacity_of i key) m) m keys) =
  if bool_decide (k ∈ keys) then Some (capacity_of i k) else map_find k m.
Proof.
  revert m. induction keys as [|x keys IH]; intros m; cbn [foldl]; [done|]. rewrite IH, map_find_set.
  destruct (decide (x = k)) as [->|Hne].
  - rewrite (bool_decide_eq_true_2 (k ∈ k :: keys)), (bool_decide_eq_true_2 (k = k)) by (done || by left).
    by case_bool_decide.
  - rewrite (bool_decide_eq_false_2 (x = k)) by done. by rewrite (bool_decide_ext (k ∈ x :: keys) (k ∈ keys)) by set_solver.
Qed.

Lemma capacity_table_fold i keys m k : (forall v, map_find k m = Some v -> v = capacity_of i k) ->
  map_find k (foldl (capacity_step i) m keys) =
  if bool_decide (k ∈ keys) then Some (capacity_of i k) else map_find k m.
Proof.
  revert m. induction keys as [|x keys IH]; intros m Hm; cbn [foldl]; [done|].
  assert (Hs : map_find k (capacity_step i m x) = if bool_decide (x = k) then Some (capacity_of i k) else map_find k m).
  { unfold capacity_step. destruct (map_find x m) as [v|] eqn:E.
    - destruct (bool_decide_reflect (x = k)) as [->|]; [by rewrite E, (Hm v E)|done].
    - rewrite map_find_set. by destruct (bool_decide_reflect (x = k)) as [->|]. }
  rewrite IH.
  - rewrite Hs. destruct (decide (x = k)) as [->|Hne].
    + rewrite (bool_decide_eq_true_2 (k ∈ k :: keys)), (bool_decide_eq_true_2 (k = k)) by (done || by left).
      by destruct (bool_decide (k ∈ keys)).
    + rewrite (bool_decide_eq_false_2 (x = k)) by done. by rewrite (bool_decide_ext (k ∈ x :: keys) (k ∈ keys)) by set_solver.
  - intros v. rewrite Hs. destruct (bool_decide (x = k)); [naive_solver|apply Hm].
Qed.

Lemma elem_of_all_keys k es : k ∈ concat (option_keys <$> es) <-> exists e, e ∈ es /\ k ∈ option_keys e.
Proof.
  rewrite elem_of_concat. split.
  - intros (l & Hk & (e & -> & He)%list_elem_of_fmap). eauto.
  - intros (e & He & Hk). exists (option_keys e). split; [done|]. apply list_elem_of_fmap. eauto.
Qed.

(** ** How many demands may use a generation *)

Lemma count_keys_fold keys m k : NoDup keys ->
  used_at (foldl count_key m keys) k = used_at m k + if bool_decide (k ∈ keys) then 1 else 0.
Proof.
  intros Hn. revert m. induction Hn as [|x keys Hx Hn IH]; intros m; cbn [foldl].
  { rewrite bool_decide_eq_false_2 by apply not_elem_of_nil. lia. }
  rewrite IH. unfold count_key at 1. rewrite used_at_set. destruct (decide (x = k)) as [->|Hne].
  - rewrite (bool_decide_eq_true_2 (k = k)), (bool_decide_eq_false_2 (k ∈ keys)),
      (bool_decide_eq_true_2 (k ∈ k :: keys)) by (done || by left). lia.
  - rewrite (bool_decide_eq_false_2 (x = k)) by done. by rewrite (bool_decide_ext (k ∈ x :: keys) (k ∈ keys)) by set_solver.
Qed.

Lemma potential_bounds k es cs : usage k es cs <= used_at (potential es) k.
Proof.
  unfold potential. enough (H : forall m, used_at m k + usage k es cs <=
    used_at (foldl (fun p e => foldl count_key p (touched e)) m es) k) by apply (H []).
  revert cs. induction es as [|e es IH]; intros cs m.
  { destruct cs; simpl; lia. }
  cbn [foldl]. destruct cs as [|c cs]; cbn [usage].
  - specialize (IH [] (foldl count_key m (touched e))). pose proof (usage_bound k es []).
    rewrite count_keys_fold in IH by apply canonical_NoDup, sort_and_dedupe_canonical.
    destruct (bool_decide _); lia.
  - specialize (IH cs (foldl count_key m (touched e))).
    rewrite count_keys_fold in IH by apply canonical_NoDup, sort_and_dedupe_canonical.
    pose proof (count_use_bound k e c). case_bool_decide as Hk; [lia|].
    rewrite count_use_untouched; [lia|]. intros Hin. apply Hk. unfold touched. by rewrite elem_of_sort_and_dedupe.
Qed.

Section capacities.
Context (i : PlanInputs) (Hcap : forall k, 0 <= capacity_of i k).

Lemma feasible_component es cs : feasible (component_capacity i es) es cs <-> within_capacity i es cs.
Proof using Hcap.
  unfold feasible, within_capacity, component_capacity. split; intros [Hv Hc]; (split; [done|]).
  - intros k. destruct (decide (k ∈ concat (option_keys <$> es))) as [Hk|Hk].
    + apply Hc. rewrite capacity_fold. by rewrite bool_decide_eq_true_2.
    + rewrite usage_untouched; [apply Hcap|]. intros e He Hin. apply Hk. apply elem_of_all_keys. eauto.
  - intros k limit. rewrite capacity_fold. case_bool_decide; [|done]. intros [= <-]. apply Hc.
Qed.

Lemma component_capacity_nonneg es k limit : map_find k (component_capacity i es) = Some limit -> 0 <= limit.
Proof using Hcap. unfold component_capacity. rewrite capacity_fold. case_bool_decide; [|done]. intros [= <-]. apply Hcap. Qed.

Lemma unbound_within es cs : capacity_binding i es = false -> Forall2 valid_choice es cs -> within_capacity i es cs.
Proof using Hcap.
  intros Hb Hv. split; [done|]. intros k. etrans; [apply potential_bounds|]. unfold used_at.
  destruct (map_find k (potential es)) as [n|] eqn:E; [|apply Hcap]. simpl.
  assert (Hall : forall e, e ∈ potential es -> match map_find e.1 (capacity_table i es) with None => true | Some limit => limit <? e.2 end = false).
  { intros e He. apply not_true_iff_false. intros Em. apply not_true_iff_false in Hb.
    apply Hb, existsb_exists. exists e. by rewrite <- list_elem_of_In. }
  specialize (Hall (k, n) (map_find_in k n _ E)). cbn [fst snd] in Hall. unfold capacity_table in Hall.
  rewrite capacity_table_fold in Hall by done. destruct (bool_decide _); [|done]. by apply Z.ltb_ge in Hall.
Qed.
End capacities.

(** The first difference of two vectors decides their order. *)
Lemma vector_less_difference (a b : list Z) : length a = length b ->
  vector_less a b = true <->
  exists p x y, take p a = take p b /\ a !! p = Some x /\ b !! p = Some y /\ x < y.
Proof.
  revert b. induction a as [|x a IH]; intros [|y b] Hl; try done; cbn [vector_less].
  { split; [done|]. intros (p & u & v & _ & Ha & _). by destruct p. }
  injection Hl as Hl. case_bool_decide as Hxy.
  - subst y. rewrite (IH b Hl). split.
    + intros (p & u & v & Ht & Ha & Hb & Huv). exists (S p), u, v. cbn [take lookup list_lookup]. by rewrite Ht.
    + intros (p & u & v & Ht & Ha & Hb & Huv). destruct p as [|p]; [injection Ha as ->; injection Hb as ->; lia|].
      exists p, u, v. cbn [take] in Ht. by injection Ht as ->.
  - split.
    + intros H%Z.ltb_lt. exists 0%nat, x, y. done.
    + intros (p & u & v & Ht & Ha & Hb & Huv). destruct p as [|p].
      * injection Ha as ->. injection Hb as ->. by apply Z.ltb_lt.
      * cbn [take] in Ht. by injection Ht.
Qed.

Lemma vector_less_pointwise (a b : list Z) : Forall2 Z.le a b -> vector_less b a = false.
Proof.
  intros Hab. apply not_true_iff_false. intros H.
  apply vector_less_difference in H as (p & x & y & _ & Hx & Hy & Hlt); [|symmetry; by eapply Forall2_length].
  pose proof (Forall2_lookup_lr _ _ _ _ _ _ Hab Hy Hx). lia.
Qed.

Definition greedy_pick (option_ : DemandOptions) : Z :=
  match do_eligible option_ with [] => kSkipped | _ => 0 end.

Lemma greedy_from es pre a : as_choice a = pre ++ replicate (length es) kSkipped ->
  as_choice (foldl greedy_step a (zip (seq (length pre) (length es)) es)) = pre ++ (greedy_pick <$> es).
Proof.
  revert pre a. induction es as [|e es IH]; intros pre a Ha; [done|].
  cbn [length seq zip zip_with foldl fmap list_fmap]. cbn [length replicate] in Ha.
  replace (pre ++ greedy_pick e :: (greedy_pick <$> es)) with ((pre ++ [greedy_pick e]) ++ (greedy_pick <$> es))
    by (by rewrite <- app_assoc).
  rewrite <- (IH (pre ++ [greedy_pick e]) (greedy_step a (length pre, e))).
  - rewrite length_app. simpl. by rewrite Nat.add_1_r.
  - unfold greedy_step, greedy_pick. cbn [fst snd]. destruct (do_eligible e) as [|u us]; cbn [as_choice take_use]; rewrite Ha.
    + by rewrite <- app_assoc.
    + rewrite insert_app_r_alt by done. rewrite Nat.sub_diag. simpl. by rewrite <- app_assoc.
Qed.

Lemma greedy_choice es :
  as_choice (foldl greedy_step (mkAssignment (replicate (length es) kSkipped) 0 0 0) (indexed es)) = greedy_pick <$> es.
Proof. apply (greedy_from es []). done. Qed.

Lemma first_is_cheapest e u us u' : options_fine e -> do_eligible e = u :: us -> u' ∈ do_eligible e ->
  two64 * rc_cost (cu_candidate u) + zlen (rc_hops (cu_candidate u)) <=
  two64 * rc_cost (cu_candidate u') + zlen (rc_hops (cu_candidate u')).
Proof.
  intros [_ Hc Hh Hs] He Hu. rewrite He in *. apply elem_of_cons in Hu as [->|Hu]; [lia|].
  inversion Hs as [|? ? Hs' Hall]; subst. rewrite Forall_forall in Hall. specialize (Hall u' Hu). cbv beta in Hall.
  rewrite Forall_forall in Hc, Hh. pose proof (Hc u ltac:(by left)) as Hc1. pose proof (Hc u' ltac:(by right)) as Hc2.
  pose proof (Hh u ltac:(by left)) as Hh1. pose proof (Hh u' ltac:(by right)) as Hh2. cbv beta in *.
  pose proof (zlen_nonneg (rc_hops (cu_candidate u'))) as Hz.
  unfold use_less, candidate_order_less in Hall.
  destruct (Z.eqb_spec (rc_cost (cu_candidate u')) (rc_cost (cu_candidate u))) as [E|E]; cbn [negb] in Hall.
  - destruct (Z.eqb_spec (zlen (rc_hops (cu_candidate u'))) (zlen (rc_hops (cu_candidate u)))); cbn [negb] in Hall; [lia|].
    apply Z.ltb_ge in Hall. lia.
  - apply Z.ltb_ge in Hall. ints_lia.
Qed.

Lemma greedy_best e c : options_fine e -> valid_choice e c ->
  valid_choice e (greedy_pick e) /\ weight_at e (greedy_pick e) <= weight_at e c /\ greedy_pick e <= c.
Proof.
  intros He Hv. pose proof (oo_count _ (of_ok _ He)) as Hn. unfold greedy_pick.
  destruct (do_eligible e) as [|u us] eqn:El.
  - assert (c = kSkipped) as ->. { destruct Hv as [|Hv]; [done|]. unfold zlen in Hv. rewrite El in Hv. simpl in Hv. lia. }
    split; [by left|lia].
  - destruct (selected_index e 0 u (of_ok _ He) ltac:(lia)) as [Hs0 Hv0]; [by rewrite El|].
    split; [done|]. unfold weight_at. rewrite Hs0.
    destruct (selected_fine e 0 u He Hs0) as [H1 H2]. destruct Hv as [->|Hv].
    + rewrite selected_skip. split; [ints_lia|unfold kSkipped; ints_lia].
    + destruct (lookup_lt_is_Some_2 (do_eligible e) (Z.to_nat c)) as [u' Hu']; [unfold zlen in Hv; lia|].
      destruct (selected_index e c u' (of_ok _ He) ltac:(lia) Hu') as [-> _]. split; [|lia].
      eapply first_is_cheapest; [done|exact El|]. by eapply list_elem_of_lookup_2.
Qed.

(** The assignment no other one within capacity improves on. *)
Definition best_assignment (i : PlanInputs) (options : list DemandOptions) (choice : list Z) : Prop :=
  within_capacity i options choice /\
  forall other, within_capacity i options other ->
    assignment_better (summarise other options) (summarise choice options) = false.

Lemma greedy_pointwise es cs : Forall options_fine es -> Forall2 valid_choice es cs ->
  Forall2 valid_choice es (greedy_pick <$> es) /\ weight es (greedy_pick <$> es) <= weight es cs /\
  Forall2 Z.le (greedy_pick <$> es) cs.
Proof.
  intros Hes Hv. induction Hv as [|e c es cs Hc Hv IH]; [by repeat constructor|].
  inversion_clear Hes as [|? ? He Hes']. destruct (IH Hes') as (H1 & H2 & H3).
  destruct (greedy_best e c He Hc) as (G1 & G2 & G3). cbn [fmap list_fmap zip_sum].
  split; [by constructor|]. split; [lia|by constructor].
Qed.

Lemma greedy_best_assignment i es : (forall k, 0 <= capacity_of i k) -> Forall options_fine es -> zlen es < two32 ->
  capacity_binding i es = false -> best_assignment i es (greedy_pick <$> es).
Proof.
  intros Hcap Hes Hl Hb.
  assert (Hv : Forall2 valid_choice es (greedy_pick <$> es)).
  { apply (greedy_pointwise es (replicate (length es) kSkipped) Hes). by apply (skip_all_feasible []). }
  split; [by apply unbound_within|]. intros other [Ho _]. rewrite better_weight by done.
  destruct (greedy_pointwise es other Hes Ho) as (_ & H2 & H3).
  rewrite (proj2 (Z.ltb_ge _ _)), (vector_less_pointwise _ _ H3) by done. by rewrite andb_false_r.
Qed.

(** ** The split into components *)

(** Two demands compete when some generation serves alternatives of both. *)
Definition competing (options : list DemandOptions) (a b : nat) : Prop :=
  exists k e e', options !! a = Some e /\ options !! b = Some e' /\ k ∈ option_keys e /\ k ∈ option_keys e'.

Lemma user_keys_fold (index : nat) (keys : list SwitchKey) (m : list (SwitchKey * list nat)) k j :
  j ∈ default [] (map_find k (foldl (fun m key => map_set key (default [] (map_find key m) ++ [index]) m) m keys)) <->
  j ∈ default [] (map_find k m) \/ (k ∈ keys /\ j = index).
Proof.
  revert m. induction keys as [|x keys IH]; intros m; cbn [foldl]; [set_solver|]. rewrite IH, map_find_set.
  destruct (bool_decide_reflect (x = k)) as [->|Hne]; simpl; set_solver.
Qed.

Lemma users_from es start (m : list (SwitchKey * list nat)) k j :
  j ∈ default [] (map_find k (foldl user_step m (zip (seq start (length es)) es))) <->
  j ∈ default [] (map_find k m) \/
  exists p e, es !! p = Some e /\ j = (start + p)%nat /\ k ∈ option_keys e.
Proof.
  revert start m. induction es as [|e es IH]; intros start m; cbn [length seq zip zip_with foldl].
  { split; [by left|]. intros [H|(p & e & H & _)]; [done|by destruct p]. }
  rewrite IH. unfold user_step at 1. cbn [fst snd]. rewrite user_keys_fold. unfold touched.
  rewrite elem_of_sort_and_dedupe. split.
  - intros [[H|[H ->]]|(p & e' & Hp & -> & Hk)]; [by left| |].
    + right. exists 0%nat, e. split; [done|]. split; [lia|done].
    + right. exists (S p), e'. split; [done|]. split; [lia|done].
  - intros [H|([|p] & e' & Hp & -> & Hk)]; [tauto| |].
    + injection Hp as ->. left. right. split; [done|lia].
    + right. exists p, e'. split; [done|]. split; [lia|done].
Qed.

Lemma elem_of_users es k j :
  j ∈ default [] (map_find k (users es)) <-> exists e, es !! j = Some e /\ k ∈ option_keys e.
Proof.
  unfold users, indexed. rewrite users_from. split.
  - intros [H|(p & e & Hp & -> & Hk)]; [set_solver|]. by exists e.
  - intros (e & He & Hk). right. exists j, e. done.
Qed.

Lemma joined_trans sets a b c : joined sets a b -> joined sets b c -> joined sets a c.
Proof. intros (r & Ha & Hb) (r' & Hb' & Hc). exists r. split; [done|]. by rewrite (root_unique _ _ _ _ Hb Hb'). Qed.

Lemma joined_sym sets a b : joined sets a b -> joined sets b a.
Proof. intros (r & Ha & Hb). by exists r. Qed.

(** [sets'] is well formed and keeps the joins of [sets]. *)
Definition extends (sets sets' : DisjointSet) : Prop :=
  sets_wf sets' /\ length sets' = length sets /\ forall a b, joined sets a b -> joined sets' a b.

Lemma extends_trans a b c : extends a b -> extends b c -> extends a c.
Proof. intros (A1 & A2 & A3) (B1 & B2 & B3). split; [done|]. split; [congruence|auto]. Qed.

Lemma unite_rest front rest sets : sets_wf sets -> (front < length sets)%nat -> inside (length sets) rest ->
  let sets' := foldl (fun s index => unite s front index) sets rest in
  extends sets sets' /\ forall j, j ∈ rest -> joined sets' front j.
Proof.
  revert sets. induction rest as [|x rest IH]; intros sets Hw Hf Hi; cbv zeta; cbn [foldl].
  { split; [done|set_solver]. }
  destruct (unite_spec sets front x Hw Hf ltac:(apply Hi; by left)) as (U1 & U2 & U3 & U4).
  destruct (IH (unite sets front x) U1) as [E Hj]; [by rewrite U2|rewrite U2; intros j Hj; apply Hi; by right|].
  split; [by eapply extends_trans|]. intros j [->|Hin]%elem_of_cons; [|auto]. by apply E.
Qed.

Lemma unite_users_spec sets entry : sets_wf sets -> inside (length sets) entry.2 ->
  extends sets (unite_users sets entry) /\
  forall a b, a ∈ entry.2 -> b ∈ entry.2 -> joined (unite_users sets entry) a b.
Proof.
  intros Hw Hi. unfold unite_users. destruct (entry.2) as [|front rest]; [split; [done|set_solver]|].
  destruct (unite_rest front rest sets Hw) as [E Hj]; [apply Hi; by left|intros j Hj; apply Hi; by right|].
  split; [done|]. set (sets' := foldl _ _ _) in *.
  assert (Hf : joined sets' front front).
  { destruct (root_exists sets' front) as [r Hr]; [apply E|]. by exists r. }
  assert (Hall : forall a, a ∈ front :: rest -> joined sets' front a).
  { intros a [->|Ha]%elem_of_cons; auto. }
  intros a b Ha Hb. eapply joined_trans; [apply joined_sym|]; by apply Hall.
Qed.

Lemma unite_all sets entries : sets_wf sets -> Forall (fun e => inside (length sets) e.2) entries ->
  extends sets (foldl unite_users sets entries) /\
  forall k l a b, (k, l) ∈ entries -> a ∈ l -> b ∈ l -> joined (foldl unite_users sets entries) a b.
Proof.
  revert sets. induction entries as [|e entries IH]; intros sets Hw Hi; cbn [foldl]; [split; [done|set_solver]|].
  inversion_clear Hi as [|? ? He Hi']. destruct (unite_users_spec sets e Hw He) as [E1 J1].
  destruct (IH (unite_users sets e)) as [E2 J2]; [apply E1|by rewrite (proj1 (proj2 E1))|].
  split; [by eapply extends_trans|]. intros k l a b [<-|Hin]%elem_of_cons Ha Hb; [|by eapply J2].
  apply E2. by apply J1.
Qed.

Lemma users_wf es : map_wf (users es).
Proof.
  unfold users. generalize (indexed es). intros l. assert (H : map_wf (@nil (SwitchKey * list nat))) by constructor.
  revert H. generalize (@nil (SwitchKey * list nat)). induction l as [|[index e] l IH]; intros m Hm; [done|].
  cbn [foldl]. apply IH. unfold user_step. cbn [fst snd]. revert m Hm. induction (touched e) as [|k keys IHk]; intros m Hm; [done|].
  cbn [foldl]. apply IHk. by apply map_set_wf.
Qed.

Lemma demand_sets_spec es :
  sets_wf (demand_sets es) /\ forall a b, competing es a b -> joined (demand_sets es) a b.
Proof.
  assert (Hfind : forall k l j, (k, l) ∈ users es -> j ∈ l -> exists e, es !! j = Some e /\ k ∈ option_keys e).
  { intros k l j Hin Hj. apply elem_of_users. by rewrite (map_in_find k l _ (users_wf es) Hin). }
  destruct (unite_all (sets_new (length es)) (users es)) as [(E1 & _ & _) J].
  - apply sets_new_wf.
  - apply Forall_forall. intros [k l] Hin j Hj. destruct (Hfind k l j Hin Hj) as (e & He & _).
    rewrite sets_new_length. by eapply lookup_lt_Some.
  - split; [done|]. intros a b (k & e & e' & Ha & Hb & Hka & Hkb).
    assert (Hua : a ∈ default [] (map_find k (users es))) by (apply elem_of_users; eauto).
    assert (Hub : b ∈ default [] (map_find k (users es))) by (apply elem_of_users; eauto).
    destruct (map_find k (users es)) as [l|] eqn:Hl; [|set_solver]. by eapply J; [apply map_find_in| |].
Qed.

Lemma demand_partition es :
  partition (length es) (competing es) (map_values (components (demand_sets es) (length es))).
Proof.
  destruct (demand_sets_spec es) as [Hw Hj]. destruct (components_partition (demand_sets es) (length es) Hw) as [P1 P2 P3].
  split; [done|done|]. intros a b c Hab. by apply P3, Hj.
Qed.

(** ** Merging the components *)

Section merge.
Context (i : PlanInputs) (options : list DemandOptions) (classes : list (list nat)).
Context (Hcap : forall k, 0 <= capacity_of i k) (Hfine : Forall options_fine options) (Hlen : zlen options < two32).
Context (Hpart : partition (length options) (competing options) classes).

Lemma class_inside c : c ∈ classes -> inside (length options) c.
Proof using Hpart.
  intros Hc j Hj. assert (Hin : j ∈ concat classes) by (apply elem_of_concat; eauto).
  rewrite (pt_all _ _ _ Hpart) in Hin. apply elem_of_seq in Hin. lia.
Qed.

Lemma class_sums f choice : length options = length choice ->
  zip_sum f options choice =
  zsum ((fun c => zip_sum f (evaluations_at options c) (restrict choice c)) <$> classes).
Proof using Hpart.
  intros Hl. rewrite sum_by_index by done.
  rewrite <- (zsum_perm _ _ (fmap_Permutation _ _ _ (pt_all _ _ _ Hpart))), zsum_concat. f_equal.
  apply list_fmap_ext. intros ? c Hc%list_elem_of_lookup_2. symmetry. apply sum_restricted; [done|by apply class_inside].
Qed.

Lemma class_usage k choice c : length options = length choice -> c ∈ classes ->
  usage k (evaluations_at options c) (restrict choice c) <= usage k options choice.
Proof using Hpart.
  intros Hl [c1 [c2 Hsplit]]%list_elem_of_split. rewrite !usage_zip_sum, (class_sums (count_use k)) by done.
  rewrite Hsplit, fmap_app, zsum_app. cbn [fmap list_fmap]. cbn [zsum foldr].
  assert (Hnn : forall l, 0 <= zsum ((fun c => zip_sum (count_use k) (evaluations_at options c) (restrict choice c)) <$> l)).
  { intros l. etrans; [|apply (zsum_le (fun _ => 0))]; [by rewrite zsum_zero|].
    intros x _. rewrite <- usage_zip_sum. apply usage_bound. }
  pose proof (Hnn c1). pose proof (Hnn c2) as H2. unfold zsum in H2. lia.
Qed.

Lemma class_within choice c : within_capacity i options choice -> c ∈ classes ->
  within_capacity i (evaluations_at options c) (restrict choice c).
Proof using Hpart.
  intros [Hv Hu] Hc. split; [by apply restrict_valid|]. intros k. etrans; [|apply Hu].
  apply class_usage; [by eapply Forall2_length|done].
Qed.

(** A generation is used by the demands of one class only. *)
Lemma usage_one_class k choice c index e : length options = length choice -> c ∈ classes -> index ∈ c ->
  options !! index = Some e -> k ∈ option_keys e ->
  usage k options choice = usage k (evaluations_at options c) (restrict choice c).
Proof using Hpart.
  intros Hl Hc Hi He Hk. pose proof (pt_all _ _ _ Hpart) as Hall. pose proof (class_inside c Hc) as Hin.
  apply list_elem_of_split in Hc as Hs. destruct Hs as (c1 & c2 & Hsplit).
  rewrite !usage_zip_sum, sum_restricted, sum_by_index by done. rewrite <- (zsum_perm _ _ (fmap_Permutation _ _ _ Hall)).
  rewrite Hsplit, concat_app. cbn [concat]. rewrite !fmap_app, !zsum_app.
  assert (Hnd : NoDup (concat classes)) by (rewrite Hall; apply NoDup_seq).
  rewrite Hsplit, concat_app in Hnd. cbn [concat] in Hnd.
  apply NoDup_app in Hnd as (_ & Hd1 & Hnd). apply NoDup_app in Hnd as (_ & Hd2 & _).
  assert (Hout : forall j, j ∉ c -> at_index (count_use k) options choice j = 0).
  { intros j Hj. unfold at_index. destruct (options !! j) as [e'|] eqn:He', (choice !! j) as [d|]; try done.
    apply count_use_untouched. intros Hk'. apply Hj.
    apply (pt_link _ _ _ Hpart index); [by exists k, e, e'|done|done|by eapply lookup_lt_Some]. }
  rewrite (zsum_zero _ (concat c1)), (zsum_zero _ (concat c2)); [lia| |]; intros j Hj; apply Hout; intros Hjc.
  - by apply (Hd2 j).
  - apply (Hd1 j Hj). apply elem_of_app. by left.
Qed.

Lemma merge_within choice : length options = length choice ->
  (forall c, c ∈ classes -> within_capacity i (evaluations_at options c) (restrict choice c)) ->
  within_capacity i options choice.
Proof using Hpart Hcap.
  intros Hl Hall.
  assert (Hclass : forall j, (j < length options)%nat -> exists c, c ∈ classes /\ j ∈ c).
  { intros j Hj. assert (Hin : j ∈ concat classes) by (rewrite (pt_all _ _ _ Hpart); apply elem_of_seq; lia).
    apply elem_of_concat in Hin as (c & ? & ?). eauto. }
  split.
  - apply Forall2_same_length_lookup_2; [done|]. intros j e d He Hd.
    destruct (Hclass j ltac:(by eapply lookup_lt_Some)) as (c & Hc & Hjc).
    destruct (Hall c Hc) as [Hv _]. pose proof (class_inside c Hc) as Hin. clear -Hjc Hv He Hd Hin Hl.
    induction c as [|x c IH]; [set_solver|]. unfold evaluations_at, restrict in *. cbn [omap list_omap] in Hv.
    destruct (lookup_lt_is_Some_2 options x) as [ex Hx]; [apply Hin; by left|].
    destruct (lookup_lt_is_Some_2 choice x) as [dx Hdx]; [rewrite <- Hl; apply Hin; by left|].
    rewrite Hx, Hdx in Hv. inversion_clear Hv as [|? ? ? ? V1 V2]. apply elem_of_cons in Hjc as [->|Hjc]; [congruence|].
    apply IH; [done|done|]. intros y Hy. apply Hin. by right.
  - intros k. destruct (decide (k ∈ concat (option_keys <$> options))) as [Hk|Hk].
    + apply elem_of_all_keys in Hk as (e & (j & Hj)%list_elem_of_lookup_1 & Hk).
      destruct (Hclass j ltac:(by eapply lookup_lt_Some)) as (c & Hc & Hjc).
      rewrite (usage_one_class k choice c j e) by done. by apply Hall.
    + rewrite usage_untouched; [apply Hcap|]. intros e He Hin. apply Hk, elem_of_all_keys. eauto.
Qed.

Lemma restrict_less (o m : list Z) c p x y : canonical c -> p ∈ c -> inside (length o) c -> length o = length m ->
  take p o = take p m -> o !! p = Some x -> m !! p = Some y -> x < y ->
  vector_less (restrict o c) (restrict m c) = true.
Proof.
  intros Hc Hp Hin Hl Ht Hx Hy Hlt. induction c as [|q c IH]; [set_solver|].
  apply canonical_inv in Hc as [Hc Hq]. unfold restrict in *. cbn [omap list_omap].
  destruct (decide (q = p)) as [->|Hne].
  - rewrite Hx, Hy. cbn [vector_less]. rewrite bool_decide_eq_false_2 by lia. by apply Z.ltb_lt.
  - apply elem_of_cons in Hp as [->|Hp]; [done|]. specialize (Hq p Hp). apply Nat.ltb_lt in Hq.
    destruct (lookup_lt_is_Some_2 o q) as [v Hv]; [apply Hin; by left|].
    assert (Hv' : m !! q = Some v).
    { rewrite <- (lookup_take_lt m p q) by done. rewrite <- Ht. by rewrite lookup_take_lt. }
    rewrite Hv, Hv'. cbn [vector_less]. rewrite bool_decide_eq_true_2 by done. apply IH; [done|done|].
    intros j Hj. apply Hin. by right.
Qed.

Lemma class_sorted c : c ∈ classes -> canonical c.
Proof using Hpart. apply (proj1 (Forall_forall _ _) (pt_sorted _ _ _ Hpart)). Qed.

Lemma class_fine c : c ∈ classes -> Forall options_fine (evaluations_at options c) /\ zlen (evaluations_at options c) < two32.
Proof using Hpart Hfine Hlen.
  intros Hc. split; [by apply evaluations_forall|]. pose proof (class_inside c Hc) as Hin. unfold zlen in *.
  rewrite length_evaluations by done. eapply Z.le_lt_trans; [|exact Hlen].
  assert (H : NoDup c) by (by apply canonical_NoDup, class_sorted).
  assert (Hs : c ⊆+ seq 0 (length options)).
  { apply NoDup_submseteq; [done|]. intros j Hj. apply elem_of_seq. specialize (Hin j Hj). lia. }
  apply submseteq_length in Hs. rewrite length_seq in Hs. lia.
Qed.

Lemma merge_best choice : length options = length choice ->
  (forall c, c ∈ classes -> best_assignment i (evaluations_at options c) (restrict choice c)) ->
  best_assignment i options choice.
Proof using Hpart Hcap Hfine Hlen.
  intros Hl Hall.
  assert (Hw : within_capacity i options choice) by (apply merge_within; [done|]; intros c Hc; by apply Hall).
  split; [done|]. intros other Ho. rewrite better_weight by (apply Ho || apply Hw || done).
  pose proof (Forall2_length _ _ _ (proj1 Ho)) as Hlo.
  assert (Hclass : forall c, c ∈ classes ->
    weight (evaluations_at options c) (restrict choice c) <= weight (evaluations_at options c) (restrict other c) /\
    (weight (evaluations_at options c) (restrict choice c) = weight (evaluations_at options c) (restrict other c) ->
     vector_less (restrict other c) (restrict choice c) = false)).
  { intros c Hc. destruct (Hall c Hc) as [[Hv _] Hb]. specialize (Hb _ (class_within other c Ho Hc)).
    destruct (class_fine c Hc) as [Hf Hz].
    rewrite better_weight in Hb by (done || by apply restrict_valid, Ho). apply orb_false_iff in Hb as [H1 H2].
    apply Z.ltb_ge in H1. split; [done|]. intros He. by rewrite He, Z.eqb_refl in H2. }
  rewrite (class_sums weight_at choice), (class_sums weight_at other) by done.
  set (f := fun c => weight (evaluations_at options c) (restrict choice c)) in *.
  set (g := fun c => weight (evaluations_at options c) (restrict other c)) in *.
  pose proof (zsum_le f g classes (fun c Hc => proj1 (Hclass c Hc))) as Hle.
  rewrite (proj2 (Z.ltb_ge _ _)) by done. cbn [orb].
  destruct (Z.eqb_spec (zsum (g <$> classes)) (zsum (f <$> classes))) as [He|]; [|done]. cbn [andb].
  apply not_true_iff_false. intros Hless.
  apply vector_less_difference in Hless as (p & x & y & Ht & Hx & Hy & Hlt); [|congruence].
  assert (Hp : p ∈ concat classes).
  { rewrite (pt_all _ _ _ Hpart). apply elem_of_seq. rewrite Hlo. clear -Hx. apply lookup_lt_Some in Hx. lia. }
  apply elem_of_concat in Hp as (c & Hpc & Hc).
  pose proof (zsum_eq f g classes (fun c Hc => proj1 (Hclass c Hc)) (eq_sym He) c Hc) as Heq.
  pose proof (proj2 (Hclass c Hc) Heq) as Hnot.
  rewrite (restrict_less other choice c p x y) in Hnot; try done.
  - by apply class_sorted.
  - rewrite <- Hlo. by apply class_inside.
  - congruence.
Qed.
End merge.

(** * The component loop *)

Lemma record_length options a e : length (as_choice (record_choice options a e)) = length (as_choice a).
Proof.
  unfold record_choice. destruct (_ =? _); cbn [as_choice]; [by rewrite length_insert|].
  destruct (_ ≫= _); cbn [as_choice take_use]; by rewrite ?length_insert.
Qed.

Lemma record_lookup options a index e c : options !! index = Some e -> options_ok e -> valid_choice e c ->
  as_choice (record_choice options a (index, c)) = <[index := c]> (as_choice a).
Proof.
  intros He Ho Hv. unfold record_choice. cbn [fst snd]. destruct (Z.eqb_spec c kSkipped) as [|Hne]; [done|].
  destruct Hv as [|Hv]; [done|].
  destruct (lookup_lt_is_Some_2 (do_eligible e) (Z.to_nat c)) as [u Hu]; [unfold zlen in Hv; lia|].
  rewrite He. cbn [mbind option_bind]. by rewrite Hu.
Qed.

Lemma record_all options indices cs a : Forall options_ok options -> NoDup indices ->
  inside (length options) indices -> length (as_choice a) = length options ->
  Forall2 valid_choice (evaluations_at options indices) cs ->
  let b := foldl (record_choice options) a (zip indices cs) in
  length (as_choice b) = length options /\ restrict (as_choice b) indices = cs /\
  forall j, j ∉ indices -> as_choice b !! j = as_choice a !! j.
Proof.
  intros Ho Hn. revert cs a. induction Hn as [|x indices Hx Hn IH]; intros cs a Hin Hl Hv; cbv zeta.
  { inversion Hv; subst. done. }
  unfold evaluations_at in Hv. cbn [omap list_omap] in Hv.
  destruct (lookup_lt_is_Some_2 options x) as [e He]; [apply Hin; by left|]. rewrite He in Hv.
  inversion Hv as [|? c ? cs' Hc Hv']; subst. cbn [zip zip_with foldl].
  assert (Hoe : options_ok e) by (rewrite Forall_forall in Ho; apply Ho; by eapply list_elem_of_lookup_2).
  pose proof (record_lookup options a x e c He Hoe Hc) as Hr.
  destruct (IH cs' (record_choice options a (x, c))) as (B1 & B2 & B3); [intros j Hj; apply Hin; by right|by rewrite record_length|done|].
  set (b := foldl _ _ _) in *. split; [done|]. split.
  - unfold restrict in *. cbn [omap list_omap]. rewrite B3, Hr, list_lookup_insert_eq by (done || by rewrite Hl; eapply lookup_lt_Some).
    by f_equal.
  - intros j Hj. rewrite B3, Hr, list_lookup_insert_ne by set_solver. done.
Qed.

Lemma restrict_ext a b indices : (forall j, j ∈ indices -> a !! j = b !! j) -> restrict a indices = restrict b indices.
Proof.
  induction indices as [|x indices IH]; intros H; [done|]. unfold restrict in *. cbn [omap list_omap].
  rewrite (H x) by (by left). rewrite IH; [done|]. intros j Hj. apply H. by right.
Qed.

Section components_loop.
Context (i : PlanInputs) (options : list DemandOptions).
Context (Hcap : forall k, 0 <= capacity_of i k) (Hok : Forall options_ok options).

(** What a search of one class establishes. *)
Lemma class_search indices budget : inside (length options) indices -> zlen (evaluations_at options indices) < two32 ->
  0 <= budget ->
  let es := evaluations_at options indices in
  let s := run (component_capacity i es) es budget in
  within_capacity i es (as_choice (ss_best s)) /\
  (ss_exhausted s = true -> best_assignment i es (as_choice (ss_best s))) /\
  ss_nodes s + ss_remaining s = budget /\ 0 <= ss_remaining s <= budget /\
  (tree_size es <= budget -> ss_exhausted s = true /\ budget - tree_size es <= ss_remaining s).
Proof using Hcap Hok.
  intros Hin Hz Hb. cbv zeta. set (es := evaluations_at options indices) in *.
  assert (Ho : Forall options_ok es) by (by apply evaluations_forall).
  destruct (run_explores (component_capacity i es) es budget Hz Ho (component_capacity_nonneg i Hcap es) Hb)
    as (H1 & H2 & H3 & H4).
  split; [by apply feasible_component|]. split; [|split; [done|]; split; [lia|]].
  - intros He. destruct (H4 He) as [[Hf Hopt] _]. split; [by apply feasible_component|].
    intros other Ho'. apply Hopt. by apply feasible_component.
  - intros Ht. by apply dfs_affordable.
Qed.

(** The budget that suffices to search every class. *)
Definition class_budget (classes : list (list nat)) : Z :=
  zsum ((fun c => tree_size (evaluations_at options c)) <$> classes).

Record loop_result (entries : list (nat * list nat)) (v v' : AssignState) : Prop := {
  lr_length : length (as_choice (av_assignment v')) = length options;
  lr_outside : forall j, j ∉ concat (map_values entries) ->
    as_choice (av_assignment v') !! j = as_choice (av_assignment v) !! j;
  lr_within : forall c, c ∈ map_values entries ->
    within_capacity i (evaluations_at options c) (restrict (as_choice (av_assignment v')) c);
  lr_best : av_proven v' = true -> forall c, c ∈ map_values entries ->
    best_assignment i (evaluations_at options c) (restrict (as_choice (av_assignment v')) c);
  lr_nodes : av_nodes v' + av_remaining v' = av_nodes v + av_remaining v;
  lr_remaining : 0 <= av_remaining v' <= av_remaining v;
  lr_proven : av_proven v' = true -> av_proven v = true;
  lr_affordable : class_budget (map_values entries) <= av_remaining v -> av_proven v = true -> av_proven v' = true
}.

Lemma component_loop entries v : NoDup (concat (map_values entries)) -> inside (length options) (concat (map_values entries)) ->
  zlen options < two32 -> length (as_choice (av_assignment v)) = length options -> 0 <= av_remaining v ->
  loop_result entries v (foldl (component_step i options) v entries).
Proof using Hcap Hok.
  revert v. induction entries as [|[r c] entries IH]; intros v Hn Hin Hz Hl Hr.
  { split; try done; set_solver. }
  cbn [map_values fmap list_fmap concat snd] in Hn, Hin. fold (map_values entries) in Hn, Hin.
  apply NoDup_app in Hn as (Hnc & Hdis & Hn). cbn [foldl].
  assert (Hinc : inside (length options) c) by (intros j Hj; apply Hin, elem_of_app; by left).
  assert (Hzc : zlen (evaluations_at options c) < two32).
  { unfold zlen in *. rewrite length_evaluations by done. eapply Z.le_lt_trans; [|exact Hz].
    assert (Hs : c ⊆+ seq 0 (length options)).
    { apply NoDup_submseteq; [done|]. intros j Hj. apply elem_of_seq. specialize (Hinc j Hj). lia. }
    apply submseteq_length in Hs. rewrite length_seq in Hs. lia. }
  destruct (class_search c (av_remaining v) Hinc Hzc Hr) as (S1 & S2 & S3 & S4 & S5).
  set (es := evaluations_at options c) in *. set (s := run (component_capacity i es) es (av_remaining v)) in *.
  destruct (record_all options c (as_choice (ss_best s)) (av_assignment v) Hok Hnc Hinc Hl (proj1 S1)) as (R1 & R2 & R3).
  set (w := component_step i options v (r, c)). change (foldl (record_choice options) (av_assignment v) (zip c (as_choice (ss_best s))))
    with (av_assignment w) in *.
  assert (Hw1 : av_remaining w = ss_remaining s) by done. assert (Hw2 : av_nodes w = av_nodes v + ss_nodes s) by done.
  assert (Hw3 : av_proven w = av_proven v && ss_exhausted s) by done. clearbody w.
  destruct (IH w) as [L1 L2 L3 L4 L5 L6 L7 L8]; [done|intros j Hj; apply Hin, elem_of_app; by right|done|done|lia|].
  set (v' := foldl _ w entries) in *.
  assert (Hrc : restrict (as_choice (av_assignment v')) c = as_choice (ss_best s)).
  { rewrite <- R2. apply restrict_ext. intros j Hj. apply L2. by apply Hdis. }
  split; cbn [map_values fmap list_fmap concat snd]; fold (map_values entries).
  - done.
  - intros j [Hj1 Hj2]%not_elem_of_app. rewrite L2 by done. by apply R3.
  - intros d [->|Hd]%elem_of_cons; [by rewrite Hrc|by apply L3].
  - intros Hp d [->|Hd]%elem_of_cons; [|by apply L4]. rewrite Hrc. apply S2.
    specialize (L7 Hp). rewrite Hw3 in L7. apply andb_true_iff in L7. tauto.
  - lia.
  - lia.
  - intros Hp. specialize (L7 Hp). rewrite Hw3 in L7. apply andb_true_iff in L7. tauto.
  - intros Hb Hp. unfold class_budget in *. cbn [fmap list_fmap zsum foldr] in Hb. fold es in Hb.
    fold (zsum ((fun c => tree_size (evaluations_at options c)) <$> map_values entries)) in Hb.
    assert (Hrest : 0 <= zsum ((fun c => tree_size (evaluations_at options c)) <$> map_values entries)).
    { etrans; [|apply (zsum_le (fun _ => 0))]; [by rewrite zsum_zero|]. intros. apply tree_size_nonneg. }
    destruct (S5 ltac:(lia)) as [E1 E2]. apply L8; [lia|]. by rewrite Hw3, Hp, E1.
Qed.
End components_loop.

(** * Results *)

(** The budget the assignment phase needs to explore every component. *)
Definition assign_budget (options : list DemandOptions) : Z :=
  class_budget options (map_values (components (demand_sets options) (length options))).

Lemma assign_spec i options reference_mode :
  (forall k, 0 <= capacity_of i k) -> Forall options_fine options -> zlen options < two32 ->
  0 <= max_candidates_evaluated (pi_limits i) ->
  let v := assign_demands i options reference_mode in
  within_capacity i options (as_choice (av_assignment v)) /\
  (av_proven v = true -> best_assignment i options (as_choice (av_assignment v))) /\
  0 <= av_nodes v <= max_candidates_evaluated (pi_limits i) /\
  (assign_budget options <= max_candidates_evaluated (pi_limits i) -> av_proven v = true).
Proof.
  intros Hcap Hfine Hz Hb. cbv zeta. unfold assign_demands.
  destruct (negb (capacity_binding i options) && negb reference_mode) eqn:E.
  - apply andb_true_iff in E as [E _]. rewrite negb_true_iff in E.
    cbn [av_assignment av_proven av_nodes]. rewrite greedy_choice.
    pose proof (greedy_best_assignment i options Hcap Hfine Hz E) as Hg. split; [apply Hg|]. split; [done|]. split; [lia|done].
  - pose proof (demand_partition options) as Hpart. unfold assign_budget.
    set (entries := components (demand_sets options) (length options)) in *.
    destruct (component_loop i options Hcap (fine_ok _ Hfine) entries
      (mkAssign (mkAssignment (replicate (length options) kSkipped) 0 0 0) (max_candidates_evaluated (pi_limits i)) 0 true))
      as [L1 L2 L3 L4 L5 L6 L7 L8].
    + rewrite (pt_all _ _ _ Hpart). apply NoDup_seq.
    + intros j. rewrite (pt_all _ _ _ Hpart), elem_of_seq. lia.
    + done.
    + apply length_replicate.
    + done.
    + cbn [av_nodes av_remaining av_proven] in *. set (v := foldl _ _ _) in *.
      split; [by eapply merge_within|]. split; [|split].
      * intros Hp. eapply merge_best; [done|done|done|exact Hpart|done|by apply L4].
      * lia.
      * intros Ht. by apply L8.
Qed.

Lemma best_unique i options a b : Forall options_fine options -> best_assignment i options a ->
  best_assignment i options b -> a = b.
Proof.
  intros Hf [[Va Ca] Ba] [[Vb Cb] Bb]. pose proof (fine_ok _ Hf) as Ho.
  pose proof (Ba b (conj Vb Cb)) as H1. pose proof (Bb a (conj Va Ca)) as H2. rewrite assignment_better_key in H1, H2.
  assert (Hk : assignment_key (summarise a options) = assignment_key (summarise b options)).
  { by apply (less_total (less := ltb)). }
  unfold assignment_key in Hk. injection Hk as _ _ _ Hk. by rewrite !summarise_choice in Hk.
Qed.

(** C24. The assignment phase chooses well. Whichever path it takes, no generation
    is assigned more demands than its capacity and the budget shared by the
    components bounds the nodes visited. When it claims optimality (always on the
    fast path, otherwise when every component was searched to the end), no
    assignment of the whole set of demands that respects the capacities is
    preferred to the result: splitting demands into components that share no
    generation loses nothing. A sufficient budget always yields that claim. *)
Theorem demand_assignment_optimal i options reference_mode :
  (forall k, 0 <= capacity_of i k) -> Forall options_fine options -> zlen options < two32 ->
  0 <= max_candidates_evaluated (pi_limits i) ->
  let v := assign_demands i options reference_mode in
  within_capacity i options (as_choice (av_assignment v)) /\
  (av_proven v = true -> best_assignment i options (as_choice (av_assignment v))) /\
  0 <= av_nodes v <= max_candidates_evaluated (pi_limits i) /\
  (assign_budget options <= max_candidates_evaluated (pi_limits i) -> av_proven v = true).
Proof. apply assign_spec. Qed.

(** The fast path and the exhaustive search agree: when both runs claim
    optimality they select the same alternative for every demand, whatever
    their budgets. *)
Theorem fast_path_equals_search i i' options :
  (forall k, capacity_of i' k = capacity_of i k) ->
  (forall k, 0 <= capacity_of i k) -> Forall options_fine options -> zlen options < two32 ->
  0 <= max_candidates_evaluated (pi_limits i) -> 0 <= max_candidates_evaluated (pi_limits i') ->
  let v := assign_demands i options false in
  let v' := assign_demands i' options true in
  av_proven v = true -> av_proven v' = true ->
  as_choice (av_assignment v) = as_choice (av_assignment v').
Proof.
  intros Hsame Hcap Hf Hz Hb Hb'. cbv zeta. intros Hp Hp'. apply (best_unique i options); [done| |].
  - by apply assign_spec.
  - assert (Hcap' : forall k, 0 <= capacity_of i' k) by (intros k; by rewrite Hsame).
    destruct (assign_spec i' options true Hcap' Hf Hz Hb') as (_ & H & _). destruct (H Hp') as [[Hv Hu] Hbest].
    split; [split; [done|]; intros k; rewrite <- Hsame; apply Hu|].
    intros other [Ho Hou]. apply Hbest. split; [done|]. intros k. rewrite Hsame. apply Hou.
Qed.
