(* ===== verification/Planner.v ===== *)
(** The planner (build_demand_plan and plan_internal of
    src/plan/planning_core.cpp, plan_reconstruction of src/plan/planner.cpp)
    and the reference solver (src/plan/reference_solver.cpp). *)

From S2P Require Import Prelude Containers Core Generation Switch Authority Evidence Topology Decision Plan Policy.
From S2P Require Import Closures Candidates Search Partition Assign.

(** * The demands of a failure *)

#[export] Instance demand_strict_total : StrictTotal demand_less.
Proof.
  assert (Hinj : forall a b : Demand, (dm_dependent a, dm_failed a) = (dm_dependent b, dm_failed b) -> a = b).
  { intros [] [] [= -> ->]. done. }
  pose proof (strict_total_inj (fun d => (dm_dependent d, dm_failed d)) ltb Hinj) as [H1 H2 H3].
  assert (He : forall a b, demand_less a b = ltb (dm_dependent a, dm_failed a) (dm_dependent b, dm_failed b)).
  { intros a b. unfold demand_less. by rewrite ltb_pair. }
  split; intros *; rewrite ?He; eauto.
Qed.

#[export] Instance demand_ordered : Ordered Demand := {| ltb := demand_less |}.

Record DemandPlan := mkDemandPlan {
  dp_demands : list Demand;
  dp_options : list DemandOptions;
  dp_closure : DependencyClosure;
  dp_fences : list FenceStep;
  dp_closure_complete : bool;
  dp_enumeration_complete : bool
}.

Definition closure_default : DependencyClosure := mkClosure [] [] [] ClosureState.Empty 0 0 0 0.

(** `inputs.topology->closure(roots, limits)`. *)
Definition closure_run (i : PlanInputs) (roots : GenerationVector) : DependencyClosure :=
  default closure_default (closure (in_topology i) roots (pi_limits i)).

Definition root_closure (i : PlanInputs) (root : SwitchKey) : DependencyClosure :=
  closure_run i (gv_insert [] root).1.

Definition fence_step_of (i : PlanInputs) (root : SwitchKey) : FenceStep :=
  let c := root_closure i root in
  mkFenceStep root (closure_digest c) (dc_state c) (zlen (dc_members c)) (dc_omitted_frontier c).

(** `for (dependent : per_root[index].dependents) attribution[dependent].push_back(root);` *)
Definition attribute_root (i : PlanInputs) (attribution : list (DependentRef * list SwitchKey)) (root : SwitchKey) :
  list (DependentRef * list SwitchKey) :=
  foldl (fun m dependent => map_set dependent (default [] (map_find dependent m) ++ [root]) m)
    attribution (dc_dependents (root_closure i root)).

Definition attribution (i : PlanInputs) (failed : GenerationVector) : list (DependentRef * list SwitchKey) :=
  foldl (attribute_root i) [] failed.

Definition entry_demands (entry : DependentRef * list SwitchKey) : list Demand :=
  mkDemand entry.1 <$> sort_and_dedupe entry.2.

Definition demands_of (i : PlanInputs) (failed : GenerationVector) : list Demand :=
  sort_and_dedupe (concat (entry_demands <$> attribution i failed)).

Definition build_demand_plan (i : PlanInputs) (failed : GenerationVector) : DemandPlan :=
  let c := closure_run i failed in
  let enumerated := closure_complete c || bool_decide (dc_state c = ClosureState.Empty) in
  let demands := demands_of i failed in
  let options := evaluate_demand i <$> demands in
  mkDemandPlan demands options c (fence_step_of i <$> failed) (enumerated && enumerates_every_root c)
    (forallb do_enumeration_complete options).

(** * The plan *)

(** The first refusal of the loop over the failed generations. *)
Fixpoint check_failed (i : PlanInputs) (keys : list SwitchKey) : Status :=
  match keys with
  | [] => success
  | key :: rest =>
      if negb (key_valid key) then failure Code.Invalid "failed generation set contains an invalid key"
      else if negb (is_fenced (in_authority i) key) && negb (sa_fence_required (assess i key)) then
        failure Code.Invalid
          ("planning was requested for a generation that is neither fenced nor failing: " +:+ key_to_string key)
      else check_failed i rest
  end.

Definition unresolved_of (proven : bool) (option_ : DemandOptions) : UnresolvedDependent :=
  let why : UnresolvedReason * string :=
    if negb (bool_decide (do_eligible option_ = [])) && proven then
      (UnresolvedReason.CapacityExhausted, "admissible alternatives exist but every assignment saturates them"%string)
    else if negb (bool_decide (do_eligible option_ = [])) then
      (UnresolvedReason.SearchLimitReached, "no admissible assignment was found within the declared planning bound"%string)
    else (do_blocking_reason option_, do_blocking_detail option_) in
  mkUnresolved (dm_dependent (do_demand option_)) (dm_failed (do_demand option_)) why.1 why.2.

(** [hops.front()]; no alternative of a table has an empty hop list. *)
Definition restore_of (option_ : DemandOptions) (use : CandidateUse) : RestoreStep :=
  let c := cu_candidate use in
  mkRestore (dm_dependent (do_demand option_)) (dm_failed (do_demand option_)) PlanAction.RebindReplacement
    (default (mkSwitchKey 0 0) (head (rc_hops c))) (rc_hops c) (rc_links c) (rc_cost c) (rc_evidence c).

(** The loop that turns the choice into restores and unresolved entries. *)
Fixpoint settle (proven : bool) (options : list DemandOptions) (choice : list Z) :
  list RestoreStep * list UnresolvedDependent :=
  match options, choice with
  | option_ :: options, selected :: choice =>
      let '(restores, unresolved) := settle proven options choice in
      match selected_use option_ selected with
      | Some use => (restore_of option_ use :: restores, unresolved)
      | None => (restores, unresolved_of proven option_ :: unresolved)
      end
  | _, _ => ([], [])
  end.

Definition restore_less (a b : RestoreStep) : bool :=
  if negb (bool_decide (rs_dependent a = rs_dependent b)) then ltb (rs_dependent a) (rs_dependent b)
  else if negb (bool_decide (rs_covers_failed a = rs_covers_failed b)) then ltb (rs_covers_failed a) (rs_covers_failed b)
  else ltb (rs_replacement a) (rs_replacement b).

Definition unresolved_less (a b : UnresolvedDependent) : bool :=
  if negb (bool_decide (ud_dependent a = ud_dependent b)) then ltb (ud_dependent a) (ud_dependent b)
  else ltb (ud_covers_failed a) (ud_covers_failed b).

Definition feasibility_of (d : DemandPlan) (proven : bool) (restores : list RestoreStep) : PlanFeasibility :=
  if negb (dp_closure_complete d) || negb (dp_enumeration_complete d) || negb proven then
    PlanFeasibility.SearchLimitReached
  else if bool_decide (dp_demands d = []) then PlanFeasibility.NothingToRestore
  else if bool_decide (restores = []) then PlanFeasibility.ProvenInfeasible
  else PlanFeasibility.ProvenFeasible.

(** [plan_internal]: the sealed plan with the nodes the search visited. *)
Definition plan_internal (i : PlanInputs) (failed : GenerationVector) (reference_mode : bool) :
  Result (ReconstructionPlan * Z) :=
  let status := inputs_validate i in
  if negb (status_ok status) then Refused status
  else if bool_decide (failed = []) then
    Refused (failure Code.Invalid "planning requires at least one failed generation")
  else
    let status := check_failed i failed in
    if negb (status_ok status) then Refused status
    else
      let d := build_demand_plan i failed in
      let v := assign_demands i (dp_options d) reference_mode in
      let '(restores, unresolved) := settle (av_proven v) (dp_options d) (as_choice (av_assignment v)) in
      let restores := std_sort restore_less restores in
      let unresolved := std_sort unresolved_less unresolved in
      if negb (zlen (dp_options d) =? zlen restores + zlen unresolved) then
        Refused (failure Code.Invalid
          "plan accounting did not close: every demand must be restored or unresolved")
      else if max_unresolved_dependents (pi_limits i) <? zlen unresolved then
        Refused (refuse_exhausted "max_unresolved_dependents" (zlen unresolved) (max_unresolved_dependents (pi_limits i)))
      else
        Value (seal (mkPlan (if id_valid (pi_plan_id i) then pi_plan_id i else 1) (pi_epoch i) (pi_boot i) failed
                 (dp_fences d) restores unresolved (feasibility_of d (av_proven v) restores) PlanState.Draft
                 (dp_closure_complete d)
                 (allow_withhold_on_unresolved (pi_planning i) && negb (bool_decide (unresolved = [])))
                 (tp_digest (in_topology i)) (inputs_policy_digest i) 0),
               av_nodes v).

Definition plan_reconstruction (i : PlanInputs) (failed : GenerationVector) : Result ReconstructionPlan :=
  match plan_internal i failed false with
  | Value (plan, _) => Value plan
  | Refused status => Refused status
  end.

(** * The reference solver *)

#[export] Instance PlanFeasibility_eq_dec : EqDecision PlanFeasibility.
Proof. solve_decision. Defined.

Record ReferenceSolution := mkSolution {
  so_optimal_found : bool;
  so_exhausted : bool;
  so_nodes_visited : Z;
  so_node_budget : Z;
  so_plan : ReconstructionPlan;
  so_outcome : Code
}.

Definition plan_default : ReconstructionPlan :=
  mkPlan 0 0 boot_none [] [] [] [] PlanFeasibility.Unknown PlanState.Draft false false 0 0 0.

Definition with_search_budget (i : PlanInputs) (budget : Z) : PlanInputs :=
  let l := pi_limits i in
  mkInputs (pi_topology i) (pi_candidates i) (pi_evidence i) (pi_failures i) (pi_authority i)
    (mkLimits (max_switches l) (max_links l) (max_paths l) (max_ports l) (max_failure_domains l) (max_closure_nodes l)
       (max_closure_edges l) (max_plan_steps l) budget (max_unresolved_dependents l) (max_explanation_terms l)
       (max_retained_attempts l) (max_authority_grants l) (max_fences l) (max_evidence_records l)
       (max_event_records l) (max_journal_records l) (max_sessions l) (max_session_queue l) (max_frame_payload l)
       (max_document_bytes l) (freshness_window_ns l) (fence_horizon_ns l))
    (pi_assessment i) (pi_planning i) (pi_epoch i) (pi_boot i) (pi_plan_id i) (pi_now_ns i).

Definition solve_reference (i : PlanInputs) (failed : GenerationVector) (node_budget : Z) : ReferenceSolution :=
  let bounded := Z.max node_budget 1 in
  let as_size := if SIZE_MAX <? bounded then SIZE_MAX else bounded in
  match plan_internal (with_search_budget i as_size) failed true with
  | Refused status => mkSolution false false 0 node_budget plan_default (status_code status)
  | Value (plan, nodes) =>
      let exhausted := bool_decide (pl_feasibility plan = PlanFeasibility.ProvenFeasible)
                       || bool_decide (pl_feasibility plan = PlanFeasibility.ProvenInfeasible) in
      mkSolution exhausted exhausted nodes node_budget plan (if exhausted then Code.Ok else Code.SearchLimitReached)
  end.

(** * What the planner is given *)

(** Well-formed inputs: an installed topology as [build] delivers it, a
    candidate table as [table_build] delivers it, and integers in the ranges of
    their C++ types. *)
Record planning_wf (i : PlanInputs) (failed : GenerationVector) : Prop := {
  pw_topology : topology_wf (in_topology i);
  pw_edges : 0 <= max_closure_edges (pi_limits i);
  pw_own_edges : 0 <= max_closure_edges (tp_limits (in_topology i));
  pw_capacity : Forall (fun d => 0 <= sd_capacity_score d) (tp_switches (in_topology i));
  pw_budget : 0 <= max_candidates_evaluated (pi_limits i);
  pw_table : StronglySorted (fun a b => ltb (alternative_key a) (alternative_key b) = true)
               (ct_candidates (in_candidates i));
  pw_valid : Forall (fun c => status_ok (candidate_validate c) = true) (ct_candidates (in_candidates i));
  pw_cost : Forall (fun c => 0 <= rc_cost c < two32) (ct_candidates (in_candidates i));
  pw_hops : Forall (fun c => zlen (rc_hops c) < two32) (ct_candidates (in_candidates i));
  pw_size : zlen (ct_candidates (in_candidates i)) < two32;
  pw_failed : canonical failed;
  pw_demands : zlen (demands_of i failed) < two32
}.

Lemma find_switch_in t key d : find_switch t key = Some d -> d ∈ tp_switches t.
Proof.
  unfold find_switch, find_by. intros H. repeat case_match; simplify_eq; by eapply list_elem_of_lookup_2.
Qed.

Lemma capacity_nonneg i failed : planning_wf i failed -> forall k, 0 <= capacity_of i k.
Proof.
  intros Hw k. unfold capacity_of. destruct (find_switch _ k) as [d|] eqn:E; [|lia].
  pose proof (pw_capacity _ _ Hw) as Hc. rewrite Forall_forall in Hc. apply Hc. by eapply find_switch_in.
Qed.

Lemma supplied_spec i failed d c : planning_wf i failed ->
  c ∈ for_dependent (in_candidates i) d <-> c ∈ ct_candidates (in_candidates i) /\ rc_dependent c = d.
Proof.
  intros Hw. pose proof (pw_table _ _ Hw) as Ht. destruct (in_candidates i) as [l dg]. cbn [ct_candidates] in *.
  rewrite (for_dependent_filter l Ht). rewrite list_elem_of_filter. tauto.
Qed.

Lemma do_demand_evaluate i d : do_demand (evaluate_demand i d) = d.
Proof. unfold evaluate_demand. destruct (enumerate _ _ _ _ _ _) as [[? ?] ?]. done. Qed.

Lemma evaluate_eligible i failed d u : planning_wf i failed -> u ∈ do_eligible (evaluate_demand i d) ->
  cu_candidate u ∈ ct_candidates (in_candidates i) /\ rc_dependent (cu_candidate u) = dm_dependent d /\
  admissible i d (cu_candidate u) /\ NoDup (cu_capacity_keys u) /\
  (forall k, k ∈ cu_capacity_keys u <-> k ∈ rc_hops (cu_candidate u)).
Proof.
  intros Hw (c & Hc & Ha & ->)%elem_of_eligible. cbn [cu_candidate cu_capacity_keys].
  apply elem_of_take in Hc as (j & Hj & _). apply list_elem_of_lookup_2 in Hj.
  apply (supplied_spec i failed _ _ Hw) in Hj as [H1 H2].
  destruct (first_occurrences_spec (rc_hops c) [] (NoDup_nil_2)) as [Hn Hk].
  repeat (split; [done|]). intros k. rewrite Hk. set_solver.
Qed.

Lemma length_omap {A B} (f : A -> option B) l : (length (omap f l) <= length l)%nat.
Proof. induction l as [|x l IH]; [done|]. cbn [omap list_omap]. destruct (f x); [apply le_n_S, IH|apply le_S, IH]. Qed.

Lemma length_eligible i failed d : planning_wf i failed -> zlen (do_eligible (evaluate_demand i d)) < two32.
Proof.
  intros Hw. eapply Z.le_lt_trans; [|exact (pw_size _ _ Hw)]. unfold evaluate_demand. rewrite enumerate_spec.
  cbn [do_eligible app]. unfold zlen. apply inj_le.
  rewrite (std_sort_ext _ (fun a b => ltb (use_key a) (use_key b))) by (intros; apply candidate_order_key).
  rewrite (Permutation_length (std_sort_key_perm use_key _)). cbn [app].
  etrans; [apply length_omap|]. rewrite length_take. etrans; [apply Nat.le_min_r|].
  pose proof (pw_table _ _ Hw) as Ht. destruct (in_candidates i) as [l dg]. cbn [ct_candidates] in *.
  rewrite (for_dependent_filter l Ht). apply length_filter.
Qed.

Lemma evaluate_fine i failed d : planning_wf i failed -> options_fine (evaluate_demand i d).
Proof.
  intros Hw. pose proof (length_eligible i failed d Hw) as Hz.
  pose proof (pw_cost _ _ Hw) as Hc. pose proof (pw_hops _ _ Hw) as Hh. rewrite Forall_forall in Hc, Hh.
  split; [split| | |].
  - unfold SIZE_MAX. ints_lia.
  - apply Forall_forall. intros u Hu. apply (Hc (cu_candidate u)). by apply (evaluate_eligible i failed d u Hw).
  - apply Forall_forall. intros u Hu. by apply (evaluate_eligible i failed d u Hw).
  - apply Forall_forall. intros u Hu. apply (Hc (cu_candidate u)). by apply (evaluate_eligible i failed d u Hw).
  - apply Forall_forall. intros u Hu. apply (Hh (cu_candidate u)). by apply (evaluate_eligible i failed d u Hw).
  - eapply sorted_mono; [|apply eligible_sorted]. intros a b. unfold use_less. by rewrite candidate_order_key.
Qed.

(** ** Demands *)

Lemma attribute_fold (root : SwitchKey) (ds : list DependentRef) (m : list (DependentRef * list SwitchKey)) d f :
  f ∈ default [] (map_find d (foldl (fun m dependent => map_set dependent (default [] (map_find dependent m) ++ [root]) m) m ds)) <->
  f ∈ default [] (map_find d m) \/ (d ∈ ds /\ f = root).
Proof.
  revert m. induction ds as [|x ds IH]; intros m; cbn [foldl]; [set_solver|]. rewrite IH, map_find_set.
  destruct (bool_decide_reflect (x = d)) as [->|Hne]; simpl; set_solver.
Qed.

Lemma attribution_wf i failed : map_wf (attribution i failed).
Proof.
  unfold attribution. assert (H : map_wf (@nil (DependentRef * list SwitchKey))) by constructor.
  revert H. generalize (@nil (DependentRef * list SwitchKey)). induction failed as [|f failed IH]; intros m Hm; [done|].
  cbn [foldl]. apply IH. unfold attribute_root. revert m Hm.
  induction (dc_dependents (root_closure i f)) as [|d ds IHd]; intros m Hm; [done|].
  cbn [foldl]. apply IHd. by apply map_set_wf.
Qed.

Lemma elem_of_attribution i failed d f :
  f ∈ default [] (map_find d (attribution i failed)) <-> f ∈ failed /\ d ∈ dc_dependents (root_closure i f).
Proof.
  unfold attribution. enough (H : forall m, f ∈ default [] (map_find d (foldl (attribute_root i) m failed)) <->
    f ∈ default [] (map_find d m) \/ (f ∈ failed /\ d ∈ dc_dependents (root_closure i f))).
  { rewrite (H []). simpl. set_solver. }
  induction failed as [|r failed IH]; intros m; cbn [foldl]; [set_solver|]. rewrite IH. unfold attribute_root.
  rewrite attribute_fold, elem_of_cons. naive_solver.
Qed.

Lemma elem_of_demands i failed d f :
  mkDemand d f ∈ demands_of i failed <-> f ∈ failed /\ d ∈ dc_dependents (root_closure i f).
Proof.
  unfold demands_of. rewrite elem_of_sort_and_dedupe, <- elem_of_attribution, elem_of_concat. split.
  - intros (l & Hl & ([d' fs] & -> & Hin)%list_elem_of_fmap). unfold entry_demands in Hl.
    apply list_elem_of_fmap in Hl as (f' & [= -> ->] & Hf). rewrite elem_of_sort_and_dedupe in Hf. cbn [fst snd] in *.
    by rewrite (map_in_find d' fs _ (attribution_wf i failed) Hin).
  - intros Hf. destruct (map_find d (attribution i failed)) as [fs|] eqn:E; [|simpl in Hf; set_solver].
    exists (entry_demands (d, fs)). split.
    + unfold entry_demands. apply list_elem_of_fmap. exists f. split; [done|]. by rewrite elem_of_sort_and_dedupe.
    + apply list_elem_of_fmap. exists (d, fs). split; [done|]. by apply map_find_in.
Qed.

(** ** The plan of a run *)

Definition restore_demand (r : RestoreStep) : Demand := mkDemand (rs_dependent r) (rs_covers_failed r).
Definition unresolved_demand (u : UnresolvedDependent) : Demand := mkDemand (ud_dependent u) (ud_covers_failed u).

Lemma settle_demands proven options choice : length options = length choice ->
  let '(R, U) := settle proven options choice in
  (restore_demand <$> R) ++ (unresolved_demand <$> U) ≡ₚ do_demand <$> options.
Proof.
  revert choice. induction options as [|o options IH]; intros [|c choice] Hl; [by simpl|done..|]. cbn [settle].
  specialize (IH choice ltac:(simpl in Hl; lia)). destruct (settle proven options choice) as [R U].
  destruct (selected_use o c) as [u|]; cbn [fmap list_fmap app]; rewrite <- IH.
  - unfold restore_demand at 1, restore_of. cbn [rs_dependent rs_covers_failed]. by destruct (do_demand o).
  - rewrite <- Permutation_middle. unfold unresolved_demand at 1, unresolved_of. cbn [ud_dependent ud_covers_failed].
    by destruct (do_demand o).
Qed.

Lemma elem_of_settle_restores proven options choice r :
  r ∈ (settle proven options choice).1 <->
  exists j o c u, options !! j = Some o /\ choice !! j = Some c /\ selected_use o c = Some u /\ r = restore_of o u.
Proof.
  revert choice. induction options as [|o options IH]; intros choice.
  { split; [by intros ?%not_elem_of_nil|]. by intros (j & o & c & u & H & _). }
  destruct choice as [|c choice].
  { split; [by intros ?%not_elem_of_nil|]. by intros (j & o' & c & u & _ & H & _). }
  cbn [settle]. specialize (IH choice). destruct (settle proven options choice) as [R U]. cbn [fst] in *.
  assert (Hshift : (exists j o' c' u, (o :: options) !! j = Some o' /\ (c :: choice) !! j = Some c' /\
      selected_use o' c' = Some u /\ r = restore_of o' u) <->
    (exists u, selected_use o c = Some u /\ r = restore_of o u) \/
    (exists j o' c' u, options !! j = Some o' /\ choice !! j = Some c' /\ selected_use o' c' = Some u /\ r = restore_of o' u)).
  { split.
    - intros ([|j] & o' & c' & u & H1 & H2 & H3); [injection H1 as ->; injection H2 as ->; eauto|right; by exists j, o', c', u].
    - intros [(u & H)|(j & H)]; [by exists 0%nat, o, c, u|by exists (S j)]. }
  rewrite Hshift, <- IH. destruct (selected_use o c) as [u|]; cbn [fst]; rewrite ?elem_of_cons; naive_solver.
Qed.

Lemma elem_of_settle_unresolved proven options choice r : length options = length choice ->
  r ∈ (settle proven options choice).2 <->
  exists j o c, options !! j = Some o /\ choice !! j = Some c /\ selected_use o c = None /\ r = unresolved_of proven o.
Proof.
  revert choice. induction options as [|o options IH]; intros choice Hl.
  { split; [by intros ?%not_elem_of_nil|]. by intros (j & o & c & H & _). }
  destruct choice as [|c choice]; [done|].
  cbn [settle]. specialize (IH choice ltac:(simpl in Hl; lia)). destruct (settle proven options choice) as [R U]. cbn [snd] in *.
  assert (Hshift : (exists j o' c', (o :: options) !! j = Some o' /\ (c :: choice) !! j = Some c' /\
      selected_use o' c' = None /\ r = unresolved_of proven o') <->
    (selected_use o c = None /\ r = unresolved_of proven o) \/
    (exists j o' c', options !! j = Some o' /\ choice !! j = Some c' /\ selected_use o' c' = None /\ r = unresolved_of proven o')).
  { split.
    - intros ([|j] & o' & c' & H1 & H2 & H3); [injection H1 as ->; injection H2 as ->; eauto|right; by exists j, o', c'].
    - intros [H|(j & H)]; [by exists 0%nat, o, c|by exists (S j)]. }
  rewrite Hshift, <- IH. destruct (selected_use o c) as [u|]; cbn [snd]; rewrite ?elem_of_cons; naive_solver.
Qed.

Definition restore_key (r : RestoreStep) := (rs_dependent r, (rs_covers_failed r, rs_replacement r)).
Definition unresolved_key (u : UnresolvedDependent) := (ud_dependent u, ud_covers_failed u).

Lemma restores_perm l : std_sort restore_less l ≡ₚ l.
Proof.
  rewrite (std_sort_ext _ (fun a b => ltb (restore_key a) (restore_key b))); [apply std_sort_key_perm|].
  intros a b. unfold restore_less, restore_key. by rewrite !ltb_pair.
Qed.

Lemma unresolved_perm l : std_sort unresolved_less l ≡ₚ l.
Proof.
  rewrite (std_sort_ext _ (fun a b => ltb (unresolved_key a) (unresolved_key b))); [apply std_sort_key_perm|].
  intros a b. unfold unresolved_less, unresolved_key. by rewrite ltb_pair.
Qed.

(** The pieces of a planning run. *)
Definition run_options (i : PlanInputs) (failed : GenerationVector) : list DemandOptions :=
  evaluate_demand i <$> demands_of i failed.
Definition run_assign (i : PlanInputs) (failed : GenerationVector) (mode : bool) : AssignState :=
  assign_demands i (run_options i failed) mode.
Definition run_settled (i : PlanInputs) (failed : GenerationVector) (mode : bool) :=
  settle (av_proven (run_assign i failed mode)) (run_options i failed) (as_choice (av_assignment (run_assign i failed mode))).

Record planned (i : PlanInputs) (failed : GenerationVector) (mode : bool) (p : ReconstructionPlan) : Prop := {
  pn_valid : status_ok (inputs_validate i) = true;
  pn_some : failed <> [];
  pn_failed : status_ok (check_failed i failed) = true;
  pn_plan : p = seal (mkPlan (if id_valid (pi_plan_id i) then pi_plan_id i else 1) (pi_epoch i) (pi_boot i) failed
     (fence_step_of i <$> failed) (std_sort restore_less (run_settled i failed mode).1)
     (std_sort unresolved_less (run_settled i failed mode).2)
     (feasibility_of (build_demand_plan i failed) (av_proven (run_assign i failed mode))
        (std_sort restore_less (run_settled i failed mode).1)) PlanState.Draft
     (dp_closure_complete (build_demand_plan i failed))
     (allow_withhold_on_unresolved (pi_planning i) &&
      negb (bool_decide (std_sort unresolved_less (run_settled i failed mode).2 = [])))
     (tp_digest (in_topology i)) (inputs_policy_digest i) 0);
  pn_bound : zlen (std_sort unresolved_less (run_settled i failed mode).2) <= max_unresolved_dependents (pi_limits i)
}.

Lemma plan_value i failed mode p n : plan_internal i failed mode = Value (p, n) ->
  planned i failed mode p /\ n = av_nodes (run_assign i failed mode).
Proof.
  unfold plan_internal. destruct (status_ok (inputs_validate i)) eqn:E1; cbn [negb]; [|done].
  case_bool_decide as E2; [done|]. destruct (status_ok (check_failed i failed)) eqn:E3; cbn [negb]; [|done].
  change (dp_options (build_demand_plan i failed)) with (run_options i failed).
  change (assign_demands i (run_options i failed) mode) with (run_assign i failed mode).
  change (settle _ (run_options i failed) _) with (run_settled i failed mode).
  destruct (run_settled i failed mode) as [R U] eqn:Es. destruct (_ =? _); cbn [negb]; [|done].
  destruct (Z.ltb_spec (max_unresolved_dependents (pi_limits i)) (zlen (std_sort unresolved_less U))) as [|Hb]; [done|].
  intros [= <- <-]. split; [|done]. split; rewrite ?Es; done.
Qed.

Lemma run_fine i failed : planning_wf i failed ->
  Forall options_fine (run_options i failed) /\ zlen (run_options i failed) < two32.
Proof.
  intros Hw. unfold run_options. split.
  - apply Forall_forall. intros o (d & -> & _)%list_elem_of_fmap. by eapply evaluate_fine.
  - unfold zlen. rewrite length_fmap. apply (pw_demands _ _ Hw).
Qed.

Lemma run_assign_spec i failed mode : planning_wf i failed ->
  let v := run_assign i failed mode in
  within_capacity i (run_options i failed) (as_choice (av_assignment v)) /\
  (av_proven v = true -> best_assignment i (run_options i failed) (as_choice (av_assignment v))) /\
  0 <= av_nodes v <= max_candidates_evaluated (pi_limits i) /\
  (assign_budget (run_options i failed) <= max_candidates_evaluated (pi_limits i) -> av_proven v = true).
Proof.
  intros Hw. destruct (run_fine i failed Hw) as [Hf Hz]. apply assign_spec; [|done|done|apply (pw_budget _ _ Hw)].
  by eapply capacity_nonneg.
Qed.

Lemma run_length i failed mode : planning_wf i failed ->
  length (run_options i failed) = length (as_choice (av_assignment (run_assign i failed mode))).
Proof.
  intros Hw. destruct (run_assign_spec i failed mode Hw) as [[Hv _] _]. by eapply Forall2_length.
Qed.

Lemma run_demands i failed : do_demand <$> run_options i failed = demands_of i failed.
Proof.
  unfold run_options. rewrite <- list_fmap_compose. rewrite <- (list_fmap_id (demands_of i failed)) at 2.
  apply list_fmap_ext. intros ? d _. apply do_demand_evaluate.
Qed.

Lemma settled_demands i failed mode : planning_wf i failed ->
  (restore_demand <$> (run_settled i failed mode).1) ++ (unresolved_demand <$> (run_settled i failed mode).2)
  ≡ₚ demands_of i failed.
Proof.
  intros Hw. pose proof (settle_demands (av_proven (run_assign i failed mode)) _ _ (run_length i failed mode Hw)) as H.
  rewrite run_demands in H. unfold run_settled. by destruct (settle _ _ _).
Qed.

(** ** Capacity of the restores *)

Lemma crossing_usage i failed ds choice k : planning_wf i failed ->
  zlen (filter (fun r => k ∈ rs_hops r) (settle true (evaluate_demand i <$> ds) choice).1) =
  usage k (evaluate_demand i <$> ds) choice.
Proof.
  intros Hw. revert choice. induction ds as [|d ds IH]; intros [|c choice]; try done.
  cbn [fmap list_fmap settle usage]. specialize (IH choice).
  destruct (settle true (evaluate_demand i <$> ds) choice) as [R U]. cbn [fst] in *. unfold count_use.
  destruct (selected_use (evaluate_demand i d) c) as [u|] eqn:E; cbn [fst]; [|lia].
  assert (Hu : u ∈ do_eligible (evaluate_demand i d)).
  { unfold selected_use in E. destruct (_ =? _); [done|]. by eapply list_elem_of_lookup_2. }
  destruct (evaluate_eligible i failed d u Hw Hu) as (_ & _ & _ & _ & Hk). specialize (Hk k).
  rewrite filter_cons. unfold restore_of at 1. cbn [rs_hops].
  destruct (decide (k ∈ rc_hops (cu_candidate u))) as [Hin|Hin].
  - rewrite zlen_cons, IH, bool_decide_eq_true_2 by tauto. lia.
  - rewrite IH, bool_decide_eq_false_2 by tauto. lia.
Qed.

Lemma settle_restores_proven b options choice : (settle b options choice).1 = (settle true options choice).1.
Proof.
  revert choice. induction options as [|o options IH]; intros [|c choice]; try done. cbn [settle].
  specialize (IH choice). destruct (settle b options choice), (settle true options choice). cbn [fst] in IH. subst.
  by destruct (selected_use o c).
Qed.

(** ** Skipping everything *)

Lemma zip_sum_insert f es cs j e c c' : es !! j = Some e -> cs !! j = Some c ->
  zip_sum f es (<[j := c']> cs) = zip_sum f es cs - f e c + f e c'.
Proof.
  revert cs j. induction es as [|x es IH]; intros [|y cs] [|j] He Hc; try done; cbn [zip_sum].
  - injection He as ->. injection Hc as ->. simpl. lia.
  - simpl. rewrite (IH cs j) by done. lia.
Qed.

Lemma unsettled_choice es cs : Forall options_ok es -> Forall2 valid_choice es cs ->
  (forall j e c, es !! j = Some e -> cs !! j = Some c -> selected_use e c = None) ->
  cs = replicate (length es) kSkipped.
Proof.
  intros Ho Hv. induction Hv as [|e c es cs Hc Hv IH]; intros H; [done|]. cbn [length replicate].
  inversion_clear Ho as [|? ? He Hes]. f_equal.
  - specialize (H 0%nat e c eq_refl eq_refl). destruct Hc as [|Hc]; [done|].
    destruct (lookup_lt_is_Some_2 (do_eligible e) (Z.to_nat c)) as [u Hu]; [unfold zlen in Hc; lia|].
    destruct (selected_index e c u He ltac:(lia) Hu) as [Hs _]. congruence.
  - apply IH; [done|]. intros j e' c'. apply (H (S j)).
Qed.

Lemma usage_skip_all k es : usage k es (replicate (length es) kSkipped) = 0.
Proof.
  induction es as [|e es IH]; [done|]. cbn [length replicate usage]. rewrite IH. unfold count_use.
  by rewrite selected_skip.
Qed.

(** When skipping everything is best, no demand has an alternative. *)
Lemma skip_all_best i failed ds : planning_wf i failed ->
  zlen (evaluate_demand i <$> ds) < two32 ->
  best_assignment i (evaluate_demand i <$> ds) (replicate (length ds) kSkipped) ->
  Forall (fun d => do_eligible (evaluate_demand i d) = []) ds.
Proof.
  intros Hw Hz Hb. set (es := evaluate_demand i <$> ds) in *.
  assert (Hf : Forall options_fine es).
  { apply Forall_forall. intros o (d & -> & _)%list_elem_of_fmap. by eapply evaluate_fine. }
  assert (Hlen : length es = length ds) by apply length_fmap. rewrite <- Hlen in Hb. destruct Hb as [[Hv _] Hbest].
  apply Forall_lookup. intros j d Hd. set (e := evaluate_demand i d). destruct (do_eligible e) as [|u us] eqn:El; [done|].
  assert (He : es !! j = Some e) by (unfold es; by rewrite list_lookup_fmap, Hd).
  assert (Hc : replicate (length es) kSkipped !! j = Some kSkipped).
  { apply lookup_replicate_2. by eapply lookup_lt_Some. }
  pose proof (evaluate_fine i failed d Hw) as Hfe. fold e in Hfe.
  destruct (selected_index e 0 u (of_ok _ Hfe) ltac:(lia)) as [Hs0 Hv0]; [by rewrite El|].
  destruct (selected_fine e 0 u Hfe Hs0) as [Hcost Hhops].
  destruct (evaluate_eligible i failed d u Hw) as (_ & _ & Hadm & _ & Hkeys); [fold e; rewrite El; by left|].
  set (other := <[j := 0]> (replicate (length es) kSkipped)).
  assert (Ho : within_capacity i es other).
  { split.
    - unfold other. rewrite <- (list_insert_id es j e He). apply Forall2_insert; [|done].
      by rewrite (list_insert_id es j e He).
    - intros k. unfold other. rewrite usage_zip_sum, (zip_sum_insert _ _ _ j e kSkipped) by done.
      rewrite <- usage_zip_sum, usage_skip_all. unfold count_use at 1. rewrite selected_skip. unfold count_use.
      rewrite Hs0. case_bool_decide as Hk; [|rewrite Z.add_0_r; by eapply capacity_nonneg].
      apply Hkeys in Hk. destruct (ad_hops _ _ _ Hadm k Hk) as (sd & Hsd).
      pose proof (capacity_nonneg i failed Hw k) as Hnn. pose proof (ha_capacity _ _ _ _ _ Hsd) as Hcs.
      unfold capacity_of in *. rewrite (ha_installed _ _ _ _ _ Hsd) in *. lia. }
  specialize (Hbest other Ho). rewrite better_weight in Hbest by (apply Ho || done).
  apply orb_false_iff in Hbest as [Hlt _]. apply Z.ltb_ge in Hlt. exfalso. unfold other in Hlt.
  rewrite (zip_sum_insert weight_at _ _ j e kSkipped) in Hlt by done.
  unfold weight_at in Hlt at 3 4. rewrite selected_skip, Hs0 in Hlt. ints_lia.
Qed.

(** ** The parts of a plan *)

Lemma planned_fields i failed mode p : planned i failed mode p ->
  pl_failed_generations p = failed /\ pl_fences p = fence_step_of i <$> failed /\
  pl_restores p = std_sort restore_less (run_settled i failed mode).1 /\
  pl_unresolved p = std_sort unresolved_less (run_settled i failed mode).2 /\
  pl_closure_complete p = dp_closure_complete (build_demand_plan i failed) /\
  pl_feasibility p = feasibility_of (build_demand_plan i failed) (av_proven (run_assign i failed mode)) (pl_restores p).
Proof.
  intros [_ _ _ -> _]. unfold seal, plan_with_digest.
  cbn [pl_failed_generations pl_fences pl_restores pl_unresolved pl_closure_complete pl_feasibility]. done.
Qed.

Lemma feasibility_infeasible d proven restores : feasibility_of d proven restores = PlanFeasibility.ProvenInfeasible ->
  dp_demands d <> [] /\ restores = [].
Proof.
  unfold feasibility_of. destruct (_ || _); [done|].
  destruct (bool_decide_reflect (dp_demands d = [])); [done|]. by destruct (bool_decide_reflect (restores = [])).
Qed.

Lemma feasibility_nothing d proven restores : feasibility_of d proven restores = PlanFeasibility.NothingToRestore ->
  dp_demands d = [].
Proof.
  unfold feasibility_of. destruct (_ || _); [done|].
  destruct (bool_decide_reflect (dp_demands d = [])); [done|]. by destruct (bool_decide_reflect (restores = [])).
Qed.

Lemma planned_restore i failed mode p r : planning_wf i failed -> planned i failed mode p -> r ∈ pl_restores p ->
  exists d u, d ∈ demands_of i failed /\ u ∈ do_eligible (evaluate_demand i d) /\ r = restore_of (evaluate_demand i d) u.
Proof.
  intros Hw Hp Hr. destruct (planned_fields _ _ _ _ Hp) as (_ & _ & E & _). rewrite E, restores_perm in Hr.
  unfold run_settled in Hr. apply elem_of_settle_restores in Hr as (j & o & c & u & Ho & Hc & Hs & ->).
  unfold run_options in Ho. rewrite list_lookup_fmap in Ho. destruct (demands_of i failed !! j) as [d|] eqn:Hd; [|done].
  injection Ho as <-. exists d, u. split; [by eapply list_elem_of_lookup_2|]. split; [|done].
  unfold selected_use in Hs. destruct (_ =? _); [done|]. by eapply list_elem_of_lookup_2.
Qed.

Lemma planned_proven i failed mode p : planned i failed mode p ->
  pl_feasibility p <> PlanFeasibility.SearchLimitReached ->
  dp_closure_complete (build_demand_plan i failed) = true /\
  dp_enumeration_complete (build_demand_plan i failed) = true /\ av_proven (run_assign i failed mode) = true.
Proof.
  intros Hp. destruct (planned_fields _ _ _ _ Hp) as (_ & _ & _ & _ & _ & ->). unfold feasibility_of.
  destruct (dp_closure_complete _), (dp_enumeration_complete _), (av_proven _); done.
Qed.

Lemma enumeration_complete_all i failed d :
  dp_enumeration_complete (build_demand_plan i failed) = true -> d ∈ demands_of i failed ->
  do_enumeration_complete (evaluate_demand i d) = true.
Proof.
  unfold build_demand_plan. cbn [dp_enumeration_complete]. rewrite forallb_forall. intros H Hd. apply H.
  apply list_elem_of_In, list_elem_of_fmap. eauto.
Qed.

Lemma eligible_complete i d c : do_enumeration_complete (evaluate_demand i d) = true ->
  c ∈ for_dependent (in_candidates i) (dm_dependent d) -> admissible i d c ->
  exists u, u ∈ do_eligible (evaluate_demand i d) /\ cu_candidate u = c.
Proof.
  intros Hc Hin Ha. exists (mkUse c (first_occurrences (rc_hops c) [])). split; [|done].
  apply elem_of_eligible. exists c. split; [|done]. revert Hc. unfold evaluate_demand.
  rewrite enumerate_spec, Z.sub_0_r. cbn [do_enumeration_complete]. rewrite bool_decide_eq_true.
  intros Hz. rewrite take_ge; [done|]. unfold zlen in Hz. rewrite length_take in Hz. lia.
Qed.

(** A complete enumeration leaves out no admissible alternative. *)
Lemma options_exact i failed d c : planning_wf i failed -> dp_enumeration_complete (build_demand_plan i failed) = true ->
  d ∈ demands_of i failed ->
  (exists u, u ∈ do_eligible (evaluate_demand i d) /\ cu_candidate u = c) <->
  c ∈ ct_candidates (in_candidates i) /\ rc_dependent c = dm_dependent d /\ admissible i d c.
Proof.
  intros Hw He Hd. pose proof (enumeration_complete_all i failed d He Hd) as Hc. split.
  - intros (u & Hu & <-). by destruct (evaluate_eligible i failed d u Hw Hu) as (? & ? & ? & _).
  - intros (H1 & H2 & H3). apply eligible_complete; [done| |done]. by apply (supplied_spec i failed _ _ Hw).
Qed.

Lemma planned_demands i failed mode p : planning_wf i failed -> planned i failed mode p ->
  (restore_demand <$> pl_restores p) ++ (unresolved_demand <$> pl_unresolved p) ≡ₚ demands_of i failed.
Proof.
  intros Hw Hp. destruct (planned_fields _ _ _ _ Hp) as (_ & _ & -> & -> & _).
  rewrite restores_perm, unresolved_perm. by apply settled_demands.
Qed.

Lemma planned_capacity i failed mode p : planning_wf i failed -> planned i failed mode p ->
  forall k, zlen (filter (fun r => k ∈ rs_hops r) (pl_restores p)) <= capacity_of i k.
Proof.
  intros Hw Hp k. destruct (planned_fields _ _ _ _ Hp) as (_ & _ & -> & _).
  unfold zlen. rewrite (Permutation_length (filter_Permutation _ _ _ (restores_perm _))).
  unfold run_settled. rewrite settle_restores_proven. unfold run_options.
  pose proof (crossing_usage i failed (demands_of i failed) (as_choice (av_assignment (run_assign i failed mode))) k Hw) as Hu.
  unfold zlen in Hu. rewrite Hu. destruct (run_assign_spec i failed mode Hw) as ([_ Hc] & _). apply Hc.
Qed.

(** ** Changing the search budget *)

Lemma budget_judge i b d c : judge_candidate (with_search_budget i b) d c = judge_candidate i d c.
Proof. reflexivity. Qed.

Lemma budget_evaluate i b d : evaluate_demand (with_search_budget i b) d = evaluate_demand i d.
Proof. unfold evaluate_demand. rewrite !enumerate_spec. reflexivity. Qed.

Lemma budget_demands i b failed : demands_of (with_search_budget i b) failed = demands_of i failed.
Proof. reflexivity. Qed.

Lemma budget_options i b failed : run_options (with_search_budget i b) failed = run_options i failed.
Proof.
  unfold run_options. rewrite budget_demands. apply list_fmap_ext. intros. apply budget_evaluate.
Qed.

Lemma budget_capacity i b k : capacity_of (with_search_budget i b) k = capacity_of i k.
Proof. reflexivity. Qed.

Lemma budget_wf i b failed : 0 <= b -> planning_wf i failed -> planning_wf (with_search_budget i b) failed.
Proof. intros Hb []. split; done. Qed.

Lemma budget_plan i b failed : build_demand_plan (with_search_budget i b) failed = build_demand_plan i failed.
Proof.
  unfold build_demand_plan. fold (run_options (with_search_budget i b) failed). fold (run_options i failed).
  by rewrite budget_demands, budget_options.
Qed.

Lemma budget_policy_digest i b : inputs_policy_digest (with_search_budget i b) = inputs_policy_digest i.
Proof. unfold inputs_policy_digest. cbn [with_search_budget pi_assessment pi_candidates pi_planning]. done. Qed.

Lemma budget_closure i b roots : closure_run (with_search_budget i b) roots = closure_run i roots.
Proof. reflexivity. Qed.

Lemma budget_fences i b (failed : list SwitchKey) : fence_step_of (with_search_budget i b) <$> failed = fence_step_of i <$> failed.
Proof.
  apply list_fmap_ext. intros j f _. unfold fence_step_of, root_closure. by rewrite budget_closure.
Qed.

Lemma proven_agree i b failed : 0 <= b -> planning_wf i failed ->
  av_proven (run_assign i failed false) = true -> av_proven (run_assign (with_search_budget i b) failed true) = true ->
  run_settled (with_search_budget i b) failed true = run_settled i failed false.
Proof.
  intros Hb Hw H1 H2. destruct (run_assign_spec i failed false Hw) as (_ & B1 & _).
  destruct (run_assign_spec (with_search_budget i b) failed true (budget_wf i b failed Hb Hw)) as (_ & B2 & _).
  specialize (B1 H1). specialize (B2 H2). unfold run_settled. rewrite H1, H2, budget_options in *.
  f_equal. eapply (best_unique i); [apply (run_fine i failed Hw)| |exact B1]. exact B2.
Qed.

(** * Properties *)

(** A plan accounts for every demand exactly once. The demands are the pairs of
    a failed generation and a dependent in its closure, without repetition;
    each appears either among the restores or among the unresolved entries and
    never in both, so the planner's own accounting refusal cannot occur. *)
Theorem plan_accounts_for_every_demand i failed mode p n :
  planning_wf i failed -> plan_internal i failed mode = Value (p, n) ->
  (restore_demand <$> pl_restores p) ++ (unresolved_demand <$> pl_unresolved p) ≡ₚ demands_of i failed /\
  NoDup (demands_of i failed) /\
  (forall d f, mkDemand d f ∈ demands_of i failed <-> f ∈ failed /\ d ∈ dc_dependents (root_closure i f)).
Proof.
  intros Hw Hp. destruct (plan_value _ _ _ _ _ Hp) as [Hpn _]. split; [|split].
  - by apply (planned_demands i failed mode p).
  - apply canonical_NoDup, sort_and_dedupe_canonical.
  - intros d f. apply elem_of_demands.
Qed.

Lemma check_failed_ok i keys : status_ok (check_failed i keys) = true <->
  Forall (fun k => key_valid k = true /\ (is_fenced (in_authority i) k = true \/ sa_fence_required (assess i k) = true)) keys.
Proof.
  induction keys as [|k keys IH]; cbn [check_failed]; [done|]. rewrite Forall_cons.
  destruct (key_valid k); cbn [negb]; [|rewrite failure_not_ok; naive_solver].
  destruct (is_fenced (in_authority i) k), (sa_fence_required (assess i k)); cbn [negb andb]; rewrite ?failure_not_ok, ?IH; naive_solver.
Qed.

Lemma single_vector f : key_valid f = true -> (gv_insert [] f).1 = [f].
Proof. intros Hf. unfold gv_insert. by rewrite Hf. Qed.

Lemma closure_run_some i failed roots : planning_wf i failed ->
  closure (in_topology i) roots (pi_limits i) = Some (closure_run i roots).
Proof.
  intros Hw. unfold closure_run. destruct (closure_total (in_topology i) roots (pi_limits i)) as [c ->]; [apply Hw..|done].
Qed.

Lemma complete_not_truncated i failed : dp_closure_complete (build_demand_plan i failed) = true ->
  dc_state (closure_run i failed) <> ClosureState.Truncated.
Proof.
  unfold build_demand_plan. cbn [dp_closure_complete]. unfold closure_complete.
  rewrite andb_true_iff, orb_true_iff, !bool_decide_eq_true. intros [[H|H] _]; congruence.
Qed.

(** C20. The scope of a plan is exact. When the plan claims a complete closure, the
    pairs it restores or leaves unresolved are exactly the dependents that
    depend, transitively, on a failed generation, each paired with every failed
    generation it depends on. *)
Theorem plan_scope_exact i failed mode p n :
  planning_wf i failed -> plan_internal i failed mode = Value (p, n) -> pl_closure_complete p = true ->
  forall d f, mkDemand d f ∈ (restore_demand <$> pl_restores p) ++ (unresolved_demand <$> pl_unresolved p) <->
    f ∈ failed /\ affected (in_topology i) [of_switch f] (of_dependent d).
Proof.
  intros Hw Hp Hc d f. destruct (plan_value _ _ _ _ _ Hp) as [Hpn _].
  rewrite (planned_demands i failed mode p Hw Hpn), elem_of_demands.
  destruct (planned_fields _ _ _ _ Hpn) as (_ & _ & _ & _ & Ec & _). rewrite Ec in Hc.
  pose proof (complete_not_truncated i failed Hc) as Hst.
  assert (Hf : f ∈ failed -> d ∈ dc_dependents (root_closure i f) <-> affected (in_topology i) [of_switch f] (of_dependent d)).
  { intros Hin. pose proof (pn_failed _ _ _ _ Hpn) as Hk. rewrite check_failed_ok, Forall_forall in Hk.
    unfold root_closure. rewrite single_vector by (by apply Hk).
    rewrite (closure_dependents (in_topology i) [f] (pi_limits i)) by (apply Hw || by eapply closure_run_some).
    eapply joint_closure_members; [apply Hw..| |exact Hst|exact Hin|]; by eapply closure_run_some. }
  tauto.
Qed.

(** C19. What a plan restores is safe. Every restore step re-binds a demanded
    dependent along a supplied alternative that is admissible for it, starting
    at the first hop of that alternative, and no switch generation carries more
    restored dependents than its declared capacity. *)
Theorem plan_restores_safe i failed mode p n :
  planning_wf i failed -> plan_internal i failed mode = Value (p, n) ->
  (forall r, r ∈ pl_restores p -> exists c,
     c ∈ ct_candidates (in_candidates i) /\ admissible i (restore_demand r) c /\
     restore_demand r ∈ demands_of i failed /\ rc_dependent c = rs_dependent r /\
     rs_action r = PlanAction.RebindReplacement /\ head (rs_hops r) = Some (rs_replacement r) /\
     rs_hops r = rc_hops c /\ rs_links r = rc_links c /\ rs_cost r = rc_cost c /\ rs_evidence r = rc_evidence c) /\
  (forall k, zlen (filter (fun r => k ∈ rs_hops r) (pl_restores p)) <= capacity_of i k).
Proof.
  intros Hw Hp. destruct (plan_value _ _ _ _ _ Hp) as [Hpn _]. split.
  - intros r Hr. destruct (planned_restore _ _ _ _ r Hw Hpn Hr) as (d & u & Hd & Hu & ->).
    destruct (evaluate_eligible i failed d u Hw Hu) as (H1 & H2 & H3 & _). exists (cu_candidate u).
    unfold restore_demand, restore_of. rewrite do_demand_evaluate.
    cbn [rs_dependent rs_covers_failed rs_action rs_hops rs_replacement rs_links rs_cost rs_evidence].
    replace (mkDemand (dm_dependent d) (dm_failed d)) with d by (by destruct d).
    repeat (split; [done|]). split; [|done].
    pose proof (pw_valid _ _ Hw) as Hv. rewrite Forall_forall in Hv. specialize (Hv _ H1).
    unfold candidate_validate in Hv. destruct (rc_hops (cu_candidate u)); [|done].
    destruct (negb _); [done|]. by destruct (negb _).
  - by apply (planned_capacity i failed mode p).
Qed.

(** C23. A verdict other than "search limit reached" is backed by the facts: the
    closure is complete; the options of every demand are exactly its admissible
    supplied alternatives, none left out; and the assignment is the best one of
    those options that respects every capacity. "Proven infeasible" is claimed
    only when there are demands and no supplied alternative is admissible for
    any of them; "nothing to restore" only when there is no demand; "proven
    feasible" only when something is restored. *)
Theorem plan_verdict_sound i failed mode p n :
  planning_wf i failed -> plan_internal i failed mode = Value (p, n) ->
  pl_feasibility p <> PlanFeasibility.SearchLimitReached ->
  pl_closure_complete p = true /\
  (forall d c, d ∈ demands_of i failed ->
     (exists u, u ∈ do_eligible (evaluate_demand i d) /\ cu_candidate u = c) <->
     c ∈ ct_candidates (in_candidates i) /\ rc_dependent c = dm_dependent d /\ admissible i d c) /\
  best_assignment i (run_options i failed) (as_choice (av_assignment (run_assign i failed mode))) /\
  match pl_feasibility p with
  | PlanFeasibility.ProvenFeasible => pl_restores p <> []
  | PlanFeasibility.NothingToRestore => demands_of i failed = []
  | PlanFeasibility.ProvenInfeasible => pl_restores p = [] /\ pl_unresolved p <> [] /\
      forall d c, d ∈ demands_of i failed -> c ∈ ct_candidates (in_candidates i) ->
        rc_dependent c = dm_dependent d -> ~ admissible i d c
  | _ => False
  end.
Proof.
  intros Hw Hp Hnot. destruct (plan_value _ _ _ _ _ Hp) as [Hpn _].
  destruct (planned_proven _ _ _ _ Hpn Hnot) as (P1 & P2 & P3).
  destruct (planned_fields _ _ _ _ Hpn) as (_ & _ & Er & Eu & Ec & Ef).
  destruct (run_assign_spec i failed mode Hw) as ([Hv _] & Hbest & _). specialize (Hbest P3).
  split; [by rewrite Ec|]. split; [by intros d c Hd; apply (options_exact i failed)|]. split; [done|].
  rewrite Ef. unfold feasibility_of. rewrite P1, P2, P3. cbn [negb orb].
  change (dp_demands (build_demand_plan i failed)) with (demands_of i failed).
  case_bool_decide as Hd; [done|]. case_bool_decide as Hr; [|done]. split; [done|].
  pose proof (settled_demands i failed mode Hw) as Hs. rewrite Hr in Er.
  assert (Hnil : (run_settled i failed mode).1 = []) by (apply Permutation_nil_r; by rewrite <- restores_perm, <- Er).
  rewrite Hnil in Hs. split.
  - rewrite Eu. intros He. apply Hd. apply Permutation_nil_r. rewrite <- Hs. cbn [fmap list_fmap app].
    assert (Hn : (run_settled i failed mode).2 = []) by (apply Permutation_nil_r; by rewrite <- unresolved_perm, He).
    by rewrite Hn.
  - intros d c Hin Hc Hdep Hadm. destruct (eligible_complete i d c) as (u & Hu & _).
    + by eapply enumeration_complete_all.
    + by apply (supplied_spec i failed _ _ Hw).
    + done.
    + assert (Hskip : as_choice (av_assignment (run_assign i failed mode)) = replicate (length (run_options i failed)) kSkipped).
      { apply unsettled_choice; [apply fine_ok, (run_fine i failed Hw)|done|]. intros j e x He Hx.
        destruct (selected_use e x) as [w|] eqn:Es; [|done]. exfalso.
        apply (not_elem_of_nil (restore_of e w)). rewrite <- Hnil. apply elem_of_settle_restores. by exists j, e, x, w. }
      rewrite Hskip in Hbest. unfold run_options in Hbest at 2. rewrite length_fmap in Hbest.
      pose proof (skip_all_best i failed (demands_of i failed) Hw (proj2 (run_fine i failed Hw)) Hbest) as Hall.
      rewrite Forall_forall in Hall. rewrite (Hall d Hin) in Hu. by apply not_elem_of_nil in Hu.
Qed.

(** C39. Planning is refused for exactly the documented reasons: missing or stale
    inputs, an empty failed set, a failed generation that is invalid or neither
    fenced nor under a fence obligation, or more unresolved dependents than the
    declared bound. Otherwise a plan is returned. *)
Theorem planner_refuses_exactly i failed mode :
  planning_wf i failed ->
  (exists p n, plan_internal i failed mode = Value (p, n)) <->
  status_ok (inputs_validate i) = true /\ failed <> [] /\
  (forall k, k ∈ failed -> key_valid k = true /\
     (is_fenced (in_authority i) k = true \/ sa_fence_required (assess i k) = true)) /\
  zlen (run_settled i failed mode).2 <= max_unresolved_dependents (pi_limits i).
Proof.
  intros Hw. assert (Hlen : zlen (std_sort unresolved_less (run_settled i failed mode).2) = zlen (run_settled i failed mode).2).
  { unfold zlen. by rewrite (Permutation_length (unresolved_perm _)). }
  split.
  - intros (p & n & [[H1 H2 H3 _ H5] _]%plan_value). rewrite check_failed_ok, Forall_forall in H3. by rewrite Hlen in H5.
  - intros (H1 & H2 & H3 & H4). rewrite <- Hlen in H4. unfold plan_internal.
    rewrite H1, bool_decide_eq_false_2, (proj2 (check_failed_ok i failed)) by (done || by apply Forall_forall). cbn [negb].
    change (dp_options (build_demand_plan i failed)) with (run_options i failed).
    change (assign_demands i (run_options i failed) mode) with (run_assign i failed mode).
    change (settle _ (run_options i failed) _) with (run_settled i failed mode).
    pose proof (Permutation_length (settled_demands i failed mode Hw)) as Hs. rewrite length_app, !length_fmap in Hs.
    pose proof (Permutation_length (restores_perm (run_settled i failed mode).1)) as Hr.
    destruct (run_settled i failed mode) as [R U]. cbn [fst snd] in *.
    rewrite (proj2 (Z.eqb_eq _ _)).
    + cbn [negb]. rewrite (proj2 (Z.ltb_ge _ _)) by done. eauto.
    + rewrite Hlen. unfold zlen, run_options. rewrite length_fmap, Hr. lia.
Qed.

(** With enough budget the planner concludes: when the closure is complete,
    no demand has more alternatives than are examined and the search budget
    covers the assignment tree of every component, the verdict is one of proven
    feasible, proven infeasible or nothing to restore. *)
Theorem planner_concludes i failed mode p n :
  planning_wf i failed -> plan_internal i failed mode = Value (p, n) ->
  pl_closure_complete p = true ->
  (forall d, d ∈ demands_of i failed ->
     zlen (for_dependent (in_candidates i) (dm_dependent d)) <= max_candidates_per_dependent (pi_planning i)) ->
  assign_budget (run_options i failed) <= max_candidates_evaluated (pi_limits i) ->
  pl_feasibility p <> PlanFeasibility.SearchLimitReached.
Proof.
  intros Hw Hp Hc He Hb. destruct (plan_value _ _ _ _ _ Hp) as [Hpn _].
  destruct (planned_fields _ _ _ _ Hpn) as (_ & _ & _ & _ & Ec & ->). rewrite Ec in Hc.
  destruct (run_assign_spec i failed mode Hw) as (_ & _ & _ & Hproven). unfold feasibility_of.
  rewrite Hc, (Hproven Hb). assert (Hen : dp_enumeration_complete (build_demand_plan i failed) = true).
  { cbn [build_demand_plan dp_enumeration_complete]. apply forallb_forall. intros o Ho%list_elem_of_In.
    apply list_elem_of_fmap in Ho as (d & -> & Hd). specialize (He d Hd). unfold evaluate_demand.
    rewrite enumerate_spec, Z.sub_0_r. cbn [do_enumeration_complete]. apply bool_decide_eq_true. unfold zlen in *.
    rewrite length_take. lia. }
  rewrite Hen. cbn [negb orb]. repeat case_bool_decide; done.
Qed.

(** C18. The planner and the exhaustive reference solver return the same plan:
    whenever the planner reaches a verdict and the reference solver enumerates
    the whole space, whatever its node budget, the plans are equal in every
    field, digest included. *)
Theorem planner_matches_reference i failed node_budget p :
  planning_wf i failed -> plan_reconstruction i failed = Value p ->
  pl_feasibility p <> PlanFeasibility.SearchLimitReached ->
  so_exhausted (solve_reference i failed node_budget) = true ->
  so_plan (solve_reference i failed node_budget) = p.
Proof.
  intros Hw. unfold plan_reconstruction, solve_reference. destruct (plan_internal i failed false) as [[p' n]|] eqn:E1; [|done].
  intros [= ->] Hf. set (b := if _ <? _ then SIZE_MAX else _).
  assert (Hb : 0 <= b) by (unfold b, SIZE_MAX; split_test; ints_lia).
  destruct (plan_internal (with_search_budget i b) failed true) as [[q m]|] eqn:E2; [|done].
  cbn [so_exhausted so_plan]. intros Hq.
  destruct (plan_value _ _ _ _ _ E1) as [P1 _]. destruct (plan_value _ _ _ _ _ E2) as [P2 _].
  assert (Hqf : pl_feasibility q <> PlanFeasibility.SearchLimitReached).
  { intros Hbad. by rewrite Hbad in Hq. }
  destruct (planned_proven _ _ _ _ P1 Hf) as (_ & _ & V1). destruct (planned_proven _ _ _ _ P2 Hqf) as (_ & _ & V2).
  pose proof (proven_agree i b failed Hb Hw V1 V2) as Hs.
  rewrite (pn_plan _ _ _ _ P1), (pn_plan _ _ _ _ P2). rewrite Hs, V1, V2, budget_plan, budget_policy_digest, budget_fences.
  done.
Qed.

(** * A concrete failure *)

Definition spine (id domain capacity : Z) : SwitchDescriptor :=
  mkSwitchDescriptor (mkSwitchKey id 1) SwitchRole.Spine SwitchAdminState.Enabled domain 0 4 4 capacity "spine".

(** Ports 1 and 2 depend on generation (1,1); port 3 depends on port 1. *)
Definition plan_build : Result TopologySnapshot :=
  build 1 [spine 1 7 9; spine 2 8 1; spine 3 9 1] [] []
    [mkEdge (of_dependent (dependent_port 1)) (of_switch (mkSwitchKey 1 1));
     mkEdge (of_dependent (dependent_port 2)) (of_switch (mkSwitchKey 1 1));
     mkEdge (of_dependent (dependent_port 3)) (of_dependent (dependent_port 1))] limits_defaults.

Definition plan_topology : TopologySnapshot := snapshot_of plan_build.

Lemma plan_topology_wf : topology_wf plan_topology.
Proof. apply (build_wf 1 [spine 1 7 9; spine 2 8 1; spine 3 9 1] [] [] [mkEdge (of_dependent (dependent_port 1)) (of_switch (mkSwitchKey 1 1));
     mkEdge (of_dependent (dependent_port 2)) (of_switch (mkSwitchKey 1 1));
     mkEdge (of_dependent (dependent_port 3)) (of_dependent (dependent_port 1))] limits_defaults). vm_compute. reflexivity. Qed.

Definition alternative (port hop cost : Z) : ReconstructionCandidate :=
  mkCandidate (dependent_port port) (mkSwitchKey 1 1) [mkSwitchKey hop 1] [] cost 0 1 EvidenceSource.FabricManager.

Definition plan_candidates : list ReconstructionCandidate :=
  [alternative 1 2 5; alternative 1 3 6; alternative 2 2 4; alternative 3 2 9].

Definition plan_table : CandidateTable :=
  match table_build plan_candidates limits_defaults with Value t => t | Refused _ => mkTable [] 0 end.

Lemma plan_table_value : table_build plan_candidates limits_defaults = Value plan_table.
Proof. vm_compute. reflexivity. Qed.

Definition sample_boot : BootIncarnation := mkBoot 1 2 3 4.

Definition plan_registry : AuthorityRegistry :=
  mkRegistry limits_defaults [] []
    [(mkSwitchKey 1 1, mkFence 1 (mkSwitchKey 1 1) 1 sample_boot 0 FenceScopeState.Committed 0 0 0 0 "failed")] 1 2 1.

Definition plan_inputs : PlanInputs :=
  mkInputs (Some plan_topology) (Some plan_table) None None (Some plan_registry) limits_defaults
    assessment_policy_defaults planning_policy_defaults 1 sample_boot 7 100.


(** * The closure bound at its edge *)

Definition with_edge_bound (edges : Z) : Limits :=
  let l := limits_defaults in
  mkLimits (max_switches l) (max_links l) (max_paths l) (max_ports l) (max_failure_domains l) (max_closure_nodes l)
    edges (max_plan_steps l) (max_candidates_evaluated l) (max_unresolved_dependents l) (max_explanation_terms l)
    (max_retained_attempts l) (max_authority_grants l) (max_fences l) (max_evidence_records l)
    (max_event_records l) (max_journal_records l) (max_sessions l) (max_session_queue l) (max_frame_payload l)
    (max_document_bytes l) (freshness_window_ns l) (fence_horizon_ns l).

Definition edge_inputs : PlanInputs :=
  mkInputs (Some (snapshot_of (build 1 [spine 1 7 9; spine 2 8 9] [] []
      [mkEdge (of_switch (mkSwitchKey 1 1)) (of_switch (mkSwitchKey 2 1));
       mkEdge (of_dependent (dependent_port 2)) (of_switch (mkSwitchKey 2 1));
       mkEdge (of_dependent (dependent_port 1)) (of_switch (mkSwitchKey 1 1));
       mkEdge (of_dependent (dependent_port 1)) (of_dependent (dependent_port 2))] limits_defaults)))
    (Some (mkTable [] 0)) None None
    (Some (mkRegistry limits_defaults [] []
      [(mkSwitchKey 1 1, mkFence 1 (mkSwitchKey 1 1) 1 sample_boot 0 FenceScopeState.Committed 0 0 0 0 "failed");
       (mkSwitchKey 2 1, mkFence 2 (mkSwitchKey 2 1) 1 sample_boot 0 FenceScopeState.Committed 0 0 0 0 "failed")] 1 3 1))
    (with_edge_bound 4) assessment_policy_defaults planning_policy_defaults 1 sample_boot 7 100.

(** A plan can contradict itself about its closure: with the edge bound met
    exactly, the joint closure of the failed generations is complete and the
    plan says so, while the closure of one of them alone is cut short, and its
    fence step says so. *)
Theorem joint_closure_outlasts_single :
  match plan_internal edge_inputs [mkSwitchKey 1 1; mkSwitchKey 2 1] false with
  | Value (p, _) => pl_closure_complete p = true /\ pl_feasibility p = PlanFeasibility.ProvenInfeasible /\
      fs_closure_state <$> pl_fences p = [ClosureState.Complete; ClosureState.Truncated]
  | Refused _ => False
  end.
Proof. vm_compute. done. Qed.

(** The reference solver reports the search limit for an empty scope: nothing
    depends on the fenced generation, the plan says so, and no bound was hit. *)
Definition idle_inputs : PlanInputs :=
  mkInputs (Some plan_topology) (Some plan_table) None None
    (Some (mkRegistry limits_defaults [] []
      [(mkSwitchKey 3 1, mkFence 1 (mkSwitchKey 3 1) 1 sample_boot 0 FenceScopeState.Committed 0 0 0 0 "failed")] 1 2 1))
    limits_defaults assessment_policy_defaults planning_policy_defaults 1 sample_boot 7 100.

Example reference_reports_limit_for_empty_scope :
  let s := solve_reference idle_inputs [mkSwitchKey 3 1] 2000000 in
  pl_feasibility (so_plan s) = PlanFeasibility.NothingToRestore /\ so_nodes_visited s = 0 /\
  so_exhausted s = false /\ so_outcome s = Code.SearchLimitReached.
Proof. vm_compute. done. Qed.

(** ** Witnesses *)

Definition plan_failed : GenerationVector := [mkSwitchKey 1 1].

Lemma forallb_Forall {A} (f : A -> bool) (P : A -> Prop) l : (forall x, f x = true -> P x) -> forallb f l = true -> Forall P l.
Proof. intros H Hl. rewrite forallb_forall in Hl. apply Forall_forall. intros x Hx. apply H, Hl. by apply list_elem_of_In. Qed.

Lemma plan_inputs_table : in_candidates plan_inputs = plan_table.
Proof. unfold in_candidates, plan_inputs. cbn [pi_candidates]. reflexivity. Qed.

Lemma plan_inputs_wf : planning_wf plan_inputs plan_failed.
Proof.
  destruct (table_build_sorted _ _ _ plan_table_value) as (H1 & H2 & _ & H4). rewrite Forall_forall in H4.
  split.
  - exact plan_topology_wf.
  - vm_compute. discriminate.
  - vm_compute. discriminate.
  - vm_compute. repeat constructor; discriminate.
  - vm_compute. discriminate.
  - rewrite plan_inputs_table. exact H1.
  - rewrite plan_inputs_table. apply Forall_forall. auto.
  - apply (forallb_Forall (fun c => (0 <=? rc_cost c) && (rc_cost c <? two32))); [intros c; lia|vm_compute; reflexivity].
  - apply (forallb_Forall (fun c => zlen (rc_hops c) <? two32)); [intros c; lia|vm_compute; reflexivity].
  - vm_compute. reflexivity.
  - repeat constructor.
  - vm_compute. reflexivity.
Qed.

Definition planned_sample (mode : bool) : ReconstructionPlan :=
  match plan_internal plan_inputs plan_failed mode with Value (p, _) => p | Refused _ => plan_default end.

Lemma planned_sample_value mode : exists n, plan_internal plan_inputs plan_failed mode = Value (planned_sample mode, n).
Proof. destruct mode; eexists; vm_compute; reflexivity. Qed.

Lemma plan_accounts_for_every_demand_witness : length (demands_of plan_inputs plan_failed) = 3%nat /\ NoDup (demands_of plan_inputs plan_failed).
Proof.
  split; [vm_compute; reflexivity|]. destruct (planned_sample_value false) as [n Hn].
  exact (proj1 (proj2 (plan_accounts_for_every_demand plan_inputs plan_failed false _ n plan_inputs_wf Hn))).
Defined.

Lemma plan_restores_safe_witness :
  zlen (filter (fun r => mkSwitchKey 2 1 ∈ rs_hops r) (pl_restores (planned_sample false))) <= capacity_of plan_inputs (mkSwitchKey 2 1).
Proof.
  destruct (planned_sample_value false) as [n Hn].
  exact (proj2 (plan_restores_safe plan_inputs plan_failed false _ n plan_inputs_wf Hn) (mkSwitchKey 2 1)).
Defined.

Lemma planned_sample_feasible mode : pl_feasibility (planned_sample mode) = PlanFeasibility.ProvenFeasible.
Proof. destruct mode; vm_compute; reflexivity. Qed.

Lemma planned_sample_concluded mode : pl_feasibility (planned_sample mode) <> PlanFeasibility.SearchLimitReached.
Proof. by rewrite planned_sample_feasible. Qed.

Lemma plan_scope_exact_witness :
  mkDemand (dependent_port 3) (mkSwitchKey 1 1) ∈
    (restore_demand <$> pl_restores (planned_sample false)) ++ (unresolved_demand <$> pl_unresolved (planned_sample false)) /\
  affected plan_topology [of_switch (mkSwitchKey 1 1)] (of_dependent (dependent_port 3)).
Proof.
  destruct (planned_sample_value false) as [n Hn].
  assert (Hin : mkDemand (dependent_port 3) (mkSwitchKey 1 1) ∈
    (restore_demand <$> pl_restores (planned_sample false)) ++ (unresolved_demand <$> pl_unresolved (planned_sample false))).
  { apply (bool_decide_eq_true_1 (mkDemand (dependent_port 3) (mkSwitchKey 1 1) ∈ _)). vm_compute. reflexivity. }
  split; [exact Hin|].
  exact (proj2 (proj1 (plan_scope_exact plan_inputs plan_failed false _ n plan_inputs_wf Hn
    ltac:(vm_compute; reflexivity) _ _) Hin)).
Defined.

Lemma plan_verdict_sound_witness : pl_closure_complete (planned_sample true) = true.
Proof.
  destruct (planned_sample_value true) as [n Hn].
  exact (proj1 (plan_verdict_sound plan_inputs plan_failed true _ n plan_inputs_wf Hn (planned_sample_concluded true))).
Defined.

Lemma planner_refuses_exactly_witness : plan_failed <> [].
Proof.
  destruct (planned_sample_value false) as [n Hn].
  exact (proj1 (proj2 (proj1 (planner_refuses_exactly plan_inputs plan_failed false plan_inputs_wf)
    (ex_intro _ _ (ex_intro _ _ Hn))))).
Defined.

Lemma planner_concludes_witness : pl_feasibility (planned_sample false) <> PlanFeasibility.SearchLimitReached.
Proof.
  destruct (planned_sample_value false) as [n Hn].
  apply (planner_concludes plan_inputs plan_failed false _ n plan_inputs_wf Hn).
  - vm_compute. reflexivity.
  - intros d Hd. assert (Hall : forallb (fun d => zlen (for_dependent plan_table (dm_dependent d)) <=? 256)
      (demands_of plan_inputs plan_failed) = true) by (vm_compute; reflexivity).
    rewrite forallb_forall in Hall. pose proof (Hall d (proj1 (list_elem_of_In _ _) Hd)) as Hz. cbv beta in Hz.
    apply Z.leb_le in Hz. rewrite plan_inputs_table. exact Hz.
  - vm_compute. discriminate.
Defined.

Lemma planner_matches_reference_witness :
  so_plan (solve_reference plan_inputs plan_failed 2000000) = planned_sample false.
Proof.
  apply (planner_matches_reference plan_inputs plan_failed 2000000 (planned_sample false) plan_inputs_wf).
  - unfold plan_reconstruction. destruct (planned_sample_value false) as [n Hn]. by rewrite Hn.
  - apply planned_sample_concluded.
  - vm_compute. reflexivity.
Defined.

Lemma candidate_table_exact_witness :
  for_dependent plan_table (dependent_port 1) = filter (fun c => rc_dependent c = dependent_port 1) (ct_candidates plan_table).
Proof. exact (proj2 (proj2 (proj2 (candidate_table_exact _ _ _ plan_table_value))) (dependent_port 1)). Defined.

Lemma plan_capacities_nonneg k : 0 <= capacity_of plan_inputs k.
Proof. exact (capacity_nonneg plan_inputs plan_failed plan_inputs_wf k). Qed.

Lemma component_search_optimal_witness :
  ss_exhausted (run (component_capacity plan_inputs (run_options plan_inputs plan_failed)) (run_options plan_inputs plan_failed) 100) = true.
Proof.
  apply (component_search_optimal (component_capacity plan_inputs (run_options plan_inputs plan_failed))
    (run_options plan_inputs plan_failed) 100).
  - apply (proj2 (run_fine plan_inputs plan_failed plan_inputs_wf)).
  - apply fine_ok, (run_fine plan_inputs plan_failed plan_inputs_wf).
  - intros k limit. apply component_capacity_nonneg. exact plan_capacities_nonneg.
  - lia.
  - vm_compute. discriminate.
Defined.

Lemma demand_assignment_optimal_witness :
  av_proven (assign_demands plan_inputs (run_options plan_inputs plan_failed) true) = true.
Proof.
  apply (demand_assignment_optimal plan_inputs (run_options plan_inputs plan_failed) true plan_capacities_nonneg
    (proj1 (run_fine plan_inputs plan_failed plan_inputs_wf)) (proj2 (run_fine plan_inputs plan_failed plan_inputs_wf))).
  - vm_compute. discriminate.
  - vm_compute. discriminate.
Defined.

Lemma fast_path_equals_search_witness :
  as_choice (av_assignment (assign_demands plan_inputs (run_options plan_inputs plan_failed) false)) =
  as_choice (av_assignment (assign_demands plan_inputs (run_options plan_inputs plan_failed) true)).
Proof.
  apply (fast_path_equals_search plan_inputs plan_inputs (run_options plan_inputs plan_failed)
    (fun k => eq_refl) plan_capacities_nonneg
    (proj1 (run_fine plan_inputs plan_failed plan_inputs_wf)) (proj2 (run_fine plan_inputs plan_failed plan_inputs_wf))).
  - vm_compute. discriminate.
  - vm_compute. discriminate.
  - vm_compute. reflexivity.
  - vm_compute. reflexivity.
Defined.
