(* ===== verification/Validator.v ===== *)
(** Independent plan validation (include/sff/plan/validator.hpp,
    src/plan/validator.cpp). Every method of the validator is a function on the
    report it accumulates. Enumerations hold only their declared values here, so
    the code's checks for undefined ones always pass, and the inputs always have a
    topology, where the code dereferences a pointer it does not test. *)

From S2P Require Import Prelude Containers Core Generation Switch Authority Evidence Topology Decision Plan Policy.
From S2P Require Import Candidates Search Partition Assign Planner.

(** * Reports *)

Record ValidationFinding := mkFinding { vf_code : Code; vf_scope : string; vf_detail : string }.

Record ValidationReport := mkReport {
  vr_valid : bool;
  vr_outcome : Code;
  vr_checks_performed : Z;
  vr_findings : list ValidationFinding;
  vr_plan_digest : Z;
  vr_inputs_digest : Z
}.

Definition report_to_string (r : ValidationReport) : string :=
  foldl (fun s f => s +:+ " [" +:+ code_to_string (vf_code f) +:+ " " +:+ vf_scope f +:+ ": " +:+ vf_detail f +:+ "]")
    ((if vr_valid r then "VALID" else "INVALID") +:+ " outcome=" +:+ code_to_string (vr_outcome r)
     +:+ " checks=" +:+ dec (vr_checks_performed r) +:+ " findings=" +:+ dec (zlen (vr_findings r)))
    (vr_findings r).

Definition kMaxFindings : Z := 256.

Definition with_findings (r : ValidationReport) (findings : list ValidationFinding) : ValidationReport :=
  mkReport (vr_valid r) (vr_outcome r) (vr_checks_performed r) findings (vr_plan_digest r) (vr_inputs_digest r).

Definition count_check (r : ValidationReport) : ValidationReport :=
  mkReport (vr_valid r) (vr_outcome r) (vr_checks_performed r + 1) (vr_findings r) (vr_plan_digest r) (vr_inputs_digest r).

Definition record (code : Code) (scope detail : string) (r : ValidationReport) : ValidationReport :=
  if kMaxFindings <=? zlen (vr_findings r) then
    if zlen (vr_findings r) =? kMaxFindings then
      with_findings r (vr_findings r ++
        [mkFinding Code.Exhausted "report" "validation findings were truncated by the report bound"])
    else r
  else with_findings r (vr_findings r ++ [mkFinding code scope detail]).

(** [add] of the validator. *)
Definition add_finding (code : Code) (scope detail : string) (r : ValidationReport) : ValidationReport :=
  record code scope detail (count_check r).

(** [check] of the validator; its callers test the condition themselves. *)
Definition require (condition : bool) (code : Code) (scope detail : string) (r : ValidationReport) : ValidationReport :=
  if condition then count_check r else record code scope detail (count_check r).

Definition finish (r : ValidationReport) : ValidationReport :=
  mkReport (bool_decide (zlen (vr_findings r) = 0))
    (match vr_findings r with [] => Code.Ok | f :: _ => vf_code f end)
    (vr_checks_performed r) (vr_findings r) (vr_plan_digest r) (vr_inputs_digest r).

(** Statements in sequence. *)
Abbreviation Step := (ValidationReport -> ValidationReport).
Definition steps (l : list Step) (r : ValidationReport) : ValidationReport := foldl (fun r f => f r) r l.
Definition for_each {A} (f : A -> Step) (l : list A) : Step := fun r => foldl (fun r x => f x r) r l.
Definition only_if (condition : bool) (f : Step) : Step := fun r => if condition then f r else r.

(** * Fences *)

Definition fence_checks (i : PlanInputs) (plan : ReconstructionPlan) (step : FenceStep) : Step :=
  steps
    [require (key_valid (fs_failed step)) Code.Invalid "fence" "fence step names an unqualified generation";
     only_if (bool_decide (fs_closure_state step = ClosureState.Truncated))
       (require (negb (pl_closure_complete plan)) Code.Invalid "fence" "a truncated closure must not be reported as complete");
     only_if (negb (is_fenced (in_authority i) (fs_failed step)))
       (add_finding Code.Fenced "fence" ("failed generation is not fenced: " +:+ key_to_string (fs_failed step)))].

Definition validate_fences_internal (i : PlanInputs) (plan : ReconstructionPlan) : Step :=
  let covered := foldl (fun s step => set_insert (fs_failed step) s) [] (pl_fences plan) in
  steps
    [for_each (fence_checks i plan) (pl_fences plan);
     for_each (fun key => require (set_contains key covered) Code.Fenced "fence"
                            ("failed generation has no fence step: " +:+ key_to_string key))
       (pl_failed_generations plan)].

(** * Restores *)

Definition hop_checks (i : PlanInputs) (failed : list SwitchKey) (scope : string) (hop : SwitchKey) : Step := fun r =>
  let r := require (negb (set_contains hop failed)) Code.Fenced scope
             ("restore step reuses a failed generation: " +:+ key_to_string hop) r in
  if is_fenced (in_authority i) hop then
    add_finding Code.Fenced scope ("restore step crosses a fenced generation: " +:+ key_to_string hop) r
  else
    match find_switch (in_topology i) hop with
    | None =>
        match find_highest_generation (in_topology i) (sk_id hop) with
        | Some _ => add_finding Code.Stale scope ("restore step names a superseded generation: " +:+ key_to_string hop) r
        | None => add_finding Code.NotFound scope
                    ("restore step names a generation absent from the topology: " +:+ key_to_string hop) r
        end
    | Some _ =>
        let assessment := assess i hop in
        steps
          [only_if (sa_fence_required assessment)
             (add_finding Code.Fenced scope
                ("restore step crosses a generation that carries a fence obligation: " +:+ key_to_string hop));
           only_if (bool_decide (sa_outcome assessment = Code.Conflict))
             (add_finding Code.Conflict scope
                ("authoritative evidence about a hop generation contradicts itself: " +:+ key_to_string hop))] r
    end.

Definition restore_scope (step : RestoreStep) : string :=
  dependent_to_string (rs_dependent step) +:+ "->" +:+ key_to_string (rs_covers_failed step).

(** The body of the loop over the restores; [fresh] is the result of
    `seen.insert({step.dependent, step.covers_failed}).second`. *)
Definition restore_checks (i : PlanInputs) (failed : list SwitchKey) (fresh : bool) (step : RestoreStep) : Step :=
  let scope := restore_scope step in
  steps
    [require (dependent_valid (rs_dependent step)) Code.Invalid scope "restore step names an invalid dependent";
     require (key_valid (rs_covers_failed step)) Code.Invalid scope "restore step names an unqualified failed generation";
     require (set_contains (rs_covers_failed step) failed) Code.Invalid scope
       "restore step covers a generation that is not in the failed set";
     require (bool_decide (rs_action step = PlanAction.RebindReplacement)) Code.Invalid scope
       "restore step has an undefined action";
     require (negb (zlen (rs_hops step) =? 0)) Code.Invalid scope "restore step supplies no hops";
     require (negb (rs_cost step =? 0)) Code.Invalid scope "restore step has a zero cost";
     require (match rs_hops step with [] => true | h :: _ => bool_decide (rs_replacement step = h) end)
       Code.Invalid scope "restore step replacement is not the head of its hop set";
     require fresh Code.AlreadyExists scope "duplicate restore step for the same dependent and failed generation";
     for_each (hop_checks i failed scope) (rs_hops step);
     for_each (fun link => require (match find_link (in_topology i) link with Some _ => true | None => false end)
                             Code.NotFound scope "restore step names a link the topology does not contain")
       (rs_links step)].

(** `for (hop : distinct_hops) usage[hop] += 1;` *)
Definition count_hops (usage : UseCounts) (step : RestoreStep) : UseCounts :=
  foldl count_key usage (sort_and_dedupe (rs_hops step)).

Fixpoint restore_loop (i : PlanInputs) (failed : list SwitchKey) (seen : list Demand) (restores : list RestoreStep) : Step :=
  fun r => match restores with
           | [] => r
           | step :: rest =>
               let key := restore_demand step in
               restore_loop i failed (set_insert key seen) rest
                 (restore_checks i failed (negb (set_contains key seen)) step r)
           end.

Definition usage_check (i : PlanInputs) (entry : SwitchKey * Z) : Step :=
  match find_switch (in_topology i) entry.1 with
  | None => fun r => r
  | Some d => only_if (sd_capacity_score d <? entry.2)
                (add_finding Code.Exhausted (key_to_string entry.1)
                   "assignment exceeds the declared spare capacity of the replacement generation")
  end.

Definition validate_restores (i : PlanInputs) (plan : ReconstructionPlan) : Step :=
  steps
    [restore_loop i (sort_and_dedupe (pl_failed_generations plan)) [] (pl_restores plan);
     for_each (usage_check i) (foldl count_hops [] (pl_restores plan))].

(** * Coverage and order *)

Definition is_valid_feasibility (f : PlanFeasibility) : bool :=
  feasibility_raw f <=? feasibility_raw PlanFeasibility.NothingToRestore.

Definition is_valid_reason (reason : UnresolvedReason) : bool :=
  unresolved_reason_raw reason <=? unresolved_reason_raw UnresolvedReason.NonAuthoritativeOrigin.

Definition resolved_demands (plan : ReconstructionPlan) : list Demand :=
  foldl (fun s d => set_insert d s) (foldl (fun s d => set_insert d s) [] (restore_demand <$> pl_restores plan))
    (unresolved_demand <$> pl_unresolved plan).

Definition validate_coverage (i : PlanInputs) (plan : ReconstructionPlan) : Step :=
  let demand_plan := build_demand_plan i (pl_failed_generations plan) in
  let resolved := resolved_demands plan in
  steps
    [for_each (fun entry => require (is_valid_reason (ud_reason entry)) Code.Invalid
                 (dependent_to_string (ud_dependent entry)) "unresolved entry has an undefined reason")
       (pl_unresolved plan);
     for_each (fun demand => only_if (negb (set_contains demand resolved))
                 (add_finding Code.PartialClosure (dependent_to_string (dm_dependent demand))
                    ("dependent invalidated by " +:+ key_to_string (dm_failed demand) +:+
                     " appears in neither the restore set nor the unresolved set")))
       (dp_demands demand_plan);
     require (bool_decide (pl_closure_complete plan = dp_closure_complete demand_plan)) Code.Invalid "plan"
       "plan closure completeness does not match the closure recomputed from the inputs"].

Definition validate_ordering (plan : ReconstructionPlan) : Step :=
  steps
    [require (is_sorted restore_less (pl_restores plan)) Code.Invalid "plan" "restore steps are not in canonical order";
     require (is_sorted unresolved_less (pl_unresolved plan)) Code.Invalid "plan"
       "unresolved entries are not in canonical order"].

(** * The validator *)

Definition report_start (i : PlanInputs) (plan : ReconstructionPlan) : ValidationReport :=
  mkReport false Code.Invalid 0 [] (pl_plan_digest plan) (inputs_policy_digest i).

Definition plan_checks (i : PlanInputs) (plan : ReconstructionPlan) : Step :=
  steps
    [require (pl_epoch plan =? pi_epoch i) Code.Stale "plan" "plan was produced under a different coordinator epoch";
     require (bool_decide (pl_boot plan = pi_boot i)) Code.Stale "plan"
       "plan was produced under a different process incarnation";
     require (pl_topology_digest plan =? tp_digest (in_topology i)) Code.Stale "plan"
       "plan was produced against a different topology snapshot";
     require (pl_policy_digest plan =? inputs_policy_digest i) Code.Stale "plan"
       "plan was produced under a different policy";
     require (negb (bool_decide (pl_failed_generations plan = []))) Code.Invalid "plan"
       "plan names no failed generation and therefore fences nothing"].

Definition verdict_checks (i : PlanInputs) (plan : ReconstructionPlan) : Step :=
  steps
    [require (negb (bool_decide (pl_feasibility plan = PlanFeasibility.ProvenInfeasible))
              || (bool_decide (pl_restores plan = []) && negb (bool_decide (zlen (pl_unresolved plan) = 0))))
       Code.Invalid "plan"
       "a proven-infeasible plan must restore nothing and must explain every unresolved demand";
     require (negb (bool_decide (pl_feasibility plan = PlanFeasibility.NothingToRestore))
              || bool_decide (pl_restores plan = [])) Code.Invalid "plan"
       "a nothing-to-restore plan must restore nothing";
     validate_fences_internal i plan;
     validate_restores i plan;
     validate_coverage i plan;
     validate_ordering plan].

(** [run] *)
Definition validate_plan (plan : ReconstructionPlan) (i : PlanInputs) : ValidationReport :=
  let r := require (digest_valid plan) Code.Corrupt "plan" "plan digest does not match its contents" (report_start i plan) in
  if negb (digest_valid plan) then finish r
  else
    let r := plan_checks i plan r in
    let r := require (is_valid_feasibility (pl_feasibility plan)) Code.Invalid "plan"
               "plan carries an undefined feasibility value" r in
    if negb (is_valid_feasibility (pl_feasibility plan)) then finish r
    else finish (verdict_checks i plan r).

(** [run_fences] *)
Definition validate_fences (plan : ReconstructionPlan) (i : PlanInputs) : ValidationReport :=
  let r := require (digest_valid plan) Code.Corrupt "plan" "plan digest does not match its contents" (report_start i plan) in
  if negb (digest_valid plan) then finish r else finish (validate_fences_internal i plan r).

(** * What a step demands *)

(** [f] leaves the report without findings exactly when it had none and [P]
    holds. *)
Class Passes (f : Step) (P : Prop) : Prop :=
  passes : forall r, vr_findings (f r) = [] <-> vr_findings r = [] /\ P.

#[export] Typeclasses Opaque steps for_each only_if require add_finding.

Lemma record_findings code scope detail r : vr_findings (record code scope detail r) <> [].
Proof.
  unfold record. destruct (Z.leb_spec kMaxFindings (zlen (vr_findings r))) as [H|_].
  - destruct (_ =? _); cbn [with_findings vr_findings]; [by intros [_ ?]%app_nil|].
    intros He. rewrite He in H. by vm_compute in H.
  - cbn [with_findings vr_findings]. by intros [_ ?]%app_nil.
Qed.

#[export] Instance passes_require b code scope detail : Passes (require b code scope detail) (b = true).
Proof.
  intros r. unfold require. destruct b; [cbn [count_check vr_findings]; tauto|].
  split; [intros ?%record_findings|]; naive_solver.
Qed.

#[export] Instance passes_add code scope detail : Passes (add_finding code scope detail) False.
Proof. intros r. unfold add_finding. split; [intros ?%record_findings|]; tauto. Qed.

#[export] Instance passes_only_if b f P : Passes f P -> Passes (only_if b f) (b = true -> P).
Proof. intros H r. unfold only_if. destruct b; [rewrite (H r)|]; naive_solver. Qed.

#[export] Instance passes_nil : Passes (steps []) True.
Proof. intros r. simpl. tauto. Qed.

#[export] Instance passes_cons f l P Q : Passes f P -> Passes (steps l) Q -> Passes (steps (f :: l)) (P /\ Q).
Proof. intros Hf Hl r. unfold steps in *. cbn [foldl]. rewrite (Hl (f r)), (Hf r). tauto. Qed.

#[export] Instance passes_for_each {A} (f : A -> Step) (P : A -> Prop) l :
  (forall x, Passes (f x) (P x)) -> Passes (for_each f l) (forall x, x ∈ l -> P x).
Proof.
  intros H r. unfold for_each. revert r. induction l as [|x l IH]; intros r; cbn [foldl].
  { split; [intros ?; split; [done|set_solver]|tauto]. }
  rewrite IH, (H x r). split.
  - intros [[Hr Hx] Hl]. split; [done|]. intros y [->|Hy]%elem_of_cons; auto.
  - intros [Hr Hl]. split; [split; [done|]|]; intros; apply Hl; [by left|by right].
Qed.

Lemma passes_iff f P Q : Passes f P -> (P <-> Q) -> Passes f Q.
Proof. intros H HPQ r. rewrite (H r). tauto. Qed.

(** ** Acceptable plans *)

Record fence_acceptable (i : PlanInputs) (plan : ReconstructionPlan) (step : FenceStep) : Prop := {
  fa_valid : key_valid (fs_failed step) = true;
  fa_truncated : fs_closure_state step = ClosureState.Truncated -> pl_closure_complete plan = false;
  fa_fenced : is_fenced (in_authority i) (fs_failed step) = true
}.

Record hop_acceptable (i : PlanInputs) (plan : ReconstructionPlan) (hop : SwitchKey) : Prop := {
  hc_survives : hop ∉ pl_failed_generations plan;
  hc_unfenced : is_fenced (in_authority i) hop = false;
  hc_installed : exists d, find_switch (in_topology i) hop = Some d;
  hc_healthy : sa_fence_required (assess i hop) = false;
  hc_consistent : sa_outcome (assess i hop) <> Code.Conflict
}.

Record restore_acceptable (i : PlanInputs) (plan : ReconstructionPlan) (step : RestoreStep) : Prop := {
  ra_dependent : dependent_valid (rs_dependent step) = true;
  ra_covers : key_valid (rs_covers_failed step) = true /\ rs_covers_failed step ∈ pl_failed_generations plan;
  ra_action : rs_action step = PlanAction.RebindReplacement;
  ra_cost : rs_cost step <> 0;
  ra_head : head (rs_hops step) = Some (rs_replacement step);
  ra_hops : forall hop, hop ∈ rs_hops step -> hop_acceptable i plan hop;
  ra_links : forall link, link ∈ rs_links step -> exists l, find_link (in_topology i) link = Some l
}.

Record plan_acceptable (i : PlanInputs) (plan : ReconstructionPlan) : Prop := {
  pa_digest : digest_valid plan = true;
  pa_epoch : pl_epoch plan = pi_epoch i;
  pa_boot : pl_boot plan = pi_boot i;
  pa_topology : pl_topology_digest plan = tp_digest (in_topology i);
  pa_policy : pl_policy_digest plan = inputs_policy_digest i;
  pa_failed : pl_failed_generations plan <> [];
  pa_infeasible : pl_feasibility plan = PlanFeasibility.ProvenInfeasible -> pl_restores plan = [] /\ pl_unresolved plan <> [];
  pa_nothing : pl_feasibility plan = PlanFeasibility.NothingToRestore -> pl_restores plan = [];
  pa_fences : forall step, step ∈ pl_fences plan -> fence_acceptable i plan step;
  pa_fenced : forall key, key ∈ pl_failed_generations plan -> exists step, step ∈ pl_fences plan /\ fs_failed step = key;
  pa_restores : forall step, step ∈ pl_restores plan -> restore_acceptable i plan step;
  pa_once : NoDup (restore_demand <$> pl_restores plan);
  pa_capacity : forall k, (exists step, step ∈ pl_restores plan /\ k ∈ rs_hops step) ->
    zlen (filter (fun step => k ∈ rs_hops step) (pl_restores plan)) <= capacity_of i k;
  pa_covered : forall d, d ∈ demands_of i (pl_failed_generations plan) ->
    d ∈ restore_demand <$> pl_restores plan \/ d ∈ unresolved_demand <$> pl_unresolved plan;
  pa_closure : pl_closure_complete plan = dp_closure_complete (build_demand_plan i (pl_failed_generations plan));
  pa_restore_order : sorted_by restore_less (pl_restores plan);
  pa_unresolved_order : sorted_by unresolved_less (pl_unresolved plan)
}.

Lemma elem_of_insert_fold {A} `{Ordered A, EqDecision A} (l s : list A) x :
  x ∈ foldl (fun s d => set_insert d s) s l <-> x ∈ s \/ x ∈ l.
Proof.
  revert s. induction l as [|y l IH]; intros s; cbn [foldl]; [set_solver|]. rewrite IH, set_insert_elem_of. set_solver.
Qed.

Lemma elem_of_covered (fences : list FenceStep) key :
  key ∈ foldl (fun s step => set_insert (fs_failed step) s) [] fences <-> exists step, step ∈ fences /\ fs_failed step = key.
Proof.
  assert (H : foldl (fun s step => set_insert (fs_failed step) s) [] fences = foldl (fun s d => set_insert d s) [] (fs_failed <$> fences)).
  { generalize (@nil SwitchKey). induction fences as [|f fs IH]; intros s; simpl; [done|]. apply IH. }
  rewrite H, elem_of_insert_fold, list_elem_of_fmap. split; [|naive_solver].
  intros [?%not_elem_of_nil|(f & -> & ?)]; [done|eauto].
Qed.

Lemma passes_fences i plan : Passes (validate_fences_internal i plan)
  ((forall step, step ∈ pl_fences plan -> fence_acceptable i plan step) /\
   (forall key, key ∈ pl_failed_generations plan -> exists step, step ∈ pl_fences plan /\ fs_failed step = key)).
Proof.
  unfold validate_fences_internal. eapply passes_iff.
  { apply passes_cons; [apply passes_for_each; intros step; unfold fence_checks; apply _|apply _]. }
  split.
  - intros (H1 & H2 & _). split.
    + intros step Hs. destruct (H1 step Hs) as (A1 & A2 & A3 & _). split; [done| |].
      * intros Ht. rewrite bool_decide_eq_true_2 in A2 by done. by apply negb_true_iff, A2.
      * destruct (is_fenced _ _); [done|]. by destruct A3.
    + intros key Hk. specialize (H2 key Hk). by rewrite set_contains_true, elem_of_covered in H2.
  - intros (H1 & H2). split; [|split; [|done]].
    + intros step Hs. destruct (H1 step Hs) as [A1 A2 A3]. split; [done|]. split; [|split; [|done]].
      * rewrite bool_decide_eq_true. intros Ht. by rewrite A2.
      * by rewrite A3.
    + intros key Hk. rewrite set_contains_true, elem_of_covered. auto.
Qed.

Lemma passes_hop i plan scope hop :
  Passes (hop_checks i (sort_and_dedupe (pl_failed_generations plan)) scope hop) (hop_acceptable i plan hop).
Proof.
  intros r. unfold hop_checks.
  assert (Hf : set_contains hop (sort_and_dedupe (pl_failed_generations plan)) = false <-> hop ∉ pl_failed_generations plan).
  { rewrite set_contains_false. by rewrite elem_of_sort_and_dedupe. }
  set (r1 := require _ _ _ _ r).
  assert (H1 : vr_findings r1 = [] <-> vr_findings r = [] /\ hop ∉ pl_failed_generations plan).
  { unfold r1. rewrite passes, <- Hf. by rewrite negb_true_iff. }
  cbv zeta. destruct (is_fenced _ hop) eqn:E1.
  { rewrite passes. split; [tauto|]. intros [_ [_ ? _ _ _]]. congruence. }
  destruct (find_switch _ hop) as [d|] eqn:E2.
  - rewrite passes, H1, bool_decide_eq_true. split.
    + intros ((? & ?) & H2 & H3 & _). split; [done|]. split; [done|done|by exists d| |done].
      destruct (sa_fence_required _); [by destruct H2|done].
    + intros (? & [? ? ? H4 ?]). split; [done|]. split; [by rewrite H4|]. done.
  - destruct (find_highest_generation _ _); rewrite passes; (split; [tauto|]); intros [_ [_ _ [? ?] _ _]]; congruence.
Qed.

Lemma passes_restore i plan fresh step :
  Passes (restore_checks i (sort_and_dedupe (pl_failed_generations plan)) fresh step)
    (restore_acceptable i plan step /\ fresh = true).
Proof.
  unfold restore_checks. cbv zeta. eapply passes_iff.
  { repeat (apply passes_cons; [first [apply passes_require
                                      |apply passes_for_each; intros; first [apply passes_hop|apply passes_require]]|]).
    apply passes_nil. }
  rewrite set_contains_true, elem_of_sort_and_dedupe, bool_decide_eq_true, !negb_true_iff, !Z.eqb_neq. split.
  - intros (H1 & H2 & H3 & H4 & H5 & H6 & H7 & H8 & H9 & H10 & _). split; [|done]. split; try done.
    + destruct (rs_hops step) as [|h hops]; [by rewrite zlen_nil in H5|]. rewrite bool_decide_eq_true in H7. by rewrite H7.
    + intros link Hl. specialize (H10 link Hl). destruct (find_link _ link); [eauto|done].
  - intros ([H1 [H2 H3] H4 H5 H6 H7 H8] & ->). repeat (split; [done|]).
    destruct (rs_hops step) as [|h hops]; [done|]. injection H6 as ->.
    split; [rewrite zlen_cons; pose proof (zlen_nonneg hops); lia|]. split; [done|]. split; [by apply bool_decide_eq_true|].
    split; [done|]. split; [done|]. split; [|done]. intros link Hl. destruct (H8 link Hl) as [l ->]. done.
Qed.

Lemma passes_restore_loop i plan seen restores :
  Passes (restore_loop i (sort_and_dedupe (pl_failed_generations plan)) seen restores)
    ((forall step, step ∈ restores -> restore_acceptable i plan step) /\
     NoDup (restore_demand <$> restores) /\ (forall step, step ∈ restores -> restore_demand step ∉ seen)).
Proof.
  revert seen. induction restores as [|step rest IH]; intros seen r; cbn [restore_loop].
  { split; [intros ->; split; [done|]; split; [set_solver|]; split; [constructor|set_solver]|tauto]. }
  rewrite (IH (set_insert (restore_demand step) seen) _), (passes_restore i plan _ step r), negb_true_iff, set_contains_false.
  cbn [fmap list_fmap]. rewrite NoDup_cons, list_elem_of_fmap. split.
  - intros ((Hr & Ha & Hs) & Hall & Hn & Hd). split; [done|]. split; [|split; [split; [|done]|]].
    + intros x [->|Hx]%elem_of_cons; auto.
    + intros (x & He & Hx). apply (Hd x Hx). rewrite set_insert_elem_of. by left.
    + intros x [->|Hx]%elem_of_cons; [done|]. intros Hin. apply (Hd x Hx). rewrite set_insert_elem_of. by right.
  - intros (Hr & Hall & (Hnot & Hn) & Hd). split; [split; [done|]; split; [apply Hall|apply Hd]; by left|].
    split; [intros x Hx; apply Hall; by right|]. split; [done|]. intros x Hx. rewrite set_insert_elem_of.
    intros [He|He]; [|by apply (Hd x); [right|]]. apply Hnot. by exists x.
Qed.

(** ** Capacity *)

Lemma count_keys_wf keys m : map_wf m -> map_wf (foldl count_key m keys).
Proof. revert m. induction keys as [|k keys IH]; intros m Hm; [done|]. cbn [foldl]. apply IH. by apply map_set_wf. Qed.

Lemma count_keys_find keys m k : is_Some (map_find k (foldl count_key m keys)) <-> is_Some (map_find k m) \/ k ∈ keys.
Proof.
  revert m. induction keys as [|x keys IH]; intros m; cbn [foldl]; [set_solver|]. rewrite IH. unfold count_key at 1.
  rewrite map_find_set, elem_of_cons. destruct (bool_decide_reflect (x = k)) as [->|]; naive_solver.
Qed.

Lemma count_hops_spec restores m k : map_wf m ->
  let u := foldl count_hops m restores in
  map_wf u /\ used_at u k = used_at m k + zlen (filter (fun step => k ∈ rs_hops step) restores) /\
  (is_Some (map_find k u) <-> is_Some (map_find k m) \/ exists step, step ∈ restores /\ k ∈ rs_hops step).
Proof.
  revert m. induction restores as [|step rest IH]; intros m Hm; cbv zeta; cbn [foldl].
  { rewrite filter_nil, zlen_nil. split; [done|]. split; [lia|]. split; [by left|]. by intros [?|(s & ?%not_elem_of_nil & _)]. }
  destruct (IH (count_hops m step)) as (I1 & I2 & I3); [by apply count_keys_wf|]. split; [done|].
  assert (Hc : used_at (count_hops m step) k = used_at m k + if bool_decide (k ∈ sort_and_dedupe (rs_hops step)) then 1 else 0).
  { apply count_keys_fold, canonical_NoDup, sort_and_dedupe_canonical. }
  assert (Hf : is_Some (map_find k (count_hops m step)) <-> is_Some (map_find k m) \/ k ∈ rs_hops step).
  { unfold count_hops. rewrite count_keys_find. by rewrite elem_of_sort_and_dedupe. }
  split.
  - rewrite I2, Hc, filter_cons.
    rewrite (bool_decide_ext (k ∈ sort_and_dedupe (rs_hops step)) (k ∈ rs_hops step)) by apply elem_of_sort_and_dedupe.
    destruct (decide (k ∈ rs_hops step)) as [Hk|Hk].
    + rewrite bool_decide_eq_true_2, zlen_cons by done. lia.
    + rewrite bool_decide_eq_false_2 by done. lia.
  - rewrite I3, Hf. split.
    + intros [[?|Hk]|(s & Hs & Hk)]; [by left| |]; right; eexists; (split; [|exact Hk]); [by left|by right].
    + intros [?|(s & [->|Hs]%elem_of_cons & Hk)]; [by left; left|by left; right|right; eauto].
Qed.

Lemma passes_usage_check i entry : Passes (usage_check i entry)
  (forall d, find_switch (in_topology i) entry.1 = Some d -> entry.2 <= sd_capacity_score d).
Proof.
  intros r. unfold usage_check. destruct (find_switch (in_topology i) entry.1) as [d|].
  - rewrite passes, Z.ltb_lt. split.
    + intros [? H]. split; [done|]. intros d' [= <-]. destruct (Z.le_gt_cases entry.2 (sd_capacity_score d)); [done|].
      exfalso. auto.
    + intros [? H]. split; [done|]. intros Hlt. specialize (H d eq_refl). lia.
  - split; [intros ?; split; [done|naive_solver]|tauto].
Qed.

Lemma passes_restores i plan : Passes (validate_restores i plan)
  ((forall step, step ∈ pl_restores plan -> restore_acceptable i plan step) /\
   NoDup (restore_demand <$> pl_restores plan) /\
   (forall k, (exists step, step ∈ pl_restores plan /\ k ∈ rs_hops step) -> forall d, find_switch (in_topology i) k = Some d ->
     zlen (filter (fun step => k ∈ rs_hops step) (pl_restores plan)) <= sd_capacity_score d)).
Proof.
  unfold validate_restores. eapply passes_iff.
  { apply passes_cons; [apply passes_restore_loop|]. apply passes_cons; [|apply passes_nil].
    apply passes_for_each. intros e. apply passes_usage_check. }
  set (u := foldl count_hops [] (pl_restores plan)).
  assert (Hu : forall k n, (k, n) ∈ u <-> n = zlen (filter (fun step => k ∈ rs_hops step) (pl_restores plan)) /\
                exists step, step ∈ pl_restores plan /\ k ∈ rs_hops step).
  { intros k n. destruct (count_hops_spec (pl_restores plan) [] k) as (H1 & H2 & H3); [constructor|]. fold u in H1, H2, H3.
    change (used_at [] k) with 0 in H2. rewrite <- (map_find_iff k n u H1). unfold used_at in H2. split.
    - intros Hf. rewrite Hf in H2. simpl in H2. split; [lia|]. destruct (proj1 H3) as [[? ?]|?]; [by rewrite Hf|done|done].
    - intros [-> He]. destruct (proj2 H3 (or_intror He)) as [v Hv]. rewrite Hv in *. simpl in H2. f_equal. lia. }
  split.
  - intros ((H1 & H2 & _) & H3 & _). split; [done|]. split; [done|]. intros k Hk d Hd.
    apply (H3 (k, zlen (filter (fun step => k ∈ rs_hops step) (pl_restores plan)))); [|done]. by apply Hu.
  - intros (H1 & H2 & H3). split; [split; [done|]; split; [done|]; intros; apply not_elem_of_nil|]. split; [|done].
    intros [k n] [-> Hk]%Hu d Hd. cbn [fst snd] in *. by apply H3.
Qed.

(** ** Order *)

Lemma is_sorted_key {A K} `{Ordered K} (key : A -> K) (less : A -> A -> bool) l :
  (forall a b, less a b = ltb (key a) (key b)) -> is_sorted less l = true <-> sorted_by less l.
Proof.
  intros Hk. split.
  - intros Hs. apply Sorted_StronglySorted.
    { intros a b c. rewrite !Hk. intros H1 H2. destruct (ltb (key c) (key a)) eqn:E; [|done].
      destruct (less_cases ltb (key b) (key a)) as [Hlt|[He|Hlt]]; [congruence| |].
      - rewrite <- He in E. congruence.
      - rewrite (less_trans (less := ltb) _ _ _ E Hlt) in H2. done. }
    induction l as [|a [|b l] IH]; [constructor|repeat constructor|]. cbn [is_sorted] in Hs.
    apply andb_true_iff in Hs as [H1 H2]. constructor; [by apply IH|]. constructor. by apply negb_true_iff.
  - induction 1 as [|a l Hs IH Hall]; [done|]. destruct l as [|b l]; [done|]. cbn [is_sorted].
    inversion Hall as [|? ? Hb ?]; subst. rewrite Hb. cbn [negb andb]. done.
Qed.

Lemma passes_ordering plan : Passes (validate_ordering plan)
  (sorted_by restore_less (pl_restores plan) /\ sorted_by unresolved_less (pl_unresolved plan)).
Proof.
  unfold validate_ordering. eapply passes_iff; [apply _|].
  rewrite (is_sorted_key restore_key restore_less), (is_sorted_key unresolved_key unresolved_less); [tauto| |].
  - intros a b. unfold unresolved_less, unresolved_key. by rewrite ltb_pair.
  - intros a b. unfold restore_less, restore_key. by rewrite !ltb_pair.
Qed.

Lemma reason_valid r : is_valid_reason r = true.
Proof. by destruct r. Qed.

Lemma passes_coverage i plan : Passes (validate_coverage i plan)
  ((forall d, d ∈ demands_of i (pl_failed_generations plan) ->
     d ∈ restore_demand <$> pl_restores plan \/ d ∈ unresolved_demand <$> pl_unresolved plan) /\
   pl_closure_complete plan = dp_closure_complete (build_demand_plan i (pl_failed_generations plan))).
Proof.
  unfold validate_coverage. cbv zeta. eapply passes_iff; [apply _|]. rewrite bool_decide_eq_true.
  assert (Hr : forall d, d ∈ resolved_demands plan <->
    d ∈ restore_demand <$> pl_restores plan \/ d ∈ unresolved_demand <$> pl_unresolved plan).
  { intros d. unfold resolved_demands. rewrite !elem_of_insert_fold. set_solver. }
  change (dp_demands (build_demand_plan i (pl_failed_generations plan))) with (demands_of i (pl_failed_generations plan)).
  split.
  - intros (_ & H2 & H3 & _). split; [|done]. intros d Hd. apply Hr. specialize (H2 d Hd).
    destruct (set_contains d (resolved_demands plan)) eqn:E; [by apply set_contains_true|]. by destruct H2.
  - intros (H2 & H3). split; [intros; apply reason_valid|]. split; [|done]. intros d Hd. specialize (H2 d Hd).
    apply Hr, set_contains_true in H2. by rewrite H2.
Qed.

(** * Properties *)

Lemma passes_plan i plan : Passes (plan_checks i plan)
  (pl_epoch plan = pi_epoch i /\ pl_boot plan = pi_boot i /\ pl_topology_digest plan = tp_digest (in_topology i) /\
   pl_policy_digest plan = inputs_policy_digest i /\ pl_failed_generations plan <> []).
Proof.
  unfold plan_checks. eapply passes_iff; [apply _|].
  rewrite !Z.eqb_eq, negb_true_iff, bool_decide_eq_false, bool_decide_eq_true. tauto.
Qed.

Lemma zlen_zero {A} (l : list A) : zlen l = 0 <-> l = [].
Proof. destruct l as [|x l]; [done|]. rewrite zlen_cons. pose proof (zlen_nonneg l). split; [lia|done]. Qed.

Lemma passes_verdict i plan : Passes (verdict_checks i plan)
  ((pl_feasibility plan = PlanFeasibility.ProvenInfeasible -> pl_restores plan = [] /\ pl_unresolved plan <> []) /\
   (pl_feasibility plan = PlanFeasibility.NothingToRestore -> pl_restores plan = []) /\
   ((forall step, step ∈ pl_fences plan -> fence_acceptable i plan step) /\
    (forall key, key ∈ pl_failed_generations plan -> exists step, step ∈ pl_fences plan /\ fs_failed step = key)) /\
   ((forall step, step ∈ pl_restores plan -> restore_acceptable i plan step) /\
    NoDup (restore_demand <$> pl_restores plan) /\
    (forall k, (exists step, step ∈ pl_restores plan /\ k ∈ rs_hops step) -> forall d, find_switch (in_topology i) k = Some d ->
     zlen (filter (fun step => k ∈ rs_hops step) (pl_restores plan)) <= sd_capacity_score d)) /\
   ((forall d, d ∈ demands_of i (pl_failed_generations plan) ->
     d ∈ restore_demand <$> pl_restores plan \/ d ∈ unresolved_demand <$> pl_unresolved plan) /\
   pl_closure_complete plan = dp_closure_complete (build_demand_plan i (pl_failed_generations plan))) /\
   (sorted_by restore_less (pl_restores plan) /\ sorted_by unresolved_less (pl_unresolved plan))).
Proof.
  unfold verdict_checks. eapply passes_iff.
  { apply passes_cons; [apply passes_require|]. apply passes_cons; [apply passes_require|].
    apply passes_cons; [apply passes_fences|]. apply passes_cons; [apply passes_restores|].
    apply passes_cons; [apply passes_coverage|]. apply passes_cons; [apply passes_ordering|apply passes_nil]. }
  rewrite !orb_true_iff, !negb_true_iff, andb_true_iff, negb_true_iff, !bool_decide_eq_false, !bool_decide_eq_true, zlen_zero.
  assert (Hnot : forall P Q : Prop, base.Decision P -> (~ P \/ Q) <-> (P -> Q)).
  { intros P Q [|]; tauto. }
  rewrite !Hnot by apply _. tauto.
Qed.

Lemma finish_valid r : vr_valid (finish r) = true <-> vr_findings r = [].
Proof. unfold finish. cbn [vr_valid]. by rewrite bool_decide_eq_true, zlen_zero. Qed.

Lemma feasibility_valid f : is_valid_feasibility f = true.
Proof. by destruct f. Qed.

(** The verdict of the validator, check by check. *)
Lemma validate_plan_valid i plan :
  vr_valid (validate_plan plan i) = true <-> plan_acceptable i plan.
Proof.
  unfold validate_plan. cbv zeta. destruct (digest_valid plan) eqn:Hd; cbn [negb].
  - rewrite feasibility_valid. cbn [negb]. rewrite finish_valid, (passes_verdict i plan _), passes, (passes_plan i plan _), passes.
    assert (Hcap : (forall k, (exists step, step ∈ pl_restores plan /\ k ∈ rs_hops step) -> forall d, find_switch (in_topology i) k = Some d ->
         zlen (filter (fun step => k ∈ rs_hops step) (pl_restores plan)) <= sd_capacity_score d) /\
        (forall step, step ∈ pl_restores plan -> restore_acceptable i plan step) <->
      (forall k, (exists step, step ∈ pl_restores plan /\ k ∈ rs_hops step) ->
         zlen (filter (fun step => k ∈ rs_hops step) (pl_restores plan)) <= capacity_of i k) /\
        (forall step, step ∈ pl_restores plan -> restore_acceptable i plan step)).
    { split; intros [H1 H2]; (split; [|done]).
      - intros k (step & Hs & Hk). destruct (hc_installed _ _ _ (ra_hops _ _ _ (H2 step Hs) k Hk)) as [d He].
        unfold capacity_of. rewrite He. apply H1; eauto.
      - intros k Hk d He. specialize (H1 k Hk). unfold capacity_of in H1. by rewrite He in H1. }
    cbn [report_start vr_findings]. split.
    + intros ((((_ & _) & E1 & E2 & E3 & E4 & E5) & _) & V1 & V2 & [V3 V4] & (V5 & V6 & V7) & [V8 V9] & V10 & V11).
      destruct (proj1 Hcap (conj V7 V5)) as [V7' _]. by split.
    + intros [E0 E1 E2 E3 E4 E5 V1 V2 V3 V4 V5 V6 V7 V8 V9 V10 V11].
      destruct (proj2 Hcap (conj V7 V5)) as [V7' _].
      exact (conj (conj (conj (conj eq_refl eq_refl) (conj E1 (conj E2 (conj E3 (conj E4 E5))))) eq_refl)
        (conj V1 (conj V2 (conj (conj V3 V4) (conj (conj V5 (conj V6 V7')) (conj (conj V8 V9) (conj V10 V11))))))).
  - rewrite finish_valid. split; [|intros []; congruence]. intros [_ ?]%passes. done.
Qed.

(** C21. What the validator checks, and no more. A plan is declared valid if and
    only if its digest matches its contents; it belongs to the current epoch,
    boot, topology and policy; it names failed generations and fences each of
    them, claiming a complete closure only when no fence step is truncated; every
    restore step is well formed and crosses only installed generations that are
    not failed, fenced, under a fence obligation or contradicted, over installed
    links; no demand is restored twice and no capacity exceeded; every demand
    recomputed from the inputs is restored or explained; and the verdict and the
    order of entries are consistent with each other. The hops, cost and evidence
    of a step are not compared with the supplied alternatives, nor the closure
    digests and the verdict with a new computation
    ([validator_trusts_cost]). *)
Theorem validator_accepts_exactly i plan :
  vr_valid (validate_plan plan i) = true <-> plan_acceptable i plan.
Proof. apply validate_plan_valid. Qed.

(** Validation of the fence obligations alone accepts a plan exactly when its
    digest matches, every fence step names a valid generation that is fenced in
    the registry and truncated ones deny completeness, and every failed
    generation has a fence step. *)
Theorem fence_validation_exact i plan :
  vr_valid (validate_fences plan i) = true <->
  digest_valid plan = true /\
  (forall step, step ∈ pl_fences plan -> fence_acceptable i plan step) /\
  (forall key, key ∈ pl_failed_generations plan -> exists step, step ∈ pl_fences plan /\ fs_failed step = key).
Proof.
  unfold validate_fences. cbv zeta. destruct (digest_valid plan) eqn:Hd; cbn [negb].
  - rewrite finish_valid, (passes_fences i plan _), passes. cbn [report_start vr_findings]. tauto.
  - rewrite finish_valid. split; [|intros []; congruence]. intros [_ ?]%passes. done.
Qed.

(** ** The planner's own plans *)

Lemma sealed_digest p : pl_plan_digest (seal p) <> 0 -> digest_valid (seal p) = true.
Proof.
  intros Hz. unfold digest_valid. rewrite (proj2 (Z.eqb_neq _ _)) by done. cbn [negb andb].
  unfold seal. rewrite compute_digest_ignores. unfold plan_with_digest. cbn [pl_plan_digest]. apply Z.eqb_refl.
Qed.

Lemma planned_ordered i failed mode p : planned i failed mode p ->
  sorted_by restore_less (pl_restores p) /\ sorted_by unresolved_less (pl_unresolved p).
Proof.
  intros Hp. destruct (planned_fields _ _ _ _ Hp) as (_ & _ & -> & -> & _). split.
  - rewrite (std_sort_ext _ (fun a b => ltb (restore_key a) (restore_key b)))
      by (intros a b; unfold restore_less, restore_key; by rewrite !ltb_pair).
    eapply sorted_mono; [|apply std_sort_key_sorted]. intros a b. unfold restore_less, restore_key. by rewrite !ltb_pair.
  - rewrite (std_sort_ext _ (fun a b => ltb (unresolved_key a) (unresolved_key b)))
      by (intros a b; unfold unresolved_less, unresolved_key; by rewrite ltb_pair).
    eapply sorted_mono; [|apply std_sort_key_sorted]. intros a b. unfold unresolved_less, unresolved_key. by rewrite ltb_pair.
Qed.

Lemma validated_candidate c : status_ok (candidate_validate c) = true ->
  dependent_valid (rc_dependent c) = true /\ rc_cost c <> 0 /\ rc_hops c <> [].
Proof.
  unfold candidate_validate. destruct (dependent_valid _); cbn [negb]; [|done].
  destruct (key_valid _); cbn [negb]; [|done]. case_bool_decide as Hh; [done|]. destruct (existsb _ _); [done|].
  destruct (Z.eqb_spec (rc_cost c) 0); done.
Qed.

Section planner_output.
Context (i : PlanInputs) (failed : GenerationVector) (mode : bool) (p : ReconstructionPlan).
Context (Hw : planning_wf i failed) (Hp : planned i failed mode p).
Context (Hfenced : forall k, k ∈ failed -> is_fenced (in_authority i) k = true).
Context (Hlinks : forall c l, c ∈ ct_candidates (in_candidates i) -> l ∈ rc_links c ->
  exists x, find_link (in_topology i) l = Some x).

Lemma planned_key_valid k : k ∈ failed -> key_valid k = true.
Proof using Hp.
  intros Hk. pose proof (pn_failed _ _ _ _ Hp) as Hf. rewrite check_failed_ok, Forall_forall in Hf. by apply Hf.
Qed.

Lemma planned_restore_acceptable r : r ∈ pl_restores p -> restore_acceptable i p r.
Proof using Hw Hp Hfenced Hlinks.
  intros Hr. destruct (planned_restore i failed mode p r Hw Hp Hr) as (d & u & Hd & Hu & ->).
  destruct (evaluate_eligible i failed d u Hw Hu) as (H1 & H2 & H3 & _).
  pose proof (pw_valid _ _ Hw) as Hv. rewrite Forall_forall in Hv.
  destruct (validated_candidate _ (Hv _ H1)) as (V1 & V2 & V3).
  destruct (planned_fields _ _ _ _ Hp) as (Ef & _).
  assert (Hdf : dm_failed d ∈ failed) by (destruct d; by apply elem_of_demands in Hd as [? _]).
  unfold restore_of. rewrite do_demand_evaluate.
  split; cbn [rs_dependent rs_covers_failed rs_action rs_hops rs_replacement rs_links rs_cost]; rewrite ?Ef; try done.
  - by rewrite <- H2.
  - split; [by apply planned_key_valid|done].
  - by destruct (rc_hops (cu_candidate u)).
  - intros hop Hhop. destruct (ad_hops _ _ _ H3 hop Hhop) as (sd & [_ A2 A3 A4 A5 _ _ _]).
    split; [|done|by exists sd|done|done]. rewrite Ef. intros Hin. rewrite (Hfenced hop Hin) in A3. done.
  - intros l Hl. by apply (Hlinks (cu_candidate u)).
Qed.

Lemma planned_acceptable : pl_plan_digest p <> 0 ->
  (pl_closure_complete p = true -> forall f, f ∈ failed -> dc_state (root_closure i f) <> ClosureState.Truncated) ->
  (forall k, zlen (filter (fun r => k ∈ rs_hops r) (pl_restores p)) <= capacity_of i k) ->
  (restore_demand <$> pl_restores p) ++ (unresolved_demand <$> pl_unresolved p) ≡ₚ demands_of i failed ->
  plan_acceptable i p.
Proof using Hw Hp Hfenced Hlinks.
  intros Hdig Hstates Hcap Hall. destruct (planned_fields _ _ _ _ Hp) as (F1 & F2 & F3 & F4 & F5 & F6).
  pose proof (pn_plan _ _ _ _ Hp) as Hplan. destruct (planned_ordered _ _ _ _ Hp) as [O1 O2].
  assert (Hnd : NoDup ((restore_demand <$> pl_restores p) ++ (unresolved_demand <$> pl_unresolved p))).
  { rewrite Hall. apply canonical_NoDup, sort_and_dedupe_canonical. }
  split; rewrite ?F1; try done.
  - rewrite Hplan in Hdig |- *. by apply sealed_digest.
  - by rewrite Hplan.
  - by rewrite Hplan.
  - by rewrite Hplan.
  - by rewrite Hplan.
  - apply (pn_some _ _ _ _ Hp).
  - intros Hf. rewrite F6 in Hf. apply feasibility_infeasible in Hf as [Hd Hr]. split; [done|]. intros Hu. apply Hd.
    change (demands_of i failed = []). rewrite Hr, Hu in Hall. symmetry in Hall. by apply Permutation_nil_r.
  - intros Hf. rewrite F6 in Hf. apply feasibility_nothing in Hf as Hd. change (demands_of i failed = []) in Hd.
    rewrite Hd in Hall. apply Permutation_nil_r in Hall. apply app_nil in Hall as [Hall _]. by apply fmap_nil_inv in Hall.
  - intros step Hs. rewrite F2 in Hs. apply list_elem_of_fmap in Hs as (f & -> & Hf).
    split; cbn [fence_step_of fs_failed fs_closure_state]; [by apply planned_key_valid| |by apply Hfenced].
    intros Ht. destruct (pl_closure_complete p) eqn:Ec; [|done]. by destruct (Hstates eq_refl f Hf).
  - intros key Hk. exists (fence_step_of i key). split; [|done]. rewrite F2. apply list_elem_of_fmap. eauto.
  - intros step Hs. by apply planned_restore_acceptable.
  - by apply NoDup_app in Hnd as [? _].
  - intros d Hd. rewrite <- Hall in Hd. by apply elem_of_app in Hd.
Qed.
End planner_output.

(** C22. The planner's plans pass independent validation. A plan it returns is
    declared valid against the same inputs once every failed generation is
    fenced, provided the links of the supplied alternatives are installed, the
    digest is not the zero placeholder, and the plan claims completeness only
    if no single closure was truncated. *)
Theorem planner_output_validates i failed mode p n :
  planning_wf i failed -> plan_internal i failed mode = Value (p, n) ->
  (forall k, k ∈ failed -> is_fenced (in_authority i) k = true) ->
  (forall c l, c ∈ ct_candidates (in_candidates i) -> l ∈ rc_links c -> exists x, find_link (in_topology i) l = Some x) ->
  pl_plan_digest p <> 0 ->
  (pl_closure_complete p = true -> forall f, f ∈ failed -> dc_state (root_closure i f) <> ClosureState.Truncated) ->
  vr_valid (validate_plan p i) = true.
Proof.
  intros Hw Hrun Hf Hl Hd Hs. destruct (plan_value _ _ _ _ _ Hrun) as [Hp _]. rewrite validate_plan_valid.
  apply (planned_acceptable i failed mode p Hw Hp Hf Hl Hd Hs).
  - by apply (planned_capacity i failed mode p).
  - by apply (planned_demands i failed mode p).
Qed.

(** ** The report bound *)

(** [f] keeps the report within its bound and drops no finding. *)
Class Reports (f : Step) : Prop :=
  reports : forall r, zlen (vr_findings r) <= kMaxFindings + 1 ->
    zlen (vr_findings (f r)) <= kMaxFindings + 1 /\ vr_findings r `prefix_of` vr_findings (f r).

#[export] Instance reports_record code scope detail : Reports (record code scope detail).
Proof.
  intros r Hr. unfold record. destruct (Z.leb_spec kMaxFindings (zlen (vr_findings r))) as [H|H].
  - destruct (Z.eqb_spec (zlen (vr_findings r)) kMaxFindings) as [E|E]; cbn [with_findings vr_findings]; [|done].
    rewrite zlen_app, zlen_cons, zlen_nil. split; [lia|by apply prefix_app_r].
  - cbn [with_findings vr_findings]. rewrite zlen_app, zlen_cons, zlen_nil. split; [lia|by apply prefix_app_r].
Qed.

Lemma reports_compose f g : Reports f -> Reports g -> Reports (fun r => g (f r)).
Proof. intros Hf Hg r Hr. destruct (Hf r Hr) as [H1 H2]. destruct (Hg _ H1) as [H3 H4]. split; [done|by etrans]. Qed.

Lemma reports_after f g r : Reports f -> Reports g -> zlen (vr_findings r) <= kMaxFindings + 1 ->
  zlen (vr_findings (g (f r))) <= kMaxFindings + 1 /\ vr_findings r `prefix_of` vr_findings (g (f r)).
Proof. intros Hf Hg. exact (reports_compose f g Hf Hg r). Qed.

#[export] Instance reports_require b code scope detail : Reports (require b code scope detail).
Proof.
  intros r Hr. unfold require. destruct b; [done|]. apply (reports_record code scope detail (count_check r)). done.
Qed.

#[export] Instance reports_add code scope detail : Reports (add_finding code scope detail).
Proof. intros r Hr. apply (reports_record code scope detail (count_check r)). done. Qed.

#[export] Instance reports_only_if b f : Reports f -> Reports (only_if b f).
Proof. intros H r Hr. unfold only_if. destruct b; [by apply H|done]. Qed.

#[export] Instance reports_nil : Reports (steps []).
Proof. done. Qed.

#[export] Instance reports_cons f l : Reports f -> Reports (steps l) -> Reports (steps (f :: l)).
Proof. intros Hf Hl. exact (reports_compose f (steps l) Hf Hl). Qed.

#[export] Instance reports_for_each {A} (f : A -> Step) l : (forall x, Reports (f x)) -> Reports (for_each f l).
Proof.
  intros H. induction l as [|x l IH]; [done|]. exact (reports_compose (f x) (for_each f l) (H x) IH).
Qed.

#[export] Instance reports_hop i failed scope hop : Reports (hop_checks i failed scope hop).
Proof.
  intros r Hr. unfold hop_checks. cbv zeta.
  destruct (is_fenced _ hop); [by apply reports_after; [apply _|apply _|]|].
  destruct (find_switch _ hop); [|destruct (find_highest_generation _ _)]; by apply reports_after; [apply _|apply _|].
Qed.

#[export] Instance reports_restore_loop i failed seen restores : Reports (restore_loop i failed seen restores).
Proof.
  revert seen. induction restores as [|step rest IH]; intros seen; [done|].
  apply (reports_compose (restore_checks i failed _ step) (restore_loop i failed _ rest)); [|apply IH].
  unfold restore_checks. apply _.
Qed.

#[export] Instance reports_usage i entry : Reports (usage_check i entry).
Proof. unfold usage_check. destruct (find_switch _ _); [apply _|done]. Qed.

#[export] Instance reports_verdict i plan : Reports (verdict_checks i plan).
Proof.
  unfold verdict_checks, validate_fences_internal, fence_checks, validate_restores, validate_coverage, validate_ordering.
  apply _.
Qed.

#[export] Instance reports_plan i plan : Reports (plan_checks i plan).
Proof. unfold plan_checks. apply _. Qed.

(** A hostile plan cannot grow the report without limit: whatever the plan, at
    most 256 findings and one truncation marker are recorded. The outcome of an
    invalid report is the code of its first finding, and that of a valid one is
    Ok. *)
Theorem validation_report_bounded i plan :
  let r := validate_plan plan i in
  zlen (vr_findings r) <= kMaxFindings + 1 /\
  vr_outcome r = match vr_findings r with [] => Code.Ok | f :: _ => vf_code f end /\
  vr_valid r = bool_decide (zlen (vr_findings r) = 0).
Proof.
  cbv zeta. unfold validate_plan. cbv zeta.
  set (r0 := report_start i plan). assert (H0 : zlen (vr_findings r0) <= kMaxFindings + 1) by (vm_compute; discriminate).
  set (r1 := require (digest_valid plan) _ _ _ r0).
  assert (H1 : zlen (vr_findings r1) <= kMaxFindings + 1) by (by apply reports_require).
  destruct (negb (digest_valid plan)); [done|].
  pose proof (proj1 (reports_plan i plan r1 H1)) as H2. set (r2 := plan_checks i plan r1) in *.
  assert (H3 : zlen (vr_findings (require (is_valid_feasibility (pl_feasibility plan)) Code.Invalid "plan"
    "plan carries an undefined feasibility value" r2)) <= kMaxFindings + 1) by (by apply reports_require).
  set (r3 := require (is_valid_feasibility _) _ _ _ r2) in *.
  destruct (negb (is_valid_feasibility _)); [done|]. cbn [finish vr_findings vr_outcome vr_valid].
  by destruct (reports_verdict i plan r3 H3) as [H4 _].
Qed.

(** ** Concrete plans *)

(** The planner can produce a plan that validation refuses: in the exact edge
    bound case the plan claims a complete closure next to a truncated fence
    step, and the validator rejects it as invalid although every failed
    generation is fenced. *)
Theorem planner_output_rejected :
  match plan_internal edge_inputs [mkSwitchKey 1 1; mkSwitchKey 2 1] false with
  | Value (p, _) => let r := validate_plan p edge_inputs in
      vr_valid r = false /\ vr_outcome r = Code.Invalid /\
      vf_detail <$> vr_findings r = ["a truncated closure must not be reported as complete"%string]
  | Refused _ => False
  end.
Proof. vm_compute. done. Qed.

(** The same plan with made-up costs and evidence. *)
Definition relabel (p : ReconstructionPlan) : ReconstructionPlan :=
  seal (mkPlan (pl_id p) (pl_epoch p) (pl_boot p) (pl_failed_generations p) (pl_fences p)
    ((fun s => mkRestore (rs_dependent s) (rs_covers_failed s) (rs_action s) (rs_replacement s) (rs_hops s) (rs_links s) 999999 424242)
       <$> pl_restores p)
    (pl_unresolved p) (pl_feasibility p) (pl_state p) (pl_closure_complete p) (pl_service_withheld p)
    (pl_topology_digest p) (pl_policy_digest p) 0).

(** The validator does not derive the cost and the evidence of a step from the
    inputs: with both made up and the digest computed over them, the planner's
    plan is still declared valid. *)
Theorem validator_trusts_cost :
  pl_restores (planned_sample false) <> [] /\ relabel (planned_sample false) <> planned_sample false /\
  vr_valid (validate_plan (relabel (planned_sample false)) plan_inputs) = true.
Proof.
  split; [vm_compute; discriminate|]. split; [|vm_cast_no_check (eq_refl true)].
  intros H. apply (f_equal pl_plan_digest) in H. vm_compute in H. discriminate H.
Qed.

Lemma planner_output_validates_witness : vr_valid (validate_plan (planned_sample false) plan_inputs) = true.
Proof.
  destruct (planned_sample_value false) as [n Hn].
  apply (planner_output_validates plan_inputs plan_failed false _ n plan_inputs_wf Hn).
  - intros k ->%list_elem_of_singleton. vm_compute. reflexivity.
  - intros c l Hc Hl. rewrite plan_inputs_table in Hc.
    assert (Hall : forallb (fun c => bool_decide (rc_links c = [])) (ct_candidates plan_table) = true) by (vm_compute; reflexivity).
    rewrite forallb_forall in Hall. pose proof (Hall c (proj1 (list_elem_of_In _ _) Hc)) as Hz. cbv beta in Hz.
    apply bool_decide_eq_true in Hz. rewrite Hz in Hl. exfalso. exact (not_elem_of_nil _ Hl).
  - vm_compute. discriminate.
  - intros _ f ->%list_elem_of_singleton. vm_compute. discriminate.
Defined.
