(* ===== verification/Session.v ===== *)
(** Session authority (include/sff/runtime/session.hpp, src/runtime/session.cpp): the
    bounded table of client sessions and the consumption of request sequence
    numbers. Every public operation holds the registry mutex for its whole body,
    so it is one step of the registry state, and a history of the registry is a
    list of operations run one after the other. *)

From S2P Require Import Prelude Containers Core.

Record SessionBinding := mkBinding {
  sb_session : Z;
  sb_epoch : Z;
  sb_boot_digest : Z;
  sb_request_seq : Z
}.

Record SessionRecord := mkSession {
  sr_id : Z;
  sr_principal : string;
  sr_epoch : Z;
  sr_boot : BootIncarnation;
  sr_opened_at_ns : Z;
  sr_last_request_seq : Z;
  sr_closed : bool
}.

Record SessionRegistry := mkSessions {
  sg_limits : Limits;
  sg_sessions : list (Z * SessionRecord);
  sg_next_session : Z;
  sg_replay_rejections : Z
}.

Definition SessionRegistry_new (limits : Limits) : SessionRegistry := mkSessions limits [] 1 0.

Definition with_sessions (r : SessionRegistry) (sessions : list (Z * SessionRecord)) :
  SessionRegistry :=
  mkSessions (sg_limits r) sessions (sg_next_session r) (sg_replay_rejections r).

Definition count_replay (r : SessionRegistry) : SessionRegistry :=
  mkSessions (sg_limits r) (sg_sessions r) (sg_next_session r) (add64 (sg_replay_rejections r) 1).

Definition session_close_record (s : SessionRecord) : SessionRecord :=
  mkSession (sr_id s) (sr_principal s) (sr_epoch s) (sr_boot s) (sr_opened_at_ns s)
    (sr_last_request_seq s) true.

Definition session_consume (s : SessionRecord) (seq : Z) : SessionRecord :=
  mkSession (sr_id s) (sr_principal s) (sr_epoch s) (sr_boot s) (sr_opened_at_ns s) seq
    (sr_closed s).

(** [sessions_.at] throws on an absent key; [session_open_answers] below shows it never does. *)
Definition session_open (principal : string) (epoch : Z) (boot : BootIncarnation) (now_ns : Z)
  (r : SessionRegistry) : option (Result SessionRecord) * SessionRegistry :=
  if negb (id_valid epoch) || negb (boot_valid boot) then
    (Some (Refused (failure Code.Unauthorized
       "a session requires a current epoch and boot incarnation")), r)
  else if max_sessions (sg_limits r) <=? map_size (sg_sessions r) then
    (Some (Refused (refuse_exhausted "max_sessions" (map_size (sg_sessions r) + 1)
       (max_sessions (sg_limits r)))), r)
  else
    let id := sg_next_session r in
    let record := mkSession id (bounded_message principal) epoch boot now_ns 0 false in
    let sessions := map_emplace id record (sg_sessions r) in
    (Value <$> map_find id sessions,
     mkSessions (sg_limits r) sessions (add64 id 1) (sg_replay_rejections r)).

Definition session_close (id : Z) (r : SessionRegistry) : Status * SessionRegistry :=
  match map_find id (sg_sessions r) with
  | None => (failure Code.NotFound "session identity is unknown", r)
  | Some record =>
      (success, with_sessions r (map_set id (session_close_record record) (sg_sessions r)))
  end.

Definition authorise (binding : SessionBinding) (current_epoch current_boot_digest : Z)
  (r : SessionRegistry) : Status * SessionRegistry :=
  match map_find (sb_session binding) (sg_sessions r) with
  | None =>
      (failure Code.Unauthorized "session identity is unknown to this incarnation", count_replay r)
  | Some record =>
      if sr_closed record then (failure Code.Closed "session is closed", r)
      else if current_boot_digest =? 0 then
        (failure Code.Unauthorized "this incarnation has no established boot identity", r)
      else if negb (sb_epoch binding =? current_epoch) || negb (sr_epoch record =? current_epoch) then
        (failure Code.Stale "request was issued under a different coordinator epoch", r)
      else if negb (sb_boot_digest binding =? current_boot_digest) then
        (failure Code.Stale "request was issued under a different process incarnation", r)
      else if sb_request_seq binding <=? sr_last_request_seq record then
        (failure Code.Replay "request sequence did not advance", count_replay r)
      else
        (success,
         with_sessions r
           (map_set (sb_session binding) (session_consume record (sb_request_seq binding))
              (sg_sessions r)))
  end.

Definition sessions_size (r : SessionRegistry) : Z := map_size (sg_sessions r).
Definition replay_rejections (r : SessionRegistry) : Z := sg_replay_rejections r.
Definition sessions_all (r : SessionRegistry) : list SessionRecord := map_values (sg_sessions r).
Definition session_contains (id : Z) (r : SessionRegistry) : bool :=
  map_contains id (sg_sessions r).

(** The loop closes in place every record that is still open and counts it. *)
Definition close_all (r : SessionRegistry) : Z * SessionRegistry :=
  (zlen (filter (fun e => sr_closed e.2 = false) (sg_sessions r)),
   with_sessions r
     (map_update (fun s => if sr_closed s then s else session_close_record s) (sg_sessions r))).

(** ** Histories *)

Inductive SessionOp :=
| OpOpen (principal : string) (epoch : Z) (boot : BootIncarnation) (now_ns : Z)
| OpClose (id : Z)
| OpAuthorise (binding : SessionBinding) (epoch boot_digest : Z)
| OpCloseAll.

(** The registry after one operation, and the session and sequence number it consumed. *)
Definition session_step (op : SessionOp) (r : SessionRegistry) :
  option (Z * Z) * SessionRegistry :=
  match op with
  | OpOpen principal epoch boot now_ns => (None, (session_open principal epoch boot now_ns r).2)
  | OpClose id => (None, (session_close id r).2)
  | OpAuthorise binding epoch boot_digest =>
      let '(status, r') := authorise binding epoch boot_digest r in
      (if status_ok status then Some (sb_session binding, sb_request_seq binding) else None, r')
  | OpCloseAll => (None, (close_all r).2)
  end.

Fixpoint session_run (ops : list SessionOp) (r : SessionRegistry) :
  list (Z * Z) * SessionRegistry :=
  match ops with
  | [] => ([], r)
  | op :: rest =>
      let '(consumed, r1) := session_step op r in
      let '(trace, r2) := session_run rest r1 in
      (from_option (fun e => e :: trace) trace consumed, r2)
  end.

(** The sequence numbers a history consumed on one session, in order. *)
Definition consumed_on (id : Z) (trace : list (Z * Z)) : list Z :=
  (filter (fun e => e.1 = id) trace).*2.

(** ** The registry invariant *)

Record sessions_wf (r : SessionRegistry) : Prop := {
  sw_map : map_wf (sg_sessions r);
  sw_keyed : forall id s, map_find id (sg_sessions r) = Some s -> sr_id s = id;
  sw_dense : forall id, id ∈ map_keys (sg_sessions r) <-> 1 <= id <= sessions_size r;
  sw_next : sg_next_session r = sessions_size r + 1;
  sw_bound : sessions_size r <= Z.max 0 (max_sessions (sg_limits r));
  sw_valid : forall id s, map_find id (sg_sessions r) = Some s ->
    id_valid (sr_epoch s) = true /\ boot_valid (sr_boot s) = true
    /\ str_size (sr_principal s) <= kMaxMessageBytes /\ 0 <= sr_last_request_seq s
}.

(** The highest sequence number consumed on a session: 0 for one never opened. *)
Definition last_seq (id : Z) (r : SessionRegistry) : Z :=
  from_option sr_last_request_seq 0 (map_find id (sg_sessions r)).

(** When a request is let through. *)
Definition authorised (b : SessionBinding) (epoch boot_digest : Z) (r : SessionRegistry) : Prop :=
  exists s, map_find (sb_session b) (sg_sessions r) = Some s
    /\ sr_closed s = false /\ boot_digest <> 0
    /\ sb_epoch b = epoch /\ sr_epoch s = epoch /\ sb_boot_digest b = boot_digest
    /\ sr_last_request_seq s < sb_request_seq b.

Lemma find_close_all id r :
  map_find id (sg_sessions (close_all r).2)
  = (fun s => if sr_closed s then s else session_close_record s) <$> map_find id (sg_sessions r).
Proof. apply map_find_update. Qed.

(** Every branch of [authorise]: either the request is let through and its
    sequence number is consumed, or the table of sessions is untouched. *)
Lemma authorise_cases b epoch boot_digest r :
  (exists s, map_find (sb_session b) (sg_sessions r) = Some s
     /\ authorised b epoch boot_digest r
     /\ authorise b epoch boot_digest r
        = (success, with_sessions r
             (map_set (sb_session b) (session_consume s (sb_request_seq b)) (sg_sessions r))))
  \/ (~ authorised b epoch boot_digest r
      /\ status_ok (authorise b epoch boot_digest r).1 = false
      /\ sg_sessions (authorise b epoch boot_digest r).2 = sg_sessions r
      /\ sg_next_session (authorise b epoch boot_digest r).2 = sg_next_session r
      /\ sg_limits (authorise b epoch boot_digest r).2 = sg_limits r).
Proof.
  unfold authorise, authorised. destruct (map_find _ _) as [s|] eqn:Hf.
  2: { right. split; [by intros (?&?&_)|done]. }
  destruct (sr_closed s) eqn:Hc.
  { right. split; [intros (?&[= ->]&?&_); congruence|done]. }
  destruct (boot_digest =? 0) eqn:Hb.
  { right. split; [intros (?&[= ->]&?&?&_); lia|done]. }
  destruct (negb _ || negb _) eqn:He.
  { right. split; [intros (?&[= ->]&?&?&?&?&_); lia|done]. }
  destruct (negb (sb_boot_digest _ =? _)) eqn:Hd.
  { right. split; [intros (?&[= ->]&?&?&?&?&?&_); lia|done]. }
  destruct (_ <=? _) eqn:Hq.
  { right. split; [intros (?&[= ->]&?&?&?&?&?&?); lia|done]. }
  left. exists s. split; [done|]. split; [|done]. exists s. split_and!; first [done|lia].
Qed.

Lemma session_open_sessions principal epoch boot now_ns r id :
  map_find id (sg_sessions (session_open principal epoch boot now_ns r).2)
  = map_find id (sg_sessions r)
  \/ map_find id (sg_sessions r) = None
     /\ map_find id (sg_sessions (session_open principal epoch boot now_ns r).2)
        = Some (mkSession id (bounded_message principal) epoch boot now_ns 0 false).
Proof.
  unfold session_open. repeat split_test; [by left..|]. simpl. unfold map_emplace, map_contains.
  destruct (map_find (sg_next_session r) (sg_sessions r)) eqn:Hn; [by left|].
  rewrite map_find_set. case_bool_decide as He; [subst; by right|by left].
Qed.

Lemma session_open_answers principal epoch boot now_ns r :
  is_Some (session_open principal epoch boot now_ns r).1.
Proof.
  unfold session_open. do 2 (split_test; [eauto|]). simpl. unfold map_emplace, map_contains.
  destruct (map_find (sg_next_session r) (sg_sessions r)) eqn:Hn; [rewrite Hn|rewrite map_find_set_eq]; eauto.
Qed.

Lemma session_close_sessions id id' r :
  map_find id' (sg_sessions (session_close id r).2)
  = if bool_decide (id = id') then session_close_record <$> map_find id (sg_sessions r)
    else map_find id' (sg_sessions r).
Proof.
  unfold session_close. destruct (map_find id _) eqn:Hf; simpl.
  - apply map_find_set.
  - case_bool_decide; [by subst|done].
Qed.

(** What one operation does to the record of one session: nothing, create it
    with nothing consumed, consume a larger sequence number while it is open, or
    close it. *)
Inductive session_evolves (id : Z) :
  option (Z * Z) -> option SessionRecord -> option SessionRecord -> Prop :=
| Kept consumed o : fst <$> consumed <> Some id -> session_evolves id consumed o o
| Created s : sr_last_request_seq s = 0 -> session_evolves id None None (Some s)
| Consumed s seq : sr_closed s = false -> sr_last_request_seq s < seq ->
    session_evolves id (Some (id, seq)) (Some s) (Some (session_consume s seq))
| Shut s : session_evolves id None (Some s) (Some (session_close_record s)).

Lemma session_step_evolves op r id :
  session_evolves id (session_step op r).1
    (map_find id (sg_sessions r)) (map_find id (sg_sessions (session_step op r).2)).
Proof.
  destruct op as [p e b n|i|b e d|]; simpl.
  - destruct (session_open_sessions p e b n r id) as [->|[-> ->]]; by constructor.
  - rewrite session_close_sessions. case_bool_decide as He; [subst|by constructor].
    destruct (map_find id _); by constructor.
  - destruct (authorise_cases b e d r) as [(s & Hf & (s' & Hf' & Hc & _ & _ & _ & _ & Hlt) & ->)
      |(_ & Hok & Hs & _)].
    + rewrite Hf in Hf'. injection Hf' as <-. simpl. rewrite map_find_set.
      case_bool_decide as He; [|by constructor; intros [=]].
      subst. rewrite Hf. by constructor.
    + destruct (authorise b e d r) as [st r'] eqn:Ha. simpl in *. rewrite Hok, Hs. by constructor.
  - rewrite map_find_update. destruct (map_find id _) as [s|]; [simpl|by constructor].
    destruct (sr_closed s); by constructor.
Qed.

Lemma session_run_cons op ops r :
  (session_run (op :: ops) r).1
  = option_list (session_step op r).1 ++ (session_run ops (session_step op r).2).1
  /\ (session_run (op :: ops) r).2 = (session_run ops (session_step op r).2).2.
Proof.
  simpl. destruct (session_step op r) as [c r1]. simpl. destruct (session_run ops r1) as [t r2].
  by destruct c.
Qed.

Lemma consumed_on_app id t t' : consumed_on id (t ++ t') = consumed_on id t ++ consumed_on id t'.
Proof. unfold consumed_on. by rewrite filter_app, fmap_app. Qed.

(** What one operation adds to the numbers consumed on a session. *)
Lemma session_step_consumed op r id :
  consumed_on id (option_list (session_step op r).1) = []
  /\ last_seq id (session_step op r).2 = last_seq id r
  \/ (exists seq, consumed_on id (option_list (session_step op r).1) = [seq]
      /\ last_seq id r < seq /\ last_seq id (session_step op r).2 = seq).
Proof.
  unfold last_seq. destruct (session_step_evolves op r id) as [c o Hc|s Hs|s seq Hc Hlt|s].
  - left. split; [|done]. destruct c as [[i q]|]; [|done]. unfold consumed_on. simpl.
    rewrite filter_cons_False; [done|]. simpl in *. congruence.
  - by left.
  - right. exists seq. unfold consumed_on. simpl. by rewrite filter_cons_True.
  - by left.
Qed.

Lemma consumed_increases ops r id :
  canonical (consumed_on id (session_run ops r).1)
  /\ (forall seq, seq ∈ consumed_on id (session_run ops r).1 -> last_seq id r < seq)
  /\ last_seq id r <= last_seq id (session_run ops r).2.
Proof.
  revert r. induction ops as [|op ops IH]; intros r.
  { split_and!; [constructor|by intros ? ?%elem_of_nil|done]. }
  destruct (session_run_cons op ops r) as [-> ->]. rewrite consumed_on_app.
  destruct (IH (session_step op r).2) as (Hc & Hall & Hle).
  destruct (session_step_consumed op r id) as [[-> Hl]|(seq & -> & Hlt & Hl)]; rewrite Hl in *.
  - done.
  - simpl. split_and!.
    + apply canonical_cons; [done|]. intros y Hy%Hall. by apply Z.ltb_lt.
    + intros q [->|Hq%Hall]%elem_of_cons; lia.
    + lia.
Qed.

Lemma closed_stays ops r id s :
  map_find id (sg_sessions r) = Some s -> sr_closed s = true ->
  consumed_on id (session_run ops r).1 = []
  /\ exists s', map_find id (sg_sessions (session_run ops r).2) = Some s' /\ sr_closed s' = true.
Proof.
  revert r s. induction ops as [|op ops IH]; intros r s Hf Hcl; [eauto|].
  destruct (session_run_cons op ops r) as [-> ->]. rewrite consumed_on_app.
  pose proof (session_step_evolves op r id) as He. rewrite Hf in He.
  enough (consumed_on id (option_list (session_step op r).1) = []
    /\ exists s1, map_find id (sg_sessions (session_step op r).2) = Some s1 /\ sr_closed s1 = true)
    as [-> (s1 & Hf1 & Hc1)] by (by apply (IH _ s1)).
  destruct (session_step_consumed op r id) as [[Hn _]|(q & Hq & _)].
  - split; [done|]. inversion He; subst; [by eauto|congruence|by eauto].
  - exfalso. inversion He as [c o Hne| |? ? Hop|]; subst; [|congruence|].
    + destruct (session_step op r).1 as [[i x]|]; [|done]. unfold consumed_on in Hq. simpl in Hq.
      rewrite filter_cons_False in Hq; [done|]. simpl in *. congruence.
    + match goal with H : None = (session_step op r).1 |- _ => by rewrite <- H in Hq end.
Qed.

(** ** Well-formedness of the table *)

(** What a stored record may change: the consumed sequence number and the flag. *)
Definition same_session (s s' : SessionRecord) : Prop :=
  sr_id s' = sr_id s /\ sr_epoch s' = sr_epoch s /\ sr_boot s' = sr_boot s
  /\ sr_principal s' = sr_principal s /\ sr_last_request_seq s <= sr_last_request_seq s'.

Lemma sessions_wf_replace r id s s' :
  sessions_wf r -> map_find id (sg_sessions r) = Some s -> same_session s s' ->
  sessions_wf (with_sessions r (map_set id s' (sg_sessions r))).
Proof.
  intros [Hm Hk Hd Hn Hb Hv] Hf (Hi & He & Hbo & Hp & Hl).
  assert (map_size (map_set id s' (sg_sessions r)) = map_size (sg_sessions r)) as Hsz
    by (by apply (map_size_set_old _ _ s)).
  constructor; unfold sessions_size in *; simpl; rewrite ?Hsz; try done.
  - by apply map_set_wf.
  - intros i t. rewrite map_find_set. case_bool_decide; [|apply Hk]. intros [= <-]. subst.
    rewrite Hi. by apply Hk.
  - intros i. rewrite map_keys_set, Hd. split; [intros [->|?]; [|done]|tauto].
    apply Hd. apply dec_stable. intros Hni%map_find_none. congruence.
  - intros i t. rewrite map_find_set. case_bool_decide; [|apply Hv]. intros [= <-].
    rewrite He, Hbo, Hp. destruct (Hv _ _ Hf) as (? & ? & ? & ?). split_and!; [done..|lia].
Qed.

Lemma same_session_closed s : same_session s (session_close_record s).
Proof. by repeat split. Qed.

Lemma session_open_wf p e b n r :
  sessions_wf r -> max_sessions (sg_limits r) < UINT64_MAX ->
  sessions_wf (session_open p e b n r).2
  /\ exists answer, (session_open p e b n r).1 = Some answer.
Proof.
  intros Hwf Hlim. pose proof Hwf as [Hm Hk Hd Hn Hb Hv]. unfold session_open.
  destruct (negb _ || _) eqn:Hva; [by eauto|]. split_test; bool_prop; [by eauto|].
  unfold sessions_size in *. simpl.
  assert (map_find (sg_next_session r) (sg_sessions r) = None) as Hnew.
  { apply map_find_none. rewrite Hd. lia. }
  pose proof (zlen_nonneg (sg_sessions r)) as Hpos. change (zlen _) with (map_size (sg_sessions r)) in Hpos.
  rewrite (map_find_emplace _ _ _ _ Hnew), bool_decide_true by done. split; [|by eexists].
  unfold map_emplace. rewrite (proj2 (map_contains_false _ _) Hnew).
  constructor; unfold sessions_size; simpl; rewrite ?map_size_set_new by done.
  - by apply map_set_wf.
  - intros i t. rewrite map_find_set. case_bool_decide; [|apply Hk]. intros [= <-]. by subst.
  - intros i. rewrite map_keys_set, Hd. lia.
  - rewrite add64_small; [lia|]. revert Hlim. ints_lia.
  - lia.
  - intros i t. rewrite map_find_set. case_bool_decide; [|apply Hv]. intros [= <-]. simpl.
    destruct Hva. split_and!; [done..|apply str_size_bounded|done].
Qed.

Lemma close_all_wf r : sessions_wf r -> sessions_wf (close_all r).2.
Proof.
  intros [Hm Hk Hd Hn Hb Hv].
  constructor; unfold sessions_size in *; simpl; rewrite ?map_size_update, ?map_update_keys; try done.
  - by apply map_update_wf.
  - intros i t. rewrite map_find_update. destruct (map_find i _) as [s|] eqn:Hf; [|done].
    intros [= <-]. destruct (sr_closed s); exact (Hk _ _ Hf).
  - intros i t. rewrite map_find_update. destruct (map_find i _) as [s|] eqn:Hf; [|done].
    intros [= <-]. destruct (sr_closed s); apply (Hv _ _ Hf).
Qed.

Lemma authorise_wf b e d r : sessions_wf r -> sessions_wf (authorise b e d r).2.
Proof.
  intros Hwf. destruct (authorise_cases b e d r) as [(s & Hf & (s' & Hf' & _ & _ & _ & _ & _ & Hlt) & ->)
      |(_ & _ & Hs & Hn & Hl)].
  - rewrite Hf in Hf'. injection Hf' as <-. apply (sessions_wf_replace _ _ s); [done..|].
    repeat split. simpl. lia.
  - destruct Hwf. constructor; unfold sessions_size in *; rewrite ?Hs, ?Hn, ?Hl; done.
Qed.

Lemma session_limits op r : sg_limits (session_step op r).2 = sg_limits r.
Proof.
  destruct op as [p e b n|i|b e d|]; simpl; [| | |done].
  - unfold session_open. by repeat split_test.
  - unfold session_close. by destruct (map_find _ _).
  - destruct (authorise_cases b e d r) as [(s & _ & _ & ->)|(_ & _ & _ & _ & Hl)]; [done|].
    by destruct (authorise b e d r).
Qed.

Lemma session_step_wf op r :
  sessions_wf r -> max_sessions (sg_limits r) < UINT64_MAX -> sessions_wf (session_step op r).2.
Proof.
  intros Hwf Hlim. destruct op as [p e b n|i|b e d|]; simpl.
  - by apply session_open_wf.
  - unfold session_close. destruct (map_find i _) as [s|] eqn:Hf; [|done].
    by apply (sessions_wf_replace _ _ s); [..|apply same_session_closed].
  - pose proof (authorise_wf b e d r Hwf). by destruct (authorise b e d r).
  - by apply close_all_wf.
Qed.

Lemma session_run_wf ops r :
  sessions_wf r -> max_sessions (sg_limits r) < UINT64_MAX ->
  sessions_wf (session_run ops r).2 /\ sg_limits (session_run ops r).2 = sg_limits r.
Proof.
  revert r. induction ops as [|op ops IH]; intros r Hwf Hlim; [done|].
  destruct (session_run_cons op ops r) as [_ ->]. rewrite <- (session_limits op r).
  apply IH; [by apply session_step_wf|by rewrite session_limits].
Qed.

Lemma sessions_new_wf limits : sessions_wf (SessionRegistry_new limits).
Proof.
  constructor; unfold sessions_size, SessionRegistry_new; simpl; try done.
  - constructor.
  - intros id. unfold map_size. rewrite zlen_nil. split; [by intros ?%elem_of_nil|lia].
  - apply Z.le_max_l.
Qed.

Lemma session_limit_fits limits :
  status_ok (limits_validate limits) = true -> max_sessions limits < UINT64_MAX.
Proof.
  intros Hok. destruct (decide (0 <= max_sessions limits)); [|ints_lia].
  destruct (limits_validate_bounded limits (max_sessions limits) kHardMaxSessions
    "max_sessions" Hok) as [_ Hle]; [|done|].
  { unfold bounded_limits. repeat (apply elem_of_cons; first [by left|right]). }
  unfold kHardMaxSessions in Hle. change (Z.shiftl 1 20) with 1048576 in Hle. ints_lia.
Qed.

(** ** The properties of the registry *)

Definition session_boot : BootIncarnation := mkBoot 7 1 2 3.

Definition session_history : list SessionOp :=
  [OpOpen "operator" 5 session_boot 10;
   OpAuthorise (mkBinding 1 5 77 1) 5 77;
   OpAuthorise (mkBinding 1 5 77 1) 5 77;
   OpAuthorise (mkBinding 1 5 77 9) 5 77;
   OpAuthorise (mkBinding 2 5 77 3) 5 77;
   OpClose 1;
   OpAuthorise (mkBinding 1 5 77 10) 5 77;
   OpOpen "second" 5 session_boot 20;
   OpAuthorise (mkBinding 2 5 77 4) 5 77].

Example session_history_trace :
  session_run session_history (SessionRegistry_new limits_defaults)
  = ([(1, 1); (1, 9); (2, 4)],
     mkSessions limits_defaults
       [(1, mkSession 1 "operator" 5 session_boot 10 9 true);
        (2, mkSession 2 "second" 5 session_boot 20 4 false)] 3 2).
Proof. vm_compute. reflexivity. Qed.

(** No request is accepted twice: over any history of the registry, whatever
    its interleaving of opens, closes and requests, the sequence numbers
    consumed on a session are strictly increasing and all above the last one
    consumed before the history began. *)
Theorem session_replay_safe (ops : list SessionOp) (r : SessionRegistry) (id : Z) :
  canonical (consumed_on id (session_run ops r).1)
  /\ NoDup (consumed_on id (session_run ops r).1)
  /\ (forall seq, seq ∈ consumed_on id (session_run ops r).1 -> last_seq id r < seq).
Proof.
  destruct (consumed_increases ops r id) as (Hc & Hall & _).
  split_and!; [done|by apply canonical_NoDup|done].
Qed.

(** [authorise] lets a request through exactly when its session is in the
    table and open, the incarnation has a boot identity, the request and its
    session carry the current epoch, the request carries the current boot digest
    and its sequence number is above the last one consumed; then that number is
    consumed on that session and nothing else of the registry changes, and a
    refusal leaves every session as it was. *)
Theorem authorise_exact (b : SessionBinding) (epoch boot_digest : Z) (r : SessionRegistry) :
  (status_ok (authorise b epoch boot_digest r).1 = true <-> authorised b epoch boot_digest r)
  /\ (forall id, map_find id (sg_sessions (authorise b epoch boot_digest r).2)
      = if status_ok (authorise b epoch boot_digest r).1 && bool_decide (sb_session b = id)
        then (fun s => session_consume s (sb_request_seq b)) <$> map_find id (sg_sessions r)
        else map_find id (sg_sessions r))
  /\ sg_next_session (authorise b epoch boot_digest r).2 = sg_next_session r.
Proof.
  destruct (authorise_cases b epoch boot_digest r) as [(s & Hf & Ha & ->)|(Hna & -> & -> & -> & _)].
  - split_and!; [done| |done]. intros id. simpl. rewrite map_find_set.
    case_bool_decide; [subst; by rewrite Hf|done].
  - split_and!; [|done..]. by split.
Qed.

(** Closing is final: once a session is closed, no history of the registry
    consumes another request on it, and it is never reopened. *)
Theorem closed_session_is_final (ops : list SessionOp) (r : SessionRegistry) (id : Z) :
  status_ok (session_close id r).1 = true ->
  consumed_on id (session_run ops (session_close id r).2).1 = []
  /\ exists s, map_find id (sg_sessions (session_run ops (session_close id r).2).2) = Some s
     /\ sr_closed s = true.
Proof.
  intros Hok. destruct (map_find id (sg_sessions r)) as [s|] eqn:Hf.
  - apply (closed_stays _ _ _ (session_close_record s)); [|done].
    by rewrite session_close_sessions, bool_decide_true, Hf.
  - revert Hok. unfold session_close. by rewrite Hf.
Qed.

Lemma closed_session_is_final_witness :
  let r := (session_run (take 2 session_history) (SessionRegistry_new limits_defaults)).2 in
  consumed_on 1 (session_run session_history (session_close 1 r).2).1 = [].
Proof.
  apply (closed_session_is_final session_history
    (session_run (take 2 session_history) (SessionRegistry_new limits_defaults)).2 1).
  vm_compute. reflexivity.
Defined.

(** C35. The table is well formed after any history of a registry built with
    validated limits: its keys are the identities of its records, they are
    exactly 1 to its size and the next identity follows them, so none is issued
    twice; the size stays within [max_sessions]; every session carries a valid
    epoch and boot incarnation and a bounded principal. An [open] then always
    answers: the lookup of the record it just stored cannot fail. *)
Theorem session_table_well_formed (limits : Limits) (ops : list SessionOp) :
  status_ok (limits_validate limits) = true ->
  let r := (session_run ops (SessionRegistry_new limits)).2 in
  sessions_wf r
  /\ forall p e b n, exists answer, (session_open p e b n r).1 = Some answer.
Proof.
  intros Hok%session_limit_fits r.
  destruct (session_run_wf ops (SessionRegistry_new limits)) as [Hwf Hl];
    [apply sessions_new_wf|done|].
  split; [done|]. intros p e b n. apply session_open_wf; [done|]. unfold r. by rewrite Hl.
Qed.

Lemma session_table_well_formed_witness :
  sessions_wf (session_run session_history (SessionRegistry_new limits_defaults)).2.
Proof.
  apply (session_table_well_formed limits_defaults session_history). vm_compute. reflexivity.
Defined.

(** The slot of a session is never reclaimed: no operation shrinks the table, so
    once [max_sessions] sessions have been opened every later [open] is refused,
    whether or not they were closed. *)
Lemma session_step_size op r :
  sessions_wf r -> sessions_size r <= sessions_size (session_step op r).2.
Proof.
  intros [Hm _ _ _ _ _]. unfold sessions_size. destruct op as [p e b n|i|b e d|]; simpl.
  - unfold session_open. repeat split_test; [done..|]. simpl. unfold map_emplace, map_contains.
    destruct (map_find _ _) eqn:Hf; [done|]. rewrite map_size_set_new by done. lia.
  - unfold session_close. destruct (map_find _ _) as [s|] eqn:Hf; [|done]. simpl.
    by rewrite (map_size_set_old _ _ s).
  - destruct (authorise_cases b e d r) as [(s & Hf & _ & ->)|(_ & _ & Hs & _)].
    + simpl. by rewrite (map_size_set_old _ _ s).
    + destruct (authorise b e d r). simpl in *. by rewrite Hs.
  - by rewrite map_size_update.
Qed.

Lemma session_slots_not_reclaimed ops r p e b n :
  sessions_wf r -> max_sessions (sg_limits r) < UINT64_MAX ->
  max_sessions (sg_limits r) <= sessions_size r ->
  id_valid e = true -> boot_valid b = true ->
  exists s, (session_open p e b n (session_run ops r).2).1 = Some (Refused s)
    /\ status_code s = Code.Exhausted.
Proof.
  intros Hwf Hlim Hfull He Hb.
  assert (max_sessions (sg_limits r) <= sessions_size (session_run ops r).2
    /\ sg_limits (session_run ops r).2 = sg_limits r) as [Hsz Hl].
  { revert r Hwf Hlim Hfull. induction ops as [|op ops IH]; intros r Hwf Hlim Hfull; [done|].
    destruct (session_run_cons op ops r) as [_ ->]. rewrite <- (session_limits op r) in *.
    pose proof (session_step_size op r Hwf).
    apply IH; [apply session_step_wf; [done|by rewrite <- (session_limits op r)]|done|lia]. }
  unfold session_open. rewrite He, Hb, Hl. simpl. unfold sessions_size in Hsz.
  rewrite (proj2 (Z.leb_le _ _) Hsz). eexists. split; [done|]. done.
Qed.

(** A session opened under one boot incarnation serves a request under another:
    [authorise] never reads the incarnation its session was opened under. *)
Lemma authorise_ignores_session_boot b e d r boot' :
  let swap := fun s => mkSession (sr_id s) (sr_principal s) (sr_epoch s) boot' (sr_opened_at_ns s)
                         (sr_last_request_seq s) (sr_closed s) in
  (authorise b e d (with_sessions r (map_update swap (sg_sessions r)))).1 = (authorise b e d r).1.
Proof.
  unfold authorise. simpl. rewrite map_find_update. destruct (map_find _ _) as [s|]; [|done].
  simpl. by repeat split_test.
Qed.
