(* ===== verification/Frame.v ===== *)
(** The bounded framed protocol (include/sff/transport/frame.hpp,
    src/transport/frame.cpp): frame headers, the total decoder of one frame, the
    encoder, and the incremental stream decoder with its bounded buffer and
    sticky failure. A byte is a number below 256; a failing allocation is not
    modelled. *)

From S2P Require Import Prelude Containers Core Bytes Integrity Records Session.

(** * Message types and dispositions *)

Definition kFrameMagic : Z := 0x31464653.
Definition kFrameFormatVersion : Z := 1.
Definition kFrameHeaderBytes : Z := 52.
Definition kFrameTrailerBytes : Z := 4.
Definition kHeaderCrcOffset : Z := kFrameHeaderBytes - kFrameTrailerBytes.

Module MessageType.
Inductive MessageType :=
| Unknown | Hello | HelloAck | QueryAuthority | AuthorityResult | DeclareFailure | FailoverResult
| ProposePlan | PlanResult | ApplyPlan | ApplyResult | QueryRestore | RestoreResult
| SnapshotRequest | SnapshotResult | Error | Goodbye.
End MessageType.
Abbreviation MessageType := MessageType.MessageType.

Definition message_type_raw (t : MessageType) : Z :=
  match t with
  | MessageType.Unknown => 0 | MessageType.Hello => 1 | MessageType.HelloAck => 2
  | MessageType.QueryAuthority => 3 | MessageType.AuthorityResult => 4
  | MessageType.DeclareFailure => 5 | MessageType.FailoverResult => 6
  | MessageType.ProposePlan => 7 | MessageType.PlanResult => 8 | MessageType.ApplyPlan => 9
  | MessageType.ApplyResult => 10 | MessageType.QueryRestore => 11
  | MessageType.RestoreResult => 12 | MessageType.SnapshotRequest => 13
  | MessageType.SnapshotResult => 14 | MessageType.Error => 15 | MessageType.Goodbye => 16
  end.

(** The names of the enumerators 0 to 16; any other value is unassigned. *)
Definition kMessageTypeNames : list string :=
  ["Unknown"; "Hello"; "HelloAck"; "QueryAuthority"; "AuthorityResult"; "DeclareFailure";
   "FailoverResult"; "ProposePlan"; "PlanResult"; "ApplyPlan"; "ApplyResult"; "QueryRestore";
   "RestoreResult"; "SnapshotRequest"; "SnapshotResult"; "Error"; "Goodbye"].

Definition message_type_to_string (raw : Z) : string :=
  default "Unassigned" (kMessageTypeNames !! Z.to_nat raw).

Definition is_valid_message_type (raw : Z) : bool :=
  (message_type_raw MessageType.Hello <=? raw) && (raw <=? message_type_raw MessageType.Goodbye).

Module FrameDisposition.
Inductive FrameDisposition := Complete | Incomplete | Corrupt | Unsupported.
End FrameDisposition.
Abbreviation FrameDisposition := FrameDisposition.FrameDisposition.

#[export] Instance FrameDisposition_eq_dec : EqDecision FrameDisposition.
Proof. solve_decision. Defined.

Definition frame_disposition_to_string (d : FrameDisposition) : string :=
  match d with
  | FrameDisposition.Complete => "Complete"
  | FrameDisposition.Incomplete => "Incomplete"
  | FrameDisposition.Corrupt => "Corrupt"
  | FrameDisposition.Unsupported => "Unsupported"
  end.

(** * Header and frame *)

(** The type is the raw 16-bit value: a header can hold an unassigned one. *)
Record FrameHeader := mkFrameHeader {
  fh_magic : Z;
  fh_format_version : Z;
  fh_type : Z;
  fh_flags : Z;
  fh_session : Z;
  fh_epoch : Z;
  fh_boot_digest : Z;
  fh_request_seq : Z;
  fh_payload_len : Z;
  fh_header_crc : Z
}.

Definition frame_header_default : FrameHeader :=
  mkFrameHeader kFrameMagic kFrameFormatVersion 0 0 0 0 0 0 0 0.

Record Frame := mkFrame { fm_header : FrameHeader; fm_payload : list Z; fm_payload_crc : Z }.

Definition frame_default : Frame := mkFrame frame_header_default [] 0.

Record FrameDecodeResult := mkFrameDecode {
  fd_disposition : FrameDisposition;
  fd_frame : Frame;
  fd_consumed : Z;
  fd_status : Status
}.

Definition frame_payload_ceiling (limits : Limits) : Z :=
  Z.min (max_frame_payload limits) kHardMaxFramePayload.

Definition store_le16 (value : Z) : list Z := le_bytes value 2.
Definition store_le32 (value : Z) : list Z := le_bytes value 4.
Definition store_le64 (value : Z) : list Z := le_bytes value 8.
Definition load_le16 (data : list Z) (offset : Z) : Z := load_le (slice data offset 2).
Definition load_le32 (data : list Z) (offset : Z) : Z := load_le (slice data offset 4).
Definition load_le64 (data : list Z) (offset : Z) : Z := load_le (slice data offset 8).

(** The 48 header bytes the header CRC covers: the magic is always the four
    bytes 'S','F','F','1', whatever the header holds. *)
Definition write_header_prefix (h : FrameHeader) : list Z :=
  [0x53; 0x46; 0x46; 0x31] ++ store_le16 (fh_format_version h) ++ store_le16 (fh_type h) ++
  store_le32 (fh_flags h) ++ store_le64 (fh_session h) ++ store_le64 (fh_epoch h) ++
  store_le64 (fh_boot_digest h) ++ store_le64 (fh_request_seq h) ++ store_le32 (fh_payload_len h).

Definition frame_compute_crc (h : FrameHeader) : Z := crc32_ieee (write_header_prefix h).

(** [append_header]: the prefix and its checksum, 52 bytes. *)
Definition frame_header_encode (h : FrameHeader) : list Z :=
  write_header_prefix h ++ store_le32 (crc32_ieee (write_header_prefix h)).

Definition frame_header_validate (limits : Limits) (h : FrameHeader) : Status :=
  if negb (fh_magic h =? kFrameMagic) then failure Code.Corrupt "frame magic mismatch"
  else if negb (fh_format_version h =? kFrameFormatVersion) then
    failure Code.VersionMismatch "unsupported frame format version"
  else if negb (is_valid_message_type (fh_type h)) then
    failure Code.Unsupported "unassigned message type"
  else if frame_payload_ceiling limits <? fh_payload_len h then
    failure Code.Corrupt "frame payload length exceeds the configured bound"
  else success.

Definition frame_binding (h : FrameHeader) : SessionBinding :=
  mkBinding (fh_session h) (fh_epoch h) (fh_boot_digest h) (fh_request_seq h).

(** `header.magic = kFrameMagic; header.payload_len = uint32(payload.size());` *)
Definition header_for (h : FrameHeader) (size : Z) : FrameHeader :=
  mkFrameHeader kFrameMagic (fh_format_version h) (fh_type h) (fh_flags h) (fh_session h)
    (fh_epoch h) (fh_boot_digest h) (fh_request_seq h) (wrap32 size) (fh_header_crc h).

Definition frame_digest (f : Frame) : Z :=
  let d := absorb_bytes (fm_payload f)
             (absorb_bytes (write_header_prefix (header_for (fm_header f) (zlen (fm_payload f))))
                digest_init) in
  mix64 (Z.lxor (dig_hi d) (dig_lo d)).

(** * Framing *)

Definition encode_frame (f : Frame) (limits : Limits) : Result (list Z) :=
  let ceiling := frame_payload_ceiling limits in
  let size := zlen (fm_payload f) in
  if ceiling <? size then Refused (refuse_exhausted "frame payload" size ceiling)
  else
    let header := header_for (fm_header f) size in
    Value (frame_header_encode header ++ fm_payload f ++ store_le32 (crc32_ieee (fm_payload f))).

Definition make_failure (d : FrameDisposition) (code : Code) (message : string) :
  FrameDecodeResult :=
  mkFrameDecode d frame_default 0 (failure code message).

Definition incomplete : FrameDecodeResult :=
  make_failure FrameDisposition.Incomplete Code.Truncated "incomplete frame".

Definition load_frame_header (data : list Z) : FrameHeader :=
  mkFrameHeader kFrameMagic (load_le16 data 4) (load_le16 data 6) (load_le32 data 8)
    (load_le64 data 12) (load_le64 data 20) (load_le64 data 28) (load_le64 data 36)
    (load_le32 data 44) (load_le32 data 48).

(** The decoder once a header has been accepted. *)
Definition decode_frame_body (data : list Z) (header : FrameHeader) : FrameDecodeResult :=
  let overflow := make_failure FrameDisposition.Corrupt Code.Corrupt "frame length overflow" in
  match checked_add_unsigned SIZE_MAX kFrameHeaderBytes (fh_payload_len header) with
  | None => overflow
  | Some body =>
      match checked_add_unsigned SIZE_MAX body kFrameTrailerBytes with
      | None => overflow
      | Some total =>
          if zlen data <? total then incomplete
          else
            let payload := slice data kFrameHeaderBytes (fh_payload_len header) in
            let payload_crc := load_le32 data (kFrameHeaderBytes + fh_payload_len header) in
            if negb (payload_crc =? crc32_ieee payload) then
              make_failure FrameDisposition.Corrupt Code.Corrupt "frame payload CRC mismatch"
            else
              mkFrameDecode FrameDisposition.Complete (mkFrame header payload payload_crc) total
                success
      end
  end.

(** The decoder on a range that is not null; the size is the length of the range. *)
Definition decode_frame_bytes (data : list Z) (limits : Limits) : FrameDecodeResult :=
  let size := zlen data in
  if size <? 4 then incomplete
  else if negb (load_le32 data 0 =? kFrameMagic) then
    make_failure FrameDisposition.Corrupt Code.Corrupt "frame magic mismatch"
  else if size <? kFrameHeaderBytes then incomplete
  else
    let header := load_frame_header data in
    if negb (fh_header_crc header =? crc32_ieee (slice data 0 kHeaderCrcOffset)) then
      make_failure FrameDisposition.Corrupt Code.Corrupt "frame header CRC mismatch"
    else if negb (fh_format_version header =? kFrameFormatVersion) then
      make_failure FrameDisposition.Unsupported Code.VersionMismatch
        "unsupported frame format version"
    else if negb (is_valid_message_type (fh_type header)) then
      make_failure FrameDisposition.Unsupported Code.Unsupported "unassigned message type"
    else if frame_payload_ceiling limits <? fh_payload_len header then
      make_failure FrameDisposition.Corrupt Code.Corrupt
        "frame payload length exceeds the configured bound"
    else decode_frame_body data header.

(** [decode_frame(data, size, limits)]; [None] is the null pointer. *)
Definition decode_frame (data : option (list Z)) (size : Z) (limits : Limits) : FrameDecodeResult :=
  match data with
  | None =>
      if negb (size =? 0) then
        make_failure FrameDisposition.Corrupt Code.Invalid "null frame buffer"
      else incomplete
  | Some bytes => decode_frame_bytes (take (Z.to_nat size) bytes) limits
  end.

(** * The incremental stream decoder *)

Record FrameStreamDecoder := mkStream {
  st_limits : Limits;
  st_buffer : list Z;
  st_status : Status;
  st_sticky : bool
}.

Definition stream_new (limits : Limits) : FrameStreamDecoder := mkStream limits [] success false.

(** Twice the largest frame; [None] when that is not representable. *)
Definition stream_capacity (limits : Limits) : option Z :=
  match checked_add_unsigned SIZE_MAX kFrameHeaderBytes (frame_payload_ceiling limits) with
  | None => None
  | Some body =>
      match checked_add_unsigned SIZE_MAX body kFrameTrailerBytes with
      | None => None
      | Some frame_bytes => checked_mul_unsigned SIZE_MAX frame_bytes 2
      end
  end.

(** [feed(data, size)]; [None] is the null pointer, and [size] the length of the range. *)
Definition stream_feed (data : option (list Z)) (size : Z) (d : FrameStreamDecoder) :
  Status * FrameStreamDecoder :=
  if st_sticky d then (st_status d, d)
  else if size =? 0 then (success, d)
  else
    match data with
    | None => (failure Code.Invalid "null feed buffer", d)
    | Some bytes =>
        let buffered := zlen (st_buffer d) in
        let full :=
          match stream_capacity (st_limits d) with
          | Some capacity => (capacity <? buffered) || (capacity - buffered <? size)
          | None => false
          end in
        if full then
          (failure Code.Exhausted "stream decoder buffer bound reached; no bytes were appended", d)
        else
          (success, mkStream (st_limits d) (st_buffer d ++ take (Z.to_nat size) bytes) (st_status d)
                      (st_sticky d))
    end.

Definition stream_next (d : FrameStreamDecoder) : FrameDecodeResult * FrameStreamDecoder :=
  if st_sticky d then
    let code := status_code (st_status d) in
    let unsupported :=
      bool_decide (code = Code.Unsupported) || bool_decide (code = Code.VersionMismatch) in
    (make_failure (if unsupported then FrameDisposition.Unsupported else FrameDisposition.Corrupt)
       code (status_message (st_status d)), d)
  else
    let result := decode_frame (Some (st_buffer d)) (zlen (st_buffer d)) (st_limits d) in
    match fd_disposition result with
    | FrameDisposition.Complete =>
        (result,
         if (0 <? fd_consumed result) && (fd_consumed result <=? zlen (st_buffer d)) then
           mkStream (st_limits d) (drop (Z.to_nat (fd_consumed result)) (st_buffer d)) (st_status d)
             (st_sticky d)
         else d)
    | FrameDisposition.Incomplete => (result, d)
    | _ => (result, mkStream (st_limits d) (st_buffer d) (fd_status result) true)
    end.

Definition stream_buffered (d : FrameStreamDecoder) : Z := zlen (st_buffer d).
Definition stream_failed (d : FrameStreamDecoder) : bool := st_sticky d.
Definition stream_reset (d : FrameStreamDecoder) : FrameStreamDecoder :=
  mkStream (st_limits d) [] success false.

(** The checksum is used through its lemmas only. *)
#[local] Opaque crc32_ieee.

(** * Facts about framing *)

Record frame_header_range (h : FrameHeader) : Prop := {
  fr_version : in_u16 (fh_format_version h);
  fr_type : in_u16 (fh_type h);
  fr_flags : in_u32 (fh_flags h);
  fr_session : in_u64 (fh_session h);
  fr_epoch : in_u64 (fh_epoch h);
  fr_boot : in_u64 (fh_boot_digest h);
  fr_seq : in_u64 (fh_request_seq h)
}.

(** The frames the protocol carries: of this version, of an assigned type, with
    fields of their widths. *)
Record frame_ok (f : Frame) : Prop := {
  fo_range : frame_header_range (fm_header f);
  fo_version : fh_format_version (fm_header f) = kFrameFormatVersion;
  fo_type : is_valid_message_type (fh_type (fm_header f)) = true;
  fo_payload : Forall in_u8 (fm_payload f)
}.

(** The frame as its receiver sees it: the derived fields filled in. *)
Definition sealed_frame (f : Frame) : Frame :=
  let h := header_for (fm_header f) (zlen (fm_payload f)) in
  mkFrame
    (mkFrameHeader kFrameMagic (fh_format_version h) (fh_type h) (fh_flags h) (fh_session h)
       (fh_epoch h) (fh_boot_digest h) (fh_request_seq h) (fh_payload_len h) (frame_compute_crc h))
    (fm_payload f) (crc32_ieee (fm_payload f)).

Lemma length_frame_prefix h : length (write_header_prefix h) = 48%nat.
Proof. done. Qed.

Lemma length_frame_header h : length (frame_header_encode h) = 52%nat.
Proof. unfold frame_header_encode, store_le32. by rewrite length_app, length_frame_prefix, length_le_bytes. Qed.

Lemma zlen_frame_header h : zlen (frame_header_encode h) = kFrameHeaderBytes.
Proof. unfold zlen. by rewrite length_frame_header. Qed.

Lemma frame_prefix_bytes h : Forall in_u8 (write_header_prefix h).
Proof.
  unfold write_header_prefix, store_le16, store_le32, store_le64. rewrite !Forall_app.
  split_and!; try apply le_bytes_bytes. repeat constructor; ints_lia.
Qed.

Lemma frame_ceiling_u32 limits n : n <= frame_payload_ceiling limits -> n < two32.
Proof.
  unfold frame_payload_ceiling, kHardMaxFramePayload. change (Z.shiftl 16 20) with 16777216. ints. lia.
Qed.

Lemma frame_header_slice h rest :
  slice (frame_header_encode h ++ rest) 0 kHeaderCrcOffset = write_header_prefix h.
Proof. reflexivity. Qed.

Lemma frame_header_magic h rest : load_le32 (frame_header_encode h ++ rest) 0 = kFrameMagic.
Proof. reflexivity. Qed.

Lemma load_frame_header_encode h rest : frame_header_range h -> in_u32 (fh_payload_len h) ->
  load_frame_header (frame_header_encode h ++ rest)
  = mkFrameHeader kFrameMagic (fh_format_version h) (fh_type h) (fh_flags h) (fh_session h)
      (fh_epoch h) (fh_boot_digest h) (fh_request_seq h) (fh_payload_len h) (frame_compute_crc h).
Proof.
  intros [H1 H2 H3 H4 H5 H6 H7] H8. unfold load_frame_header, load_le16, load_le32, load_le64.
  assert (H9 : in_u32 (frame_compute_crc h)) by apply crc32_u32.
  change (slice (frame_header_encode h ++ rest) 4 2) with (store_le (fh_format_version h) 2).
  change (slice (frame_header_encode h ++ rest) 6 2) with (store_le (fh_type h) 2).
  change (slice (frame_header_encode h ++ rest) 8 4) with (store_le (fh_flags h) 4).
  change (slice (frame_header_encode h ++ rest) 12 8) with (store_le (fh_session h) 8).
  change (slice (frame_header_encode h ++ rest) 20 8) with (store_le (fh_epoch h) 8).
  change (slice (frame_header_encode h ++ rest) 28 8) with (store_le (fh_boot_digest h) 8).
  change (slice (frame_header_encode h ++ rest) 36 8) with (store_le (fh_request_seq h) 8).
  change (slice (frame_header_encode h ++ rest) 44 4) with (store_le (fh_payload_len h) 4).
  change (slice (frame_header_encode h ++ rest) 48 4) with (store_le (frame_compute_crc h) 4).
  rewrite !load_store_le by (lia || ints_lia). done.
Qed.

(** What follows an accepted header. *)
Lemma decode_frame_header h rest limits :
  frame_header_range h -> in_u32 (fh_payload_len h) -> fh_format_version h = kFrameFormatVersion ->
  is_valid_message_type (fh_type h) = true -> fh_payload_len h <= frame_payload_ceiling limits ->
  decode_frame_bytes (frame_header_encode h ++ rest) limits
  = decode_frame_body (frame_header_encode h ++ rest)
      (load_frame_header (frame_header_encode h ++ rest)).
Proof.
  intros Hr Hu Hv Ht Hl. unfold decode_frame_bytes. pose proof (zlen_nonneg rest).
  assert (Hz : 52 <= zlen (frame_header_encode h ++ rest)).
  { rewrite zlen_app, zlen_frame_header. unfold kFrameHeaderBytes. lia. }
  rewrite (proj2 (Z.ltb_ge _ 4)) by lia. rewrite frame_header_magic, Z.eqb_refl. cbn [negb].
  rewrite (proj2 (Z.ltb_ge _ kFrameHeaderBytes)) by (unfold kFrameHeaderBytes; lia).
  rewrite frame_header_slice, load_frame_header_encode by done.
  cbn [fh_header_crc fh_format_version fh_type fh_payload_len]. unfold frame_compute_crc.
  rewrite Z.eqb_refl, Hv, Z.eqb_refl, Ht. cbn [negb]. by rewrite (proj2 (Z.ltb_ge _ _)).
Qed.

(** The two length sums of the decoder never overflow. *)
Lemma decode_frame_body_total data h : in_u32 (fh_payload_len h) ->
  decode_frame_body data h =
    let total := kFrameHeaderBytes + fh_payload_len h + kFrameTrailerBytes in
    if zlen data <? total then incomplete
    else
      let payload := slice data kFrameHeaderBytes (fh_payload_len h) in
      let payload_crc := load_le32 data (kFrameHeaderBytes + fh_payload_len h) in
      if negb (payload_crc =? crc32_ieee payload) then
        make_failure FrameDisposition.Corrupt Code.Corrupt "frame payload CRC mismatch"
      else mkFrameDecode FrameDisposition.Complete (mkFrame h payload payload_crc) total success.
Proof.
  intros Hu. unfold decode_frame_body, checked_add_unsigned.
  rewrite (proj2 (Z.ltb_ge _ _)) by (unfold kFrameHeaderBytes; ints_lia).
  by rewrite (proj2 (Z.ltb_ge _ _)) by (unfold kFrameHeaderBytes, kFrameTrailerBytes; ints_lia).
Qed.

Lemma encode_frame_value f limits bs : encode_frame f limits = Value bs ->
  let h := header_for (fm_header f) (zlen (fm_payload f)) in
  bs = frame_header_encode h ++ sealed (fm_payload f)
  /\ fh_payload_len h = zlen (fm_payload f) /\ in_u32 (fh_payload_len h)
  /\ zlen (fm_payload f) <= frame_payload_ceiling limits
  /\ zlen bs = kFrameHeaderBytes + zlen (fm_payload f) + kFrameTrailerBytes.
Proof.
  unfold encode_frame. destruct (_ <? _) eqn:Hc; [done|]. bool_prop. intros Hv.
  match type of Hv with Value ?a = Value ?b => assert (a = b) as <- by congruence end.
  pose proof (frame_ceiling_u32 limits _ Hc). pose proof (zlen_nonneg (fm_payload f)).
  assert (Hw : wrap32 (zlen (fm_payload f)) = zlen (fm_payload f)) by (apply Z.mod_small; ints_lia).
  set (h := header_for _ _). assert (Hl : fh_payload_len h = zlen (fm_payload f)) by exact Hw.
  cbn zeta. rewrite Hl. split; [done|]. split; [done|]. split; [ints_lia|]. split; [done|].
  rewrite !zlen_app, zlen_frame_header. unfold store_le32. rewrite zlen_le_bytes.
  unfold kFrameTrailerBytes. lia.
Qed.

Section encoded_frame.
Context (f : Frame) (limits : Limits) (bs : list Z).
Context (Hok : frame_ok f) (Henc : encode_frame f limits = Value bs).

Abbreviation header := (header_for (fm_header f) (zlen (fm_payload f))).

Lemma header_for_range : frame_header_range header.
Proof. by destruct Hok as [[] _ _ _]. Qed.

Lemma decode_frame_accepts rest :
  decode_frame_bytes (frame_header_encode header ++ rest) limits
  = decode_frame_body (frame_header_encode header ++ rest) (fm_header (sealed_frame f)).
Proof.
  destruct (encode_frame_value _ _ _ Henc) as (_ & Hl & Hu & Hc & _). destruct Hok as [_ Hv Ht _].
  rewrite decode_frame_header; [|apply header_for_range|done|done|done|by rewrite Hl].
  by rewrite load_frame_header_encode by (done || apply header_for_range).
Qed.

Lemma decode_frame_encoded rest :
  decode_frame_bytes (bs ++ rest) limits
  = mkFrameDecode FrameDisposition.Complete (sealed_frame f) (zlen bs) success.
Proof.
  destruct (encode_frame_value _ _ _ Henc) as (Hb & Hl & Hu & _ & Hz). rewrite Hz, Hb, <- app_assoc.
  rewrite decode_frame_accepts. pose proof (zlen_nonneg rest).
  rewrite decode_frame_body_total by done. cbn zeta.
  change (fh_payload_len (fm_header (sealed_frame f))) with (fh_payload_len header). rewrite Hl.
  unfold sealed. rewrite <- app_assoc.
  rewrite (proj2 (Z.ltb_ge _ _)).
  2: { rewrite !zlen_app, zlen_frame_header, zlen_le_bytes. unfold kFrameTrailerBytes. lia. }
  pose proof (slice_app (frame_header_encode header) (fm_payload f)
                (le_bytes (crc32_ieee (fm_payload f)) 4 ++ rest)) as Hp.
  rewrite zlen_frame_header in Hp. rewrite Hp.
  pose proof (slice_app (frame_header_encode header ++ fm_payload f)
                (le_bytes (crc32_ieee (fm_payload f)) 4) rest) as Hs.
  rewrite zlen_app, zlen_frame_header, zlen_le_bytes, <- app_assoc in Hs.
  change (Z.of_nat 4) with 4 in Hs. unfold load_le32. rewrite Hs.
  assert (Hc : load_le (le_bytes (crc32_ieee (fm_payload f)) 4) = crc32_ieee (fm_payload f)).
  { apply load_store_le; [lia|]. apply (crc32_u32 (fm_payload f)). }
  by rewrite Hc, Z.eqb_refl.
Qed.

(** Every proper prefix of an encoded frame is a frame still to be completed. *)
Lemma decode_frame_prefix p : strict_prefix p bs -> decode_frame_bytes p limits = incomplete.
Proof.
  intros Hp. pose proof (strict_prefix_length _ _ Hp) as Hlt.
  destruct (encode_frame_value _ _ _ Henc) as (Hb & Hl & Hu & _ & Hz).
  rewrite Hb in Hp. apply strict_prefix_app in Hp as [(q & Hq & Hhead)|(p2 & -> & _)].
  - assert (Hs : zlen p < kFrameHeaderBytes).
    { rewrite <- (zlen_frame_header header). apply strict_prefix_length. by exists q. }
    unfold decode_frame_bytes. destruct (zlen p <? 4) eqn:H4; [done|]. bool_prop.
    replace (load_le32 p 0) with kFrameMagic; [by rewrite Z.eqb_refl, (proj2 (Z.ltb_lt _ _))|].
    rewrite <- (frame_header_magic header []), app_nil_r, Hhead. unfold load_le32, slice.
    rewrite drop_0, drop_0, take_app_le; [done|]. unfold zlen in H4. lia.
  - rewrite decode_frame_accepts, decode_frame_body_total by done. cbn zeta.
    change (fh_payload_len (fm_header (sealed_frame f))) with (fh_payload_len header).
    rewrite Hl, <- Hz. by rewrite (proj2 (Z.ltb_lt _ _)).
Qed.
End encoded_frame.

(** ** Accepted bytes *)

(** The header read from 52 bytes with the magic encodes to these bytes. *)
Lemma frame_header_loaded data :
  Forall in_u8 data -> kFrameHeaderBytes <= zlen data -> load_le32 data 0 = kFrameMagic ->
  let h := load_frame_header data in
  write_header_prefix h = take 48 data /\ store_le32 (fh_header_crc h) = slice data 48 4
  /\ frame_header_range h /\ in_u32 (fh_payload_len h).
Proof.
  unfold kFrameHeaderBytes. intros Hd Hl Hm. cbn zeta. split; [|split; [|split]].
  - assert (Hmagic : [0x53; 0x46; 0x46; 0x31] = slice data 0 4).
    { rewrite <- (le_bytes_slice data 0 4 4) by (done || lia). unfold load_le32 in Hm. by rewrite Hm. }
    unfold write_header_prefix, store_le16, store_le32, store_le64, load_frame_header, load_le16,
      load_le32, load_le64.
    cbn [fh_format_version fh_type fh_flags fh_session fh_epoch fh_boot_digest fh_request_seq
         fh_payload_len]. rewrite Hmagic.
    rewrite (le_bytes_slice data 4 2 2), (le_bytes_slice data 6 2 2), (le_bytes_slice data 8 4 4),
      (le_bytes_slice data 12 8 8), (le_bytes_slice data 20 8 8), (le_bytes_slice data 28 8 8),
      (le_bytes_slice data 36 8 8), (le_bytes_slice data 44 4 4) by (done || lia).
    rewrite <- (slice_join data 36 8 4 44 12), <- (slice_join data 28 8 12 36 20),
      <- (slice_join data 20 8 20 28 28), <- (slice_join data 12 8 28 20 36),
      <- (slice_join data 8 4 36 12 40), <- (slice_join data 6 2 40 8 42),
      <- (slice_join data 4 2 42 6 44), <- (slice_join data 0 4 44 4 48) by lia.
    done.
  - by apply le_bytes_slice; try lia.
  - split; (eapply load_slice_range; [done|lia..]).
  - by apply (load_slice_range data 44 4); try lia.
Qed.

(** An accepted frame is exactly the encoding of what it was decoded to. *)
Lemma decode_frame_complete data limits :
  Forall in_u8 data -> fd_disposition (decode_frame_bytes data limits) = FrameDisposition.Complete ->
  let d := decode_frame_bytes data limits in
  encode_frame (fd_frame d) limits = Value (take (Z.to_nat (fd_consumed d)) data)
  /\ kFrameHeaderBytes + kFrameTrailerBytes <= fd_consumed d <= zlen data
  /\ frame_ok (fd_frame d) /\ sealed_frame (fd_frame d) = fd_frame d.
Proof.
  intros Hd. unfold decode_frame_bytes. destruct (zlen data <? 4); [done|].
  destruct (load_le32 data 0 =? kFrameMagic) eqn:Hm; cbn [negb]; [|done].
  destruct (zlen data <? kFrameHeaderBytes) eqn:Hh; [done|]. bool_prop.
  destruct (frame_header_loaded data Hd Hh Hm) as (Hp & Hs & Hr & Hu). set (h := load_frame_header data) in *.
  cbn zeta. change (slice data 0 kHeaderCrcOffset) with (take 48 data). rewrite <- Hp.
  destruct (fh_header_crc h =? _) eqn:Hcrc; cbn [negb]; [|done].
  destruct (fh_format_version h =? _) eqn:Hv; cbn [negb]; [|done].
  destruct (is_valid_message_type _) eqn:Ht; cbn [negb]; [|done].
  destruct (frame_payload_ceiling limits <? _) eqn:Hc; [done|].
  rewrite decode_frame_body_total by done. cbn zeta. destruct (zlen data <? _) eqn:Hz; [done|].
  destruct (_ =? crc32_ieee (slice _ _ _)) eqn:Hpc; cbn [negb]; [|done]. bool_prop. intros _.
  cbn [fd_frame fd_consumed]. set (payload := slice data kFrameHeaderBytes (fh_payload_len h)) in *.
  unfold kFrameHeaderBytes, kFrameTrailerBytes in *.
  assert (H0 : 0 <= fh_payload_len h) by apply Hu.
  assert (Hzp : zlen payload = fh_payload_len h) by (unfold zlen, payload; rewrite length_slice by lia; lia).
  assert (Hw : wrap32 (zlen payload) = fh_payload_len h) by (rewrite Hzp; apply Z.mod_small, Hu).
  assert (Hfor : header_for h (zlen payload) = h) by (unfold header_for; by rewrite Hw).
  split; [|split; [lia|split]].
  - unfold encode_frame. cbn [fm_header fm_payload]. rewrite (proj2 (Z.ltb_ge _ _)) by (rewrite Hzp; lia).
    rewrite Hfor. f_equal. rewrite <- slice_prefix.
    rewrite (slice_join data 0 52 (fh_payload_len h + 4) 52 (52 + fh_payload_len h + 4)) by lia.
    rewrite (slice_join data 52 (fh_payload_len h) 4 (52 + fh_payload_len h) (fh_payload_len h + 4)) by lia.
    f_equal; [|f_equal].
    + unfold frame_header_encode. rewrite <- Hcrc, Hs, Hp. change (take 48 data) with (slice data 0 48).
      by rewrite <- (slice_join data 0 48 4 48 52) by lia.
    + unfold store_le32. rewrite <- Hpc. apply le_bytes_slice; done || lia.
  - split; [done|done|done|]. by apply slice_bytes.
  - unfold sealed_frame. cbn [fm_header fm_payload]. rewrite Hfor. unfold frame_compute_crc.
    rewrite <- Hcrc, <- Hpc. done.
Qed.

(** ** Damaged bytes *)

Definition frame_refused (d : FrameDecodeResult) : Prop :=
  fd_disposition d = FrameDisposition.Corrupt \/ fd_disposition d = FrameDisposition.Unsupported.

Lemma damaged_frame_header h b rest limits :
  burst (frame_header_encode h) b -> Forall in_u8 (b ++ rest) -> length b = 52%nat ->
  frame_refused (decode_frame_bytes (b ++ rest) limits).
Proof.
  intros Hburst Hbytes Hlen. pose proof (zlen_nonneg rest).
  assert (Hl : 52 <= zlen (b ++ rest)) by (rewrite zlen_app; unfold zlen at 1; rewrite Hlen; lia).
  unfold decode_frame_bytes. rewrite (proj2 (Z.ltb_ge _ 4)) by lia.
  destruct (load_le32 (b ++ rest) 0 =? kFrameMagic) eqn:Hm; cbn [negb]; [|by left]. bool_prop.
  rewrite (proj2 (Z.ltb_ge _ kFrameHeaderBytes)) by (unfold kFrameHeaderBytes; lia).
  destruct (frame_header_loaded _ Hbytes Hl Hm) as (Hp & Hs & _).
  destruct (fh_header_crc _ =? _) eqn:Hcrc; cbn [negb]; [|by left]. bool_prop. exfalso.
  apply Forall_app in Hbytes as [Hb _].
  apply (sealed_burst (write_header_prefix h) (take 48 b) (drop 48 b)).
  - apply frame_prefix_bytes.
  - by apply Forall_take.
  - by apply Forall_drop.
  - rewrite length_drop. lia.
  - by rewrite take_drop.
  - assert (Hd : slice (b ++ rest) 48 4 = drop 48 b).
    { unfold slice. change (Z.to_nat 48) with 48%nat. change (Z.to_nat 4) with 4%nat.
      rewrite drop_app_le, take_app_le by (rewrite ?length_drop; lia). apply take_ge. rewrite length_drop. lia. }
    assert (Ht : slice (b ++ rest) 0 kHeaderCrcOffset = take 48 b).
    { change (slice (b ++ rest) 0 kHeaderCrcOffset) with (take 48 (b ++ rest)). by rewrite take_app_le by lia. }
    rewrite Ht in Hcrc. rewrite <- Hcrc, <- Hd. symmetry. apply load_le_value; [|].
    + rewrite Hd. by apply Forall_drop.
    + rewrite Hd. unfold zlen. rewrite length_drop. lia.
Qed.

Lemma damaged_frame_payload f limits bs b rest :
  frame_ok f -> encode_frame f limits = Value bs -> Forall in_u8 b ->
  burst (sealed (fm_payload f)) b -> length b = (length (fm_payload f) + 4)%nat ->
  frame_refused (decode_frame_bytes
    (frame_header_encode (header_for (fm_header f) (zlen (fm_payload f))) ++ b ++ rest) limits).
Proof.
  intros Hok Henc Hb Hburst Hl. destruct (encode_frame_value _ _ _ Henc) as (_ & Hlen & Hu & _).
  rewrite (decode_frame_accepts f limits bs) by done.
  rewrite decode_frame_body_total by done. cbn zeta. set (head := frame_header_encode _).
  change (fh_payload_len (fm_header (sealed_frame f)))
    with (fh_payload_len (header_for (fm_header f) (zlen (fm_payload f)))). rewrite Hlen.
  assert (Hh : zlen head = kFrameHeaderBytes) by apply zlen_frame_header.
  set (y := take (length (fm_payload f)) b). set (c := drop (length (fm_payload f)) b).
  assert (Hbc : b = y ++ c) by (symmetry; apply take_drop).
  assert (Hy : zlen y = zlen (fm_payload f)) by (unfold zlen, y; rewrite length_take; lia).
  assert (Hc : length c = 4%nat) by (unfold c; rewrite length_drop; lia).
  assert (Hzc : zlen c = 4) by (unfold zlen; by rewrite Hc).
  pose proof (zlen_nonneg rest). rewrite Hbc.
  rewrite (proj2 (Z.ltb_ge _ _)) by (rewrite !zlen_app, Hh, Hy, Hzc; unfold kFrameTrailerBytes; lia).
  pose proof (slice_app head y (c ++ rest)) as Hpay. rewrite Hh, Hy, app_assoc in Hpay.
  rewrite <- (app_assoc head) in Hpay. rewrite (app_assoc y c rest) in Hpay.
  pose proof (slice_app (head ++ y) c rest) as Hcrc. rewrite zlen_app, Hh, Hy, Hzc, <- app_assoc in Hcrc.
  rewrite app_assoc in Hcrc. rewrite <- (app_assoc head) in Hcrc. rewrite (app_assoc y c rest) in Hcrc.
  rewrite Hpay. unfold load_le32. rewrite Hcrc.
  rewrite load_le_value by (by apply Forall_drop || lia). rewrite (proj2 (Z.eqb_neq _ _)); [by left|].
  apply (sealed_burst (fm_payload f));
    [apply Hok|by apply Forall_take|by apply Forall_drop|done|by rewrite <- Hbc].
Qed.

(** * The stream *)

(** `while ((decoded = decoder.next()).disposition == Complete)`: the frames a
    connection takes out of its decoder before it reads again. *)
Fixpoint stream_drain (fuel : nat) (d : FrameStreamDecoder) : list Frame * FrameStreamDecoder :=
  match fuel with
  | O => ([], d)
  | S fuel =>
      let '(result, d) := stream_next d in
      match fd_disposition result with
      | FrameDisposition.Complete =>
          let '(frames, d) := stream_drain fuel d in (fd_frame result :: frames, d)
      | _ => ([], d)
      end
  end.

(** The receiving loop of a connection over the chunks its socket delivers: it
    ends at a refused feed or when the decoder has failed. *)
Fixpoint stream_run (chunks : list (list Z)) (d : FrameStreamDecoder) :
  list Frame * Status * FrameStreamDecoder :=
  match chunks with
  | [] => ([], success, d)
  | chunk :: rest =>
      let '(fed, d) := stream_feed (Some chunk) (zlen chunk) d in
      if negb (status_ok fed) then ([], fed, d)
      else
        let '(frames, d) := stream_drain (length (st_buffer d)) d in
        if st_sticky d then (frames, st_status d, d)
        else
          let '(more, status, d) := stream_run rest d in (frames ++ more, status, d)
  end.

(** A healthy decoder holding some bytes. *)
Definition stream_at (limits : Limits) (buffer : list Z) : FrameStreamDecoder :=
  mkStream limits buffer success false.

Definition frame_bytes_max (limits : Limits) : Z :=
  kFrameHeaderBytes + frame_payload_ceiling limits + kFrameTrailerBytes.

Lemma stream_capacity_value limits : 0 <= max_frame_payload limits ->
  stream_capacity limits = Some (2 * frame_bytes_max limits).
Proof.
  intros H0. assert (0 <= frame_payload_ceiling limits < two32) as [Hc0 Hc].
  { split; [|by apply (frame_ceiling_u32 limits)]. unfold frame_payload_ceiling, kHardMaxFramePayload.
    change (Z.shiftl 16 20) with 16777216. lia. }
  unfold stream_capacity, frame_bytes_max, checked_add_unsigned, checked_mul_unsigned, kFrameHeaderBytes, kFrameTrailerBytes.
  rewrite (proj2 (Z.ltb_ge _ _)) by ints_lia. rewrite (proj2 (Z.ltb_ge _ _)) by ints_lia.
  rewrite (proj2 (Z.eqb_neq _ 0)) by lia. change (2 =? 0) with false. cbn [orb].
  rewrite (proj2 (Z.ltb_ge _ _)); [f_equal; lia|]. change (Z.quot SIZE_MAX 2) with 9223372036854775807. ints_lia.
Qed.

Lemma decode_frame_whole data limits : decode_frame (Some data) (zlen data) limits = decode_frame_bytes data limits.
Proof. unfold decode_frame, zlen. by rewrite Nat2Z.id, firstn_all. Qed.

Lemma stream_next_at limits buffer :
  stream_next (stream_at limits buffer)
  = let result := decode_frame_bytes buffer limits in
    match fd_disposition result with
    | FrameDisposition.Complete =>
        (result,
         if (0 <? fd_consumed result) && (fd_consumed result <=? zlen buffer)
         then stream_at limits (drop (Z.to_nat (fd_consumed result)) buffer)
         else stream_at limits buffer)
    | FrameDisposition.Incomplete => (result, stream_at limits buffer)
    | _ => (result, mkStream limits buffer (fd_status result) true)
    end.
Proof. unfold stream_next. cbn [st_sticky st_buffer st_limits stream_at]. by rewrite decode_frame_whole. Qed.

(** The frames and encodings of a conforming sender. *)
Definition encodings (limits : Limits) : list Frame -> list (list Z) -> Prop :=
  Forall2 (fun f bs => frame_ok f /\ encode_frame f limits = Value bs).

(** What a drained decoder holds of the encodings still to come. *)
Definition pending (p : list Z) (bss : list (list Z)) : Prop :=
  match bss with [] => p = [] | bs :: _ => strict_prefix p bs end.

Lemma stream_next_encoded f limits bs rest :
  frame_ok f -> encode_frame f limits = Value bs ->
  stream_next (stream_at limits (bs ++ rest))
  = (mkFrameDecode FrameDisposition.Complete (sealed_frame f) (zlen bs) success, stream_at limits rest).
Proof.
  intros Hok Henc. rewrite stream_next_at, (decode_frame_encoded f limits bs) by done. simpl.
  destruct (encode_frame_value _ _ _ Henc) as (_ & _ & _ & _ & Hz).
  pose proof (zlen_nonneg (fm_payload f)). pose proof (zlen_nonneg rest).
  unfold kFrameHeaderBytes, kFrameTrailerBytes in Hz.
  rewrite (proj2 (Z.ltb_lt _ _)), (proj2 (Z.leb_le _ _)) by (rewrite ?zlen_app; lia). simpl.
  unfold zlen. by rewrite Nat2Z.id, drop_app_length.
Qed.

Lemma drain_incomplete fuel limits p : decode_frame_bytes p limits = incomplete ->
  stream_drain fuel (stream_at limits p) = ([], stream_at limits p).
Proof. intros H. destruct fuel; [done|]. cbn [stream_drain]. by rewrite stream_next_at, H. Qed.

Lemma stream_split (q tail bs rest : list Z) : q ++ tail = bs ++ rest ->
  (exists k, q = bs ++ k /\ k ++ tail = rest) \/ strict_prefix q bs.
Proof.
  intros [(k & -> & ->)|(k & -> & ->)]%app_eq_inv; [by left; exists k|].
  destruct k as [|z k]; [left; exists []; by rewrite !app_nil_r|]. right. by exists (z :: k).
Qed.

(** Draining a buffer that is a prefix of a conforming stream takes out exactly
    the frames it holds whole. *)
Lemma drain_conforming limits fs bss q tail fuel :
  encodings limits fs bss -> q ++ tail = concat bss -> (length q <= fuel)%nat ->
  exists fs1 fs2 bss2 p, fs = fs1 ++ fs2 /\ encodings limits fs2 bss2
    /\ p ++ tail = concat bss2 /\ pending p bss2
    /\ stream_drain fuel (stream_at limits q) = (sealed_frame <$> fs1, stream_at limits p).
Proof.
  intros Henc. revert q fuel. induction Henc as [|f bs fs bss [Hok Hf] Henc IH]; intros q fuel Hq Hfuel.
  { apply app_nil in Hq as [-> ->]. exists [], [], [], []. split_and!; [done|constructor|done|done|].
    by apply drain_incomplete. }
  destruct (stream_split _ _ _ _ Hq) as [(k & -> & Hk)|Hp].
  - destruct (encode_frame_value _ _ _ Hf) as (_ & _ & _ & _ & Hz). pose proof (zlen_nonneg (fm_payload f)).
    rewrite length_app in Hfuel. unfold zlen at 1, kFrameHeaderBytes, kFrameTrailerBytes in Hz.
    destruct fuel as [|fuel]; [lia|].
    destruct (IH k fuel Hk ltac:(lia)) as (fs1 & fs2 & bss2 & p & -> & He2 & Hp & Hpend & Hd).
    exists (f :: fs1), fs2, bss2, p. split_and!; [done..|].
    cbn [stream_drain]. rewrite (stream_next_encoded f limits bs) by done. cbn [fd_disposition].
    by rewrite Hd.
  - exists [], (f :: fs), (bs :: bss), q. split_and!; [done|by constructor|done|done|].
    apply drain_incomplete. by apply (decode_frame_prefix f limits bs).
Qed.

Lemma pending_short limits fs bss p : encodings limits fs bss -> pending p bss ->
  0 <= max_frame_payload limits -> zlen p <= frame_bytes_max limits.
Proof.
  intros Henc Hp H0. unfold frame_bytes_max. destruct Henc as [|f bs fs bss [_ Hf] _]; simpl in Hp.
  - subst. rewrite zlen_nil. unfold frame_payload_ceiling, kHardMaxFramePayload, kFrameHeaderBytes, kFrameTrailerBytes.
    change (Z.shiftl 16 20) with 16777216. lia.
  - apply strict_prefix_length in Hp. destruct (encode_frame_value _ _ _ Hf) as (_ & _ & _ & ? & ?). lia.
Qed.

Lemma stream_feed_at limits p chunk : 0 <= max_frame_payload limits ->
  zlen p <= frame_bytes_max limits -> zlen chunk <= frame_bytes_max limits ->
  stream_feed (Some chunk) (zlen chunk) (stream_at limits p) = (success, stream_at limits (p ++ chunk)).
Proof.
  intros H0 Hp Hc. unfold stream_feed. cbn [st_sticky stream_at st_limits st_buffer st_status].
  destruct (zlen chunk =? 0) eqn:He; bool_prop.
  { destruct chunk as [|z chunk]; [by rewrite app_nil_r|]. rewrite zlen_cons in He. pose proof (zlen_nonneg chunk). lia. }
  rewrite stream_capacity_value by done. pose proof (zlen_nonneg chunk).
  rewrite (proj2 (Z.ltb_ge _ _)), (proj2 (Z.ltb_ge _ _)) by lia. cbn [orb].
  unfold zlen. by rewrite Nat2Z.id, firstn_all.
Qed.

Lemma stream_run_conforming limits chunks fs bss p :
  0 <= max_frame_payload limits -> encodings limits fs bss -> pending p bss ->
  Forall (fun c => zlen c <= frame_bytes_max limits) chunks -> p ++ concat chunks = concat bss ->
  stream_run chunks (stream_at limits p) = (sealed_frame <$> fs, success, stream_at limits []).
Proof.
  intros H0. revert fs bss p. induction chunks as [|chunk chunks IH]; intros fs bss p Henc Hp Hall Hcat.
  - rewrite app_nil_r in Hcat. destruct Henc as [|f bs fs bss]; simpl in Hp; [by subst|].
    apply strict_prefix_length in Hp. rewrite Hcat in Hp. simpl in Hp. rewrite zlen_app in Hp.
    pose proof (zlen_nonneg (concat bss)). lia.
  - inversion_clear Hall as [|? ? Hc Hrest]. cbn [stream_run].
    rewrite stream_feed_at by (done || by apply (pending_short _ fs bss)). cbn [status_ok negb st_buffer stream_at].
    change (status_ok success) with true. cbn [negb].
    cbn [concat] in Hcat. rewrite app_assoc in Hcat.
    destruct (drain_conforming limits fs bss (p ++ chunk) (concat chunks) (length (p ++ chunk)))
      as (fs1 & fs2 & bss2 & p2 & -> & He2 & Hp2 & Hpend & Hd); [done..|].
    rewrite Hd. cbn [st_sticky stream_at]. fold (stream_at limits p2).
    rewrite (IH fs2 bss2 p2) by done. by rewrite fmap_app.
Qed.

(** ** Arbitrary bytes *)

(** What [next] does to a healthy decoder. *)
Variant next_outcome (limits : Limits) (buffer : list Z) :
  FrameDecodeResult -> FrameStreamDecoder -> Prop :=
| NextFrame result bs rest :
    fd_disposition result = FrameDisposition.Complete -> buffer = bs ++ rest -> bs <> [] ->
    encode_frame (fd_frame result) limits = Value bs -> frame_ok (fd_frame result) ->
    sealed_frame (fd_frame result) = fd_frame result ->
    next_outcome limits buffer result (stream_at limits rest)
| NextWait result :
    fd_disposition result = FrameDisposition.Incomplete ->
    next_outcome limits buffer result (stream_at limits buffer)
| NextFail result :
    frame_refused result -> status_ok (fd_status result) = false ->
    (fd_disposition result = FrameDisposition.Unsupported <->
     status_code (fd_status result) = Code.Unsupported
     \/ status_code (fd_status result) = Code.VersionMismatch) ->
    next_outcome limits buffer result (mkStream limits buffer (fd_status result) true).

(** A refusal carries a failed status, which tells the two dispositions apart. *)
Lemma decode_frame_refused data limits : let d := decode_frame_bytes data limits in
  frame_refused d -> status_ok (fd_status d) = false
  /\ (fd_disposition d = FrameDisposition.Unsupported <->
      status_code (fd_status d) = Code.Unsupported \/ status_code (fd_status d) = Code.VersionMismatch).
Proof.
  unfold decode_frame_bytes, decode_frame_body, frame_refused.
  repeat (first [split_test|split_match]; cbn -[load_frame_header]);
    intros [?|?]; try discriminate; (split; [done|]); split; intros; naive_solver.
Qed.

Lemma stream_next_outcome limits buffer : Forall in_u8 buffer ->
  next_outcome limits buffer (stream_next (stream_at limits buffer)).1
    (stream_next (stream_at limits buffer)).2.
Proof.
  intros Hu. rewrite stream_next_at. cbn zeta. pose proof (decode_frame_refused buffer limits) as Hr.
  cbn zeta in Hr. unfold frame_refused in Hr.
  destruct (fd_disposition _) eqn:Hd; cbn [fst snd].
  - destruct (decode_frame_complete buffer limits Hu Hd) as (He & Hc & Hok & Hs).
    unfold kFrameHeaderBytes, kFrameTrailerBytes in Hc.
    rewrite (proj2 (Z.ltb_lt _ _)), (proj2 (Z.leb_le _ _)) by lia. cbn [andb].
    apply (NextFrame _ _ _ (take (Z.to_nat (fd_consumed (decode_frame_bytes buffer limits))) buffer));
      try done; [by rewrite take_drop|].
    intros Hn%(f_equal length). rewrite length_take in Hn. simpl in Hn. unfold zlen in Hc. lia.
  - by apply NextWait.
  - destruct Hr as [? ?]; [by left|]. apply NextFail; [by left|done|by rewrite Hd].
  - destruct Hr as [? ?]; [by right|]. apply NextFail; [by right|done|by rewrite Hd].
Qed.

(** The frames taken out are the bytes in front of what is left. *)
Definition taken (limits : Limits) (fs : list Frame) (bytes rest : list Z) : Prop :=
  exists bss, encodings limits fs bss /\ sealed_frame <$> fs = fs /\ bytes = concat bss ++ rest.

Lemma taken_nil limits bytes : taken limits [] bytes bytes.
Proof. exists []. by repeat split; constructor. Qed.

Lemma taken_app limits fs1 fs2 a b rest more :
  taken limits fs1 a b -> taken limits fs2 (b ++ more) rest -> taken limits (fs1 ++ fs2) (a ++ more) rest.
Proof.
  intros (bss1 & He1 & Hs1 & ->) (bss2 & He2 & Hs2 & Hb). exists (bss1 ++ bss2). split_and!.
  - by apply Forall2_app.
  - by rewrite fmap_app, Hs1, Hs2.
  - by rewrite concat_app, <- !app_assoc, Hb.
Qed.

Lemma drain_sound fuel limits q : Forall in_u8 q ->
  let '(fs, d) := stream_drain fuel (stream_at limits q) in
  taken limits fs q (st_buffer d) /\ st_limits d = limits
  /\ (st_sticky d = false -> d = stream_at limits (st_buffer d))
  /\ (st_sticky d = true -> status_ok (st_status d) = false).
Proof.
  revert q. induction fuel as [|fuel IH]; intros q Hu.
  { simpl. split_and!; [apply taken_nil|done..]. }
  cbn [stream_drain]. pose proof (stream_next_outcome limits q Hu) as Ho.
  destruct (stream_next (stream_at limits q)) as [result d]. cbn [fst snd] in Ho.
  destruct Ho as [result bs rest Hd -> Hne He Hok Hs|result Hd|result [Hd|Hd] Hst _]; rewrite Hd.
  - apply Forall_app in Hu as [_ Hu]. specialize (IH rest Hu).
    destruct (stream_drain fuel (stream_at limits rest)) as [fs d].
    destruct IH as ((bss & Hbss & Hsf & ->) & Hl & Hs1 & Hs2). split_and!; [|done..].
    exists (bs :: bss). split_and!; [by constructor|by rewrite fmap_cons, Hs, Hsf|]. simpl. by rewrite app_assoc.
  - split_and!; [apply taken_nil|done..].
  - split_and!; [apply taken_nil|done..].
  - split_and!; [apply taken_nil|done..].
Qed.

Lemma stream_feed_cases limits p chunk :
  stream_feed (Some chunk) (zlen chunk) (stream_at limits p) = (success, stream_at limits (p ++ chunk))
  \/ status_ok (stream_feed (Some chunk) (zlen chunk) (stream_at limits p)).1 = false
     /\ (stream_feed (Some chunk) (zlen chunk) (stream_at limits p)).2 = stream_at limits p.
Proof.
  unfold stream_feed. cbn [st_sticky stream_at st_limits st_buffer st_status].
  destruct (zlen chunk =? 0) eqn:He; bool_prop.
  { left. destruct chunk as [|z chunk]; [by rewrite app_nil_r|]. rewrite zlen_cons in He.
    pose proof (zlen_nonneg chunk). lia. }
  match goal with |- context [if ?full then _ else _] => destruct full end; [by right|]. left.
  unfold zlen. by rewrite Nat2Z.id, firstn_all.
Qed.

Lemma run_sound limits chunks q : Forall in_u8 q -> Forall (Forall in_u8) chunks ->
  exists rest, taken limits (stream_run chunks (stream_at limits q)).1.1 (q ++ concat chunks) rest.
Proof.
  intros Hq Hall. revert q Hq. induction Hall as [|chunk chunks Hc _ IH]; intros q Hq.
  { exists q. simpl. rewrite app_nil_r. apply taken_nil. }
  cbn [stream_run concat]. destruct (stream_feed_cases limits q chunk) as [->|[Hf Hd]].
  - change (status_ok success) with true. cbn [negb]. rewrite app_assoc.
    assert (Hqc : Forall in_u8 (q ++ chunk)) by (by apply Forall_app).
    pose proof (drain_sound (length (q ++ chunk)) limits (q ++ chunk) Hqc) as H. cbn [st_buffer stream_at] in *.
    fold (stream_at limits (q ++ chunk)) in *.
    destruct (stream_drain _ _) as [fs d]. destruct H as (Ht & _ & Hs & _).
    destruct (st_sticky d) eqn:Hst.
    + exists (st_buffer d ++ concat chunks). cbn [fst]. rewrite <- (app_nil_r fs).
      eapply taken_app; [done|apply taken_nil].
    + rewrite (Hs eq_refl). destruct (IH (st_buffer d)) as [rest Hr].
      { destruct Ht as (bss & _ & _ & Hb). rewrite Hb in Hqc. by apply Forall_app in Hqc as [_ ?]. }
      exists rest. destruct (stream_run chunks _) as [[more s] d']. cbn [fst] in *. by eapply taken_app.
  - destruct (stream_feed _ _ _) as [fed d]. cbn [fst snd] in *. rewrite Hf. cbn [negb fst].
    exists (q ++ chunk ++ concat chunks). apply taken_nil.
Qed.

(** One call on a decoder, [reset] apart. *)
Inductive stream_io : FrameStreamDecoder -> FrameStreamDecoder -> Prop :=
| io_feed data size d : stream_io d (stream_feed data size d).2
| io_next d : stream_io d (stream_next d).2.

Inductive stream_step : FrameStreamDecoder -> FrameStreamDecoder -> Prop :=
| step_feed chunk d : stream_step d (stream_feed (Some chunk) (zlen chunk) d).2
| step_next d : stream_step d (stream_next d).2
| step_reset d : stream_step d (stream_reset d).

Lemma stream_sticky_io d d' : st_sticky d = true -> rtc stream_io d d' -> d' = d.
Proof.
  intros Hs Hr. induction Hr as [|d d1 d2 Hio _ IH]; [done|].
  assert (d1 = d) as ->; [|by apply IH].
  destruct Hio; [unfold stream_feed|unfold stream_next]; by rewrite Hs.
Qed.

Definition stream_within (limits : Limits) (d : FrameStreamDecoder) : Prop :=
  st_limits d = limits /\ stream_buffered d <= 2 * frame_bytes_max limits.

Lemma stream_step_within limits d d' : 0 <= max_frame_payload limits ->
  stream_within limits d -> stream_step d d' -> stream_within limits d'.
Proof.
  unfold stream_within, stream_buffered. intros H0 [Hl Hb] Hs. destruct Hs as [chunk d0|d0|d0].
  - unfold stream_feed. rewrite Hl, stream_capacity_value by done. repeat split_test; try done. bool_prop.
    cbn [snd st_limits st_buffer]. split; [done|].
    rewrite zlen_app. unfold zlen at 2. rewrite length_take. unfold zlen in *. lia.
  - unfold stream_next. destruct (st_sticky d0); [done|]. cbn zeta. destruct (fd_disposition _); try done.
    cbn [snd]. split_test; [|done]. cbn [st_limits st_buffer]. split; [done|]. unfold zlen in *. rewrite length_drop. lia.
  - cbn [st_limits st_buffer stream_reset]. split; [done|]. rewrite zlen_nil.
    pose proof (zlen_nonneg (st_buffer d0)). lia.
Qed.

Lemma stream_steps_within limits d d' : 0 <= max_frame_payload limits ->
  stream_within limits d -> rtc stream_step d d' -> stream_within limits d'.
Proof.
  intros H0 Hw Hr. induction Hr as [|x y z Hxy _ IH]; [done|].
  apply IH. by apply (stream_step_within limits x).
Qed.

(** ** Properties *)

(** What is framed is received: a frame of an assigned type whose payload is
    within the bound is decoded again, whatever follows it, with the same
    header fields, payload and authority binding, consuming exactly its bytes,
    and the decoded frame encodes to the same bytes. A range that ends inside
    it is Incomplete, never Corrupt. *)
Theorem frame_roundtrip (f : Frame) (limits : Limits) (bs rest : list Z) :
  frame_ok f -> encode_frame f limits = Value bs ->
  let d := decode_frame (Some (bs ++ rest)) (zlen (bs ++ rest)) limits in
  fd_disposition d = FrameDisposition.Complete /\ fd_consumed d = zlen bs
  /\ fd_frame d = sealed_frame f /\ fm_payload (fd_frame d) = fm_payload f
  /\ frame_binding (fm_header (fd_frame d)) = frame_binding (fm_header f)
  /\ (forall p, strict_prefix p bs ->
      fd_disposition (decode_frame (Some p) (zlen p) limits) = FrameDisposition.Incomplete).
Proof.
  intros Hok Henc d. unfold d. rewrite decode_frame_whole, (decode_frame_encoded f limits bs) by done.
  split_and!; [done..|]. intros p Hp. by rewrite decode_frame_whole, (decode_frame_prefix f limits bs).
Qed.

(** Delivery does not depend on how the network cuts the stream: when the
    bytes a connection receives are the concatenated encodings of some frames,
    in chunks of any sizes up to one largest frame, cut anywhere, the receiving
    loop takes out exactly these frames, in order, refuses no chunk, and ends
    with an empty buffer. *)
Theorem stream_chunking_invariant (limits : Limits) (fs : list Frame) (bss chunks : list (list Z)) :
  0 <= max_frame_payload limits -> encodings limits fs bss ->
  Forall (fun c => zlen c <= frame_bytes_max limits) chunks -> concat chunks = concat bss ->
  stream_run chunks (stream_new limits) = (sealed_frame <$> fs, success, stream_new limits).
Proof.
  intros H0 Henc Hall Hcat. apply (stream_run_conforming limits chunks fs bss []); [done|done| |done|done].
  destruct Henc as [|f bs fs bss [_ Hf] _]; [done|]. exists bs.
  destruct (encode_frame_value _ _ _ Hf) as (-> & _). done.
Qed.

(** C34. No frame is made up and none is resynchronised: whatever bytes arrive,
    in whatever chunks, the frames the receiving loop takes out are well formed
    and within the bound, and their encodings, concatenated, are a prefix of
    the bytes received. *)
Theorem stream_delivers_only_what_was_sent (limits : Limits) (chunks : list (list Z)) :
  Forall (Forall in_u8) chunks ->
  let '(fs, _, _) := stream_run chunks (stream_new limits) in
  exists bss rest, encodings limits fs bss /\ sealed_frame <$> fs = fs
    /\ concat chunks = concat bss ++ rest.
Proof.
  intros Hall. destruct (run_sound limits chunks [] (Forall_nil_2 _) Hall) as (rest & bss & He & Hs & Hc).
  fold (stream_new limits) in *. change (stream_at limits []) with (stream_new limits) in *.
  destruct (stream_run chunks (stream_new limits)) as [[fs s] d]. by exists bss, rest.
Qed.

(** Failure is sticky: once [next] has answered Corrupt or Unsupported, no
    sequence of feeds and reads, whatever the bytes, changes the decoder, and
    every further [next] is refused with the same disposition and code. *)
Theorem stream_failure_sticky (limits : Limits) (buffer : list Z) (d : FrameStreamDecoder) :
  Forall in_u8 buffer ->
  let first := stream_next (mkStream limits buffer success false) in
  frame_refused first.1 -> rtc stream_io first.2 d ->
  d = first.2 /\ fd_disposition (stream_next d).1 = fd_disposition first.1
  /\ status_code (fd_status (stream_next d).1) = status_code (fd_status first.1).
Proof.
  intros Hu first Hr Hio. pose proof (stream_next_outcome limits buffer Hu) as Ho.
  unfold stream_at in Ho. fold first in Ho. destruct first as [result d1]. cbn [fst snd] in *.
  destruct Ho as [result bs rest Hd|result Hd|result Hf Hok Hu2]; [unfold frame_refused in Hr; rewrite Hd in Hr; naive_solver..|].
  apply stream_sticky_io in Hio; [|done]. subst d. split; [done|]. unfold stream_next.
  cbn [st_sticky st_status fst make_failure fd_disposition fd_status status_code]. split.
  - destruct Hf as [Hf|Hf]; rewrite Hf in Hu2 |- *.
    + rewrite !bool_decide_false by (intros Hc; rewrite Hc in Hu2; naive_solver). done.
    + destruct (proj1 Hu2 eq_refl) as [->| ->]; done.
  - unfold failure. cbn [status_code]. rewrite bool_decide_false; [done|].
    intros Hc. unfold status_ok in Hok. by rewrite Hc in Hok.
Qed.

(** The buffer is bounded: after any sequence of feeds, reads and resets a
    decoder holds at most two largest frames. *)
Theorem stream_buffer_bounded (limits : Limits) (d : FrameStreamDecoder) :
  0 <= max_frame_payload limits -> rtc stream_step (stream_new limits) d ->
  stream_buffered d <= 2 * frame_bytes_max limits.
Proof.
  intros H0 Hr. apply (stream_steps_within limits (stream_new limits)); [done| |done].
  split; [done|]. unfold stream_buffered, frame_bytes_max, frame_payload_ceiling.
  change kHardMaxFramePayload with 16777216. unfold kFrameHeaderBytes, kFrameTrailerBytes.
  cbn [st_buffer stream_new]. rewrite zlen_nil. lia.
Qed.

(** Damage is refused: when up to four adjacent bytes of an encoded frame are
    overwritten, anywhere in it, the decoder answers Corrupt or Unsupported,
    whatever follows the frame. *)
Lemma damaged_frame_refused f limits bs bs' rest :
  frame_ok f -> encode_frame f limits = Value bs -> burst bs bs' -> Forall in_u8 (bs' ++ rest) ->
  frame_refused (decode_frame (Some (bs' ++ rest)) (zlen (bs' ++ rest)) limits).
Proof.
  intros Hok Henc Hb Hu. rewrite decode_frame_whole.
  destruct (encode_frame_value _ _ _ Henc) as (Hbs & _). rewrite Hbs in Hb.
  destruct (burst_split _ _ _ Hb) as (b1 & b2 & -> & H1 & H2 & [Hc|[-> Hc]]); rewrite <- app_assoc in *.
  - eapply damaged_frame_header; [done..|]. by rewrite H1, length_frame_header.
  - apply (damaged_frame_payload f limits bs); [done|done| |done|].
    + by apply Forall_app in Hu as [_ [? _]%Forall_app].
    + rewrite H2. unfold sealed. by rewrite length_app, length_le_bytes.
Qed.

(** ** Concrete streams *)

Definition sample_frame (seq : Z) (payload : list Z) : Frame :=
  mkFrame (mkFrameHeader 0 kFrameFormatVersion (message_type_raw MessageType.QueryAuthority) 0 1 5 77 seq 0 0)
    payload 0.

Definition frame_encoding (f : Frame) : list Z :=
  match encode_frame f limits_defaults with Value bs => bs | Refused _ => [] end.

Definition first_encoding : list Z := Eval vm_compute in frame_encoding (sample_frame 1 [1; 2; 3]).
Definition second_encoding : list Z := Eval vm_compute in frame_encoding (sample_frame 2 []).

Lemma sample_frame_ok seq payload : in_u64 seq -> Forall in_u8 payload -> frame_ok (sample_frame seq payload).
Proof. intros. split; [split; simpl; unfold kFrameFormatVersion; ints_lia|done|done|done]. Qed.

Lemma sample_encodings :
  encodings limits_defaults [sample_frame 1 [1; 2; 3]; sample_frame 2 []] [first_encoding; second_encoding].
Proof.
  constructor; [|constructor; [|constructor]]; (split; [|vm_compute; reflexivity]);
    apply sample_frame_ok; [ints_lia|repeat constructor; ints_lia|ints_lia|constructor].
Qed.

Lemma frame_roundtrip_witness :
  fd_consumed (decode_frame (Some (first_encoding ++ second_encoding)) 115 limits_defaults) = 59.
Proof.
  refine (proj1 (proj2 (frame_roundtrip (sample_frame 1 [1; 2; 3]) limits_defaults first_encoding second_encoding _ _)));
    [apply sample_frame_ok; [ints_lia|repeat constructor; ints_lia]|vm_compute; reflexivity].
Defined.

(** Two frames cut in the middle of the first header and of the second frame. *)
Lemma stream_chunking_invariant_witness :
  stream_run [take 20 first_encoding; drop 20 first_encoding ++ take 9 second_encoding; drop 9 second_encoding]
    (stream_new limits_defaults)
  = (sealed_frame <$> [sample_frame 1 [1; 2; 3]; sample_frame 2 []], success, stream_new limits_defaults).
Proof.
  apply (stream_chunking_invariant limits_defaults _ [first_encoding; second_encoding]);
    [vm_compute; congruence|apply sample_encodings|repeat constructor; vm_compute; congruence|vm_compute; reflexivity].
Defined.

Lemma stream_delivers_only_what_was_sent_witness :
  exists bss rest,
    encodings limits_defaults (stream_run [first_encoding ++ [83; 70]; [0; 0; 9]] (stream_new limits_defaults)).1.1 bss
    /\ first_encoding ++ [83; 70; 0; 0; 9] = concat bss ++ rest.
Proof.
  pose proof (stream_delivers_only_what_was_sent limits_defaults [first_encoding ++ [83; 70]; [0; 0; 9]]) as H.
  destruct (stream_run _ _) as [[fs s] d]. destruct H as (bss & rest & He & _ & Hc).
  { repeat constructor; vm_compute; congruence. }
  exists bss, rest. split; [exact He|exact Hc].
Defined.

Lemma stream_failure_sticky_witness :
  let d := mkStream limits_defaults [83; 70; 70; 50] (failure Code.Corrupt "frame magic mismatch") true in
  fd_disposition (stream_next (stream_feed (Some first_encoding) 59 d).2).1 = FrameDisposition.Corrupt.
Proof.
  refine (proj1 (proj2 (stream_failure_sticky limits_defaults [83; 70; 70; 50] _ _ _ _)));
    [repeat constructor; ints_lia|left; vm_compute; reflexivity|].
  apply rtc_once. apply (io_feed (Some first_encoding) 59).
Defined.

Lemma stream_buffer_bounded_witness :
  stream_buffered (stream_feed (Some first_encoding) (zlen first_encoding) (stream_new limits_defaults)).2
  <= 2 * frame_bytes_max limits_defaults.
Proof.
  apply (stream_buffer_bounded limits_defaults); [vm_compute; congruence|].
  apply rtc_once. apply step_feed.
Defined.
