(* ===== verification/Messages.v ===== *)
(** The payloads frames carry (the payload codecs of include/sff/transport/frame.hpp
    and src/transport/frame.cpp): one canonical fixed-shape encoder and decoder per
    message. A decoder reads every field first, then refuses what is left over,
    and only then the field values it does not assign. *)

From S2P Require Import Prelude Containers Core Evidence Bytes Frame.

#[local] Open Scope codec_scope.

(** * Shared helpers *)

Definition kLastCode : Z := code_raw Code.Expired.
Definition is_known_code (raw : Z) : bool := raw <=? kLastCode.

Definition kTextBudget : Z := kMaxMessageBytes + 64.
Definition kFixedPayloadBudget : Z := 256.

(** `if (status = reader.status(); !status.ok()) return status; return value;` *)
Definition status_then {A} (value : Result A) : ReaderM (Result A) := fun r =>
  (if negb (reader_ok r) then Refused (br_failure r) else value, r).

(** What a raw outcome code, count or dependent is accepted as. *)
Definition code_value (raw : Z) : Result Code :=
  if negb (is_known_code raw) then
    Refused (failure Code.Invalid "payload carries an unassigned outcome code")
  else Value (code_of_raw raw).

Definition size_value (raw : Z) : Result Z :=
  match narrow_size raw with
  | None => Refused (failure Code.Invalid "payload carries a count that is not representable")
  | Some narrowed => Value narrowed
  end.

Definition dependent_value (kind id : Z) : Result DependentRef :=
  if negb (is_valid_dependent_kind kind) then
    Refused (failure Code.Invalid "payload carries an unassigned dependent kind")
  else
    let dependent := mkDependent (default DependentKind.Unknown (dependent_kind_of_raw kind)) id in
    if negb (dependent_valid dependent) then
      Refused (failure Code.Invalid "payload carries a zero dependent id")
    else Value dependent.

Definition read_code : ReaderM (Result Code) := raw ← read_u16; status_then (code_value raw).
Definition read_size : ReaderM (Result Z) := raw ← read_u64; status_then (size_value raw).

Definition read_frame_dependent : ReaderM (Result DependentRef) :=
  kind ← read_u8; id ← read_u64; status_then (dependent_value kind id).

Definition write_frame_dependent (d : DependentRef) : WriterM :=
  write_u8 (dependent_kind_raw (dep_kind d));; write_u64 (dep_id d).

(** `if (status = finish_payload(reader); !status.ok()) return status;` *)
Definition finish_payload {A} (k : ReaderM (Result A)) : ReaderM (Result A) := check_ok (check_end k).

(** `if (!x.ok()) return x.status(); ... x.value() ...` *)
Definition need {A B} (x : Result A) (k : A -> Result B) : Result B :=
  match x with Refused s => Refused s | Value a => k a end.

(** `ByteWriter writer(budget); writer.set_limit(budget); ...; return take();` *)
Definition payload_of (budget : Z) (m : WriterM) : list Z := bw_bytes (m (set_limit budget writer_new)).2.

(** `ByteReader reader(payload); reader.set_element_limit(limit);` *)
Definition decode_payload {A} (limit : Z) (m : ReaderM (Result A)) (payload : list Z) : Result A :=
  (m (set_element_limit limit (reader_new payload))).1.

(** The element limit of a reader that does not set one. *)
Definition kDefaultElements : Z := Z.shiftl 1 24.

(** * The messages *)

Record HelloRequest := mkHelloRequest { hq_principal : string; hq_format_version : Z }.

Definition encode_hello_request (request : HelloRequest) : list Z :=
  payload_of kTextBudget
    (write_u16 (hq_format_version request);; write_string (bounded_message (hq_principal request))).

Definition decode_hello_request : list Z -> Result HelloRequest :=
  decode_payload kMaxMessageBytes
    (format_version ← read_u16; principal ← read_string;
     finish_payload (mret (Value (mkHelloRequest principal format_version)))).

Record HelloResponse := mkHelloResponse {
  hr_session : Z;
  hr_epoch : Z;
  hr_boot_digest : Z;
  hr_format_version : Z;
  hr_max_payload : Z;
  hr_outcome : Code
}.

Definition encode_hello_response (response : HelloResponse) : list Z :=
  payload_of kFixedPayloadBudget
    (write_u16 (code_raw (hr_outcome response));; write_u64 (hr_session response);;
     write_u64 (hr_epoch response);; write_u64 (hr_boot_digest response);;
     write_u32 (hr_format_version response);; write_u32 (hr_max_payload response)).

(** The tests after the payload has been read to its end. *)
Definition hello_response_value (outcome : Result Code) (session epoch boot_digest format_version max_payload : Z) :
  Result HelloResponse :=
  need outcome (fun outcome =>
    if bool_decide (outcome = Code.Ok) && (negb (id_valid session) || negb (id_valid epoch)) then
      Refused (failure Code.Invalid "accepted hello response carries no session authority")
    else Value (mkHelloResponse session epoch boot_digest format_version max_payload outcome)).

Definition decode_hello_response : list Z -> Result HelloResponse :=
  decode_payload kDefaultElements
    (outcome ← read_code; session ← read_u64; epoch ← read_u64; boot_digest ← read_u64;
     format_version ← read_u32; max_payload ← read_u32;
     finish_payload (mret (hello_response_value outcome session epoch boot_digest format_version max_payload))).

(** [AuthorityQueryRequest] and [RestoreQueryRequest] hold one dependent. *)
Definition encode_authority_query (dependent : DependentRef) : list Z :=
  payload_of kFixedPayloadBudget (write_frame_dependent dependent).

Definition decode_authority_query : list Z -> Result DependentRef :=
  decode_payload kDefaultElements
    (dependent ← read_frame_dependent; finish_payload (mret (need dependent Value))).

Record AuthorityQueryResponse := mkAuthorityResponse {
  qr_outcome : Code;
  qr_reason : Code;
  qr_has_authority : bool;
  qr_active_grants : Z;
  qr_withdrawn_grants : Z;
  qr_fenced_generations : Z;
  qr_digest : Z
}.

Definition encode_authority_response (response : AuthorityQueryResponse) : list Z :=
  payload_of kFixedPayloadBudget
    (write_u16 (code_raw (qr_outcome response));; write_u16 (code_raw (qr_reason response));;
     write_boolean (qr_has_authority response);; write_u64 (qr_active_grants response);;
     write_u64 (qr_withdrawn_grants response);; write_u64 (qr_fenced_generations response);;
     write_u64 (qr_digest response)).

Definition decode_authority_response : list Z -> Result AuthorityQueryResponse :=
  decode_payload kDefaultElements
    (outcome ← read_code; reason ← read_code; has_authority ← read_boolean; active ← read_size;
     withdrawn ← read_size; fenced ← read_size; digest ← read_u64;
     finish_payload (mret
       (need outcome (fun outcome => need reason (fun reason => need active (fun active =>
        need withdrawn (fun withdrawn => need fenced (fun fenced =>
        Value (mkAuthorityResponse outcome reason has_authority active withdrawn fenced digest))))))))).

Record FailoverRequest := mkFailoverRequest {
  fq_subject : SwitchKey;
  fq_source : EvidenceSource;
  fq_observed_at_ns : Z;
  fq_valid_for_ns : Z;
  fq_reason : string
}.

Definition encode_failover_request (request : FailoverRequest) : list Z :=
  payload_of kTextBudget
    (write_u64 (sk_id (fq_subject request));; write_u64 (sk_generation (fq_subject request));;
     write_u8 (evidence_source_raw (fq_source request));; write_u64 (fq_observed_at_ns request);;
     write_u64 (fq_valid_for_ns request);; write_string (bounded_message (fq_reason request))).

(** [static_cast<EvidenceSource>(raw)] of a value in range. *)
Definition evidence_source_of_raw (raw : Z) : option EvidenceSource :=
  match raw with
  | 0 => Some EvidenceSource.Unknown | 1 => Some EvidenceSource.SimulatedFixture
  | 2 => Some EvidenceSource.TelemetryCollector | 3 => Some EvidenceSource.SwitchAgent
  | 4 => Some EvidenceSource.TopologyService | 5 => Some EvidenceSource.FabricManager
  | 6 => Some EvidenceSource.OperatorPolicy | _ => None
  end.

Definition failover_request_value (id generation source observed_at_ns valid_for_ns : Z) (reason : string) :
  Result FailoverRequest :=
  if negb (is_valid_evidence_source source) then
    Refused (failure Code.Invalid "failover request carries an unassigned evidence source")
  else
    let subject := mkSwitchKey id generation in
    let source := default EvidenceSource.Unknown (evidence_source_of_raw source) in
    if negb (key_valid subject) then
      Refused (failure Code.Invalid "failover request carries an invalid switch key")
    else Value (mkFailoverRequest subject source observed_at_ns valid_for_ns reason).

Definition decode_failover_request : list Z -> Result FailoverRequest :=
  decode_payload kMaxMessageBytes
    (id ← read_u64; generation ← read_u64; source ← read_u8; observed_at_ns ← read_u64;
     valid_for_ns ← read_u64; reason ← read_string;
     finish_payload (mret (failover_request_value id generation source observed_at_ns valid_for_ns reason))).

Record FailoverResponse := mkFailoverResponse {
  fp_outcome : Code;
  fp_fence_id : Z;
  fp_fence_scope : Z;
  fp_closure_complete : bool;
  fp_closure_members : Z;
  fp_grants_fenced : Z;
  fp_closure_digest : Z
}.

Definition encode_failover_response (response : FailoverResponse) : list Z :=
  payload_of kFixedPayloadBudget
    (write_u16 (code_raw (fp_outcome response));; write_u64 (fp_fence_id response);;
     write_u32 (fp_fence_scope response);; write_boolean (fp_closure_complete response);;
     write_u64 (fp_closure_members response);; write_u64 (fp_grants_fenced response);;
     write_u64 (fp_closure_digest response)).

Definition decode_failover_response : list Z -> Result FailoverResponse :=
  decode_payload kDefaultElements
    (outcome ← read_code; fence_id ← read_u64; fence_scope ← read_u32; closure_complete ← read_boolean;
     members ← read_size; fenced ← read_size; closure_digest ← read_u64;
     finish_payload (mret
       (need outcome (fun outcome => need members (fun members => need fenced (fun fenced =>
        Value (mkFailoverResponse outcome fence_id fence_scope closure_complete members fenced closure_digest))))))).

Definition encode_restore_query (dependent : DependentRef) : list Z :=
  payload_of kFixedPayloadBudget (write_frame_dependent dependent).

Definition decode_restore_query : list Z -> Result DependentRef :=
  decode_payload kDefaultElements
    (dependent ← read_frame_dependent; finish_payload (mret (need dependent Value))).

Record RestoreQueryResponse := mkRestoreResponse {
  rq_outcome : Code;
  rq_reason : Code;
  rq_may_restore : bool;
  rq_effect_verified : bool;
  rq_blocking_generations : Z
}.

Definition encode_restore_response (response : RestoreQueryResponse) : list Z :=
  payload_of kFixedPayloadBudget
    (write_u16 (code_raw (rq_outcome response));; write_u16 (code_raw (rq_reason response));;
     write_boolean (rq_may_restore response);; write_boolean (rq_effect_verified response);;
     write_u64 (rq_blocking_generations response)).

Definition decode_restore_response : list Z -> Result RestoreQueryResponse :=
  decode_payload kDefaultElements
    (outcome ← read_code; reason ← read_code; may_restore ← read_boolean; effect_verified ← read_boolean;
     blocking ← read_size;
     finish_payload (mret
       (need outcome (fun outcome => need reason (fun reason => need blocking (fun blocking =>
        Value (mkRestoreResponse outcome reason may_restore effect_verified blocking))))))).

Record SnapshotResponse := mkSnapshotResponse {
  sp_outcome : Code;
  sp_epoch : Z;
  sp_boot_ordinal : Z;
  sp_switches : Z;
  sp_fences : Z;
  sp_failures : Z;
  sp_active_grants : Z;
  sp_retained_events : Z;
  sp_durability_enabled : bool
}.

Definition encode_snapshot_response (response : SnapshotResponse) : list Z :=
  payload_of kFixedPayloadBudget
    (write_u16 (code_raw (sp_outcome response));; write_u64 (sp_epoch response);;
     write_u64 (sp_boot_ordinal response);; write_u64 (sp_switches response);;
     write_u64 (sp_fences response);; write_u64 (sp_failures response);;
     write_u64 (sp_active_grants response);; write_u64 (sp_retained_events response);;
     write_boolean (sp_durability_enabled response)).

Definition decode_snapshot_response : list Z -> Result SnapshotResponse :=
  decode_payload kDefaultElements
    (outcome ← read_code; epoch ← read_u64; boot_ordinal ← read_u64; switches ← read_size;
     fences ← read_size; failures ← read_size; grants ← read_size; events ← read_size;
     durability_enabled ← read_boolean;
     finish_payload (mret
       (need outcome (fun outcome => need switches (fun switches => need fences (fun fences =>
        need failures (fun failures => need grants (fun grants => need events (fun events =>
        Value (mkSnapshotResponse outcome epoch boot_ordinal switches fences failures grants events
                 durability_enabled)))))))))).

Definition encode_error_payload (code : Code) (detail : string) : list Z :=
  payload_of kTextBudget (write_u16 (code_raw code);; write_string (bounded_message detail)).

Definition decode_error_payload : list Z -> Result (Code * string) :=
  decode_payload kMaxMessageBytes
    (code ← read_code; detail ← read_string;
     finish_payload (mret (need code (fun code => Value (code, detail))))).

(** * Canonical payloads *)

(** What a payload codec promises to the two ends of a connection: every value
    it is meant for survives the trip, a payload cut short is refused as
    Truncated, and the decoder accepts nothing but such encodings, so a payload
    has one reading and a value one payload. *)
Class PayloadCodec {A} (ok : A -> Prop) (encode : A -> list Z) (decode : list Z -> Result A) : Prop := {
  codec_roundtrip : forall a, ok a -> decode (encode a) = Value a;
  codec_truncated : forall a p, ok a -> strict_prefix p (encode a) ->
    exists s, decode p = Refused s /\ status_code s = Code.Truncated;
  codec_canonical : forall data a, Forall in_u8 data -> decode data = Value a -> ok a /\ encode a = data;
  codec_bytes : forall a, ok a -> Forall in_u8 (encode a) /\ zlen (encode a) <= kTextBudget
}.

(** Two readers with the same answers. *)
Definition answers_alike {A} (m m' : ReaderM A) : Prop := forall r, (m r).1 = (m' r).1.

Lemma alike_bind {A B} (m : ReaderM A) (k k' : A -> ReaderM B) :
  (forall a, answers_alike (k a) (k' a)) -> answers_alike (m ≫= k) (m ≫= k').
Proof. intros Hk r. unfold mbind, reader_bind. destruct (m r) as [a r']. apply Hk. Qed.

Lemma alike_trans {A} (a b c : ReaderM A) : answers_alike a b -> answers_alike b c -> answers_alike a c.
Proof. intros H1 H2 r. by rewrite H1. Qed.

(** A status test in the middle of a payload decides nothing: a failed reader
    is refused at the end of the payload anyway. *)
Lemma alike_status {A B} (value : Result A) (k : Result A -> ReaderM (Result B)) :
  (forall x, FailClosed (k x)) -> answers_alike (status_then value ≫= k) (k value).
Proof.
  intros Hk r. unfold mbind, reader_bind, status_then. destruct (reader_ok r) eqn:Hr; cbn [negb]; [done|].
  by rewrite !Hk.
Qed.

Lemma alike_read_code {B} (k : Result Code -> ReaderM (Result B)) (k' : Z -> ReaderM (Result B)) :
  (forall x, FailClosed (k x)) -> (forall raw, answers_alike (k (code_value raw)) (k' raw)) ->
  answers_alike (read_code ≫= k) (read_u16 ≫= k').
Proof.
  intros Hk Hk' r. unfold read_code. transitivity ((read_u16 ≫= fun raw => status_then (code_value raw) ≫= k) r).1.
  - unfold mbind, reader_bind. by destruct (read_u16 r).
  - apply alike_bind. intros raw. eapply alike_trans; [by apply alike_status|apply Hk'].
Qed.

Lemma alike_read_size {B} (k : Result Z -> ReaderM (Result B)) (k' : Z -> ReaderM (Result B)) :
  (forall x, FailClosed (k x)) -> (forall raw, answers_alike (k (size_value raw)) (k' raw)) ->
  answers_alike (read_size ≫= k) (read_u64 ≫= k').
Proof.
  intros Hk Hk' r. unfold read_size. transitivity ((read_u64 ≫= fun raw => status_then (size_value raw) ≫= k) r).1.
  - unfold mbind, reader_bind. by destruct (read_u64 r).
  - apply alike_bind. intros raw. eapply alike_trans; [by apply alike_status|apply Hk'].
Qed.

Lemma alike_read_dependent {B} (k : Result DependentRef -> ReaderM (Result B)) (k' : Z -> Z -> ReaderM (Result B)) :
  (forall x, FailClosed (k x)) -> (forall kind id, answers_alike (k (dependent_value kind id)) (k' kind id)) ->
  answers_alike (read_frame_dependent ≫= k) (read_u8 ≫= fun kind => read_u64 ≫= k' kind).
Proof.
  intros Hk Hk' r. unfold read_frame_dependent.
  transitivity ((read_u8 ≫= fun kind => read_u64 ≫= fun id => status_then (dependent_value kind id) ≫= k) r).1.
  - unfold mbind, reader_bind. destruct (read_u8 r) as [kind r1]. by destruct (read_u64 r1).
  - apply alike_bind. intros kind. apply alike_bind. intros id.
    eapply alike_trans; [by apply alike_status|apply Hk'].
Qed.

#[export] Instance fail_closed_finish {A} (k : ReaderM (Result A)) : FailClosed (finish_payload k).
Proof. apply _. Qed.

#[export] Instance sticky_status {A} (value : Result A) : Sticky (status_then value).
Proof. by intros r. Qed.
#[export] Instance sticky_read_code : Sticky read_code.
Proof. unfold read_code. apply _. Qed.
#[export] Instance sticky_read_size : Sticky read_size.
Proof. unfold read_size. apply _. Qed.
#[export] Instance sticky_read_frame_dependent : Sticky read_frame_dependent.
Proof. unfold read_frame_dependent. apply _. Qed.

(** ** Decoders as readers of fields *)

Lemma alike_field {A B} (read : ReaderM A) (c : A -> Field) kind ks (k : A -> ReaderM B) (K : list Field -> ReaderM B) :
  read_field kind = (v ← read; mret (c v)) ->
  (forall v, answers_alike (k v) (read_fields ks ≫= fun fs => K (c v :: fs))) ->
  answers_alike (read ≫= k) (read_fields (kind :: ks) ≫= K).
Proof.
  intros Hr Hk. eapply alike_trans; [apply alike_bind, Hk|]. intros r. cbn [read_fields]. rewrite Hr.
  unfold mbind, reader_bind, mret, reader_ret. destruct (read r) as [v r1]. by destruct (read_fields ks r1).
Qed.

Lemma alike_fields_nil {B} (m : ReaderM B) (K : list Field -> ReaderM B) :
  answers_alike m (K []) -> answers_alike m (read_fields [] ≫= K).
Proof. done. Qed.

Lemma alike_code_field {B} ks (k : Result Code -> ReaderM (Result B)) (K : list Field -> ReaderM (Result B)) :
  (forall x, FailClosed (k x)) ->
  (forall raw, answers_alike (k (code_value raw)) (read_fields ks ≫= fun fs => K (FU16 raw :: fs))) ->
  answers_alike (read_code ≫= k) (read_fields (KU16 :: ks) ≫= K).
Proof.
  intros Hc Hk. eapply alike_trans; [by apply alike_read_code; [|apply Hk]|].
  by apply (alike_field read_u16 FU16); [|intros v r].
Qed.

Lemma alike_size_field {B} ks (k : Result Z -> ReaderM (Result B)) (K : list Field -> ReaderM (Result B)) :
  (forall x, FailClosed (k x)) ->
  (forall raw, answers_alike (k (size_value raw)) (read_fields ks ≫= fun fs => K (FU64 raw :: fs))) ->
  answers_alike (read_size ≫= k) (read_fields (KU64 :: ks) ≫= K).
Proof.
  intros Hc Hk. eapply alike_trans; [by apply alike_read_size; [|apply Hk]|].
  by apply (alike_field read_u64 FU64); [|intros v r].
Qed.

Lemma alike_dependent_field {B} ks (k : Result DependentRef -> ReaderM (Result B)) (K : list Field -> ReaderM (Result B)) :
  (forall x, FailClosed (k x)) ->
  (forall kind id, answers_alike (k (dependent_value kind id))
     (read_fields ks ≫= fun fs => K (FU8 kind :: FU64 id :: fs))) ->
  answers_alike (read_frame_dependent ≫= k) (read_fields (KU8 :: KU64 :: ks) ≫= K).
Proof.
  intros Hc Hk. eapply alike_trans; [by apply alike_read_dependent; [|apply Hk]|].
  apply (alike_field read_u8 FU8); [done|intros kind]. by apply (alike_field read_u64 FU64); [|intros v r].
Qed.

Ltac payload_alike :=
  repeat first
    [ apply alike_code_field; [intros; apply _|intros ?]
    | apply alike_size_field; [intros; apply _|intros ?]
    | apply alike_dependent_field; [intros; apply _|intros ? ?]
    | apply (alike_field read_u8 FU8); [done|intros ?]
    | apply (alike_field read_u16 FU16); [done|intros ?]
    | apply (alike_field read_u32 FU32); [done|intros ?]
    | apply (alike_field read_u64 FU64); [done|intros ?]
    | apply (alike_field read_boolean FBool); [done|intros ?]
    | apply (alike_field read_string FString); [done|intros ?] ];
  apply alike_fields_nil; by intros r.

Definition plain_kind (k : FieldKind) : bool := match k with KBlob => false | _ => true end.

Lemma field_bytes_u8 lim f : field_ok lim f -> plain_kind (field_kind f) = true -> Forall in_u8 (field_bytes f).
Proof.
  destruct f as [v|v|v|v|b|bs|s]; simpl; intros Hok Hp; try apply le_bytes_bytes; try discriminate.
  - by constructor.
  - constructor; [|done]. destruct b; ints_lia.
  - apply Forall_app. split; [apply le_bytes_bytes|apply string_bytes_u8].
Qed.

Lemma document_bytes_u8 lim fs : Forall (field_ok lim) fs -> forallb plain_kind (field_kind <$> fs) = true ->
  Forall in_u8 (document_bytes fs).
Proof.
  induction 1 as [|f fs Hf _ IH]; intros Hp; [constructor|]. simpl in Hp. apply andb_true_iff in Hp as [H1 H2].
  apply Forall_app. split; [by apply (field_bytes_u8 lim)|by apply IH].
Qed.

Section fields_codec.
Context {A : Type} (lim budget : Z) (ks : list FieldKind).
Context (interp : list Field -> Result A) (to_fields : A -> list Field) (ok : A -> Prop).
Context (m : ReaderM (Result A)) (encode : A -> list Z).

(** A codec is given by the fields of a value and the value of its fields. *)
Hypothesis plain_kinds : forallb plain_kind ks = true.
Hypothesis small_budget : budget <= kTextBudget.
Hypothesis reads_fields : answers_alike m (read_fields ks ≫= fun fs => finish_payload (mret (interp fs))).
Hypothesis writes_its_fields : forall a, ok a ->
  encode a = bw_bytes (write_fields (to_fields a) (set_limit budget writer_new)).
Hypothesis fields_of_value : forall a, ok a ->
  Forall (field_ok lim) (to_fields a) /\ field_kind <$> to_fields a = ks
  /\ zlen (document_bytes (to_fields a)) <= budget /\ interp (to_fields a) = Value a.
Hypothesis value_of_fields : forall fs a, Forall (field_ok lim) fs -> field_kind <$> fs = ks ->
  interp fs = Value a -> ok a /\ to_fields a = fs.

Lemma encode_fields a : ok a -> encode a = document_bytes (to_fields a).
Proof.
  intros Hok. rewrite writes_its_fields by done. destruct (fields_of_value a Hok) as (Hf & _ & Hb & _).
  destruct (write_fields_spec lim (to_fields a) (set_limit budget writer_new) Hf) as [_ H]; [done| |].
  - cbn [bw_bytes set_limit writer_new bw_limit]. rewrite zlen_nil. pose proof (zlen_nonneg (document_bytes (to_fields a))). lia.
  - cbn [bw_bytes set_limit writer_new bw_limit] in H. rewrite zlen_nil, Z.add_0_l, (proj2 (Z.leb_le _ _) Hb) in H.
    by destruct H as [_ ->].
Qed.

Lemma fields_codec : PayloadCodec ok encode (decode_payload lim m).
Proof.
  split.
  - intros a Hok. rewrite encode_fields by done. unfold decode_payload. rewrite reads_fields.
    destruct (fields_of_value a Hok) as (Hf & Hk & _ & Hi).
    refine (proj1 (document_decode lim (document_bytes (to_fields a)) _ a _)).
    rewrite <- (app_nil_r (document_bytes _)).
    apply (document_bind lim (fun fs => Forall (field_ok lim) fs /\ field_kind <$> fs = ks)); [apply _|done|intros; apply _|].
    apply document_ok, document_end. by intros r.
  - intros a p Hok Hp. rewrite encode_fields in Hp by done. unfold decode_payload. rewrite reads_fields.
    destruct (fields_of_value a Hok) as (Hf & Hk & _).
    pose proof (wire_truncates (WireFormat := wire_fields lim ks) (to_fields a) (conj Hf Hk) [] p Hp) as Ht.
    unfold mbind, reader_bind. change (set_element_limit lim (reader_new p)) with (at_pos lim ([] ++ p) (zlen (@nil Z))).
    destruct (read_fields ks _) as [fs r]. cbn [snd] in Ht. exists (br_failure r). split; [|done].
    apply fail_closed. by apply truncated_not_ok.
  - intros data a Hu. unfold decode_payload. rewrite reads_fields. unfold mbind, reader_bind.
    set (r0 := set_element_limit lim (reader_new data)).
    assert (Hb0 : in_bounds r0) by (split; [done|apply zlen_nonneg]).
    pose proof (canonical_fields lim ks r0 Hb0 Hu eq_refl) as Hr.
    destruct (read_fields ks r0) as [fs r]. unfold finish_payload, check_ok, check_end, require_end.
    destruct (reader_ok r) eqn:Hok; cbn [negb]; [|done].
    destruct (at_end r) eqn:He; cbn [negb].
    2: { intros H. exfalso. pose proof (reader_fail_not_ok Code.Invalid "trailing bytes after the canonical document" r) as Hn.
         unfold reader_ok in Hn. revert H. cbn zeta. by rewrite Hn. }
    change (status_ok success) with true. cbn [negb mret reader_ret fst]. intros Hi.
    destruct Hr as [Hd _ _ Hbytes]. cbn [fst snd] in *. destruct (Hbytes Hok) as [[Hf Hk] Heq].
    destruct (value_of_fields fs a Hf Hk Hi) as [Ha Hto]. split; [done|].
    rewrite encode_fields by done. rewrite Hto. unfold at_end in He. bool_prop.
    rewrite He, Hd in Heq. unfold bytes_from in Heq. cbn [br_offset br_data r0 set_element_limit reader_new] in Heq.
    unfold zlen in Heq. rewrite Nat2Z.id, drop_all, app_nil_r in Heq. by rewrite drop_0 in Heq.
  - intros a Hok. rewrite encode_fields by done. destruct (fields_of_value a Hok) as (Hf & Hk & Hb & _).
    split; [|lia]. apply (document_bytes_u8 lim); [done|by rewrite Hk].
Qed.
End fields_codec.

(** ** Field values *)

Definition known_code (c : Code) : Prop := match c with Code.Unrecognised _ => False | _ => True end.

Lemma code_value_known c : known_code c -> code_value (code_raw c) = Value c /\ in_u16 (code_raw c).
Proof. by destruct c. Qed.

Lemma code_value_inv raw c : in_u16 raw -> code_value raw = Value c -> known_code c /\ code_raw c = raw.
Proof.
  intros Hr. unfold code_value, is_known_code, kLastCode. destruct (raw <=? _) eqn:Hl; [|done]. bool_prop.
  simpl in Hl. intros [= <-]. destruct (code_raw_of_raw raw Hr) as [Hraw Hc]. split; [|done].
  unfold known_code, code_canonical in *. destruct (code_of_raw raw); simpl in *; [done..|lia].
Qed.

Lemma size_value_u64 n : in_u64 n -> size_value n = Value n.
Proof. intros H. unfold size_value, narrow_size. by rewrite (proj2 (Z.ltb_ge _ _)) by ints_lia. Qed.

Lemma size_value_inv raw n : size_value raw = Value n -> raw = n.
Proof. unfold size_value, narrow_size. split_test; [done|]. by intros [= <-]. Qed.

Definition wire_dependent_ok (d : DependentRef) : Prop := dependent_valid d = true /\ in_u64 (dep_id d).

Lemma dependent_value_ok d : wire_dependent_ok d ->
  dependent_value (dependent_kind_raw (dep_kind d)) (dep_id d) = Value d /\ in_u8 (dependent_kind_raw (dep_kind d)).
Proof.
  intros [Hv _]. unfold dependent_value. destruct d as [[] id]; simpl in *; try (by unfold dependent_valid in Hv);
    unfold is_valid_dependent_kind; simpl; rewrite Hv; simpl; (split; [done|ints_lia]).
Qed.

Lemma dependent_value_inv kind id d : in_u64 id -> dependent_value kind id = Value d ->
  wire_dependent_ok d /\ dependent_kind_raw (dep_kind d) = kind /\ dep_id d = id.
Proof.
  intros Hi. unfold dependent_value, is_valid_dependent_kind. destruct (_ && _) eqn:Hk; cbn [negb]; [|done].
  cbn zeta. destruct (dependent_valid _) eqn:Hv; cbn [negb]; [|done]. simpl in Hk. bool_prop.
  intros [= <-]. split; [done|]. split; [|done].
  assert (kind = 1 \/ kind = 2 \/ kind = 3 \/ kind = 4) as [->|[->|[->| ->]]] by lia; done.
Qed.

Lemma source_of_raw_of_source s : evidence_source_of_raw (evidence_source_raw s) = Some s.
Proof. by destruct s. Qed.

Lemma source_raw_of_raw raw : is_valid_evidence_source raw = true ->
  evidence_source_raw (default EvidenceSource.Unknown (evidence_source_of_raw raw)) = raw.
Proof.
  unfold is_valid_evidence_source. simpl. intros H. bool_prop.
  assert (raw = 1 \/ raw = 2 \/ raw = 3 \/ raw = 4 \/ raw = 5 \/ raw = 6)
    as [->|[->|[->|[->|[->| ->]]]]] by lia; done.
Qed.

Definition wire_text (s : string) : Prop := str_size s <= kMaxMessageBytes.

Lemma wire_text_bounded s : wire_text s -> bounded_message s = s.
Proof. intros H. unfold bounded_message. by rewrite (proj2 (Z.leb_le _ _) H). Qed.

Lemma wire_text_field s : wire_text s <-> short kMaxMessageBytes (string_bytes s).
Proof. unfold wire_text, short, kMaxMessageBytes. rewrite length_string_bytes. ints. lia. Qed.

(** ** The codecs *)

(** Give the fields found in a payload their names. *)
Ltac name_fields Hok Hk :=
  repeat match type of Hk with
  | field_kind <$> ?fs = _ :: _ =>
      let f := fresh "f" in let rest := fresh "fs" in
      destruct fs as [|f rest]; [discriminate Hk|];
      rewrite fmap_cons in Hk; apply (inj2 cons) in Hk as [? Hk]; apply Forall_cons in Hok as [? Hok];
      destruct f; try discriminate
  | field_kind <$> ?fs = [] => destruct fs as [|]; [clear Hk Hok|discriminate Hk]
  end; simpl in *.

(** Break the refusals of a decoder down to the values it accepted. *)
Ltac take_value :=
  repeat match goal with
  | |- need (code_value ?raw) _ = Value _ -> _ =>
      let c := fresh "c" in let H := fresh "Hc" in
      destruct (code_value raw) as [c|] eqn:H; [apply code_value_inv in H as [? <-]; [|done]|done]; cbn [need]
  | |- need (size_value ?raw) _ = Value _ -> _ =>
      let n := fresh "n" in let H := fresh "Hn" in
      destruct (size_value raw) as [n|] eqn:H; [apply size_value_inv in H as ->|done]; cbn [need]
  end.

Ltac field_sizes :=
  unfold document_bytes; cbn [fmap list_fmap field_bytes concat];
  rewrite ?zlen_app, ?zlen_cons, ?zlen_nil, ?zlen_le_bytes.

Ltac fields_ok :=
  repeat (apply Forall_cons_2; [cbn [field_ok]; try done|]); try apply Forall_nil_2.

Record hello_request_ok (r : HelloRequest) : Prop := {
  hqo_text : wire_text (hq_principal r);
  hqo_version : in_u16 (hq_format_version r)
}.

#[export] Instance hello_request_codec :
  PayloadCodec hello_request_ok encode_hello_request decode_hello_request.
Proof.
  apply (fields_codec kMaxMessageBytes kTextBudget [KU16; KString]
    (fun fs => match fs with [FU16 v; FString p] => Value (mkHelloRequest p v) | _ => Refused success end)
    (fun r => [FU16 (hq_format_version r); FString (hq_principal r)])).
  - done.
  - done.
  - payload_alike.
  - intros r [Ht _]. unfold encode_hello_request. by rewrite wire_text_bounded.
  - intros [p v] [Ht Hv]. simpl in *. pose proof Ht as Hs%wire_text_field. split; [by fields_ok|].
    split; [done|]. split; [|done]. field_sizes. unfold prefixed. rewrite zlen_app, zlen_le_bytes, length_string_bytes.
    unfold wire_text, kTextBudget, kMaxMessageBytes in *. lia.
  - intros fs a Hok Hk. name_fields Hok Hk. intros [= <-]. split; [|done]. split; [by apply wire_text_field|done].
Qed.

Record hello_response_ok (r : HelloResponse) : Prop := {
  hro_code : known_code (hr_outcome r);
  hro_session : in_u64 (hr_session r);
  hro_epoch : in_u64 (hr_epoch r);
  hro_boot : in_u64 (hr_boot_digest r);
  hro_version : in_u32 (hr_format_version r);
  hro_max : in_u32 (hr_max_payload r);
  hro_authority : hr_outcome r = Code.Ok -> id_valid (hr_session r) = true /\ id_valid (hr_epoch r) = true
}.

#[export] Instance hello_response_codec :
  PayloadCodec hello_response_ok encode_hello_response decode_hello_response.
Proof.
  apply (fields_codec kDefaultElements kFixedPayloadBudget [KU16; KU64; KU64; KU64; KU32; KU32]
    (fun fs => match fs with
       | [FU16 o; FU64 s; FU64 e; FU64 b; FU32 v; FU32 m] => hello_response_value (code_value o) s e b v m
       | _ => Refused success end)
    (fun r => [FU16 (code_raw (hr_outcome r)); FU64 (hr_session r); FU64 (hr_epoch r); FU64 (hr_boot_digest r);
               FU32 (hr_format_version r); FU32 (hr_max_payload r)])).
  - done.
  - done.
  - payload_alike.
  - done.
  - intros [s e b v m o] [Hc ? ? ? ? ? Ha]. simpl in *. destruct (code_value_known o Hc) as [Hv ?].
    split; [by fields_ok|]. split; [done|]. split; [by field_sizes|].
    unfold hello_response_value. rewrite Hv. cbn [need]. case_bool_decide as Ho; [|done].
    by destruct (Ha Ho) as [-> ->].
  - intros fs a Hok Hk. name_fields Hok Hk. unfold hello_response_value. take_value.
    destruct (bool_decide _ && _) eqn:Ht; [done|]. intros [= <-]. split; [|done]. split; try done. simpl.
    intros ->. rewrite bool_decide_true in Ht by done. simpl in Ht. bool_prop. done.
Qed.

(** The two queries share their payload. *)
Lemma dependent_codec : PayloadCodec wire_dependent_ok encode_authority_query decode_authority_query.
Proof.
  apply (fields_codec kDefaultElements kFixedPayloadBudget [KU8; KU64]
    (fun fs => match fs with [FU8 k; FU64 i] => need (dependent_value k i) Value | _ => Refused success end)
    (fun d => [FU8 (dependent_kind_raw (dep_kind d)); FU64 (dep_id d)])).
  - done.
  - done.
  - payload_alike.
  - done.
  - intros d Hd. destruct (dependent_value_ok d Hd) as [Hv ?]. destruct Hd.
    split; [by fields_ok|]. split; [done|]. split; [by field_sizes|]. by rewrite Hv.
  - intros fs a Hok Hk. name_fields Hok Hk. destruct (dependent_value _ _) as [d|] eqn:Hv; [|done].
    intros [= <-]. apply dependent_value_inv in Hv as (? & <- & <-); done.
Qed.

#[export] Instance authority_query_codec :
  PayloadCodec wire_dependent_ok encode_authority_query decode_authority_query := dependent_codec.
#[export] Instance restore_query_codec :
  PayloadCodec wire_dependent_ok encode_restore_query decode_restore_query := dependent_codec.
#[export] Typeclasses Opaque encode_authority_query decode_authority_query encode_restore_query
  decode_restore_query.

Record authority_response_ok (r : AuthorityQueryResponse) : Prop := {
  aro_outcome : known_code (qr_outcome r);
  aro_reason : known_code (qr_reason r);
  aro_active : in_u64 (qr_active_grants r);
  aro_withdrawn : in_u64 (qr_withdrawn_grants r);
  aro_fenced : in_u64 (qr_fenced_generations r);
  aro_digest : in_u64 (qr_digest r)
}.

#[export] Instance authority_response_codec :
  PayloadCodec authority_response_ok encode_authority_response decode_authority_response.
Proof.
  apply (fields_codec kDefaultElements kFixedPayloadBudget [KU16; KU16; KBool; KU64; KU64; KU64; KU64]
    (fun fs => match fs with
       | [FU16 o; FU16 e; FBool h; FU64 a; FU64 w; FU64 f; FU64 d] =>
           need (code_value o) (fun o => need (code_value e) (fun e => need (size_value a) (fun a =>
           need (size_value w) (fun w => need (size_value f) (fun f => Value (mkAuthorityResponse o e h a w f d))))))
       | _ => Refused success end)
    (fun r => [FU16 (code_raw (qr_outcome r)); FU16 (code_raw (qr_reason r)); FBool (qr_has_authority r);
               FU64 (qr_active_grants r); FU64 (qr_withdrawn_grants r); FU64 (qr_fenced_generations r);
               FU64 (qr_digest r)])).
  - done.
  - done.
  - payload_alike.
  - done.
  - intros [o e h a w f d] [Ho He ? ? ? ?]. simpl in *. destruct (code_value_known o Ho) as [Hvo ?].
    destruct (code_value_known e He) as [Hve ?]. split; [by fields_ok|]. split; [done|]. split; [by field_sizes|].
    rewrite Hvo, Hve, !size_value_u64 by done. done.
  - intros fs a Hok Hk. name_fields Hok Hk. take_value. by intros [= <-].
Qed.

Record failover_request_ok (r : FailoverRequest) : Prop := {
  fqo_id : in_u64 (sk_id (fq_subject r));
  fqo_generation : in_u64 (sk_generation (fq_subject r));
  fqo_subject : key_valid (fq_subject r) = true;
  fqo_source : fq_source r <> EvidenceSource.Unknown;
  fqo_observed : in_u64 (fq_observed_at_ns r);
  fqo_valid : in_u64 (fq_valid_for_ns r);
  fqo_reason : wire_text (fq_reason r)
}.

#[export] Instance failover_request_codec :
  PayloadCodec failover_request_ok encode_failover_request decode_failover_request.
Proof.
  apply (fields_codec kMaxMessageBytes kTextBudget [KU64; KU64; KU8; KU64; KU64; KString]
    (fun fs => match fs with
       | [FU64 i; FU64 g; FU8 s; FU64 o; FU64 v; FString t] => failover_request_value i g s o v t
       | _ => Refused success end)
    (fun r => [FU64 (sk_id (fq_subject r)); FU64 (sk_generation (fq_subject r)); FU8 (evidence_source_raw (fq_source r));
               FU64 (fq_observed_at_ns r); FU64 (fq_valid_for_ns r); FString (fq_reason r)])).
  - done.
  - done.
  - payload_alike.
  - intros r [_ _ _ _ _ _ Ht]. unfold encode_failover_request. by rewrite wire_text_bounded.
  - intros [[i g] s o v t] [? ? Hv Hs ? ? Ht]. simpl in *. pose proof Ht as Hf%wire_text_field.
    assert (is_valid_evidence_source (evidence_source_raw s) = true /\ in_u8 (evidence_source_raw s)) as [He ?].
    { destruct s; try done; split; try done; split; vm_compute; congruence. }
    split; [by fields_ok|]. split; [done|]. split.
    + field_sizes. unfold prefixed. rewrite zlen_app, zlen_le_bytes, length_string_bytes.
      unfold wire_text, kTextBudget, kMaxMessageBytes in *. lia.
    + unfold failover_request_value. by rewrite He, source_of_raw_of_source, Hv.
  - intros fs a Hok Hk. name_fields Hok Hk. unfold failover_request_value.
    destruct (is_valid_evidence_source _) eqn:He; cbn [negb]; [|done]. cbn zeta.
    destruct (key_valid _) eqn:Hv; cbn [negb]; [|done]. intros [= <-]. simpl.
    rewrite source_raw_of_raw by done. split; [|done]. split; simpl; try done; [|by apply wire_text_field].
    intros Hs. pose proof (source_raw_of_raw _ He) as Hr. rewrite Hs in Hr. simpl in Hr. by rewrite <- Hr in He.
Qed.

Record failover_response_ok (r : FailoverResponse) : Prop := {
  fpo_outcome : known_code (fp_outcome r);
  fpo_fence : in_u64 (fp_fence_id r);
  fpo_scope : in_u32 (fp_fence_scope r);
  fpo_members : in_u64 (fp_closure_members r);
  fpo_grants : in_u64 (fp_grants_fenced r);
  fpo_digest : in_u64 (fp_closure_digest r)
}.

#[export] Instance failover_response_codec :
  PayloadCodec failover_response_ok encode_failover_response decode_failover_response.
Proof.
  apply (fields_codec kDefaultElements kFixedPayloadBudget [KU16; KU64; KU32; KBool; KU64; KU64; KU64]
    (fun fs => match fs with
       | [FU16 o; FU64 i; FU32 s; FBool c; FU64 m; FU64 g; FU64 d] =>
           need (code_value o) (fun o => need (size_value m) (fun m => need (size_value g) (fun g =>
           Value (mkFailoverResponse o i s c m g d))))
       | _ => Refused success end)
    (fun r => [FU16 (code_raw (fp_outcome r)); FU64 (fp_fence_id r); FU32 (fp_fence_scope r);
               FBool (fp_closure_complete r); FU64 (fp_closure_members r); FU64 (fp_grants_fenced r);
               FU64 (fp_closure_digest r)])).
  - done.
  - done.
  - payload_alike.
  - done.
  - intros [o i s c m g d] [Ho ? ? ? ? ?]. simpl in *. destruct (code_value_known o Ho) as [Hvo ?].
    split; [by fields_ok|]. split; [done|]. split; [by field_sizes|]. by rewrite Hvo, !size_value_u64 by done.
  - intros fs a Hok Hk. name_fields Hok Hk. take_value. by intros [= <-].
Qed.

Record restore_response_ok (r : RestoreQueryResponse) : Prop := {
  rqo_outcome : known_code (rq_outcome r);
  rqo_reason : known_code (rq_reason r);
  rqo_blocking : in_u64 (rq_blocking_generations r)
}.

#[export] Instance restore_response_codec :
  PayloadCodec restore_response_ok encode_restore_response decode_restore_response.
Proof.
  apply (fields_codec kDefaultElements kFixedPayloadBudget [KU16; KU16; KBool; KBool; KU64]
    (fun fs => match fs with
       | [FU16 o; FU16 e; FBool m; FBool v; FU64 b] =>
           need (code_value o) (fun o => need (code_value e) (fun e => need (size_value b) (fun b =>
           Value (mkRestoreResponse o e m v b))))
       | _ => Refused success end)
    (fun r => [FU16 (code_raw (rq_outcome r)); FU16 (code_raw (rq_reason r)); FBool (rq_may_restore r);
               FBool (rq_effect_verified r); FU64 (rq_blocking_generations r)])).
  - done.
  - done.
  - payload_alike.
  - done.
  - intros [o e m v b] [Ho He ?]. simpl in *. destruct (code_value_known o Ho) as [Hvo ?].
    destruct (code_value_known e He) as [Hve ?]. split; [by fields_ok|]. split; [done|]. split; [by field_sizes|].
    by rewrite Hvo, Hve, !size_value_u64 by done.
  - intros fs a Hok Hk. name_fields Hok Hk. take_value. by intros [= <-].
Qed.

Record snapshot_response_ok (r : SnapshotResponse) : Prop := {
  spo_outcome : known_code (sp_outcome r);
  spo_epoch : in_u64 (sp_epoch r);
  spo_ordinal : in_u64 (sp_boot_ordinal r);
  spo_switches : in_u64 (sp_switches r);
  spo_fences : in_u64 (sp_fences r);
  spo_failures : in_u64 (sp_failures r);
  spo_grants : in_u64 (sp_active_grants r);
  spo_events : in_u64 (sp_retained_events r)
}.

#[export] Instance snapshot_response_codec :
  PayloadCodec snapshot_response_ok encode_snapshot_response decode_snapshot_response.
Proof.
  apply (fields_codec kDefaultElements kFixedPayloadBudget [KU16; KU64; KU64; KU64; KU64; KU64; KU64; KU64; KBool]
    (fun fs => match fs with
       | [FU16 o; FU64 e; FU64 b; FU64 s; FU64 n; FU64 f; FU64 g; FU64 v; FBool d] =>
           need (code_value o) (fun o => need (size_value s) (fun s => need (size_value n) (fun n =>
           need (size_value f) (fun f => need (size_value g) (fun g => need (size_value v) (fun v =>
           Value (mkSnapshotResponse o e b s n f g v d)))))))
       | _ => Refused success end)
    (fun r => [FU16 (code_raw (sp_outcome r)); FU64 (sp_epoch r); FU64 (sp_boot_ordinal r); FU64 (sp_switches r);
               FU64 (sp_fences r); FU64 (sp_failures r); FU64 (sp_active_grants r); FU64 (sp_retained_events r);
               FBool (sp_durability_enabled r)])).
  - done.
  - done.
  - payload_alike.
  - done.
  - intros [o e b s n f g v d] [Ho ? ? ? ? ? ? ?]. simpl in *. destruct (code_value_known o Ho) as [Hvo ?].
    split; [by fields_ok|]. split; [done|]. split; [by field_sizes|]. by rewrite Hvo, !size_value_u64 by done.
  - intros fs a Hok Hk. name_fields Hok Hk. take_value. by intros [= <-].
Qed.

Definition error_payload_ok (e : Code * string) : Prop := known_code e.1 /\ wire_text e.2.

Definition error_payload (e : Code * string) : list Z := encode_error_payload e.1 e.2.

#[export] Instance error_payload_codec : PayloadCodec error_payload_ok error_payload decode_error_payload.
Proof.
  apply (fields_codec kMaxMessageBytes kTextBudget [KU16; KString]
    (fun fs => match fs with
       | [FU16 c; FString t] => need (code_value c) (fun c => Value (c, t)) | _ => Refused success end)
    (fun e => [FU16 (code_raw e.1); FString e.2])).
  - done.
  - done.
  - payload_alike.
  - intros [c t] [_ Ht]. unfold error_payload, encode_error_payload. simpl in *. by rewrite wire_text_bounded.
  - intros [c t] [Hc Ht]. simpl in *. destruct (code_value_known c Hc) as [Hv ?]. pose proof Ht as Hs%wire_text_field.
    split; [by fields_ok|]. split; [done|]. split; [|by rewrite Hv].
    field_sizes. unfold prefixed. rewrite zlen_app, zlen_le_bytes, length_string_bytes.
    unfold wire_text, kTextBudget, kMaxMessageBytes in *. lia.
  - intros fs a Hok Hk. name_fields Hok Hk. take_value. intros [= <-]. split; [|done]. split; [done|].
    by apply wire_text_field.
Qed.

(** * The protocol *)

(** The messages with a payload of their own. *)
Inductive Message :=
| MHello (request : HelloRequest)
| MHelloAck (response : HelloResponse)
| MQueryAuthority (dependent : DependentRef)
| MAuthorityResult (response : AuthorityQueryResponse)
| MDeclareFailure (request : FailoverRequest)
| MFailoverResult (response : FailoverResponse)
| MQueryRestore (dependent : DependentRef)
| MRestoreResult (response : RestoreQueryResponse)
| MSnapshotResult (response : SnapshotResponse)
| MError (error : Code * string).

Definition message_type (m : Message) : MessageType :=
  match m with
  | MHello _ => MessageType.Hello | MHelloAck _ => MessageType.HelloAck
  | MQueryAuthority _ => MessageType.QueryAuthority | MAuthorityResult _ => MessageType.AuthorityResult
  | MDeclareFailure _ => MessageType.DeclareFailure | MFailoverResult _ => MessageType.FailoverResult
  | MQueryRestore _ => MessageType.QueryRestore | MRestoreResult _ => MessageType.RestoreResult
  | MSnapshotResult _ => MessageType.SnapshotResult | MError _ => MessageType.Error
  end.

Definition message_payload (m : Message) : list Z :=
  match m with
  | MHello r => encode_hello_request r | MHelloAck r => encode_hello_response r
  | MQueryAuthority d => encode_authority_query d | MAuthorityResult r => encode_authority_response r
  | MDeclareFailure r => encode_failover_request r | MFailoverResult r => encode_failover_response r
  | MQueryRestore d => encode_restore_query d | MRestoreResult r => encode_restore_response r
  | MSnapshotResult r => encode_snapshot_response r | MError e => error_payload e
  end.

Definition message_ok (m : Message) : Prop :=
  match m with
  | MHello r => hello_request_ok r | MHelloAck r => hello_response_ok r
  | MQueryAuthority d => wire_dependent_ok d | MAuthorityResult r => authority_response_ok r
  | MDeclareFailure r => failover_request_ok r | MFailoverResult r => failover_response_ok r
  | MQueryRestore d => wire_dependent_ok d | MRestoreResult r => restore_response_ok r
  | MSnapshotResult r => snapshot_response_ok r | MError e => error_payload_ok e
  end.

(** The decoder a receiver picks by the type of the frame. *)
Definition decode_message (type : Z) (payload : list Z) : Result Message :=
  match type with
  | 1 => need (decode_hello_request payload) (fun r => Value (MHello r))
  | 2 => need (decode_hello_response payload) (fun r => Value (MHelloAck r))
  | 3 => need (decode_authority_query payload) (fun d => Value (MQueryAuthority d))
  | 4 => need (decode_authority_response payload) (fun r => Value (MAuthorityResult r))
  | 5 => need (decode_failover_request payload) (fun r => Value (MDeclareFailure r))
  | 6 => need (decode_failover_response payload) (fun r => Value (MFailoverResult r))
  | 11 => need (decode_restore_query payload) (fun d => Value (MQueryRestore d))
  | 12 => need (decode_restore_response payload) (fun r => Value (MRestoreResult r))
  | 14 => need (decode_snapshot_response payload) (fun r => Value (MSnapshotResult r))
  | 15 => need (decode_error_payload payload) (fun e => Value (MError e))
  | _ => Refused (failure Code.Unsupported "no payload of its own")
  end.

(** What every message inherits from the codec of its payload. *)
#[export] Instance message_codec (ty : MessageType) :
  PayloadCodec (fun m => message_ok m /\ message_type m = ty) message_payload (decode_message (message_type_raw ty)).
Proof.
  split.
  - intros m [Hok <-]. destruct m; cbn [message_type message_type_raw decode_message message_payload message_ok] in *;
      by rewrite (codec_roundtrip _ Hok).
  - intros m p [Hok <-] Hp.
    destruct m; cbn [message_type message_type_raw decode_message message_payload message_ok] in *;
      destruct (codec_truncated _ p Hok Hp) as (s & -> & ?); by exists s.
  - intros data m Hu Hd. destruct ty; cbn [message_type_raw decode_message] in Hd; try discriminate Hd;
      (match type of Hd with need ?d _ = _ => destruct d eqn:He end; [|discriminate Hd]);
      cbn [need] in Hd; injection Hd as <-;
      destruct (codec_canonical _ _ Hu He) as [Hok Hdata]; (split; [split; [exact Hok|reflexivity]|exact Hdata]).
  - intros m [Hok _]. destruct m; cbn [message_payload message_ok] in *; exact (codec_bytes _ Hok).
Qed.

(** The frame that carries a message under a header. *)
Definition frame_of (h : FrameHeader) (m : Message) : Frame :=
  mkFrame (mkFrameHeader kFrameMagic kFrameFormatVersion (message_type_raw (message_type m)) (fh_flags h)
             (fh_session h) (fh_epoch h) (fh_boot_digest h) (fh_request_seq h) 0 0)
    (message_payload m) 0.

Lemma frame_of_ok h m : frame_header_range h -> message_ok m -> frame_ok (frame_of h m).
Proof.
  intros [_ _ ? ? ? ? ?] Hm.
  assert (in_u16 (message_type_raw (message_type m))) by (destruct (message_type m); split; vm_compute; congruence).
  assert (in_u16 kFrameFormatVersion) by (split; vm_compute; congruence). split; simpl.
  - by split.
  - done.
  - by destruct m.
  - by apply (codec_bytes (ok := fun m' => message_ok m' /\ message_type m' = message_type m)).
Qed.

Lemma frame_of_encodes h m limits : message_ok m -> kTextBudget <= max_frame_payload limits ->
  exists bs, encode_frame (frame_of h m) limits = Value bs.
Proof.
  intros Hm Hl. unfold encode_frame. cbn [fm_payload frame_of].
  destruct (codec_bytes (ok := fun m' => message_ok m' /\ message_type m' = message_type m) m) as [_ Hz]; [done|].
  rewrite (proj2 (Z.ltb_ge _ _)); [by eexists|]. unfold frame_payload_ceiling.
  change kHardMaxFramePayload with 16777216. change kTextBudget with 576 in *. lia.
Qed.

Lemma frames_encode limits (ms : list (FrameHeader * Message)) :
  Forall (fun p => frame_header_range p.1 /\ message_ok p.2) ms -> kTextBudget <= max_frame_payload limits ->
  exists bss, encodings limits ((fun p => frame_of p.1 p.2) <$> ms) bss.
Proof.
  intros Hall Hl. induction Hall as [|[h m] ms [Hh Hm] _ [bss IH]]; [by exists []; constructor|].
  destruct (frame_of_encodes h m limits Hm Hl) as [bs Hbs]. exists (bs :: bss). constructor; [|done].
  split; [by apply frame_of_ok|done].
Qed.

(** ** Properties *)

(** Each of the payload codecs is a bijection between the values of its
    message and the byte strings it accepts: a well-formed value is decoded
    again from its encoding, a payload cut anywhere is refused as Truncated,
    and an accepted payload is byte for byte the encoding of a well-formed
    value, so no two payloads mean the same and nothing is left over. *)
Theorem message_payload_canonical (m : Message) (payload : list Z) :
  (message_ok m ->
     decode_message (message_type_raw (message_type m)) (message_payload m) = Value m
     /\ forall p, strict_prefix p (message_payload m) ->
        exists s, decode_message (message_type_raw (message_type m)) p = Refused s /\ status_code s = Code.Truncated)
  /\ (Forall in_u8 payload ->
      decode_message (message_type_raw (message_type m)) payload = Value m ->
      message_ok m /\ message_payload m = payload).
Proof.
  split.
  - intros Hok. split; [by apply codec_roundtrip|]. intros p Hp. by eapply codec_truncated.
  - intros Hu Hd. by apply codec_canonical in Hd as [[? _] ?].
Qed.

(** The protocol end to end: well-formed messages under headers of their
    widths always encode when the frame bound leaves room for the largest text
    payload; whatever way the network cuts their bytes into chunks of at most
    one largest frame, the receiver takes out one frame per message, in order,
    each carrying the authority binding it was sent under and a payload that
    decodes to the message, and is left with an empty buffer. *)
Theorem messages_delivered (limits : Limits) (ms : list (FrameHeader * Message)) :
  Forall (fun p => frame_header_range p.1 /\ message_ok p.2) ms -> kTextBudget <= max_frame_payload limits ->
  exists bss, Forall2 (fun p bs => encode_frame (frame_of p.1 p.2) limits = Value bs) ms bss
  /\ forall chunks, Forall (fun c => zlen c <= frame_bytes_max limits) chunks -> concat chunks = concat bss ->
     exists fs, stream_run chunks (stream_new limits) = (fs, success, stream_new limits)
     /\ ((fun f => decode_message (fh_type (fm_header f)) (fm_payload f)) <$> fs) = Value ∘ snd <$> ms
     /\ ((fun f => frame_binding (fm_header f)) <$> fs) = frame_binding ∘ fst <$> ms.
Proof.
  intros Hall Hl. destruct (frames_encode limits ms Hall Hl) as [bss Henc]. exists bss. split.
  - apply Forall2_fmap_l in Henc. eapply Forall2_impl; [done|]. by intros [h m] bs [_ ?].
  - intros chunks Hc Hcat. exists (sealed_frame <$> ((fun p => frame_of p.1 p.2) <$> ms)). split.
    + apply (stream_run_conforming limits chunks _ bss []); [change kTextBudget with 576 in Hl; lia|done| |done|done].
      destruct Henc as [|f bs fs bss' [_ Hf] _]; [done|]. exists bs.
      destruct (encode_frame_value _ _ _ Hf) as (-> & _). done.
    + rewrite <- !list_fmap_compose. split; [|by apply list_fmap_ext].
      apply list_fmap_ext. intros i [h m] Hi. apply (Forall_lookup_1 _ _ _ _ Hall) in Hi as [_ Hm]. simpl.
      by apply (codec_roundtrip (PayloadCodec := message_codec (message_type m))).
Qed.

(** ** A concrete exchange *)

Definition sample_hello : Message := MHello (mkHelloRequest "operator" 1).
Definition sample_query : Message := MQueryAuthority (dependent_port 9).

Definition sample_exchange : list (FrameHeader * Message) :=
  [(mkFrameHeader 0 0 0 0 0 0 0 1 0 0, sample_hello); (mkFrameHeader 0 0 0 3 1 5 77 2 0 0, sample_query)].

Lemma sample_hello_ok : message_ok sample_hello.
Proof. split; [vm_compute; congruence|split; vm_compute; congruence]. Qed.

Lemma message_payload_canonical_witness :
  decode_message 1 [1; 0; 8; 0; 0; 0; 111; 112; 101; 114; 97; 116; 111; 114] = Value sample_hello
  /\ message_payload sample_hello = [1; 0; 8; 0; 0; 0; 111; 112; 101; 114; 97; 116; 111; 114].
Proof.
  destruct (message_payload_canonical sample_hello [1; 0; 8; 0; 0; 0; 111; 112; 101; 114; 97; 116; 111; 114])
    as [Hto Hfrom].
  destruct (Hfrom ltac:(repeat constructor; vm_compute; congruence) ltac:(vm_compute; reflexivity)) as [Hok Heq].
  split; [|exact Heq]. rewrite <- Heq. exact (proj1 (Hto Hok)).
Defined.

Lemma messages_delivered_witness :
  exists bss, Forall2 (fun p bs => encode_frame (frame_of p.1 p.2) limits_defaults = Value bs) sample_exchange bss.
Proof.
  destruct (messages_delivered limits_defaults sample_exchange) as (bss & Henc & _);
    [|vm_compute; congruence|exists bss; exact Henc].
  constructor; [|constructor; [|constructor]]; (split; [split; simpl; ints_lia|]);
    [apply sample_hello_ok|split; [reflexivity|split; vm_compute; congruence]].
Defined.
