(* ===== verification/Coordinator.v ===== *)
(** The coordinator runtime (include/sff/runtime/coordinator.hpp,
    src/runtime/coordinator_impl.hpp, src/runtime/coordinator.cpp): its state,
    the operations that install inputs, manage sessions and stop the runtime,
    and the reconciliation of the durable journal when it is opened.

    Every public method that changes the state holds the coordinator mutex from
    before it reads the state to its end, so a method is one step of the state:
    a function of the monad [Op]. [shutdown] does not take the mutex; it is
    modelled as one step too, so its interleaving with a method that already
    passed [ensure_running] is not covered. A method may refuse after it changed
    the state, so a refusal carries the state too. What the operating system
    answers is the class [World]. *)

From S2P Require Import Prelude Containers Core Generation Switch Authority Evidence Topology Bytes Integrity Records.
From S2P Require Import Journal Wire Decision Plan Policy Payloads Candidates Planner Validator Session.

(** * Data *)

Record CoordinatorConfig := mkConfig {
  cc_limits : Limits;
  cc_policy : Policy;
  cc_durable_root : list string;
  cc_enable_durability : bool;
  cc_evidence_class : EvidenceClass;
  cc_event_capacity : Z;
  cc_decision_capacity : Z;
  cc_boot_ordinal : Z
}.

Definition config_defaults : CoordinatorConfig :=
  mkConfig limits_defaults policy_defaults [] false EvidenceClass.Synthetic 4096 1024 0.

Record RestartReport := mkRestart {
  rr_recovered : bool;
  rr_clean_previous_shutdown : bool;
  rr_torn_tail_truncated : bool;
  rr_records_replayed : Z;
  rr_corrupt_records : Z;
  rr_torn_records : Z;
  rr_unsupported_records : Z;
  rr_previous_epoch : Z;
  rr_current_epoch : Z;
  rr_previous_boot : BootIncarnation;
  rr_current_boot : BootIncarnation;
  rr_failures_restored : Z;
  rr_fences_restored : Z;
  rr_grants_invalidated : Z;
  rr_grants_fenced : Z;
  rr_plans_restored : Z;
  rr_sessions_invalidated : Z;
  rr_dynamic_evidence_restored : bool;
  rr_notes : list string;
  rr_status : Status
}.

Definition restart_none : RestartReport :=
  mkRestart false false false 0 0 0 0 0 0 boot_none boot_none 0 0 0 0 0 0 false [] success.

Definition restart_digest (r : RestartReport) : Z :=
  dig_hi
    (absorb_bool (rr_dynamic_evidence_restored r)
      (absorb_u64 (rr_plans_restored r)
        (absorb_u64 (rr_grants_invalidated r)
          (absorb_u64 (rr_fences_restored r)
            (absorb_u64 (rr_failures_restored r)
              (absorb_u64 (boot_ordinal (rr_current_boot r))
                (absorb_u64 (boot_ordinal (rr_previous_boot r))
                  (absorb_u64 (rr_current_epoch r)
                    (absorb_u64 (rr_previous_epoch r)
                      (absorb_u64 (rr_torn_records r)
                        (absorb_u64 (rr_corrupt_records r)
                          (absorb_u64 (rr_records_replayed r)
                            (absorb_bool (rr_torn_tail_truncated r)
                              (absorb_bool (rr_clean_previous_shutdown r)
                                (absorb_bool (rr_recovered r)
                                  (absorb_string "sff.restart-report.v1" digest_init)))))))))))))))).

Abbreviation PlanTable := (list (Z * ReconstructionPlan)).
Abbreviation StepTable := (list ((DependentRef * SwitchKey) * ApplyStepResult)).

(** What the runtime reads from its environment: the clock's successive
    readings, the answers of the file system and the entropy of a boot. *)
Class World := {
  has_clock : bool;
  clock_at : nat -> Z;
  path_resolve : list string -> option (list string);
  open_answer : OpenIo;
  write_answer : nat -> WriteIo;
  sync_answer : bool;
  close_answer : bool;
  random_word : nat -> Z;
  steady_ns : Z;
  process_id : Z
}.

(** [Coordinator::Impl], with the disk its store writes to, the number of
    writes issued and the number of clock readings taken. *)
Record Coordinator := mkCoordinator {
  co_config : CoordinatorConfig;
  co_store : option DurableStore;
  co_disk : Disk;
  co_writes : nat;
  co_ticks : nat;
  co_epoch : Z;
  co_boot : BootIncarnation;
  co_boot_digest : Z;
  co_policy : Policy;
  co_limits : Limits;
  co_events : EventLog;
  co_decisions : DecisionLog;
  co_sessions : SessionRegistry;
  co_evidence : EvidenceStore;
  co_failures : FailureTable;
  co_authority : AuthorityRegistry;
  co_topology_present : bool;
  co_topology : TopologySnapshot;
  co_candidates : CandidateTable;
  co_plans : PlanTable;
  co_apply_steps : StepTable;
  co_restart : RestartReport;
  co_next_plan : Z;
  co_next_evidence : Z;
  co_candidates_present : bool;
  co_stopped : bool
}.

(** Assignments to members. *)
Definition with_durable (c : Coordinator) (store : option DurableStore) (disk : Disk) (writes : nat) : Coordinator :=
  mkCoordinator (co_config c) store disk writes (co_ticks c) (co_epoch c) (co_boot c) (co_boot_digest c)
    (co_policy c) (co_limits c) (co_events c) (co_decisions c) (co_sessions c) (co_evidence c) (co_failures c)
    (co_authority c) (co_topology_present c) (co_topology c) (co_candidates c) (co_plans c) (co_apply_steps c)
    (co_restart c) (co_next_plan c) (co_next_evidence c) (co_candidates_present c) (co_stopped c).
Definition with_ticks (c : Coordinator) (ticks : nat) : Coordinator :=
  mkCoordinator (co_config c) (co_store c) (co_disk c) (co_writes c) ticks (co_epoch c) (co_boot c)
    (co_boot_digest c) (co_policy c) (co_limits c) (co_events c) (co_decisions c) (co_sessions c) (co_evidence c)
    (co_failures c) (co_authority c) (co_topology_present c) (co_topology c) (co_candidates c) (co_plans c)
    (co_apply_steps c) (co_restart c) (co_next_plan c) (co_next_evidence c) (co_candidates_present c) (co_stopped
    c).
Definition with_identity (c : Coordinator) (epoch : Z) (boot : BootIncarnation) : Coordinator :=
  mkCoordinator (co_config c) (co_store c) (co_disk c) (co_writes c) (co_ticks c) epoch boot (co_boot_digest c)
    (co_policy c) (co_limits c) (co_events c) (co_decisions c) (co_sessions c) (co_evidence c) (co_failures c)
    (co_authority c) (co_topology_present c) (co_topology c) (co_candidates c) (co_plans c) (co_apply_steps c)
    (co_restart c) (co_next_plan c) (co_next_evidence c) (co_candidates_present c) (co_stopped c).
Definition with_boot_digest (c : Coordinator) (boot_digest : Z) : Coordinator :=
  mkCoordinator (co_config c) (co_store c) (co_disk c) (co_writes c) (co_ticks c) (co_epoch c) (co_boot c)
    boot_digest (co_policy c) (co_limits c) (co_events c) (co_decisions c) (co_sessions c) (co_evidence c)
    (co_failures c) (co_authority c) (co_topology_present c) (co_topology c) (co_candidates c) (co_plans c)
    (co_apply_steps c) (co_restart c) (co_next_plan c) (co_next_evidence c) (co_candidates_present c) (co_stopped
    c).
Definition with_policy (c : Coordinator) (policy : Policy) : Coordinator :=
  mkCoordinator (co_config c) (co_store c) (co_disk c) (co_writes c) (co_ticks c) (co_epoch c) (co_boot c)
    (co_boot_digest c) policy (co_limits c) (co_events c) (co_decisions c) (co_sessions c) (co_evidence c)
    (co_failures c) (co_authority c) (co_topology_present c) (co_topology c) (co_candidates c) (co_plans c)
    (co_apply_steps c) (co_restart c) (co_next_plan c) (co_next_evidence c) (co_candidates_present c) (co_stopped
    c).
Definition with_events (c : Coordinator) (events : EventLog) : Coordinator :=
  mkCoordinator (co_config c) (co_store c) (co_disk c) (co_writes c) (co_ticks c) (co_epoch c) (co_boot c)
    (co_boot_digest c) (co_policy c) (co_limits c) events (co_decisions c) (co_sessions c) (co_evidence c)
    (co_failures c) (co_authority c) (co_topology_present c) (co_topology c) (co_candidates c) (co_plans c)
    (co_apply_steps c) (co_restart c) (co_next_plan c) (co_next_evidence c) (co_candidates_present c) (co_stopped
    c).
Definition with_decisions (c : Coordinator) (decisions : DecisionLog) : Coordinator :=
  mkCoordinator (co_config c) (co_store c) (co_disk c) (co_writes c) (co_ticks c) (co_epoch c) (co_boot c)
    (co_boot_digest c) (co_policy c) (co_limits c) (co_events c) decisions (co_sessions c) (co_evidence c)
    (co_failures c) (co_authority c) (co_topology_present c) (co_topology c) (co_candidates c) (co_plans c)
    (co_apply_steps c) (co_restart c) (co_next_plan c) (co_next_evidence c) (co_candidates_present c) (co_stopped
    c).
Definition with_session_table (c : Coordinator) (sessions : SessionRegistry) : Coordinator :=
  mkCoordinator (co_config c) (co_store c) (co_disk c) (co_writes c) (co_ticks c) (co_epoch c) (co_boot c)
    (co_boot_digest c) (co_policy c) (co_limits c) (co_events c) (co_decisions c) sessions (co_evidence c)
    (co_failures c) (co_authority c) (co_topology_present c) (co_topology c) (co_candidates c) (co_plans c)
    (co_apply_steps c) (co_restart c) (co_next_plan c) (co_next_evidence c) (co_candidates_present c) (co_stopped
    c).
Definition with_evidence (c : Coordinator) (evidence : EvidenceStore) : Coordinator :=
  mkCoordinator (co_config c) (co_store c) (co_disk c) (co_writes c) (co_ticks c) (co_epoch c) (co_boot c)
    (co_boot_digest c) (co_policy c) (co_limits c) (co_events c) (co_decisions c) (co_sessions c) evidence
    (co_failures c) (co_authority c) (co_topology_present c) (co_topology c) (co_candidates c) (co_plans c)
    (co_apply_steps c) (co_restart c) (co_next_plan c) (co_next_evidence c) (co_candidates_present c) (co_stopped
    c).
Definition with_failures (c : Coordinator) (failures : FailureTable) : Coordinator :=
  mkCoordinator (co_config c) (co_store c) (co_disk c) (co_writes c) (co_ticks c) (co_epoch c) (co_boot c)
    (co_boot_digest c) (co_policy c) (co_limits c) (co_events c) (co_decisions c) (co_sessions c) (co_evidence c)
    failures (co_authority c) (co_topology_present c) (co_topology c) (co_candidates c) (co_plans c) (co_apply_steps
    c) (co_restart c) (co_next_plan c) (co_next_evidence c) (co_candidates_present c) (co_stopped c).
Definition with_authority (c : Coordinator) (authority : AuthorityRegistry) : Coordinator :=
  mkCoordinator (co_config c) (co_store c) (co_disk c) (co_writes c) (co_ticks c) (co_epoch c) (co_boot c)
    (co_boot_digest c) (co_policy c) (co_limits c) (co_events c) (co_decisions c) (co_sessions c) (co_evidence c)
    (co_failures c) authority (co_topology_present c) (co_topology c) (co_candidates c) (co_plans c) (co_apply_steps
    c) (co_restart c) (co_next_plan c) (co_next_evidence c) (co_candidates_present c) (co_stopped c).
Definition with_topology (c : Coordinator) (topology_present : bool) (topology : TopologySnapshot) : Coordinator :=
  mkCoordinator (co_config c) (co_store c) (co_disk c) (co_writes c) (co_ticks c) (co_epoch c) (co_boot c)
    (co_boot_digest c) (co_policy c) (co_limits c) (co_events c) (co_decisions c) (co_sessions c) (co_evidence c)
    (co_failures c) (co_authority c) topology_present topology (co_candidates c) (co_plans c) (co_apply_steps c)
    (co_restart c) (co_next_plan c) (co_next_evidence c) (co_candidates_present c) (co_stopped c).
Definition with_candidates (c : Coordinator) (candidates : CandidateTable) (candidates_present : bool) : Coordinator :=
  mkCoordinator (co_config c) (co_store c) (co_disk c) (co_writes c) (co_ticks c) (co_epoch c) (co_boot c)
    (co_boot_digest c) (co_policy c) (co_limits c) (co_events c) (co_decisions c) (co_sessions c) (co_evidence c)
    (co_failures c) (co_authority c) (co_topology_present c) (co_topology c) candidates (co_plans c) (co_apply_steps
    c) (co_restart c) (co_next_plan c) (co_next_evidence c) candidates_present (co_stopped c).
Definition with_plans (c : Coordinator) (plans : PlanTable) : Coordinator :=
  mkCoordinator (co_config c) (co_store c) (co_disk c) (co_writes c) (co_ticks c) (co_epoch c) (co_boot c)
    (co_boot_digest c) (co_policy c) (co_limits c) (co_events c) (co_decisions c) (co_sessions c) (co_evidence c)
    (co_failures c) (co_authority c) (co_topology_present c) (co_topology c) (co_candidates c) plans (co_apply_steps
    c) (co_restart c) (co_next_plan c) (co_next_evidence c) (co_candidates_present c) (co_stopped c).
Definition with_apply_steps (c : Coordinator) (apply_steps : StepTable) : Coordinator :=
  mkCoordinator (co_config c) (co_store c) (co_disk c) (co_writes c) (co_ticks c) (co_epoch c) (co_boot c)
    (co_boot_digest c) (co_policy c) (co_limits c) (co_events c) (co_decisions c) (co_sessions c) (co_evidence c)
    (co_failures c) (co_authority c) (co_topology_present c) (co_topology c) (co_candidates c) (co_plans c)
    apply_steps (co_restart c) (co_next_plan c) (co_next_evidence c) (co_candidates_present c) (co_stopped c).
Definition with_restart (c : Coordinator) (restart : RestartReport) : Coordinator :=
  mkCoordinator (co_config c) (co_store c) (co_disk c) (co_writes c) (co_ticks c) (co_epoch c) (co_boot c)
    (co_boot_digest c) (co_policy c) (co_limits c) (co_events c) (co_decisions c) (co_sessions c) (co_evidence c)
    (co_failures c) (co_authority c) (co_topology_present c) (co_topology c) (co_candidates c) (co_plans c)
    (co_apply_steps c) restart (co_next_plan c) (co_next_evidence c) (co_candidates_present c) (co_stopped c).
Definition with_next_plan (c : Coordinator) (next_plan : Z) : Coordinator :=
  mkCoordinator (co_config c) (co_store c) (co_disk c) (co_writes c) (co_ticks c) (co_epoch c) (co_boot c)
    (co_boot_digest c) (co_policy c) (co_limits c) (co_events c) (co_decisions c) (co_sessions c) (co_evidence c)
    (co_failures c) (co_authority c) (co_topology_present c) (co_topology c) (co_candidates c) (co_plans c)
    (co_apply_steps c) (co_restart c) next_plan (co_next_evidence c) (co_candidates_present c) (co_stopped c).
Definition with_next_evidence (c : Coordinator) (next_evidence : Z) : Coordinator :=
  mkCoordinator (co_config c) (co_store c) (co_disk c) (co_writes c) (co_ticks c) (co_epoch c) (co_boot c)
    (co_boot_digest c) (co_policy c) (co_limits c) (co_events c) (co_decisions c) (co_sessions c) (co_evidence c)
    (co_failures c) (co_authority c) (co_topology_present c) (co_topology c) (co_candidates c) (co_plans c)
    (co_apply_steps c) (co_restart c) (co_next_plan c) next_evidence (co_candidates_present c) (co_stopped c).
Definition with_stopped (c : Coordinator) (stopped : bool) : Coordinator :=
  mkCoordinator (co_config c) (co_store c) (co_disk c) (co_writes c) (co_ticks c) (co_epoch c) (co_boot c)
    (co_boot_digest c) (co_policy c) (co_limits c) (co_events c) (co_decisions c) (co_sessions c) (co_evidence c)
    (co_failures c) (co_authority c) (co_topology_present c) (co_topology c) (co_candidates c) (co_plans c)
    (co_apply_steps c) (co_restart c) (co_next_plan c) (co_next_evidence c) (co_candidates_present c) stopped.

(** * The replay of the journal *)

(** What the replay loop of [open] accumulates. *)
Record Recovery := mkRecovery {
  rv_failures : FailureTable;
  rv_authority : AuthorityRegistry;
  rv_plans : PlanTable;
  rv_apply_steps : StepTable;
  rv_previous_epoch : Z;
  rv_previous_boot : BootIncarnation;
  rv_previous_ordinal : Z;
  rv_failures_restored : Z;
  rv_fences_restored : Z;
  rv_grants_restored : Z;
  rv_plans_restored : Z
}.

Definition recovery_new (limits : Limits) : Recovery :=
  mkRecovery [] (registry_new limits) [] [] 0 boot_none 0 0 0 0 0.

(** The fields of a stream header, in the order they are read. *)
Definition read_stream_header : ReaderM (Z * BootIncarnation) :=
  _ ← read_u8; _ ← read_u16;
  boot_ordinal ← read_u64; process_id ← read_u64; epoch ← read_u64; nonce_hi ← read_u64; nonce_lo ← read_u64;
  mret (epoch, mkBoot process_id boot_ordinal nonce_hi nonce_lo).

Definition recover_stream_header (payload : list Z) (v : Recovery) : Recovery :=
  let '((epoch, boot), reader) := read_stream_header (reader_new payload) in
  if reader_ok reader then
    mkRecovery (rv_failures v) (rv_authority v) (rv_plans v) (rv_apply_steps v) epoch boot (boot_ordinal boot)
      (rv_failures_restored v) (rv_fences_restored v) (rv_grants_restored v) (rv_plans_restored v)
  else v.

Definition recover_failure (payload : list Z) (v : Recovery) : Recovery :=
  match decode_failure_record payload with
  | Refused _ => v
  | Value f =>
      let '(s, failures) := failure_record (rv_failures v) f in
      mkRecovery failures (rv_authority v) (rv_plans v) (rv_apply_steps v) (rv_previous_epoch v) (rv_previous_boot v)
        (rv_previous_ordinal v) (if status_ok s then rv_failures_restored v + 1 else rv_failures_restored v)
        (rv_fences_restored v) (rv_grants_restored v) (rv_plans_restored v)
  end.

Definition recover_fence (payload : list Z) (v : Recovery) : Recovery :=
  match decode_fence_record payload with
  | Refused _ => v
  | Value f =>
      let '(s, authority) := restore_fence (rv_authority v) f in
      mkRecovery (rv_failures v) authority (rv_plans v) (rv_apply_steps v) (rv_previous_epoch v) (rv_previous_boot v)
        (rv_previous_ordinal v) (rv_failures_restored v)
        (if status_ok s then rv_fences_restored v + 1 else rv_fences_restored v)
        (rv_grants_restored v) (rv_plans_restored v)
  end.

Definition recover_grant (payload : list Z) (v : Recovery) : Recovery :=
  match decode_grant_record payload with
  | Refused _ => v
  | Value g =>
      let '(s, authority) := restore_grant (rv_authority v) g in
      mkRecovery (rv_failures v) authority (rv_plans v) (rv_apply_steps v) (rv_previous_epoch v) (rv_previous_boot v)
        (rv_previous_ordinal v) (rv_failures_restored v) (rv_fences_restored v)
        (if status_ok s then rv_grants_restored v + 1 else rv_grants_restored v) (rv_plans_restored v)
  end.

Definition recover_plan (limits : Limits) (payload : list Z) (v : Recovery) : Recovery :=
  match decode_plan_record payload limits with
  | Refused _ => v
  | Value p =>
      mkRecovery (rv_failures v) (rv_authority v) (map_set (pl_id p) p (rv_plans v)) (rv_apply_steps v)
        (rv_previous_epoch v) (rv_previous_boot v) (rv_previous_ordinal v) (rv_failures_restored v)
        (rv_fences_restored v) (rv_grants_restored v)
        (if map_contains (pl_id p) (rv_plans v) then rv_plans_restored v else rv_plans_restored v + 1)
  end.

(** `apply_steps[{step.dependent, step.replacement}] = step;` *)
Definition store_step (steps : StepTable) (s : ApplyStepResult) : StepTable :=
  map_set (sr_dependent s, sr_replacement s) s steps.

Definition recover_receipt (payload : list Z) (v : Recovery) : Recovery :=
  match decode_apply_receipt payload with
  | Refused _ => v
  | Value receipt =>
      mkRecovery (rv_failures v) (rv_authority v) (rv_plans v) (foldl store_step (rv_apply_steps v) (ap_steps receipt))
        (rv_previous_epoch v) (rv_previous_boot v) (rv_previous_ordinal v) (rv_failures_restored v)
        (rv_fences_restored v) (rv_grants_restored v) (rv_plans_restored v)
  end.

(** The `switch` on the kind of a replayed record. *)
Definition recover_record (limits : Limits) (v : Recovery) (record : DurableRecord) : Recovery :=
  let is_kind k := rh_kind (rec_header record) =? record_kind_raw k in
  let payload := rec_payload record in
  if is_kind RecordKind.StreamHeader then recover_stream_header payload v
  else if is_kind RecordKind.FailureCommitted then recover_failure payload v
  else if is_kind RecordKind.FenceCommitted then recover_fence payload v
  else if is_kind RecordKind.GrantMinted then recover_grant payload v
  else if is_kind RecordKind.PlanCommitted then recover_plan limits payload v
  else if is_kind RecordKind.ApplyCompleted then recover_receipt payload v
  else v.

Definition recover (limits : Limits) (records : list DurableRecord) : Recovery :=
  foldl (recover_record limits) (recovery_new limits) records.

#[export] Instance PlanState_eq_dec : EqDecision PlanState.
Proof. solve_decision. Defined.

Definition in_flight_notes (plans : PlanTable) : list string :=
  (fun e => "plan " +:+ dec e.1 +:+ " was in flight when the process ended; its effect is ambiguous and "
            +:+ "no apply completion record exists")
  <$> filter (fun e => pl_state e.2 = PlanState.Applying) plans.

(** * The monad of the methods *)

Definition Op (A : Type) : Type := Coordinator -> Result A * Coordinator.

Definition op_ret {A} (a : A) : Op A := fun c => (Value a, c).
Definition op_bind {A B} (m : Op A) (k : A -> Op B) : Op B := fun c =>
  match m c with (Value a, c) => k a c | (Refused s, c) => (Refused s, c) end.

Declare Scope op_scope.
Delimit Scope op_scope with op.
Notation "x ← y ; z" := (op_bind y (fun x => z)) (at level 20, y at level 100, z at level 200, only parsing) : op_scope.
Notation "x ;; z" := (op_bind x (fun _ => z)) (at level 100, z at level 200, only parsing, right associativity) : op_scope.
#[local] Open Scope op_scope.

Definition refuse {A} (s : Status) : Op A := fun c => (Refused s, c).
Definition refuse_with {A} (code : Code) (message : string) : Op A := refuse (failure code message).

(** `if (!s.ok()) return s;` *)
Definition ensure_ok (s : Status) : Op unit := if status_ok s then op_ret tt else refuse s.

(** `Result<A> r = ...; if (!r.ok()) return r.status();` *)
Definition unwrap {A} (r : Result A) : Op A := match r with Value a => op_ret a | Refused s => refuse s end.

Definition gets {A} (f : Coordinator -> A) : Op A := fun c => (Value (f c), c).
Definition modify (f : Coordinator -> Coordinator) : Op unit := fun c => (Value tt, f c).

(** `for (const auto& x : l) s = f(s, x);` *)
Fixpoint fold_op {S B} (f : S -> B -> Op S) (s : S) (l : list B) : Op S :=
  match l with [] => op_ret s | x :: l => s ← f s x; fold_op f s l end.


Section runtime.
Context {W : World}.

(** The constructor: `Impl(config, clock)`. *)
Definition coordinator_new (config : CoordinatorConfig) (disk : Disk) : Coordinator :=
  mkCoordinator config None disk 0 0 0 boot_none 0 (cc_policy config) (cc_limits config)
    (log_new (cc_event_capacity config)) (log_new (cc_decision_capacity config))
    (SessionRegistry_new (cc_limits config)) (store_new (cc_limits config) has_clock) []
    (registry_new (cc_limits config)) false topology_none (mkTable [] 0) [] [] restart_none 1 1 false false.

Definition new_boot (ordinal : Z) : BootIncarnation :=
  for_current_process (random_word 0) (random_word 1) (random_word 2) (random_word 3) steady_ns process_id ordinal.

Definition boot_digest_of (boot : BootIncarnation) : Z :=
  dig_hi
    (absorb_u64 (boot_nonce_lo boot)
      (absorb_u64 (boot_nonce_hi boot)
        (absorb_u64 (boot_ordinal boot)
          (absorb_u64 (boot_process_id boot)
            (absorb_string "sff.boot-incarnation.v1" digest_init))))).

(** Run a method of a subsystem. *)
Definition on_authority {A} (f : AuthorityRegistry -> A * AuthorityRegistry) : Op A := fun c =>
  let '(a, r) := f (co_authority c) in (Value a, with_authority c r).
Definition on_sessions {A} (f : SessionRegistry -> A * SessionRegistry) : Op A := fun c =>
  let '(a, r) := f (co_sessions c) in (Value a, with_session_table c r).
Definition on_failures {A} (f : FailureTable -> A * FailureTable) : Op A := fun c =>
  let '(a, t) := f (co_failures c) in (Value a, with_failures c t).

(** `clock != nullptr ? clock->now_ns() : 0`; every reading takes the next one. *)
Definition now : Op Z := fun c =>
  if has_clock then (Value (clock_at (co_ticks c)), with_ticks c (S (co_ticks c))) else (Value 0, c).

Definition ensure_running : Op unit :=
  stopped ← gets co_stopped;
  if stopped then refuse_with Code.Closed "coordinator has been shut down" else op_ret tt.

Definition append_event_about (kind : EventKind) (code : Code) (text : string) (subject generation : Z) : Op unit :=
  at_ns ← now;
  modify (fun c => with_events c (event_append at_ns kind code text subject generation (co_events c))).

Definition append_event (kind : EventKind) (code : Code) (text : string) (subject : Z) : Op unit :=
  append_event_about kind code text subject 0.

Definition record_decision (kind : DecisionKind) (scope : DecisionScope) (outcome reason : Code)
  (bound : GenerationVector) (explanation : Explanation) : Op unit :=
  at_ns ← now;
  modify (fun c => with_decisions c (decision_append
    (mkDecision 0 kind scope outcome reason bound (co_epoch c) (co_boot c) (cc_evidence_class (co_config c))
       explanation at_ns) (co_decisions c))).

(** [EvidenceStore::admit] reads the same clock. *)
Definition admit_to_store (record : EvidenceRecord) : Op Status :=
  at_ns ← now;
  fun c => let '(s, e) := admit_record (co_evidence c) at_ns record in (Value s, with_evidence c e).

(** [grant] of the authority registry under the current identity; the clock is
    read for its time of issue. *)
Definition grant_now (dependent : DependentRef) (bound : GenerationVector) (detail : string) : Op (Result Z) :=
  at_ns ← now;
  epoch ← gets co_epoch;
  boot ← gets co_boot;
  policy ← gets co_policy;
  on_authority (fun r => grant r dependent bound epoch boot at_ns (po_grant_ttl_ns policy) detail).

Definition make_inputs (plan_id now_ns : Z) (c : Coordinator) : PlanInputs :=
  mkInputs (Some (co_topology c)) (Some (co_candidates c)) (Some (co_evidence c)) (Some (co_failures c))
    (Some (co_authority c)) (co_limits c) (po_assessment (co_policy c)) (po_planning (co_policy c))
    (co_epoch c) (co_boot c) plan_id now_ns.

Definition persist_record (kind : RecordKind.RecordKind) (payload : list Z) : Op unit := fun c =>
  match co_store c with
  | None => (Value tt, c)
  | Some store =>
      let '(status, store, disk) :=
        Journal.append (write_answer (co_writes c)) (record_kind_raw kind) payload 0 store (co_disk c) in
      (if status_ok status then Value tt else Refused status, with_durable c (Some store) disk (S (co_writes c)))
  end.

(** * Inputs *)

Definition topology_payload (t : TopologySnapshot) : list Z :=
  written (write_u8 1;; write_u64 (tp_version t);; write_u64 (tp_digest t);; write_u64 (zlen (tp_switches t));;
           write_u64 (zlen (tp_links t));; write_u64 (zlen (tp_paths t)))%codec.

(** `GenerationVector bound; for (hop : hops) bound.insert(hop);` *)
Definition bind_hops (hops : list SwitchKey) : GenerationVector := foldl (fun v k => (gv_insert v k).1) [] hops.

(** One iteration of the two loops of [install_topology] that establish authority. *)
Definition establish_declared (granted : Z) (declared : DependentRef * list SwitchKey) : Op Z :=
  let bound := bind_hops declared.2 in
  if bool_decide (bound = []) then op_ret granted
  else
    established ← grant_now declared.1 bound "established by topology declaration";
    op_ret (if result_ok established then granted + 1 else granted).

Definition declared_paths (t : TopologySnapshot) : list (DependentRef * list SwitchKey) :=
  (fun p => (dependent_path (pd_id p), pd_hops p)) <$> tp_paths t.
Definition declared_links (t : TopologySnapshot) : list (DependentRef * list SwitchKey) :=
  (fun l => (dependent_link (ld_id l), [pr_sw (ld_a l); pr_sw (ld_b l)])) <$> tp_links t.

Definition install_topology (topology : TopologySnapshot) : Op unit :=
  ensure_running;;
  (if bool_decide (tp_switches topology = []) then
     refuse_with Code.Invalid "an empty topology snapshot is not installable"
   else op_ret tt);;
  persist_record RecordKind.TopologyInstalled (topology_payload topology);;
  modify (fun c => with_topology c true topology);;
  granted ← fold_op establish_declared 0 (declared_paths topology);
  granted ← fold_op establish_declared granted (declared_links topology);
  append_event EventKind.TopologyInstalled Code.Ok "topology snapshot installed for this incarnation"
    (tp_version topology);;
  append_event EventKind.AuthorityGranted Code.Ok "authority established for declared dependents" granted.

Definition establish_authority (dependent : DependentRef) (bound : GenerationVector) (detail : string) : Op unit :=
  ensure_running;;
  established ← grant_now dependent bound detail;
  match established with
  | Refused status =>
      append_event EventKind.AuthorityRevoked (status_code status) (status_message status) (dep_id dependent);;
      refuse status
  | Value _ => append_event EventKind.AuthorityGranted Code.Ok "authority established" (dep_id dependent)
  end.

Definition withdraw_authority (dependent : DependentRef) (cause : RevocationCause) (detail : string) : Op unit :=
  ensure_running;;
  revoked ← on_authority (fun r => revoke_dependent r dependent cause detail);
  append_event EventKind.AuthorityRevoked Code.Ok "authority withdrawn" revoked.

Definition install_candidates (candidates : CandidateTable) : Op unit :=
  ensure_running;;
  modify (fun c => with_candidates c candidates true);;
  append_event EventKind.TopologyInstalled Code.Ok "reconstruction candidate table installed" (ct_digest candidates).

Definition install_policy (policy : Policy) : Op unit :=
  ensure_ok (policy_validate policy);;
  ensure_running;;
  persist_record RecordKind.PolicyInstalled (policy_encode policy);;
  modify (fun c => with_policy c policy);;
  append_event EventKind.TopologyInstalled Code.Ok "policy installed" (policy_digest policy).

(** * Sessions *)

(** [SessionRegistry::open] always answers: it looks up the record it has just
    stored ([session_open_answers]). *)
Definition no_session : Result SessionRecord := Refused (failure Code.Unknown "").

Definition open_session (principal : string) : Op SessionRecord :=
  ensure_running;;
  epoch ← gets co_epoch;
  boot ← gets co_boot;
  at_ns ← now;
  opened ← on_sessions (session_open principal epoch boot at_ns);
  record ← unwrap (default no_session opened);
  append_event EventKind.SessionOpened Code.Ok "session established" (sr_id record);;
  op_ret record.

Definition close_session (id : Z) : Op unit :=
  status ← on_sessions (session_close id);
  ensure_ok status;;
  append_event EventKind.SessionClosed Code.Ok "session closed" id.

Definition co_authorise (binding : SessionBinding) : Op unit :=
  epoch ← gets co_epoch;
  boot_digest ← gets co_boot_digest;
  status ← on_sessions (authorise binding epoch boot_digest);
  ensure_ok status.

(** * Queries *)

Definition session_count (c : Coordinator) : Z := sessions_size (co_sessions c).
Definition co_event_tail (count : Z) (c : Coordinator) : list EventRecord := log_tail count (co_events c).
Definition co_decision_tail (count : Z) (c : Coordinator) : list Decision := log_tail count (co_decisions c).

Definition plan_by_id (id : Z) : Op ReconstructionPlan :=
  plans ← gets co_plans;
  match map_find id plans with
  | None => refuse_with Code.NotFound "no plan with that identity is retained"
  | Some plan => op_ret plan
  end.

Definition plans (c : Coordinator) : list ReconstructionPlan := map_values (co_plans c).

Definition installed_topology (c : Coordinator) : option TopologySnapshot :=
  if co_topology_present c then Some (co_topology c) else None.

(** * Lifecycle *)

(** [store->close()] *)
Definition close_store : Op Status := fun c =>
  match co_store c with
  | None => (Value success, c)
  | Some store =>
      let '(status, store) := Journal.close close_answer store in
      (Value status, with_durable c (Some store) (co_disk c) (co_writes c))
  end.

(** The durable half of [shutdown]; every part of it runs whatever the others answer. *)
Definition settle_store : Op Status := fun c =>
  match co_store c with
  | None => (Value success, c)
  | Some _ =>
      let '(persisted, c) :=
        persist_record RecordKind.ShutdownClean (encode_u64_payload (co_epoch c)) c in
      let status := result_status persisted in
      let status :=
        if status_ok status then match co_store c with Some store => Journal.sync sync_answer store | None => success end
        else status in
      match close_store c with
      | (Value closed, c) => (Value (if status_ok status then closed else status), c)
      | (Refused s, c) => (Refused s, c)
      end
  end.

Definition shutdown : Op unit :=
  stopped ← gets co_stopped;
  if stopped then op_ret tt
  else
    modify (fun c => with_stopped c true);;
    closed ← on_sessions close_all;
    append_event EventKind.RuntimeShutdown Code.Ok "runtime shutting down" 0;;
    status ← settle_store;
    (if status_ok status then op_ret tt
     else append_event EventKind.RuntimeShutdown (status_code status) (status_message status) 0);;
    (if closed =? 0 then op_ret tt
     else append_event EventKind.SessionClosed Code.Ok "sessions invalidated at shutdown" closed);;
    ensure_ok status.

(** The destructor; the state is the one left behind. *)
Definition destroy (c : Coordinator) : Coordinator := (close_store c).2.

(** * Opening *)

Definition fresh_ordinal (config : CoordinatorConfig) : Z :=
  if cc_boot_ordinal config =? 0 then 1 else cc_boot_ordinal config.

(** The identity of the new incarnation: the epoch and the boot. *)
Definition next_identity (config : CoordinatorConfig) (v : Recovery) : Z * BootIncarnation :=
  if negb (rv_previous_ordinal v =? 0)
  then (add64 (rv_previous_epoch v) 1, new_boot (add64 (rv_previous_ordinal v) 1))
  else (1, new_boot (fresh_ordinal config)).

(** From the replayed records to the state: lineage, identity, the withdrawal
    of all restored authority, and the report. *)
Definition reconcile (opening : ReplayReport) : Op unit :=
  config ← gets co_config;
  let v := recover (cc_limits config) (rp_records opening) in
  let '(epoch, boot) := next_identity config v in
  modify (fun c => with_identity (with_apply_steps (with_plans (with_failures (with_authority c (rv_authority v))
    (rv_failures v)) (rv_plans v)) (rv_apply_steps v)) epoch boot);;
  _ ← now;
  invalidated ← on_authority invalidate_pre_restart;
  policy ← gets co_policy;
  fenced ← (if po_fence_on_restart policy
            then on_authority (fun r => withdraw_all r RevocationCause.Restart
                                          "fence-on-restart policy refuses stale authority")
            else op_ret 0);
  modify (fun c => with_restart c
    (mkRestart (negb (bool_decide (rp_records opening = []))) (rp_clean_shutdown opening) (rp_truncated_tail opening)
       (zlen (rp_records opening)) (rp_corrupt_records opening) (rp_torn_records opening)
       (rp_unsupported_records opening) (rv_previous_epoch v) epoch (rv_previous_boot v) boot
       (rv_failures_restored v) (rv_fences_restored v) (rv_grants_restored v + invalidated) fenced
       (rv_plans_restored v) 0 false
       (in_flight_notes (rv_plans v) ++
        ["dynamic liveness, telemetry freshness, active leases and in-flight authority were not restored";
         "the installed topology and the supplied candidate table are inputs, not durable state; the authoritative source must reinstall them"])
       success)).

(** The branch taken without durability. *)
Definition start_fresh : Op unit :=
  config ← gets co_config;
  let boot := new_boot (fresh_ordinal config) in
  modify (fun c => with_restart (with_identity c 1 boot)
    (mkRestart false false false 0 0 0 0 0 1 boot_none boot 0 0 0 0 0 0 false [] success)).

Definition store_options (config : CoordinatorConfig) : StoreOptions :=
  Journal.mkOptions (cc_durable_root config) (cc_limits config) OpenMode.OpenOrCreate true.

Definition durability_unrooted : Status := failure Code.Invalid "durability was requested without a durable root".

(** Everything after the state was reconciled. *)
Definition announce : Op unit :=
  boot ← gets co_boot;
  modify (fun c => with_boot_digest c (boot_digest_of boot));;
  epoch ← gets co_epoch;
  store ← gets co_store;
  match store with
  | None => op_ret tt
  | Some _ =>
      persist_record RecordKind.StreamHeader
        (encode_stream_header kRecordFormatVersion (boot_ordinal boot) (boot_process_id boot) epoch
           (boot_nonce_hi boot) (boot_nonce_lo boot));;
      if 1 <? epoch then persist_record RecordKind.EpochAdvance (encode_u64_payload epoch) else op_ret tt
  end;;
  append_event EventKind.RuntimeBooted Code.Ok
    ("epoch=" +:+ dec epoch +:+ " boot=" +:+ dec (boot_ordinal boot)) 0;;
  restart ← gets co_restart;
  if rr_recovered restart then
    append_event EventKind.RestartReconciled (status_code (rr_status restart))
      "durable lineage reconciled; dynamic authority was not restored" 0
  else op_ret tt.

(** [Coordinator::open]. A refused opening destroys the coordinator, and what
    is left of it is its disk. [None] is the replay loop running out of fuel,
    which [open_answers] excludes. *)
Definition open (config : CoordinatorConfig) (disk : Disk) : option (Result unit * Coordinator) :=
  let c := coordinator_new config disk in
  let limit_status := limits_validate (cc_limits config) in
  if negb (status_ok limit_status) then Some (Refused limit_status, c)
  else
    let policy_status := policy_validate (cc_policy config) in
    if negb (status_ok policy_status) then Some (Refused policy_status, c)
    else if negb (cc_enable_durability config) then Some ((start_fresh;; announce) c)
    else if bool_decide (cc_durable_root config = []) then Some (Refused durability_unrooted, c)
    else
      match Journal.open path_resolve open_answer (store_options config) disk with
      | None => None
      | Some (Refused s, disk) => Some (Refused s, with_durable c None disk 0)
      | Some (Value store, disk) =>
          let c := with_durable c (Some store) disk 0 in
          let opening := ds_open_report store in
          if negb (status_ok (rp_status opening)) then
            Some (Refused (failure (status_code (rp_status opening))
                             "durable lineage could not be replayed without corruption"), c)
          else Some ((reconcile opening;; announce) c)
      end.
End runtime.
