(* ===== verification/Failover.v ===== *)
(** The failover pipeline (include/sff/runtime/failover.hpp,
    src/runtime/failover.cpp): evidence admission, failure declaration and
    fencing, planning, applying, effect verification and the restore decision,
    as methods of the coordinator. *)

From S2P Require Import Prelude Containers Core Generation Switch Authority Evidence Topology Records Decision Plan.
From S2P Require Import Policy Payloads Candidates Planner Validator Coordinator.

#[local] Open Scope op_scope.

(** * Data *)

Record FailureDeclaration := mkDeclaration {
  fd_subject : SwitchKey;
  fd_source : EvidenceSource;
  fd_observed_at_ns : Z;
  fd_valid_for_ns : Z;
  fd_reason : string
}.

Definition declaration_validate (d : FailureDeclaration) : Status :=
  if negb (key_valid (fd_subject d)) then
    failure Code.Invalid "failure declaration subject is not generation-qualified"
  else if negb (is_valid_evidence_source (evidence_source_raw (fd_source d))) then
    failure Code.Invalid "failure declaration names an unknown evidence source"
  else if negb (bool_decide (trust_of (fd_source d) = TrustLevel.Authoritative)) then
    failure Code.Unauthorized "failure declaration requires an authoritative evidence source"
  else if fd_observed_at_ns d =? 0 then failure Code.Invalid "failure declaration has no observation time"
  else if fd_valid_for_ns d =? 0 then failure Code.Invalid "failure declaration has no validity window"
  else if kMaxMessageBytes <? str_size (fd_reason d) then
    failure Code.Invalid "failure declaration reason exceeds the message budget"
  else success.

Record FailoverOutcome := mkOutcome {
  fo_failed : SwitchKey;
  fo_failure : FailureRecord;
  fo_fence : Z;
  fo_fence_scope : FenceScopeState;
  fo_closure : DependencyClosure;
  fo_grants_fenced : Z;
  fo_dependents_affected : Z;
  fo_deferred : bool;
  fo_outcome : Code;
  fo_explanation : Explanation
}.

Definition outcome_digest (o : FailoverOutcome) : Z :=
  dig_hi
    (absorb_byte (wrap8 (code_raw (fo_outcome o)))
      (absorb_bool (fo_deferred o)
        (absorb_u64 (fo_dependents_affected o)
          (absorb_u64 (fo_grants_fenced o)
            (absorb_u64 (closure_digest (fo_closure o))
              (absorb_byte (fence_scope_raw (fo_fence_scope o))
                (absorb_u64 (fo_fence o)
                  (absorb_u64 (failure_digest (fo_failure o))
                    (absorb_key (fo_failed o)
                      (absorb_string "sff.failover-outcome.v1" digest_init)))))))))).

(** Terms added to an explanation, in order. *)
Inductive Term :=
| Text (key value : string)
| Count (key : string) (value : Z)
| Flag (key : string) (value : bool)
| Subject (key : string) (value : SwitchKey).

Definition add_term (e : Explanation) (t : Term) : Explanation :=
  match t with
  | Text key value => explain e key value
  | Count key value => explain_u64 e key value
  | Flag key value => explain_bool e key value
  | Subject key value => explain_key e key value
  end.

Definition explained (terms : list Term) : Explanation := foldl add_term explanation_default terms.

Section runtime.
Context {W : World}.

(** * Evidence and assessment *)

(** The identity under which the runtime admits a record. *)
Definition stamp (epoch : Z) (boot : BootIncarnation) (r : EvidenceRecord) : EvidenceRecord :=
  mkEvidence (er_id r) (er_kind r) (er_source r) (er_subject r) epoch boot (er_observed_at_ns r) (er_valid_for_ns r)
    (er_health r) (er_admin r) (er_capabilities r) (er_effect_dependent r) (er_effect_plan r) (er_effect_attempt r)
    (er_detail r).

Definition event_of (kind : EventKind) (code : Code) (text : string) (subject : SwitchKey) : Op unit :=
  append_event_about kind code text (sk_id subject) (sk_generation subject).

Definition admit_evidence (record : EvidenceRecord) : Op unit :=
  ensure_running;;
  epoch ← gets co_epoch;
  boot ← gets co_boot;
  if kRuntimeReservedIdBase <=? er_id record then
    refuse_with Code.Invalid "evidence identity is inside the range reserved for runtime-minted ids"
  else if boot_valid (er_admitted_boot record) && negb (bool_decide (er_admitted_boot record = boot)) then
    event_of EventKind.EvidenceRejected Code.Stale "evidence was admitted under a different process incarnation"
      (er_subject record);;
    refuse_with Code.Stale "evidence carries a process incarnation that is not current"
  else if id_valid (er_admitted_epoch record) && negb (er_admitted_epoch record =? epoch) then
    event_of EventKind.EvidenceRejected Code.Stale "evidence was admitted under a different coordinator epoch"
      (er_subject record);;
    refuse_with Code.Stale "evidence carries a coordinator epoch that is not current"
  else
    let stamped := stamp epoch boot record in
    admitted ← admit_to_store stamped;
    event_of (if status_ok admitted then EventKind.EvidenceAdmitted else EventKind.EvidenceRejected)
      (if status_ok admitted then Code.Ok else status_code admitted)
      (evidence_kind_to_string (er_kind stamped)) (er_subject stamped);;
    ensure_ok admitted;;
    record_decision DecisionKind.EvidenceAdmission (scope_of_switch (er_subject stamped) "evidence admission")
      Code.Ok Code.Ok []
      (explained [Text "evidence" (dec (er_id stamped)); Text "kind" (evidence_kind_to_string (er_kind stamped));
                  Text "source" (evidence_source_to_string (er_source stamped)); Subject "subject" (er_subject stamped)]).

(** [assess_switch] on the current evidence, failures and policy. *)
Definition assess_at (c : Coordinator) (key : SwitchKey) (now_ns : Z) : SwitchAssessment :=
  assess_switch key (co_evidence c) (co_failures c) now_ns (po_assessment (co_policy c)).

Definition assess_now (key : SwitchKey) : Op SwitchAssessment :=
  now_ns ← now; gets (fun c => assess_at c key now_ns).

Definition co_assess (subject : SwitchKey) : Op SwitchAssessment :=
  assessment ← assess_now subject;
  record_decision DecisionKind.SwitchFailure (scope_of_switch subject "switch assessment")
    (sa_outcome assessment) (if sa_fence_required assessment then Code.Fenced else sa_outcome assessment) []
    (explained [Flag "usable" (sa_usable assessment); Flag "fence_required" (sa_fence_required assessment);
                Text "health" (health_state_to_string (sa_health assessment));
                Text "rationale" (sa_rationale assessment); Count "supporting" (zlen (sa_supporting assessment));
                Count "stale" (zlen (sa_stale assessment)); Count "conflicting" (zlen (sa_conflicting assessment))]);;
  op_ret assessment.

(** `if (!topology_present) return failure(Unsupported, message);` *)
Definition require_topology (message : string) : Op unit :=
  present ← gets co_topology_present;
  if present : bool then op_ret tt else refuse_with Code.Unsupported message.

Definition no_topology : string := "no topology snapshot is installed".

Definition assess_identity (id : Z) : Op SwitchAssessment :=
  require_topology no_topology;;
  topology ← gets co_topology;
  match find_highest_generation topology id with
  | None => refuse_with Code.NotFound "the topology declares no switch with that identity"
  | Some descriptor => assess_now (sd_key descriptor)
  end.

(** * Failure fencing *)

(** The evidence record a declaration becomes. *)
Definition assertion_of (d : FailureDeclaration) (id epoch : Z) (boot : BootIncarnation) : EvidenceRecord :=
  mkEvidence id EvidenceKind.SwitchFailureDeclaration (fd_source d) (fd_subject d) epoch boot (fd_observed_at_ns d)
    (fd_valid_for_ns d) SwitchHealthState.Failed SwitchAdminState.Unknown 0 dependent_none 0 0 (fd_reason d).

Definition record_failure_locked (d : FailureDeclaration) : Op FailureRecord :=
  ensure_ok (declaration_validate d);;
  ensure_running;;
  require_topology "a failure cannot be recorded before a topology is installed";;
  next_evidence ← gets co_next_evidence;
  modify (fun c => with_next_evidence c (add64 next_evidence 1));;
  epoch ← gets co_epoch;
  boot ← gets co_boot;
  let assertion := assertion_of d (add64 kRuntimeReservedIdBase next_evidence) epoch boot in
  admitted ← admit_to_store assertion;
  ensure_ok admitted;;
  assessment ← assess_now (fd_subject d);
  if bool_decide (sa_outcome assessment = Code.Conflict) then
    event_of EventKind.EvidenceRejected Code.Conflict
      "authoritative failure and recovery evidence contradict each other" (fd_subject d);;
    refuse_with Code.Conflict "authoritative evidence about this generation contradicts itself"
  else if negb (sa_fence_required assessment) then
    refuse_with (if bool_decide (sa_outcome assessment = Code.Ok) then Code.Denied else sa_outcome assessment)
      (if bool_decide (sa_rationale assessment = ""%string)
       then "failure evidence did not establish a fence obligation" else sa_rationale assessment)
  else
    recorded_at ← now;
    let record := mkFailureRecord (fd_subject d) (er_id assertion) epoch boot (fd_observed_at_ns d) recorded_at
                    (fd_reason d) in
    persist_record RecordKind.FailureCommitted (encode_failure_record record);;
    status ← on_failures (fun t => failure_record t record);
    ensure_ok status;;
    event_of EventKind.FailureDeclared Code.Ok (fr_reason record) (fr_subject record);;
    op_ret record.

Definition record_failure (d : FailureDeclaration) : Op FailureRecord :=
  ensure_ok (declaration_validate d);;
  record_failure_locked d.

(** A default-constructed [FenceRecord]. *)
Definition fence_none : FenceRecord := mkFence 0 key_none 0 boot_none 0 FenceScopeState.Open 0 0 0 0 "".

(** The fence a declaration commits, before it has an identity. *)
Definition fence_of (d : FailureDeclaration) (epoch : Z) (boot : BootIncarnation) (created_at : Z)
  (closure : DependencyClosure) (grants_fenced : Z) : FenceRecord :=
  mkFence 0 (fd_subject d) epoch boot created_at
    (if closure_truncated closure || negb (enumerates_every_root closure)
     then FenceScopeState.Partial else FenceScopeState.Committed)
    (closure_digest closure) (zlen (dc_members closure)) grants_fenced (dc_omitted_frontier closure)
    (if bool_decide (fd_reason d = ""%string) then "switch generation established unusable" else fd_reason d).

Definition existing_fence (subject : SwitchKey) (r : AuthorityRegistry) : FenceRecord :=
  default fence_none (List.find (fun f => bool_decide (fence_subject f = subject)) (fences r)).

(** The fence of the declaration: the existing one, or a new one that is
    committed to the registry and then to the journal. *)
Definition establish_fence (d : FailureDeclaration) (closure : DependencyClosure) (grants_fenced : Z) :
  Op (FenceRecord * bool) :=
  registry ← gets co_authority;
  if is_fenced registry (fd_subject d) then op_ret (existing_fence (fd_subject d) registry, true)
  else
    epoch ← gets co_epoch;
    boot ← gets co_boot;
    created_at ← now;
    let fence := fence_of d epoch boot created_at closure grants_fenced in
    committed ← on_authority (fun r => commit_fence r fence);
    id ← unwrap committed;
    let fence := fence_with_id fence id (fence_reason fence) in
    persist_record RecordKind.FenceCommitted (encode_fence_record fence);;
    op_ret (fence, false).

(** `plan.state = state; plan.seal();` *)
Definition plan_in_state (p : ReconstructionPlan) (state : PlanState) : ReconstructionPlan :=
  seal (mkPlan (pl_id p) (pl_epoch p) (pl_boot p) (pl_failed_generations p) (pl_fences p) (pl_restores p)
          (pl_unresolved p) (pl_feasibility p) state (pl_closure_complete p) (pl_service_withheld p)
          (pl_topology_digest p) (pl_policy_digest p) (pl_plan_digest p)).

Definition plan_touches (subject : SwitchKey) (p : ReconstructionPlan) : bool :=
  existsb (fun step => bool_decide (rs_covers_failed step = subject)
                       || existsb (fun hop => bool_decide (hop = subject)) (rs_hops step)) (pl_restores p).

(** The plans a new fence on [subject] supersedes. *)
Definition supersedes (subject : SwitchKey) (p : ReconstructionPlan) : bool :=
  negb (bool_decide (pl_state p = PlanState.Superseded) || bool_decide (pl_state p = PlanState.Failed))
  && plan_touches subject p.

Definition supersede_plans (subject : SwitchKey) : Op Z := fun c =>
  (Value (zlen (filter (fun p => supersedes subject p = true) (map_values (co_plans c)))),
   with_plans c (map_update (fun p => if supersedes subject p then plan_in_state p PlanState.Superseded else p)
                   (co_plans c))).

Definition declare_failure (d : FailureDeclaration) : Op FailoverOutcome :=
  ensure_ok (declaration_validate d);;
  ensure_running;;
  record ← record_failure_locked d;
  let roots := (gv_insert [] (fd_subject d)).1 in
  topology ← gets co_topology;
  limits ← gets co_limits;
  let cl := default closure_default (closure topology roots limits) in
  _ ← now;
  grants_fenced ← on_authority (fun r => fence_generations r roots);
  established ← establish_fence d cl grants_fenced;
  let fence := established.1 in
  let deferred := established.2 in
  superseded ← supersede_plans (fd_subject d);
  let outcome := if bool_decide (fence_scope_state fence = FenceScopeState.Partial) then Code.PartialClosure
                 else Code.Ok in
  record_decision DecisionKind.FenceCommit (scope_of_switch (fd_subject d) "switch failure fence")
    outcome Code.Fenced roots
    (explained [Flag "deferred" deferred; Text "closure_state" (closure_state_to_string (dc_state cl));
                Count "closure_members" (zlen (dc_members cl)); Count "dependents" (zlen (dc_dependents cl));
                Count "omitted_frontier" (dc_omitted_frontier cl); Count "roots_absent" (dc_roots_absent cl);
                Count "grants_fenced" grants_fenced; Text "reason" (fence_reason fence)]);;
  event_of EventKind.FenceCommitted outcome (if deferred : bool then "fence already existed" else "fence committed")
    (fd_subject d);;
  (if superseded =? 0 then op_ret tt
   else append_event EventKind.PlanRejected Code.Fenced "outstanding plans superseded by a new fence" superseded);;
  op_ret (mkOutcome (fd_subject d) record (fence_id fence) (fence_scope_state fence) cl grants_fenced
            (zlen (dc_dependents cl)) deferred outcome explanation_default).

(** * Planning *)

Definition is_applying (p : ReconstructionPlan) : bool := bool_decide (pl_state p = PlanState.Applying).

(** The eviction loop: while the table is full, erase the first plan that is
    not being applied. An iteration erases one plan, so the table's length
    bounds the number of iterations. *)
Fixpoint evict_plans (fuel : nat) (capacity : Z) (plans : PlanTable) : PlanTable :=
  match fuel with
  | O => plans
  | S fuel =>
      if (capacity <=? map_size plans) && negb (bool_decide (plans = [])) then
        match List.find (fun e => negb (is_applying e.2)) plans with
        | None => plans
        | Some victim => evict_plans fuel capacity (map_erase victim.1 plans)
        end
      else plans
  end.

Definition store_plan (p : ReconstructionPlan) : Op unit :=
  modify (fun c => with_plans c (map_set (pl_id p) p (co_plans c))).

Definition propose_plan (failed : GenerationVector) : Op ReconstructionPlan :=
  ensure_running;;
  require_topology no_topology;;
  candidates_present ← gets co_candidates_present;
  (if candidates_present : bool then op_ret tt
   else refuse_with Code.Unsupported
     "no reconstruction alternatives have been supplied; absence of alternatives is not evidence that none exist");;
  plan_id ← gets co_next_plan;
  now_ns ← now;
  inputs ← gets (make_inputs plan_id now_ns);
  plan ← unwrap (plan_reconstruction inputs failed);
  modify (fun c => with_next_plan c (add64 plan_id 1));;
  let report := validate_plan plan inputs in
  let explanation := explained
    ([Text "feasibility" (feasibility_to_string (pl_feasibility plan)); Count "restores" (zlen (pl_restores plan));
      Count "unresolved" (zlen (pl_unresolved plan)); Flag "closure_complete" (pl_closure_complete plan);
      Flag "valid" (vr_valid report); Count "checks" (vr_checks_performed report)]
     ++ match vr_findings report with [] => [] | f :: _ => [Text "first_finding" (vf_detail f)] end) in
  if negb (vr_valid report) then
    let plan := plan_in_state plan PlanState.Rejected in
    store_plan plan;;
    record_decision DecisionKind.PlanValidation (scope_of_plan (pl_id plan) "plan rejected") Code.Invalid
      (vr_outcome report) failed explanation;;
    append_event EventKind.PlanRejected Code.Invalid (report_to_string report) (pl_id plan);;
    refuse_with Code.Invalid ("produced plan failed independent validation: " +:+ report_to_string report)
  else
    let plan := plan_in_state plan PlanState.Validated in
    policy ← gets co_policy;
    modify (fun c => with_plans c (evict_plans (length (co_plans c)) (po_max_retained_plans policy) (co_plans c)));;
    store_plan plan;;
    record_decision DecisionKind.ReconstructionPlan (scope_of_plan (pl_id plan) "reconstruction plan") Code.Ok Code.Ok
      failed explanation;;
    append_event EventKind.PlanProposed Code.Ok (feasibility_to_string (pl_feasibility plan)) (pl_id plan);;
    append_event EventKind.PlanValidated Code.Ok (report_to_string report) (pl_id plan);;
    op_ret plan.

Definition co_validate_plan (plan : ReconstructionPlan) : Op ValidationReport :=
  require_topology no_topology;;
  now_ns ← now;
  inputs ← gets (make_inputs (pl_id plan) now_ns);
  let report := validate_plan plan inputs in
  record_decision DecisionKind.PlanValidation (scope_of_plan (pl_id plan) "plan validation") (vr_outcome report)
    (vr_outcome report) (pl_failed_generations plan)
    (explained ([Flag "valid" (vr_valid report); Count "checks" (vr_checks_performed report);
                 Count "findings" (zlen (vr_findings report))]
                ++ ((fun f => Text "finding" (vf_detail f)) <$> take 8 (vr_findings report))));;
  op_ret report.

(** * Applying *)

(** Why a hop of a restore step is refused, if it is. *)
Definition hop_refusal (hop : SwitchKey) : Op (option string) :=
  registry ← gets co_authority;
  topology ← gets co_topology;
  if is_fenced registry hop then
    op_ret (Some ("replacement generation is fenced: " +:+ key_to_string hop))
  else if negb (bool_decide (is_Some (find_switch topology hop))) then
    op_ret (Some ("replacement generation is not in the current topology: " +:+ key_to_string hop))
  else
    assessment ← assess_now hop;
    op_ret (if sa_fence_required assessment
            then Some ("replacement generation carries a fence obligation: " +:+ key_to_string hop) else None).

(** The loop over the hops stops at the first refusal. *)
Fixpoint step_refusal (hops : list SwitchKey) : Op (option string) :=
  match hops with
  | [] => op_ret None
  | hop :: hops =>
      refusal ← hop_refusal hop;
      match refusal with Some reason => op_ret (Some reason) | None => step_refusal hops end
  end.

Definition step_failed (step : RestoreStep) (detail : string) : ApplyStepResult :=
  mkStepResult (rs_dependent step) (rs_replacement step) AckState.Failed 0 0 detail.

(** Mint the authority of one restore step. *)
Definition mint_step (plan_id : Z) (step : RestoreStep) : Op ApplyStepResult :=
  refusal ← step_refusal (rs_hops step);
  match refusal with
  | Some reason => op_ret (step_failed step reason)
  | None =>
      let bound := bind_hops (rs_hops step) in
      if bool_decide (bound = []) then op_ret (step_failed step "restore step binds no generation")
      else
        granted ← grant_now (rs_dependent step) bound ("reconstruction applied under plan " +:+ dec plan_id);
        match granted with
        | Refused status => op_ret (step_failed step (status_to_string status))
        | Value _ =>
            attempt ← gets (fun c => last_attempt (co_authority c));
            op_ret (mkStepResult (rs_dependent step) (rs_replacement step) AckState.Applied attempt 0
                      "authority grant minted under the current epoch and incarnation")
        end
  end.

Definition step_applied (s : ApplyStepResult) : bool := bool_decide (sr_state s = AckState.Applied).

(** One iteration of the loop over the restore steps. *)
Definition apply_step (plan_id : Z) (done_steps : list ApplyStepResult) (step : RestoreStep) :
  Op (list ApplyStepResult) :=
  result ← mint_step plan_id step;
  modify (fun c => with_apply_steps c (store_step (co_apply_steps c) result));;
  let code := if step_applied result then Code.Ok else Code.Denied in
  record_decision DecisionKind.ApplyEffect (scope_of_dependent (sr_dependent result) "apply effect") code code []
    explanation_default;;
  op_ret (done_steps ++ [result]).

(** The receipt over the results of the steps; nothing is verified yet. *)
Definition receipt_of (plan : ReconstructionPlan) (epoch : Z) (boot : BootIncarnation)
  (steps : list ApplyStepResult) : ApplyReceipt :=
  let applied := zlen (filter (fun s => step_applied s = true) steps) in
  let failed := zlen (filter (fun s => step_applied s = false) steps) in
  let complete := (failed =? 0) && (applied =? zlen (pl_restores plan)) in
  mkReceipt (pl_id plan) epoch boot steps applied 0 failed applied complete
    (if complete then Code.Unverified else Code.PartialClosure).

Definition state_after (receipt : ApplyReceipt) : PlanState :=
  if ap_complete receipt then PlanState.Applied
  else if ap_applied receipt =? 0 then PlanState.Failed else PlanState.PartiallyApplied.

(** The write-ahead half of [apply_plan]: issue the steps and record the receipt. *)
Definition apply_steps (plan : ReconstructionPlan) (epoch : Z) (boot : BootIncarnation) : Op ApplyReceipt :=
  let plan := plan_in_state plan PlanState.Applying in
  persist_record RecordKind.PlanCommitted (encode_plan_record plan);;
  store_plan plan;;
  steps ← fold_op (apply_step (pl_id plan)) [] (pl_restores plan);
  let receipt := receipt_of plan epoch boot steps in
  let plan := plan_in_state plan (state_after receipt) in
  persist_record RecordKind.ApplyCompleted (encode_apply_receipt receipt);;
  persist_record RecordKind.PlanCommitted (encode_plan_record plan);;
  store_plan plan;;
  record_decision DecisionKind.ApplyEffect (scope_of_plan (pl_id plan) "apply plan") (ap_outcome receipt)
    Code.Unverified (pl_failed_generations plan)
    (explained [Count "applied" (ap_applied receipt); Count "failed" (ap_failed receipt);
                Count "verified" (ap_verified receipt); Flag "complete" (ap_complete receipt)]);;
  append_event EventKind.ApplyAttempted (ap_outcome receipt) "plan applied" (pl_id plan);;
  append_event EventKind.ApplyAcknowledged Code.Ok "acknowledgement is not verified effect" (pl_id plan);;
  op_ret receipt.

(** The receipt of a plan with nothing to restore. *)
Definition empty_receipt (plan : ReconstructionPlan) (epoch : Z) (boot : BootIncarnation) : ApplyReceipt :=
  mkReceipt (pl_id plan) epoch boot [] 0 0 0 0 true Code.Ok.

Definition apply_plan (request : ReconstructionPlan) : Op ApplyReceipt :=
  ensure_running;;
  require_topology no_topology;;
  retained ← gets co_plans;
  match map_find (pl_id request) retained with
  | None => refuse_with Code.NotFound "plan identity is not retained by this incarnation"
  | Some plan =>
      now_ns ← now;
      inputs ← gets (make_inputs (pl_id plan) now_ns);
      epoch ← gets co_epoch;
      boot ← gets co_boot;
      policy ← gets co_policy;
      let report := validate_plan plan inputs in
      if negb (vr_valid report) then
        store_plan (plan_in_state plan PlanState.Rejected);;
        append_event EventKind.PlanRejected Code.Invalid (report_to_string report) (pl_id plan);;
        refuse_with Code.Invalid "plan no longer validates against current inputs"
      else if negb (pl_closure_complete plan) && negb (po_allow_truncated policy) then
        refuse_with Code.PartialClosure "the dependency closure is incomplete; restoration is refused"
      else if bool_decide (pl_feasibility plan = PlanFeasibility.NothingToRestore) then
        let receipt := empty_receipt plan epoch boot in
        persist_record RecordKind.ApplyCompleted (encode_apply_receipt receipt);;
        store_plan (plan_in_state plan PlanState.Applied);;
        op_ret receipt
      else if negb (bool_decide (pl_feasibility plan = PlanFeasibility.ProvenFeasible)) then
        refuse_with Code.Indeterminate "plan feasibility is not proven; nothing may be applied"
      else apply_steps plan epoch boot
  end.

(** * Effect verification *)

(** What a verification record makes of a recorded step. *)
Definition verified_step (record : EvidenceRecord) (s : ApplyStepResult) : ApplyStepResult :=
  mkStepResult (sr_dependent s) (sr_replacement s)
    (if bool_decide (er_kind record = EvidenceKind.EffectVerification) then AckState.Verified else AckState.Failed)
    (sr_attempt s) (er_id record) (er_detail record).

(** One iteration over the restore steps of the named plan. *)
Definition verify_step (record : EvidenceRecord) (found : StepTable * bool) (step : RestoreStep) : StepTable * bool :=
  if negb (bool_decide (rs_dependent step = er_effect_dependent record)) then found
  else match map_find (rs_dependent step, rs_replacement step) found.1 with
    | None => found
    | Some s => (map_set (rs_dependent step, rs_replacement step) (verified_step record s) found.1, true)
    end.

Definition record_effect_verification (verification : EvidenceRecord) : Op unit :=
  (if negb (bool_decide (er_kind verification = EvidenceKind.EffectVerification))
      && negb (bool_decide (er_kind verification = EvidenceKind.EffectFailure))
   then refuse_with Code.Invalid "record carries no effect verification" else op_ret tt);;
  ensure_running;;
  (if kRuntimeReservedIdBase <=? er_id verification then
     refuse_with Code.Invalid "verification identity is inside the range reserved for runtime-minted ids"
   else op_ret tt);;
  epoch ← gets co_epoch;
  boot ← gets co_boot;
  let record := stamp epoch boot verification in
  admitted ← admit_to_store record;
  ensure_ok admitted;;
  append_event EventKind.ApplyVerified Code.Ok "independent verification admitted" (er_id record);;
  retained ← gets co_plans;
  match map_find (er_effect_plan record) retained with
  | None => refuse_with Code.NotFound "verification names a plan that is not retained"
  | Some plan =>
      steps ← gets co_apply_steps;
      let found := foldl (verify_step record) (steps, false) (pl_restores plan) in
      modify (fun c => with_apply_steps c found.1);;
      if found.2 then op_ret tt
      else refuse_with Code.NotFound "verification names a dependent that the plan did not restore"
  end.

(** * Restoration *)

(** The bound generations that block a restore. *)
Definition blocking_generations (c : Coordinator) (bound : GenerationVector) (now_ns : Z) : list SwitchKey :=
  filter (fun k => is_fenced (co_authority c) k || sa_fence_required (assess_at c k now_ns) = true) bound.

(** [latest_step] of the code: the step of the dependent that comes last in the
    table, which is ordered by replacement and not by time. *)
Definition latest_step (dependent : DependentRef) (steps : StepTable) : option ApplyStepResult :=
  snd <$> last (filter (fun e => e.1.1 = dependent) steps).

(** The last retained plan with a restore step of the dependent. *)
Definition latest_plan (dependent : DependentRef) (plans : PlanTable) : Z :=
  default 0 (fst <$> last (filter (fun e => existsb (fun step => bool_decide (rs_dependent step = dependent)) (pl_restores e.2) = true) plans)).

(** Outcome (also the reason), permission, verified effect, and the refusal. *)
Definition restore_verdict (blocking : list SwitchKey) (q : AuthorityQuery) (step : option ApplyStepResult)
  (policy : Policy) : Code * Code * bool * bool * list Term :=
  if negb (bool_decide (blocking = [])) then
    (Code.Fenced, Code.Fenced, false, false,
     [Text "refusal" "a bound generation is fenced or carries a fence obligation"])
  else if negb (aq_has_authority q) then
    (aq_outcome q, aq_reason q, false, false,
     [Text "refusal" "no active forwarding authority covers this dependent"])
  else match step with
    | None => (Code.Unverified, Code.Unverified, false, false,
               [Text "refusal" "no reconstruction has been applied for this dependent"])
    | Some s =>
      if bool_decide (sr_state s = AckState.Failed) then
        (Code.Denied, Code.Denied, false, false, [Text "refusal" "the recorded reconstruction attempt failed"])
      else if bool_decide (sr_state s = AckState.Verified) then (Code.Ok, Code.Ok, true, true, [])
      else if po_allow_acknowledgement policy then
        (Code.Unverified, Code.Unverified, true, false,
         [Text "refusal" "policy permits restoration on acknowledgement alone"])
      else
        (Code.Unverified, Code.Unverified, false, false,
         [Text "refusal" "forwarding effect has not been independently verified under this incarnation"])
    end.

Definition evaluate_restore (dependent : DependentRef) : Op RestoreDecision :=
  if negb (dependent_valid dependent) then refuse_with Code.Invalid "restore query names an invalid dependent"
  else
    now_ns ← now;
    q ← gets (fun c => query (co_authority c) dependent now_ns);
    blocking ← gets (fun c => blocking_generations c (aq_bound q) now_ns);
    step ← gets (fun c => latest_step dependent (co_apply_steps c));
    plan ← gets (fun c => latest_plan dependent (co_plans c));
    policy ← gets co_policy;
    let '(outcome, reason, may_restore, effect_verified, refusal) := restore_verdict blocking q step policy in
    let explanation := explained
      ([Count "active_grants" (zlen (aq_active_grants q)); Count "withdrawn_grants" (zlen (aq_withdrawn_grants q));
        Count "blocking_generations" (zlen blocking); Flag "apply_recorded" (bool_decide (is_Some step));
        Text "apply_state" (match step with Some s => ack_state_to_string (sr_state s) | None => "NONE" end);
        Text "authority_reason" (aq_rationale q)] ++ refusal) in
    record_decision DecisionKind.ServiceRestore (scope_of_dependent dependent "service restore") outcome reason
      (aq_bound q) explanation;;
    append_event EventKind.RestoreDecided outcome
      (if bool_decide (reason = Code.Ok) then "restore permitted" else "restore refused") (dep_id dependent);;
    op_ret (mkRestoreDecision dependent outcome reason may_restore effect_verified (aq_bound q) plan
              (aq_active_grants q) blocking explanation).

Definition query_authority (dependent : DependentRef) : Op AuthorityQuery :=
  if negb (dependent_valid dependent) then refuse_with Code.Invalid "authority query names an invalid dependent"
  else
    now_ns ← now;
    q ← gets (fun c => query (co_authority c) dependent now_ns);
    unproven ← gets (fun c => filter (fun k => sa_usable (assess_at c k now_ns) = false) (aq_bound q));
    let q := mkQuery (aq_dependent q) (aq_has_authority q) (aq_outcome q) (aq_reason q) (aq_bound q)
               (aq_active_grants q) (aq_withdrawn_grants q) (aq_fenced_generations q)
               (aq_unproven_generations q ++ unproven) (aq_rationale q) in
    record_decision DecisionKind.AuthorityQuery (scope_of_dependent dependent "authority query") (aq_outcome q)
      (aq_reason q) (aq_bound q)
      (explained [Flag "has_authority" (aq_has_authority q); Text "authority_reason" (aq_rationale q);
                  Count "active_grants" (zlen (aq_active_grants q));
                  Count "unproven_generations" (zlen (aq_unproven_generations q));
                  Count "fenced_generations" (zlen (aq_fenced_generations q))]);;
    op_ret q.
End runtime.
