(* ===== verification/Entries.v ===== *)
(** What the runtime hands to its journal: the payloads of its records consist
    of bytes, and apart from the stream header that opens an incarnation no
    record identifies a boot or carries a grant. *)

From S2P Require Import Prelude Containers Core Generation Switch Authority Evidence Topology Bytes Integrity Records.
From S2P Require Import Journal Wire Decision Plan Policy Payloads Candidates Coordinator.

(** * Writers of bytes *)

Class WritesBytes (m : WriterM) : Prop :=
  writes_bytes : forall w, Forall in_u8 (bw_bytes w) -> Forall in_u8 (bw_bytes (m w).2).

Lemma bytes_all bs : Forall in_u8 bs -> WritesBytes (write_all bs).
Proof.
  intros Hb w Hw. unfold write_all, write_raw. split_test; [done|]. split_test; [done|]. split_test; [done|].
  cbn [snd bw_bytes]. apply Forall_app. split; [done|by apply Forall_take].
Qed.

Lemma bytes_seq a b : WritesBytes a -> WritesBytes b -> WritesBytes (write_seq a b).
Proof. intros Ha Hb w Hw. unfold write_seq. by apply Hb, Ha. Qed.

Lemma bytes_guarded a b : WritesBytes a -> WritesBytes b -> WritesBytes (write_guarded a b).
Proof.
  intros Ha Hb w Hw. unfold write_guarded. specialize (Ha w Hw). destruct (a w) as [s w']. cbn [snd] in Ha.
  split_test; [by apply Hb|done].
Qed.

Lemma bytes_u8 v : in_u8 v -> WritesBytes (write_u8 v).
Proof. intros. apply bytes_all. by apply Forall_singleton. Qed.

Lemma bytes_u16 v : WritesBytes (write_u16 v).
Proof. apply bytes_all, le_bytes_bytes. Qed.

Lemma bytes_u32 v : WritesBytes (write_u32 v).
Proof. apply bytes_all, le_bytes_bytes. Qed.

Lemma bytes_u64 v : WritesBytes (write_u64 v).
Proof. apply bytes_all, le_bytes_bytes. Qed.

Lemma bytes_boolean b : WritesBytes (write_boolean b).
Proof. apply bytes_u8. by destruct b. Qed.

Lemma bytes_string s : WritesBytes (write_string s).
Proof. apply bytes_guarded; apply bytes_all; [apply le_bytes_bytes|apply string_bytes_u8]. Qed.

Lemma bytes_each {A} (write : A -> WriterM) l : (forall x, WritesBytes (write x)) -> WritesBytes (write_each write l).
Proof. intros Hx. induction l as [|x l IH]; [by intros w Hw|]. by apply bytes_seq. Qed.

Lemma bytes_counted {A} (write : A -> WriterM) l rest : (forall x, WritesBytes (write x)) -> WritesBytes rest ->
  WritesBytes (write_counted write l rest).
Proof. intros Hx Hr. apply bytes_seq; [apply bytes_u32|]. apply bytes_seq; [by apply bytes_each|done]. Qed.

Lemma bytes_key k : WritesBytes (write_key k).
Proof. apply bytes_seq; apply bytes_u64. Qed.

Lemma bytes_boot b : WritesBytes (write_boot b).
Proof. repeat apply bytes_seq; apply bytes_u64. Qed.

Lemma bytes_dependent d : WritesBytes (write_dependent d).
Proof. apply bytes_seq; [apply bytes_u8; by destruct (dep_kind d)|apply bytes_u64]. Qed.

Lemma written_bytes m : WritesBytes m -> Forall in_u8 (written m).
Proof. intros Hm. apply Hm. constructor. Qed.

(** A sequence of fields. *)
Ltac bytes_steps :=
  repeat match goal with
    | |- WritesBytes (write_seq _ _) => apply bytes_seq
    | |- WritesBytes (write_counted _ _ _) => apply bytes_counted; intros
    | |- WritesBytes (write_u64 _) => apply bytes_u64
    | |- WritesBytes (write_u32 _) => apply bytes_u32
    | |- WritesBytes (write_u16 _) => apply bytes_u16
    | |- WritesBytes (write_u8 _) => apply bytes_u8
    | |- WritesBytes (write_key _) => apply bytes_key
    | |- WritesBytes (write_boot _) => apply bytes_boot
    | |- WritesBytes (write_dependent _) => apply bytes_dependent
    | |- WritesBytes (write_string _) => apply bytes_string
    | |- WritesBytes (write_boolean _) => apply bytes_boolean
    end.

(** * Entries *)

Record journal_entry (kind : RecordKind.RecordKind) (payload : list Z) : Prop := {
  je_bytes : Forall in_u8 payload;
  je_kind : kind <> RecordKind.StreamHeader /\ kind <> RecordKind.GrantMinted
}.

Lemma entry_topology t : journal_entry RecordKind.TopologyInstalled (topology_payload t).
Proof. split; [|done]. apply written_bytes. bytes_steps. done. Qed.

Lemma entry_policy p : journal_entry RecordKind.PolicyInstalled (policy_encode p).
Proof.
  split; [|done]. apply written_bytes. unfold write_assessment, write_planning. bytes_steps. done.
Qed.

Lemma entry_failure r : journal_entry RecordKind.FailureCommitted (encode_failure_record r).
Proof. split; [|done]. apply written_bytes. bytes_steps. done. Qed.

Lemma entry_fence f : journal_entry RecordKind.FenceCommitted (encode_fence_record f).
Proof. split; [|done]. apply written_bytes. bytes_steps; [done|by destruct (fence_scope_state f)]. Qed.

Lemma entry_plan p : journal_entry RecordKind.PlanCommitted (encode_plan_record p).
Proof.
  split; [|done]. unfold encode_plan_record, plan_encode.
  assert (Hw : WritesBytes (write_plan p)); [|by apply Hw].
  unfold write_plan. bytes_steps; unfold write_fence_step, write_restore_step, write_unresolved; bytes_steps; try done.
  - by destruct (fs_closure_state x).
  - by destruct (rs_action x).
  - by destruct (ud_reason x).
  - by destruct (pl_feasibility p).
  - by destruct (pl_state p).
Qed.

Lemma entry_receipt r : journal_entry RecordKind.ApplyCompleted (encode_apply_receipt r).
Proof.
  split; [|done]. apply written_bytes. bytes_steps; unfold write_step_result; bytes_steps; try done.
  by destruct (sr_state x).
Qed.

Lemma u64_payload_bytes v : Forall in_u8 (encode_u64_payload v).
Proof. apply written_bytes. bytes_steps. done. Qed.

Lemma entry_shutdown v : journal_entry RecordKind.ShutdownClean (encode_u64_payload v).
Proof. split; [apply u64_payload_bytes|done]. Qed.

Lemma entry_epoch v : journal_entry RecordKind.EpochAdvance (encode_u64_payload v).
Proof. split; [apply u64_payload_bytes|done]. Qed.

Lemma stream_header_bytes version ordinal process epoch hi lo :
  Forall in_u8 (encode_stream_header version ordinal process epoch hi lo).
Proof. apply written_bytes. bytes_steps. done. Qed.

Create HintDb runtime.
#[export] Hint Resolve entry_topology entry_policy entry_failure entry_fence entry_plan entry_receipt entry_shutdown entry_epoch : runtime.
