(* ===== verification/Runtime.v ===== *)
(** Histories of the coordinator: the requests a runtime serves, what every
    request preserves, and the guarantees that follow for whole runs and
    across restarts. *)

From S2P Require Import Prelude Containers Core Generation Switch Authority Evidence Topology Bytes Integrity Records.
From S2P Require Import Journal Wire Decision Plan Policy Payloads Candidates Planner Validator Session.
From S2P Require Import Coordinator Failover Entries.

#[local] Open Scope op_scope.

(** * Requests *)

Inductive Request :=
| InstallTopology (t : TopologySnapshot)
| InstallCandidates (t : CandidateTable)
| InstallPolicy (p : Policy)
| EstablishAuthority (d : DependentRef) (bound : GenerationVector) (detail : string)
| WithdrawAuthority (d : DependentRef) (cause : RevocationCause) (detail : string)
| AdmitEvidence (r : EvidenceRecord)
| Assess (key : SwitchKey)
| AssessIdentity (id : Z)
| RecordFailure (d : FailureDeclaration)
| DeclareFailure (d : FailureDeclaration)
| ProposePlan (failed : GenerationVector)
| ValidatePlan (p : ReconstructionPlan)
| ApplyPlan (p : ReconstructionPlan)
| RecordVerification (r : EvidenceRecord)
| EvaluateRestore (d : DependentRef)
| QueryAuthority (d : DependentRef)
| OpenSession (principal : string)
| CloseSession (id : Z)
| Authorise (b : SessionBinding)
| Shutdown.

(** The status a method answers with, and the state after it. *)
Definition answer {A} (x : Result A * Coordinator) : Status * Coordinator := (result_status x.1, x.2).

Section runtime.
Context {W : World}.

Definition serve (q : Request) (c : Coordinator) : Status * Coordinator :=
  match q with
  | InstallTopology t => answer (install_topology t c)
  | InstallCandidates t => answer (install_candidates t c)
  | InstallPolicy p => answer (install_policy p c)
  | EstablishAuthority d bound detail => answer (establish_authority d bound detail c)
  | WithdrawAuthority d cause detail => answer (withdraw_authority d cause detail c)
  | AdmitEvidence r => answer (admit_evidence r c)
  | Assess key => answer (co_assess key c)
  | AssessIdentity id => answer (assess_identity id c)
  | RecordFailure d => answer (record_failure d c)
  | DeclareFailure d => answer (declare_failure d c)
  | ProposePlan failed => answer (propose_plan failed c)
  | ValidatePlan p => answer (co_validate_plan p c)
  | ApplyPlan p => answer (apply_plan p c)
  | RecordVerification r => answer (record_effect_verification r c)
  | EvaluateRestore d => answer (evaluate_restore d c)
  | QueryAuthority d => answer (query_authority d c)
  | OpenSession principal => answer (open_session principal c)
  | CloseSession id => answer (close_session id c)
  | Authorise b => answer (co_authorise b c)
  | Shutdown => answer (shutdown c)
  end.

(** A run: requests served one after the other. *)
Definition serve_all (qs : list Request) (c : Coordinator) : Coordinator := foldl (fun c q => (serve q c).2) c qs.

Lemma serve_all_app qs1 qs2 c : serve_all (qs1 ++ qs2) c = serve_all qs2 (serve_all qs1 c).
Proof. apply foldl_app. Qed.

Lemma serve_all_cons q qs c : serve_all (q :: qs) c = serve_all qs (serve q c).2.
Proof. done. Qed.

(** A generation vector of the source is canonical by construction. *)
Definition request_ok (q : Request) : Prop :=
  match q with EstablishAuthority _ bound _ => gv_wf bound | _ => True end.

(** * Reasoning about methods *)

Lemma op_bind_value {A B} (m : Op A) (k : A -> Op B) c b c' :
  op_bind m k c = (Value b, c') -> exists a c1, m c = (Value a, c1) /\ k a c1 = (Value b, c').
Proof. unfold op_bind. destruct (m c) as [[a|s] c1]; [eauto|done]. Qed.

Record within (R : Coordinator -> Coordinator -> Prop) {A} (m : Op A) : Prop := {
  within_at : forall c, R c (m c).2
}.

Section within.
Context (R : Coordinator -> Coordinator -> Prop) `{!PreOrder R}.

Lemma within_ret {A} (a : A) : within R (op_ret a).
Proof. constructor. intros c. reflexivity. Qed.

Lemma within_refuse {A} s : within R (@refuse A s).
Proof. constructor. intros c. reflexivity. Qed.

Lemma within_refuse_with {A} code message : within R (@refuse_with A code message).
Proof. constructor. intros c. reflexivity. Qed.

Lemma within_gets {A} (f : Coordinator -> A) : within R (gets f).
Proof. constructor. intros c. reflexivity. Qed.

Lemma within_bind {A B} (m : Op A) (k : A -> Op B) : within R m -> (forall a, within R (k a)) -> within R (op_bind m k).
Proof.
  intros [Hm] Hk. constructor. intros c. unfold op_bind. specialize (Hm c). destruct (m c) as [[a|s] c1]; [|done].
  cbn [snd] in Hm. etrans; [done|apply Hk].
Qed.

Lemma within_ensure_ok s : within R (ensure_ok s).
Proof. unfold ensure_ok. destruct (status_ok s); [apply within_ret|apply within_refuse]. Qed.

Lemma within_unwrap {A} (r : Result A) : within R (unwrap r).
Proof. destruct r; [apply within_ret|apply within_refuse]. Qed.

Lemma within_fold {S B} (f : S -> B -> Op S) l s : (forall s x, within R (f s x)) -> within R (fold_op f s l).
Proof.
  intros Hf. revert s. induction l as [|x l IH]; intros s; [apply within_ret|]. by apply within_bind.
Qed.

Lemma within_modify f : (forall c, R c (f c)) -> within R (modify f).
Proof. by constructor. Qed.
End within.
End runtime.

(** Read the steps of a method that answered with a value. *)
Section values.
Context {W : World}.

Lemma ensure_ok_value s c a c' : ensure_ok s c = (Value a, c') -> status_ok s = true /\ c' = c.
Proof. unfold ensure_ok. destruct (status_ok s); [by intros [= _ <-]|done]. Qed.

Lemma ensure_running_value c a c' : ensure_running c = (Value a, c') -> co_stopped c = false /\ c' = c.
Proof. unfold ensure_running, gets, op_bind. destruct (co_stopped c) eqn:E; [done|by intros [= _ <-]]. Qed.

Lemma require_topology_value message c a c' : require_topology message c = (Value a, c') ->
  co_topology_present c = true /\ c' = c.
Proof. unfold require_topology, gets, op_bind. destruct (co_topology_present c); [by intros [= _ <-]|done]. Qed.

Lemma gets_value {A} (f : Coordinator -> A) c a c' : gets f c = (Value a, c') -> a = f c /\ c' = c.
Proof. by intros [= <- <-]. Qed.

Lemma modify_value f c a c' : modify f c = (Value a, c') -> c' = f c.
Proof. by intros [= _ <-]. Qed.

Lemma unwrap_value {A} (r : Result A) c a c' : unwrap r c = (Value a, c') -> r = Value a /\ c' = c.
Proof. destruct r; [by intros [= <- <-]|done]. Qed.

(** A clock reading, or 0 without a clock. *)
Definition reading (t : Z) : Prop := t = 0 \/ exists n, t = clock_at n.

Lemma now_value c t c' : now c = (Value t, c') -> reading t.
Proof. unfold now. destruct has_clock; intros [= <- _]; [right; eauto|by left]. Qed.

Lemma within_value {A} (m : Op A) R c a c' : within R m -> m c = (Value a, c') -> R c c'.
Proof. intros [Hm] He. specialize (Hm c). by rewrite He in Hm. Qed.
End values.

Ltac op_value_as H Hm :=
  let a := fresh "a" in let c := fresh "c" in apply op_bind_value in H as (a & c & Hm & H).
Ltac op_value H := let Hm := fresh "Hm" in op_value_as H Hm.

(** Step over the parts of a method that only read. *)
Ltac op_read H :=
  repeat (cbn zeta in H;
    let Hm := fresh "Hm" in let Hok := fresh "Hok" in
    op_value_as H Hm;
    first [ apply gets_value in Hm as [-> ->]
          | apply modify_value in Hm as ->
          | apply ensure_ok_value in Hm as [Hok ->]
          | apply ensure_running_value in Hm as [Hok ->]
          | apply require_topology_value in Hm as [Hok ->]
          | apply unwrap_value in Hm as [Hok ->] ]).

(** The relation a step of the method is within. *)
Ltac op_within R H Q :=
  match type of H with ?m ?c = (Value _, ?c') =>
    assert (Q : R c c') by (refine (within_value m R c _ c' _ H); eauto with runtime) end.

(** Relations that say nothing about the clock and the logs... *)
Class Frames (R : Coordinator -> Coordinator -> Prop) : Prop := {
  frames_preorder :: PreOrder R;
  frames_ticks : forall c n, R c (with_ticks c n);
  frames_events : forall c l, R c (with_events c l);
  frames_decisions : forall c l, R c (with_decisions c l)
}.

(** ... and those that say nothing about the evidence. *)
Class FramesEvidence (R : Coordinator -> Coordinator -> Prop) : Prop :=
  frames_evidence : forall c e, R c (with_evidence c e).

(** Reduce a method to its primitive steps. Reading the table of steps is left
    alone, since what is written back to it depends on what was read. *)
Ltac within_steps :=
  repeat first
    [ progress intros
    | apply within_ret; [exact _]
    | apply within_refuse; [exact _]
    | apply within_refuse_with; [exact _]
    | apply within_gets; [exact _]
    | apply within_ensure_ok; [exact _]
    | apply within_unwrap; [exact _]
    | solve [eauto with runtime]
    | match goal with |- within _ (op_bind (gets co_apply_steps) _) => fail 2 | _ => idtac end; apply within_bind; [exact _| |]
    | apply within_fold; [exact _|]
    | match goal with
      | |- within _ (if ?b then _ else _) => destruct b
      | |- within _ (match ?x with _ => _ end) => destruct x
      | |- within _ (let '_ := ?x in _) => destruct x
      end
    | progress cbn zeta ].

#[export] Hint Extern 0 (Frames _) => exact _ : runtime.
#[export] Hint Extern 0 (FramesEvidence _) => exact _ : runtime.

Section framing.
Context {W : World} (R : Coordinator -> Coordinator -> Prop) `{!Frames R}.

Lemma frame_now : within R now.
Proof. constructor. intros c. unfold now. destruct has_clock; [apply frames_ticks|reflexivity]. Qed.

Lemma frame_running : within R ensure_running.
Proof. unfold ensure_running. within_steps. Qed.

Lemma frame_event kind code text subject generation : within R (append_event_about kind code text subject generation).
Proof. apply within_bind; [exact _|apply frame_now|]. intros t. constructor. intros c. apply frames_events. Qed.

Lemma frame_event_of kind code text subject : within R (event_of kind code text subject).
Proof. apply frame_event. Qed.

Lemma frame_plain_event kind code text subject : within R (append_event kind code text subject).
Proof. apply frame_event. Qed.

Lemma frame_decision kind scope outcome reason bound explanation :
  within R (record_decision kind scope outcome reason bound explanation).
Proof. apply within_bind; [exact _|apply frame_now|]. intros t. constructor. intros c. apply frames_decisions. Qed.

Lemma frame_assess_now key : within R (assess_now key).
Proof. apply within_bind; [exact _|apply frame_now|]. intros t. apply within_gets. exact _. Qed.

Lemma frame_require_topology message : within R (require_topology message).
Proof. unfold require_topology. within_steps. Qed.
Context `{!FramesEvidence R}.

Lemma frame_admit record : within R (admit_to_store record).
Proof.
  apply within_bind; [exact _|apply frame_now|]. intros t. constructor. intros c.
  destruct (admit_record _ _ _). apply frames_evidence.
Qed.
End framing.

(** Relations that say nothing about a subsystem hold for its methods. *)
Section subsystems.
Context {W : World} (R : Coordinator -> Coordinator -> Prop) `{!Frames R}.

Lemma within_on_failures {A} (f : FailureTable -> A * FailureTable) : (forall c t, R c (with_failures c t)) ->
  within R (on_failures f).
Proof. intros H. constructor. intros c. unfold on_failures. destruct (f _); apply H. Qed.

Lemma within_on_authority {A} (f : AuthorityRegistry -> A * AuthorityRegistry) :
  (forall c r, R c (with_authority c r)) -> within R (on_authority f).
Proof. intros H. constructor. intros c. unfold on_authority. destruct (f _). apply H. Qed.

Lemma within_grant_now d bound detail : (forall c r, R c (with_authority c r)) -> within R (grant_now d bound detail).
Proof.
  intros H. apply within_bind; [exact _|by apply frame_now|]. intros t. constructor. intros c. 
  unfold gets, op_bind. by apply (within_on_authority _ H).
Qed.

Lemma within_persist kind payload : (forall c s d n, R c (with_durable c s d n)) -> within R (persist_record kind payload).
Proof.
  intros H. constructor. intros c. unfold persist_record. destruct (co_store c); [|reflexivity].
  destruct (Journal.append _ _ _ _ _ _) as [[? ?] ?]. apply H.
Qed.

Lemma within_close_store : (forall c s d n, R c (with_durable c s d n)) -> within R close_store.
Proof.
  intros H. constructor. intros c. unfold close_store. destruct (co_store c); [|reflexivity].
  destruct (Journal.close _ _). apply H.
Qed.
End subsystems.

#[export] Hint Resolve frame_now frame_running frame_event frame_event_of frame_plain_event frame_decision frame_admit
  frame_assess_now frame_require_topology : runtime.

(** * Requests, step by step

    What a relation must satisfy to relate the states before and after every
    request: it holds for the primitive steps the methods are made of. [V]
    holds of the effect records submitted for verification. *)
Class Serves {W : World} (V : EvidenceRecord -> Prop) (R : Coordinator -> Coordinator -> Prop) : Prop := {
  serves_frames :: Frames R;
  serves_evidence :: FramesEvidence R;
  serves_sessions : forall c t, R c (with_session_table c t);
  serves_topology : forall c t, R c (with_topology c true t);
  serves_candidates : forall c t, R c (with_candidates c t true);
  serves_policy : forall c p, R c (with_policy c p);
  serves_store_step : forall c s, sr_state s <> AckState.Verified ->
    R c (with_apply_steps c (store_step (co_apply_steps c) s));
  serves_verify : forall c epoch boot r plan, V r ->
    R c (with_apply_steps c (foldl (verify_step (stamp epoch boot r)) (co_apply_steps c, false) (pl_restores plan)).1);
  serves_next_plan : forall c n, R c (with_next_plan c n);
  serves_next_evidence : forall c n, R c (with_next_evidence c n);
  serves_store_plan : forall p, within R (store_plan p);
  serves_supersede : forall k, within R (supersede_plans k);
  serves_evict : forall c n, R c (with_plans c (evict_plans (length (co_plans c)) n (co_plans c)));
  serves_failures : forall r, within R (on_failures (fun t => failure_record t r));
  serves_grant : forall d bound detail, gv_wf bound -> within R (grant_now d bound detail);
  serves_fence_generations : forall gens, within R (on_authority (fun r => fence_generations r gens));
  serves_revoke : forall d cause detail, within R (on_authority (fun r => revoke_dependent r d cause detail));
  serves_commit : forall f, within R (on_authority (fun r => commit_fence r f));
  serves_persist : forall kind payload, journal_entry kind payload -> within R (persist_record kind payload);
  serves_stop : forall c, R c (with_stopped c true);
  serves_close : within R close_store
}.

Lemma bind_hops_wf hops : gv_wf (bind_hops hops).
Proof.
  unfold bind_hops. assert (H : gv_wf []) by done. revert H. generalize (@nil SwitchKey).
  induction hops as [|k hops IH]; intros v Hv; [done|]. simpl. apply IH. by apply gv_insert_spec.
Qed.

(** A minted step is at most acknowledged. *)
Lemma mint_step_unverified {W : World} id step c s c' : mint_step id step c = (Value s, c') ->
  sr_state s <> AckState.Verified.
Proof.
  unfold mint_step. intros H. op_value H. destruct a; [by injection H as <- _|]. cbn zeta in H.
  split_test; [by injection H as <- _|]. op_value H. destruct a; [|by injection H as <- _]. op_read H. by injection H as <- _.
Qed.

(** The verification records of a request are among [V]. *)
Definition request_in (V : EvidenceRecord -> Prop) (q : Request) : Prop :=
  match q with RecordVerification r => V r | _ => True end.

Section serving.
Context {W : World} (V : EvidenceRecord -> Prop) (R : Coordinator -> Coordinator -> Prop) `{!Serves V R}.

#[local] Hint Resolve serves_store_plan serves_supersede serves_failures serves_grant serves_fence_generations serves_revoke
  serves_commit serves_persist serves_close bind_hops_wf : runtime.
#[local] Hint Extern 1 (within R (modify _)) => constructor; intros ?; 
  first [apply serves_topology|apply serves_candidates|apply serves_policy|apply serves_next_plan
        |apply serves_next_evidence|apply serves_evict|apply serves_stop] : runtime.

Lemma serves_on_sessions {A} (f : SessionRegistry -> A * SessionRegistry) : within R (on_sessions f).
Proof. constructor. intros c. unfold on_sessions. destruct (f (co_sessions c)). apply serves_sessions. Qed.

Lemma serves_establish_declared granted declared : within R (establish_declared granted declared).
Proof. unfold establish_declared. within_steps. Qed.

Lemma serves_record_failure_locked d : within R (record_failure_locked d).
Proof. unfold record_failure_locked. within_steps. Qed.

Lemma serves_establish_fence d cl n : within R (establish_fence d cl n).
Proof. unfold establish_fence. within_steps. Qed.

Lemma serves_step_refusal hops : within R (step_refusal hops).
Proof. induction hops as [|hop hops IH]; [within_steps|]. simpl. unfold hop_refusal. within_steps. Qed.
#[local] Hint Resolve serves_on_sessions serves_establish_declared serves_record_failure_locked serves_establish_fence
  serves_step_refusal : runtime.

Lemma serves_apply_step id steps step : within R (apply_step id steps step).
Proof.
  assert (Hm : within R (mint_step id step)) by (unfold mint_step; within_steps). unfold apply_step.
  constructor. intros c. unfold op_bind at 1. pose proof (within_at _ _ Hm c) as Hc.
  destruct (mint_step id step c) as [[s|st] c1] eqn:E; [|done]. cbn [snd] in Hc. etrans; [exact Hc|].
  apply mint_step_unverified in E. apply (within_at R). apply within_bind; [exact _| |within_steps].
  constructor. intros c2. by apply serves_store_step.
Qed.

Lemma serves_verify_steps {A} r epoch boot plan (k : StepTable -> Op A) : V r -> (forall steps, within R (k steps)) ->
  within R (op_bind (gets co_apply_steps) (fun steps => op_bind (modify (fun c => with_apply_steps c
    (foldl (verify_step (stamp epoch boot r)) (steps, false) (pl_restores plan)).1)) (fun _ => k steps))).
Proof.
  intros Hr Hk. constructor. intros c. unfold gets, modify, op_bind. etrans; [|apply Hk]. by apply serves_verify.
Qed.

Lemma serves_verification r : V r -> within R (record_effect_verification r).
Proof.
  intros Hr. unfold record_effect_verification. cbn zeta. within_steps. apply serves_verify_steps; [done|]. within_steps.
Qed.
#[local] Hint Resolve serves_apply_step serves_verification : runtime.

Lemma serves_settle_store : within R settle_store.
Proof.
  constructor. intros c. unfold settle_store. destruct (co_store c) as [s|]; [|reflexivity].
  pose proof (serves_persist _ _ (entry_shutdown (co_epoch c))) as [Hp]. specialize (Hp c).
  destruct (persist_record _ _ c) as [r c1]. cbn [snd] in Hp.
  pose proof (within_at _ _ serves_close c1) as Hc. destruct (close_store c1) as [[st|st] c2]; by etrans.
Qed.
#[local] Hint Resolve serves_settle_store : runtime.

Lemma serves_apply_steps_of plan epoch boot : within R (apply_steps plan epoch boot).
Proof. unfold apply_steps. within_steps. Qed.
#[local] Hint Resolve serves_apply_steps_of : runtime.

(** Every request is within the relation. *)
Lemma serve_within q c : request_ok q -> request_in V q -> R c (serve q c).2.
Proof.
  intros Hq Hv. destruct q; cbn [serve answer snd]; apply (within_at R); cbn [request_ok request_in] in Hq, Hv.
  - unfold install_topology. within_steps.
  - unfold install_candidates. within_steps.
  - unfold install_policy. within_steps.
  - unfold establish_authority. within_steps.
  - unfold withdraw_authority. within_steps.
  - unfold admit_evidence. within_steps.
  - unfold co_assess. within_steps.
  - unfold assess_identity. within_steps.
  - unfold record_failure. within_steps.
  - unfold declare_failure. within_steps.
  - unfold propose_plan. within_steps.
  - unfold co_validate_plan. within_steps.
  - unfold apply_plan. within_steps.
  - by apply serves_verification.
  - unfold evaluate_restore. within_steps.
  - unfold query_authority. within_steps.
  - unfold open_session. within_steps.
  - unfold close_session. within_steps.
  - unfold co_authorise. within_steps.
  - unfold shutdown. within_steps.
Qed.

Lemma serve_all_within qs c : Forall request_ok qs -> Forall (request_in V) qs -> R c (serve_all qs c).
Proof.
  intros Hq. revert c. induction Hq as [|q qs Hq _ IH]; intros c; [reflexivity|]. intros [Hv Hvs]%Forall_cons.
  etrans; [by apply serve_within|by apply IH].
Qed.
End serving.

Abbreviation any_record := (fun _ : EvidenceRecord => True).

Lemma any_request q : request_in any_record q.
Proof. by destruct q. Qed.

Lemma any_requests qs : Forall (request_in any_record) qs.
Proof. apply Forall_forall. intros q _. apply any_request. Qed.

(** * What a run preserves *)

(** The table of grants is bounded, and identities are handed out in step with
    it, so the counter never wraps. *)
Record registry_bounded (r : AuthorityRegistry) : Prop := {
  rb_wf : registry_wf r;
  rb_next : ar_next_grant r = map_size (ar_grants r) + 1;
  rb_size : map_size (ar_grants r) <= max_authority_grants (ar_limits r);
  rb_limit : max_authority_grants (ar_limits r) <= kHardMaxElements
}.

(** Every Active grant was minted under this identity. *)
Definition minted_under (epoch : Z) (boot : BootIncarnation) (r : AuthorityRegistry) : Prop :=
  forall id g, map_find id (ar_grants r) = Some g -> ag_state g = GrantState.Active ->
    ag_epoch g = epoch /\ ag_boot g = boot.

(** The journal file has only been appended to. *)
Definition journal_extends (d d' : Disk) : Prop :=
  forall bytes, disk_journal d = Some bytes -> exists more, disk_journal d' = Some (bytes ++ more).

#[export] Instance journal_extends_preorder : PreOrder journal_extends.
Proof.
  split.
  - intros d bytes ->. exists []. by rewrite app_nil_r.
  - intros d1 d2 d3 H12 H23 bytes H1. destruct (H12 _ H1) as [m1 H2]. destruct (H23 _ H2) as [m2 H3].
    exists (m1 ++ m2). by rewrite app_assoc.
Qed.

(** [c'] comes later in the same run as [c]. *)
Record later (c c' : Coordinator) : Prop := {
  lt_epoch : co_epoch c' = co_epoch c;
  lt_boot : co_boot c' = co_boot c;
  lt_boot_digest : co_boot_digest c' = co_boot_digest c;
  lt_limits : co_limits c' = co_limits c;
  lt_stopped : co_stopped c = true -> co_stopped c' = true;
  lt_failures : forall k, failure_contains (co_failures c) k = true -> failure_contains (co_failures c') k = true;
  lt_journal : journal_extends (co_disk c) (co_disk c');
  lt_retired : forall k, retired k (co_authority c) -> retired k (co_authority c');
  lt_minted : minted_under (co_epoch c) (co_boot c) (co_authority c) ->
    minted_under (co_epoch c') (co_boot c') (co_authority c');
  lt_bounded : registry_bounded (co_authority c) ->
    registry_bounded (co_authority c') /\ rtc registry_step (co_authority c) (co_authority c')
}.

#[export] Instance later_preorder : PreOrder later.
Proof.
  split; [by intros c; split|]. intros c1 c2 c3 [E1 B1 D1 L1 S1 F1 J1 R1 M1 A1] [E2 B2 D2 L2 S2 F2 J2 R2 M2 A2].
  split; [congruence..|auto|auto|by etrans|auto|auto|]. intros H1. destruct (A1 H1) as [H2 H12]. destruct (A2 H2) as [H3 H23].
  split; [done|by etrans].
Qed.

(** Assignments to members the relation does not constrain. *)
Lemma later_same c c' :
  co_epoch c' = co_epoch c -> co_boot c' = co_boot c -> co_boot_digest c' = co_boot_digest c ->
  co_limits c' = co_limits c -> co_stopped c' = co_stopped c -> co_failures c' = co_failures c ->
  co_disk c' = co_disk c -> co_authority c' = co_authority c -> later c c'.
Proof. intros He Hb ?? Hs Hf Hd Ha. split; rewrite ?He, ?Hb, ?Hs, ?Hf, ?Hd, ?Ha; done || eauto using rtc_refl. Qed.

#[export] Instance later_frames : Frames later.
Proof. split; [exact _|..]; intros; by apply later_same. Qed.
#[export] Instance later_frames_evidence : FramesEvidence later.
Proof. intros c e. by apply later_same. Qed.


Section preservation.
Context {W : World}.

Lemma later_with_authority c r :
  (forall k, retired k (co_authority c) -> retired k r) ->
  (minted_under (co_epoch c) (co_boot c) (co_authority c) -> minted_under (co_epoch c) (co_boot c) r) ->
  (registry_bounded (co_authority c) -> registry_bounded r /\ rtc registry_step (co_authority c) r) ->
  later c (with_authority c r).
Proof. by split. Qed.

(** Operations of the registry that mint nothing. *)
Lemma later_authority {A} (f : AuthorityRegistry -> A * AuthorityRegistry) :
  (forall k r, retired k r -> retired k (f r).2) ->
  (forall r id g, map_find id (ar_grants (f r).2) = Some g -> ag_state g = GrantState.Active ->
     map_find id (ar_grants r) = Some g) ->
  (forall r, registry_bounded r -> registry_bounded (f r).2 /\ rtc registry_step r (f r).2) ->
  within later (on_authority f).
Proof.
  intros Hk Hm Hb. constructor. intros c. unfold on_authority.
  pose proof (fun k => Hk k (co_authority c)) as Hk'. specialize (Hm (co_authority c)). specialize (Hb (co_authority c)).
  destruct (f (co_authority c)) as [a r]. cbn [snd] in *. apply later_with_authority; [done| |done].
  intros H id g Hg Ha. by apply (H id g), Ha; apply Hm.
Qed.

Lemma later_persist kind payload : within later (persist_record kind payload).
Proof.
  constructor. intros c. unfold persist_record. destruct (co_store c) as [s|]; [|reflexivity].
  destruct (Journal.append _ _ _ _ _ _) as [[status s'] disk] eqn:E. cbn [snd]. split; try done.
  cbn [co_disk with_durable]. revert E. unfold Journal.append.
  destruct (negb (ds_open s)); [by intros [= _ _ <-]|]. destruct (_ <=? _); [by intros [= _ _ <-]|].
  destruct (negb _); [by intros [= _ _ <-]|]. destruct (encode_record _ _) as [bs|]; [|by intros [= _ _ <-]].
  intros H. assert (disk = disk_with_journal (co_disk c) (Some (append_bytes (write_answer (co_writes c))
    (default [] (disk_journal (co_disk c))) bs))) as -> by (revert H; repeat case_match; congruence).
  intros bytes Hb. cbn [disk_journal disk_with_journal]. rewrite Hb. cbn [default]. unfold append_bytes.
  destruct (_ && _); eauto.
Qed.

Lemma later_failures record : within later (on_failures (fun t => failure_record t record)).
Proof.
  constructor. intros c. unfold on_failures. destruct (failure_record _ record) as [s t] eqn:E. split; try done.
  cbn [snd co_failures with_failures]. intros k. revert E. unfold failure_record.
  do 2 (split_test; [by intros [= _ <-]|]).
  assert (Hset : failure_contains (co_failures c) k = true ->
    failure_contains (map_set (fr_subject record) record (co_failures c)) k = true).
  { unfold failure_contains. rewrite !map_contains_true. intros [v Hv]. rewrite map_find_set. case_bool_decide; eauto. }
  destruct (map_find _ _); [split_test|]; intros [= _ <-]; done.
Qed.
End preservation.

(** ** The registry operations of the runtime *)

Lemma grant_bounded r dep bound epoch boot now ttl detail :
  gv_wf bound -> registry_bounded r ->
  let r' := (grant r dep bound epoch boot now ttl detail).2 in
  registry_bounded r' /\ rtc registry_step r r'.
Proof.
  intros Hb [Hwf Hn Hs Hl]. assert (Hlim : ar_next_grant r < UINT64_MAX).
  { rewrite Hn. unfold kHardMaxElements in Hl. change (Z.shiftl 64 20) with 67108864 in Hl. ints_lia. }
  cbn zeta. split; [|by apply rtc_once, step_grant].
  pose proof (grant_wf r dep bound epoch boot now ttl detail Hwf Hb Hlim) as Hwf'. split; [done| | |]; revert Hwf'.
  all: unfold grant; do 4 (split_test; [done|]); (destruct (List.find _ _); [done|]); split_test; [done|].
  all: intros _; cbn [snd ar_next_grant ar_grants ar_limits]; try done.
  all: bool_prop; unfold map_emplace, map_contains; rewrite fresh_grant_id, map_size_set_new by (done || by apply fresh_grant_id).
  - rewrite add64_small by (pose proof (rwf_next _ Hwf); ints_lia). lia.
  - lia.
Qed.

Lemma retired_grant k r dep bound epoch boot now ttl detail :
  retired k r -> retired k (grant r dep bound epoch boot now ttl detail).2.
Proof.
  apply retired_kept; [intros; by eapply grant_origin|]. intros Hk. unfold grant. do 4 (split_test; [done|]).
  destruct (List.find _ _); [done|]. by split_test.
Qed.

Lemma grant_minted r dep bound epoch boot now ttl detail :
  minted_under epoch boot r -> minted_under epoch boot (grant r dep bound epoch boot now ttl detail).2.
Proof.
  intros Hm id g. unfold grant. do 4 (split_test; [apply Hm|]). destruct (List.find _ _); [apply Hm|].
  split_test; [apply Hm|]. cbn [snd ar_grants]. unfold map_emplace. split_test; [apply Hm|].
  rewrite map_find_set. clear Heqb0. case_bool_decide; [|apply Hm]. by intros [= <-].
Qed.

(** A step that keeps the number of grants and the counter. *)
Lemma step_bounded r r' : registry_step r r' -> ar_next_grant r' = ar_next_grant r ->
  map_size (ar_grants r') = map_size (ar_grants r) -> ar_limits r' = ar_limits r ->
  registry_bounded r -> registry_bounded r' /\ rtc registry_step r r'.
Proof.
  intros Hstep Hn Hs Hl [Hwf Hb1 Hb2 Hb3]. split; [|by apply rtc_once].
  split; [by eapply registry_step_wf|..]; rewrite ?Hn, ?Hs, ?Hl; done.
Qed.

Lemma revoke_ids_size ids cause detail grants n : map_wf grants ->
  map_size (revoke_ids ids cause detail grants n).2 = map_size grants.
Proof.
  revert grants n. induction ids as [|id ids IH]; intros grants n Hwf; [done|]. cbn [revoke_ids].
  destruct (map_find id grants) as [g|] eqn:E; [|by apply IH]. split_test; [by apply IH|].
  rewrite IH by auto. by eapply map_size_set_old.
Qed.

Lemma fence_generations_bounded r gens : registry_bounded r ->
  registry_bounded (fence_generations r gens).2 /\ rtc registry_step r (fence_generations r gens).2.
Proof. apply step_bounded; [apply step_fence_generations|done|apply map_size_update|done]. Qed.

Lemma revoke_dependent_bounded r d cause detail : registry_bounded r ->
  registry_bounded (revoke_dependent r d cause detail).2 /\ rtc registry_step r (revoke_dependent r d cause detail).2.
Proof.
  intros Hb. apply step_bounded; [apply step_revoke_dependent|..|done]; unfold revoke_dependent;
    destruct (map_find d _) as [ids|]; try done.
  all: pose proof (revoke_ids_size ids cause detail (ar_grants r) 0 (rwf_grants _ (rb_wf _ Hb))).
  all: by destruct (revoke_ids ids cause detail (ar_grants r) 0).
Qed.

Lemma commit_fence_bounded r f : registry_bounded r ->
  registry_bounded (commit_fence r f).2 /\ rtc registry_step r (commit_fence r f).2.
Proof. apply step_bounded; [apply step_commit_fence|..]; unfold commit_fence; by repeat split_test. Qed.

Lemma retired_by_step k r r' : registry_step r r' -> retired k r -> retired k r'.
Proof. intros Hs. apply retired_kept; [intros; by eapply registry_step_origin|by apply registry_step_fenced]. Qed.

Section methods.
Context {W : World}.

(** Minting under the current identity. *)
Lemma later_grant_now dep bound detail : gv_wf bound -> within later (grant_now dep bound detail).
Proof.
  intros Hb. apply within_bind; [exact _|auto with runtime|]. intros t. constructor. intros c.
  unfold gets, op_bind, on_authority. destruct (grant _ _ _ _ _ _ _ _) as [a r] eqn:E. cbn [snd].
  assert (r = (grant (co_authority c) dep bound (co_epoch c) (co_boot c) t (po_grant_ttl_ns (co_policy c)) detail).2)
    as -> by (by rewrite E).
  apply later_with_authority; [intros; by apply retired_grant|apply grant_minted|intros; by apply grant_bounded].
Qed.

Lemma later_fence_generations gens : within later (on_authority (fun r => fence_generations r gens)).
Proof.
  apply later_authority; [| |intros; by apply fence_generations_bounded].
  - intros k r. apply retired_by_step, step_fence_generations.
  - intros r id g Hg. simpl in Hg. rewrite map_find_update in Hg. destruct (map_find id (ar_grants r)) as [g0|]; [|done].
    simpl in Hg. injection Hg as <-. by destruct (_ && _).
Qed.

Lemma later_revoke_dependent d cause detail : within later (on_authority (fun r => revoke_dependent r d cause detail)).
Proof.
  apply later_authority; [| |intros; by apply revoke_dependent_bounded].
  - intros k r. apply retired_by_step, step_revoke_dependent.
  - intros r id g. unfold revoke_dependent. destruct (map_find d _) as [ids|]; [|done].
    pose proof (revoke_ids_origin ids cause detail r 0 id g) as Ho. by destruct (revoke_ids _ _ _ _ _).
Qed.

Lemma later_commit_fence f : within later (on_authority (fun r => commit_fence r f)).
Proof.
  apply later_authority; [| |intros; by apply commit_fence_bounded].
  - intros k r. apply retired_by_step, step_commit_fence.
  - intros r id g. unfold commit_fence. by repeat split_test.
Qed.

#[export] Instance later_serves V : Serves V later.
Proof.
  split; try exact _; try (intros; by apply later_same).
  - intros p. constructor. intros c. by apply later_same.
  - intros k. constructor. intros c. by apply later_same.
  - apply later_failures.
  - apply later_grant_now.
  - apply later_fence_generations.
  - apply later_revoke_dependent.
  - apply later_commit_fence.
  - intros kind payload _. apply later_persist.
  - intros c. by split.
  - constructor. intros c. unfold close_store. destruct (co_store c); [|reflexivity].
    destruct (Journal.close _ _). by apply later_same.
Qed.

(** Every request of a run leads to a later state. *)
Lemma serve_later q c : request_ok q -> later c (serve q c).2.
Proof. intros Hq. apply (serve_within any_record); [exact _|done|apply any_request]. Qed.

Lemma serve_all_later qs c : Forall request_ok qs -> later c (serve_all qs c).
Proof. intros Hq. apply (serve_all_within any_record); [exact _|done|apply any_requests]. Qed.

Lemma later_record_failure_locked d : within later (record_failure_locked d).
Proof. apply (serves_record_failure_locked any_record). exact _. Qed.

Lemma later_establish_fence d cl n : within later (establish_fence d cl n).
Proof. apply (serves_establish_fence any_record). exact _. Qed.

Lemma later_supersede k : within later (supersede_plans k).
Proof. apply (serves_supersede (V := any_record)). Qed.
End methods.
