(* ===== verification/Fencing.v ===== *)
(** Failure declarations: what [Coordinator::declare_failure] guarantees for
    the rest of the run, and for every later incarnation that reopens the
    journal. *)

From S2P Require Import Prelude Containers Core Generation Switch Authority Evidence Topology Bytes Integrity Records.
From S2P Require Import Journal Wire Decision Plan Policy Payloads Candidates Planner Validator Session.
From S2P Require Import Coordinator Failover Entries Runtime.

#[local] Open Scope op_scope.

(** * Declaring a failure *)

Section declaring.
Context {W : World}.

Lemma declaration_valid d : status_ok (declaration_validate d) = true ->
  key_valid (fd_subject d) = true /\ trust_of (fd_source d) = TrustLevel.Authoritative /\ fd_observed_at_ns d <> 0 /\
  str_size (fd_reason d) <= kMaxMessageBytes.
Proof.
  unfold declaration_validate. repeat (split_test; [by rewrite failure_not_ok|]). bool_prop. intros _. lia || tauto.
Qed.

Lemma failure_record_contains t r s t' : failure_record t r = (s, t') -> status_ok s = true ->
  failure_contains t' (fr_subject r) = true.
Proof.
  unfold failure_record, failure_contains. split_test; [intros [= <- _]; by rewrite failure_not_ok|].
  split_test; [intros [= <- _]; by rewrite failure_not_ok|]. intros E _. apply map_contains_true. revert E.
  destruct (map_find (fr_subject r) t) as [f|] eqn:E; [split_test|]; intros [= _ <-]; [eauto|..];
    rewrite map_find_set_eq; eauto.
Qed.
End declaring.

(** Steps that leave the journal, the registry and the identity alone. *)
Record quiet (c c' : Coordinator) : Prop := {
  quiet_store : co_store c' = co_store c;
  quiet_disk : co_disk c' = co_disk c;
  quiet_authority : co_authority c' = co_authority c;
  quiet_epoch : co_epoch c' = co_epoch c;
  quiet_boot : co_boot c' = co_boot c
}.

#[export] Instance quiet_frames : Frames quiet.
Proof. split; [split|..]; [done|intros c1 c2 c3 [] []; split; congruence|done..]. Qed.
#[export] Instance quiet_frames_evidence : FramesEvidence quiet.
Proof. by intros c e. Qed.

#[export] Hint Extern 1 (within quiet (modify _)) => constructor; done : runtime.

Section declaring.
Context {W : World}.

Lemma quiet_failures record : within quiet (on_failures (fun t => failure_record t record)).
Proof. by apply within_on_failures. Qed.

Lemma quiet_supersede k : within quiet (supersede_plans k).
Proof. by constructor. Qed.

#[local] Hint Resolve quiet_failures quiet_supersede : runtime.

(** What the answer of [record_failure_locked] says: the declaration was
    valid, its record was handed to the journal and is in the failure table. *)
Lemma record_failure_value d c r c' :
  record_failure_locked d c = (Value r, c') ->
  status_ok (declaration_validate d) = true /\ failure_contains (co_failures c') (fd_subject d) = true /\
  exists c1 c2 n t,
    quiet c c1 /\ persist_record RecordKind.FailureCommitted (encode_failure_record r) c1 = (Value tt, c2) /\
    quiet c2 c' /\ reading t /\ n = co_next_evidence c /\
    r = mkFailureRecord (fd_subject d) (add64 kRuntimeReservedIdBase n) (co_epoch c) (co_boot c)
          (fd_observed_at_ns d) t (fd_reason d).
Proof.
  unfold record_failure_locked. intros H. op_read H. split; [done|]. cbn zeta in H.
  op_value H. op_within quiet Hm Q1. clear Hm. op_read H.
  op_value H. op_within quiet Hm Q2. clear Hm.
  split_test; [by op_value H|]. split_test; [done|].
  op_value H. op_within quiet Hm Q3. apply now_value in Hm as Ht. clear Hm. cbn zeta in H.
  op_value H. rename Hm into Hpersist. op_value H. op_within quiet Hm Q4. rename Hm into Hfail. op_read H.
  op_value H. op_within quiet Hm Q5. op_within later Hm L5. clear Hm.
  injection H as <- <-. split.
  - apply (lt_failures _ _ L5). revert Hfail. unfold on_failures.
    destruct (failure_record _ _) as [s t] eqn:E. intros [= <- <-]. cbn [co_failures with_failures].
    exact (failure_record_contains _ _ _ _ E Hok3).
  - destruct a7. eexists _, _, _, _. split; [|split; [exact Hpersist|]]; [|split; [by etrans|split; [exact Ht|done]]].
    etrans; [|exact Q3]. etrans; [|exact Q2]. etrans; [|exact Q1]. by split.
Qed.
End declaring.

#[export] Hint Resolve quiet_failures quiet_supersede later_supersede : runtime.

Section fencing.
Context {W : World}.

(** The fence is the one that stood already, or it was committed to the
    registry and then handed to the journal. *)
Lemma establish_fence_value d cl n c f deferred c' :
  establish_fence d cl n c = (Value (f, deferred), c') ->
  (deferred = true /\ c' = c /\ is_fenced (co_authority c) (fd_subject d) = true) \/
  (deferred = false /\ is_fenced (co_authority c) (fd_subject d) = false /\
   exists c1 t id r',
     quiet c c1 /\ reading t /\
     let fence := fence_of d (co_epoch c) (co_boot c) t cl n in
     commit_fence (co_authority c) fence = (Value id, r') /\ f = fence_with_id fence id (fence_reason fence) /\
     persist_record RecordKind.FenceCommitted (encode_fence_record f) (with_authority c1 r') = (Value tt, c')).
Proof.
  unfold establish_fence. intros H. op_read H. split_test.
  - injection H as <- <- <-. by left.
  - right. op_read H. op_value H. op_within quiet Hm Q1. apply now_value in Hm as Ht. clear Hm. cbn zeta in H.
    op_value H. unfold on_authority in Hm. rewrite (quiet_authority _ _ Q1) in Hm.
    destruct (commit_fence _ _) as [committed r'] eqn:Ec. injection Hm as <- <-. op_read H. subst committed.
    op_value H. injection H as <- <- <-. destruct a1. split; [done|]. split; [done|]. by exists c0, a, a0, r'.
Qed.

Lemma declare_failure_value d c o c' :
  declare_failure d c = (Value o, c') ->
  key_valid (fd_subject d) = true /\
  exists r c1 c2 c3 f,
    record_failure_locked d c = (Value r, c1) /\
    quiet c1 c2 /\ later c1 c2 /\ let fenced := fence_generations (co_authority c2) [fd_subject d] in
    establish_fence d (fo_closure o) (fo_grants_fenced o) (with_authority c2 fenced.2) = (Value (f, fo_deferred o), c3) /\
    fo_grants_fenced o = fenced.1 /\ quiet c3 c' /\ later c3 c' /\
    fo_failed o = fd_subject d /\ fo_failure o = r /\ fo_fence o = fence_id f.
Proof.
  unfold declare_failure. intros H. op_read H. apply declaration_valid in Hok as (Hk & _). split; [done|].
  assert (Hroots : (gv_insert [] (fd_subject d)).1 = [fd_subject d]) by (unfold gv_insert; by rewrite Hk).
  op_value H. rename Hm into Hrecord. cbn zeta in H. rewrite Hroots in H. op_read H.
  op_value H. op_within quiet Hm Q1. op_within later Hm L1. clear Hm. op_value H. unfold on_authority in Hm.
  destruct (fence_generations (co_authority c1) [fd_subject d]) as [n r'] eqn:Ef. injection Hm as <- <-.
  op_value H. rename Hm into Hfence. destruct a3 as [f deferred]. cbn zeta in H. cbn [fst snd] in H.
  op_value H. op_within quiet Hm Q2. op_within later Hm L2. clear Hm.
  op_value H. op_within quiet Hm Q3. op_within later Hm L3. clear Hm.
  op_value H. op_within quiet Hm Q4. op_within later Hm L4. clear Hm.
  op_value H. assert (Q5 : quiet c5 c6 /\ later c5 c6).
  { revert Hm. split_test; [by intros [= _ <-]|]. intros Hm. op_within quiet Hm Q5. op_within later Hm L5. done. }
  injection H as <- <-. destruct Q5 as [Q5 L5]. cbn [fo_closure fo_grants_fenced fo_deferred fo_failed fo_failure fo_fence].
  exists a1, c0, c1, c2, f. split; [done|]. split; [done|]. split; [done|]. cbn zeta. rewrite Ef. split; [done|]. split; [done|].
  split; [by do 3 (etrans; [done|])|]. split; [by do 3 (etrans; [done|])|done].
Qed.
End fencing.

Section retiring.
Context {W : World}.

(** A declaration that was answered retires its generation. *)
Lemma declared_retires d c o c' :
  registry_bounded (co_authority c) -> declare_failure d c = (Value o, c') ->
  retired (fd_subject d) (co_authority c') /\ failure_contains (co_failures c') (fd_subject d) = true /\ later c c'.
Proof.
  intros Hb H. assert (L : later c c').
  { change c' with ((Value o, c').2). rewrite <- H. exact (serve_later (DeclareFailure d) c I). }
  destruct (declare_failure_value _ _ _ _ H) as (Hk & r & c1 & c2 & c3 & f & Hr & Q1 & L12 & Hf & _ & _ & L3 & _).
  destruct (record_failure_value _ _ _ _ Hr) as (_ & Hc1 & _).
  assert (L1 : later c c1) by (eapply within_value; [apply later_record_failure_locked|done]).
  destruct (lt_bounded _ _ L1 Hb) as [Hb1 _]. rewrite <- (quiet_authority _ _ Q1) in Hb1.
  assert (Lf : later (with_authority c2 (fence_generations (co_authority c2) [fd_subject d]).2) c3)
    by (eapply within_value; [apply later_establish_fence|done]).
  split; [|split; [|done]].
  - apply (lt_retired _ _ L3).
    destruct (establish_fence_value _ _ _ _ _ _ _ Hf) as [(_ & -> & Hfenced)|(_ & _ & ca & t & id & r' & Qa & _ & Hc & _ & Hp)].
    + by apply retired_after_fence; [apply Hb1|..].
    + apply (lt_retired _ _ (within_value _ _ _ _ _ (later_persist _ _) Hp)). cbn [co_authority with_authority].
      destruct (commit_fence_value _ _ _ _ Hc) as (_ & Hfenced & Hr'). split; [exact Hfenced|].
      intros i g Hg. apply (unbound_after_fence (co_authority c2) _ i g); [apply Hb1|done|].
      revert Hg. rewrite Hr'. cbn [co_authority with_authority]. unfold commit_fence. by repeat split_test.
  - apply (lt_failures _ _ L3), (lt_failures _ _ Lf). cbn [co_failures with_authority].
    by apply (lt_failures _ _ L12).
Qed.
End retiring.

(** * The journal of a run *)

(** The coordinator has a store with these limits, whose journal holds [rs]. *)
Definition journaled (limits : Limits) (c : Coordinator) (rs : list DurableRecord) : Prop :=
  exists s, co_store c = Some s /\ so_limits (ds_options s) = limits /\ journal_inv s (co_disk c) rs.

Lemma journaled_same limits c c' rs : co_store c' = co_store c -> co_disk c' = co_disk c ->
  journaled limits c rs -> journaled limits c' rs.
Proof. intros Hs Hd (s & H). exists s. by rewrite Hs, Hd. Qed.

Lemma journaled_quiet limits c c' rs : quiet c c' -> journaled limits c rs -> journaled limits c' rs.
Proof. intros []. by apply journaled_same. Qed.

(** What identifies a record for the replay. *)
Definition carries (kind : RecordKind.RecordKind) (payload : list Z) (r : DurableRecord) : Prop :=
  rh_kind (rec_header r) = record_kind_raw kind /\ rec_payload r = payload.

Section persisting.
Context {W : World}.

Lemma persist_journaled limits kind payload c c' rs :
  journaled limits c rs -> Forall in_u8 payload -> persist_record kind payload c = (Value tt, c') ->
  exists r, journaled limits c' (rs ++ [r]) /\ carries kind payload r.
Proof.
  intros (s & Hs & Hl & Hi) Hp. unfold persist_record. rewrite Hs.
  destruct (Journal.append _ _ _ _ _ _) as [[status s'] disk] eqn:E. destruct (status_ok status) eqn:Hok; [|done].
  assert (Hz : in_u32 0) by ints_lia.
  intros [= <-]. destruct (append_acknowledged _ _ _ _ _ _ _ _ _ _ Hi Hz Hp E Hok) as [Hi' Ho].
  eexists. split; [exists s'; split; [done|]; split; [by rewrite Ho|exact Hi']|done].
Qed.

(** A declaration that was answered, and found no fence standing, has left its
    failure and its fence in the journal. *)
Lemma declared_journaled limits d c o c' rs :
  journaled limits c rs -> declare_failure d c = (Value o, c') -> fo_deferred o = false ->
  exists r1 r2 t f,
    journaled limits c' (rs ++ [r1] ++ [r2]) /\
    carries RecordKind.FailureCommitted (encode_failure_record (fo_failure o)) r1 /\
    carries RecordKind.FenceCommitted (encode_fence_record f) r2 /\
    reading t /\ let fence := fence_of d (co_epoch c) (co_boot c) t (fo_closure o) (fo_grants_fenced o) in
    f = fence_with_id fence (ar_next_fence (co_authority c)) (fence_reason fence).
Proof.
  intros Hj H Hnew.
  destruct (declare_failure_value _ _ _ _ H) as (_ & r & c1 & c2 & c3 & f & Hr & Q12 & _ & Hf & _ & Q3 & _ & _ & Hfail & _).
  destruct (record_failure_value _ _ _ _ Hr) as (_ & _ & ca & cb & n & t & Qa & Hp1 & Qb & _ & _ & _).
  destruct (persist_journaled limits _ _ _ _ rs (journaled_quiet _ _ _ _ Qa Hj) (je_bytes _ _ (entry_failure r)) Hp1)
    as (r1 & Hj1 & Hc1).
  assert (Hj2 : journaled limits c2 (rs ++ [r1])) by (eapply journaled_quiet; [exact Q12|]; by eapply journaled_quiet).
  assert (Haut : co_authority c2 = co_authority c /\ co_epoch c2 = co_epoch c /\ co_boot c2 = co_boot c).
  { assert (Hp : co_authority cb = co_authority ca /\ co_epoch cb = co_epoch ca /\ co_boot cb = co_boot ca).
    { revert Hp1. unfold persist_record. destruct (co_store ca); [|by intros [= <-]].
      destruct (Journal.append _ _ _ _ _ _) as [[? ?] ?]. split_test; [by intros [= <-]|done]. }
    destruct Qa, Qb, Q12. destruct Hp as (? & ? & ?). split; [congruence|split; congruence]. }
  destruct Haut as (Ha & He & Hb). rewrite Hnew in Hf.
  destruct (establish_fence_value _ _ _ _ _ _ _ Hf) as [(? & _)|(_ & _ & cd & t' & id & r' & Qd & Ht' & Hc & -> & Hp2)]; [done|].
  cbn zeta in *. cbn [co_authority with_authority co_epoch co_boot] in *. rewrite He, Hb in *.
  assert (Hj3 : journaled limits (with_authority cd r') (rs ++ [r1])).
  { eapply journaled_same; [..|exact Hj2]; destruct Qd; done. }
  destruct (persist_journaled limits _ _ _ _ _ Hj3 (je_bytes _ _ (entry_fence _)) Hp2) as (r2 & Hj4 & Hc2).
  exists r1, r2, t'. eexists. rewrite app_assoc. split; [by eapply journaled_quiet|]. split; [by rewrite Hfail|].
  split; [exact Hc2|]. split; [done|]. cbn zeta.
  assert (id = ar_next_fence (co_authority c)) as ->; [|done].
  rewrite <- Ha. revert Hc. unfold commit_fence. do 4 (split_test; [done|]). by intros [= <- _].
Qed.
End persisting.

(** * Theorem *)

(** The dependent is reported to have authority that rests on the generation. *)
Definition rests_on (r : AuthorityRegistry) (d : DependentRef) (now_ns : Z) (k : SwitchKey) : Prop :=
  aq_has_authority (query r d now_ns) = true /\ k ∈ aq_bound (query r d now_ns).

Lemma fenced_supports_nothing r d now_ns k : is_fenced r k = true -> ~ rests_on r d now_ns k.
Proof.
  intros Hk. unfold rests_on, query. destruct (index_of_dependent r d) as [|id ids]; [intros [H _]; discriminate H|].
  set (s := scan_grants r now_ns (id :: ids) scan_new). set (b := filter (fun k => is_fenced r k = true) (qs_bound s)).
  cbn zeta. set (h := negb (bool_decide (qs_active s = [])) && bool_decide (b = [])).
  assert (Hq : forall code rationale fenced, let q := mkQuery d h code code (qs_bound s) (qs_active s) (qs_withdrawn s)
      fenced [] rationale in ~ (aq_has_authority q = true /\ k ∈ aq_bound q)).
  { cbn. intros _ _ _ [Hh Hin]. unfold h in Hh. bool_prop. destruct Hh as [_ Hb].
    apply (proj1 (empty_iff b) Hb k). by apply list_elem_of_filter. }
  repeat case_match; apply Hq.
Qed.

(** C1. A declared failure is final for the run. When [declare_failure]
    answers, then in every state the run reaches afterwards the failed
    generation is fenced and its failure is recorded, no Active grant is bound
    to it, no dependent is reported to have authority that rests on it, and the
    registry got there only by its own operations, without exhausting its
    identities. Evidence that the very generation recovered is no exception: it
    can make the generation usable, but nothing lifts the fence
    ([recovery_does_not_permit_grants]). *)
Theorem declared_failure_is_final {W : World} d c o c' qs :
  registry_bounded (co_authority c) -> declare_failure d c = (Value o, c') -> Forall request_ok qs ->
  let c2 := serve_all qs c' in
  retired (fd_subject d) (co_authority c2) /\ failure_contains (co_failures c2) (fd_subject d) = true /\
  (forall dep now_ns, ~ rests_on (co_authority c2) dep now_ns (fd_subject d)) /\
  registry_bounded (co_authority c2) /\ rtc registry_step (co_authority c) (co_authority c2).
Proof.
  intros Hb H Hqs. destruct (declared_retires _ _ _ _ Hb H) as (Hr & Hf & L). pose proof (serve_all_later qs c' Hqs) as L2.
  pose proof (lt_retired _ _ L2 _ Hr) as Hr2. cbn zeta. split; [done|]. split; [by apply (lt_failures _ _ L2)|].
  split; [intros; apply fenced_supports_nothing, Hr2|]. apply (lt_bounded c (serve_all qs c')); [by etrans|done].
Qed.
