(* ===== verification/Restart.v ===== *)
(** Restarts: what [Coordinator::open] reconstructs from a journal, which
    guarantees survive the end of a process, and what never does. *)

From S2P Require Import Prelude Containers Core Generation Switch Authority Evidence Topology Bytes Integrity Records.
From S2P Require Import Journal Wire Decision Plan Policy Payloads Candidates Planner Validator Session.
From S2P Require Import Coordinator Failover Entries Runtime Fencing.

#[local] Open Scope op_scope.

(** * The replay keeps lineage *)

(** Fences and failures only accumulate. *)
Record lineage_grows (v v' : Recovery) : Prop := {
  lg_fenced : forall k, is_fenced (rv_authority v) k = true -> is_fenced (rv_authority v') k = true;
  lg_failed : forall k, failure_contains (rv_failures v) k = true -> failure_contains (rv_failures v') k = true
}.

#[export] Instance lineage_grows_preorder : PreOrder lineage_grows.
Proof. split; [by split|]. intros v1 v2 v3 [] []. split; auto. Qed.

Lemma failure_record_keeps t r k : failure_contains t k = true -> failure_contains (failure_record t r).2 k = true.
Proof.
  intros Hk. assert (Hset : failure_contains (map_set (fr_subject r) r t) k = true).
  { revert Hk. unfold failure_contains. rewrite !map_contains_true. intros [v Hv]. rewrite map_find_set.
    case_bool_decide; eauto. }
  unfold failure_record. do 2 (split_test; [done|]). destruct (map_find _ _); [by split_test|done].
Qed.

Lemma recover_stream_header_grows payload v : lineage_grows v (recover_stream_header payload v).
Proof.
  unfold recover_stream_header. destruct (read_stream_header _) as [[epoch boot] reader]. by destruct (reader_ok reader).
Qed.

Lemma recover_failure_grows payload v : lineage_grows v (recover_failure payload v).
Proof.
  unfold recover_failure. destruct (decode_failure_record payload) as [f|]; [|done].
  pose proof (failure_record_keeps (rv_failures v) f) as Hk. destruct (failure_record _ f). by split.
Qed.

Lemma recover_fence_grows payload v : lineage_grows v (recover_fence payload v).
Proof.
  unfold recover_fence. destruct (decode_fence_record payload) as [f|]; [|done]. split.
  - intros k Hk. pose proof (registry_step_fenced _ _ k (step_restore_fence (rv_authority v) f) Hk) as H.
    by destruct (restore_fence _ f).
  - by destruct (restore_fence _ f).
Qed.

Lemma recover_grant_grows payload v : lineage_grows v (recover_grant payload v).
Proof.
  unfold recover_grant. destruct (decode_grant_record payload) as [g|]; [|done]. unfold restore_grant.
  by split; split_test.
Qed.

Lemma recover_plan_grows limits payload v : lineage_grows v (recover_plan limits payload v).
Proof. unfold recover_plan. by destruct (decode_plan_record payload limits). Qed.

Lemma recover_receipt_grows payload v : lineage_grows v (recover_receipt payload v).
Proof. unfold recover_receipt. by destruct (decode_apply_receipt payload). Qed.

Lemma recover_record_grows limits v r : lineage_grows v (recover_record limits v r).
Proof.
  unfold recover_record. split_test; [apply recover_stream_header_grows|].
  split_test; [apply recover_failure_grows|]. split_test; [apply recover_fence_grows|].
  split_test; [apply recover_grant_grows|]. split_test; [apply recover_plan_grows|].
  split_test; [apply recover_receipt_grows|done].
Qed.

Lemma recover_all_grows limits rs v : lineage_grows v (foldl (recover_record limits) v rs).
Proof.
  revert v. induction rs as [|r rs IH]; intros v; [done|]. etrans; [apply recover_record_grows|apply IH].
Qed.

Lemma element_limit_default bytes : set_element_limit (Z.shiftl 1 24) (reader_new bytes) = reader_new bytes.
Proof. done. Qed.

(** A fence record in the journal is a fence after the replay... *)
Lemma recover_fence_hit limits rs1 r rs2 f : fence_storable f ->
  carries RecordKind.FenceCommitted (encode_fence_record f) r ->
  is_fenced (rv_authority (recover limits (rs1 ++ r :: rs2))) (fence_subject f) = true.
Proof.
  intros Hf [Hk Hp]. unfold recover. rewrite foldl_app. cbn [foldl]. apply (lg_fenced _ _ (recover_all_grows _ _ _)).
  generalize (foldl (recover_record limits) (recovery_new limits) rs1). intros v.
  unfold recover_record. rewrite Hk, Hp. cbn [Z.eqb Pos.eqb record_kind_raw]. unfold recover_fence, decode_fence_record, decode_with.
  destruct (fence_codec f Hf) as [Hd _]. rewrite element_limit_default in Hd. rewrite Hd.
  unfold restore_fence. rewrite (fc_valid _ Hf). unfold is_fenced. apply map_contains_true.
  eexists. cbn [negb rv_authority with_fences ar_fences fst snd]. apply map_find_set_eq.
Qed.

(** ... and a failure record is a failure. *)
Lemma recover_failure_hit limits rs1 r rs2 f : failure_storable f ->
  carries RecordKind.FailureCommitted (encode_failure_record f) r ->
  failure_contains (rv_failures (recover limits (rs1 ++ r :: rs2))) (fr_subject f) = true.
Proof.
  intros Hf [Hk Hp]. unfold recover. rewrite foldl_app. cbn [foldl]. apply (lg_failed _ _ (recover_all_grows _ _ _)).
  generalize (foldl (recover_record limits) (recovery_new limits) rs1). intros v.
  unfold recover_record. rewrite Hk, Hp. cbn [Z.eqb Pos.eqb record_kind_raw]. unfold recover_failure, decode_failure_record, decode_with.
  destruct (failure_codec f Hf) as [Hd _]. rewrite element_limit_default in Hd. rewrite Hd.
  destruct (failure_record _ f) as [s t] eqn:E. cbn [rv_failures]. apply (failure_record_contains _ _ _ _ E).
  revert E. unfold failure_record. rewrite (fs_valid _ Hf), (proj2 (Z.eqb_neq _ _) (fs_observed_set _ Hf)). cbn [negb].
  repeat case_match; intros [= <- _]; apply success_ok.
Qed.

(** * The state after opening *)

(** No grant is Active. *)
Definition idle (r : AuthorityRegistry) : Prop :=
  forall id g, map_find id (ar_grants r) = Some g -> ag_state g <> GrantState.Active.

Lemma invalidate_idle r : idle (invalidate_pre_restart r).2.
Proof.
  intros id g. simpl. rewrite map_find_update. destruct (map_find id _); simpl; [|done].
  intros ?. simplify_eq. case_bool_decide; done.
Qed.

Lemma withdraw_all_idle r cause detail : idle r -> idle (withdraw_all r cause detail).2.
Proof.
  intros Hr id g. simpl. rewrite map_find_update. destruct (map_find id _) as [g0|] eqn:E; simpl; [|done].
  intros ?. simplify_eq. case_match; [apply withdrawn_state_not_active|by eapply Hr].
Qed.

(** Without an Active grant there is no authority. *)
Lemma idle_query r d now : idle r -> aq_has_authority (query r d now) = false.
Proof.
  intros Hr. unfold query. destruct (index_of_dependent r d) as [|id ids] eqn:Ei; [done|].
  assert (qs_active (scan_grants r now (id :: ids) scan_new) = []) as ->.
  { apply empty_iff. intros x Hx. apply elem_of_scan_active in Hx as [?%elem_of_nil|(_ & g & Hg & Ha)]; [done|].
    by apply (Hr _ _ Hg), (active_at_active _ now). }
  rewrite (bool_decide_eq_true_2 ([] = [])) by done. cbn [negb andb]. by repeat case_match.
Qed.

(** The registry an opened coordinator starts with. *)
Definition restored_authority (policy : Policy) (r : AuthorityRegistry) : AuthorityRegistry :=
  let r := (invalidate_pre_restart r).2 in
  if po_fence_on_restart policy
  then (withdraw_all r RevocationCause.Restart "fence-on-restart policy refuses stale authority").2 else r.

Lemma restored_idle policy r : idle (restored_authority policy r).
Proof.
  unfold restored_authority. destruct (po_fence_on_restart policy); [apply withdraw_all_idle|]; apply invalidate_idle.
Qed.

Lemma restored_fenced policy r k : is_fenced r k = true -> is_fenced (restored_authority policy r) k = true.
Proof. unfold restored_authority. by destruct (po_fence_on_restart policy). Qed.

(** Steps that change neither lineage, identity, evidence, sessions nor inputs. *)
Record settled (c c' : Coordinator) : Prop := {
  st_authority : co_authority c' = co_authority c;
  st_failures : co_failures c' = co_failures c;
  st_plans : co_plans c' = co_plans c;
  st_apply_steps : co_apply_steps c' = co_apply_steps c;
  st_evidence : co_evidence c' = co_evidence c;
  st_sessions : co_sessions c' = co_sessions c;
  st_topology : co_topology_present c' = co_topology_present c;
  st_candidates : co_candidates_present c' = co_candidates_present c;
  st_stopped : co_stopped c' = co_stopped c;
  st_identity : co_epoch c' = co_epoch c /\ co_boot c' = co_boot c;
  st_policy : co_policy c' = co_policy c
}.

#[export] Instance settled_frames : Frames settled.
Proof.
  split; [split|..]; try done. intros c1 c2 c3 H1 H2.
  destruct H1 as [?????????[??]?], H2 as [?????????[??]?]. split; try split; congruence.
Qed.
#[export] Hint Extern 1 (within settled (modify _)) => constructor; done : runtime.

Section opening.
Context {W : World}.

Lemma settled_persist kind payload : within settled (persist_record kind payload).
Proof. by apply within_persist; [exact _|]. Qed.
#[local] Hint Resolve settled_persist : runtime.

Lemma settled_announce : within settled announce.
Proof. unfold announce. within_steps. Qed.

#[local] Hint Resolve settled_announce : runtime.

(** What an incarnation starts from. *)
Record starts_from (config : CoordinatorConfig) (v : Recovery) (c : Coordinator) : Prop := {
  sf_authority : co_authority c = restored_authority (cc_policy config) (rv_authority v);
  sf_failures : co_failures c = rv_failures v;
  sf_plans : co_plans c = rv_plans v;
  sf_apply_steps : co_apply_steps c = rv_apply_steps v;
  sf_identity : (co_epoch c, co_boot c) = next_identity config v;
  sf_evidence : co_evidence c = store_new (cc_limits config) has_clock;
  sf_sessions : co_sessions c = SessionRegistry_new (cc_limits config);
  sf_inputs : co_topology_present c = false /\ co_candidates_present c = false;
  sf_running : co_stopped c = false;
  sf_policy : co_policy c = cc_policy config
}.

Lemma starts_settled config v c c' : starts_from config v c -> settled c c' -> starts_from config v c'.
Proof.
  intros [???????[??]??] [?????????[??]?]. split; try split; congruence.
Qed.

Lemma reconcile_starts opening config disk0 store disk c1 :
  reconcile opening (with_durable (coordinator_new config disk0) store disk 0) = (Value tt, c1) ->
  starts_from config (recover (cc_limits config) (rp_records opening)) c1.
Proof.
  unfold reconcile. intros H. op_read H. cbn zeta in H. cbn [co_config with_durable coordinator_new] in H.
  set (v := recover (cc_limits config) (rp_records opening)) in *.
  destruct (next_identity config v) as [epoch boot] eqn:Eid. op_read H.
  op_value H. op_within settled Hm S1. clear Hm. op_value H. unfold on_authority in Hm.
  rewrite (st_authority _ _ S1) in Hm. cbn [co_authority with_apply_steps with_plans with_failures with_authority with_identity] in Hm.
  destruct (invalidate_pre_restart (rv_authority v)) as [n r1] eqn:Er. injection Hm as <- <-. op_read H.
  op_value H. apply modify_value in H as ->. cbn [co_policy with_authority] in Hm. rewrite (st_policy _ _ S1) in Hm.
  assert (Hc : co_authority c0 = restored_authority (cc_policy config) (rv_authority v) /\
               c0 = with_authority c (co_authority c0)).
  { unfold restored_authority. rewrite Er. revert Hm. cbn. destruct (po_fence_on_restart (cc_policy config)).
    - unfold on_authority. cbn [co_authority with_authority]. by intros [= _ <-].
    - by intros [= _ <-]. }
  destruct Hc as [Ha ->]. cbn [co_authority with_authority] in Ha. destruct S1 as [?????????[??]?].
  split; cbn; try done; cbn in *; try congruence; split; congruence.
Qed.

Lemma start_fresh_starts config disk c1 :
  start_fresh (coordinator_new config disk) = (Value tt, c1) -> starts_from config (recovery_new (cc_limits config)) c1.
Proof.
  unfold start_fresh. intros H. op_read H. apply modify_value in H as ->. split; try done. cbn.
  unfold restored_authority. by destruct (po_fence_on_restart _).
Qed.

(** The records a configuration recovers from a disk. *)
Definition recovered (config : CoordinatorConfig) (disk : Disk) (rs : list DurableRecord) : Prop :=
  if cc_enable_durability config
  then exists s disk', Journal.open path_resolve open_answer (store_options config) disk = Some (Value s, disk') /\
                       rs = rp_records (ds_open_report s)
  else rs = [].

Lemma open_starts config disk c : open config disk = Some (Value tt, c) ->
  exists rs, recovered config disk rs /\ starts_from config (recover (cc_limits config) rs) c.
Proof.
  unfold open, recovered. do 2 (split_test; [done|]). destruct (cc_enable_durability config); cbn [negb].
  - split_test; [done|]. destruct (Journal.open _ _ _ _) as [[[s|st] disk']|]; [|done..].
    split_test; [done|]. intros [= H]. op_value H. destruct a. eexists. split; [by exists s, disk'|].
    op_within settled H Hs.
    eapply starts_settled; [|exact Hs]. by eapply reconcile_starts.
  - intros [= H]. op_value H. destruct a. exists []. split; [done|].
    op_within settled H Hs.
    eapply starts_settled; [|exact Hs]. by eapply start_fresh_starts.
Qed.
End opening.

(** * The journal is never cut back

    Whatever opens the journal, whole records at its front stay there. *)

(** The tail a replay reports is within the bytes it was given. *)
Lemma replay_torn_within fuel limits data expected rep rep' status :
  replay_loop fuel limits data expected rep = Some (rep', status) -> rp_truncated_tail rep = false ->
  rp_truncated_tail rep' = true -> rp_recovered_bytes rep' <= zlen data.
Proof.
  revert data expected rep. induction fuel as [|fuel IH]; intros data expected rep; [done|]. cbn [replay_loop].
  set (header := take (Z.to_nat kRecordHeaderBytes) data).
  assert (Hh : zlen header <= zlen data) by (unfold zlen, header; rewrite length_take; lia).
  split_test; [intros [= <- <-]; congruence|].
  split_test; [case_bool_decide; intros [= <- <-]; [by intros _ _|cbn; congruence]|]. cbn zeta.
  split_test; [case_bool_decide; intros [= <- <-]; cbn; congruence|].
  set (body := take _ (drop _ data)).
  split_test; [intros [= <- <-] _ _|].
  { cbn [rp_recovered_bytes report_torn]. unfold body, zlen, kRecordHeaderBytes in *. bool_prop. rewrite length_take, length_drop in *.
    unfold header in *. rewrite length_take in *. lia. }
  split_test; [intros [= <- <-] Hr; case_match; cbn; rewrite Hr; discriminate|].
  match goal with |- context [accept_record limits expected rep ?r] =>
    destruct (accept_record limits expected rep r) as [[rep1 status1]|[rep1 e]] eqn:Ha end.
  - intros [= <- <-] Hr Hr'. exfalso. unfold accept_record in Ha. repeat split_test; simplify_eq; cbn in Hr'; congruence.
  - intros Hloop Hr Hr'. assert (Hr1 : rp_truncated_tail rep1 = false)
      by (unfold accept_record in Ha; repeat split_test; simplify_eq; done).
    etrans; [by apply (IH _ _ _ Hloop)|]. unfold zlen. rewrite length_drop. lia.
Qed.

Lemma replay_prefix_within rs : forall bytes tail expected rep fuel limits rep' status,
  Forall record_in_range rs -> encode_all limits rs = Some bytes ->
  replay_loop fuel limits (bytes ++ tail) expected rep = Some (rep', status) -> status_ok status = true ->
  rp_truncated_tail rep = false -> rp_truncated_tail rep' = true -> rp_recovered_bytes rep' <= zlen tail.
Proof.
  induction rs as [|r rs IH]; intros bytes tail expected rep fuel limits rep' status Hr He Hloop Hok Ht.
  - injection He as <-. by apply (replay_torn_within _ _ _ _ _ _ _ Hloop).
  - inversion_clear Hr. simpl in He. destruct (encode_record r limits) as [bs|] eqn:Eb; [|done].
    destruct (encode_all limits rs) as [bytes'|] eqn:Em; [|done]. injection He as <-.
    destruct fuel as [|fuel]; [done|]. rewrite <- app_assoc, (replay_step _ _ r) in Hloop by done.
    pose proof (accept_record_cases limits expected rep (sealed_record r)) as Hc.
    destruct (accept_record _ _ _ _) as [[rep1 status1]|[rep1 e]].
    { injection Hloop as -> ->. destruct Hc. congruence. }
    destruct Hc as [-> _]. by apply (IH _ _ _ _ _ _ _ _ H0 Em Hloop Hok).
Qed.

(** An attempt to open a journal that starts with whole records, refused or not,
    leaves a journal that starts with them. *)
Lemma open_keeps resolve io options disk rs bytes tail result disk' :
  Forall record_in_range rs -> encode_all (so_limits options) rs = Some bytes ->
  disk_journal disk = Some (bytes ++ tail) -> Journal.open resolve io options disk = Some (result, disk') ->
  exists tail', disk_journal disk' = Some (bytes ++ tail').
Proof.
  intros Hr He Hj. unfold Journal.open. split_test; [intros [= _ <-]; eauto|].
  destruct (sanitise_path _ _) as [root|]; [|intros [= _ <-]; eauto].
  cbn [so_mode so_limits]. do 3 (split_test; [intros [= _ <-]; eauto|]). cbn zeta. rewrite Hj.
  rewrite (bool_decide_eq_true_2 (is_Some _)) by eauto. unfold replay. cbn [disk_journal].
  cbn [andb]. destruct (negb (io_opened _)); [rewrite (failure_not_ok Code.IoError) by done; intros [= _ <-]; cbn; eauto|].
  destruct (replay_loop _ _ _ _ _) as [[rep status]|] eqn:E; [|done].
  destruct (status_ok status) eqn:Es; [|intros [= _ <-]; cbn; eauto].
  pose proof (replay_prefix_within _ _ _ _ _ _ _ _ _ Hr He E Es eq_refl) as Hw. cbn [negb].
  assert (Hfile : forall next d t, disk_journal d = Some (bytes ++ t) ->
    Some (open_file io (Journal.mkOptions root (so_limits options) (so_mode options) (so_durable_writes options)) next
      (report_with_status rep status) d) = Some (result, disk') -> exists tail', disk_journal disk' = Some (bytes ++ tail')).
  { intros next d t Hd. unfold open_file. rewrite Hd. by split_test; intros [= _ <-]; exists t. }
  destruct (rp_truncated_tail (report_with_status rep status)) eqn:Ht; [|by eapply Hfile].
  unfold truncate_torn_tail. cbn [disk_journal]. cbn [rp_recovered_bytes rp_truncated_tail report_with_status] in *.
  specialize (Hw Ht). split_test; [intros [= _ <-]; cbn; eauto|]. cbn [andb].
  destruct (io_resized io); cbn [negb]; [|intros [= _ <-]; cbn; eauto]. cbn [status_ok success].
  eapply (Hfile _ _ (take (Z.to_nat (zlen tail - rp_recovered_bytes rep)) tail)). cbn [disk_with_journal disk_journal].
  f_equal. rewrite zlen_app.
  replace (Z.to_nat (zlen bytes + zlen tail - rp_recovered_bytes rep))
    with (length bytes + Z.to_nat (zlen tail - rp_recovered_bytes rep))%nat by (unfold zlen in *; lia).
  by rewrite take_app_add.
Qed.

(** Steps that only append to the journal. *)
Definition grows (c c' : Coordinator) : Prop := journal_extends (co_disk c) (co_disk c').

#[export] Instance grows_frames : Frames grows.
Proof.
  split; [split|..]; [intros c|intros c1 c2 c3 H1 H2|intros c x..]; unfold grows in *; [reflexivity|by etrans|reflexivity..].
Qed.
#[export] Hint Extern 1 (within grows (modify _)) => constructor; intros; unfold grows; reflexivity : runtime.

Section growing.
Context {W : World}.

Lemma grows_persist kind payload : within grows (persist_record kind payload).
Proof. destruct (later_persist kind payload) as [H]. constructor. intros c. apply (lt_journal _ _ (H c)). Qed.
#[local] Hint Resolve grows_persist : runtime.

Lemma grows_announce : within grows announce.
Proof. unfold announce. within_steps. Qed.

Lemma grows_reconcile opening : within grows (reconcile opening).
Proof. unfold reconcile. within_steps; apply within_on_authority; intros; unfold grows; reflexivity. Qed.

Lemma grows_start_fresh : within grows start_fresh.
Proof. unfold start_fresh. within_steps. Qed.

Lemma op_grows {A} (m : Op A) c r c' : within grows m -> m c = (r, c') -> forall bytes tail,
  disk_journal (co_disk c) = Some (bytes ++ tail) -> exists tail', disk_journal (co_disk c') = Some (bytes ++ tail').
Proof.
  intros [H] E bytes tail Hd. specialize (H c). rewrite E in H. destruct (H _ Hd) as [more Hm].
  exists (tail ++ more). by rewrite app_assoc.
Qed.

(** Opening a coordinator keeps them too, whatever comes of it. *)
Lemma opening_keeps config disk rs bytes tail result c :
  Forall record_in_range rs -> encode_all (cc_limits config) rs = Some bytes ->
  disk_journal disk = Some (bytes ++ tail) -> open config disk = Some (result, c) ->
  exists tail', disk_journal (co_disk c) = Some (bytes ++ tail').
Proof.
  intros Hr He Hj. unfold open. do 2 (split_test; [intros [= _ <-]; cbn; eauto|]).
  split_test; [intros [= E]; by apply (op_grows _ _ _ _ (within_bind _ _ _ grows_start_fresh (fun _ => grows_announce)) E bytes tail Hj)|].
  split_test; [intros [= _ <-]; cbn; eauto|].
  destruct (Journal.open _ _ _ _) as [[[s|st] disk']|] eqn:Eo; [| |done];
    destruct (open_keeps _ _ (store_options config) _ _ _ _ _ _ Hr He Hj Eo) as [tail' Ht]; [|intros [= _ <-]; cbn; eauto].
  split_test; [intros [= _ <-]; cbn; eauto|]. intros [= E].
  by apply (op_grows _ _ _ _ (within_bind _ _ _ (grows_reconcile _) (fun _ => grows_announce)) E bytes tail' Ht).
Qed.
End growing.

(** * Machine ranges

    The model keeps integers unbounded where the source only stores them; these
    are the widths of the source's types. *)

Record state_in_range (c : Coordinator) : Prop := {
  sr_epoch : in_u64 (co_epoch c);
  sr_boot : boot_in_range (co_boot c);
  sr_next_fence : in_u64 (ar_next_fence (co_authority c))
}.

Definition declaration_in_range (d : FailureDeclaration) : Prop :=
  key_in_range (fd_subject d) /\ in_u64 (fd_observed_at_ns d).

Definition closure_in_range (c : DependencyClosure) : Prop :=
  in_u64 (zlen (dc_members c)) /\ in_u64 (dc_omitted_frontier c).

Definition clock_in_range {W : World} : Prop := forall n, in_u64 (clock_at n).

Lemma digest_in_range v d : in_u64 (dig_hi (absorb_u64 v d)).
Proof.
  unfold absorb_u64, absorb_bytes. change (le_bytes v 8) with (le_bytes v 7 ++ [byte_at v 7]). rewrite foldl_app.
  apply wrap64_range.
Qed.

Section ranges.
Context {W : World}.

Lemma reading_in_range t : clock_in_range -> reading t -> in_u64 t.
Proof. intros Hc [->|[n ->]]; [ints_lia|apply Hc]. Qed.

Lemma declared_failure_storable d c o c' :
  state_in_range c -> declaration_in_range d -> clock_in_range -> declare_failure d c = (Value o, c') ->
  failure_storable (fo_failure o) /\ fr_subject (fo_failure o) = fd_subject d.
Proof.
  intros Hc [Hk Ht] Hclock H.
  destruct (declare_failure_value _ _ _ _ H) as (Hvalid & r & c1 & c2 & c3 & f & Hr & _ & _ & _ & _ & _ & _ & _ & -> & _).
  destruct (record_failure_value _ _ _ _ Hr) as (Hd & _ & ca & cb & n & t & _ & _ & _ & Hread & _ & ->).
  apply declaration_valid in Hd as (_ & _ & Hobs & Hreason). split; [|done].
  split; cbn [fr_subject fr_observed_at_ns fr_evidence fr_epoch fr_boot fr_recorded_at_ns fr_reason]; try done.
  - apply wrap64_range.
  - apply Hc.
  - apply Hc.
  - by apply reading_in_range.
  - unfold small_text. unfold kMaxMessageBytes in Hreason. change (Z.shiftl 1 24) with 16777216. lia.
Qed.

Lemma declared_fence_storable d c t cl n :
  state_in_range c -> declaration_in_range d -> closure_in_range cl -> in_u64 n -> in_u64 t ->
  status_ok (declaration_validate d) = true ->
  let fence := fence_of d (co_epoch c) (co_boot c) t cl n in
  fence_storable (fence_with_id fence (ar_next_fence (co_authority c)) (fence_reason fence)).
Proof.
  intros Hc [Hk _] [Hm Ho] Hn Ht (Hvalid & _ & _ & Hreason)%declaration_valid. cbn zeta.
  split; cbn [fence_with_id fence_of fence_subject fence_id fence_epoch fence_boot fence_created_at_ns fence_closure_digest
    fence_closure_members fence_fenced_grants fence_omitted_dependents fence_reason]; try done; try apply Hc.
  - apply digest_in_range.
  - unfold small_text. change (Z.shiftl 1 24) with 16777216. unfold kMaxMessageBytes in Hreason.
    case_bool_decide; [vm_compute; discriminate|lia].
Qed.

(** Fewer grants are fenced than the table holds. *)
Lemma grants_fenced_in_range d c o c' : registry_bounded (co_authority c) -> declare_failure d c = (Value o, c') ->
  in_u64 (fo_grants_fenced o).
Proof.
  intros Hb H.
  destruct (declare_failure_value _ _ _ _ H) as (_ & r & c1 & c2 & c3 & f & Hr & Q1 & _ & _ & -> & _).
  assert (L1 : later c c1) by (eapply within_value; [apply later_record_failure_locked|done]).
  destruct (lt_bounded _ _ L1 Hb) as [[_ _ Hs Hl] _]. rewrite <- (quiet_authority _ _ Q1) in Hs, Hl.
  unfold fence_generations, withdraw_where. cbn [fst].
  match goal with |- in_u64 (zlen (filter ?P (map_values ?l))) => pose proof (length_filter P (map_values l)) as Hle end.
  unfold map_values in Hle at 2. rewrite length_fmap in Hle. unfold map_size, zlen in *.
  unfold kHardMaxElements in Hl. change (Z.shiftl 64 20) with 67108864 in Hl. ints_lia.
Qed.

(** What an answered declaration leaves in the journal. *)
Lemma declared_durable limits d c o c' rs :
  state_in_range c -> declaration_in_range d -> closure_in_range (fo_closure o) -> clock_in_range ->
  registry_bounded (co_authority c) -> journaled limits c rs ->
  declare_failure d c = (Value o, c') -> fo_deferred o = false ->
  exists r1 r2 f, journaled limits c' (rs ++ [r1] ++ [r2]) /\
    failure_storable (fo_failure o) /\ fr_subject (fo_failure o) = fd_subject d /\
    carries RecordKind.FailureCommitted (encode_failure_record (fo_failure o)) r1 /\
    fence_storable f /\ fence_subject f = fd_subject d /\
    carries RecordKind.FenceCommitted (encode_fence_record f) r2.
Proof.
  intros Hc Hd Hcl Hclock Hb Hj H Hnew.
  destruct (declared_failure_storable _ _ _ _ Hc Hd Hclock H) as [Hfail Hsubj].
  destruct (declared_journaled _ _ _ _ _ _ Hj H Hnew) as (r1 & r2 & t & f & Hj' & Hc1 & Hc2 & Ht & Hf).
  exists r1, r2, f. do 4 (split; [done|]). split; [|split; [by rewrite Hf|done]].
  rewrite Hf. apply declared_fence_storable; try done; [by eapply grants_fenced_in_range|by apply reading_in_range|].
  destruct (declare_failure_value _ _ _ _ H) as (_ & r & c1 & _ & _ & _ & Hr & _). by destruct (record_failure_value _ _ _ _ Hr).
Qed.

(** Opening a journal that starts with a failure record and a fence record of
    one generation retires the generation. *)
Lemma reopened_retired config disk rs r1 r2 bytes tail a f c :
  cc_enable_durability config = true -> Forall record_in_range (rs ++ [r1] ++ [r2]) ->
  encode_all (cc_limits config) (rs ++ [r1] ++ [r2]) = Some bytes -> disk_journal disk = Some (bytes ++ tail) ->
  failure_storable a -> carries RecordKind.FailureCommitted (encode_failure_record a) r1 ->
  fence_storable f -> carries RecordKind.FenceCommitted (encode_fence_record f) r2 ->
  open config disk = Some (Value tt, c) ->
  retired (fence_subject f) (co_authority c) /\ failure_contains (co_failures c) (fr_subject a) = true.
Proof.
  intros Hdur Hrange He Hd Ha Hc1 Hf Hc2 Hopen.
  destruct (open_starts _ _ _ Hopen) as (recs & Hrec & Hstart). unfold recovered in Hrec. rewrite Hdur in Hrec.
  destruct Hrec as (s2 & disk2 & Hj2 & ->).
  destruct (open_recovers _ _ (store_options config) _ _ _ _ _ _ Hrange He Hd Hj2) as [more Hmore].
  rewrite !fmap_app, <- !app_assoc in Hmore. cbn [fmap list_fmap app] in Hmore.
  rewrite (sf_authority _ _ _ Hstart), (sf_failures _ _ _ Hstart), Hmore. split; [split|].
  - apply restored_fenced. change (?x ++ ?y :: ?z :: more) with (x ++ [y] ++ z :: more). rewrite app_assoc.
    by apply recover_fence_hit.
  - intros id g Hg Hact. by destruct (restored_idle _ _ _ _ Hg).
  - by apply recover_failure_hit.
Qed.
End ranges.

(** * Everything that may happen to a disk

    The disks a directory may hold later, under configurations with the given
    limits: any number of incarnations, each on a machine of its own, try to open
    it, are refused or serve any requests, with whatever writes and syncs fail;
    and any of them may end inside a write, which leaves bytes of any content
    behind the journal. *)
Inductive aftermath (limits : Limits) (d : Disk) : Disk -> Prop :=
| after_nothing : aftermath limits d d
| after_refusal (W : World) config d1 st c : aftermath limits d d1 -> cc_limits config = limits ->
    open config d1 = Some (Refused st, c) -> aftermath limits d (co_disk c)
| after_run (W : World) config d1 c qs : aftermath limits d d1 -> cc_limits config = limits ->
    open config d1 = Some (Value tt, c) -> Forall request_ok qs -> aftermath limits d (co_disk (serve_all qs c))
| after_crash d1 journal torn : aftermath limits d d1 -> disk_journal d1 = Some journal ->
    aftermath limits d (disk_with_journal d1 (Some (journal ++ torn))).

(** The whole records a journal starts with are never lost. *)
Lemma aftermath_keeps limits d d' rs bytes : Forall record_in_range rs -> encode_all limits rs = Some bytes ->
  aftermath limits d d' -> forall tail, disk_journal d = Some (bytes ++ tail) ->
  exists tail', disk_journal d' = Some (bytes ++ tail').
Proof.
  intros Hr He H tail Hd. induction H as [|W config d1 st c _ IH Hl Ho|W config d1 c qs _ IH Hl Ho Hqs|d1 journal torn _ IH Hj].
  - by exists tail.
  - destruct IH as [t Ht]. rewrite <- Hl in He. by apply (opening_keeps _ _ _ _ _ _ _ Hr He Ht Ho).
  - destruct IH as [t Ht]. rewrite <- Hl in He. destruct (opening_keeps _ _ _ _ _ _ _ Hr He Ht Ho) as [t1 Ht1].
    destruct (lt_journal _ _ (serve_all_later qs c Hqs) _ Ht1) as [more Hm]. exists (t1 ++ more). by rewrite app_assoc.
  - destruct IH as [t Ht]. exists (t ++ torn). cbn [disk_journal disk_with_journal]. rewrite app_assoc. congruence.
Qed.

(** * Theorems *)

(** C2. A committed fence survives every restart. Once [declare_failure] has
    answered with a fence it has newly recorded ([fo_deferred] is false), on a
    journal every write of which had succeeded until then, whatever happens
    later: the declaring process serves any requests and ends, inside a write or
    not; any number of further incarnations open the directory, are refused, or
    serve any requests and end likewise, with whatever writes and syncs fail. Then
    every incarnation that manages to open the directory has the generation
    fenced and its failure on record, no grant bound to it is Active, and no
    request of that incarnation changes this. Reading the journal is taken to
    deliver the whole file. (A fence that is only answered again by a second
    declaration, because the first could not be written, is not covered:
    [retried_fence_not_durable].) *)
Theorem fence_survives_restart (W1 W2 : World) config d c o c' qs rs disk c2 qs2 :
  state_in_range c -> declaration_in_range d -> closure_in_range (fo_closure o) -> @clock_in_range W1 ->
  registry_bounded (co_authority c) -> journaled (cc_limits config) c rs -> cc_enable_durability config = true ->
  @declare_failure W1 d c = (Value o, c') -> fo_deferred o = false -> Forall request_ok qs -> Forall request_ok qs2 ->
  aftermath (cc_limits config) (co_disk (@serve_all W1 qs c')) disk -> @open W2 config disk = Some (Value tt, c2) ->
  let c3 := @serve_all W2 qs2 c2 in
  retired (fd_subject d) (co_authority c3) /\ failure_contains (co_failures c3) (fd_subject d) = true.
Proof.
  intros Hc Hd Hcl Hclock Hb Hj Hdur H Hnew Hqs Hqs2 Hafter Hopen.
  destruct (@declared_durable W1 _ _ _ _ _ _ Hc Hd Hcl Hclock Hb Hj H Hnew)
    as (r1 & r2 & f & (s & Hs & Hl & Hi) & Ha & Hsubj & Hc1 & Hf & Hfs & Hc2).
  destruct (ji_journal _ _ _ Hi) as (bytes & Hjb & He). rewrite Hl in He.
  destruct (lt_journal _ _ (@serve_all_later W1 qs c' Hqs) _ Hjb) as [tail1 Htail1].
  destruct (aftermath_keeps _ _ _ _ _ (ji_range _ _ _ Hi) He Hafter _ Htail1) as [tail Htail].
  destruct (@reopened_retired W2 _ _ _ _ _ _ _ _ _ _ Hdur (ji_range _ _ _ Hi) He Htail Ha Hc1 Hf Hc2 Hopen) as [H1 H2].
  rewrite Hfs in H1. rewrite Hsubj in H2. pose proof (@serve_all_later W2 qs2 c2 Hqs2) as L. cbn zeta.
  split; [by apply (lt_retired _ _ L)|by apply (lt_failures _ _ L)].
Qed.

(** The runtime never writes a grant to its journal. *)
Definition no_grants (rs : list DurableRecord) : Prop :=
  Forall (fun r => rh_kind (rec_header r) <> record_kind_raw RecordKind.GrantMinted) rs.

(** Without grant records the replay only restores fences to the registry. *)
Definition fences_only (limits : Limits) (r : AuthorityRegistry) : Prop :=
  registry_wf r /\ ar_grants r = [] /\ ar_next_grant r = 1 /\ ar_limits r = limits.

Lemma recover_fences_only limits rs v : no_grants rs -> fences_only limits (rv_authority v) ->
  fences_only limits (rv_authority (foldl (recover_record limits) v rs)).
Proof.
  intros Hrs. revert v. induction Hrs as [|r rs Hr _ IH]; intros v Hv; [done|]. apply IH. clear IH.
  unfold recover_record. split_test.
  { unfold recover_stream_header. destruct (read_stream_header _) as [[? ?] ?]. by split_test. }
  split_test. { unfold recover_failure. destruct (decode_failure_record _); [|done]. by destruct (failure_record _ _). }
  split_test.
  { unfold recover_fence. destruct (decode_fence_record _) as [f|]; [|done]. destruct Hv as (Hwf & H1 & H2 & H3).
    pose proof (restore_fence_wf _ f Hwf) as Hwf'. unfold restore_fence in *. by split_test. }
  split_test; [bool_prop; done|]. split_test; [unfold recover_plan; by destruct (decode_plan_record _ _)|].
  split_test; [unfold recover_receipt; by destruct (decode_apply_receipt _)|done].
Qed.

Lemma restored_bounded policy limits r : max_authority_grants limits <= kHardMaxElements ->
  0 <= max_authority_grants limits -> fences_only limits r -> registry_bounded (restored_authority policy r).
Proof.
  intros Hl H0 (Hwf & Hg & Hn & Hlim). assert (Hr : registry_bounded r).
  { split; [done|rewrite Hn, Hg; done| |by rewrite Hlim]. rewrite Hg, Hlim. done. }
  assert (H1 : registry_bounded (invalidate_pre_restart r).2).
  { apply (step_bounded r); [apply step_invalidate|done|apply map_size_update|done|done]. }
  unfold restored_authority. destruct (po_fence_on_restart policy); [|done].
  by apply (step_bounded (invalidate_pre_restart r).2); [apply step_withdraw_all|done|apply map_size_update|done|].
Qed.

Lemma open_limits {W : World} config disk c : open config disk = Some (Value tt, c) ->
  status_ok (limits_validate (cc_limits config)) = true.
Proof. unfold open. split_test; [done|]. bool_prop. by intros _. Qed.

Lemma recovered_same {W : World} config disk rs rs' : recovered config disk rs -> recovered config disk rs' -> rs = rs'.
Proof.
  unfold recovered. destruct (cc_enable_durability config); [|congruence].
  intros (s1 & d1 & E1 & ->) (s2 & d2 & E2 & ->). congruence.
Qed.

(** A journal without grant records opens to a bounded registry. *)
Lemma opened_bounded {W : World} config disk c rs :
  open config disk = Some (Value tt, c) -> recovered config disk rs -> no_grants rs ->
  0 <= max_authority_grants (cc_limits config) -> registry_bounded (co_authority c).
Proof.
  intros Ho Hrec' Hng H0. destruct (open_starts _ _ _ Ho) as (rs' & Hrec & Hs). rewrite (sf_authority _ _ _ Hs).
  rewrite <- (recovered_same _ _ _ _ Hrec' Hrec).
  assert (Hl : 0 < max_authority_grants (cc_limits config) <= kHardMaxElements).
  { apply (limits_validate_bounded (cc_limits config) _ _ "max_authority_grants"); [by eapply open_limits| |done].
    unfold bounded_limits. rewrite !elem_of_cons. tauto. }
  apply restored_bounded with (limits := cc_limits config); [lia|lia|].
  apply recover_fences_only; [done|]. split; [apply registry_new_wf|done].
Qed.

(** C3. Persistence is not liveness. A coordinator that was opened on any disk
    starts with no authority for any dependent, no evidence, no session and no
    topology; whatever requests it serves, every grant that confers authority
    was minted under the epoch and the incarnation of this opening. When the
    journal holds no grant records, as this runtime writes none, the registry
    stays well formed and its identities never wrap. *)
Theorem restart_confers_no_authority {W : World} config disk c qs :
  open config disk = Some (Value tt, c) -> Forall request_ok qs ->
  let c2 := serve_all qs c in
  (forall d now_ns, aq_has_authority (query (co_authority c) d now_ns) = false) /\
  records (co_evidence c) = [] /\ session_count c = 0 /\ installed_topology c = None /\
  (forall d now_ns g, conferring (co_authority c2) d now_ns g -> ag_epoch g = co_epoch c2 /\ ag_boot g = co_boot c2) /\
  co_epoch c2 = co_epoch c /\ co_boot c2 = co_boot c /\
  (forall rs, recovered config disk rs -> no_grants rs -> 0 <= max_authority_grants (cc_limits config) ->
     registry_bounded (co_authority c2)).
Proof.
  intros Ho Hqs. destruct (open_starts _ _ _ Ho) as (rs & Hrec & Hs). pose proof (serve_all_later qs c Hqs) as L.
  assert (Hidle : idle (co_authority c)) by (rewrite (sf_authority _ _ _ Hs); apply restored_idle).
  cbn zeta. split; [intros; by apply idle_query|]. split; [by rewrite (sf_evidence _ _ _ Hs)|].
  split; [unfold session_count; by rewrite (sf_sessions _ _ _ Hs)|].
  split; [unfold installed_topology; by rewrite (proj1 (sf_inputs _ _ _ Hs))|].
  split; [|split; [apply L|split; [apply L|]]].
  - intros d now_ns g (Hg & _ & Ha%active_at_active). eapply (lt_minted _ _ L); [|exact Hg|exact Ha].
    intros id g' Hg' Ha'. by destruct (Hidle id g' Hg').
  - intros rs' Hrec' Hng H0. apply (lt_bounded _ _ L). by eapply opened_bounded.
Qed.

Lemma replay_answers io limits verify disk : (forall bytes, disk_journal disk = Some bytes -> Forall in_u8 bytes) ->
  is_Some (Journal.replay io limits verify disk).
Proof.
  intros Hb. unfold Journal.replay. destruct (disk_journal disk) as [bytes|]; [|eauto]. specialize (Hb bytes eq_refl).
  split_test; [eauto|]. unfold replay_fuel in *.
  destruct (replay_scan (replay_fuel bytes) limits bytes None report_empty Hb) as (rep & status & Hr & _);
    [unfold replay_fuel; lia|]. unfold replay_fuel in Hr. rewrite Hr. repeat case_match; eauto.
Qed.

(** Opening always comes to an end: whatever bytes the journal holds, the
    replay terminates and [open] answers with a coordinator or a refusal. *)
Theorem open_answers {W : World} config disk : (forall bytes, disk_journal disk = Some bytes -> Forall in_u8 bytes) ->
  is_Some (open config disk).
Proof.
  intros Hb. unfold open. do 4 (split_test; [eauto|]).
  destruct (Journal.open _ _ _ _) as [[[s|st] disk']|] eqn:E; [split_test; eauto|eauto|]. exfalso.
  revert E. unfold Journal.open. split_test; [done|]. destruct (sanitise_path _ _); [|done]. do 3 (split_test; [done|]).
  cbn zeta. split_test; [|by unfold open_file].
  match goal with |- context [Journal.replay ?io ?limits ?verify ?d] =>
    destruct (replay_answers io limits verify d Hb) as [[status rep] ->] end.
  by repeat case_match.
Qed.
