(* ===== verification/Lineage.v ===== *)
(** The lineage of incarnations: what a chain of openings and runs leaves in
    the journal when its writes succeed, and how the next incarnation is told
    apart from the last. *)

From S2P Require Import Prelude Containers Core Generation Switch Authority Evidence Topology Bytes Integrity Records.
From S2P Require Import Journal Wire Decision Plan Policy Payloads Candidates Planner Validator Session.
From S2P Require Import Coordinator Failover Entries Runtime Fencing Restart.

#[local] Open Scope op_scope.

(** A world in which every write reaches the disk. *)
Class Reliable (W : World) : Prop := reliable : forall n, write_answer n = write_io_ok.

(** The journal of a coordinator with a store, open or closed. *)
Record holds (limits : Limits) (c : Coordinator) (rs : list DurableRecord) : Prop := {
  ho_disk : disk_holds limits (co_disk c) rs;
  ho_store : exists s, co_store c = Some s /\ so_limits (ds_options s) = limits /\
    (ds_open s = true -> journal_inv s (co_disk c) rs)
}.

(** Records that neither identify a boot nor carry a grant. *)
Definition ordinary (r : DurableRecord) : Prop :=
  rh_kind (rec_header r) <> record_kind_raw RecordKind.StreamHeader /\
  rh_kind (rec_header r) <> record_kind_raw RecordKind.GrantMinted.

(** The journal only grows, and only by ordinary records. *)
Definition appends (c c' : Coordinator) : Prop :=
  forall limits rs, holds limits c rs -> exists more, holds limits c' (rs ++ more) /\ Forall ordinary more.

Lemma journal_inv_holds s disk rs limits : so_limits (ds_options s) = limits -> journal_inv s disk rs ->
  disk_holds limits disk rs.
Proof.
  intros <- Hi. destruct (ji_journal _ _ _ Hi) as (bytes & Hj & He). split; [by rewrite Hj|apply Hi|apply Hi].
Qed.

Lemma holds_journaled limits c rs s : holds limits c rs -> co_store c = Some s -> ds_open s = true ->
  journaled limits c rs.
Proof. intros [_ (s' & Hs & Hl & Hj)] Hs' Ho. exists s'. rewrite Hs in Hs'. injection Hs' as ->. auto. Qed.

Lemma appends_same c c' : co_store c' = co_store c -> co_disk c' = co_disk c -> appends c c'.
Proof.
  intros Hs Hd limits rs [H1 (s & H2 & H3)]. exists []. rewrite app_nil_r. split; [|constructor].
  split; rewrite Hd; [done|]. exists s. by rewrite Hs.
Qed.

#[export] Instance appends_frames : Frames appends.
Proof.
  split; [split; [intros c; by apply appends_same|]|intros; by apply appends_same..].
  intros c1 c2 c3 H12 H23 limits rs H. destruct (H12 _ _ H) as (m1 & H2 & F1). destruct (H23 _ _ H2) as (m2 & H3 & F2).
  exists (m1 ++ m2). rewrite app_assoc. split; [done|by apply Forall_app].
Qed.

#[export] Instance appends_frames_evidence : FramesEvidence appends.
Proof. intros c e. by apply appends_same. Qed.

(** A reliable append that is refused wrote nothing. *)
Lemma append_refused kind payload flags s disk status s' disk' :
  Journal.append write_io_ok kind payload flags s disk = (status, s', disk') -> status_ok status = false ->
  s' = s /\ disk' = disk.
Proof.
  unfold Journal.append. do 3 (split_test; [by intros [= _ <- <-]|]). destruct (encode_record _ _); [|by intros [= _ <- <-]].
  cbn. by intros [= <- _ _].
Qed.

Section reliable.
Context {W : World} `{!Reliable W}.

(** One record. *)
Lemma persist_holds limits c rs kind payload : Forall in_u8 payload -> holds limits c rs ->
  let '(a, c') := persist_record kind payload c in
  match a with
  | Value _ => exists r, holds limits c' (rs ++ [r]) /\ carries kind payload r
  | Refused _ => holds limits c' rs
  end.
Proof.
  intros Hp [Hd (s & Hs & Hl & Ho)]. unfold persist_record. rewrite Hs, reliable.
  destruct (Journal.append _ _ _ _ _ _) as [[status s'] disk] eqn:E. destruct (status_ok status) eqn:Hok.
  - assert (Hopen : ds_open s = true).
    { destruct (ds_open s) eqn:Eo; [done|]. unfold Journal.append in E. rewrite Eo in E. cbn [negb] in E.
      injection E as <- _ _. by rewrite store_closed_not_ok in Hok. }
    assert (Hz : in_u32 0) by ints_lia.
    destruct (append_acknowledged _ _ _ _ _ _ _ _ _ _ (Ho Hopen) Hz Hp E Hok) as [Hi' Hopt].
    match type of Hi' with journal_inv _ _ (_ ++ [?r]) => exists r end.
    split; [|done]. split; cbn [co_disk with_durable co_store].
    + eapply journal_inv_holds; [|exact Hi']. by rewrite Hopt.
    + exists s'. by rewrite Hopt.
  - destruct (append_refused _ _ _ _ _ _ _ _ E Hok) as [-> ->]. split; [done|]. by exists s.
Qed.

Lemma appends_persist kind payload : journal_entry kind payload -> within appends (persist_record kind payload).
Proof.
  intros [Hp Hk]. constructor. intros c limits rs Hh. pose proof (persist_holds limits c rs kind payload Hp Hh) as H.
  destruct (persist_record kind payload c) as [[a|st] c']; cbn [snd].
  - destruct H as (r & Hr & Hc & _). exists [r]. split; [done|]. apply Forall_singleton. unfold ordinary. rewrite Hc.
    destruct kind; cbn; destruct Hk; split; congruence.
  - exists []. by rewrite app_nil_r.
Qed.

#[export] Instance appends_serves V : Serves V appends.
Proof.
  split; try exact _; try (intros; by apply appends_same); try (intros; constructor; intros; by apply appends_same).
  - intros r. by apply within_on_failures; intros; apply appends_same.
  - intros d bound detail _. by apply within_grant_now; [exact _|]; intros; apply appends_same.
  - intros d cause detail. by apply within_on_authority; intros; apply appends_same.
  - intros f. by apply within_on_authority; intros; apply appends_same.
  - apply appends_persist.
  - constructor. intros c. unfold close_store. destruct (co_store c) as [s|] eqn:Es; [|by apply appends_same].
    unfold Journal.close. destruct (ds_open s) eqn:Eo; cbn [negb snd].
    + intros limits rs [H1 (s' & H2 & H3 & H4)]. exists []. rewrite app_nil_r. split; [|constructor].
      split; [done|]. rewrite Es in H2. injection H2 as <-. eexists. split; [done|]. split; [done|]. done.
    + apply appends_same; [by rewrite Es|done].
Qed.
End reliable.

(** * The identity of an incarnation *)

(** The machine widths of what a boot reads from its environment. *)
Record world_in_range (W : World) : Prop := {
  wr_random : forall n, in_u32 (random_word n);
  wr_steady : in_u64 steady_ns;
  wr_process : in_u64 process_id
}.

Lemma lxor_u64 a b : in_u64 a -> in_u64 b -> in_u64 (Z.lxor a b).
Proof.
  unfold in_u64. intros [Ha1 Ha2] [Hb1 Hb2]. split; [by apply Z.lxor_nonneg|]. change two64 with (2 ^ 64) in *.
  destruct (decide (Z.lxor a b = 0)) as [->|Hn]; [done|].
  assert (0 < Z.lxor a b) by (pose proof (proj2 (Z.lxor_nonneg a b)); lia).
  apply Z.log2_lt_pow2; [done|]. pose proof (Z.log2_lxor a b Ha1 Hb1) as Hl.
  assert (Z.log2 a < 64) by (destruct (decide (a = 0)) as [->|]; [done|apply Z.log2_lt_pow2; lia]).
  assert (Z.log2 b < 64) by (destruct (decide (b = 0)) as [->|]; [done|apply Z.log2_lt_pow2; lia]). lia.
Qed.

Lemma shiftr_u64 a n : 0 <= n -> in_u64 a -> in_u64 (Z.shiftr a n).
Proof.
  intros Hn [H1 H2]. split; [by apply Z.shiftr_nonneg|]. rewrite Z.shiftr_div_pow2 by done.
  apply Z.le_lt_trans with a; [|done]. apply Z.div_le_upper_bound; [by apply Z.pow_pos_nonneg|].
  pose proof (Z.pow_pos_nonneg 2 n). nia.
Qed.

Lemma mix64_range v : in_u64 (mix64 v).
Proof. apply lxor_u64; [|apply shiftr_u64; [done|]]; apply wrap64_range. Qed.

Section identity.
Context {W : World} (HW : world_in_range W).

Lemma new_boot_range o : in_u64 o -> boot_in_range (new_boot o).
Proof.
  intros Ho. destruct HW as [Hr Hs Hp]. assert (H32 : forall n, in_u64 (random_word n)).
  { intros n. specialize (Hr n). ints_lia. }
  unfold new_boot, for_current_process. split; [done|]. split; [done|]. split; cbn [boot_nonce_hi boot_nonce_lo].
  - apply lxor_u64; [apply lxor_u64; [apply wrap64_range|apply H32]|done].
  - split_test; [done|apply mix64_range].
Qed.

Lemma boot_ordinal_new o : boot_ordinal (new_boot o) = o.
Proof. done. Qed.
End identity.

(** What a stream header says is read back. *)
Lemma recover_header_hit v epoch boot : in_u64 epoch -> boot_in_range boot ->
  let v' := recover_stream_header (encode_stream_header kRecordFormatVersion (boot_ordinal boot) (boot_process_id boot)
              epoch (boot_nonce_hi boot) (boot_nonce_lo boot)) v in
  rv_previous_epoch v' = epoch /\ rv_previous_boot v' = boot /\ rv_previous_ordinal v' = boot_ordinal boot.
Proof.
  intros He (H1 & H2 & H3 & H4). cbn zeta. unfold encode_stream_header.
  erewrite written_writes; [|writes_steps|vm_compute; discriminate].
  set (bs := _ ++ _). assert (Hd : decodes (Z.shiftl 1 24) bs read_stream_header (epoch, boot)).
  { unfold bs, read_stream_header. 
    eapply decodes_bind; [by apply wire_u8|]. eapply decodes_bind; [by apply wire_u16|].
    do 4 (eapply decodes_bind; [by apply wire_u64|]).
    rewrite <- (app_nil_r (le_bytes (boot_nonce_lo boot) 8)).
    eapply decodes_bind; [by apply wire_u64|]. destruct boot. apply decodes_ret. }
  specialize (Hd [] []). rewrite app_nil_r in Hd. unfold recover_stream_header. 
  change (reader_new bs) with (at_pos (Z.shiftl 1 24) bs 0). change (zlen (@nil Z)) with 0 in Hd. rewrite app_nil_l in Hd. by rewrite Hd.
Qed.

(** * A chain of incarnations *)

(** Ordinary records say nothing about identity. *)
Lemma recover_ordinary limits rs v : Forall ordinary rs ->
  let v' := foldl (recover_record limits) v rs in
  rv_previous_epoch v' = rv_previous_epoch v /\ rv_previous_ordinal v' = rv_previous_ordinal v.
Proof.
  intros Hrs. revert v. induction Hrs as [|r rs [Hk _] _ IH]; intros v; [done|]. cbn [foldl]. cbn zeta in *.
  assert (Hr : rv_previous_epoch (recover_record limits v r) = rv_previous_epoch v /\
               rv_previous_ordinal (recover_record limits v r) = rv_previous_ordinal v).
  { clear IH. unfold recover_record. rewrite (proj2 (Z.eqb_neq _ _) Hk).
    split_test; [unfold recover_failure; destruct (decode_failure_record _); [by destruct (failure_record _ _)|done]|].
    split_test; [unfold recover_fence; destruct (decode_fence_record _); [by destruct (restore_fence _ _)|done]|].
    split_test; [unfold recover_grant; destruct (decode_grant_record _); [by destruct (restore_grant _ _)|done]|].
    split_test; [unfold recover_plan; by destruct (decode_plan_record _ _)|].
    split_test; [unfold recover_receipt; by destruct (decode_apply_receipt _)|done]. }
  destruct Hr as [<- <-]. apply IH.
Qed.

(** What the replay of a journal says about identity. *)
Definition identity_of (limits : Limits) (rs : list DurableRecord) : Z * Z :=
  let v := recover limits (sealed_record <$> rs) in (rv_previous_epoch v, rv_previous_ordinal v).

Lemma ordinary_sealed rs : Forall ordinary rs -> Forall ordinary (sealed_record <$> rs).
Proof. intros H. apply Forall_fmap. by eapply Forall_impl. Qed.

Lemma identity_ordinary limits rs more : Forall ordinary more -> identity_of limits (rs ++ more) = identity_of limits rs.
Proof.
  intros Hm. unfold identity_of, recover. rewrite fmap_app, foldl_app.
  destruct (recover_ordinary limits _ (foldl (recover_record limits) (recovery_new limits) (sealed_record <$> rs))
    (ordinary_sealed _ Hm)) as [-> ->]. done.
Qed.

Lemma identity_header limits rs r epoch boot : in_u64 epoch -> boot_in_range boot ->
  carries RecordKind.StreamHeader (encode_stream_header kRecordFormatVersion (boot_ordinal boot) (boot_process_id boot)
    epoch (boot_nonce_hi boot) (boot_nonce_lo boot)) r ->
  identity_of limits (rs ++ [r]) = (epoch, boot_ordinal boot).
Proof.
  intros He Hb [Hk Hp]. unfold identity_of, recover. rewrite fmap_app, foldl_app. cbn [fmap list_fmap foldl].
  generalize (foldl (recover_record limits) (recovery_new limits) (sealed_record <$> rs)). intros v.
  unfold recover_record. change (rh_kind (rec_header (sealed_record r))) with (rh_kind (rec_header r)).
  change (rec_payload (sealed_record r)) with (rec_payload r). rewrite Hk, Hp, Z.eqb_refl.
  by destruct (recover_header_hit v epoch boot He Hb) as (-> & _ & ->).
Qed.

Section opening.
Context {W : World} `{!Reliable W}.

#[local] Hint Resolve appends_persist : runtime.
#[local] Hint Extern 1 (within appends (modify _)) => constructor; intros; by apply appends_same : runtime.

Lemma appends_on_authority {A} (f : AuthorityRegistry -> A * AuthorityRegistry) : within appends (on_authority f).
Proof. by apply within_on_authority; intros; apply appends_same. Qed.
#[local] Hint Resolve appends_on_authority : runtime.

Lemma appends_reconcile opening : within appends (reconcile opening).
Proof. unfold reconcile. within_steps. Qed.
#[local] Hint Resolve appends_reconcile : runtime.

(** The header an incarnation writes before anything else. *)
Definition header_of (c : Coordinator) : list Z :=
  encode_stream_header kRecordFormatVersion (boot_ordinal (co_boot c)) (boot_process_id (co_boot c)) (co_epoch c)
    (boot_nonce_hi (co_boot c)) (boot_nonce_lo (co_boot c)).

Lemma announce_value c1 s c : co_store c1 = Some s -> announce c1 = (Value tt, c) ->
  exists c2 c3, appends c1 c2 /\ persist_record RecordKind.StreamHeader (header_of c1) c2 = (Value tt, c3) /\ appends c3 c.
Proof.
  intros Hs H. unfold announce in H. op_read H. cbn [co_store with_boot_digest] in H. rewrite Hs in H.
  op_value H. op_value Hm. destruct a0, a1. eexists _, _. split; [|split; [exact Hm0|]]; [by apply appends_same|].
  etrans; [refine (within_value _ appends _ _ _ _ Hm); within_steps|]. clear Hm Hm0. op_value H. op_within appends Hm A2. etrans; [exact A2|]. op_read H.
  refine (within_value _ appends _ _ _ _ H). within_steps.
Qed.

(** An opened incarnation has identified itself in the journal. *)
Lemma open_identified config disk rs c :
  cc_enable_durability config = true -> disk_holds (cc_limits config) disk rs -> open config disk = Some (Value tt, c) ->
  in_u64 (co_epoch c) -> boot_in_range (co_boot c) ->
  exists more, holds (cc_limits config) c (rs ++ more) /\
    identity_of (cc_limits config) (rs ++ more) = (co_epoch c, boot_ordinal (co_boot c)).
Proof.
  intros Hdur Hd. unfold open. do 2 (split_test; [done|]). rewrite Hdur. cbn [negb]. split_test; [done|].
  destruct (Journal.open _ _ _ _) as [[[s|st] disk']|] eqn:Ej; [|done..]. split_test; [done|]. intros [= H] He Hb.
  destruct (open_whole _ _ (store_options config) _ _ _ _ Hd Ej) as (_ & Hi & Hl). op_value H. destruct a.
  assert (H0 : holds (cc_limits config) (with_durable (coordinator_new config disk) (Some s) disk' 0) rs).
  { split; [by eapply journal_inv_holds|]. by exists s. }
  op_within appends Hm A1.
  destruct (A1 _ _ H0) as (m1 & Hh1 & F1). pose proof (ho_store _ _ _ Hh1) as (s1 & Hs1 & _).
  destruct (announce_value _ _ _ Hs1 H) as (c2 & c3 & A2 & Hp & A3).
  destruct (A2 _ _ Hh1) as (m2 & Hh2 & F2).
  pose proof (persist_holds _ _ _ RecordKind.StreamHeader (header_of c0) (stream_header_bytes _ _ _ _ _ _) Hh2) as Hr.
  rewrite Hp in Hr. destruct Hr as (r & Hh3 & Hc). destruct (A3 _ _ Hh3) as (m3 & Hh4 & F3).
  exists (m1 ++ m2 ++ [r] ++ m3). rewrite !app_assoc in *. split; [done|].
  rewrite identity_ordinary by done.
  assert (Hid : co_epoch c = co_epoch c0 /\ co_boot c = co_boot c0)
    by (apply st_identity; by apply (within_value _ settled _ _ _ settled_announce H)).
  destruct Hid as [Hid1 Hid2]. rewrite Hid1, Hid2 in *. by apply identity_header.
Qed.
End opening.

(** The number of the epoch and of the boot of the [n]-th incarnation. *)
Definition nth_identity (config : CoordinatorConfig) (n : nat) : Z * Z :=
  match n with O => (0, 0) | S n => (Z.of_nat n + 1, fresh_ordinal config + Z.of_nat n) end.

Section chain.
Context (config : CoordinatorConfig).

(** The disks [n] incarnations leave behind, one after the other, when every
    write succeeds; the incarnations may be interrupted anywhere between two
    requests. *)
Inductive history : nat -> Disk -> Prop :=
| history_new disk : disk_journal disk = None -> history 0 disk
| history_run n disk (W : World) c qs :
    history n disk -> Reliable W -> world_in_range W -> @open W config disk = Some (Value tt, c) ->
    Forall request_ok qs -> history (S n) (co_disk (@serve_all W qs c)).

Hypothesis Hdurable : cc_enable_durability config = true.
Hypothesis Hordinal : in_u64 (cc_boot_ordinal config).

Lemma fresh_ordinal_pos : 0 < fresh_ordinal config.
Proof. unfold fresh_ordinal. split_test; [done|]. bool_prop. ints_lia. Qed.

(** The identity that follows the [n]-th. *)
Lemma next_identity_nth {W : World} n v : fresh_ordinal config + Z.of_nat n < two64 ->
  (rv_previous_epoch v, rv_previous_ordinal v) = nth_identity config n ->
  next_identity config v = (Z.of_nat n + 1, new_boot (fresh_ordinal config + Z.of_nat n)).
Proof.
  intros Hn Hv. pose proof fresh_ordinal_pos as Hpos. unfold next_identity. destruct n as [|n]; injection Hv as He Ho.
  - rewrite Ho. cbn [Z.eqb negb]. by rewrite Z.add_0_r.
  - rewrite He, Ho, (proj2 (Z.eqb_neq _ _)) by lia. cbn [negb]. rewrite !add64_small by ints_lia.
    by replace (Z.of_nat (S n)) with (Z.of_nat n + 1) by lia; rewrite Z.add_assoc.
Qed.

(** The incarnation that opens a journal of the [n]-th. *)
Lemma open_identity {W : World} n disk rs c : disk_holds (cc_limits config) disk rs ->
  identity_of (cc_limits config) rs = nth_identity config n -> fresh_ordinal config + Z.of_nat n < two64 ->
  open config disk = Some (Value tt, c) ->
  co_epoch c = Z.of_nat n + 1 /\ co_boot c = new_boot (fresh_ordinal config + Z.of_nat n).
Proof.
  intros Hd Hid Hn Ho. destruct (open_starts _ _ _ Ho) as (recs & Hrec & Hs). unfold recovered in Hrec.
  rewrite Hdurable in Hrec. destruct Hrec as (s & disk' & Ej & ->).
  destruct (open_whole _ _ (store_options config) _ _ _ _ Hd Ej) as (Hrs & _ & _).
  pose proof (sf_identity _ _ _ Hs) as He. rewrite Hrs, (next_identity_nth n) in He by done. by injection He.
Qed.

(** The journal [n] incarnations leave behind identifies the last of them. *)
Lemma history_identity n disk : history n disk -> fresh_ordinal config + Z.of_nat n <= two64 ->
  exists rs, disk_holds (cc_limits config) disk rs /\ identity_of (cc_limits config) rs = nth_identity config n.
Proof.
  induction 1 as [disk Hj|n disk W c qs Hh IH Hrel HW Ho Hqs]; intros Hn.
  - exists []. split; [|done]. split; [by rewrite Hj|done|done].
  - destruct IH as (rs & Hd & Hid); [lia|]. pose proof fresh_ordinal_pos as Hpos.
    destruct (open_identity n disk rs c Hd Hid ltac:(lia) Ho) as [He Hb].
    destruct (open_identified _ _ _ _ Hdurable Hd Ho) as (m1 & Hh1 & Hid1).
    { rewrite He. ints_lia. }
    { rewrite Hb. apply new_boot_range; [done|]. ints_lia. }
    destruct (@serve_all_within W any_record appends _ qs c Hqs (any_requests _) _ _ Hh1) as (m2 & Hh2 & F2).
    exists ((rs ++ m1) ++ m2). split; [apply Hh2|]. rewrite identity_ordinary, Hid1, He, Hb by done. done.
Qed.
End chain.

(** * Theorem *)

