(* ===== verification/Applying.v ===== *)
(** Applying a plan: what a receipt of [Coordinator::apply_plan] says about the
    plan, the grants that were minted and the steps that were refused. *)

From S2P Require Import Prelude Containers Core Generation Switch Authority Evidence Topology Bytes Integrity Records.
From S2P Require Import Journal Wire Decision Plan Policy Payloads Candidates Planner Validator Session.
From S2P Require Import Coordinator Failover Entries Runtime.

#[local] Open Scope op_scope.

(** Steps that mint grants and withdraw nothing. *)
Record minting (c c' : Coordinator) : Prop := {
  mt_topology : co_topology c' = co_topology c;
  mt_epoch : co_epoch c' = co_epoch c;
  mt_boot : co_boot c' = co_boot c;
  mt_fenced : forall k, is_fenced (co_authority c') k = is_fenced (co_authority c) k;
  mt_grants : registry_bounded (co_authority c) -> registry_bounded (co_authority c') /\
    forall id g, map_find id (ar_grants (co_authority c)) = Some g -> map_find id (ar_grants (co_authority c')) = Some g
}.

Lemma minting_same c c' : co_topology c' = co_topology c -> co_epoch c' = co_epoch c -> co_boot c' = co_boot c ->
  co_authority c' = co_authority c -> minting c c'.
Proof. intros ??? Ha. by split; rewrite ?Ha. Qed.

#[export] Instance minting_frames : Frames minting.
Proof.
  split; [split; [intros c; by apply minting_same|]|intros; by apply minting_same..].
  intros c1 c2 c3 [T1 E1 B1 F1 G1] [T2 E2 B2 F2 G2]. split; [congruence..| |].
  - intros k. by rewrite F2.
  - intros H1. destruct (G1 H1) as [H2 H12]. destruct (G2 H2) as [H3 H23]. auto.
Qed.
#[export] Instance minting_frames_evidence : FramesEvidence minting.
Proof. intros c e. by apply minting_same. Qed.
#[export] Hint Extern 1 (within minting (modify _)) => constructor; intros; by apply minting_same : runtime.

(** What a successful grant adds to the registry. *)
Lemma grant_value r dep bound epoch boot now ttl detail id r' : registry_wf r ->
  grant r dep bound epoch boot now ttl detail = (Value id, r') ->
  map_find id (ar_grants r) = None /\
  exists g, map_find id (ar_grants r') = Some g /\ ag_state g = GrantState.Active /\ ag_dependent g = dep /\
    ag_bound g = bound /\ ag_epoch g = epoch /\ ag_boot g = boot /\ ag_attempt g = last_attempt r'.
Proof.
  intros Hwf. unfold grant. do 4 (split_test; [done|]). destruct (List.find _ _); [done|]. split_test; [done|].
  intros [= <- <-]. split; [by apply fresh_grant_id|]. cbn [ar_grants]. unfold map_emplace, map_contains.
  rewrite fresh_grant_id by done. eexists. by rewrite map_find_set_eq.
Qed.

Lemma grant_keeps r dep bound epoch boot now ttl detail : registry_wf r ->
  let r' := (grant r dep bound epoch boot now ttl detail).2 in
  (forall k, is_fenced r' k = is_fenced r k) /\
  forall id g, map_find id (ar_grants r) = Some g -> map_find id (ar_grants r') = Some g.
Proof.
  intros Hwf. unfold grant. do 4 (split_test; [done|]). destruct (List.find _ _); [done|]. split_test; [done|].
  split; [done|]. intros id g Hg. cbn [snd ar_grants]. unfold map_emplace, map_contains. rewrite fresh_grant_id by done.
  rewrite map_find_set, bool_decide_eq_false_2; [done|]. intros <-. by rewrite fresh_grant_id in Hg.
Qed.

Lemma grant_fenced r dep bound epoch boot now ttl detail k :
  is_fenced (grant r dep bound epoch boot now ttl detail).2 k = is_fenced r k.
Proof. unfold grant. do 4 (split_test; [done|]). destruct (List.find _ _); [done|]. by split_test. Qed.

Section applying.
Context {W : World}.

Lemma minting_grant_now dep bound detail : gv_wf bound -> within minting (grant_now dep bound detail).
Proof.
  intros Hb. apply within_bind; [exact _|auto with runtime|]. intros t. constructor. intros c.
  unfold gets, op_bind, on_authority. destruct (grant _ _ _ _ _ _ _ _) as [a r] eqn:E. cbn [snd].
  assert (r = (grant (co_authority c) dep bound (co_epoch c) (co_boot c) t (po_grant_ttl_ns (co_policy c)) detail).2)
    as -> by (by rewrite E).
  split; try done; cbn [co_authority with_authority].
  - intros k. apply grant_fenced.
  - intros H. split; [by apply grant_bounded|]. apply grant_keeps, H.
Qed.

Lemma minting_persist kind payload : within minting (persist_record kind payload).
Proof. by apply within_persist; [exact _|]; intros; apply minting_same. Qed.
#[local] Hint Resolve minting_grant_now minting_persist bind_hops_wf : runtime.
#[local] Hint Extern 1 (within minting (store_plan _)) => constructor; intros; by apply minting_same : runtime.

(** A hop that is not refused is installed and unfenced. *)
Definition hop_clear (c : Coordinator) (hop : SwitchKey) : Prop :=
  is_fenced (co_authority c) hop = false /\ is_Some (find_switch (co_topology c) hop).

Lemma hop_clear_minting c c' hop : minting c c' -> hop_clear c' hop <-> hop_clear c hop.
Proof. intros [Ht _ _ Hf _]. unfold hop_clear. by rewrite Ht, Hf. Qed.

Lemma hop_refusal_value hop c a c' : hop_refusal hop c = (Value a, c') ->
  minting c c' /\ (a = None -> hop_clear c hop).
Proof.
  unfold hop_refusal. intros H. op_read H. split_test; [by injection H as <- <-|]. split_test; [by injection H as <- <-|].
  op_value H. op_within minting Hm M. injection H as <- <-. bool_prop. split; [done|]. intros _. by split.
Qed.

Lemma step_refusal_value hops c a c' : step_refusal hops c = (Value a, c') ->
  minting c c' /\ (a = None -> Forall (hop_clear c) hops).
Proof.
  revert c. induction hops as [|hop hops IH]; intros c H; [injection H as <- <-; done|]. cbn [step_refusal] in H.
  op_value H. destruct (hop_refusal_value _ _ _ _ Hm) as [M1 H1]. destruct a0; [by injection H as <- <-|].
  destruct (IH _ H) as [M2 H2]. split; [by etrans|]. intros Ha. constructor; [by apply H1|].
  eapply Forall_impl; [by apply H2|]. intros k. by rewrite (hop_clear_minting _ _ k M1).
Qed.

(** The effect of an applied step, seen from a later state. *)
Record step_effect (c c' : Coordinator) (step : RestoreStep) (s : ApplyStepResult) : Prop := {
  se_hops : Forall (hop_clear c') (rs_hops step);
  se_grant : exists id g, map_find id (ar_grants (co_authority c)) = None /\
    map_find id (ar_grants (co_authority c')) = Some g /\ ag_state g = GrantState.Active /\
    ag_dependent g = rs_dependent step /\ ag_bound g = bind_hops (rs_hops step) /\ ag_bound g <> [] /\
    ag_epoch g = co_epoch c /\ ag_boot g = co_boot c /\ ag_attempt g = sr_attempt s
}.

(** The result of a step names the step, and is Applied with its effect or Failed. *)
Record step_outcome (c c' : Coordinator) (step : RestoreStep) (s : ApplyStepResult) : Prop := {
  so_dependent : sr_dependent s = rs_dependent step;
  so_replacement : sr_replacement s = rs_replacement step;
  so_unverified : sr_verification s = 0;
  so_state : sr_state s = AckState.Failed \/ (sr_state s = AckState.Applied /\ step_effect c c' step s)
}.

(** Outcomes are kept while more grants are minted. *)
Lemma step_outcome_kept c0 c c' c2 step s : minting c0 c -> minting c' c2 ->
  registry_bounded (co_authority c0) -> registry_bounded (co_authority c') ->
  step_outcome c c' step s -> step_outcome c0 c2 step s.
Proof.
  intros M0 M2 B0 B' [H1 H2 H3 H4]. split; [done..|]. destruct H4 as [?|[Ha [Hh (id & g & G1 & G2 & G)]]]; [by left|right].
  destruct (mt_grants _ _ M0 B0) as [_ K0]. destruct (mt_grants _ _ M2 B') as [_ K2]. split; [done|]. split.
  - eapply Forall_impl; [exact Hh|]. intros k. by rewrite (hop_clear_minting _ _ k M2).
  - exists id, g. rewrite (mt_epoch _ _ M0), (mt_boot _ _ M0) in G. split; [|split; [by apply K2|done]].
    destruct (map_find id (ar_grants (co_authority c0))) eqn:E; [|done]. apply K0 in E. congruence.
Qed.

Lemma grant_now_value dep bound detail c id c' : grant_now dep bound detail c = (Value (Value id), c') ->
  exists t, grant (co_authority c) dep bound (co_epoch c) (co_boot c) t (po_grant_ttl_ns (co_policy c)) detail =
    (Value id, co_authority c').
Proof.
  unfold grant_now. intros H. op_value H. unfold now in Hm. op_read H. unfold on_authority in H.
  assert (Hc : co_authority c0 = co_authority c /\ co_epoch c0 = co_epoch c /\ co_boot c0 = co_boot c /\ co_policy c0 = co_policy c)
    by (destruct has_clock; by injection Hm as _ <-).
  destruct Hc as (-> & -> & -> & ->) in H. exists a. destruct (grant _ _ _ _ _ _ _ _) as [x r]. by injection H as -> <-.
Qed.

(** One step. *)
Lemma mint_step_value id step c s c' : registry_bounded (co_authority c) -> mint_step id step c = (Value s, c') ->
  minting c c' /\ step_outcome c c' step s.
Proof.
  intros Hb. unfold mint_step. intros H. op_value H. destruct (step_refusal_value _ _ _ _ Hm) as [M1 Hclear].
  destruct a; [injection H as <- <-; split; [done|]; split; [done..|by left]|]. cbn zeta in H.
  split_test; [injection H as <- <-; split; [done|]; split; [done..|by left]|]. op_value H.
  op_within minting Hm0 M2. destruct a as [gid|st].
  2: { injection H as <- <-. split; [by etrans|]. split; [done..|by left]. }
  op_read H. injection H as <- <-. destruct (mt_grants _ _ M1 Hb) as [Hb1 _].
  destruct (grant_now_value _ _ _ _ _ _ Hm0) as [t Hg]. destruct (grant_value _ _ _ _ _ _ _ _ _ _ (rb_wf _ Hb1) Hg) as
    (Hnew & g & G1 & G2 & G3 & G4 & G5 & G6 & G7).
  split; [by etrans|]. apply (step_outcome_kept c c0 c1 c1); try done; [apply (mt_grants _ _ M2 Hb1)|].
  split; [done..|]. right. split; [done|]. split.
  - eapply Forall_impl; [by apply Hclear|]. intros k. rewrite (hop_clear_minting _ _ k M2). by rewrite (hop_clear_minting _ _ k M1).
  - exists gid, g. do 5 (split; [done|]). split; [|done]. rewrite G4. by bool_prop.
Qed.

(** The loop over the steps. *)
Lemma apply_fold_value id restores prior c steps c' : registry_bounded (co_authority c) ->
  fold_op (apply_step id) prior restores c = (Value steps, c') ->
  minting c c' /\ exists results, steps = prior ++ results /\ Forall2 (step_outcome c c') restores results.
Proof.
  revert prior c. induction restores as [|step restores IH]; intros prior c Hb H.
  { injection H as <- <-. split; [done|]. exists []. by rewrite app_nil_r. }
  cbn [fold_op] in H. op_value H. unfold apply_step in Hm. op_value Hm.
  destruct (mint_step_value _ _ _ _ _ Hb Hm0) as [M1 Ho]. op_value Hm. op_within minting Hm1 M2. cbn zeta in Hm.
  op_value Hm. op_within minting Hm2 M3. injection Hm as <- <-. destruct (mt_grants _ _ M1 Hb) as [Hb1 _].
  assert (M4 : minting c1 c3) by (by etrans). destruct (mt_grants _ _ M4 Hb1) as [Hb3 _].
  destruct (IH _ _ Hb3 H) as [M5 (results & -> & Hr)]. split; [by do 2 (etrans; [done|])|].
  exists (a0 :: results). rewrite <- app_assoc. split; [done|]. constructor.
  - apply (step_outcome_kept c c c1 c'); try done. by etrans.
  - eapply Forall2_impl; [exact Hr|]. intros x y. apply step_outcome_kept; try done; [by etrans|].
    by apply (mt_grants _ _ M5 Hb3).
Qed.
End applying.

(** Steps that leave the retained plans alone. *)
Definition plans_kept (c c' : Coordinator) : Prop := co_plans c' = co_plans c.

#[export] Instance plans_kept_frames : Frames plans_kept.
Proof. split; [split|..]; unfold plans_kept; [done|intros c1 c2 c3; congruence|done..]. Qed.

(** What a receipt promises about a plan that was applied between [c] and [c']. *)
Record receipt_holds (c c' : Coordinator) (plan : ReconstructionPlan) (receipt : ApplyReceipt) : Prop := {
  rh_plan : ap_plan receipt = pl_id plan;
  rh_identity : ap_epoch receipt = co_epoch c /\ ap_boot receipt = co_boot c;
  rh_steps : Forall2 (step_outcome c c') (pl_restores plan) (ap_steps receipt);
  rh_counts : ap_applied receipt + ap_failed receipt = zlen (pl_restores plan);
  rh_unverified : ap_verified receipt = 0 /\ ap_unverified receipt = ap_applied receipt;
  rh_complete : ap_complete receipt = true <-> Forall (fun s => sr_state s = AckState.Applied) (ap_steps receipt);
  rh_outcome : ap_outcome receipt = Code.Ok -> pl_restores plan = [];
  rh_state : exists plan', map_find (pl_id plan) (co_plans c') = Some plan' /\
    (pl_state plan' = PlanState.Applied <-> ap_complete receipt = true)
}.

Lemma filter_parts {A} (p : A -> bool) l :
  zlen (filter (fun x => p x = true) l) + zlen (filter (fun x => p x = false) l) = zlen l.
Proof.
  induction l as [|x l IH]; [done|]. rewrite !filter_cons. destruct (p x) eqn:E.
  - rewrite decide_True, (decide_False (P := true = false)) by done. rewrite !zlen_cons. lia.
  - rewrite decide_False, (decide_True (P := false = false)) by done. rewrite !zlen_cons. lia.
Qed.

Lemma filter_refused {A} (p : A -> bool) l : zlen (filter (fun x => p x = false) l) = 0 <-> Forall (fun x => p x = true) l.
Proof.
  split.
  - induction l as [|x l IH]; [done|]. rewrite filter_cons. destruct (p x) eqn:E.
    + rewrite decide_False by done. intros H. constructor; [done|by apply IH].
    + rewrite decide_True, zlen_cons by done. pose proof (zlen_nonneg (filter (fun x => p x = false) l)). lia.
  - induction 1 as [|x l Hx _ IH]; [done|]. rewrite filter_cons, decide_False by (by rewrite Hx). done.
Qed.

Lemma receipt_of_holds plan epoch boot steps (P : RestoreStep -> ApplyStepResult -> Prop) :
  Forall2 P (pl_restores plan) steps -> let r := receipt_of plan epoch boot steps in
  ap_applied r + ap_failed r = zlen (pl_restores plan) /\
  (ap_complete r = true <-> Forall (fun s => sr_state s = AckState.Applied) steps) /\ ap_outcome r <> Code.Ok /\
  (state_after r = PlanState.Applied <-> ap_complete r = true).
Proof.
  intros Hs. apply Forall2_length in Hs as Hlen. pose proof (filter_parts step_applied steps) as Hsum.
  pose proof (filter_refused step_applied steps) as Hnone.
  assert (Hz : zlen steps = zlen (pl_restores plan)) by (unfold zlen; congruence).
  assert (Hall : Forall (fun s => step_applied s = true) steps <-> Forall (fun s => sr_state s = AckState.Applied) steps).
  { apply Forall_iff. intros s. unfold step_applied. by rewrite bool_decide_eq_true. }
  rewrite Hall in Hnone. cbn zeta. unfold receipt_of, state_after.
  cbn [ap_applied ap_failed ap_complete ap_outcome]. rewrite Hz in Hsum. split; [done|].
  rewrite andb_true_iff, !Z.eqb_eq, Hnone. split; [|split].
  - split; [by intros []|]. intros H. split; [done|]. apply Hnone in H. lia.
  - by destruct (_ && _).
  - destruct (_ && _) eqn:E; bool_prop; [by rewrite <- Hnone|]. split; [by split_test|].
    intros [H1 H2]. apply Hnone in H1. by destruct E.
Qed.

Section applying.
Context {W : World}.
#[local] Hint Resolve minting_persist : runtime.
#[local] Hint Extern 1 (within minting (store_plan _)) => constructor; intros; by apply minting_same : runtime.

Lemma plan_in_state_fields p state : pl_id (plan_in_state p state) = pl_id p /\
  pl_restores (plan_in_state p state) = pl_restores p /\ pl_state (plan_in_state p state) = state.
Proof. done. Qed.

Lemma apply_steps_value plan c receipt c' : registry_bounded (co_authority c) ->
  apply_steps plan (co_epoch c) (co_boot c) c = (Value receipt, c') -> receipt_holds c c' plan receipt.
Proof.
  intros Hb H. unfold apply_steps in H. cbn zeta in H. op_value H. op_within minting Hm M1. clear Hm.
  op_value H. op_within minting Hm M2. clear Hm. assert (M : minting c c1) by (by etrans).
  destruct (mt_grants _ _ M Hb) as [Hb1 _]. op_value H.
  destruct (apply_fold_value _ _ _ _ _ _ Hb1 Hm) as [M3 (results & -> & Hr)]. clear Hm. rewrite app_nil_l in H.
  destruct (mt_grants _ _ M3 Hb1) as [Hb2 _].
  op_value H. op_within minting Hm M4. clear Hm. op_value H. op_within minting Hm M5. clear Hm.
  op_value H. op_within minting Hm M6. apply modify_value in Hm. 
  op_value H. op_within minting Hm0 M7. op_within plans_kept Hm0 K1. clear Hm0.
  op_value H. op_within minting Hm0 M8. op_within plans_kept Hm0 K2. clear Hm0.
  op_value H. op_within minting Hm0 M9. op_within plans_kept Hm0 K3. clear Hm0.
  assert (M' : minting c2 c8) by (by do 5 (etrans; [done|])). injection H as <- <-.
  assert (Hr' : Forall2 (step_outcome c c8) (pl_restores plan) results).
  { eapply Forall2_impl; [exact Hr|]. intros x y. by apply step_outcome_kept. }
  destruct (receipt_of_holds (plan_in_state plan PlanState.Applying) (co_epoch c) (co_boot c) results _ Hr') as
    (R1 & R2 & R3 & R4).
  split; try done. unfold plans_kept in *. rewrite K3, K2, K1, Hm. cbn [co_plans with_plans].
  eexists. split; [apply map_find_set_eq|done].
Qed.
End applying.

(** * Theorem *)

Section applying.
Context {W : World}.
#[local] Hint Resolve minting_persist : runtime.

Lemma now_ticks c t c' : now c = (Value t, c') -> exists n, c' = with_ticks c n.
Proof.
  unfold now. destruct has_clock; intros [= _ <-]; [eauto|]. exists (co_ticks c). by destruct c.
Qed.

Lemma receipt_holds_ticks c n c' plan receipt : receipt_holds (with_ticks c n) c' plan receipt ->
  receipt_holds c c' plan receipt.
Proof.
  intros [? ? Hs ? ? ? ? ?]; split; try done. eapply Forall2_impl; [exact Hs|].
  intros step s [? ? ? [?|[? [? ?]]]]; (split; [done..|]); [by left|by right].
Qed.

(** C4. Nothing is applied that is not warranted, and nothing is reported that
    was not applied. When [apply_plan] answers with a receipt, the plan that
    was retained under the requested identity is acceptable for the current
    inputs, its closure is complete unless the policy waives that, and it is
    proven feasible or has nothing to restore. The receipt lists one result per
    restore step, in order; a step counts as applied only if each of its
    generations is installed and unfenced and a fresh Active grant of the
    dependent, bound to exactly these generations, was minted under the current
    epoch and incarnation with the attempt number the receipt shows. No effect
    is reported as verified, the counts add up, and the plan is retained as
    Applied exactly when every step was. *)
Theorem apply_plan_receipt p c receipt c' :
  registry_bounded (co_authority c) -> apply_plan p c = (Value receipt, c') ->
  exists plan t, map_find (pl_id p) (co_plans c) = Some plan /\ reading t /\
    plan_acceptable (make_inputs (pl_id plan) t c) plan /\
    (pl_closure_complete plan = true \/ po_allow_truncated (co_policy c) = true) /\
    (pl_feasibility plan = PlanFeasibility.ProvenFeasible \/ pl_restores plan = []) /\
    receipt_holds c c' plan receipt.
Proof.
  intros Hb H. unfold apply_plan in H. op_read H. destruct (map_find (pl_id p) (co_plans c)) as [plan|]; [|done].
  op_value H. apply now_value in Hm as Ht. apply now_ticks in Hm as [n ->]. op_read H. cbn zeta in H.
  split_test; [by op_value H; op_value H|]. split_test; [done|]. bool_prop.
  apply validate_plan_valid in Heqb as Hacc. exists plan, a1.
  split; [done|]. split; [done|]. split; [done|].
  split; [done|].
  split_test.
  - bool_prop. pose proof (pa_nothing _ _ Hacc Heqb1) as Hr. split; [by right|]. op_value H. op_within minting Hm M1. clear Hm.
    op_value H. apply modify_value in Hm. injection H as <- <-.
    split; rewrite ?Hr; try done. rewrite Hm. eexists. split; [apply map_find_set_eq|done].
  - split_test; [done|]. bool_prop. split; [by left|]. apply (receipt_holds_ticks c n). by apply apply_steps_value.
Qed.
End applying.
