(* ===== verification/Restoring.v ===== *)
(** The restore decision: what [Coordinator::evaluate_restore] requires before it
    lets a dependent back into service, and where a verified effect comes from. *)

From S2P Require Import Prelude Containers Core Generation Switch Authority Evidence Topology Bytes Integrity Records.
From S2P Require Import Journal Wire Decision Plan Policy Payloads Candidates Planner Validator Session.
From S2P Require Import Coordinator Failover Entries Runtime.

#[local] Open Scope op_scope.

(** * Observation *)

(** Only the clock and the logs moved. *)
Definition observes (c c' : Coordinator) : Prop :=
  exists n events decisions, c' = with_decisions (with_events (with_ticks c n) events) decisions.

#[export] Instance observes_frames : Frames observes.
Proof.
  assert (Hrefl : forall c, observes c c).
  { intros c. exists (co_ticks c), (co_events c), (co_decisions c). by destruct c. }
  split; [split; [done|]|..].
  - intros c1 c2 c3 (n & e & d & ->) (n' & e' & d' & ->). by exists n', e', d'.
  - intros c n. by exists n, (co_events c), (co_decisions c).
  - intros c e. by exists (co_ticks c), e, (co_decisions c).
  - intros c d. by exists (co_ticks c), (co_events c), d.
Qed.

(** * The verdict *)

(** No generation the dependent relies on is fenced or must be. *)
Definition clear_of_fences (c : Coordinator) (bound : GenerationVector) (t : Z) : Prop :=
  forall k, k ∈ bound -> is_fenced (co_authority c) k = false /\ sa_fence_required (assess_at c k t) = false.

Lemma no_blocking c bound t : blocking_generations c bound t = [] <-> clear_of_fences c bound t.
Proof.
  unfold blocking_generations, clear_of_fences. rewrite empty_iff. split.
  - intros H k Hk. specialize (H k). rewrite list_elem_of_filter in H. apply orb_false_iff. destruct (_ || _); tauto.
  - intros H k. rewrite list_elem_of_filter. intros [Hb Hk]. apply H in Hk as [H1 H2]. by rewrite H1, H2 in Hb.
Qed.

Lemma verdict_exact blocking q step policy :
  (aq_outcome q = Code.Ok <-> aq_has_authority q = true) -> aq_reason q = aq_outcome q ->
  let '(outcome, reason, may, verified, _) := restore_verdict blocking q step policy in
  (verified = true <-> blocking = [] /\ aq_has_authority q = true /\
     exists s, step = Some s /\ sr_state s = AckState.Verified) /\
  (may = true <-> blocking = [] /\ aq_has_authority q = true /\
     exists s, step = Some s /\ (sr_state s = AckState.Verified \/
       sr_state s <> AckState.Failed /\ po_allow_acknowledgement policy = true)) /\
  (outcome = Code.Ok <-> verified = true) /\ reason = outcome.
Proof.
  intros Hq Hr. unfold restore_verdict. split_test; [bool_prop; naive_solver|]. split_test; [bool_prop|].
  { assert (aq_outcome q <> Code.Ok) by (rewrite Hq, Heqb0; done). split; [naive_solver congruence|].
    split; [naive_solver congruence|]. split; [done|done]. }
  bool_prop. destruct step as [s|]; [|naive_solver]. split_test; [bool_prop; naive_solver congruence|].
  split_test; bool_prop; [naive_solver|]. split_test; bool_prop; naive_solver congruence.
Qed.

Section restoring.
Context {W : World}.

Lemma evaluate_restore_value d c dec c' : evaluate_restore d c = (Value dec, c') ->
  observes c c' /\ exists t, reading t /\ let q := query (co_authority c) d t in
    rd_dependent dec = d /\ rd_bound dec = aq_bound q /\ rd_blocking dec = blocking_generations c (aq_bound q) t /\
    restore_verdict (rd_blocking dec) q (latest_step d (co_apply_steps c)) (co_policy c) =
      (rd_outcome dec, rd_reason dec, rd_may_restore dec, rd_effect_verified dec,
       (restore_verdict (rd_blocking dec) q (latest_step d (co_apply_steps c)) (co_policy c)).2).
Proof.
  unfold evaluate_restore. split_test; [done|]. intros H. op_value H. op_within observes Hm O1. apply now_value in Hm as Ht.
  assert (Hc : exists n, c0 = with_ticks c n).
  { revert Hm. unfold now. destruct has_clock; intros [= _ <-]; [eauto|]. exists (co_ticks c). by destruct c. }
  destruct Hc as [n ->]. clear Hm. op_read H.
  cbn [co_authority co_apply_steps co_plans co_policy with_ticks] in H.
  change (blocking_generations (with_ticks c n)) with (blocking_generations c) in H.
  set (q := query (co_authority c) d a) in *.
  destruct (restore_verdict _ _ _ _) as [[[[outcome reason] may] verified] refusal] eqn:E. cbn zeta in H.
  op_value H. op_within observes Hm O2. clear Hm. op_value H. op_within observes Hm O3. clear Hm.
  injection H as <- <-. split; [by do 2 (etrans; [done|])|]. exists a. split; [done|]. cbn zeta.
  cbn [rd_dependent rd_bound rd_blocking rd_outcome rd_reason rd_may_restore rd_effect_verified]. do 3 (split; [done|]).
  fold q. by rewrite E.
Qed.

(** The steps recorded for a dependent, one per replacement it was re-bound to,
    in the order of the replacements. *)
Definition recorded_steps (d : DependentRef) (c : Coordinator) : list ApplyStepResult :=
  (filter (fun e => e.1.1 = d) (co_apply_steps c)).*2.

Lemma latest_step_last d c : latest_step d (co_apply_steps c) = last (recorded_steps d c).
Proof. unfold latest_step, recorded_steps. by rewrite fmap_last. Qed.

(** C5. What the restore decision requires. A dependent is let back into service
    only if, at the instant of the decision, none of the generations its active
    grants are bound to is fenced or under a fence obligation, it has active
    authority, and one of the steps recorded for it is verified, or at least not
    failed where the policy accepts an acknowledgement; its effect is reported as
    verified only with a verified step. Where a single step is recorded, for the
    one replacement the dependent was ever re-bound to, these conditions are also
    sufficient. (With several the code takes the one with the greatest
    replacement, which need not be the latest: [older_step_restores] is an
    unverified re-binding that is let back on an older verified step.) The outcome
    is Ok exactly when the effect is reported as verified; an acknowledgement
    alone leaves it Unverified. The decision changes nothing but the logs and the
    clock. *)
Theorem restore_decision_exact d c dec c' : evaluate_restore d c = (Value dec, c') ->
  observes c c' /\ exists t, reading t /\ let q := query (co_authority c) d t in
    let covered := clear_of_fences c (aq_bound q) t /\ aq_has_authority q = true in
    let proven s := sr_state s = AckState.Verified in
    let accepted s := proven s \/ sr_state s <> AckState.Failed /\ po_allow_acknowledgement (co_policy c) = true in
    (rd_effect_verified dec = true -> covered /\ exists s, s ∈ recorded_steps d c /\ proven s) /\
    (rd_may_restore dec = true -> covered /\ exists s, s ∈ recorded_steps d c /\ accepted s) /\
    (forall s, recorded_steps d c = [s] ->
       (rd_effect_verified dec = true <-> covered /\ proven s) /\ (rd_may_restore dec = true <-> covered /\ accepted s)) /\
    (rd_outcome dec = Code.Ok <-> rd_effect_verified dec = true) /\ rd_reason dec = rd_outcome dec.
Proof.
  intros H. apply evaluate_restore_value in H as (O & t & Ht & _ & _ & Hb & Hv). split; [done|]. exists t. split; [done|].
  cbn zeta in *. set (q := query (co_authority c) d t) in *.
  pose proof (verdict_exact (rd_blocking dec) q (latest_step d (co_apply_steps c)) (co_policy c)
    (query_outcome_ok _ _ _) (query_reason _ _ _)) as Hx. rewrite Hv in Hx. destruct Hx as (H1 & H2 & H3 & H4).
  rewrite latest_step_last in H1, H2. rewrite <- no_blocking, <- Hb. split_and!; [| | |done|done].
  - rewrite H1. intros (? & ? & s & Hs%last_Some_elem_of & ?). split; [done|]. by exists s.
  - rewrite H2. intros (? & ? & s & Hs%last_Some_elem_of & ?). split; [done|]. by exists s.
  - intros s Hs. rewrite Hs in H1, H2. cbn [last] in H1, H2.
    assert (E : forall P : ApplyStepResult -> Prop, (exists s0, Some s = Some s0 /\ P s0) <-> P s)
      by (intros P; split; [by intros (s0 & [= <-] & Hp)|by exists s]).
    rewrite E in H1, H2. rewrite <- no_blocking, <- Hb, H1, H2. split; tauto.
Qed.
End restoring.

(** * Where verification comes from *)

Lemma elem_of_map_set {K V} `{Ordered K, EqDecision K} (k : K) (v : V) m e : e ∈ map_set k v m -> e = (k, v) \/ e ∈ m.
Proof. induction m as [|[k' v'] m IH]; simpl; [set_solver|]. repeat case_match; set_solver. Qed.

(** Steps that verify recorded effects only on the word of a record of [V]. *)
Definition verified_by (V : EvidenceRecord -> Prop) (c c' : Coordinator) : Prop :=
  forall e, e ∈ co_apply_steps c' -> sr_state e.2 = AckState.Verified ->
    e ∈ co_apply_steps c \/
    exists r, V r /\ er_kind r = EvidenceKind.EffectVerification /\ er_effect_dependent r = e.1.1 /\
      sr_verification e.2 = er_id r.

Section verifying.
Context (V : EvidenceRecord -> Prop).

Lemma verified_same c c' : co_apply_steps c' = co_apply_steps c -> verified_by V c c'.
Proof. intros Hs e. rewrite Hs. by left. Qed.

#[export] Instance verified_frames : Frames (verified_by V).
Proof.
  split; [split; [intros c; by apply verified_same|]|intros; by apply verified_same..].
  intros c1 c2 c3 H12 H23 e He Hv. destruct (H23 e He Hv) as [H2|?]; [by apply H12|by right].
Qed.

Lemma verify_fold r epoch boot restores steps found e :
  e ∈ (foldl (verify_step (stamp epoch boot r)) (steps, found) restores).1 -> sr_state e.2 = AckState.Verified ->
  e ∈ steps \/ (er_kind r = EvidenceKind.EffectVerification /\ er_effect_dependent r = e.1.1 /\ sr_verification e.2 = er_id r).
Proof.
  revert steps found. induction restores as [|step restores IH]; intros steps found He Hv; [by left|].
  cbn [foldl] in He. unfold verify_step in He at 2. split_test; [by eapply IH|]. cbn [fst] in He.
  destruct (map_find _ steps) as [s|]; [|by eapply IH]. bool_prop.
  destruct (IH _ _ He Hv) as [Hin|?]; [|by right]. apply elem_of_map_set in Hin as [->|?]; [right|by left].
  cbn in Hv |- *. by case_bool_decide.
Qed.

#[export] Instance verified_serves {W : World} : Serves V (verified_by V).
Proof.
  split; try exact _; try (intros; by apply verified_same); try (intros; constructor; intros; by apply verified_same).
  - intros c e. by apply verified_same.
  - intros c s Hs e [->|?]%elem_of_map_set Hv; [done|by left].
  - intros c epoch boot r plan Hr e He Hv. destruct (verify_fold _ _ _ _ _ _ _ He Hv) as [?|?]; [by left|right; eauto].
  - intros r. by apply within_on_failures; intros; apply verified_same.
  - intros d bound detail _. by apply within_grant_now; [exact _|]; intros; apply verified_same.
  - intros d cause detail. by apply within_on_authority; intros; apply verified_same.
  - intros f. by apply within_on_authority; intros; apply verified_same.
  - intros kind payload _. by apply within_persist; [exact _|]; intros; apply verified_same.
  - by apply within_close_store; [exact _|]; intros; apply verified_same.
Qed.
End verifying.

(** * Theorems *)

Lemma latest_step_elem d steps s : latest_step d steps = Some s -> exists e, e ∈ steps /\ e.1.1 = d /\ e.2 = s.
Proof.
  unfold latest_step. destruct (last _) as [e|] eqn:E; [|done]. intros [= <-]. apply last_Some_elem_of in E.
  apply list_elem_of_filter in E as [? ?]. by exists e.
Qed.

(** A step of the dependent is recorded as verified. *)
Definition step_verified (steps : StepTable) (d : DependentRef) : Prop :=
  exists e, e ∈ steps /\ e.1.1 = d /\ sr_state e.2 = AckState.Verified.

(** A decision that reports a verified effect rests on a verified step. *)
Lemma verified_now {W : World} d c dec c' : evaluate_restore d c = (Value dec, c') -> rd_effect_verified dec = true ->
  step_verified (co_apply_steps c) d.
Proof.
  intros H Hv. apply evaluate_restore_value in H as (_ & t & _ & _ & _ & _ & Hx). cbn zeta in Hx.
  pose proof (verdict_exact (rd_blocking dec) _ (latest_step d (co_apply_steps c)) (co_policy c)
    (query_outcome_ok (co_authority c) d t) (query_reason _ _ _)) as Hvx. rewrite Hx in Hvx.
  destruct Hvx as [Hve _]. apply Hve in Hv as (_ & _ & s & Hs & Hstate).
  apply latest_step_elem in Hs as (e & He & Hd & <-). by exists e.
Qed.

(** A run verifies a step only on the word of a record it was given. *)
Lemma run_verified {W : World} qs c d : Forall request_ok qs -> step_verified (co_apply_steps (serve_all qs c)) d ->
  step_verified (co_apply_steps c) d \/
  (exists r, RecordVerification r ∈ qs /\ er_kind r = EvidenceKind.EffectVerification /\ er_effect_dependent r = d).
Proof.
  intros Hq (e & He & Hd & Hstate). set (V r := RecordVerification r ∈ qs). assert (Hin : Forall (request_in V) qs).
  { apply Forall_forall. intros q Hin. by destruct q. }
  destruct (serve_all_within V (verified_by V) qs c Hq Hin e He Hstate) as [?|(r & Hr & Hk & Hdep & _)].
  - left. by exists e.
  - right. exists r. by rewrite Hdep.
Qed.

(** C14. An acknowledgement never becomes a verified effect. Whenever a
    coordinator reports the effect on a dependent as verified, then either a
    step of this dependent was already verified when the run began, or the run
    was given an effect verification record about this very dependent. *)
Theorem restored_means_verified {W : World} qs c d dec c' :
  Forall request_ok qs -> evaluate_restore d (serve_all qs c) = (Value dec, c') -> rd_effect_verified dec = true ->
  step_verified (co_apply_steps c) d \/
  (exists r, RecordVerification r ∈ qs /\ er_kind r = EvidenceKind.EffectVerification /\ er_effect_dependent r = d).
Proof. intros Hq H Hv. by apply run_verified, (verified_now _ _ _ _ H). Qed.
