(* ===== verification/Stopping.v ===== *)
(** The end of an incarnation: what [Coordinator::shutdown] leaves behind and
    what a stopped coordinator still does. *)

From S2P Require Import Prelude Containers Core Generation Switch Authority Evidence Topology Bytes Integrity Records.
From S2P Require Import Journal Wire Decision Plan Policy Payloads Candidates Planner Validator Session.
From S2P Require Import Coordinator Failover Entries Runtime.

#[local] Open Scope op_scope.

(** Every session is closed. *)
Definition all_closed (r : SessionRegistry) : Prop :=
  forall id s, map_find id (sg_sessions r) = Some s -> sr_closed s = true.

Lemma close_all_closed r : all_closed (close_all r).2.
Proof.
  intros id s. rewrite find_close_all. destruct (map_find id _) as [s0|]; [|done]. intros [= <-]. by destruct (sr_closed s0) eqn:E.
Qed.

Lemma session_close_closed id r : all_closed r -> all_closed (session_close id r).2.
Proof.
  intros Hr id' s. rewrite session_close_sessions. case_bool_decide; [|apply Hr].
  destruct (map_find id _); [by intros [= <-]|done].
Qed.

Lemma authorise_closed b epoch digest r : all_closed r ->
  status_ok (authorise b epoch digest r).1 = false /\ all_closed (authorise b epoch digest r).2.
Proof.
  intros Hr. destruct (authorise_cases b epoch digest r) as [(s & Hs & (s' & Hs' & Hc & _) & _)|(_ & Hok & Hsame & _)].
  - by rewrite (Hr _ _ Hs') in Hc.
  - split; [done|]. intros id s. rewrite Hsame. apply Hr.
Qed.

(** Only the clock, the logs and the table of closed sessions moved. *)
Definition frozen (c c' : Coordinator) : Prop :=
  exists n events decisions sessions,
    c' = with_session_table (with_decisions (with_events (with_ticks c n) events) decisions) sessions /\
    (all_closed (co_sessions c) -> all_closed sessions).

#[export] Instance frozen_frames : Frames frozen.
Proof.
  split; [split|..].
  - intros c. exists (co_ticks c), (co_events c), (co_decisions c), (co_sessions c). by destruct c.
  - intros c1 c2 c3 (n & e & d & s & -> & H1) (n' & e' & d' & s' & -> & H2). exists n', e', d', s'. split; [done|]. cbn in H2. auto.
  - intros c n. by exists n, (co_events c), (co_decisions c), (co_sessions c).
  - intros c e. by exists (co_ticks c), e, (co_decisions c), (co_sessions c).
  - intros c d. by exists (co_ticks c), (co_events c), d, (co_sessions c).
Qed.

(** The requests [ensure_running] guards. *)
Definition guarded (q : Request) : bool :=
  match q with
  | Assess _ | AssessIdentity _ | ValidatePlan _ | EvaluateRestore _ | QueryAuthority _ | CloseSession _ | Authorise _
  | Shutdown => false
  | _ => true
  end.

Section stopping.
Context {W : World}.

Lemma frozen_sessions {A} (f : SessionRegistry -> A * SessionRegistry) :
  (forall r, all_closed r -> all_closed (f r).2) -> within frozen (on_sessions f).
Proof.
  intros Hf. constructor. intros c. unfold on_sessions. specialize (Hf (co_sessions c)). destruct (f _) as [a r].
  exists (co_ticks c), (co_events c), (co_decisions c), r. by destruct c.
Qed.

Lemma stopped_refuses {A} (k : unit -> Op A) c : co_stopped c = true ->
  op_bind ensure_running k c = (Refused (failure Code.Closed "coordinator has been shut down"), c).
Proof. intros Hs. unfold ensure_running, gets, op_bind. by rewrite Hs. Qed.

Lemma checked_refuses {A} s (k : unit -> Op A) c :
  (exists s', k tt c = (Refused s', c) /\ status_ok s' = false) ->
  exists s', op_bind (ensure_ok s) k c = (Refused s', c) /\ status_ok s' = false.
Proof. intros H. unfold ensure_ok, op_bind. destruct (status_ok s) eqn:E; [done|]. by exists s. Qed.

Lemma guard_refuses {A} (b : bool) code message (k : unit -> Op A) c : code <> Code.Ok ->
  (exists s', k tt c = (Refused s', c) /\ status_ok s' = false) ->
  exists s', op_bind (if b then refuse_with code message else op_ret tt) k c = (Refused s', c) /\ status_ok s' = false.
Proof.
  intros Hc H. destruct b; [|done]. exists (failure code message). split; [done|]. by rewrite failure_not_ok.
Qed.

(** A guarded request is refused and changes nothing. *)
Lemma guarded_refused q c : co_stopped c = true -> guarded q = true ->
  (serve q c).2 = c /\ status_ok (serve q c).1 = false.
Proof.
  intros Hs Hg. assert (Hc : status_ok (failure Code.Closed "coordinator has been shut down") = false) by apply failure_not_ok.
  assert (Hr : forall A (m : Op A), (exists s, m c = (Refused s, c) /\ status_ok s = false) ->
    (answer (m c)).2 = c /\ status_ok (answer (m c)).1 = false) by (intros A m (s & -> & ?); done).
  assert (Hb : forall A (k : unit -> Op A), exists s, op_bind ensure_running k c = (Refused s, c) /\ status_ok s = false)
    by (intros; rewrite stopped_refuses by done; eauto).
  destruct q; try done; cbn [serve]; apply Hr; try apply Hb.
  - by apply checked_refuses.
  - apply checked_refuses. by apply checked_refuses.
  - by apply checked_refuses.
  - by apply guard_refuses.
Qed.
End stopping.

(** Steps after which the sessions and the store are what they were. *)
Record ending (c c' : Coordinator) : Prop := {
  en_stopped : co_stopped c' = co_stopped c;
  en_sessions : co_sessions c' = co_sessions c;
  en_store : co_store c' = co_store c
}.

#[export] Instance ending_frames : Frames ending.
Proof. split; [split|..]; [done|intros c1 c2 c3 [] []; split; congruence|done..]. Qed.

(** The journal is closed, if there is one. *)
Definition journal_closed (c : Coordinator) : Prop := forall s, co_store c = Some s -> ds_open s = false.

Section stopping.
Context {W : World}.

Lemma settle_store_value c : exists st c', settle_store c = (Value st, c') /\
  co_stopped c' = co_stopped c /\ co_sessions c' = co_sessions c /\ journal_closed c'.
Proof.
  unfold settle_store. destruct (co_store c) as [s|] eqn:Es.
  2: { eexists _, _. do 3 (split; [done|]). intros s Hs. congruence. }
  destruct (persist_record _ _ c) as [r c1] eqn:Ep.
  assert (Hc1 : co_stopped c1 = co_stopped c /\ co_sessions c1 = co_sessions c).
  { revert Ep. unfold persist_record. rewrite Es. destruct (Journal.append _ _ _ _ _ _) as [[? ?] ?]. by intros [= _ <-]. }
  destruct Hc1 as [<- <-]. unfold close_store. destruct (co_store c1) as [s1|] eqn:Es1.
  2: { eexists _, _. do 3 (split; [done|]). intros s' Hs'. congruence. }
  destruct (Journal.close close_answer s1) as [st s2] eqn:Ec. eexists _, _. do 3 (split; [done|]).
  intros s' [= <-]. revert Ec. unfold Journal.close. split_test; [by bool_prop; intros [= _ <-]|by intros [= _ <-]].
Qed.

Lemma event_answers kind code text n c : exists c', append_event kind code text n c = (Value tt, c') /\ ending c c'.
Proof.
  pose proof (within_at ending _ (frame_plain_event ending kind code text n) c) as E.
  destruct (append_event kind code text n c) as [[[]|st] c'] eqn:Ee; [eauto|]. exfalso. revert Ee.
  unfold append_event, append_event_about, op_bind, now, modify. by destruct has_clock.
Qed.

Lemma shutdown_value c a c' : co_stopped c = false -> shutdown c = (a, c') ->
  co_stopped c' = true /\ all_closed (co_sessions c') /\ journal_closed c'.
Proof.
  intros Hs. unfold shutdown. unfold op_bind at 1, gets. rewrite Hs. unfold op_bind at 1, modify. unfold op_bind at 1, on_sessions.
  pose proof (close_all_closed (co_sessions (with_stopped c true))) as Hr.
  destruct (close_all (co_sessions (with_stopped c true))) as [closed r]. cbn [snd] in Hr. unfold op_bind at 1.
  destruct (event_answers EventKind.RuntimeShutdown Code.Ok "runtime shutting down" 0
    (with_session_table (with_stopped c true) r)) as (c1 & -> & E1).
  unfold op_bind at 1. destruct (settle_store_value c1) as (st & c2 & -> & H1 & H2 & H3). intros H.
  assert (E2 : ending c2 c').
  { match type of H with ?m c2 = _ => assert (Hw : within ending m) by within_steps; pose proof (within_at _ _ Hw c2) as E2 end.
    by rewrite H in E2. }
  rewrite (en_stopped _ _ E2), (en_sessions _ _ E2), H1, H2, (en_stopped _ _ E1), (en_sessions _ _ E1).
  split; [done|]. split; [done|]. intros s. rewrite (en_store _ _ E2). apply H3.
Qed.

(** A stopped coordinator only observes. *)
Lemma stopped_frozen q c : co_stopped c = true -> frozen c (serve q c).2.
Proof.
  intros Hs. destruct (guarded q) eqn:Hg; [by destruct (guarded_refused q c Hs Hg) as [-> _]|].
  destruct q; try done; cbn [serve answer snd].
  - apply (within_at frozen). unfold co_assess. within_steps.
  - apply (within_at frozen). unfold assess_identity. within_steps.
  - apply (within_at frozen). unfold co_validate_plan. within_steps.
  - apply (within_at frozen). unfold evaluate_restore. within_steps.
  - apply (within_at frozen). unfold query_authority. within_steps.
  - apply (within_at frozen). unfold close_session.
    apply within_bind; [exact _|by apply frozen_sessions, session_close_closed|within_steps].
  - apply (within_at frozen). unfold co_authorise. within_steps. apply frozen_sessions. intros r Hr.
    by apply authorise_closed.
  - unfold shutdown, op_bind, gets. by rewrite Hs.
Qed.

Lemma stopped_run qs c : co_stopped c = true -> frozen c (serve_all qs c) /\ co_stopped (serve_all qs c) = true.
Proof.
  revert c. induction qs as [|q qs IH]; intros c Hs; [done|]. pose proof (stopped_frozen q c Hs) as F.
  assert (Hs' : co_stopped (serve q c).2 = true) by (destruct F as (? & ? & ? & ? & -> & _); done).
  destruct (IH _ Hs') as [F' H']. split; [by etrans|done].
Qed.
End stopping.

(** * Theorem *)

(** C30. Shutdown is final for what begins after it. In any state whose stopped
    flag is set, and so at any time after [shutdown] has set it, however a method
    that was in progress then changes the rest of the state: a request that could
    change lineage, authority, inputs, plans or sessions is refused and leaves the
    state as it is, any other moves at most the clock, the logs and sessions, and
    the flag stays set. When no method is in progress while [shutdown] runs, then
    moreover, whatever it returns, the journal is closed afterwards, every session
    is and stays closed, and no session authorises anything. (The source does not
    exclude a method in progress: [shutdown] takes no mutex.) *)
Theorem shutdown_is_final {W : World} c qs q b :
  (forall c3, co_stopped c3 = true ->
     (guarded q = true -> (serve q c3).2 = c3 /\ status_ok (serve q c3).1 = false) /\
     frozen c3 (serve q c3).2 /\ co_stopped (serve q c3).2 = true) /\
  (co_stopped c = false -> let c1 := (shutdown c).2 in let c2 := serve_all qs c1 in
     co_stopped c1 = true /\ journal_closed c2 /\ all_closed (co_sessions c2) /\ frozen c1 c2 /\
     status_ok (serve (Authorise b) c2).1 = false).
Proof.
  split.
  { intros c3 Hs. split; [by apply guarded_refused|]. split; [by apply stopped_frozen|]. apply (stopped_run [q] c3 Hs). }
  intros Hs. cbn zeta. destruct (shutdown c) as [a c1] eqn:E. cbn [snd].
  destruct (shutdown_value c a c1 Hs E) as (H1 & H2 & H3). destruct (stopped_run qs _ H1) as [F Hs2].
  assert (Hc : all_closed (co_sessions (serve_all qs c1)) /\ journal_closed (serve_all qs c1)).
  { destruct F as (n & e & d & s & -> & Hcl). split; [by apply Hcl|exact H3]. }
  destruct Hc as [Hc Hst]. do 4 (split; [done|]). cbn [serve]. generalize dependent (serve_all qs c1). intros c2 _ _ Hc _.
  unfold co_authorise, gets, op_bind, on_sessions.
  pose proof (authorise_closed b (co_epoch c2) (co_boot_digest c2) (co_sessions c2) Hc) as [Ha _].
  destruct (authorise _ _ _ _) as [st r]. cbn [fst] in Ha. unfold ensure_ok. by rewrite Ha.
Qed.
