(* ===== verification/Proposing.v ===== *)
(** Proposing a plan: what [Coordinator::propose_plan] retains, what it evicts
    and how many plans a coordinator holds. *)

From S2P Require Import Prelude Containers Core Generation Switch Authority Evidence Topology Bytes Integrity Records.
From S2P Require Import Journal Wire Decision Plan Policy Payloads Candidates Planner Validator Session.
From S2P Require Import Coordinator Failover Entries Runtime Fencing Restart Applying.

#[local] Open Scope op_scope.

(** * Eviction *)

(** What the eviction loop leaves. *)
Record evicted (capacity : Z) (plans plans' : PlanTable) : Prop := {
  ev_wf : map_wf plans';
  ev_from : forall id p, map_find id plans' = Some p -> map_find id plans = Some p;
  ev_applying : forall id p, map_find id plans = Some p -> is_applying p = true -> map_find id plans' = Some p;
  ev_room : map_size plans' < capacity \/ forall id p, map_find id plans' = Some p -> is_applying p = true
}.

Lemma map_erase_length k (plans : PlanTable) p : map_wf plans -> map_find k plans = Some p ->
  length plans = S (length (map_erase k plans)).
Proof. intros Hwf Hk. by rewrite (map_erase_perm k p plans Hwf Hk) at 1. Qed.

Lemma evict_plans_spec fuel capacity plans : map_wf plans -> (length plans <= fuel)%nat ->
  evicted capacity plans (evict_plans fuel capacity plans).
Proof.
  revert plans. induction fuel as [|fuel IH]; intros plans Hwf Hf.
  { destruct plans; [|simpl in Hf; lia]. split; [done..|]. by right. }
  cbn [evict_plans]. split_test.
  2: { split; [done..|]. rewrite andb_false_iff in Heqb. destruct Heqb as [H|H]; bool_prop; [left; lia|]. right. by subst. }
  destruct (List.find _ plans) as [[k p]|] eqn:Efind.
  - apply find_some in Efind as [Hin Hp]. cbn [fst snd] in *. apply list_elem_of_In, (map_in_find _ _ _ Hwf) in Hin.
    pose proof (map_erase_length _ _ _ Hwf Hin) as Hlen.
    destruct (IH (map_erase k plans)) as [H1 H2 H3 H4]; [by apply map_erase_wf|lia|]. split; [done| | |done].
    + intros id q Hq. apply H2 in Hq. destruct (decide (k = id)) as [->|Hne].
      * by rewrite map_find_erase_eq in Hq.
      * by rewrite map_find_erase_ne in Hq.
    + intros id q Hq Ha. apply H3; [|done]. rewrite map_find_erase_ne; [done|]. intros ->. simplify_eq. by rewrite Ha in Hp.
  - split; [done..|]. right. intros id p Hp. apply map_find_in, list_elem_of_In in Hp.
    pose proof (find_none _ _ Efind _ Hp) as Hn. simpl in Hn. by bool_prop.
Qed.

(** A table with no plan in flight has at most [capacity] plans after one more. *)
Definition in_flight (plans : PlanTable) : Z := zlen (filter (fun e => is_applying e.2 = true) plans).

Lemma map_size_set_le k p (plans : PlanTable) : map_wf plans -> map_size (map_set k p plans) <= map_size plans + 1.
Proof.
  intros Hwf. destruct (map_find k plans) as [q|] eqn:E.
  - rewrite (map_size_set_old _ _ _ _ E Hwf). lia.
  - by rewrite map_size_set_new.
Qed.

Lemma evicted_bound capacity plans plans' : map_wf plans -> evicted capacity plans plans' ->
  map_size plans' + 1 <= Z.max capacity (in_flight plans + 1).
Proof.
  intros Hwf [H1 H2 _ [H|H]]; [lia|].
  assert (Hsub : plans' ⊆+ filter (fun e => is_applying e.2 = true) plans).
  { apply NoDup_submseteq; [by apply (NoDup_fmap_1 fst), canonical_NoDup|]. intros [k p] Hin.
    apply (map_in_find _ _ _ H1) in Hin. apply list_elem_of_filter. split; [by eapply H|]. by apply map_find_in, H2. }
  apply submseteq_length in Hsub. unfold map_size, in_flight, zlen. lia.
Qed.

(** * The table of plans *)

(** The table stays a map. *)
Definition plans_mapped (c c' : Coordinator) : Prop := map_wf (co_plans c) -> map_wf (co_plans c').

Lemma plans_mapped_same c c' : co_plans c' = co_plans c -> plans_mapped c c'.
Proof. unfold plans_mapped. by intros ->. Qed.

#[export] Instance plans_mapped_frames : Frames plans_mapped.
Proof. split; [split|..]; unfold plans_mapped; auto. Qed.

#[export] Instance plans_mapped_serves {W : World} V : Serves V plans_mapped.
Proof.
  split; try exact _; try (intros; by apply plans_mapped_same).
  - intros c e. by apply plans_mapped_same.
  - intros p. constructor. intros c Hwf. by apply map_set_wf.
  - intros k. constructor. intros c Hwf. by apply map_update_wf.
  - intros c n Hwf. by eapply (ev_wf n), evict_plans_spec.
  - intros r. by apply within_on_failures; intros; apply plans_mapped_same.
  - intros d bound detail _. by apply within_grant_now; [exact _|]; intros; apply plans_mapped_same.
  - intros gens. by apply within_on_authority; intros; apply plans_mapped_same.
  - intros d cause detail. by apply within_on_authority; intros; apply plans_mapped_same.
  - intros f. by apply within_on_authority; intros; apply plans_mapped_same.
  - intros kind payload _. by apply within_persist; [exact _|]; intros; apply plans_mapped_same.
  - by apply within_close_store; [exact _|]; intros; apply plans_mapped_same.
Qed.

Lemma recover_plans_wf limits rs : map_wf (rv_plans (recover limits rs)).
Proof.
  unfold recover. assert (H : map_wf (rv_plans (recovery_new limits))) by (by constructor).
  revert H. generalize (recovery_new limits). induction rs as [|r rs IH]; intros v Hv; [done|]. apply IH. clear IH.
  unfold recover_record. split_test.
  { unfold recover_stream_header. destruct (read_stream_header _) as [[? ?] ?]. by split_test. }
  split_test; [unfold recover_failure; destruct (decode_failure_record _); [by destruct (failure_record _ _)|done]|].
  split_test; [unfold recover_fence; destruct (decode_fence_record _); [by destruct (restore_fence _ _)|done]|].
  split_test; [unfold recover_grant; destruct (decode_grant_record _); [by destruct (restore_grant _ _)|done]|].
  split_test; [unfold recover_plan; destruct (decode_plan_record _ _); [by apply map_set_wf|done]|].
  split_test; [unfold recover_receipt; by destruct (decode_apply_receipt _)|done].
Qed.

Lemma run_plans_wf {W : World} config disk c qs : open config disk = Some (Value tt, c) -> Forall request_ok qs ->
  map_wf (co_plans (serve_all qs c)).
Proof.
  intros Ho Hq. destruct (open_starts _ _ _ Ho) as (rs & _ & Hs).
  apply (serve_all_within any_record plans_mapped qs c Hq (any_requests _)). rewrite (sf_plans _ _ _ Hs). apply recover_plans_wf.
Qed.

(** * Theorem *)

(** C31. What is proposed is retained, and no more than fits. When a coordinator
    answers [propose_plan], the plan is the planner's for the current inputs,
    it passed the independent validator, and it is retained as Validated under
    its identity. Every plan with another identity that is being applied is
    still retained, nothing else was added, and the table holds at most the
    configured number of plans, or the plans in flight and the new one where
    those are more. (Identities start at 1 in every incarnation, so a plan
    restored from the journal under the identity of the new one is replaced,
    whatever its state.) *)
Theorem proposed_plan_retained {W : World} config disk c qs failed plan c' :
  open config disk = Some (Value tt, c) -> Forall request_ok qs ->
  let c2 := serve_all qs c in propose_plan failed c2 = (Value plan, c') ->
  exists p t, reading t /\ let i := make_inputs (co_next_plan c2) t c2 in
    plan_reconstruction i failed = Value p /\ plan_acceptable i p /\ plan = plan_in_state p PlanState.Validated /\
    map_find (pl_id plan) (co_plans c') = Some plan /\
    (forall id q, id <> pl_id plan -> map_find id (co_plans c2) = Some q -> pl_state q = PlanState.Applying ->
       map_find id (co_plans c') = Some q) /\
    (forall id q, id <> pl_id plan -> map_find id (co_plans c') = Some q -> map_find id (co_plans c2) = Some q) /\
    map_size (co_plans c') <= Z.max (po_max_retained_plans (co_policy c2)) (in_flight (co_plans c2) + 1).
Proof.
  intros Ho Hq. cbn zeta. pose proof (run_plans_wf _ _ _ qs Ho Hq) as Hwf. generalize dependent (serve_all qs c). clear Ho Hq.
  intros c2 Hwf H. unfold propose_plan in H. op_read H. op_value H.
  destruct (co_candidates_present c2); [|done]. injection Hm as <- <-. op_read H. op_value H. apply now_value in Hm as Ht. apply now_ticks in Hm as [n ->]. op_read H. rename a1 into t, a2 into p. cbn zeta in H.
  split_test; [by do 3 op_value H|]. bool_prop. apply validate_plan_valid in Heqb as Hacc. op_read H.
  op_value H. op_within plans_kept Hm K1. op_value H. op_within plans_kept Hm0 K2.
  op_value H. op_within plans_kept Hm1 K3. injection H as <- <-. unfold plans_kept in *. rewrite K3, K2, K1.
  exists p, t. split; [exact Ht|]. cbn [co_plans with_plans with_next_plan with_ticks co_policy].
  set (kept := evict_plans _ _ _). assert (He : evicted (po_max_retained_plans (co_policy c2)) (co_plans c2) kept)
    by (by apply evict_plans_spec).
  split; [done|]. split; [done|]. split; [done|]. split; [apply map_find_set_eq|]. split; [|split].
  - intros id q Hne Hid Hs. rewrite map_find_set_ne by done. apply (ev_applying _ _ _ He); [done|]. by apply bool_decide_eq_true.
  - intros id q Hne. rewrite map_find_set_ne by done. apply (ev_from _ _ _ He).
  - pose proof (evicted_bound _ _ _ Hwf He). eapply Z.le_trans; [|done]. exact (map_size_set_le _ _ _ (ev_wf _ _ _ He)).
Qed.
