(* ===== verification/Scenarios.v ===== *)
(** A concrete fabric run through the coordinator: a spine fails, is fenced,
    its dependents are re-bound, the effect is verified and the process is
    restarted. The run instantiates the hypotheses of the runtime's theorems,
    and a faulty disk shows where a retry loses a fence. *)

From S2P Require Import Prelude Containers Core Generation Switch Authority Evidence Topology Bytes Integrity Records.
From S2P Require Import Journal Wire Decision Plan Policy Payloads Candidates Planner Validator Session.
From S2P Require Import Coordinator Failover Entries Runtime Fencing Restart Lineage Applying Restoring Stopping Proposing.

(** * The fabric *)

(** A machine whose clock advances by one between readings. *)
Definition machine (start pid : Z) (writes : nat -> WriteIo) : World := {|
  has_clock := true; clock_at n := wrap64 (start + Z.of_nat n); path_resolve := Some; open_answer := open_io_ok;
  write_answer := writes; sync_answer := true; close_answer := true;
  random_word n := wrap32 (17 + Z.of_nat n); steady_ns := 5000; process_id := pid |}.

Definition first_life : World := machine 1000 41 (fun _ => write_io_ok).
Definition second_life : World := machine 9000 97 (fun _ => write_io_ok).

Definition lab_config : CoordinatorConfig :=
  mkConfig limits_defaults policy_defaults ["var"; "sff"]%string true EvidenceClass.Synthetic 4096 1024 0.

(** The coordinator after opening, if it opens. *)
Definition started (W : World) (config : CoordinatorConfig) (disk : Disk) : Coordinator :=
  match open config disk with Some (_, c) => c | None => coordinator_new config disk end.

Definition lost_spine : SwitchKey := mkSwitchKey 1 1.

Definition spine_lost : FailureDeclaration :=
  mkDeclaration lost_spine EvidenceSource.FabricManager 900 1000000 "spine lost power".

Definition setup : list Request :=
  [InstallTopology plan_topology; InstallCandidates plan_table;
   EstablishAuthority (dependent_port 1) [lost_spine] "initial forwarding"].

Definition booted : Coordinator := Eval vm_compute in started first_life lab_config empty_disk.
Definition installed : Coordinator := Eval vm_compute in @serve_all first_life setup booted.
Definition fenced : Coordinator := Eval vm_compute in (@declare_failure first_life spine_lost installed).2.

Definition outcome_none : FailoverOutcome :=
  mkOutcome key_none (mkFailureRecord key_none 0 0 boot_none 0 0 "") 0 FenceScopeState.Open closure_default 0 0 false Code.Ok
    explanation_default.

Definition fenced_outcome : FailoverOutcome := Eval vm_compute in
  match @declare_failure first_life spine_lost installed with (Value o, _) => o | _ => outcome_none end.

Lemma booted_opens : @open first_life lab_config empty_disk = Some (Value tt, booted).
Proof. vm_compute. reflexivity. Qed.

Lemma installed_run : @serve_all first_life setup booted = installed.
Proof. vm_compute. reflexivity. Qed.

Lemma fenced_run : @declare_failure first_life spine_lost installed = (Value fenced_outcome, fenced).
Proof. vm_compute. reflexivity. Qed.

Lemma setup_ok : Forall request_ok setup.
Proof. repeat first [apply (sample_key_wf 1); discriminate | constructor]. Qed.

Lemma booted_recovers : @recovered first_life lab_config empty_disk [].
Proof. eexists _, _. split; vm_compute; reflexivity. Qed.

Lemma booted_bounded : registry_bounded (co_authority booted).
Proof. apply (@opened_bounded first_life lab_config empty_disk booted [] booted_opens booted_recovers); [constructor|discriminate]. Qed.

Lemma installed_bounded : registry_bounded (co_authority installed).
Proof. rewrite <- installed_run. apply (lt_bounded _ _ (@serve_all_later first_life setup booted setup_ok)), booted_bounded. Qed.

Lemma fenced_served : (@serve first_life (DeclareFailure spine_lost) installed).2 = fenced.
Proof.
  change ((answer (@declare_failure first_life spine_lost installed)).2 = fenced). by rewrite fenced_run.
Qed.

Definition until_fenced : list Request := setup ++ [DeclareFailure spine_lost].

Lemma until_fenced_run : @serve_all first_life until_fenced booted = fenced.
Proof. unfold until_fenced. by rewrite serve_all_app, installed_run, serve_all_cons, fenced_served. Qed.

Lemma until_fenced_ok : Forall request_ok until_fenced.
Proof. apply Forall_app. split; [exact setup_ok|by repeat constructor]. Qed.

(** ** Witnesses: fencing and restart *)

Lemma declared_failure_is_final_witness :
  retired lost_spine (co_authority (@serve_all first_life [Shutdown] fenced)).
Proof.
  refine (proj1 (@declared_failure_is_final first_life spine_lost installed fenced_outcome fenced [Shutdown]
    installed_bounded fenced_run _)).
  by repeat constructor.
Defined.

#[local] Instance first_life_reliable : Reliable first_life.
Proof. by intros n. Qed.

Lemma first_life_in_range : world_in_range first_life.
Proof. split; [intros n; apply Z.mod_pos_bound; reflexivity|vm_compute; split; congruence..]. Qed.

Lemma installed_journaled : exists rs, journaled limits_defaults installed rs.
Proof.
  assert (Hd : disk_holds (cc_limits lab_config) empty_disk []) by (split; done).
  destruct (@open_identified first_life _ lab_config empty_disk [] booted eq_refl Hd booted_opens) as (m1 & Hh & _).
  { vm_compute. split; congruence. }
  { vm_compute. repeat split; congruence. }
  destruct (@serve_all_within first_life any_record appends _ setup booted setup_ok (any_requests _) _ _ Hh) as (m2 & Hh2 & _).
  rewrite installed_run in Hh2. eexists. eapply holds_journaled; [exact Hh2|vm_compute; reflexivity|reflexivity].
Qed.

Definition reborn : Coordinator := Eval vm_compute in
  started second_life lab_config (co_disk (@serve_all first_life [Shutdown] fenced)).

Lemma reborn_opens : @open second_life lab_config (co_disk (@serve_all first_life [Shutdown] fenced)) = Some (Value tt, reborn).
Proof. vm_compute. reflexivity. Qed.

(** The second incarnation ends inside a write, and a third one opens. *)
Definition torn_disk : Disk := Eval vm_compute in
  disk_with_journal (co_disk reborn) (Some (default [] (disk_journal (co_disk reborn)) ++ [83; 70; 70])).
Definition third_life : World := machine 20000 98 (fun _ => write_io_ok).
Definition reborn_again : Coordinator := Eval vm_compute in started third_life lab_config torn_disk.

Lemma reborn_again_opens : @open third_life lab_config torn_disk = Some (Value tt, reborn_again).
Proof. vm_compute. reflexivity. Qed.

Lemma torn_after : aftermath limits_defaults (co_disk (@serve_all first_life [Shutdown] fenced)) torn_disk.
Proof.
  set (d := co_disk (@serve_all first_life [Shutdown] fenced)).
  apply (after_crash limits_defaults d (co_disk (@serve_all second_life [] reborn)) (default [] (disk_journal (co_disk reborn)))
    [83; 70; 70]); [|reflexivity].
  by apply (after_run limits_defaults d second_life lab_config d reborn []); [constructor|reflexivity|exact reborn_opens|constructor].
Qed.

Lemma fence_survives_restart_witness : retired lost_spine (co_authority reborn_again).
Proof.
  destruct installed_journaled as [rs Hrs].
  refine (proj1 (fence_survives_restart first_life third_life lab_config spine_lost installed fenced_outcome fenced [Shutdown]
    rs torn_disk reborn_again [] _ _ _ _ installed_bounded Hrs eq_refl fenced_run eq_refl _ (Forall_nil_2 _) torn_after
    reborn_again_opens)).
  - split; vm_compute; repeat split; congruence.
  - split; vm_compute; repeat split; congruence.
  - split; vm_compute; repeat split; congruence.
  - intros n. apply wrap64_range.
  - by repeat constructor.
Defined.

Lemma restart_confers_no_authority_witness :
  aq_has_authority (query (co_authority reborn) (dependent_port 1) 9500) = false /\ co_epoch reborn = 2.
Proof.
  split; [|reflexivity].
  exact (proj1 (@restart_confers_no_authority second_life lab_config _ reborn [] reborn_opens (Forall_nil_2 _)) (dependent_port 1) 9500).
Defined.


Lemma open_answers_witness : is_Some (@open second_life lab_config empty_disk).
Proof. apply (@open_answers second_life lab_config empty_disk). by intros bytes [=]. Defined.

Lemma shutdown_is_final_witness :
  let c2 := @serve_all first_life [OpenSession "late"] (@shutdown first_life installed).2 in
  co_stopped c2 = true /\ (@serve first_life (DeclareFailure spine_lost) c2).2 = c2 /\
  status_ok (@serve first_life (DeclareFailure spine_lost) c2).1 = false /\ all_closed (co_sessions c2).
Proof.
  destruct (@shutdown_is_final first_life installed [OpenSession "late"] (DeclareFailure spine_lost) (mkBinding 1 1 1 1))
    as [Hany Hseq]. destruct (Hseq eq_refl) as (_ & _ & Hcl & _). cbn zeta.
  assert (Hs : co_stopped (@serve_all first_life [OpenSession "late"] (@shutdown first_life installed).2) = true)
    by (vm_compute; reflexivity).
  destruct (Hany _ Hs) as (Hg & _ & _). destruct (Hg eq_refl). by split_and!.
Defined.

(** * Reconstruction *)

Definition planned : Coordinator := Eval vm_compute in (@propose_plan first_life [lost_spine] fenced).2.
Definition the_plan : ReconstructionPlan := Eval vm_compute in
  match (@propose_plan first_life [lost_spine] fenced).1 with Value p => p | Refused _ => plan_default end.

Lemma planned_run : @propose_plan first_life [lost_spine] fenced = (Value the_plan, planned).
Proof. vm_cast_no_check (@eq_refl (Result ReconstructionPlan * Coordinator) (Value the_plan, planned)). Qed.

Lemma proposed_plan_retained_witness : map_find 1 (co_plans planned) = Some the_plan /\ pl_state the_plan = PlanState.Validated.
Proof.
  split; [|reflexivity]. pose proof planned_run as H. rewrite <- until_fenced_run in H.
  destruct (@proposed_plan_retained first_life lab_config empty_disk booted until_fenced [lost_spine] the_plan planned
    booted_opens until_fenced_ok H) as (p & t & _ & _ & _ & _ & Hf & _).
  exact Hf.
Defined.

Definition applied : Coordinator := Eval vm_compute in (@apply_plan first_life the_plan planned).2.
Definition the_receipt : ApplyReceipt := Eval vm_compute in
  match (@apply_plan first_life the_plan planned).1 with Value r => r | Refused _ => mkReceipt 0 0 boot_none [] 0 0 0 0 false Code.Ok end.

Lemma applied_run : @apply_plan first_life the_plan planned = (Value the_receipt, applied).
Proof. vm_cast_no_check (@eq_refl (Result ApplyReceipt * Coordinator) (Value the_receipt, applied)). Qed.

Lemma fenced_bounded : registry_bounded (co_authority fenced).
Proof.
  rewrite <- until_fenced_run. apply (lt_bounded _ _ (@serve_all_later first_life until_fenced booted
    until_fenced_ok)), booted_bounded.
Qed.

Lemma planned_served : (@serve first_life (ProposePlan [lost_spine]) fenced).2 = planned.
Proof. change ((answer (@propose_plan first_life [lost_spine] fenced)).2 = planned). by rewrite planned_run. Qed.

Lemma planned_bounded : registry_bounded (co_authority planned).
Proof.
  rewrite <- planned_served.
  exact (proj1 (lt_bounded _ _ (@serve_later first_life (ProposePlan [lost_spine]) fenced I) fenced_bounded)).
Qed.

Lemma apply_plan_receipt_witness : ap_applied the_receipt = 2 /\ ap_verified the_receipt = 0.
Proof.
  split; [reflexivity|].
  destruct (@apply_plan_receipt first_life the_plan planned the_receipt applied planned_bounded applied_run)
    as (p & t & _ & _ & _ & _ & _ & [_ _ _ _ [H _] _ _ _]).
  exact H.
Defined.

(** ** Restoration *)

(** An operator reports the effect of the plan on port 1. *)
Definition port_verified : EvidenceRecord :=
  mkEvidence 77 EvidenceKind.EffectVerification EvidenceSource.OperatorPolicy (mkSwitchKey 3 1) 0 boot_none 1000 1000000
    SwitchHealthState.Unknown SwitchAdminState.Unknown 0 (dependent_port 1) 1 2 "forwarding observed".

Definition verified : Coordinator := Eval vm_compute in (@serve first_life (RecordVerification port_verified) applied).2.

Definition no_decision : RestoreDecision :=
  mkRestoreDecision dependent_none Code.Unknown Code.Unknown false false [] 0 [] [] explanation_default.
Definition decided (c : Coordinator) : RestoreDecision * Coordinator :=
  match @evaluate_restore first_life (dependent_port 1) c with (Value d, c') => (d, c') | (_, c') => (no_decision, c') end.

Definition before_verification : RestoreDecision * Coordinator := Eval vm_compute in decided applied.
Definition after_verification : RestoreDecision * Coordinator := Eval vm_compute in decided verified.

(** Fenced before reconstruction, unverified after it, restored on verification. *)
Example restoration_story :
  rd_outcome (decided fenced).1 = Code.Fenced /\
  rd_outcome before_verification.1 = Code.Unverified /\ rd_may_restore before_verification.1 = false /\
  rd_outcome after_verification.1 = Code.Ok /\ rd_may_restore after_verification.1 = true.
Proof. vm_compute. auto. Qed.

Lemma after_verification_run :
  @evaluate_restore first_life (dependent_port 1) verified = (Value after_verification.1, after_verification.2).
Proof. vm_compute. reflexivity. Qed.

Lemma restore_decision_exact_witness :
  exists s, s ∈ recorded_steps (dependent_port 1) verified /\ sr_state s = AckState.Verified.
Proof.
  destruct (@restore_decision_exact first_life (dependent_port 1) verified _ _ after_verification_run)
    as (_ & t & _ & H & _).
  exact (proj2 (H eq_refl)).
Defined.

Lemma restored_means_verified_witness :
  step_verified (co_apply_steps applied) (dependent_port 1) \/
  (exists r, RecordVerification r ∈ [RecordVerification port_verified] /\
     er_kind r = EvidenceKind.EffectVerification /\ er_effect_dependent r = dependent_port 1).
Proof.
  refine (@restored_means_verified first_life [RecordVerification port_verified] applied (dependent_port 1)
    after_verification.1 after_verification.2 _ _ eq_refl); [by repeat constructor|].
  exact after_verification_run.
Defined.

(** * A lost fence *)

(** The disk refuses the fourth write: the fence record of the declaration. *)
Definition faulty_disk : World := machine 1000 41 (fun n => if (n =? 3)%nat then mkWriteIo 0 false false else write_io_ok).

Definition faulty_start : Coordinator := @serve_all faulty_disk setup (started faulty_disk lab_config empty_disk).

(** A declaration whose fence could not be written is refused, but the fence
    stands in memory. The retry finds it there, so it answers Ok and writes no
    fence record; the next incarnation knows the failure and not the fence. *)
Theorem retried_fence_not_durable :
  let first := @declare_failure faulty_disk spine_lost faulty_start in
  let second := @declare_failure faulty_disk spine_lost first.2 in
  let next := started second_life lab_config (co_disk second.2) in
  status_code (result_status first.1) = Code.IoError /\ is_fenced (co_authority first.2) lost_spine = true /\
  result_ok second.1 = true /\ failure_contains (co_failures next) lost_spine = true /\
  is_fenced (co_authority next) lost_spine = false.
Proof. vm_compute. auto. Qed.

(** * A step for an older replacement *)

(** The fabric after port 1 was re-bound to the third spine: a new topology with
    room on the second spine, and the second as the alternative. *)
Definition rebound_topology : TopologySnapshot := Eval vm_compute in
  snapshot_of (build 2 [spine 1 7 9; spine 2 8 9; spine 3 9 1] [] []
    [mkEdge (of_dependent (dependent_port 1)) (of_switch (mkSwitchKey 3 1))] limits_defaults).

Definition rebound_table : CandidateTable := Eval vm_compute in
  match table_build [mkCandidate (dependent_port 1) (mkSwitchKey 3 1) [mkSwitchKey 2 1] [] 5 0 1 EvidenceSource.FabricManager]
          limits_defaults with Value t => t | Refused _ => mkTable [] 0 end.

Definition third_lost : FailureDeclaration :=
  mkDeclaration (mkSwitchKey 3 1) EvidenceSource.FabricManager 1000 1000000 "third spine lost power".

Definition lost_again : Coordinator := Eval vm_compute in
  @serve_all first_life [InstallTopology rebound_topology; InstallCandidates rebound_table; DeclareFailure third_lost] verified.

Definition rebound : Coordinator := Eval vm_compute in
  match @propose_plan first_life [mkSwitchKey 3 1] lost_again with
  | (Value p, c) => (@apply_plan first_life p c).2
  | (_, c) => c
  end.

(** Port 1 was re-bound to the second spine by a step that is only acknowledged,
    under a policy that asks for verification. Its effect is nevertheless reported
    as verified, and it is let back into service: the step that is read is the
    one of the third spine, verified before that spine was lost. *)
Theorem older_step_restores :
  po_allow_acknowledgement (co_policy rebound) = false /\ is_fenced (co_authority rebound) (mkSwitchKey 3 1) = true /\
  aq_bound (query (co_authority rebound) (dependent_port 1) 1100) = [mkSwitchKey 2 1] /\
  ((fun s => (sr_replacement s, sr_state s, sr_attempt s)) <$> recorded_steps (dependent_port 1) rebound) =
    [(mkSwitchKey 2 1, AckState.Applied, 4); (mkSwitchKey 3 1, AckState.Verified, 2)] /\
  rd_may_restore (decided rebound).1 = true /\ rd_effect_verified (decided rebound).1 = true /\
  rd_outcome (decided rebound).1 = Code.Ok.
Proof. vm_compute. auto 8. Qed.

(** * A fence after recovery *)

Definition spine_recovered : EvidenceRecord :=
  mkEvidence 500 EvidenceKind.SwitchRecoveryDeclaration EvidenceSource.FabricManager lost_spine 0 boot_none 1000 1000000
    SwitchHealthState.Unknown SwitchAdminState.Unknown 0 dependent_none 0 0 "spine repaired".
Definition spine_healthy : EvidenceRecord :=
  mkEvidence 501 EvidenceKind.SwitchHealth EvidenceSource.FabricManager lost_spine 0 boot_none 1001 1000000
    SwitchHealthState.Healthy SwitchAdminState.Unknown 0 dependent_none 0 0 "spine healthy".

(** Later authoritative recovery and health make the very generation that was
    fenced usable again, but authority over it is still refused. *)
Theorem recovery_does_not_permit_grants :
  let recovered := @serve_all first_life [AdmitEvidence spine_recovered; AdmitEvidence spine_healthy] fenced in
  sa_usable (assess_at recovered lost_spine 1050) = true /\
  status_code (@serve first_life (EstablishAuthority (dependent_port 2) [lost_spine] "after recovery") recovered).1 = Code.Fenced.
Proof. vm_compute. auto. Qed.
