(* ===== verification/Fixture.v ===== *)
(** The synthetic instance of the command line driver ([build_fixture] of
    tools/sffctl.cpp), and why it does not depend on its seed: a topology
    snapshot and a candidate table do not depend on the order of their inputs.
    [std::shuffle] is a parameter of which only that it permutes is used. *)

From S2P Require Import Prelude Containers Core Generation Switch Authority Evidence Topology Decision Plan Policy Candidates.

(** * Independence of the order of declaration *)

Section order.
Context {A K : Type} `{Ordered K, !EqDecision K} (key : A -> K).

Definition strictly_sorted : list A -> Prop := StronglySorted (fun a b => ltb (key a) (key b) = true).

Lemma sorted_distinct l : NoDup (key <$> l) -> sorted_by (fun a b => ltb (key a) (key b)) l -> strictly_sorted l.
Proof.
  intros Hn Hs. induction Hs as [|x l Hs IH Hall]; [constructor|]. cbn in Hn. inversion_clear Hn as [|? ? Hx Hn'].
  constructor; [by apply IH|]. rewrite Forall_forall in Hall |- *. intros y Hy. specialize (Hall y Hy). cbn in Hall.
  destruct (ltb (key x) (key y)) eqn:E; [done|]. destruct Hx. rewrite (less_total _ _ E Hall). by apply list_elem_of_fmap_2.
Qed.

Lemma strictly_sorted_unique l k : strictly_sorted l -> strictly_sorted k -> l ≡ₚ k -> l = k.
Proof.
  intros Hl. revert k. induction Hl as [|x l Hl IH Hx]; intros k Hk Hp.
  { by apply Permutation_nil in Hp as ->. }
  destruct Hk as [|y k Hk Hy]; [by symmetry in Hp; apply Permutation_nil in Hp|].
  assert (x = y) as ->.
  { assert (Hxin : x ∈ y :: k) by (rewrite <- Hp; set_solver). assert (Hyin : y ∈ x :: l) by (rewrite Hp; set_solver).
    apply elem_of_cons in Hxin as [|Hxin]; [done|]. apply elem_of_cons in Hyin as [|Hyin]; [done|].
    rewrite Forall_forall in Hx, Hy. pose proof (less_trans _ _ _ (Hx y Hyin) (Hy x Hxin)) as Hc.
    by rewrite less_irrefl in Hc. }
  f_equal. apply IH; [done|]. by apply Permutation_cons_inv in Hp.
Qed.

(** Sorting by a key that tells the elements apart forgets their order. *)
Lemma key_sort_perm l k : NoDup (key <$> l) -> l ≡ₚ k -> key_sort key l = key_sort key k.
Proof.
  intros Hn Hp.
  assert (Hs : forall l', l' ≡ₚ l -> strictly_sorted (key_sort key l')).
  { intros l' Hl. apply sorted_distinct; [|apply std_sort_key_sorted]. unfold key_sort.
    by rewrite std_sort_key_perm, Hl. }
  apply strictly_sorted_unique; [by apply Hs|by apply Hs|]. unfold key_sort. by rewrite !std_sort_key_perm.
Qed.
End order.

Lemma forallb_perm {A} (f : A -> bool) l k : l ≡ₚ k -> forallb f l = forallb f k.
Proof.
  intros Hp. apply eq_bool_prop_intro. rewrite !Is_true_true, !forallb_forall. split; intros H x Hx; apply H.
  - apply list_elem_of_In. rewrite Hp. by apply list_elem_of_In.
  - apply list_elem_of_In. rewrite <- Hp. by apply list_elem_of_In.
Qed.

Lemma zlen_perm {A} (l k : list A) : l ≡ₚ k -> zlen l = zlen k.
Proof. intros Hp. unfold zlen. by rewrite Hp. Qed.

Lemma build_edges_perm links paths e e' : e ≡ₚ e' -> build_edges links paths e ≡ₚ build_edges links paths e'.
Proof. intros Hp. unfold build_edges. by rewrite Hp. Qed.

(** A snapshot does not depend on the order in which its switches, links, paths
    and edges are declared, whether it is built or refused. *)
Lemma build_order_independent version s s' l l' p p' e e' limits :
  NoDup (sd_key <$> s) -> NoDup (ld_id <$> l) -> NoDup (pd_id <$> p) ->
  s ≡ₚ s' -> l ≡ₚ l' -> p ≡ₚ p' -> e ≡ₚ e' ->
  build version s l p e limits = build version s' l' p' e' limits.
Proof.
  intros Ns Nl Np Hs Hl Hp He. unfold build, build_switches, build_links, build_paths.
  rewrite <- (key_sort_perm sd_key s s') by done. rewrite <- (key_sort_perm ld_id l l') by done.
  rewrite <- (key_sort_perm pd_id p p') by done.
  rewrite <- (zlen_perm _ _ Hs), <- (zlen_perm _ _ Hl), <- (zlen_perm _ _ Hp), <- (zlen_perm _ _ He).
  rewrite <- (forallb_perm edge_qualified _ _ He).
  destruct (keep_unique prepare_switch _ _ _ _ _ _) as [[sw ds]|]; [|done].
  destruct (keep_unique (prepare_link sw) _ _ _ _ _ _) as [[li dl]|]; [|done].
  destruct (keep_unique (prepare_path sw li) _ _ _ _ _ _) as [[pa dp]|]; [|done].
  pose proof (build_edges_perm li pa _ _ He) as Hb.
  rewrite (sort_and_dedupe_ext (build_edges li pa e') (build_edges li pa e)) by (intros x; by rewrite Hb).
  by rewrite (zlen_perm _ _ Hb).
Qed.

Lemma validate_candidates_perm c c' : c ≡ₚ c' -> status_ok (validate_candidates c) = true ->
  status_ok (validate_candidates c') = true.
Proof.
  intros Hp Hv. assert (H : Forall (fun x => status_ok (candidate_validate x) = true) c').
  { rewrite <- Hp. clear Hp. induction c as [|x c IH]; [constructor|]. cbn in Hv.
    destruct (status_ok (candidate_validate x)) eqn:E; cbn [negb] in Hv; [|congruence]. constructor; [done|by apply IH]. }
  clear Hp Hv. induction H as [|x c' Hx _ IH]; [done|]. cbn. by rewrite Hx.
Qed.

(** Nor does a table of candidates, once it is accepted. *)
Lemma table_order_independent c c' limits t : NoDup (identity_key <$> c) -> c ≡ₚ c' ->
  table_build c limits = Value t -> table_build c' limits = Value t.
Proof.
  intros Hn Hp. unfold table_build. rewrite <- (zlen_perm _ _ Hp). repeat (split_test; [done|]).
  destruct (status_ok (validate_candidates c)) eqn:Hv; cbn [negb]; [|done].
  rewrite (validate_candidates_perm c c') by done. cbn [negb].
  assert (Hs : std_sort identity_less c' = std_sort identity_less c).
  { rewrite !(std_sort_ext identity_less (fun a b => ltb (identity_key a) (identity_key b))) by apply identity_less_key.
    symmetry. by apply (key_sort_perm identity_key). }
  by rewrite Hs.
Qed.

(** * The synthetic instance *)

Record Fixture := mkFixture {
  fx_topology : TopologySnapshot;
  fx_candidates : CandidateTable;
  fx_failed : GenerationVector;
  fx_failed_switch : SwitchKey;
  fx_newer_generation : SwitchKey;
  fx_survivor : SwitchKey;
  fx_replacement : SwitchKey;
  fx_demo_dependent : DependentRef;
  fx_declared_switches : Z;
  fx_declared_links : Z;
  fx_declared_paths : Z;
  fx_declared_candidates : Z;
  fx_declared_edges : Z
}.

Definition failed_leaf : SwitchKey := mkSwitchKey 1 1.
Definition newer_leaf : SwitchKey := mkSwitchKey 1 2.
Definition spine_b : SwitchKey := mkSwitchKey 2 1.
Definition spine_c : SwitchKey := mkSwitchKey 3 1.

Definition base_caps : Z :=
  Z.lor (Z.lor (capability_bit Capability.Layer2) (capability_bit Capability.Layer3)) (capability_bit Capability.Ecmp).
Definition rich_caps : Z := Z.lor base_caps (capability_bit Capability.Vxlan).
Definition l3_caps : Z := capability_bit Capability.Layer3.

(** One descriptor is reused: what a declaration does not set it inherits from the one before. *)
Definition fixture_switches : list SwitchDescriptor :=
  [mkSwitchDescriptor failed_leaf SwitchRole.Leaf SwitchAdminState.Enabled 100 base_caps 24 24 6 "synthetic-leaf-a";
   mkSwitchDescriptor newer_leaf SwitchRole.Leaf SwitchAdminState.Enabled 100 base_caps 24 24 2
     "synthetic-leaf-a-generation-2";
   mkSwitchDescriptor spine_b SwitchRole.Spine SwitchAdminState.Enabled 200 base_caps 32 32 64 "synthetic-spine-b";
   mkSwitchDescriptor spine_c SwitchRole.Spine SwitchAdminState.Enabled 300 rich_caps 32 32 64 "synthetic-spine-c"].

Definition fixture_links : list LinkDescriptor :=
  [mkLink 1 (mkPort failed_leaf 1) (mkPort spine_b 1) 1 400 900;
   mkLink 2 (mkPort failed_leaf 2) (mkPort spine_c 1) 1 400 950;
   mkLink 3 (mkPort spine_b 2) (mkPort spine_c 2) 2 400 800].

(** `for (std::size_t index = 0; index < path_count; ++index)` *)
Definition indices (path_count : Z) : list Z := seqZ 0 path_count.

Definition spine_for (index : Z) : SwitchKey := if index mod 2 =? 0 then spine_b else spine_c.

Definition fixture_path (index : Z) : PathDescriptor :=
  mkPath (100 + index) 1 9 [failed_leaf; spine_for index] [if index mod 2 =? 0 then 1 else 2] (2 + index mod 3) l3_caps.

Definition fixture_paths (path_count : Z) : list PathDescriptor :=
  (fixture_path <$> indices path_count) ++ [mkPath 900 2 9 [spine_b; spine_c] [3] 3 l3_caps].

Definition fixture_edges (path_count : Z) : list DependencyEdge :=
  ((fun index => mkEdge (of_dependent (dependent_service (500 + index))) (of_dependent (dependent_path (100 + index))))
     <$> indices path_count)
  ++ [mkEdge (of_dependent (dependent_port 700)) (of_dependent (dependent_link 3));
      mkEdge (of_dependent (dependent_port 701)) (of_dependent (dependent_path 900))].

(** A candidate without links, for the failed leaf. *)
Definition fixture_candidate (dependent : DependentRef) (hop : SwitchKey) (cost capabilities evidence : Z)
  (source : EvidenceSource) : ReconstructionCandidate :=
  mkCandidate dependent failed_leaf [hop] [] cost capabilities evidence source.

Definition indexed_candidates (index : Z) : list ReconstructionCandidate :=
  [fixture_candidate (dependent_path (100 + index)) (spine_for index) (4 + index mod 2) l3_caps (2100 + index)
     EvidenceSource.SimulatedFixture;
   fixture_candidate (dependent_service (500 + index)) (spine_for index) 3 l3_caps (2200 + index)
     EvidenceSource.SimulatedFixture].

Definition fixture_candidates (path_count : Z) : list ReconstructionCandidate :=
  [fixture_candidate (dependent_link 1) spine_b 1 base_caps 2001 EvidenceSource.SimulatedFixture;
   fixture_candidate (dependent_link 2) spine_c 1 base_caps 2002 EvidenceSource.SimulatedFixture]
  ++ concat (indexed_candidates <$> indices path_count)
  ++ [fixture_candidate (dependent_service 500) failed_leaf 1 l3_caps 2300 EvidenceSource.SimulatedFixture;
      fixture_candidate (dependent_service 500) newer_leaf 1 l3_caps 2301 EvidenceSource.SimulatedFixture;
      fixture_candidate (dependent_service 500) spine_b 2 l3_caps 2302 EvidenceSource.TelemetryCollector].

(** [std::shuffle] with a generator seeded by the first argument; the second
    tells the calls apart. *)
Class Shuffle := {
  shuffle : forall {A : Type}, Z -> nat -> list A -> list A;
  shuffle_permutes : forall {A : Type} seed call (l : list A), shuffle seed call l ≡ₚ l
}.

Section fixture.
Context {G : Shuffle}.

(** [build_fixture]: the instance, or what is reported. *)
Definition build_fixture (path_count seed : Z) (limits : Limits) : string + Fixture :=
  let path_count := if path_count =? 0 then 1 else path_count in
  if 64 <? path_count then inl "the synthetic fixture supports at most 64 paths"
  else
    let seed := if seed =? 0 then 0x9e3779b97f4a7c15 else seed in
    let switches := shuffle seed 0 fixture_switches in
    let links := shuffle seed 1 fixture_links in
    let paths := shuffle seed 2 (fixture_paths path_count) in
    let edges := shuffle seed 3 (fixture_edges path_count) in
    let candidates := shuffle seed 4 (fixture_candidates path_count) in
    match build 1 switches links paths edges limits with
    | Refused status => inl ("synthetic topology was refused: " +:+ status_to_string status)
    | Value topology =>
        match table_build candidates limits with
        | Refused status => inl ("synthetic candidate table was refused: " +:+ status_to_string status)
        | Value table =>
            inr (mkFixture topology table (gv_insert [] failed_leaf).1 failed_leaf newer_leaf spine_b spine_c
                   (dependent_service 500) (zlen fixture_switches) (zlen fixture_links) (zlen (fixture_paths path_count))
                   (zlen (fixture_candidates path_count)) (zlen (fixture_edges path_count)))
        end
    end.

End fixture.

(** * Properties *)

#[local] Instance in_order : Shuffle := {| shuffle _ _ _ l := l; shuffle_permutes _ _ _ _ := reflexivity _ |}.

Definition is_built {A B} (r : A + B) : bool := match r with inr _ => true | inl _ => false end.

Lemma fixture_in_order_built : is_built (build_fixture 2 1 limits_defaults) = true.
Proof. lazy. reflexivity. Qed.

(** The keys of the declarations tell them apart, whatever the number of paths. *)
Lemma fixture_keys n : 0 <= n <= 64 ->
  NoDup (sd_key <$> fixture_switches) /\ NoDup (ld_id <$> fixture_links) /\ NoDup (pd_id <$> fixture_paths n)
  /\ NoDup (identity_key <$> fixture_candidates n).
Proof.
  intros Hn. assert (Hin : In n (seqZ 0 65)) by (apply list_elem_of_In, elem_of_seqZ; lia).
  assert (Hall : forallb (fun n => bool_decide (NoDup (pd_id <$> fixture_paths n))
    && bool_decide (NoDup (rc_evidence <$> fixture_candidates n))) (seqZ 0 65) = true) by (vm_compute; reflexivity).
  rewrite forallb_forall in Hall. apply Hall, andb_prop in Hin as [Hp%bool_decide_eq_true_1 Hc%bool_decide_eq_true_1].
  split_and!; [by apply (bool_decide_unpack _)|by apply (bool_decide_unpack _)|done|].
  apply (NoDup_fmap_1 (fun k => k.2.2.2.2.2.2.2)). by rewrite <- list_fmap_compose.
Qed.

(** Two orders of the same declarations make the same topology and table. *)
Lemma shuffled_same (G G' : Shuffle) n s s' limits : 0 <= n <= 64 ->
  build 1 (@shuffle G _ s 0%nat fixture_switches) (@shuffle G _ s 1%nat fixture_links)
    (@shuffle G _ s 2%nat (fixture_paths n)) (@shuffle G _ s 3%nat (fixture_edges n)) limits
  = build 1 (@shuffle G' _ s' 0%nat fixture_switches) (@shuffle G' _ s' 1%nat fixture_links)
      (@shuffle G' _ s' 2%nat (fixture_paths n)) (@shuffle G' _ s' 3%nat (fixture_edges n)) limits
  /\ forall table, table_build (@shuffle G _ s 4%nat (fixture_candidates n)) limits = Value table ->
       table_build (@shuffle G' _ s' 4%nat (fixture_candidates n)) limits = Value table.
Proof.
  intros Hn. destruct (fixture_keys n Hn) as (Ns & Nl & Np & Nc).
  assert (Hperm : forall A k (l : list A), @shuffle G A s k l ≡ₚ @shuffle G' A s' k l)
    by (intros; by rewrite !shuffle_permutes).
  split; [by apply build_order_independent; [rewrite shuffle_permutes..|apply Hperm|apply Hperm|apply Hperm|apply Hperm]|].
  intros table Ht. assert (Nc' : NoDup (identity_key <$> @shuffle G _ s 4%nat (fixture_candidates n)))
    by (by rewrite shuffle_permutes).
  by apply (table_order_independent _ _ limits table Nc' (Hperm _ 4%nat _)).
Qed.

(** The synthetic instance does not depend on its seed: whatever orders the
    generator shuffles the declarations into, for one number of paths and under
    the same limits, when one seed yields an instance every seed yields the very
    same snapshot, candidate table and digests, and more than 64 paths are
    refused for every seed. *)
Theorem fixture_seed_independent (G G' : Shuffle) (path_count seed seed' : Z) (limits : Limits) (f : Fixture) :
  0 <= path_count ->
  (@build_fixture G path_count seed limits = inr f -> @build_fixture G' path_count seed' limits = inr f)
  /\ (64 < path_count -> @build_fixture G path_count seed limits = inl "the synthetic fixture supports at most 64 paths").
Proof.
  intros Hn. split.
  2: { intros Hl. unfold build_fixture. by rewrite (proj2 (Z.eqb_neq path_count 0)), (proj2 (Z.ltb_lt 64 _)) by lia. }
  unfold build_fixture. set (n := if path_count =? 0 then 1 else path_count).
  destruct (64 <? n) eqn:Hl; [done|]. bool_prop.
  set (s := if seed =? 0 then _ else seed). set (s' := if seed' =? 0 then _ else seed').
  destruct (shuffled_same G G' n s s' limits) as [-> Htable]; [unfold n; destruct (path_count =? 0) eqn:E; bool_prop; lia|].
  destruct (build _ _ _ _ _ _) as [topology|]; [|done].
  destruct (table_build (@shuffle G _ s 4%nat _) limits) as [table|] eqn:Ht; [|done]. by rewrite (Htable table).
Qed.

Definition is_value {A} (r : Result A) : bool := match r with Value _ => true | Refused _ => false end.

Lemma fixture_tables_built : forallb (fun n => is_value (table_build (fixture_candidates n) limits_defaults)) (seqZ 0 65) = true.
Proof. lazy. reflexivity. Qed.

(** Under the default limits every seed has the same outcome, refusals included. *)
Lemma fixture_same (G G' : Shuffle) path_count seed seed' : 0 <= path_count ->
  @build_fixture G path_count seed limits_defaults = @build_fixture G' path_count seed' limits_defaults.
Proof.
  intros Hn. unfold build_fixture. set (n := if path_count =? 0 then 1 else path_count).
  destruct (64 <? n) eqn:Hl; [done|]. bool_prop.
  set (s := if seed =? 0 then _ else seed). set (s' := if seed' =? 0 then _ else seed').
  assert (Hr : 0 <= n <= 64) by (unfold n; destruct (path_count =? 0) eqn:E; bool_prop; lia).
  destruct (shuffled_same G G' n s s' limits_defaults Hr) as [-> _].
  destruct (build _ _ _ _ _ _) as [topology|]; [|done].
  assert (Hin : In n (seqZ 0 65)) by (apply list_elem_of_In, elem_of_seqZ; lia).
  pose proof fixture_tables_built as Hall. rewrite forallb_forall in Hall. apply Hall in Hin.
  destruct (table_build (fixture_candidates n) limits_defaults) as [table|] eqn:Ht; [|done].
  by rewrite (proj2 (shuffled_same in_order G n s s limits_defaults Hr) table Ht),
    (proj2 (shuffled_same in_order G' n s' s' limits_defaults Hr) table Ht).
Qed.

#[local] Instance backwards : Shuffle := {| shuffle _ _ _ l := reverse l; shuffle_permutes _ _ _ l := reverse_Permutation l |}.

Lemma fixture_seed_independent_witness :
  exists f, @build_fixture in_order 2 1 limits_defaults = inr f /\ @build_fixture backwards 2 7 limits_defaults = inr f.
Proof.
  destruct (@build_fixture in_order 2 1 limits_defaults) as [error|f] eqn:E.
  - exfalso. pose proof fixture_in_order_built as Hb. rewrite E in Hb. discriminate Hb.
  - exists f. split; [reflexivity|].
    exact (proj1 (fixture_seed_independent in_order backwards 2 1 7 limits_defaults f ltac:(lia)) E).
Defined.
