(* ===== verification/Server.v ===== *)
(** The framed server (include/sff/transport/server.hpp,
    src/transport/server.cpp): the conversation a worker holds on one
    connection, and the pool of connections the accept thread and the workers
    share. The user's handler is a parameter; what the socket delivers, whether
    writes succeed and when the server is stopped are arguments. *)

From S2P Require Import Prelude Containers Core Bytes Integrity Session Frame Messages.

(** * The conversation on a connection *)

(** What one receive call answered; an empty range means the peer closed. *)
Inductive Reception :=
| Received (bytes : list Z)
| ReadFailed (status : Status)
| Unusable.

(** What the handler did with a request. *)
Inductive Handled :=
| Returned (status : Status) (response : Frame)
| Threw (what : string)
| ThrewOther.

Definition handled_status (h : Handled) : Status :=
  match h with
  | Returned status _ => status
  | Threw what => failure Code.Invalid what
  | ThrewOther => failure Code.Unknown "handler threw an unrecognised exception"
  end.

Definition handler_ok (h : Handled) : bool := match h with Returned status _ => status_ok status | _ => false end.

Definition handled_response (h : Handled) : Frame := match h with Returned _ response => response | _ => frame_default end.

(** `frame = Frame{}; frame.header.type = MessageType::Error; frame.payload = ...` *)
Definition error_frame (code : Code) (detail : string) : Frame :=
  let h := frame_header_default in
  mkFrame (mkFrameHeader (fh_magic h) (fh_format_version h) (message_type_raw MessageType.Error) (fh_flags h)
             (fh_session h) (fh_epoch h) (fh_boot_digest h) (fh_request_seq h) (fh_payload_len h) (fh_header_crc h))
    (encode_error_payload code detail) 0.

(** The handler's response, or the error frame that replaces it. *)
Definition produced (h : Handled) : Frame :=
  if negb (handler_ok h) || negb (is_valid_message_type (fh_type (fm_header (handled_response h)))) then
    error_frame (if handler_ok h then Code.Invalid else status_code (handled_status h))
      (if handler_ok h then "handler produced no response message type" else status_message (handled_status h))
  else handled_response h.

(** The authority binding of the request, and the protocol constants. *)
Definition bound_to (request response : Frame) : Frame :=
  let q := fm_header request in
  let h := fm_header response in
  mkFrame (mkFrameHeader kFrameMagic kFrameFormatVersion (fh_type h) (fh_flags h) (fh_session q) (fh_epoch q)
             (fh_boot_digest q) (fh_request_seq q) (fh_payload_len h) (fh_header_crc h))
    (fm_payload response) (fm_payload_crc response).

(** The bound error frame that is sent when the response cannot be carried. *)
Definition fallback_for (request : Frame) (refusal : Status) : Frame :=
  let q := fm_header request in
  let f := error_frame (status_code refusal) (status_message refusal) in
  let h := fm_header f in
  mkFrame (mkFrameHeader (fh_magic h) (fh_format_version h) (fh_type h) (fh_flags h) (fh_session q) (fh_epoch q)
             (fh_boot_digest q) (fh_request_seq q) (fh_payload_len h) (fh_header_crc h))
    (fm_payload f) (fm_payload_crc f).

(** The bytes of the one response to a request, if it can be encoded at all. *)
Definition answer_to (limits : Limits) (request : Frame) (h : Handled) : option (list Z) :=
  match encode_frame (bound_to request (produced h)) limits with
  | Value bs => Some bs
  | Refused s =>
      match encode_frame (fallback_for request s) limits with Value bs => Some bs | Refused _ => None end
  end.

(** The state of a conversation: the decoder, the responses written and the
    counters. *)
Record Conversation := mkConversation {
  cv_decoder : FrameStreamDecoder;
  cv_sent : list (list Z);
  cv_processed : Z;
  cv_rejected : Z
}.

Definition conversation_new (limits : Limits) : Conversation := mkConversation (stream_new limits) [] 0 0.
Definition with_decoder (cv : Conversation) (d : FrameStreamDecoder) : Conversation :=
  mkConversation d (cv_sent cv) (cv_processed cv) (cv_rejected cv).
Definition count_processed (cv : Conversation) : Conversation :=
  mkConversation (cv_decoder cv) (cv_sent cv) (cv_processed cv + 1) (cv_rejected cv).
Definition count_rejected (cv : Conversation) : Conversation :=
  mkConversation (cv_decoder cv) (cv_sent cv) (cv_processed cv) (cv_rejected cv + 1).
Definition response_sent (cv : Conversation) (bs : list Z) : Conversation :=
  mkConversation (cv_decoder cv) (cv_sent cv ++ [bs]) (cv_processed cv) (cv_rejected cv).

(** When the server is told to stop and which writes succeed, by the number of
    frames processed so far. *)
Class Peer := { stop_signalled : Z -> bool; write_succeeds : Z -> bool }.

Section serving.
Context {P : Peer} {S : Type} (handler : S -> Frame -> Handled * S) (limits : Limits).

(** The loop of [serve] up to the next receive call; [top] says whether it is
    entered at the top, where the stop flag is read. The result says whether
    the worker goes on to receive. *)
Fixpoint answer_buffered (fuel : nat) (top : bool) (s : S) (cv : Conversation) : bool * S * Conversation :=
  match fuel with
  | O => (true, s, cv)
  | Datatypes.S fuel =>
      if top && stop_signalled (cv_processed cv) then (false, s, cv)
      else
        let '(decoded, d) := stream_next (cv_decoder cv) in
        let cv := with_decoder cv d in
        match fd_disposition decoded with
        | FrameDisposition.Incomplete => (true, s, cv)
        | FrameDisposition.Complete =>
            let cv := count_processed cv in
            let '(h, s) := handler s (fd_frame decoded) in
            match answer_to limits (fd_frame decoded) h with
            | None => (false, s, count_rejected cv)
            | Some bs =>
                if write_succeeds (cv_processed cv) then answer_buffered fuel true s (response_sent cv bs)
                else (false, s, cv)
            end
        | _ => (false, s, count_rejected cv)
        end
  end.

(** [serve]: an iteration that takes a frame out of the buffer consumes bytes
    of it, so the buffer's length bounds the iterations between two receptions.
    The result says whether the worker is still waiting for the peer. *)
Fixpoint serve_connection (receptions : list Reception) (top : bool) (s : S) (cv : Conversation) :
  bool * S * Conversation :=
  let '(waiting, s, cv) := answer_buffered (Datatypes.S (length (st_buffer (cv_decoder cv)))) top s cv in
  if negb waiting then (false, s, cv)
  else
    match receptions with
    | [] => (true, s, cv)
    | Received bytes :: receptions =>
        if bool_decide (bytes = []) then (false, s, cv)
        else
          let '(fed, d) := stream_feed (Some bytes) (zlen bytes) (cv_decoder cv) in
          let cv := with_decoder cv d in
          if negb (status_ok fed) then (false, s, count_rejected cv)
          else serve_connection receptions false s cv
    | _ => (false, s, cv)
    end.
End serving.

(** * What a response is *)

(** What the type of a handler guarantees: fields of their widths, and a status
    with an assigned code. *)
Definition handled_typed (h : Handled) : Prop :=
  match h with
  | Returned status response =>
      known_code (status_code status) /\ in_u32 (fh_flags (fm_header response)) /\ Forall in_u8 (fm_payload response)
  | _ => True
  end.

(** Whether the handler's response can go out as it is. *)
Definition carried (limits : Limits) (h : Handled) : bool :=
  handler_ok h && is_valid_message_type (fh_type (fm_header (handled_response h)))
  && (zlen (fm_payload (handled_response h)) <=? frame_payload_ceiling limits).

(** The code of the error that goes out otherwise. *)
Definition refusal_code (h : Handled) : Code :=
  if negb (handler_ok h) then status_code (handled_status h)
  else if is_valid_message_type (fh_type (fm_header (handled_response h))) then Code.Exhausted
  else Code.Invalid.

(** The bytes are one frame, bound to the request, that carries the handler's
    type, flags and payload, or else an error with the code of the refusal. *)
Definition answers (limits : Limits) (request : Frame) (h : Handled) (bs : list Z) : Prop :=
  exists r, frame_ok r /\ encode_frame r limits = Value bs
    /\ frame_binding (fm_header r) = frame_binding (fm_header request)
    /\ (if carried limits h then
          fh_type (fm_header r) = fh_type (fm_header (handled_response h))
          /\ fh_flags (fm_header r) = fh_flags (fm_header (handled_response h))
          /\ fm_payload r = fm_payload (handled_response h)
        else
          fh_type (fm_header r) = message_type_raw MessageType.Error
          /\ exists detail, decode_error_payload (fm_payload r) = Value (refusal_code h, detail)).

Lemma error_payload_carried code detail : known_code code ->
  decode_error_payload (encode_error_payload code detail) = Value (code, bounded_message detail)
  /\ Forall in_u8 (encode_error_payload code detail) /\ zlen (encode_error_payload code detail) <= kTextBudget.
Proof.
  intros Hc. assert (Hok : error_payload_ok (code, bounded_message detail)).
  { split; [done|]. apply str_size_bounded. }
  assert (Heq : error_payload (code, bounded_message detail) = encode_error_payload code detail).
  { unfold error_payload, encode_error_payload. cbn [fst snd]. by rewrite bounded_message_idem. }
  rewrite <- Heq. split; [exact (codec_roundtrip _ Hok)|exact (codec_bytes _ Hok)].
Qed.

Lemma valid_type_u16 t : is_valid_message_type t = true -> in_u16 t.
Proof. unfold is_valid_message_type, message_type_raw. ints_lia. Qed.

(** A frame of an assigned type, bound to a well-formed request, is well formed. *)
Lemma bound_frame_ok request r : frame_ok request -> is_valid_message_type (fh_type (fm_header r)) = true ->
  in_u32 (fh_flags (fm_header r)) -> Forall in_u8 (fm_payload r) -> frame_ok (bound_to request r).
Proof.
  intros [[_ _ _ Hs He Hb Hq] _ _ _] Ht Hf Hp. split; [|done|done|done].
  split; [done|by apply valid_type_u16|done..].
Qed.

Lemma encode_frame_fits f limits : zlen (fm_payload f) <= frame_payload_ceiling limits -> exists bs, encode_frame f limits = Value bs.
Proof. intros H. unfold encode_frame. rewrite (proj2 (Z.ltb_ge _ _)) by done. by eexists. Qed.

(** The two error frames are the bound error frame. *)
Lemma fallback_bound request s : fallback_for request s = bound_to request (error_frame (status_code s) (status_message s)).
Proof. done. Qed.

Lemma produced_error h : handler_ok h && is_valid_message_type (fh_type (fm_header (handled_response h))) = false ->
  exists detail, produced h = error_frame (refusal_code h) detail.
Proof.
  unfold produced, refusal_code. destruct (handler_ok h); cbn [negb andb orb]; [intros ->|intros _]; by eexists.
Qed.

Lemma refusal_known h : handled_typed h -> known_code (refusal_code h).
Proof.
  intros Ht. unfold refusal_code. destruct (handler_ok h) eqn:Hok; cbn [negb]; [by split_test|].
  destruct h as [status r|what|]; [by apply Ht|done..].
Qed.

(** The bound error frame is a response whenever an error payload fits a frame. *)
Lemma error_answers limits request h detail : frame_ok request -> handled_typed h -> carried limits h = false ->
  kTextBudget <= frame_payload_ceiling limits ->
  exists bs, encode_frame (bound_to request (error_frame (refusal_code h) detail)) limits = Value bs
    /\ answers limits request h bs.
Proof.
  intros Hr Ht Hc Hfit. destruct (error_payload_carried (refusal_code h) detail (refusal_known h Ht)) as (Hd & Hu & Hl).
  destruct (encode_frame_fits (bound_to request (error_frame (refusal_code h) detail)) limits) as [bs Hbs].
  { change (zlen (encode_error_payload (refusal_code h) detail) <= frame_payload_ceiling limits). lia. }
  exists bs. split; [done|]. exists (bound_to request (error_frame (refusal_code h) detail)).
  split; [by apply bound_frame_ok|]. split; [done|]. split; [done|]. rewrite Hc. split; [done|]. by eexists.
Qed.

(** Every request gets a response, and it is the right one. *)
Lemma answer_to_answers limits request h : frame_ok request -> handled_typed h ->
  kTextBudget <= frame_payload_ceiling limits ->
  exists bs, answer_to limits request h = Some bs /\ answers limits request h bs.
Proof.
  intros Hr Ht Hfit. unfold answer_to.
  destruct (handler_ok h && is_valid_message_type (fh_type (fm_header (handled_response h)))) eqn:Hv.
  - assert (Hp : produced h = handled_response h) by (unfold produced; by apply andb_prop in Hv as [-> ->]).
    rewrite Hp. apply andb_prop in Hv as [Hok Hty]. destruct (zlen (fm_payload (handled_response h)) <=? frame_payload_ceiling limits) eqn:Hz.
    + bool_prop. destruct (encode_frame_fits (bound_to request (handled_response h)) limits Hz) as [bs Hbs].
      rewrite Hbs. exists bs. split; [done|]. exists (bound_to request (handled_response h)).
      unfold carried. rewrite Hok, Hty, (proj2 (Z.leb_le _ _)) by done. cbn [andb].
      destruct h as [status r|what|]; [|discriminate Hok..]. destruct Ht as (_ & Hf & Hu).
      split; [by apply bound_frame_ok|done].
    + bool_prop. unfold encode_frame at 1. rewrite (proj2 (Z.ltb_lt _ _)) by done. rewrite fallback_bound.
      assert (Hrc : refusal_code h = Code.Exhausted).
      { unfold refusal_code. by rewrite Hok, Hty. }
      assert (Hc : carried limits h = false) by (unfold carried; rewrite Hok, Hty; cbn [andb]; lia).
      unfold refuse_exhausted, failure. rewrite bool_decide_false by done. cbn [status_code status_message].
      rewrite <- Hrc. match goal with |- context [error_frame _ ?d] =>
        destruct (error_answers limits request h d Hr Ht Hc Hfit) as (bs & -> & Ha) end. by exists bs.
  - destruct (produced_error h Hv) as [detail ->].
    assert (Hc : carried limits h = false) by (unfold carried; by rewrite Hv).
    destruct (error_answers limits request h detail Hr Ht Hc Hfit) as (bs & -> & Ha). by exists bs.
Qed.

(** * The loop *)

(** A peer that neither stops the server nor refuses a write. *)
Definition steady (P : Peer) : Prop := forall n, stop_signalled n = false /\ write_succeeds n = true.

Section conversation.
Context {P : Peer} {S : Type} (handler : S -> Frame -> Handled * S) (limits : Limits).
Hypothesis handler_typed : forall s f, handled_typed (handler s f).1.
Hypothesis errors_fit : kTextBudget <= frame_payload_ceiling limits.

(** What the handler does with the requests, one after the other. *)
Fixpoint handle_all (s : S) (fs : list Frame) : list Handled * S :=
  match fs with
  | [] => ([], s)
  | f :: fs => let '(h, s) := handler s f in let '(hs, s) := handle_all s fs in (h :: hs, s)
  end.

(** The responses to the requests. *)
Fixpoint replies (s : S) (fs : list Frame) : list (list Z) :=
  match fs with
  | [] => []
  | f :: fs => default [] (answer_to limits f (handler s f).1) :: replies (handler s f).2 fs
  end.

Lemma handle_all_state s f fs : (handle_all s (f :: fs)).2 = (handle_all (handler s f).2 fs).2.
Proof. cbn [handle_all]. destruct (handler s f) as [h s']. cbn [snd]. by destruct (handle_all s' fs). Qed.

Lemma handle_all_app s fs fs' : (handle_all s (fs ++ fs')).2 = (handle_all (handle_all s fs).2 fs').2.
Proof. revert s. induction fs as [|f fs IH]; intros s; [done|]. cbn [app]. by rewrite !handle_all_state, IH. Qed.

Lemma replies_app s fs fs' : replies s (fs ++ fs') = replies s fs ++ replies (handle_all s fs).2 fs'.
Proof.
  revert s. induction fs as [|f fs IH]; intros s; [done|]. cbn [app replies]. by rewrite handle_all_state, IH.
Qed.

Lemma length_replies s fs : length (replies s fs) = length fs.
Proof. revert s. induction fs as [|f fs IH]; intros s; [done|]. cbn [replies length]. by rewrite IH. Qed.

Lemma replies_answer s fs : Forall frame_ok fs -> Forall3 (answers limits) fs (handle_all s fs).1 (replies s fs).
Proof.
  intros Hall. revert s. induction Hall as [|f fs Hf _ IH]; intros s; [constructor|]. cbn [handle_all replies].
  destruct (answer_to_answers limits f (handler s f).1 Hf (handler_typed s f) errors_fit) as (bs & Hbs & Ha).
  specialize (IH (handler s f).2). rewrite Hbs. destruct (handler s f) as [h s']. cbn [fst snd] in *.
  destruct (handle_all s' fs). by constructor.
Qed.

(** How far a conversation has come with the frames that arrived: the handler
    ran on the first of them, in order, and what was written are the responses
    to these, the last one perhaps missing. *)
Record progress (fs : list Frame) (s : S) (cv : Conversation) (s' : S) (cv' : Conversation)
  (handled answered rest : list Frame) : Prop := {
  pg_frames : fs = handled ++ rest;
  pg_state : s' = (handle_all s handled).2;
  pg_processed : cv_processed cv' = cv_processed cv + zlen handled;
  pg_sent : cv_sent cv' = cv_sent cv ++ replies s answered;
  pg_answered : answered `prefix_of` handled;
  pg_last : (length handled <= length answered + 1)%nat
}.

Lemma progress_none fs s cv cv' : cv_processed cv' = cv_processed cv -> cv_sent cv' = cv_sent cv ->
  progress fs s cv s cv' [] [] fs.
Proof. intros Hp Hs. split; [done|done|by rewrite Hp, zlen_nil, Z.add_0_r|by rewrite Hs, app_nil_r|done|simpl; lia]. Qed.

Lemma progress_all fs s cv s' cv' fs2 s2 cv2 handled answered rest :
  progress fs s cv s' cv' fs fs [] -> progress fs2 s' cv' s2 cv2 handled answered rest ->
  progress (fs ++ fs2) s cv s2 cv2 (fs ++ handled) (fs ++ answered) rest.
Proof.
  intros [_ -> Hp Hs _ _] [-> -> Hp2 Hs2 Hpre Hl]. split.
  - by rewrite app_assoc.
  - by rewrite handle_all_app.
  - rewrite Hp2, Hp, zlen_app. lia.
  - by rewrite Hs2, Hs, replies_app, app_assoc.
  - by apply prefix_app.
  - rewrite !length_app. lia.
Qed.

(** One request answered. *)
Lemma progress_one f s cv bs d : frame_ok f -> answer_to limits f (handler s f).1 = Some bs ->
  progress [f] s cv (handler s f).2 (response_sent (count_processed (with_decoder cv d)) bs) [f] [f] [].
Proof.
  intros Hf Hb. split; [done|by rewrite handle_all_state|done| |done|simpl; lia].
  cbn [replies cv_sent response_sent count_processed with_decoder]. by rewrite Hb.
Qed.

(** One request handled, its response not written. *)
Lemma progress_unsent f fs s cv d : progress (f :: fs) s cv (handler s f).2 (count_processed (with_decoder cv d)) [f] [] fs.
Proof.
  split; [done|by rewrite handle_all_state|done| |by apply prefix_nil|simpl; lia].
  cbn [replies cv_sent count_processed with_decoder]. by rewrite app_nil_r.
Qed.

(** What the loop does with the frames the decoder holds: all of them, unless
    the server is stopped or a write fails. *)
Record caught_up (fs : list Frame) (status : bool) (s : S) (cv : Conversation) (r : bool * S * Conversation) : Prop := {
  cu_progress : exists handled answered rest, progress fs s cv r.1.2 r.2 handled answered rest;
  cu_waiting : r.1.1 = true ->
    progress fs s cv r.1.2 r.2 fs fs [] /\ cv_rejected r.2 = cv_rejected cv;
  cu_steady : steady P -> r.1.1 = status
    /\ progress fs s cv r.1.2 r.2 fs fs [] /\ cv_rejected r.2 = cv_rejected cv + Z.b2z (negb status)
}.

Lemma caught_up_step f fs status s cv d bs r :
  frame_ok f -> answer_to limits f (handler s f).1 = Some bs ->
  caught_up fs status (handler s f).2 (response_sent (count_processed (with_decoder cv d)) bs) r ->
  caught_up (f :: fs) status s cv r.
Proof.
  intros Hf Hb [(handled & answered & rest & Hp) Hw Hs]. pose proof (progress_one f s cv bs d Hf Hb) as H1.
  split.
  - do 3 eexists. exact (progress_all [f] _ _ _ _ _ _ _ _ _ _ H1 Hp).
  - intros [Hall Hrej]%Hw. split; [exact (progress_all [f] _ _ _ _ _ _ _ _ _ _ H1 Hall)|done].
  - intros (Hst & Hall & Hrej)%Hs. split_and!; [done|exact (progress_all [f] _ _ _ _ _ _ _ _ _ _ H1 Hall)|done].
Qed.

Lemma caught_up_stopped fs status s cv s' cv' handled answered rest : ~ steady P ->
  progress fs s cv s' cv' handled answered rest -> caught_up fs status s cv (false, s', cv').
Proof. intros Hn Hp. split; [by do 3 eexists|done|done]. Qed.

Lemma caught_up_idle s cv cv' : cv_processed cv' = cv_processed cv -> cv_sent cv' = cv_sent cv ->
  cv_rejected cv' = cv_rejected cv -> caught_up [] true s cv (true, s, cv').
Proof.
  intros Hp Hs Hr. pose proof (progress_none [] s cv cv' Hp Hs) as H0.
  split; [by do 3 eexists|done|]. intros _. split_and!; [done|done|]. cbn. lia.
Qed.

Lemma caught_up_failed s cv cv' : cv_processed cv' = cv_processed cv -> cv_sent cv' = cv_sent cv ->
  cv_rejected cv' = cv_rejected cv + 1 -> caught_up [] false s cv (false, s, cv').
Proof.
  intros Hp Hs Hr. pose proof (progress_none [] s cv cv' Hp Hs) as H0.
  split; [by do 3 eexists|done|]. intros _. by split_and!.
Qed.

Lemma answer_buffered_spec fuel top s cv q : Forall in_u8 q -> cv_decoder cv = stream_at limits q ->
  let '(fs, d) := stream_drain fuel (stream_at limits q) in
  let r := answer_buffered handler limits fuel top s cv in
  caught_up fs (negb (st_sticky d)) s cv r /\ (r.1.1 = true -> cv_decoder r.2 = d /\ st_sticky d = false).
Proof.
  revert top s cv q. induction fuel as [|fuel IH]; intros top s cv q Hu Hd.
  { cbn [stream_drain answer_buffered fst snd]. split; [|done]. by apply caught_up_idle. }
  cbn [stream_drain answer_buffered]. rewrite Hd. pose proof (stream_next_outcome limits q Hu) as Ho.
  destruct (stream_next (stream_at limits q)) as [result d]. cbn [fst snd] in Ho.
  destruct (top && stop_signalled (cv_processed cv)) eqn:Hstop.
  { destruct (match fd_disposition result with FrameDisposition.Complete => _ | _ => _ end) as [fs d'].
    split; [|done]. eapply caught_up_stopped; [|by apply progress_none].
    intros Hs. destruct (Hs (cv_processed cv)) as [Hf _]. rewrite Hf, andb_false_r in Hstop. done. }
  destruct Ho as [result bs rest Hc -> Hne He Hok Hse|result Hc|result [Hc|Hc] Hst _]; rewrite Hc.
  - apply Forall_app in Hu as [_ Hu].
    destruct (answer_to_answers limits (fd_frame result) (handler s (fd_frame result)).1 Hok (handler_typed _ _) errors_fit)
      as (out & Hout & _).
    pose proof (progress_unsent (fd_frame result)) as Hun. pose proof (caught_up_step (fd_frame result)) as Hstep.
    specialize (IH true (handler s (fd_frame result)).2
      (response_sent (count_processed (with_decoder cv (stream_at limits rest))) out) rest Hu eq_refl).
    destruct (stream_drain fuel (stream_at limits rest)) as [fs d].
    specialize (Hun fs s cv (stream_at limits rest)).
    specialize (Hstep fs (negb (st_sticky d)) s cv (stream_at limits rest) out).
    destruct (handler s (fd_frame result)) as [h s']. cbn [fst snd] in *. rewrite Hout.
    destruct (write_succeeds _) eqn:Hw.
    + destruct IH as [IH1 IH2]. split; [by apply Hstep|done].
    + split; [|done]. eapply caught_up_stopped; [|exact Hun]. intros Hs. destruct (Hs (cv_processed cv + 1)) as [_ Hf].
      cbn in Hw. by rewrite Hf in Hw.
  - split; [|done]. by apply caught_up_idle.
  - split; [|done]. by apply caught_up_failed.
  - split; [|done]. by apply caught_up_failed.
Qed.

(** The conversations compose. *)
Lemma caught_up_then fs fs2 status s cv s' cv' r : caught_up fs true s cv (true, s', cv') ->
  caught_up fs2 status s' cv' r -> caught_up (fs ++ fs2) status s cv r.
Proof.
  intros [_ Hw1 _] [(handled & answered & rest & Hp) Hw Hs]. destruct (Hw1 eq_refl) as [H1 Hr1]. cbn [fst snd] in *.
  split.
  - do 3 eexists. exact (progress_all _ _ _ _ _ _ _ _ _ _ _ H1 Hp).
  - intros [Hall Hrej]%Hw. split; [exact (progress_all _ _ _ _ _ _ _ _ _ _ _ H1 Hall)|congruence].
  - intros (Hst & Hall & Hrej)%Hs. rewrite <- Hr1. split_and!; [done|exact (progress_all _ _ _ _ _ _ _ _ _ _ _ H1 Hall)|done].
Qed.

Lemma caught_up_decoder fs status s cv w s' cv' d :
  caught_up fs status s cv (w, s', cv') -> caught_up fs status s cv (w, s', with_decoder cv' d).
Proof.
  assert (H : forall h a r, progress fs s cv s' cv' h a r -> progress fs s cv s' (with_decoder cv' d) h a r) by (by intros h a r []).
  intros [(h & a & r & Hp) Hw Hs]. cbn [fst snd] in *. split.
  - exists h, a, r. by apply H.
  - intros [Hp2 Hr]%Hw. split; [by apply H|done].
  - intros (Hst & Hp2 & Hr)%Hs. split_and!; [done|by apply H|done].
Qed.

(** A conversation cut short says nothing about what arrives later. *)
Lemma caught_up_short fs fs2 status s cv s' cv' :
  caught_up fs true s cv (false, s', cv') -> caught_up (fs ++ fs2) status s cv (false, s', cv').
Proof.
  intros [(handled & answered & rest & [-> Hst Hp Hs Hpre Hl]) _ Hs0]. cbn [fst snd] in *. split; [|done|].
  - exists handled, answered, (rest ++ fs2). split; [by rewrite app_assoc|done..].
  - intros [? _]%Hs0. done.
Qed.

Lemma drain_step n d :
  stream_drain (Datatypes.S n) d
  = let '(result, d') := stream_next d in
    match fd_disposition result with
    | FrameDisposition.Complete => let '(frames, d') := stream_drain n d' in (fd_frame result :: frames, d')
    | _ => ([], d')
    end.
Proof. done. Qed.

(** A drained decoder has nothing more to take out. *)
Lemma drain_enough n q : Forall in_u8 q -> (length q <= n)%nat ->
  stream_drain (Datatypes.S n) (stream_at limits q) = stream_drain n (stream_at limits q).
Proof.
  revert q. induction n as [|n IH]; intros q Hu Hn.
  { destruct q; [|simpl in Hn; lia]. by apply drain_incomplete. }
  pose proof (stream_next_outcome limits q Hu) as Ho. rewrite (drain_step (Datatypes.S n)), (drain_step n).
  destruct (stream_next (stream_at limits q)) as [result d]. cbn [fst snd] in Ho.
  destruct Ho as [result bs rest Hc -> Hne _ _ _|result Hc|result [Hc|Hc] _ _]; rewrite Hc; [|done..].
  apply Forall_app in Hu as [_ Hu]. rewrite length_app in Hn.
  assert (length rest <= n)%nat by (destruct bs; [done|simpl in Hn; lia]).
  by rewrite (IH rest Hu).
Qed.

(** The frames and the status of the receiving loop of a connection whose
    decoder holds some bytes already. *)
Definition arrivals (q : list Z) (chunks : list (list Z)) : list Frame * Status :=
  let '(fs, d) := stream_drain (length q) (stream_at limits q) in
  if st_sticky d then (fs, st_status d)
  else let '(more, status, _) := stream_run chunks d in (fs ++ more, status).

Lemma arrivals_empty chunks : arrivals [] chunks = (stream_run chunks (stream_new limits)).1.
Proof. unfold arrivals. cbn. fold (stream_at limits []). by destruct (stream_run chunks _) as [[more status] d]. Qed.

Lemma stream_run_cons chunk chunks q :
  (stream_run (chunk :: chunks) (stream_at limits q)).1
  = let '(fed, _) := stream_feed (Some chunk) (zlen chunk) (stream_at limits q) in
    if status_ok fed then arrivals (q ++ chunk) chunks else ([], fed).
Proof.
  cbn [stream_run]. unfold arrivals. destruct (stream_feed_cases limits q chunk) as [->|[Hf _]].
  - change (status_ok success) with true. cbn [negb st_buffer stream_at]. fold (stream_at limits (q ++ chunk)).
    destruct (stream_drain _ _) as [fs d]. destruct (st_sticky d); [done|]. by destruct (stream_run chunks d) as [[? ?] ?].
  - destruct (stream_feed _ _ _) as [fed d]. cbn [fst] in Hf. by rewrite Hf.
Qed.

Lemma arrivals_short q chunks s cv s' cv' : Forall in_u8 q ->
  (let '(fs, d) := stream_drain (length q) (stream_at limits q) in
   caught_up fs (negb (st_sticky d)) s cv (false, s', cv')) ->
  let '(fs, status) := arrivals q chunks in caught_up fs (status_ok status) s cv (false, s', cv').
Proof.
  intros Hq. pose proof (drain_sound (length q) limits q Hq) as Hdr. unfold arrivals.
  destruct (stream_drain (length q) (stream_at limits q)) as [fs d]. destruct Hdr as (_ & _ & _ & Hst).
  destruct (st_sticky d); cbn [negb]; [by rewrite Hst|]. destruct (stream_run chunks d) as [[more status] d'].
  by apply caught_up_short.
Qed.

Lemma serve_connection_spec chunks top s cv q : Forall in_u8 q -> Forall (Forall in_u8) chunks ->
  Forall (fun c => c <> []) chunks -> cv_decoder cv = stream_at limits q ->
  let '(fs, status) := arrivals q chunks in
  caught_up fs (status_ok status) s cv (serve_connection handler limits (Received <$> chunks) top s cv).
Proof.
  intros Hq Hall. revert top s cv q Hq. induction Hall as [|chunk chunks Hc _ IH]; intros top s cv q Hq Hne Hd;
    pose proof (answer_buffered_spec (Datatypes.S (length q)) top s cv q Hq Hd) as Hb;
    rewrite drain_enough in Hb by done; cbn [fmap list_fmap serve_connection]; rewrite Hd; cbn [st_buffer stream_at].
  all: destruct (answer_buffered handler limits _ top s cv) as [[w s'] cv']; destruct w; cbn [negb fst snd] in *.
  2, 4: apply arrivals_short; [done|]; destruct (stream_drain _ _) as [fs d]; apply Hb.
  all: pose proof (drain_sound (length q) limits q Hq) as Hdr; unfold arrivals.
  all: destruct (stream_drain (length q) (stream_at limits q)) as [fs d]; destruct Hdr as (Htk & _ & Hs & _).
  all: destruct Hb as [Hcu Hdec]; destruct (Hdec eq_refl) as [Hcd Hst]; rewrite Hst in *; cbn [negb] in Hcu.
  - cbn [stream_run]. by rewrite app_nil_r.
  - inversion_clear Hne as [|? ? Hc0 Hrest]. rewrite bool_decide_false by done.
    specialize (Hs eq_refl). rewrite Hs in Hcd. rewrite Hcd. set (p := st_buffer d) in *. rewrite Hs.
    assert (Hp : Forall in_u8 (p ++ chunk)).
    { apply Forall_app. split; [|done]. destruct Htk as (bss & _ & _ & Hb). rewrite Hb in Hq. by apply Forall_app in Hq as [_ ?]. }
    pose proof (stream_run_cons chunk chunks p) as Hrun. destruct (stream_run (chunk :: chunks) _) as [[more status] d'].
    cbn [fst] in Hrun. destruct (stream_feed_cases limits p chunk) as [Hf|[Hf _]].
    + rewrite Hf in Hrun |- *. change (status_ok success) with true in *. cbn [negb].
      specialize (IH false s' (with_decoder cv' (stream_at limits (p ++ chunk))) (p ++ chunk) Hp Hrest eq_refl).
      rewrite <- Hrun in IH. eapply caught_up_then; [|exact IH]. by apply caught_up_decoder.
    + destruct (stream_feed _ _ _) as [fed d2]. cbn [fst] in Hf. rewrite Hf in Hrun |- *. cbn [negb].
      injection Hrun as -> ->. rewrite Hf. eapply caught_up_then; [exact Hcu|]. by apply caught_up_failed.
Qed.
End conversation.

(** ** Properties *)

(** C12. Exactly one response per request, in order, under the request's own
    authority, for a server whose frame payload limit has room for an error
    response (the text budget of 576 bytes; below that a connection whose fallback
    does not fit is dropped unanswered): whatever bytes a connection receives, in whatever pieces, and
    whatever the handler does with a request (respond, fail, throw, answer with
    an unassigned type or with too large a payload), the handler runs on the
    frames of the stream in order, and what the server writes are their
    responses, one each. A response is a well-formed frame with the session,
    epoch, boot digest and request sequence number of its request; it carries
    the handler's type, flags and payload when these can be sent, and otherwise
    an error with the code of the refusal. Only a stop or a failed write ends
    this before the last frame, and then at most one request was handled whose
    response is missing; otherwise every frame is answered, and the connection
    is dropped, counted as one rejection, exactly when the stream is refused. *)
Theorem server_answers_every_frame {P : Peer} {S : Type} (handler : S -> Frame -> Handled * S) (limits : Limits)
  (s : S) (chunks : list (list Z)) :
  (forall s f, handled_typed (handler s f).1) -> kTextBudget <= frame_payload_ceiling limits ->
  Forall (Forall in_u8) chunks -> Forall (fun c => c <> []) chunks ->
  let '(fs, status, _) := stream_run chunks (stream_new limits) in
  let '(waiting, s', cv) :=
    serve_connection handler limits (Received <$> chunks) true s (conversation_new limits) in
  exists answered unsent rest, fs = answered ++ unsent ++ rest /\ (length unsent <= 1)%nat
    /\ Forall3 (answers limits) answered (handle_all handler s answered).1 (cv_sent cv)
    /\ s' = (handle_all handler s (answered ++ unsent)).2 /\ cv_processed cv = zlen (answered ++ unsent)
    /\ (steady P -> unsent ++ rest = [] /\ waiting = status_ok status /\ cv_rejected cv = Z.b2z (negb waiting)).
Proof.
  intros Hty Hfit Hall Hne.
  pose proof (serve_connection_spec handler limits Hty Hfit chunks true s (conversation_new limits) []
    (Forall_nil_2 _) Hall Hne eq_refl) as Hcu.
  rewrite arrivals_empty in Hcu. destruct (run_sound limits chunks [] (Forall_nil_2 _) Hall) as (rest0 & bss & He & _).
  change (stream_at limits []) with (stream_new limits) in He.
  destruct (stream_run chunks (stream_new limits)) as [[fs status] d]. cbn [fst] in *.
  destruct (serve_connection _ _ _ _ _ _) as [[w s'] cv]. destruct Hcu as [Hp _ Hst]. cbn [fst snd] in *.
  assert (Hok : Forall frame_ok fs) by (by eapply Forall2_Forall_l; [exact He|apply Forall_true; intros ? ? [? _]]).
  assert (Hans : forall a, a `prefix_of` fs -> Forall3 (answers limits) a (handle_all handler s a).1 (replies handler limits s a)).
  { intros a [k ->]. apply replies_answer; [done|done|]. by apply Forall_app in Hok as [? _]. }
  destruct Hp as (handled & answered & rest & [-> -> Hpr Hsent [unsent ->] Hl]).
  rewrite <- app_assoc in *. cbn [conversation_new cv_processed cv_sent app] in *. rewrite length_app in Hl.
  exists answered, unsent, rest. rewrite Hsent. split_and!; [done|lia|apply Hans; by eexists|done|done|].
  intros [-> [[_ _ _ Hs _ _] Hr]]%Hst. split_and!; [|done|done].
  rewrite Hsent in Hs. apply (f_equal length) in Hs.
  rewrite length_app, !length_replies, length_app in Hs. cbn [conversation_new cv_sent length] in Hs.
  apply length_zero_iff_nil. lia.
Qed.

(** A handler that counts its requests and refuses every second one. *)
Definition alternating_handler (n : Z) (request : Frame) : Handled * Z :=
  (if Z.even n then
     Returned success (mkFrame (mkFrameHeader 0 0 (message_type_raw MessageType.SnapshotResult) 5 9 9 9 9 0 0) [7; 8] 0)
   else Threw "odd", n + 1).

Lemma alternating_typed n f : handled_typed (alternating_handler n f).1.
Proof.
  unfold alternating_handler. destruct (Z.even n); [|done].
  split; [done|]. cbn. split; [ints_lia|]. repeat (apply Forall_cons_2; [ints_lia|]). by apply Forall_nil_2.
Qed.

#[local] Instance steady_peer : Peer := {| stop_signalled _ := false; write_succeeds _ := true |}.

(** Two requests, the second cut in two, then bytes that are no frame. *)
Definition sample_pieces : list (list Z) :=
  [first_encoding ++ take 9 second_encoding; drop 9 second_encoding; [1; 2; 3; 4]].

Lemma sample_pieces_run :
  length (stream_run sample_pieces (stream_new limits_defaults)).1.1 = 2%nat
  /\ status_ok (stream_run sample_pieces (stream_new limits_defaults)).1.2 = false.
Proof. by vm_compute. Qed.

Lemma server_answers_every_frame_witness :
  let '(waiting, n, cv) := serve_connection alternating_handler limits_defaults (Received <$> sample_pieces) true 0
    (conversation_new limits_defaults) in
  waiting = false /\ n = 2 /\ length (cv_sent cv) = 2%nat /\ cv_processed cv = 2 /\ cv_rejected cv = 1.
Proof.
  pose proof (server_answers_every_frame alternating_handler limits_defaults 0 sample_pieces) as H.
  destruct (serve_connection alternating_handler _ _ _ _ _) as [[waiting n] cv]. pose proof sample_pieces_run as Hf.
  destruct (stream_run sample_pieces (stream_new limits_defaults)) as [[fs status] d]. cbn [fst snd] in Hf.
  destruct H as (answered & unsent & rest & -> & _ & Ha & Hn & Hp & Hs).
  { intros m f. apply alternating_typed. }
  { vm_compute. congruence. }
  { repeat constructor; vm_compute; congruence. }
  { repeat constructor; discriminate. }
  destruct Hs as (Hnil & -> & ->); [done|]. destruct Hf as [Hf ->].
  rewrite Hnil, app_nil_r in Hf. apply app_nil in Hnil as [-> ->]. rewrite app_nil_r in *.
  pose proof (Forall3_length_lr _ _ _ _ Ha) as Hl. 
  destruct answered as [|a [|b [|c answered]]]; try discriminate Hf. subst n. rewrite Hp, <- Hl. done.
Defined.
