(* ===== verification/Socket.v ===== *)
(** The socket layer of the framed transport (src/transport/socket.hpp,
    src/transport/socket.cpp): owned handles, the guard a worker and a stopper
    share, and the loops around the send, recv and accept system calls. What the
    operating system answers to each call is an argument, and the error numbers
    of the platform are a parameter. *)

From S2P Require Import Prelude Containers Core Bytes Session Frame.

(** * Handles *)

(** An owned handle; [None] is kInvalidSocket. Closing answers the handle that
    was shut down and closed, if there was one. *)
Definition Socket : Type := option Z.
Definition socket_valid (s : Socket) : bool := bool_decide (s <> None).
Definition socket_close (s : Socket) : Socket * list Z := (None, option_list s).

Record GuardedSocket := mkGuard { gs_socket : Socket; gs_closing : bool; gs_active : Z }.

Definition guard_of (s : Socket) : GuardedSocket := mkGuard s false 0.

(** Each operation holds the guard's mutex; the list is what it closed. *)
Definition guard_reset (socket : Socket) (g : GuardedSocket) : Status * GuardedSocket * list Z :=
  if gs_closing g then (failure Code.Closed "socket is closing", g, (socket_close socket).2)
  else if socket_valid (gs_socket g) then
    (failure Code.AlreadyExists "socket already holds a handle", g, (socket_close socket).2)
  else (success, mkGuard socket (gs_closing g) (gs_active g), []).

Definition guard_begin (g : GuardedSocket) : bool * GuardedSocket :=
  if gs_closing g || negb (socket_valid (gs_socket g)) then (false, g)
  else (true, mkGuard (gs_socket g) (gs_closing g) (gs_active g + 1)).

Definition guard_end (g : GuardedSocket) : GuardedSocket :=
  if 0 <? gs_active g then mkGuard (gs_socket g) (gs_closing g) (gs_active g - 1) else g.

Definition request_close (g : GuardedSocket) : GuardedSocket * list Z :=
  if gs_closing g then (g, [])
  else let '(s, closed) := socket_close (gs_socket g) in (mkGuard s true (gs_active g), closed).

(** The destructor of the guard. *)
Definition guard_destroy (g : GuardedSocket) : GuardedSocket * list Z :=
  let '(s, closed) := socket_close (gs_socket g) in (mkGuard s (gs_closing g) (gs_active g), closed).

Definition guard_valid (g : GuardedSocket) : bool := negb (gs_closing g) && socket_valid (gs_socket g).
Definition guard_idle (g : GuardedSocket) : bool := gs_active g =? 0.

(** * Bounds *)

Definition kMaxIoChunk : Z := Z.shiftl 1 20.
Definition kMaxChunkBytes : Z := Z.shiftl 64 10.

Definition effective_max_frame_payload (limits : Limits) : Z := Z.min (max_frame_payload limits) kHardMaxFramePayload.

Definition transport_chunk_bytes (limits : Limits) : Z :=
  let frame_bytes :=
    match checked_add_unsigned SIZE_MAX kFrameHeaderBytes (effective_max_frame_payload limits) with
    | Some body => checked_add_unsigned SIZE_MAX body kFrameTrailerBytes
    | None => None
    end in
  match frame_bytes with
  | None => kMaxChunkBytes
  | Some n => Z.max (Z.min n kMaxChunkBytes) (kFrameHeaderBytes + kFrameTrailerBytes)
  end.

Definition INT_MAX : Z := 0x7fffffff.

Definition bounded_backlog (backlog : Z) : Z :=
  let capped := Z.min backlog INT_MAX in if capped =? 0 then 1 else capped.

(** * System calls *)

(** The error numbers the code tells apart (POSIX). *)
Class Errno := { EINTR : Z; ECONNRESET : Z; ENOTCONN : Z; EBADF : Z; EPIPE : Z; ECONNABORTED : Z }.

(** What send and recv answer: the bytes moved, or an error number. *)
Inductive SendCall := Wrote (count : Z) | SendError (error : Z).
Inductive RecvCall := Read (bytes : list Z) | RecvError (error : Z).
Inductive AcceptCall := Accepted (handle : Z) | AcceptError (error : Z).

Section calls.
Context {E : Errno}.

Definition is_interrupted (error : Z) : bool := error =? EINTR.
Definition is_connection_gone (error : Z) : bool :=
  (error =? ECONNRESET) || (error =? ENOTCONN) || (error =? EBADF) || (error =? EPIPE) || (error =? ECONNABORTED).

Definition socket_failure (code : Code) (what : string) (error : Z) : Status :=
  failure code (what +:+ " failed (" +:+ dec error +:+ ")").

Definition call_failure (what : string) (error : Z) : Status :=
  socket_failure (if is_connection_gone error then Code.Closed else Code.IoError) what error.

(** The loop of [send_all]: the bytes given to each call are at most
    kMaxIoChunk of what is left. The result is the status and the bytes the
    peer was sent; [None] while a call is still blocked. *)
Fixpoint send_loop (calls : list SendCall) (data sent : list Z) : option (Status * list Z) :=
  if bool_decide (data = []) then Some (success, sent)
  else
    match calls with
    | [] => None
    | Wrote count :: calls =>
        let chunk := take (Z.to_nat (Z.min (zlen data) kMaxIoChunk)) data in
        if 0 <? count then send_loop calls (drop (Z.to_nat count) data) (sent ++ take (Z.to_nat count) chunk)
        else Some (failure Code.Closed "peer closed during send", sent)
    | SendError error :: calls =>
        if is_interrupted error then send_loop calls data sent else Some (call_failure "send" error, sent)
    end.

(** [send_all]; [None] is the null pointer. *)
Definition send_all (calls : list SendCall) (socket : Socket) (data : option (list Z)) (size : Z) :
  option (Status * list Z) :=
  if negb (socket_valid socket) then Some (failure Code.Closed "socket is closed", [])
  else
    match data with
    | None => if negb (size =? 0) then Some (failure Code.Invalid "null send buffer", []) else Some (success, [])
    | Some bytes => send_loop calls (take (Z.to_nat size) bytes) []
    end.

Fixpoint recv_loop (calls : list RecvCall) : option (Status * list Z) :=
  match calls with
  | [] => None
  | Read bytes :: _ => Some (success, bytes)
  | RecvError error :: calls => if is_interrupted error then recv_loop calls else Some (call_failure "recv" error, [])
  end.

(** [receive_some] into a buffer that is not null. *)
Definition receive_some (calls : list RecvCall) (socket : Socket) (capacity : Z) : option (Status * list Z) :=
  if negb (socket_valid socket) then Some (failure Code.Closed "socket is closed", [])
  else if capacity =? 0 then Some (failure Code.Invalid "empty receive buffer", [])
  else recv_loop calls.

Fixpoint accept_loop (calls : list AcceptCall) : option (Result Socket) :=
  match calls with
  | [] => None
  | Accepted handle :: _ => Some (Value (Some handle))
  | AcceptError error :: calls =>
      if is_interrupted error then accept_loop calls else Some (Refused (call_failure "accept" error))
  end.

Definition accept_tcp (calls : list AcceptCall) (listener : Socket) : option (Result Socket) :=
  if negb (socket_valid listener) then Some (Refused (failure Code.Closed "listener is closed"))
  else accept_loop calls.
End calls.

(** * Facts about the guard *)

(** One call on a guard by any thread: what it closed. *)
Inductive GuardOp := GReset (socket : Socket) | GBegin | GEnd | GClose | GDestroy.

Definition guard_step (op : GuardOp) (g : GuardedSocket) : GuardedSocket * list Z :=
  match op with
  | GReset s => let '(_, g, closed) := guard_reset s g in (g, closed)
  | GBegin => ((guard_begin g).2, [])
  | GEnd => (guard_end g, [])
  | GClose => request_close g
  | GDestroy => guard_destroy g
  end.

(** The handles given to the guard and the handles closed, in order. *)
Fixpoint guard_run (ops : list GuardOp) (g : GuardedSocket) : GuardedSocket * list Z :=
  match ops with
  | [] => (g, [])
  | op :: ops => let '(g, closed) := guard_step op g in let '(g, more) := guard_run ops g in (g, closed ++ more)
  end.

Definition handles_given (ops : list GuardOp) : list Z :=
  concat ((fun op => match op with GReset (Some h) => [h] | _ => [] end) <$> ops).

(** Every handle the guard owned or was given is owned or was closed, once. *)
Lemma guard_step_conserves op g :
  let '(g', closed) := guard_step op g in
  option_list (gs_socket g') ++ closed ≡ₚ option_list (gs_socket g) ++ handles_given [op].
Proof.
  destruct op as [[h|]| | | |], g as [[k|] c n]; unfold guard_step, guard_reset, guard_begin, guard_end, request_close,
    guard_destroy, handles_given; cbn; repeat split_test; cbn; try done; by constructor.
Qed.

Lemma handles_given_cons op ops : handles_given (op :: ops) = handles_given [op] ++ handles_given ops.
Proof. unfold handles_given. cbn. by rewrite app_nil_r. Qed.

Lemma guard_run_conserves ops g :
  let '(g', closed) := guard_run ops g in
  option_list (gs_socket g') ++ closed ≡ₚ option_list (gs_socket g) ++ handles_given ops.
Proof.
  revert g. induction ops as [|op ops IH]; intros g; [by cbn|]. cbn [guard_run]. rewrite handles_given_cons.
  pose proof (guard_step_conserves op g) as H. destruct (guard_step op g) as [g1 closed]. specialize (IH g1).
  destruct (guard_run ops g1) as [g2 more]. rewrite (app_assoc (option_list (gs_socket g))), <- H.
  rewrite (Permutation_app_comm closed more), app_assoc, IH, <- !app_assoc. f_equiv. apply Permutation_app_comm.
Qed.

Lemma request_close_closing g : gs_closing (request_close g).1 = true.
Proof. unfold request_close. by destruct (gs_closing g) eqn:Hg. Qed.

Lemma guard_closing_stays ops g : gs_closing g = true -> gs_closing (guard_run ops g).1 = true.
Proof.
  revert g. induction ops as [|op ops IH]; intros g Hc; [done|]. cbn [guard_run].
  assert (Hs : gs_closing (guard_step op g).1 = true).
  { destruct op, g as [s c n]; cbn in Hc; subst c; try done. cbn. unfold guard_end. cbn. by split_test. }
  destruct (guard_step op g) as [g1 closed]. specialize (IH g1 Hs). by destruct (guard_run ops g1).
Qed.

Definition guard_wf (g : GuardedSocket) : Prop := gs_closing g = true -> gs_socket g = None.

Lemma guard_step_wf op g : guard_wf g -> guard_wf (guard_step op g).1.
Proof.
  unfold guard_wf. destruct op, g as [s c n]; unfold guard_step, guard_reset, guard_begin, guard_end, request_close, guard_destroy;
    cbn; intros Hw; repeat split_test; cbn in *; try done; try congruence.
Qed.

Lemma guard_run_wf ops g : guard_wf g -> guard_wf (guard_run ops g).1.
Proof.
  revert g. induction ops as [|op ops IH]; intros g Hw; [done|]. cbn [guard_run].
  pose proof (guard_step_wf op g Hw) as H1. destruct (guard_step op g) as [g1 closed]. specialize (IH g1 H1).
  by destruct (guard_run ops g1).
Qed.

Lemma guard_close_requested ops g : GClose ∈ ops -> gs_closing (guard_run ops g).1 = true.
Proof.
  revert g. induction ops as [|op ops IH]; intros g; [by intros ?%elem_of_nil|]. cbn [guard_run].
  intros [<-|Hin]%elem_of_cons.
  - assert (Hc : gs_closing (guard_step GClose g).1 = true) by (cbn; unfold request_close; destruct (gs_closing g) eqn:Hg; done).
    destruct (guard_step GClose g) as [g1 closed]. pose proof (guard_closing_stays ops g1 Hc).
    by destruct (guard_run ops g1).
  - destruct (guard_step op g) as [g1 closed]. specialize (IH g1 Hin). by destruct (guard_run ops g1).
Qed.

(** A handle is closed exactly once, whichever threads race: over any sequence
    of calls, of which one requests the close, the handle the guard held and
    every handle it was given are closed, each once, and [begin] refuses from
    then on. *)
Theorem guard_closes_once (socket : Socket) (ops : list GuardOp) :
  GClose ∈ ops ->
  let '(g, closed) := guard_run ops (guard_of socket) in
  closed ≡ₚ option_list socket ++ handles_given ops /\ (guard_begin g).1 = false.
Proof.
  intros Hin. pose proof (guard_run_conserves ops (guard_of socket)) as Hc.
  pose proof (guard_run_wf ops (guard_of socket)) as Hw. pose proof (guard_close_requested ops (guard_of socket) Hin) as Hcl.
  destruct (guard_run ops (guard_of socket)) as [g closed]. cbn [fst] in *.
  rewrite (Hw ltac:(done) Hcl) in Hc. split; [done|]. unfold guard_begin. by rewrite Hcl.
Qed.

(** * Facts about the calls *)

(** What the operating system promises of a send: it moves no more than it was given. *)
Definition send_call_ok (c : SendCall) (left_over : Z) : Prop :=
  match c with Wrote count => count <= Z.min left_over kMaxIoChunk | SendError _ => True end.

Fixpoint send_calls_ok (calls : list SendCall) (data : list Z) : Prop :=
  match calls with
  | [] => True
  | c :: calls =>
      send_call_ok c (zlen data)
      /\ send_calls_ok calls (match c with Wrote count => drop (Z.to_nat count) data | SendError _ => data end)
  end.

(** Everything is sent, in order, or the status says that it was not. *)
Lemma send_loop_exact {E : Errno} calls data sent : send_calls_ok calls data ->
  match send_loop calls data sent with
  | None => True
  | Some (status, out) =>
      out `prefix_of` sent ++ data /\ (status_ok status = true -> out = sent ++ data)
      /\ (status_ok status = false -> strict_prefix out (sent ++ data))
  end.
Proof.
  revert data sent. induction calls as [|c calls IH]; intros data sent Hok; cbn [send_loop]; case_bool_decide as Hd.
  1, 3: subst data; rewrite app_nil_r; by split_and!.
  - done.
  - assert (Hstrict : forall st, status_ok st = false ->
      sent `prefix_of` sent ++ data /\ (status_ok st = true -> sent = sent ++ data)
      /\ (status_ok st = false -> strict_prefix sent (sent ++ data))).
    { intros st Hst. split_and!; [by apply prefix_app_r|by rewrite Hst|]. intros _. by exists data. }
    destruct c as [count|error]; destruct Hok as [Hc Hok]; cbn [send_call_ok] in Hc.
    + destruct (0 <? count) eqn:Hpos; [|by apply Hstrict]. bool_prop.
      assert (Hmin : take (Z.to_nat count) (take (Z.to_nat (Z.min (zlen data) kMaxIoChunk)) data) = take (Z.to_nat count) data)
        by (rewrite take_take; f_equal; lia).
      specialize (IH _ (sent ++ take (Z.to_nat count) data) Hok). rewrite Hmin. by rewrite <- app_assoc, take_drop in IH.
    + destruct (is_interrupted error); [by apply IH|]. apply Hstrict. unfold call_failure. by destruct (is_connection_gone error).
Qed.

(** ** The count of operations in flight *)

(** The lifetime of a [GuardedSocketUse]: its destructor ends the use whether
    or not it was granted. *)
Definition use_begin (g : GuardedSocket) : bool * GuardedSocket := guard_begin g.
Definition use_destroy (g : GuardedSocket) : GuardedSocket := guard_end g.

(** The count is exact as long as every use was granted; a use that was refused
    takes away the count of another that is still in flight, so [idle] answers
    true while an operation runs on the socket. *)
Theorem refused_use_undercounts (handle : Z) :
  let '(granted, g) := use_begin (guard_of (Some handle)) in
  let '(g, _) := request_close g in
  let '(second, g) := use_begin g in
  granted = true /\ second = false /\ guard_idle g = false /\ guard_idle (use_destroy g) = true.
Proof. done. Qed.

(** The handle is closed at once, also while another thread is inside an
    operation on it. *)
Theorem closed_while_in_use h : let g := (guard_begin (guard_of (Some h))).2 in
  guard_idle g = false /\ (request_close g).2 = [h] /\ gs_active (request_close g).1 = 1.
Proof. by split_and!. Qed.
