(* ===== verification/Pool.v ===== *)
(** The threads of the framed server (src/transport/server.cpp): the accept
    thread, the pool of workers and the callers of stop, as one machine. Each
    event is one critical section of the server's mutex, or one call on a
    connection's guard between two of them, so every interleaving of the threads
    is a sequence of events. What a worker says on its connection is the subject
    of the framed server's conversation; here it only ends. Two threads outside
    the server that are inside stop at the same time would join the same
    std::thread objects, which the language leaves undefined: the machine has
    handlers that call stop at any time, but one outside caller at a time. *)

From S2P Require Import Prelude Containers Core Session Frame Socket.

(** * Starting *)

Definition kMaxWorkerThreads : Z := 256.
Definition kMaxConsecutiveAcceptErrors : Z := 64.

Record ServerOptions := mkServerOptions {
  so_bind_address : string;
  so_port : Z;
  so_limits : Limits;
  so_max_connections : Z;
  so_worker_threads : Z;
  so_accept_backlog : Z
}.

Definition server_options_default : ServerOptions := mkServerOptions "127.0.0.1" 0 limits_defaults 64 4 32.

(** The checks of [FrameServer::start] before it opens anything. *)
Definition start_check (options : ServerOptions) (has_handler : bool) : Status :=
  let limits_status := limits_validate (so_limits options) in
  if negb (status_ok limits_status) then limits_status
  else if negb has_handler then failure Code.Invalid "frame server requires a handler"
  else if so_worker_threads options =? 0 then failure Code.Invalid "worker_threads must be at least 1"
  else if kMaxWorkerThreads <? so_worker_threads options then
    refuse_exhausted "worker threads" (so_worker_threads options) kMaxWorkerThreads
  else if so_max_connections options =? 0 then failure Code.Invalid "max_connections must be at least 1"
  else if kHardMaxSessions <? so_max_connections options then
    refuse_exhausted "connections" (so_max_connections options) kHardMaxSessions
  else if so_accept_backlog options =? 0 then failure Code.Invalid "accept_backlog must be at least 1"
  else if bool_decide (so_bind_address options = "") then failure Code.Invalid "bind_address must not be empty"
  else success.

(** * The machine *)

(** Where a worker is in [worker_main]: waiting for a connection, serving one,
    past the close of one it still has to erase, or returned. *)
Inductive Worker := Waiting | Serving (c : nat) | Leaving (c : nat) | WorkerReturned.

(** Where the accept thread is: at the top of its loop, in the wait, in accept,
    about to hand a connection over, or returned. *)
Inductive Acceptor :=
| Top (errors : Z) | Polling (errors : Z) | Accepting (errors : Z) | Admitting (socket : Socket) | AcceptorReturned.

(** Where a caller of stop is: past the first critical section, closing the
    connections of its snapshot, joining the threads, or done. *)
Inductive Stopper :=
| Signalled (on_server_thread : bool) | Closing (on_server_thread : bool) (snapshot : list nat) | Joining
| StopDone (status : Status).

(** A connection is the position of its guard in the list of all guards made;
    the last two fields record the connections admitted and taken, in order. *)
Record Pool := mkPool {
  pl_max_connections : Z;
  pl_queue : list nat;
  pl_live : list nat;
  pl_stopping : bool;
  pl_stopped : bool;
  pl_guards : list GuardedSocket;
  pl_workers : list Worker;
  pl_acceptor : Acceptor;
  pl_stoppers : list Stopper;
  pl_served : Z;
  pl_rejected : Z;
  pl_admitted : list nat;
  pl_taken : list nat
}.

(** The threads [FrameServer::start] creates. *)
Definition pool_start (options : ServerOptions) : Pool :=
  mkPool (so_max_connections options) [] [] false false [] (replicate (Z.to_nat (so_worker_threads options)) Waiting)
    (Top 0) [] 0 0 [] [].

Definition set_queue (p : Pool) (queue live : list nat) : Pool :=
  mkPool (pl_max_connections p) queue live (pl_stopping p) (pl_stopped p) (pl_guards p) (pl_workers p) (pl_acceptor p)
    (pl_stoppers p) (pl_served p) (pl_rejected p) (pl_admitted p) (pl_taken p).
Definition set_worker (p : Pool) (i : nat) (w : Worker) : Pool :=
  mkPool (pl_max_connections p) (pl_queue p) (pl_live p) (pl_stopping p) (pl_stopped p) (pl_guards p)
    (<[i := w]> (pl_workers p)) (pl_acceptor p) (pl_stoppers p) (pl_served p) (pl_rejected p) (pl_admitted p) (pl_taken p).
Definition set_acceptor (p : Pool) (a : Acceptor) : Pool :=
  mkPool (pl_max_connections p) (pl_queue p) (pl_live p) (pl_stopping p) (pl_stopped p) (pl_guards p) (pl_workers p) a
    (pl_stoppers p) (pl_served p) (pl_rejected p) (pl_admitted p) (pl_taken p).
Definition set_stoppers (p : Pool) (stoppers : list Stopper) : Pool :=
  mkPool (pl_max_connections p) (pl_queue p) (pl_live p) (pl_stopping p) (pl_stopped p) (pl_guards p) (pl_workers p)
    (pl_acceptor p) stoppers (pl_served p) (pl_rejected p) (pl_admitted p) (pl_taken p).

(** [mark_stopping] *)
Definition mark_stopping (p : Pool) : Pool :=
  mkPool (pl_max_connections p) (pl_queue p) (pl_live p) true (pl_stopped p) (pl_guards p) (pl_workers p)
    (pl_acceptor p) (pl_stoppers p) (pl_served p) (pl_rejected p) (pl_admitted p) (pl_taken p).

(** `connection->guard.request_close();` *)
Definition close_connection (p : Pool) (c : nat) : Pool :=
  mkPool (pl_max_connections p) (pl_queue p) (pl_live p) (pl_stopping p) (pl_stopped p)
    (alter (fun g => (request_close g).1) c (pl_guards p)) (pl_workers p) (pl_acceptor p) (pl_stoppers p) (pl_served p)
    (pl_rejected p) (pl_admitted p) (pl_taken p).

(** [accept_connection]: the connection is admitted, or refused and closed. *)
Definition accept_connection (p : Pool) (accepted : Socket) : Pool :=
  let c := length (pl_guards p) in
  if negb (pl_stopping p) && (zlen (pl_live p) <? pl_max_connections p) then
    mkPool (pl_max_connections p) (pl_queue p ++ [c]) (pl_live p ++ [c]) (pl_stopping p) (pl_stopped p)
      (pl_guards p ++ [guard_of accepted]) (pl_workers p) (pl_acceptor p) (pl_stoppers p) (pl_served p) (pl_rejected p)
      (pl_admitted p ++ [c]) (pl_taken p)
  else
    mkPool (pl_max_connections p) (pl_queue p) (pl_live p) (pl_stopping p) (pl_stopped p)
      (pl_guards p ++ [(request_close (guard_of accepted)).1]) (pl_workers p) (pl_acceptor p) (pl_stoppers p)
      (pl_served p) (pl_rejected p + 1) (pl_admitted p) (pl_taken p).

(** The front of the queue goes to a worker, which counts it as served. *)
Definition take_connection (p : Pool) (i : nat) (c : nat) (queue : list nat) : Pool :=
  mkPool (pl_max_connections p) queue (pl_live p) (pl_stopping p) (pl_stopped p) (pl_guards p)
    (<[i := Serving c]> (pl_workers p)) (pl_acceptor p) (pl_stoppers p) (pl_served p + 1) (pl_rejected p) (pl_admitted p)
    (pl_taken p ++ [c]).

(** The last critical section of [stop_all]. *)
Definition finish_stop (p : Pool) : Pool :=
  mkPool (pl_max_connections p) [] [] (pl_stopping p) true (pl_guards p) (pl_workers p) (pl_acceptor p)
    (pl_stoppers p) (pl_served p) (pl_rejected p) (pl_admitted p) (pl_taken p).

Definition all_returned (p : Pool) : bool :=
  forallb (fun w => match w with WorkerReturned => true | _ => false end) (pl_workers p)
  && match pl_acceptor p with AcceptorReturned => true | _ => false end.

(** What the wait of the accept thread answered. *)
Inductive Wait := WaitFailed | Woken | ListenerReady.

Inductive PoolEvent :=
| WorkerTakes (i : nat)
| WorkerEnds (i : nat)
| WorkerErases (i : nat)
| WorkerThrows (i : nat)
| AcceptorChecks
| AcceptorWaited (wait : Wait)
| AcceptorAccepted (accepted : Result Socket)
| AcceptorAdmits
| AcceptorThrows
| StopCalled (on_server_thread : bool)
| StopSnapshots (k : nat)
| StopCloses (k : nat)
| StopJoins (k : nat).

(** The loop of [worker_main]. *)
Definition worker_takes (i : nat) (p : Pool) : option Pool :=
  match pl_workers p !! i with
  | Some Waiting =>
      if pl_stopping p then Some (set_worker p i WorkerReturned)
      else match pl_queue p with [] => None | c :: queue => Some (take_connection p i c queue) end
  | _ => None
  end.

Definition worker_ends (i : nat) (p : Pool) : option Pool :=
  match pl_workers p !! i with
  | Some (Serving c) => Some (set_worker (close_connection p c) i (Leaving c))
  | _ => None
  end.

Definition worker_erases (i : nat) (p : Pool) : option Pool :=
  match pl_workers p !! i with
  | Some (Leaving c) => Some (set_worker (set_queue p (pl_queue p) (filter (fun x => x <> c) (pl_live p))) i Waiting)
  | _ => None
  end.

Definition worker_throws (i : nat) (p : Pool) : option Pool :=
  match pl_workers p !! i with
  | Some (Serving c) => Some (set_worker (mark_stopping p) i WorkerReturned)
  | _ => None
  end.

(** The loop of [accept_main]; the stop flag is read before the wait, after it
    and after accept. *)
Definition acceptor_checks (p : Pool) : option Pool :=
  match pl_acceptor p with
  | Top errors => Some (set_acceptor p (if pl_stopping p then AcceptorReturned else Polling errors))
  | _ => None
  end.

Definition acceptor_waited (wait : Wait) (p : Pool) : option Pool :=
  match pl_acceptor p with
  | Polling errors =>
      Some (if pl_stopping p then set_acceptor p AcceptorReturned
            else match wait with
                 | WaitFailed => set_acceptor (mark_stopping p) AcceptorReturned
                 | Woken => set_acceptor p AcceptorReturned
                 | ListenerReady => set_acceptor p (Accepting errors)
                 end)
  | _ => None
  end.

Definition acceptor_accepted (accepted : Result Socket) (p : Pool) : option Pool :=
  match pl_acceptor p with
  | Accepting errors =>
      Some (if pl_stopping p then set_acceptor p AcceptorReturned
            else match accepted with
                 | Refused status =>
                     if bool_decide (status_code status = Code.Closed) then set_acceptor (mark_stopping p) AcceptorReturned
                     else if kMaxConsecutiveAcceptErrors <=? errors + 1 then set_acceptor (mark_stopping p) AcceptorReturned
                     else set_acceptor p (Top (errors + 1))
                 | Value socket => set_acceptor p (Admitting socket)
                 end)
  | _ => None
  end.

Definition acceptor_admits (p : Pool) : option Pool :=
  match pl_acceptor p with
  | Admitting socket => Some (set_acceptor (accept_connection p socket) (Top 0))
  | _ => None
  end.

Definition acceptor_throws (p : Pool) : option Pool :=
  match pl_acceptor p with AcceptorReturned => None | _ => Some (set_acceptor (mark_stopping p) AcceptorReturned) end.

(** A thread outside the server that is inside stop. *)
Definition outside_caller (s : Stopper) : bool :=
  match s with Signalled false | Closing false _ | Joining => true | _ => false end.

(** [stop_all]. A second caller from outside, while one is inside, is no event:
    both would join the same threads, which is undefined. *)
Definition stop_called (on_server_thread : bool) (p : Pool) : option Pool :=
  if pl_stopped p then Some (set_stoppers p (pl_stoppers p ++ [StopDone success]))
  else if negb on_server_thread && existsb outside_caller (pl_stoppers p) then None
  else Some (set_stoppers (mark_stopping p) (pl_stoppers p ++ [Signalled on_server_thread])).

Definition stop_snapshots (k : nat) (p : Pool) : option Pool :=
  match pl_stoppers p !! k with
  | Some (Signalled on_server) => Some (set_stoppers p (<[k := Closing on_server (pl_live p)]> (pl_stoppers p)))
  | _ => None
  end.

Definition stop_closes (k : nat) (p : Pool) : option Pool :=
  match pl_stoppers p !! k with
  | Some (Closing on_server (c :: snapshot)) =>
      Some (set_stoppers (close_connection p c) (<[k := Closing on_server snapshot]> (pl_stoppers p)))
  | Some (Closing on_server []) =>
      Some (set_stoppers p (<[k := if on_server then
                                     StopDone (failure Code.Busy "stop() was called from a server thread; the stop was signalled but the server threads cannot be joined from inside the server")
                                   else Joining]> (pl_stoppers p)))
  | _ => None
  end.

Definition stop_joins (k : nat) (p : Pool) : option Pool :=
  match pl_stoppers p !! k with
  | Some Joining =>
      if all_returned p then Some (finish_stop (set_stoppers p (<[k := StopDone success]> (pl_stoppers p)))) else None
  | _ => None
  end.

(** One event, if the thread is where it can happen. *)
Definition pool_event (e : PoolEvent) (p : Pool) : option Pool :=
  match e with
  | WorkerTakes i => worker_takes i p
  | WorkerEnds i => worker_ends i p
  | WorkerErases i => worker_erases i p
  | WorkerThrows i => worker_throws i p
  | AcceptorChecks => acceptor_checks p
  | AcceptorWaited wait => acceptor_waited wait p
  | AcceptorAccepted accepted => acceptor_accepted accepted p
  | AcceptorAdmits => acceptor_admits p
  | AcceptorThrows => acceptor_throws p
  | StopCalled on_server => stop_called on_server p
  | StopSnapshots k => stop_snapshots k p
  | StopCloses k => stop_closes k p
  | StopJoins k => stop_joins k p
  end.

Definition pool_step (p p' : Pool) : Prop := exists e, pool_event e p = Some p'.

Fixpoint pool_run (events : list PoolEvent) (p : Pool) : option Pool :=
  match events with
  | [] => Some p
  | e :: events => match pool_event e p with Some p' => pool_run events p' | None => None end
  end.

(** * The invariant *)

(** The connection a worker holds. *)
Definition holding (w : Worker) : list nat := match w with Serving c | Leaving c => [c] | _ => [] end.
Definition held (p : Pool) : list nat := concat (holding <$> pl_workers p).

Definition conn_closed (p : Pool) (c : nat) : Prop := exists g, pl_guards p !! c = Some g /\ gs_closing g = true.

(** What a caller of stop has got done. *)
Definition stopper_ok (p : Pool) (s : Stopper) : Prop :=
  match s with
  | Signalled _ => pl_stopping p = true
  | Closing _ snapshot => pl_stopping p = true /\ forall c, c ∈ pl_live p -> c ∈ snapshot \/ conn_closed p c
  | Joining => pl_stopping p = true /\ forall c, c ∈ pl_live p -> conn_closed p c
  | StopDone status => status_ok status = true -> pl_stopped p = true
  end.

Record pool_inv (p : Pool) : Prop := {
  pi_bound : zlen (pl_live p) <= Z.max 0 (pl_max_connections p);
  pi_live : NoDup (pl_live p);
  pi_queue : pl_queue p ⊆ pl_live p;
  pi_live_admitted : pl_live p ⊆ pl_admitted p;
  pi_known : Forall (fun c => (c < length (pl_guards p))%nat) (pl_admitted p);
  pi_once : NoDup (pl_admitted p);
  pi_fifo : exists dropped, pl_admitted p = pl_taken p ++ pl_queue p ++ dropped /\ (pl_stopped p = false -> dropped = []);
  pi_served : pl_served p = zlen (pl_taken p);
  pi_held : NoDup (held p) /\ held p ⊆ pl_taken p;
  pi_leaving : forall i c, pl_workers p !! i = Some (Leaving c) -> conn_closed p c;
  pi_open : forall c, (c < length (pl_guards p))%nat -> c ∈ pl_live p \/ conn_closed p c;
  pi_guards : Forall guard_wf (pl_guards p);
  pi_stoppers : Forall (stopper_ok p) (pl_stoppers p);
  pi_stopped : pl_stopped p = true -> pl_stopping p = true /\ all_returned p = true /\ pl_live p = []
}.

Lemma pool_inv_start options : pool_inv (pool_start options).
Proof.
  split; cbn; try done; try (by constructor).
  - rewrite zlen_nil. lia.
  - by exists [].
  - unfold held. cbn. assert (H : forall n, concat (holding <$> replicate n Waiting) = []) by (induction n; done).
    rewrite H. by split; [constructor|].
  - intros i c Hi. apply lookup_replicate in Hi as [? _]. done.
  - lia.
Qed.

(** ** Threads *)

Lemma all_returned_worker p i w : all_returned p = true -> pl_workers p !! i = Some w -> w = WorkerReturned.
Proof.
  unfold all_returned. intros [Hf _]%andb_prop Hi. apply list_elem_of_lookup_2, list_elem_of_In in Hi.
  rewrite forallb_forall in Hf. specialize (Hf w Hi). by destruct w.
Qed.

Lemma worker_runs p i w : pool_inv p -> pl_workers p !! i = Some w -> w <> WorkerReturned -> pl_stopped p = false.
Proof.
  intros Hp Hi Hw. destruct (pl_stopped p) eqn:Hs; [|done]. destruct (pi_stopped p Hp Hs) as (_ & Hr & _).
  by destruct (Hw (all_returned_worker p i w Hr Hi)).
Qed.

Lemma acceptor_runs p : pool_inv p -> pl_acceptor p <> AcceptorReturned -> pl_stopped p = false.
Proof.
  intros Hp Ha. destruct (pl_stopped p) eqn:Hs; [|done]. destruct (pi_stopped p Hp Hs) as (_ & Hr & _).
  apply andb_prop in Hr as [_ Hr]. by destruct (pl_acceptor p).
Qed.

(** What the workers hold, around one of them. *)
Lemma held_insert ws i w0 w : ws !! i = Some w0 ->
  exists others, concat (holding <$> ws) ≡ₚ holding w0 ++ others /\ concat (holding <$> <[i := w]> ws) ≡ₚ holding w ++ others.
Proof.
  intros Hi. destruct (list_elem_of_split_length _ _ _ Hi) as (l1 & l2 & -> & ->).
  rewrite insert_app_r_alt, Nat.sub_diag by lia. cbn [insert list_insert].
  exists (concat (holding <$> l1) ++ concat (holding <$> l2)).
  rewrite !fmap_app, !fmap_cons, !concat_app. cbn [concat]. split; apply Permutation_app_swap_app.
Qed.

(** What two workers hold is different. *)
Lemma held_once p i j wi wj c : NoDup (held p) -> pl_workers p !! i = Some wi -> pl_workers p !! j = Some wj ->
  c ∈ holding wi -> c ∈ holding wj -> i = j.
Proof.
  unfold held. intros Hn Hi Hj Hci Hcj. destruct (decide (i = j)) as [|Hij]; [done|exfalso].
  destruct (held_insert _ i wi WorkerReturned Hi) as (others & Ha & Hb). rewrite Ha in Hn.
  apply NoDup_app in Hn as (_ & Hd & _). apply (Hd c Hci).
  destruct (held_insert (<[i := WorkerReturned]> (pl_workers p)) j wj wj) as (rest & Hr & _).
  { by rewrite list_lookup_insert_ne. }
  cbn [holding app] in Hb. rewrite <- Hb, Hr. set_solver.
Qed.

Lemma pool_inv_mark p : pool_inv p -> pool_inv (mark_stopping p).
Proof.
  intros [H1 H2 H3 H0 H4 H5 H6 H7 H8 H9 H10 H11 H12 H13]. split; try done.
  - eapply Forall_impl; [exact H12|]. intros [b|b l| |st]; cbn; naive_solver.
  - intros (_ & ? & ?)%H13. done.
Qed.

Lemma pool_inv_acceptor p a : pool_inv p -> pl_stopped p = false -> pool_inv (set_acceptor p a).
Proof.
  intros [H1 H2 H3 H0 H4 H5 H6 H7 H8 H9 H10 H11 H12 H13] Hs. split; try done.
  intros Hst. cbn in Hst. congruence.
Qed.

Lemma pool_inv_worker p i w0 w : pool_inv p -> pl_workers p !! i = Some w0 -> w0 <> WorkerReturned ->
  holding w = holding w0 \/ holding w = [] -> (forall c, w = Leaving c -> conn_closed p c) -> pool_inv (set_worker p i w).
Proof.
  intros Hp Hi Hne Hh Hl. pose proof (worker_runs p i w0 Hp Hi Hne) as Hs.
  destruct Hp as [H1 H2 H3 H0 H4 H5 H6 H7 [H8 H8'] H9 H10 H11 H12 H13]. split; try done.
  - unfold held in *. cbn. destruct (held_insert _ i w0 w Hi) as (others & Ha & Hb). rewrite Hb. rewrite Ha in H8, H8'.
    assert (Hn : NoDup (holding w ++ others) /\ holding w ++ others ⊆ holding w0 ++ others).
    { destruct Hh as [-> | ->]; [done|]. split; [by apply NoDup_app in H8 as (_ & _ & ?)|]. set_solver. }
    destruct Hn as [Hn Hsub]. split; [done|]. set_solver.
  - intros k c. cbn. destruct (decide (i = k)) as [<-|Hik].
    + rewrite list_lookup_insert_eq by (by eapply lookup_lt_Some). intros [= ->]. by apply Hl.
    + rewrite list_lookup_insert_ne by done. apply H9.
  - cbn. congruence.
Qed.

(** ** Connections *)

Lemma close_lookup p c k : pl_guards (close_connection p c) !! k
  = (if decide (c = k) then (fun g => (request_close g).1) <$> pl_guards p !! k else pl_guards p !! k).
Proof. cbn. case_decide as Hc; [subst; apply list_lookup_alter_eq|by apply list_lookup_alter_ne]. Qed.

Lemma conn_closed_mono p c k : conn_closed p k -> conn_closed (close_connection p c) k.
Proof.
  intros (g & Hg & Hc). unfold conn_closed. rewrite close_lookup, Hg. case_decide; [|by eauto].
  eexists. split; [done|]. apply request_close_closing.
Qed.

Lemma conn_closed_now p c : (c < length (pl_guards p))%nat -> conn_closed (close_connection p c) c.
Proof.
  intros [g Hg]%lookup_lt_is_Some_2. unfold conn_closed. rewrite close_lookup, Hg, decide_True by done.
  eexists. split; [done|]. apply request_close_closing.
Qed.

Lemma stopper_ok_close p c s : stopper_ok p s -> stopper_ok (close_connection p c) s.
Proof.
  pose proof (conn_closed_mono p c) as Hm.
  destruct s as [b|b l| |st]; cbn; intros H; [done|split; [apply H|]|split; [apply H|]|done].
  - intros k [?|?]%(proj2 H); auto.
  - intros k ?%(proj2 H); auto.
Qed.

Lemma pool_inv_close p c : pool_inv p -> pool_inv (close_connection p c).
Proof.
  pose proof (conn_closed_mono p c) as Hm.
  intros [H1 H2 H3 H0 H4 H5 H6 H7 H8 H9 H10 H11 H12 H13]. split; try done.
  - cbn. by rewrite length_alter.
  - intros i k Hi. by apply Hm, (H9 i).
  - intros k Hk. cbn in Hk. rewrite length_alter in Hk. destruct (H10 k Hk); [by left|by right; apply Hm].
  - apply Forall_alter; [done|]. intros g _ Hg. apply (guard_step_wf GClose), Hg.
  - eapply Forall_impl; [exact H12|]. intros s. apply stopper_ok_close.
Qed.

(** A held connection is known, live or closed, and no longer queued. *)
Lemma held_by p i w c : pl_workers p !! i = Some w -> c ∈ holding w -> c ∈ held p.
Proof.
  intros Hi Hc. destruct (held_insert (pl_workers p) i w w Hi) as (others & Hp & _). unfold held. rewrite Hp. set_solver.
Qed.

Lemma taken_known p c : pool_inv p -> c ∈ pl_taken p -> (c < length (pl_guards p))%nat /\ c ∉ pl_queue p.
Proof.
  intros Hp Hc. destruct (pi_fifo p Hp) as (dropped & Ha & _). pose proof (pi_once p Hp) as Hn. split.
  - pose proof (pi_known p Hp) as Hk. rewrite Forall_forall in Hk. apply Hk. rewrite Ha. set_solver.
  - rewrite Ha in Hn. apply NoDup_app in Hn as (_ & Hd & _). specialize (Hd c Hc). set_solver.
Qed.

(** `live.erase(...)` of a closed connection that is not queued. *)
Lemma pool_inv_erase p c : pool_inv p -> conn_closed p c -> c ∉ pl_queue p ->
  pool_inv (set_queue p (pl_queue p) (filter (fun x => x <> c) (pl_live p))).
Proof.
  intros [H1 H2 H3 H0 H4 H5 H6 H7 H8 H9 H10 H11 H12 H13] Hc Hq. split; try done; cbn.
  - pose proof (length_filter (fun x => x <> c) (pl_live p)). unfold zlen in *. lia.
  - by apply NoDup_filter.
  - intros k Hk. apply list_elem_of_filter. split; [|by apply H3]. intros ->. done.
  - intros k [_ Hk]%list_elem_of_filter. by apply H0.
  - intros k Hk. destruct (decide (k = c)) as [->|Hne]; [by right|]. destruct (H10 k Hk) as [Hl|]; [left|by right].
    by apply list_elem_of_filter.
  - eapply Forall_impl; [exact H12|]. intros [b|b l| |st]; cbn; [done| | |done]; intros [Hs Hl]; (split; [done|]);
      intros k [_ Hk]%list_elem_of_filter; by apply Hl.
  - intros (? & ? & Hl)%H13. by rewrite Hl.
Qed.

(** A worker takes the front of the queue. *)
Lemma pool_inv_take p i c queue : pool_inv p -> pl_workers p !! i = Some Waiting -> pl_queue p = c :: queue ->
  pool_inv (take_connection p i c queue).
Proof.
  intros Hp Hi Hq. pose proof (worker_runs p i Waiting Hp Hi ltac:(done)) as Hs.
  destruct Hp as [H1 H2 H3 H0 H4 H5 (dropped & H6 & H6') H7 [H8 H8'] H9 H10 H11 H12 H13].
  rewrite Hq in H3, H6. cbn [app] in H6. split; try done; cbn.
  - intros k Hk. apply H3. set_solver.
  - exists dropped. rewrite <- app_assoc. by split.
  - rewrite zlen_app, H7. by rewrite zlen_cons, zlen_nil.
  - assert (Hc : c ∉ pl_taken p).
    { rewrite H6 in H5. apply NoDup_app in H5 as (_ & Hd & _). intros Hin. specialize (Hd c Hin). set_solver. }
    unfold held in *. cbn. destruct (held_insert _ i Waiting (Serving c) Hi) as (others & Ha & Hb). rewrite Hb.
    cbn [holding app] in *. rewrite Ha in H8, H8'. split; [constructor; [set_solver|done]|]. set_solver.
  - intros k k' Hk. destruct (decide (i = k)) as [<-|Hik].
    + by rewrite list_lookup_insert_eq in Hk by (by eapply lookup_lt_Some).
    + rewrite list_lookup_insert_ne in Hk by done. by apply (H9 k).
  - congruence.
Qed.

(** The connections known so far are not affected by one more. *)
Lemma conn_closed_app p p' g c : pl_guards p' = pl_guards p ++ [g] -> conn_closed p c -> conn_closed p' c.
Proof. intros Hg (g0 & Hc & Hcl). exists g0. split; [|done]. rewrite Hg. by apply lookup_app_l_Some. Qed.

Lemma pool_inv_accept p socket : pool_inv p -> pl_stopped p = false -> pool_inv (accept_connection p socket).
Proof.
  intros [H1 H2 H3 H0 H4 H5 (dropped & H6 & H6') H7 H8 H9 H10 H11 H12 H13] Hs. specialize (H6' Hs). subst dropped.
  rewrite app_nil_r in H6.
  assert (Hlen : Forall (fun c => (c < length (pl_guards p) + 1)%nat) (pl_admitted p))
    by (eapply Forall_impl; [exact H4|]; intros; cbn in *; lia).
  unfold accept_connection. set (n := length (pl_guards p)). destruct (negb (pl_stopping p) && _) eqn:Ht.
  - apply andb_prop in Ht as [Hst Hlt]. assert (Hnst : pl_stopping p = false) by (by destruct (pl_stopping p)).
    assert (Hfresh : n ∉ pl_admitted p) by (intros Hin; rewrite Forall_forall in H4; specialize (H4 n Hin); cbn in H4; lia).
    assert (Hlive : n ∉ pl_live p) by (intros Hin%H0; done). bool_prop.
    pose proof (fun q c => conn_closed_app p q (guard_of socket) c) as Hm.
    split; cbn.
    + rewrite zlen_app, zlen_cons, zlen_nil. lia.
    + apply NoDup_app. split; [done|]. split; [set_solver|apply NoDup_singleton].
    + set_solver.
    + set_solver.
    + rewrite length_app. apply Forall_app. split; [done|]. constructor; [cbn; lia|constructor].
    + apply NoDup_app. split; [done|]. split; [set_solver|apply NoDup_singleton].
    + exists []. rewrite H6, app_nil_r, app_assoc. done.
    + done.
    + done.
    + intros i c Hi. eapply Hm; [done|]. by apply (H9 i).
    + intros c. rewrite length_app. cbn. intros Hc. destruct (decide (c = n)) as [->|Hne]; [left; set_solver|].
      destruct (H10 c) as [Hl|Hl]; [lia|left; set_solver|right; by eapply Hm].
    + apply Forall_app. split; [done|]. constructor; [done|constructor].
    + eapply Forall_impl; [exact H12|]. intros [b|b l| |st]; cbn; rewrite ?Hnst; naive_solver.
    + congruence.
  - pose proof (fun q c => conn_closed_app p q (request_close (guard_of socket)).1 c) as Hm.
    split; cbn; try done.
    + rewrite length_app. done.
    + exists []. by rewrite app_nil_r.
    + intros i c Hi. eapply Hm; [done|]. by apply (H9 i).
    + intros c. rewrite length_app. cbn. intros Hc. destruct (decide (c = n)) as [->|Hne].
      { right. eexists. cbn. unfold n. rewrite lookup_app_r, Nat.sub_diag by lia. by split. }
      destruct (H10 c) as [Hl|Hl]; [lia|by left|right; by eapply Hm].
    + apply Forall_app. split; [done|]. constructor; [done|constructor].
    + eapply Forall_impl; [exact H12|]. intros [b|b l| |st]; cbn; [done| | |done].
      * intros [? Hl]. split; [done|]. intros c [?|?]%Hl; [by left|right; by eapply Hm].
      * intros [? Hl]. split; [done|]. intros c ?%Hl. by eapply Hm.
Qed.

(** ** Stopping *)

Lemma pool_inv_stoppers p l : pool_inv p -> Forall (stopper_ok p) l -> pool_inv (set_stoppers p l).
Proof. intros [H1 H2 H3 H0 H4 H5 H6 H7 H8 H9 H10 H11 H12 H13] Hl. by split. Qed.

Lemma stopper_ok_at p k s : pool_inv p -> pl_stoppers p !! k = Some s -> stopper_ok p s.
Proof. intros Hp Hk. by eapply Forall_lookup_1; [apply (pi_stoppers p Hp)|]. Qed.

Lemma pool_inv_stopper p k s : pool_inv p -> stopper_ok p s -> pool_inv (set_stoppers p (<[k := s]> (pl_stoppers p))).
Proof. intros Hp Hs. apply pool_inv_stoppers; [done|]. apply Forall_insert; [apply Hp|done]. Qed.

Lemma pool_inv_finish p : pool_inv p -> pl_stopping p = true -> all_returned p = true ->
  (forall c, c ∈ pl_live p -> conn_closed p c) -> pool_inv (finish_stop p).
Proof.
  intros [H1 H2 H3 H0 H4 H5 (dropped & H6 & H6') H7 H8 H9 H10 H11 H12 H13] Hst Hr Hl. split; try done; cbn.
  - rewrite zlen_nil. lia.
  - constructor.
  - set_solver.
  - exists (pl_queue p ++ dropped). by split.
  - intros c [Hc|Hc]%H10; [right; by apply Hl|by right].
  - eapply Forall_impl; [exact H12|].
    intros [b|b l| |st]; cbn; [done|intros [? _]; split; [done|by intros c ?%elem_of_nil]..|done].
Qed.

(** Every event preserves the invariant. *)
Lemma pool_event_inv e p p' : pool_inv p -> pool_event e p = Some p' -> pool_inv p'.
Proof.
  intros Hp. destruct e as [i|i|i|i| |wait|accepted| | |b|k|k|k]; cbn [pool_event].
  - unfold worker_takes. destruct (pl_workers p !! i) as [[| | |]|] eqn:Hi; try done.
    destruct (pl_stopping p); [intros [= <-]; by eapply pool_inv_worker; [..|by right|]|].
    destruct (pl_queue p) as [|c queue] eqn:Hq; [done|]. intros [= <-]. by apply pool_inv_take.
  - unfold worker_ends. destruct (pl_workers p !! i) as [[|c| |]|] eqn:Hi; try done. intros [= <-].
    eapply (pool_inv_worker _ i (Serving c)); [by apply pool_inv_close|done|done|by left|]. intros k [= <-].
    apply conn_closed_now. apply taken_known; [done|]. apply (pi_held p Hp), (held_by p i (Serving c)); [done|set_solver].
  - unfold worker_erases. destruct (pl_workers p !! i) as [[|c|c|]|] eqn:Hi; try done. intros [= <-].
    eapply (pool_inv_worker _ i (Leaving c)); [|done|done|by right|done]. apply pool_inv_erase; [done|by apply (pi_leaving p Hp i)|].
    apply taken_known; [done|]. apply (pi_held p Hp), (held_by p i (Leaving c)); [done|set_solver].
  - unfold worker_throws. destruct (pl_workers p !! i) as [[|c|c|]|] eqn:Hi; try done. intros [= <-].
    by eapply (pool_inv_worker _ i (Serving c)); [by apply pool_inv_mark|..|by right|].
  - unfold acceptor_checks. destruct (pl_acceptor p) eqn:Ha; try done. intros [= <-].
    apply pool_inv_acceptor; [done|]. apply acceptor_runs; [done|by rewrite Ha].
  - unfold acceptor_waited. destruct (pl_acceptor p) eqn:Ha; try done. intros [= <-].
    pose proof (acceptor_runs p Hp ltac:(by rewrite Ha)) as Hs.
    destruct (pl_stopping p), wait; by apply pool_inv_acceptor; [first [done|by apply pool_inv_mark]|].
  - unfold acceptor_accepted. destruct (pl_acceptor p) eqn:Ha; try done. intros [= <-].
    pose proof (acceptor_runs p Hp ltac:(by rewrite Ha)) as Hs.
    destruct (pl_stopping p), accepted; repeat split_test; by apply pool_inv_acceptor; [first [done|by apply pool_inv_mark]|].
  - unfold acceptor_admits. destruct (pl_acceptor p) eqn:Ha; try done. intros [= <-].
    pose proof (acceptor_runs p Hp ltac:(by rewrite Ha)) as Hs.
    apply pool_inv_acceptor; [by apply pool_inv_accept|]. unfold accept_connection. by split_test.
  - unfold acceptor_throws. destruct (pl_acceptor p) eqn:Ha; try done; intros [= <-];
      pose proof (acceptor_runs p Hp ltac:(by rewrite Ha)) as Hs; by apply pool_inv_acceptor; [by apply pool_inv_mark|].
  - unfold stop_called. destruct (pl_stopped p) eqn:Hs; [|split_test; [done|]]; intros [= <-].
    + apply pool_inv_stoppers; [done|]. apply Forall_app. split; [apply Hp|constructor; [by intros _|constructor]].
    + apply pool_inv_stoppers; [by apply pool_inv_mark|]. apply Forall_app.
      split; [apply (pool_inv_mark p Hp)|by constructor].
  - unfold stop_snapshots. destruct (pl_stoppers p !! k) as [[on| | |]|] eqn:Hk; try done. intros [= <-].
    pose proof (stopper_ok_at _ _ _ Hp Hk). apply pool_inv_stopper; [done|]. split; [done|]. by left.
  - unfold stop_closes. destruct (pl_stoppers p !! k) as [[|on [|c snapshot]| |]|] eqn:Hk; try done; intros [= <-];
      pose proof (stopper_ok_at _ _ _ Hp Hk) as [Hst Hsn].
    + apply pool_inv_stopper; [done|]. destruct on; [done|]. split; [done|]. intros c Hc. destruct (Hsn c Hc); [set_solver|done].
    + apply (pool_inv_stopper (close_connection p c)); [by apply pool_inv_close|]. split; [done|]. intros x Hx.
      destruct (Hsn x Hx) as [[->|?]%elem_of_cons|?]; [right|by left|right; by apply conn_closed_mono].
      apply conn_closed_now. pose proof (pi_known p Hp) as Hkn. rewrite Forall_forall in Hkn. by apply Hkn, (pi_live_admitted p Hp).
  - unfold stop_joins. destruct (pl_stoppers p !! k) as [[| | |]|] eqn:Hk; try done.
    destruct (all_returned p) eqn:Hr; [|done]. intros [= <-]. pose proof (stopper_ok_at _ _ _ Hp Hk) as [Hst Hl].
    apply (pool_inv_stopper (finish_stop p)); [by apply pool_inv_finish|done].
Qed.

(** ** Progress of a stop *)

Definition worker_rank (w : Worker) : nat :=
  match w with Serving _ => 3 | Leaving _ => 2 | Waiting => 1 | WorkerReturned => 0 end.
Definition acceptor_rank (a : Acceptor) : nat :=
  match a with Admitting _ => 2 | AcceptorReturned => 0 | _ => 1 end.
Definition stopper_rank (live : nat) (s : Stopper) : nat :=
  match s with Signalled _ => 3 + live | Closing _ l => 2 + length l | Joining => 1 | StopDone _ => 0 end.

(** The events a stopping server has left, at most. *)
Definition stop_rank (p : Pool) : nat :=
  sum_list_with worker_rank (pl_workers p) + acceptor_rank (pl_acceptor p)
  + sum_list_with (stopper_rank (length (pl_live p))) (pl_stoppers p).

Lemma sum_list_insert {A} (f : A -> nat) l i x y : l !! i = Some x ->
  (sum_list_with f (<[i := y]> l) + f x = sum_list_with f l + f y)%nat.
Proof.
  intros Hi. destruct (list_elem_of_split_length _ _ _ Hi) as (l1 & l2 & -> & ->).
  rewrite insert_app_r_alt, Nat.sub_diag by lia. cbn [insert list_insert].
  rewrite !sum_list_with_app. cbn [sum_list_with]. lia.
Qed.

Lemma stopper_rank_mono n m l : (n <= m)%nat -> (sum_list_with (stopper_rank n) l <= sum_list_with (stopper_rank m) l)%nat.
Proof. intros Hn. induction l as [|[] l IH]; cbn [sum_list_with stopper_rank]; lia. Qed.

Definition is_stop_call (e : PoolEvent) : bool := match e with StopCalled _ => true | _ => false end.

(** Once the server is stopping, every event brings the stop closer. *)
Lemma stop_rank_decreases e p p' : pl_stopping p = true -> is_stop_call e = false -> pool_event e p = Some p' ->
  pl_stopping p' = true /\ (stop_rank p' < stop_rank p)%nat.
Proof.
  intros Hst He. unfold stop_rank.
  assert (Hw : forall i w0 w, pl_workers p !! i = Some w0 -> (worker_rank w < worker_rank w0)%nat ->
    (sum_list_with worker_rank (<[i := w]> (pl_workers p)) < sum_list_with worker_rank (pl_workers p))%nat)
    by (intros i w0 w Hi; pose proof (sum_list_insert worker_rank _ i w0 w Hi); lia).
  assert (Hs : forall k s0 s, pl_stoppers p !! k = Some s0 ->
    (stopper_rank (length (pl_live p)) s < stopper_rank (length (pl_live p)) s0)%nat ->
    (sum_list_with (stopper_rank (length (pl_live p))) (<[k := s]> (pl_stoppers p))
     < sum_list_with (stopper_rank (length (pl_live p))) (pl_stoppers p))%nat)
    by (intros k s0 s Hk; pose proof (sum_list_insert (stopper_rank (length (pl_live p))) _ k s0 s Hk); lia).
  destruct e as [i|i|i|i| |wait|accepted| | |b|k|k|k]; cbn [pool_event]; try discriminate He.
  - unfold worker_takes. destruct (pl_workers p !! i) as [[| | |]|] eqn:Hi; try done. rewrite Hst. intros [= <-]. cbn.
    split; [done|]. specialize (Hw i _ WorkerReturned Hi). cbn in Hw. lia.
  - unfold worker_ends. destruct (pl_workers p !! i) as [[|c| |]|] eqn:Hi; try done. intros [= <-]. cbn.
    split; [done|]. specialize (Hw i _ (Leaving c) Hi). cbn in Hw. lia.
  - unfold worker_erases. destruct (pl_workers p !! i) as [[|c|c|]|] eqn:Hi; try done. intros [= <-]. cbn.
    split; [done|]. specialize (Hw i _ Waiting Hi). cbn in Hw.
    pose proof (stopper_rank_mono _ _ (pl_stoppers p) (length_filter (fun x => x <> c) (pl_live p))). lia.
  - unfold worker_throws. destruct (pl_workers p !! i) as [[|c|c|]|] eqn:Hi; try done. intros [= <-]. cbn.
    split; [done|]. specialize (Hw i _ WorkerReturned Hi). cbn in Hw. lia.
  - unfold acceptor_checks. destruct (pl_acceptor p) eqn:Ha; try done. rewrite Hst. intros [= <-]. cbn. split; [done|lia].
  - unfold acceptor_waited. destruct (pl_acceptor p) eqn:Ha; try done. rewrite Hst. intros [= <-]. cbn. split; [done|lia].
  - unfold acceptor_accepted. destruct (pl_acceptor p) eqn:Ha; try done. rewrite Hst. intros [= <-]. cbn. split; [done|lia].
  - unfold acceptor_admits. destruct (pl_acceptor p) eqn:Ha; try done. unfold accept_connection. rewrite Hst. cbn [negb andb].
    intros [= <-]. cbn. split; [done|lia].
  - unfold acceptor_throws. destruct (pl_acceptor p) eqn:Ha; try done; intros [= <-]; cbn; (split; [done|lia]).
  - unfold stop_snapshots. destruct (pl_stoppers p !! k) as [[on| | |]|] eqn:Hk; try done. intros [= <-]. cbn.
    split; [done|]. specialize (Hs k _ (Closing on (pl_live p)) Hk). cbn in Hs. lia.
  - unfold stop_closes. destruct (pl_stoppers p !! k) as [[|on [|c l]| |]|] eqn:Hk; try done; intros [= <-]; cbn; (split; [done|]).
    + match goal with |- context [<[k := ?s]> _] => specialize (Hs k _ s Hk) end. destruct on; cbn in Hs |- *; lia.
    + specialize (Hs k _ (Closing on l) Hk). cbn in Hs. lia.
  - unfold stop_joins. destruct (pl_stoppers p !! k) as [[| | |]|] eqn:Hk; try done. destruct (all_returned p); [|done].
    intros [= <-]. cbn. split; [done|]. specialize (Hs k _ (StopDone success) Hk). cbn in Hs.
    pose proof (stopper_rank_mono 0 (length (pl_live p)) (<[k := StopDone success]> (pl_stoppers p)) ltac:(lia)). lia.
Qed.

(** Another call of stop adds its own events, and no more. *)
Lemma stop_call_rank on p p' : stop_called on p = Some p' -> pl_stopping p = true ->
  pl_stopping p' = true /\ pl_live p' = pl_live p /\ (stop_rank p' <= stop_rank p + (3 + length (pl_live p)))%nat.
Proof.
  unfold stop_called, stop_rank. repeat split_test; try done; intros [= <-] Hst; cbn [set_stoppers mark_stopping
    pl_stopping pl_live pl_workers pl_acceptor pl_stoppers]; (split_and!; [done..|]);
    rewrite sum_list_with_app; cbn [sum_list_with stopper_rank]; lia.
Qed.

(** A stopping server admits no further connection. *)
Lemma stopping_live e p p' : pl_stopping p = true -> pool_event e p = Some p' -> (length (pl_live p') <= length (pl_live p))%nat.
Proof.
  intros Hst. destruct e as [i|i|i|i| |wait|accepted| | |b|k|k|k]; cbn [pool_event];
    unfold worker_takes, worker_ends, worker_erases, worker_throws, acceptor_checks, acceptor_waited, acceptor_accepted,
      acceptor_admits, acceptor_throws, accept_connection, stop_called, stop_snapshots, stop_closes, stop_joins; rewrite ?Hst;
    repeat split_match; try done; intros [= <-]; cbn; try lia. apply length_filter.
Qed.

(** A stop called from outside the server that has not returned yet. *)
Definition pending_stop (p : Pool) (k : nat) : Prop :=
  match pl_stoppers p !! k with
  | Some (Signalled false) | Some (Closing false _) | Some Joining => True
  | _ => False
  end.

Lemma forallb_false {A} (f : A -> bool) l : forallb f l = false -> exists i x, l !! i = Some x /\ f x = false.
Proof.
  induction l as [|a l IH]; cbn [forallb]; [done|]. destruct (f a) eqn:Ha; cbn [andb].
  - intros (i & x & Hi & Hx)%IH. by exists (S i), x.
  - intros _. by exists 0%nat, a.
Qed.

(** A pending stop is never stuck: one of the threads can go on. *)
Lemma pending_enabled p k : pl_stopping p = true -> pending_stop p k ->
  exists e p', is_stop_call e = false /\ pool_event e p = Some p'.
Proof.
  intros Hst. unfold pending_stop. destruct (pl_stoppers p !! k) as [[[]|[] l| |]|] eqn:Hk; try done; intros _.
  - exists (StopSnapshots k). cbn. unfold stop_snapshots. rewrite Hk. by eexists.
  - exists (StopCloses k). cbn. unfold stop_closes. rewrite Hk. destruct l; by eexists.
  - destruct (all_returned p) eqn:Hr.
    { exists (StopJoins k). cbn. unfold stop_joins. rewrite Hk, Hr. by eexists. }
    unfold all_returned in Hr. destruct (forallb _ _) eqn:Hf; cbn [andb] in Hr.
    + destruct (pl_acceptor p) eqn:Ha; try done.
      * exists AcceptorChecks. cbn. unfold acceptor_checks. rewrite Ha. by eexists.
      * exists (AcceptorWaited Woken). cbn. unfold acceptor_waited. rewrite Ha. by eexists.
      * exists (AcceptorAccepted (Refused (failure Code.Closed "listener is closed"))). cbn.
        unfold acceptor_accepted. rewrite Ha. by eexists.
      * exists AcceptorAdmits. cbn. unfold acceptor_admits. rewrite Ha. by eexists.
    + destruct (forallb_false _ _ Hf) as (i & w & Hi & Hw). destruct w as [|c|c|]; [| | |done].
      * exists (WorkerTakes i). cbn. unfold worker_takes. rewrite Hi, Hst. by eexists.
      * exists (WorkerEnds i). cbn. unfold worker_ends. rewrite Hi. by eexists.
      * exists (WorkerErases i). cbn. unfold worker_erases. rewrite Hi. by eexists.
Qed.

(** The events of the threads leave the callers of stop alone. *)
Lemma thread_event_stoppers e p p' :
  match e with StopCalled _ | StopSnapshots _ | StopCloses _ | StopJoins _ => False | _ => True end ->
  pool_event e p = Some p' -> pl_stoppers p' = pl_stoppers p /\ pl_stopped p' = pl_stopped p.
Proof.
  destruct e as [i|i|i|i| |wait|accepted| | |b|k|k|k]; cbn [pool_event]; try done; intros _;
    unfold worker_takes, worker_ends, worker_erases, worker_throws, acceptor_checks, acceptor_waited,
      acceptor_accepted, acceptor_admits, acceptor_throws, accept_connection;
    repeat split_match; try done; by intros [= <-].
Qed.

(** A pending stop stays pending until the server is stopped, and a stopped server stays stopped. *)
Lemma pending_kept e p p' k : pool_event e p = Some p' ->
  (pending_stop p k -> pending_stop p' k \/ pl_stopped p' = true) /\ (pl_stopped p = true -> pl_stopped p' = true).
Proof.
  assert (Hins : forall j s0 s, pl_stoppers p !! j = Some s0 ->
    <[j := s]> (pl_stoppers p) !! k = if decide (j = k) then Some s else pl_stoppers p !! k).
  { intros j s0 s Hj. case_decide as Hd; [subst; by apply list_lookup_insert_eq; eapply lookup_lt_Some|].
    by apply list_lookup_insert_ne. }
  intros Hev. destruct e as [i|i|i|i| |wait|accepted| | |b|j|j|j].
  1-9: apply thread_event_stoppers in Hev as [Hs1 Hs2]; [|done]; unfold pending_stop; rewrite Hs1, Hs2; by split; [left|].
  all: cbn [pool_event] in Hev; unfold stop_called, stop_snapshots, stop_closes, stop_joins, pending_stop in *.
  - assert (Hl : forall s, pl_stoppers p !! k <> None -> (pl_stoppers p ++ [s]) !! k = pl_stoppers p !! k)
      by (intros s Hn; apply lookup_app_l, lookup_lt_is_Some_1; by apply not_eq_None_Some).
    destruct (pl_stopped p) eqn:Hst; [|split_test; [done|]]; injection Hev as <-; (split; [|by cbn]); intros Hk; left; cbn;
      (rewrite Hl; [done|by destruct (pl_stoppers p !! k)]).
  - destruct (pl_stoppers p !! j) as [[on| | |]|] eqn:Hj; try done. injection Hev as <-. cbn. rewrite (Hins _ _ _ Hj).
    split; [|done]. case_decide; [subst; rewrite Hj; destruct on|]; by left.
  - destruct (pl_stoppers p !! j) as [[|on [|c l]| |]|] eqn:Hj; try done; injection Hev as <-; cbn; rewrite (Hins _ _ _ Hj);
      (split; [|done]); case_decide; try (by left); subst; rewrite Hj; destruct on; by left.
  - destruct (pl_stoppers p !! j) as [[| | |]|] eqn:Hj; try done. destruct (all_returned p); [|done].
    injection Hev as <-. split; [by right|done].
Qed.

(** * Properties *)

Lemma pool_steps_inv p p' : rtc pool_step p p' -> pool_inv p -> pool_inv p'.
Proof. induction 1 as [|p q r [e He] _ IH]; [done|]. intros Hp. by apply IH, (pool_event_inv e p). Qed.

Lemma pool_reachable_inv options p : rtc pool_step (pool_start options) p -> pool_inv p.
Proof. intros Hr. apply (pool_steps_inv _ _ Hr), pool_inv_start. Qed.

Lemma live_or_closed p c g : pool_inv p -> pl_guards p !! c = Some g ->
  c ∈ pl_live p \/ gs_closing g = true /\ gs_socket g = None.
Proof.
  intros Hp Hg. destruct (pi_open p Hp c) as [Hl|(g' & Hg' & Hc)]; [by eapply lookup_lt_Some|by left|right].
  rewrite Hg in Hg'. injection Hg' as <-. split; [done|]. pose proof (pi_guards p Hp) as Hw.
  eapply Forall_lookup_1 in Hw; [by apply Hw|done].
Qed.

Lemma pool_run_steps events p p' : pool_run events p = Some p' -> rtc pool_step p p'.
Proof.
  revert p. induction events as [|e events IH]; intros p; cbn [pool_run]; [by intros [= ->]|].
  destruct (pool_event e p) as [p1|] eqn:He; [|done]. intros H%IH. eapply rtc_l; [by exists e|done].
Qed.

(** C11. A connection is served by one worker, once, in the order of arrival:
    whatever the accept thread, the workers and the callers of stop do and
    however they interleave, at most max_connections connections are live; the
    connections the workers have taken, followed by those still queued, are the
    connections admitted, in order and each once (after a stop the queued ones
    are dropped); no two workers hold the same connection; and a connection
    that is not live any more, a refused one included, has been closed. *)
Theorem connections_served_once (options : ServerOptions) (p : Pool) :
  rtc pool_step (pool_start options) p ->
  zlen (pl_live p) <= Z.max 0 (pl_max_connections p)
  /\ NoDup (pl_admitted p) /\ (pl_taken p ++ pl_queue p) `prefix_of` pl_admitted p
  /\ (pl_stopped p = false -> pl_taken p ++ pl_queue p = pl_admitted p) /\ pl_served p = zlen (pl_taken p)
  /\ (forall i j wi wj c, pl_workers p !! i = Some wi -> pl_workers p !! j = Some wj ->
       c ∈ holding wi -> c ∈ holding wj -> i = j)
  /\ (forall c g, pl_guards p !! c = Some g -> c ∈ pl_live p \/ gs_closing g = true /\ gs_socket g = None).
Proof.
  intros Hp%pool_reachable_inv. destruct (pi_fifo p Hp) as (dropped & Ha & Hd). split_and!.
  - apply Hp.
  - apply Hp.
  - rewrite Ha, app_assoc. by eexists.
  - intros Hs. rewrite Ha, (Hd Hs), app_nil_r. done.
  - apply Hp.
  - intros i j wi wj c Hi Hj. apply (held_once p i j wi wj c); [apply Hp|done|done].
  - intros c g. by apply live_or_closed.
Qed.

Lemma pending_stopping p k : pool_inv p -> pending_stop p k -> pl_stopping p = true.
Proof.
  intros Hp Hk. unfold pending_stop in Hk. destruct (pl_stoppers p !! k) as [s|] eqn:Hs; [|done].
  pose proof (stopper_ok_at p k s Hp Hs) as Ho. destruct s; [done|by destruct Ho..|done].
Qed.

Definition stop_calls (events : list PoolEvent) : nat := length (filter (fun e => is_stop_call e = true) events).

(** A run of a stopping server is no longer than its rank, and what further
    calls of stop add to it. *)
Lemma stop_run_bounded events p p' : pl_stopping p = true -> pool_run events p = Some p' ->
  pl_stopping p' = true /\
  (length events + stop_rank p' <= stop_rank p + (4 + length (pl_live p)) * stop_calls events)%nat.
Proof.
  revert p. induction events as [|e events IH]; intros p Hst; cbn [pool_run length].
  { intros [= ->]. split; [done|lia]. }
  destruct (pool_event e p) as [q|] eqn:Hq; [|done]. intros Hrun. pose proof (stopping_live e p q Hst Hq) as Hl.
  unfold stop_calls. rewrite filter_cons. destruct (is_stop_call e) eqn:He.
  - rewrite decide_True by done. destruct e as [| | | | | | | | |on| | |]; try done.
    destruct (stop_call_rank on p q Hq Hst) as (Hs & _ & Hr). destruct (IH q Hs Hrun) as [? Hi]. split; [done|].
    unfold stop_calls in Hi. cbn [length]. nia.
  - rewrite decide_False by done. destruct (stop_rank_decreases e p q Hst He Hq) as [Hs Hr].
    destruct (IH q Hs Hrun) as [? Hi]. split; [done|]. unfold stop_calls in Hi. nia.
Qed.

Lemma stop_run_pending events p p' k : pool_run events p = Some p' ->
  pending_stop p k \/ pl_stopped p = true -> pending_stop p' k \/ pl_stopped p' = true.
Proof.
  revert p. induction events as [|e events IH]; intros p; cbn [pool_run]; [by intros [= ->]|].
  destruct (pool_event e p) as [q|] eqn:Hq; [|done]. intros Hr Hp. apply (IH q Hr).
  destruct (pending_kept e p q k Hq) as [H1 H2]. destruct Hp; [by apply H1|right; by apply H2].
Qed.


(** One worker and room for one connection: the first is taken, the second is
    refused, and a thread outside the server calls stop. *)
Definition small_server : ServerOptions := mkServerOptions "127.0.0.1" 0 limits_defaults 1 1 1.

Definition accepting (handle : Z) : list PoolEvent :=
  [AcceptorChecks; AcceptorWaited ListenerReady; AcceptorAccepted (Value (Some handle)); AcceptorAdmits].

Definition busy_events : list PoolEvent := accepting 7 ++ [WorkerTakes 0] ++ accepting 8 ++ [StopCalled false].

Definition busy_pool : Pool := Eval vm_compute in default (pool_start small_server) (pool_run busy_events (pool_start small_server)).

Lemma busy_reachable : rtc pool_step (pool_start small_server) busy_pool.
Proof. by apply (pool_run_steps busy_events). Qed.

Lemma connections_served_once_witness :
  pl_taken busy_pool ++ pl_queue busy_pool = [0%nat] /\ pl_admitted busy_pool = [0%nat] /\ pl_rejected busy_pool = 1.
Proof.
  pose proof (connections_served_once small_server busy_pool busy_reachable) as (_ & _ & _ & H & _).
  split_and!; [exact (H eq_refl)|done|done].
Defined.

Definition stop_events : list PoolEvent :=
  [StopSnapshots 0; StopCloses 0; StopCloses 0; WorkerEnds 0; WorkerErases 0; AcceptorChecks; WorkerTakes 0; StopJoins 0].

