(* ===== verification/Client.v ===== *)
(** The framed client (include/sff/transport/client.hpp,
    src/transport/client.cpp): connect, handshake, call and close over one
    guarded socket. One request is outstanding at a time (handshake and call
    hold the client's mutex), so an operation is one step of the client's state;
    what the network does during it (what sending answered and what the receive
    calls delivered) is an argument, and [None] means that the operation is
    still blocked when that runs out. *)

From S2P Require Import Prelude Containers Core Bytes Integrity Session Frame Messages Server Socket.

(** * State *)

Record FrameClient := mkClient {
  cl_guard : GuardedSocket;
  cl_limits : Limits;
  cl_handshaken : bool;
  cl_session : Z;
  cl_epoch : Z;
  cl_boot_digest : Z;
  cl_next_seq : Z;
  cl_exhausted : bool;
  cl_decoder : FrameStreamDecoder
}.

(** The decoder is constructed with the client, before [connect] sets the limits. *)
Definition client_new : FrameClient :=
  mkClient (guard_of None) limits_defaults false 0 0 0 1 false (stream_new limits_defaults).

Definition with_guard (c : FrameClient) (g : GuardedSocket) : FrameClient :=
  mkClient g (cl_limits c) (cl_handshaken c) (cl_session c) (cl_epoch c) (cl_boot_digest c) (cl_next_seq c)
    (cl_exhausted c) (cl_decoder c).
Definition with_client_decoder (c : FrameClient) (d : FrameStreamDecoder) : FrameClient :=
  mkClient (cl_guard c) (cl_limits c) (cl_handshaken c) (cl_session c) (cl_epoch c) (cl_boot_digest c) (cl_next_seq c)
    (cl_exhausted c) d.

(** `guard.request_close();` *)
Definition client_drop (c : FrameClient) : FrameClient := with_guard c (request_close (cl_guard c)).1.

(** * Connecting *)

Definition client_connect (host : string) (port : Z) (limits : Limits) (ready : Status) (socket : Result Socket) :
  Result FrameClient :=
  let limits_status := limits_validate limits in
  if bool_decide (host = "") then Refused (failure Code.Invalid "host must not be empty")
  else if port =? 0 then Refused (failure Code.Invalid "port 0 cannot be connected to")
  else if negb (status_ok limits_status) then Refused limits_status
  else if negb (status_ok ready) then Refused ready
  else
    match socket with
    | Refused status => Refused status
    | Value socket =>
        let '(adopted, g, _) := guard_reset socket (cl_guard client_new) in
        if negb (status_ok adopted) then Refused adopted
        else
          Value (mkClient g limits (cl_handshaken client_new) (cl_session client_new) (cl_epoch client_new)
                   (cl_boot_digest client_new) (cl_next_seq client_new) (cl_exhausted client_new) (cl_decoder client_new))
    end.

(** * Requests *)

Definition UINT64_MAX : Z := two64 - 1.

Definition take_sequence (c : FrameClient) : option Z * FrameClient :=
  if cl_exhausted c then (None, c)
  else
    let last := cl_next_seq c =? UINT64_MAX in
    (Some (cl_next_seq c),
     mkClient (cl_guard c) (cl_limits c) (cl_handshaken c) (cl_session c) (cl_epoch c) (cl_boot_digest c)
       (if last then cl_next_seq c else cl_next_seq c + 1) last (cl_decoder c)).

(** What the network does during one round trip. *)
Record Exchange := mkExchange { ex_sent : Status; ex_receptions : list Reception }.

Definition not_connected : Status := failure Code.Closed "client is not connected".

(** The receiving loop of [round_trip]; an unusable guard is one that another
    thread has closed. *)
Fixpoint receive_response (receptions : list Reception) (c : FrameClient) : option (Result Frame) * FrameClient :=
  let '(decoded, d) := stream_next (cl_decoder c) in
  let c := with_client_decoder c d in
  match fd_disposition decoded with
  | FrameDisposition.Complete => (Some (Value (fd_frame decoded)), c)
  | FrameDisposition.Incomplete =>
      match receptions with
      | [] => (None, c)
      | Unusable :: _ => (Some (Refused not_connected), client_drop c)
      | ReadFailed status :: _ => (Some (Refused status), client_drop c)
      | Received bytes :: receptions =>
          if bool_decide (bytes = []) then
            (Some (Refused (failure Code.Closed "peer closed the connection")), client_drop c)
          else
            let '(fed, d) := stream_feed (Some bytes) (zlen bytes) (cl_decoder c) in
            let c := with_client_decoder c d in
            if negb (status_ok fed) then (Some (Refused fed), client_drop c) else receive_response receptions c
      end
  | _ => (Some (Refused (fd_status decoded)), client_drop c)
  end.

(** [round_trip]; the list is the frame whose encoding was handed to the socket. *)
Definition round_trip (request : Frame) (ex : Exchange) (c : FrameClient) :
  option (Result Frame) * list Frame * FrameClient :=
  match encode_frame request (cl_limits c) with
  | Refused status => (Some (Refused status), [], c)
  | Value _ =>
      if negb (guard_begin (cl_guard c)).1 then (Some (Refused not_connected), [], c)
      else if negb (status_ok (ex_sent ex)) then (Some (Refused (ex_sent ex)), [request], client_drop c)
      else let '(response, c) := receive_response (ex_receptions ex) c in (response, [request], c)
  end.

(** The request frames of a handshake and of a call. *)
Definition hello_frame (principal : string) (seq : Z) : Frame :=
  mkFrame (mkFrameHeader kFrameMagic kFrameFormatVersion (message_type_raw MessageType.Hello) 0 0 0 0 seq 0 0)
    (encode_hello_request (mkHelloRequest principal kFrameFormatVersion)) 0.

Definition call_frame (type flags : Z) (payload : list Z) (seq : Z) (c : FrameClient) : Frame :=
  mkFrame (mkFrameHeader kFrameMagic kFrameFormatVersion type flags (cl_session c) (cl_epoch c) (cl_boot_digest c) seq 0 0)
    payload 0.

Definition with_max_frame_payload (l : Limits) (n : Z) : Limits :=
  mkLimits (max_switches l) (max_links l) (max_paths l) (max_ports l) (max_failure_domains l) (max_closure_nodes l)
    (max_closure_edges l) (max_plan_steps l) (max_candidates_evaluated l) (max_unresolved_dependents l)
    (max_explanation_terms l) (max_retained_attempts l) (max_authority_grants l) (max_fences l) (max_evidence_records l)
    (max_event_records l) (max_journal_records l) (max_sessions l) (max_session_queue l) n (max_document_bytes l)
    (freshness_window_ns l) (fence_horizon_ns l).

(** The authority the server granted, and a payload bound it may lower. *)
Definition adopt (ack : HelloResponse) (c : FrameClient) : FrameClient :=
  mkClient (cl_guard c)
    (if negb (hr_max_payload ack =? 0) then
       with_max_frame_payload (cl_limits c) (Z.min (max_frame_payload (cl_limits c)) (hr_max_payload ack))
     else cl_limits c)
    true (hr_session ack) (hr_epoch ack) (hr_boot_digest ack) (cl_next_seq c) (cl_exhausted c) (cl_decoder c).

(** What the handshake makes of the response. *)
Definition hello_outcome (frame : Frame) (c : FrameClient) : Status * FrameClient :=
  let type := fh_type (fm_header frame) in
  if type =? message_type_raw MessageType.Error then
    match decode_error_payload (fm_payload frame) with
    | Value (code, detail) => (failure code detail, c)
    | Refused _ => (failure Code.Invalid "server answered with an undecodable error frame", c)
    end
  else if negb (type =? message_type_raw MessageType.HelloAck) then
    (failure Code.Invalid "unexpected handshake response type", c)
  else
    match decode_hello_response (fm_payload frame) with
    | Refused status => (status, c)
    | Value ack =>
        if negb (hr_format_version ack =? kFrameFormatVersion) then
          (failure Code.VersionMismatch "server frame format version mismatch", c)
        else if negb (bool_decide (hr_outcome ack = Code.Ok)) then
          (failure (hr_outcome ack) "handshake refused by server", c)
        else if negb (id_valid (hr_session ack)) || negb (id_valid (hr_epoch ack)) then
          (failure Code.Invalid "handshake accepted without a session authority", c)
        else (success, adopt ack c)
    end.

Definition handshake (principal : string) (ex : Exchange) (c : FrameClient) :
  option Status * list Frame * FrameClient :=
  if bool_decide (principal = "") then (Some (failure Code.Invalid "handshake requires a principal"), [], c)
  else if negb (guard_valid (cl_guard c)) then (Some not_connected, [], c)
  else if cl_handshaken c then (Some (failure Code.AlreadyExists "handshake already completed"), [], c)
  else
    match take_sequence c with
    | (None, c) => (Some (failure Code.Exhausted "request sequence space exhausted"), [], c)
    | (Some sequence, c) =>
        match round_trip (hello_frame principal sequence) ex c with
        | (None, sent, c) => (None, sent, c)
        | (Some (Refused status), sent, c) => (Some status, sent, c)
        | (Some (Value frame), sent, c) => let '(status, c) := hello_outcome frame c in (Some status, sent, c)
        end
    end.

Definition call (type : Z) (payload : list Z) (flags : Z) (ex : Exchange) (c : FrameClient) :
  option (Result Frame) * list Frame * FrameClient :=
  if negb (is_valid_message_type type) then (Some (Refused (failure Code.Unsupported "unassigned message type")), [], c)
  else if negb (guard_valid (cl_guard c)) then (Some (Refused not_connected), [], c)
  else if negb (cl_handshaken c) then
    (Some (Refused (failure Code.Unauthorized "handshake required before call")), [], c)
  else if max_frame_payload (cl_limits c) <? zlen payload then
    (Some (Refused (refuse_exhausted "frame payload" (zlen payload) (max_frame_payload (cl_limits c)))), [], c)
  else
    match take_sequence c with
    | (None, c) => (Some (Refused (failure Code.Exhausted "request sequence space exhausted")), [], c)
    | (Some sequence, c') => round_trip (call_frame type flags payload sequence c) ex c'
    end.

(** [close], from any thread. *)
Definition client_close (c : FrameClient) : Status * FrameClient :=
  let c := client_drop c in
  (success, mkClient (cl_guard c) (cl_limits c) false (cl_session c) (cl_epoch c) (cl_boot_digest c) (cl_next_seq c)
              (cl_exhausted c) (cl_decoder c)).

Definition client_connected (c : FrameClient) : bool := guard_valid (cl_guard c).
Definition next_sequence (c : FrameClient) : Z := cl_next_seq c.

(** * Histories *)

Inductive ClientOp :=
| OpHandshake (principal : string) (ex : Exchange)
| OpCall (type : Z) (payload : list Z) (flags : Z) (ex : Exchange)
| OpClose.

(** The frames an operation sends: those of calls are marked. *)
Definition client_step (op : ClientOp) (c : FrameClient) : list (bool * Frame) * FrameClient :=
  match op with
  | OpHandshake principal ex => let '(_, sent, c) := handshake principal ex c in (pair false <$> sent, c)
  | OpCall type payload flags ex => let '(_, sent, c) := call type payload flags ex c in (pair true <$> sent, c)
  | OpClose => ([], (client_close c).2)
  end.

Fixpoint client_run (ops : list ClientOp) (c : FrameClient) : list (bool * Frame) * FrameClient :=
  match ops with
  | [] => ([], c)
  | op :: ops => let '(sent, c) := client_step op c in let '(more, c) := client_run ops c in (sent ++ more, c)
  end.

Definition frame_seq (e : bool * Frame) : Z := fh_request_seq (fm_header e.2).

(** The bindings of the calls, as the server's registry sees them. *)
Definition call_bindings (log : list (bool * Frame)) : list SessionBinding :=
  (fun e => frame_binding (fm_header e.2)) <$> filter (fun e => e.1 = true) log.

(** * The sequence numbers *)

(** The first number that may still be handed out. *)
Definition fresh_from (c : FrameClient) : Z := if cl_exhausted c then two64 else cl_next_seq c.

(** Nobody can give the client another authority any more. *)
Definition settled (c : FrameClient) : Prop := cl_handshaken c = true \/ guard_valid (cl_guard c) = false.

Definition client_authority (c : FrameClient) : Z * Z * Z := (cl_session c, cl_epoch c, cl_boot_digest c).

(** What the network cannot change. *)
Definition client_identity (c : FrameClient) : Z * bool * bool * (Z * Z * Z) * Limits :=
  (cl_next_seq c, cl_exhausted c, cl_handshaken c, client_authority c, cl_limits c).

Lemma drop_settled c : settled (client_drop c).
Proof. right. unfold client_drop, guard_valid. cbn. by rewrite request_close_closing. Qed.

Lemma receive_response_client receptions c : let c' := (receive_response receptions c).2 in
  client_identity c' = client_identity c /\ (cl_guard c' = cl_guard c \/ settled c').
Proof.
  revert c. induction receptions as [|r receptions IH]; intros c; cbn [receive_response];
    destruct (stream_next (cl_decoder c)) as [decoded d]; destruct (fd_disposition decoded);
    try (by split; [|left]); try (by split; [|right; apply drop_settled]).
  destruct r as [bytes| |]; try (by split; [|right; apply drop_settled]).
  case_bool_decide; [by split; [|right; apply drop_settled]|]. destruct (stream_feed _ _ _) as [fed d2].
  destruct (negb (status_ok fed)); [by split; [|right; apply drop_settled]|].
  exact (IH (with_client_decoder (with_client_decoder c d) d2)).
Qed.

Lemma round_trip_client request ex c : let '(_, sent, c') := round_trip request ex c in
  client_identity c' = client_identity c /\ (cl_guard c' = cl_guard c \/ settled c')
  /\ (sent = [] \/ sent = [request]).
Proof.
  unfold round_trip. destruct (encode_frame _ _); [|by split_and!; [|left|left]].
  destruct (negb _); [by split_and!; [|left|left]|].
  destruct (negb _); [by split_and!; [|right; apply drop_settled|right]|].
  pose proof (receive_response_client (ex_receptions ex) c) as H. destruct (receive_response _ _) as [response c'].
  destruct H as [H1 H2]. split_and!; [done|done|by right].
Qed.

Lemma take_sequence_spec c : 1 <= cl_next_seq c <= UINT64_MAX ->
  let '(seq, c') := take_sequence c in
  cl_guard c' = cl_guard c /\ cl_handshaken c' = cl_handshaken c /\ client_authority c' = client_authority c
  /\ cl_limits c' = cl_limits c /\ 1 <= cl_next_seq c' <= UINT64_MAX /\ fresh_from c <= fresh_from c'
  /\ match seq with Some q => fresh_from c <= q < fresh_from c' /\ 1 <= q <= UINT64_MAX | None => True end.
Proof.
  intros Hr. unfold take_sequence, fresh_from. destruct (cl_exhausted c) eqn:He; [rewrite ?He; split_and!; try done; lia|]. cbn.
  destruct (cl_next_seq c =? UINT64_MAX) eqn:Hl; bool_prop; split_and!; try done; unfold UINT64_MAX in *; lia.
Qed.

(** What one operation does. *)
Record client_advances (c : FrameClient) (sent : list (bool * Frame)) (c' : FrameClient) : Prop := {
  ca_range : 1 <= cl_next_seq c' <= UINT64_MAX;
  ca_fresh : fresh_from c <= fresh_from c';
  ca_sent : sent = [] \/ exists e, sent = [e] /\ fresh_from c <= frame_seq e < fresh_from c' /\ 1 <= frame_seq e <= UINT64_MAX
    /\ (e.1 = true -> settled c
        /\ frame_binding (fm_header e.2) = mkBinding (cl_session c) (cl_epoch c) (cl_boot_digest c) (frame_seq e));
  ca_settled : settled c -> settled c' /\ client_authority c' = client_authority c
}.

Lemma client_advances_none c c' : 1 <= cl_next_seq c <= UINT64_MAX -> client_identity c' = client_identity c ->
  (cl_guard c' = cl_guard c \/ settled c') -> client_advances c [] c'.
Proof.
  intros Hr Hi Hg. unfold client_identity in Hi. injection Hi as H1 H2 H3 H4 H5.
  split; [by rewrite H1| |by left|].
  - unfold fresh_from. rewrite H1, H2. done.
  - intros Hs. split; [|unfold client_authority; congruence]. destruct Hg as [Hg|]; [|done].
    unfold settled in *. by rewrite Hg, H3.
Qed.

Lemma hello_outcome_client frame c : let c' := (hello_outcome frame c).2 in
  cl_next_seq c' = cl_next_seq c /\ cl_exhausted c' = cl_exhausted c /\ cl_guard c' = cl_guard c
  /\ (c' = c \/ cl_handshaken c' = true).
Proof. unfold hello_outcome. repeat first [split_test|split_match]; cbn; split_and!; try done; first [by left|by right]. Qed.

Lemma identity_fields c c' : client_identity c' = client_identity c ->
  cl_next_seq c' = cl_next_seq c /\ fresh_from c' = fresh_from c /\ cl_handshaken c' = cl_handshaken c
  /\ client_authority c' = client_authority c.
Proof. unfold client_identity, client_authority, fresh_from. intros [= H1 H2 H3 H4 H5 H6 H7].
  split_and!; [done|by rewrite H1, H2|done|congruence].
Qed.

Lemma handshake_advances principal ex c : 1 <= cl_next_seq c <= UINT64_MAX ->
  let '(_, sent, c') := handshake principal ex c in client_advances c (pair false <$> sent) c'.
Proof.
  intros Hr. unfold handshake. case_bool_decide; [by apply client_advances_none; [| |left]|].
  destruct (guard_valid (cl_guard c)) eqn:Hg; cbn [negb]; [|by apply client_advances_none; [| |left]].
  destruct (cl_handshaken c) eqn:Hh; [by apply client_advances_none; [| |left]|].
  assert (Hns : ~ settled c) by (unfold settled; rewrite Hh, Hg; naive_solver).
  pose proof (take_sequence_spec c Hr) as Ht. destruct (take_sequence c) as [[seq|] c1].
  2: { destruct Ht as (H1 & H2 & H3 & H4 & H5 & H6 & _). split; [done|done|by left|done]. }
  destruct Ht as (_ & _ & _ & _ & H5 & H6 & H7 & H8).
  pose proof (round_trip_client (hello_frame principal seq) ex c1) as Hrt.
  destruct (round_trip _ ex c1) as [[response sent] c2]. destruct Hrt as (Hi & _ & Hs).
  destruct (identity_fields _ _ Hi) as (Hn & Hf & _ & _).
  assert (Hsent : forall c3, cl_next_seq c3 = cl_next_seq c2 -> fresh_from c3 = fresh_from c2 ->
    client_advances c (pair false <$> sent) c3).
  { intros c3 Hn3 Hf3. split; [by rewrite Hn3, Hn|by rewrite Hf3, Hf| |done]. rewrite Hf3, Hf.
    destruct Hs as [-> | ->]; [by left|right]. by exists (false, hello_frame principal seq). }
  destruct response as [[frame|status]|]; [|by apply Hsent..].
  pose proof (hello_outcome_client frame c2) as (Ha & Hb & _). destruct (hello_outcome frame c2) as [status c3].
  apply Hsent; [done|]. cbn in Ha, Hb. unfold fresh_from. by rewrite Ha, Hb.
Qed.

Lemma call_advances type payload flags ex c : 1 <= cl_next_seq c <= UINT64_MAX ->
  let '(_, sent, c') := call type payload flags ex c in client_advances c (pair true <$> sent) c'.
Proof.
  intros Hr. unfold call. destruct (negb (is_valid_message_type type)); [by apply client_advances_none; [| |left]|].
  destruct (negb (guard_valid _)); [by apply client_advances_none; [| |left]|].
  destruct (cl_handshaken c) eqn:Hh; cbn [negb]; [|by apply client_advances_none; [| |left]].
  destruct (_ <? _); [by apply client_advances_none; [| |left]|].
  assert (Hset : settled c) by (by left).
  pose proof (take_sequence_spec c Hr) as Ht. destruct (take_sequence c) as [[seq|] c1].
  2: { destruct Ht as (H1 & H2 & H3 & H4 & H5 & H6 & _). split; [done|done|by left|]. intros _. split; [|done].
       left. by rewrite H2. }
  destruct Ht as (_ & H2 & H3 & _ & H5 & H6 & H7 & H8).
  pose proof (round_trip_client (call_frame type flags payload seq c) ex c1) as Hrt.
  destruct (round_trip _ ex c1) as [[response sent] c2]. destruct Hrt as (Hi & _ & Hs).
  destruct (identity_fields _ _ Hi) as (Hn & Hf & Hhs & Hau). split.
  - by rewrite Hn.
  - by rewrite Hf.
  - rewrite Hf. destruct Hs as [-> | ->]; [by left|right]. by exists (true, call_frame type flags payload seq c).
  - intros _. split; [left|]; congruence.
Qed.

Lemma client_step_advances op c : 1 <= cl_next_seq c <= UINT64_MAX ->
  client_advances c (client_step op c).1 (client_step op c).2.
Proof.
  intros Hr. destruct op as [principal ex|type payload flags ex|]; cbn [client_step].
  - pose proof (handshake_advances principal ex c Hr) as H. by destruct (handshake principal ex c) as [[r sent] c'].
  - pose proof (call_advances type payload flags ex c Hr) as H. by destruct (call type payload flags ex c) as [[r sent] c'].
  - split; [done|done|by left|]. intros _. split; [|done]. right. unfold guard_valid. cbn. by rewrite request_close_closing.
Qed.

Lemma client_run_spec ops c : 1 <= cl_next_seq c <= UINT64_MAX ->
  let '(log, c') := client_run ops c in
  canonical (frame_seq <$> log)
  /\ Forall (fun e => fresh_from c <= frame_seq e /\ 1 <= frame_seq e <= UINT64_MAX) log
  /\ Forall (fun e => e.1 = true ->
       frame_binding (fm_header e.2) = mkBinding (cl_session c') (cl_epoch c') (cl_boot_digest c') (frame_seq e)) log
  /\ (settled c -> client_authority c' = client_authority c).
Proof.
  revert c. induction ops as [|op ops IH]; intros c Hr; cbn [client_run].
  { split_and!; [constructor|constructor|constructor|done]. }
  destruct (client_step_advances op c Hr) as [Hr1 Hf1 Hs1 Hst1]. destruct (client_step op c) as [sent c1]. cbn [fst snd] in *.
  specialize (IH c1 Hr1). destruct (client_run ops c1) as [more c2]. destruct IH as (Hc & Hall & Hb & Hau).
  assert (Hall' : Forall (fun e => fresh_from c <= frame_seq e /\ 1 <= frame_seq e <= UINT64_MAX) more)
    by (eapply Forall_impl; [exact Hall|]; intros e; cbn; lia).
  assert (Hau' : settled c -> client_authority c2 = client_authority c)
    by (intros Hs; destruct (Hst1 Hs) as [Hs' <-]; by apply Hau).
  destruct Hs1 as [->|(e & -> & Hq & Hq2 & Hbind)]; [by split_and!|]. cbn [app fmap list_fmap]. split_and!; [| | |done].
  - apply canonical_cons; [done|]. intros y (e' & -> & He')%list_elem_of_fmap.
    rewrite Forall_forall in Hall. destruct (Hall e' He') as [? _]. apply Z.ltb_lt. lia.
  - constructor; [lia|done].
  - constructor; [|done]. intros He. destruct (Hbind He) as [Hs ->]. specialize (Hau' Hs).
    unfold client_authority in Hau'. by injection Hau' as -> -> ->.
Qed.

(** The server authorises the requests of one session, one after the other. *)
Fixpoint authorise_all (bindings : list SessionBinding) (epoch boot_digest : Z) (r : SessionRegistry) :
  list Status * SessionRegistry :=
  match bindings with
  | [] => ([], r)
  | b :: bindings =>
      let '(status, r) := authorise b epoch boot_digest r in
      let '(more, r) := authorise_all bindings epoch boot_digest r in (status :: more, r)
  end.

Lemma authorise_increasing session epoch boot_digest seqs r s :
  boot_digest <> 0 -> canonical seqs -> map_find session (sg_sessions r) = Some s -> sr_closed s = false ->
  sr_epoch s = epoch -> Forall (fun q => sr_last_request_seq s < q) seqs ->
  Forall (fun st => status_ok st = true)
    (authorise_all ((fun q => mkBinding session epoch boot_digest q) <$> seqs) epoch boot_digest r).1.
Proof.
  intros Hb. revert r s. induction seqs as [|q seqs IH]; intros r s Hc Hf Hcl He Hlt; [constructor|].
  apply canonical_inv in Hc as [Hc Hq]. inversion_clear Hlt as [|? ? Hq0 Hrest]. cbn [fmap list_fmap authorise_all].
  destruct (authorise_cases (mkBinding session epoch boot_digest q) epoch boot_digest r) as [(s' & Hf' & _ & Ha)|(Hna & _)].
  - cbn [sb_session sb_request_seq] in *. rewrite Ha. rewrite Hf in Hf'. injection Hf' as <-.
    specialize (IH (with_sessions r (map_set session (session_consume s q) (sg_sessions r))) (session_consume s q) Hc).
    destruct (authorise_all _ _ _ _) as [more r']. cbn [fst] in *. constructor; [done|]. apply IH; [|done|done|].
    + cbn. apply map_find_set_eq.
    + apply Forall_forall. intros y Hy. cbn. by apply Z.ltb_lt, Hq.
  - exfalso. apply Hna. exists s. by split_and!.
Qed.

Lemma canonical_calls log : canonical (frame_seq <$> log) -> canonical (frame_seq <$> filter (fun e => e.1 = true) log).
Proof.
  induction log as [|e log IH]; [done|]. cbn [fmap list_fmap]. intros [Hc Hall]%canonical_inv.
  rewrite filter_cons. case_decide; [|by apply IH]. apply canonical_cons; [by apply IH|].
  intros y (e' & -> & [_ He']%list_elem_of_filter)%list_elem_of_fmap. apply Hall. by apply list_elem_of_fmap_2.
Qed.

(** C13. A client never repeats a request: from the moment it is connected,
    whatever sequence of handshakes, calls and closes it makes and whatever the
    network does, the request sequence numbers of the frames it sends strictly
    increase and never wrap around; every call carries the one session authority
    the client ever adopts; and a server whose registry holds that session, open
    and in the same epoch and incarnation, authorises all the calls that reach
    it in order: none is refused as a replay. *)
Theorem client_never_replays (host : string) (port : Z) (limits : Limits) (ready : Status) (socket : Result Socket)
  (c : FrameClient) (ops : list ClientOp) :
  client_connect host port limits ready socket = Value c ->
  let '(log, c') := client_run ops c in
  canonical (frame_seq <$> log) /\ Forall (fun e => 1 <= frame_seq e <= UINT64_MAX) log
  /\ call_bindings log = mkBinding (cl_session c') (cl_epoch c') (cl_boot_digest c')
                           <$> (frame_seq <$> filter (fun e => e.1 = true) log)
  /\ forall r s, map_find (cl_session c') (sg_sessions r) = Some s -> sr_closed s = false ->
       sr_epoch s = cl_epoch c' -> sr_last_request_seq s = 0 -> cl_boot_digest c' <> 0 ->
       Forall (fun status => status_ok status = true)
         (authorise_all (call_bindings log) (cl_epoch c') (cl_boot_digest c') r).1.
Proof.
  intros Hcon. assert (Hr : 1 <= cl_next_seq c <= UINT64_MAX).
  { unfold client_connect in Hcon. repeat first [split_test|split_match]; try discriminate Hcon. by injection Hcon as <-. }
  pose proof (client_run_spec ops c Hr) as H. destruct (client_run ops c) as [log c'].
  destruct H as (Hc & Hall & Hb & _).
  assert (Hrange : Forall (fun e => 1 <= frame_seq e <= UINT64_MAX) log) by (eapply Forall_impl; [exact Hall|]; by intros e [_ ?]).
  assert (Hbind : call_bindings log = mkBinding (cl_session c') (cl_epoch c') (cl_boot_digest c')
                           <$> (frame_seq <$> filter (fun e => e.1 = true) log)).
  { unfold call_bindings. rewrite <- list_fmap_compose. apply list_fmap_ext. intros i e Hi.
    apply list_elem_of_lookup_2, list_elem_of_filter in Hi as [He Hin]. rewrite Forall_forall in Hb. by apply Hb. }
  split_and!; [done|done|done|]. intros r s Hf Hcl He Hl Hbd. rewrite Hbind.
  apply (authorise_increasing _ _ _ _ _ s); [done|by apply canonical_calls|done|done|done|].
  apply Forall_fmap, Forall_forall. intros e [_ Hin]%list_elem_of_filter. rewrite Forall_forall in Hrange.
  specialize (Hrange e Hin). cbn. lia.
Qed.

(** * A call and its response *)

Lemma encode_frame_any f limits limits' bs : encode_frame f limits = Value bs ->
  zlen (fm_payload f) <= frame_payload_ceiling limits' -> encode_frame f limits' = Value bs.
Proof.
  intros He Hl. destruct (encode_frame_value _ _ _ He) as (-> & _). unfold encode_frame.
  by rewrite (proj2 (Z.ltb_ge _ _)).
Qed.

Lemma chunk_short (chunks : list (list Z)) chunk : chunk ∈ chunks -> zlen chunk <= zlen (concat chunks).
Proof.
  induction chunks as [|c chunks IH]; [by intros ?%elem_of_nil|]. cbn [concat]. rewrite zlen_app.
  pose proof (zlen_nonneg c). pose proof (zlen_nonneg (concat chunks)). intros [<-|?%IH]%elem_of_cons; lia.
Qed.

Lemma encoded_short f limits bs : encode_frame f limits = Value bs -> zlen bs <= frame_bytes_max limits.
Proof. intros He. destruct (encode_frame_value _ _ _ He) as (_ & _ & _ & ? & ?). unfold frame_bytes_max. lia. Qed.

Lemma frame_ok_sealed f : frame_ok f -> frame_ok (sealed_frame f).
Proof. intros [[] Hv Ht Hp]. by split; [split|..]. Qed.

(** The receiving loop over the encoding of one frame, cut anywhere. *)
Lemma receive_response_encoded limits r bs downs q c :
  0 <= max_frame_payload limits -> frame_ok r -> encode_frame r limits = Value bs ->
  Forall (fun d => d <> []) downs -> cl_decoder c = stream_at limits q -> q ++ concat downs = bs ->
  receive_response (Received <$> downs) c = (Some (Value (sealed_frame r)), with_client_decoder c (stream_at limits [])).
Proof.
  intros H0 Hok He Hne. revert q c. induction Hne as [|d downs Hd _ IH]; intros q c Hc Hq.
  - cbn [concat] in Hq. rewrite app_nil_r in Hq. cbn [fmap list_fmap receive_response].
    pose proof (stream_next_encoded r limits bs [] Hok He) as Hn. rewrite app_nil_r, <- Hq in Hn. by rewrite Hc, Hn.
  - cbn [concat] in Hq. cbn [fmap list_fmap receive_response].
    assert (Hp : strict_prefix q bs).
    { exists (d ++ concat downs). split; [|done]. intros [? _]%app_nil. done. }
    rewrite Hc, stream_next_at, (decode_frame_prefix r limits bs) by done. cbn [fd_disposition incomplete make_failure].
    rewrite bool_decide_false by done. cbn [cl_decoder with_client_decoder].
    pose proof (strict_prefix_length _ _ Hp) as Hl. pose proof (encoded_short _ _ _ He).
    assert (zlen d <= zlen bs).
    { rewrite <- Hq, !zlen_app. pose proof (zlen_nonneg q). pose proof (zlen_nonneg (concat downs)). lia. }
    rewrite stream_feed_at by (done || lia). change (status_ok success) with true. cbn [negb].
    rewrite (IH (q ++ d)); [done|done|by rewrite <- app_assoc].
Qed.

(** The server's side: the bytes of some requests, cut anywhere, get a response each. *)
Lemma requests_answered {P : Peer} {S : Type} (handler : S -> Frame -> Handled * S) limits fs bss ups top s cv :
  (forall s f, handled_typed (handler s f).1) -> kTextBudget <= frame_payload_ceiling limits -> steady P ->
  0 <= max_frame_payload limits -> encodings limits fs bss -> Forall (fun d => zlen d <= frame_bytes_max limits) ups ->
  Forall (Forall in_u8) ups -> Forall (fun d => d <> []) ups -> concat ups = concat bss -> cv_decoder cv = stream_new limits ->
  let '(waiting, s', cv') := serve_connection handler limits (Received <$> ups) top s cv in
  waiting = true /\ s' = (handle_all handler s (sealed_frame <$> fs)).2
  /\ exists outs, cv_sent cv' = cv_sent cv ++ outs
     /\ Forall3 (answers limits) (sealed_frame <$> fs) (handle_all handler s (sealed_frame <$> fs)).1 outs.
Proof.
  intros Hty Hfit Hst H0 Henc Hz Hu Hne Hcat Hcv.
  pose proof (serve_connection_spec handler limits Hty Hfit ups top s cv [] (Forall_nil_2 _) Hu Hne Hcv) as Hcu.
  rewrite arrivals_empty in Hcu.
  assert (Hrun : stream_run ups (stream_new limits) = (sealed_frame <$> fs, success, stream_at limits [])).
  { apply (stream_run_conforming limits ups fs bss []); [done|done| |done|done].
    destruct Henc as [|f bs fs' bss' [_ Hf] _]; [done|]. exists bs. destruct (encode_frame_value _ _ _ Hf) as (-> & _). done. }
  rewrite Hrun in Hcu. cbn [fst] in Hcu.
  destruct (serve_connection _ _ _ _ _ _) as [[w s'] cv']. destruct Hcu as [_ _ Hs]. cbn [fst snd] in Hs.
  destruct (Hs Hst) as (-> & [_ -> _ Hsent _ _] & _). split_and!; [done|done|]. eexists. split; [exact Hsent|].
  apply replies_answer; [done|done|]. clear -Henc. induction Henc as [|f bs fs bss [Hf _] _ IH]; [constructor|].
  constructor; [by apply frame_ok_sealed|done].
Qed.

Lemma request_answered {P : Peer} {S : Type} (handler : S -> Frame -> Handled * S) limits request bs ups top s cv :
  (forall s f, handled_typed (handler s f).1) -> kTextBudget <= frame_payload_ceiling limits -> steady P ->
  0 <= max_frame_payload limits -> frame_ok request -> encode_frame request limits = Value bs ->
  Forall (Forall in_u8) ups -> Forall (fun d => d <> []) ups -> concat ups = bs -> cv_decoder cv = stream_new limits ->
  let '(waiting, s', cv') := serve_connection handler limits (Received <$> ups) top s cv in
  let h := (handler s (sealed_frame request)).1 in
  waiting = true /\ s' = (handler s (sealed_frame request)).2
  /\ exists out, cv_sent cv' = cv_sent cv ++ [out] /\ answers limits (sealed_frame request) h out.
Proof.
  intros Hty Hfit Hst H0 Hok He Hu Hne Hcat Hcv.
  pose proof (requests_answered handler limits [request] [bs] ups top s cv Hty Hfit Hst H0) as H.
  destruct (serve_connection _ _ _ _ _ _) as [[w s'] cv']. destruct H as (-> & Hs & outs & Hsent & Ha).
  - by constructor; [|constructor].
  - apply Forall_forall. intros d Hd%chunk_short. rewrite Hcat in Hd. pose proof (encoded_short _ _ _ He). lia.
  - done.
  - done.
  - cbn. by rewrite app_nil_r.
  - done.
  - cbn [fmap list_fmap] in Hs, Ha. rewrite handle_all_state in Hs. cbn [handle_all snd] in Hs.
    cbn [handle_all] in Ha. destruct (handler s (sealed_frame request)) as [h s2]. cbn [fst snd] in *.
    apply Forall3_cons_inv_l in Ha as (h' & hs & out & outs' & [= <- <-] & -> & Hout & Hnil). inversion_clear Hnil in Hsent.
    split_and!; [done|done|]. by exists out.
Qed.

(** A client that can call: connected, with an adopted authority, nothing left
    over in its decoder and sequence numbers to hand out. *)
Record client_ready (c : FrameClient) : Prop := {
  cr_connected : guard_valid (cl_guard c) = true;
  cr_handshaken : cl_handshaken c = true;
  cr_decoder : cl_decoder c = stream_new limits_defaults;
  cr_seq : cl_exhausted c = false /\ 1 <= cl_next_seq c <= UINT64_MAX;
  cr_authority : in_u64 (cl_session c) /\ in_u64 (cl_epoch c) /\ in_u64 (cl_boot_digest c)
}.

Lemma call_frame_ok type flags payload c : client_ready c -> is_valid_message_type type = true -> in_u32 flags ->
  Forall in_u8 payload -> frame_ok (call_frame type flags payload (cl_next_seq c) c).
Proof.
  intros [_ _ _ [_ Hq] (Hs & He & Hb)] Ht Hf Hp. split; [|done|done|done].
  split; [done|by apply valid_type_u16|done|done|done|done|]. unfold UINT64_MAX in Hq. ints. cbn. lia.
Qed.

(** A round trip whose request is on the wire. *)
Lemma round_trip_receives request downs r out c :
  guard_valid (cl_guard c) = true -> cl_decoder c = stream_new limits_defaults ->
  zlen (fm_payload request) <= frame_payload_ceiling (cl_limits c) ->
  frame_ok r -> encode_frame r limits_defaults = Value out -> Forall (fun d => d <> []) downs -> concat downs = out ->
  round_trip request (mkExchange success (Received <$> downs)) c = (Some (Value (sealed_frame r)), [request], c).
Proof.
  intros Hg Hd Hz Hok He Hne Hcat. unfold round_trip. destruct (encode_frame_fits request (cl_limits c) Hz) as [bs ->].
  assert (Hb : (guard_begin (cl_guard c)).1 = true).
  { unfold guard_begin, guard_valid in *. apply andb_prop in Hg as [Hc ->]. by destruct (gs_closing (cl_guard c)). }
  rewrite Hb. cbn [negb ex_sent ex_receptions]. change (status_ok success) with true. cbn [negb].
  rewrite (receive_response_encoded limits_defaults r out downs [] c); [|done..].
  unfold with_client_decoder. destruct c. cbn in *. by rewrite Hd.
Qed.

(** The call of such a client, once its request is on the wire. *)
Lemma call_receives type flags payload downs r out c :
  client_ready c -> is_valid_message_type type = true -> zlen payload <= frame_payload_ceiling (cl_limits c) ->
  frame_ok r -> encode_frame r limits_defaults = Value out -> Forall (fun d => d <> []) downs -> concat downs = out ->
  call type payload flags (mkExchange success (Received <$> downs)) c
  = (Some (Value (sealed_frame r)), [call_frame type flags payload (cl_next_seq c) c], (take_sequence c).2).
Proof.
  intros [Hg Hh Hd [Hx Hq] _] Ht Hz Hok He Hne Hcat. unfold call. rewrite Ht, Hg, Hh. cbn [negb].
  rewrite (proj2 (Z.ltb_ge _ _)) by (unfold frame_payload_ceiling in Hz; lia).
  unfold take_sequence. rewrite Hx. cbn [snd]. by apply (round_trip_receives _ downs r out).
Qed.

Lemma call_answered {P : Peer} {S : Type} (handler : S -> Frame -> Handled * S) (limits : Limits)
  (type flags : Z) (payload : list Z) (c : FrameClient) (s : S) (cv : Conversation) (ups : list (list Z)) :
  (forall s f, handled_typed (handler s f).1) -> kTextBudget <= frame_payload_ceiling limits -> steady P ->
  client_ready c -> is_valid_message_type type = true -> in_u32 flags -> Forall in_u8 payload ->
  zlen payload <= frame_payload_ceiling (cl_limits c) -> zlen payload <= frame_payload_ceiling limits ->
  cv_decoder cv = stream_new limits -> Forall (Forall in_u8) ups -> Forall (fun d => d <> []) ups ->
  let request := call_frame type flags payload (cl_next_seq c) c in
  encode_frame request (cl_limits c) = Value (concat ups) ->
  let h := (handler s (sealed_frame request)).1 in
  let '(waiting, s', cv') := serve_connection handler limits (Received <$> ups) true s cv in
  waiting = true /\ s' = (handler s (sealed_frame request)).2
  /\ exists out, cv_sent cv' = cv_sent cv ++ [out]
     /\ forall downs, Forall (fun d => d <> []) downs -> concat downs = out ->
          zlen out <= frame_bytes_max limits_defaults ->
          exists f, call type payload flags (mkExchange success (Received <$> downs)) c
                    = (Some (Value f), [request], (take_sequence c).2)
            /\ frame_binding (fm_header f) = frame_binding (fm_header request)
            /\ (if carried limits h then
                  fh_type (fm_header f) = fh_type (fm_header (handled_response h))
                  /\ fh_flags (fm_header f) = fh_flags (fm_header (handled_response h))
                  /\ fm_payload f = fm_payload (handled_response h)
                else
                  fh_type (fm_header f) = message_type_raw MessageType.Error
                  /\ exists detail, decode_error_payload (fm_payload f) = Value (refusal_code h, detail)).
Proof.
  intros Hty Hfit Hst Hr Ht Hf Hp Hzc Hzs Hcv Hu Hne request He h.
  pose proof (call_frame_ok type flags payload c Hr Ht Hf Hp) as Hok.
  pose proof (encode_frame_any request _ limits _ He Hzs) as Hes.
  assert (H0 : 0 <= max_frame_payload limits).
  { unfold frame_payload_ceiling, kTextBudget, kMaxMessageBytes in Hfit. lia. }
  pose proof (request_answered handler limits request _ ups true s cv Hty Hfit Hst H0 Hok Hes Hu Hne eq_refl Hcv) as H.
  destruct (serve_connection _ _ _ _ _ _) as [[w s'] cv']. destruct H as (-> & -> & out & Hsent & r & Hokr & Her & Hb & Hc).
  split_and!; [done|done|]. exists out. split; [done|]. intros downs Hnd Hcat Hz.
  assert (Hzr : zlen (fm_payload r) <= frame_payload_ceiling limits_defaults).
  { destruct (encode_frame_value _ _ _ Her) as (_ & _ & _ & _ & Hl). unfold frame_bytes_max in Hz. lia. }
  exists (sealed_frame r). split; [|done].
  by apply (call_receives type flags payload downs r out c); [..|apply (encode_frame_any r limits)|done|done].
Qed.

(** A call gets the answer to its own request: when a ready client calls a
    server whose conversation is between requests, and the request reaches the
    server and the response the client, cut into pieces in any way, then the
    server runs its handler once, on the request as it was made, and answers
    once; and when that answer is within the payload bound of the client's
    decoder the call returns it: a frame with the session, epoch, boot digest and
    sequence number of the request, with the handler's type, flags and payload
    when they can be sent and otherwise an error with the code of the refusal. *)
Theorem call_gets_its_answer {P : Peer} {S : Type} (handler : S -> Frame -> Handled * S) (limits : Limits)
  (type flags : Z) (payload : list Z) (c : FrameClient) (s : S) (cv : Conversation) (ups : list (list Z)) :
  (forall s f, handled_typed (handler s f).1) -> kTextBudget <= frame_payload_ceiling limits -> steady P ->
  client_ready c -> is_valid_message_type type = true -> in_u32 flags -> Forall in_u8 payload ->
  zlen payload <= frame_payload_ceiling (cl_limits c) -> zlen payload <= frame_payload_ceiling limits ->
  cv_decoder cv = stream_new limits -> Forall (Forall in_u8) ups -> Forall (fun d => d <> []) ups ->
  let request := call_frame type flags payload (cl_next_seq c) c in
  encode_frame request (cl_limits c) = Value (concat ups) ->
  let h := (handler s (sealed_frame request)).1 in
  let '(waiting, s', cv') := serve_connection handler limits (Received <$> ups) true s cv in
  waiting = true /\ s' = (handler s (sealed_frame request)).2
  /\ exists out, cv_sent cv' = cv_sent cv ++ [out]
     /\ forall downs, Forall (fun d => d <> []) downs -> concat downs = out ->
          zlen out <= frame_bytes_max limits_defaults ->
          exists f, call type payload flags (mkExchange success (Received <$> downs)) c
                    = (Some (Value f), [request], (take_sequence c).2)
            /\ frame_binding (fm_header f) = frame_binding (fm_header request)
            /\ (if carried limits h then
                  fh_type (fm_header f) = fh_type (fm_header (handled_response h))
                  /\ fh_flags (fm_header f) = fh_flags (fm_header (handled_response h))
                  /\ fm_payload f = fm_payload (handled_response h)
                else
                  fh_type (fm_header f) = message_type_raw MessageType.Error
                  /\ exists detail, decode_error_payload (fm_payload f) = Value (refusal_code h, detail)).
Proof. apply call_answered. Qed.

(** ** A concrete call *)

Definition sample_client : FrameClient :=
  mkClient (guard_of (Some 4)) limits_defaults true 1 5 77 3 false (stream_new limits_defaults).

Lemma sample_ready : client_ready sample_client.
Proof. split; [done|done|done|vm_compute; split; [done|split; congruence]|vm_compute; split_and!; congruence]. Qed.

(** The bytes of its request, and of the response of a handler. *)
Definition sample_request : Frame := call_frame 3 0 [1; 2] 3 sample_client.
Definition sample_up : list Z := Eval vm_compute in frame_encoding sample_request.
Definition sample_served : bool * Z * Conversation :=
  serve_connection (P := steady_peer) alternating_handler limits_defaults (Received <$> [take 20 sample_up; drop 20 sample_up])
    true 0 (conversation_new limits_defaults).
Definition sample_down : list Z := Eval vm_compute in default [] (last (cv_sent sample_served.2)).

Lemma sample_served_sent : cv_sent sample_served.2 = [sample_down].
Proof. vm_compute. reflexivity. Qed.

Lemma call_gets_its_answer_witness :
  exists f, call 3 [1; 2] 0 (mkExchange success (Received <$> [take 7 sample_down; drop 7 sample_down])) sample_client
      = (Some (Value f), [sample_request], (take_sequence sample_client).2)
    /\ fh_request_seq (fm_header f) = 3 /\ fm_payload f = [7; 8].
Proof.
  pose proof (call_gets_its_answer (P := steady_peer) alternating_handler limits_defaults 3 0 [1; 2] sample_client 0
    (conversation_new limits_defaults) [take 20 sample_up; drop 20 sample_up]) as H.
  cbn zeta in H. fold sample_served in H. pose proof sample_served_sent as Hs.
  destruct sample_served as [[w s'] cv']. cbn [snd] in Hs.
  destruct H as (_ & _ & out & Hout & Hcall).
  - intros m f. apply alternating_typed.
  - vm_compute. congruence.
  - done.
  - apply sample_ready.
  - done.
  - ints_lia.
  - repeat constructor; ints_lia.
  - vm_compute. congruence.
  - vm_compute. congruence.
  - done.
  - repeat constructor; vm_compute; congruence.
  - repeat constructor; discriminate.
  - vm_compute. reflexivity.
  - rewrite Hs in Hout. cbn [conversation_new cv_sent app] in Hout. injection Hout as <-.
    destruct (Hcall [take 7 sample_down; drop 7 sample_down]) as (f & Hf & Hb & Hc).
    + repeat constructor; discriminate.
    + vm_compute. reflexivity.
    + vm_compute. congruence.
    + exists f. split; [exact Hf|]. destruct Hc as (_ & _ & Hp). split; [|exact Hp].
      exact (f_equal sb_request_seq Hb).
Defined.

(** ** A concrete history *)

Definition reply_bytes (type seq : Z) (payload : list Z) : list Z :=
  frame_encoding (mkFrame (mkFrameHeader kFrameMagic kFrameFormatVersion type 0 1 5 77 seq 0 0) payload 0).

Definition ack_bytes : list Z := Eval vm_compute in
  reply_bytes 2 1 (encode_hello_response (mkHelloResponse 1 5 77 1 0 Code.Ok)).
Definition result_bytes : list Z := Eval vm_compute in reply_bytes 4 2 [].

(** A handshake, a second one, an answered call, one that the peer closes, and a last one. *)
Definition sample_history : list ClientOp :=
  [OpHandshake "p" (mkExchange success [Received ack_bytes]); OpHandshake "p" (mkExchange success []);
   OpCall 3 [1] 0 (mkExchange success [Received (take 30 result_bytes); Received (drop 30 result_bytes)]);
   OpCall 3 [2] 0 (mkExchange success [Received []]); OpCall 3 [3] 0 (mkExchange success [])].

Definition sample_connected : FrameClient :=
  mkClient (guard_of (Some 4)) limits_defaults false 0 0 0 1 false (stream_new limits_defaults).

Definition sample_registry : SessionRegistry :=
  mkSessions limits_defaults [(1, mkSession 1 "p" 5 boot_none 0 0 false)] 2 0.

Lemma client_never_replays_witness :
  let '(log, c) := client_run sample_history sample_connected in
  canonical (frame_seq <$> log) /\ call_bindings log = [mkBinding 1 5 77 2; mkBinding 1 5 77 3]
  /\ Forall (fun status => status_ok status = true) (authorise_all (call_bindings log) 5 77 sample_registry).1.
Proof.
  pose proof (client_never_replays "h" 80 limits_defaults success (Value (Some 4)) sample_connected sample_history eq_refl) as H.
  assert (Hrun : (client_run sample_history sample_connected).2
    = mkClient (mkGuard None true 0) limits_defaults true 1 5 77 4 false (stream_new limits_defaults)
    /\ call_bindings (client_run sample_history sample_connected).1 = [mkBinding 1 5 77 2; mkBinding 1 5 77 3])
    by (vm_compute; split; reflexivity).
  destruct (client_run sample_history sample_connected) as [log c]. cbn [fst snd] in Hrun. destruct Hrun as [-> Hb].
  destruct H as (Hc & _ & _ & Ha). split_and!; [exact Hc|exact Hb|].
  apply (Ha sample_registry (mkSession 1 "p" 5 boot_none 0 0 false)); [reflexivity|reflexivity|reflexivity|reflexivity|discriminate].
Defined.

(** ** What the client does not check *)

Definition received_frame (r : option (Result Frame)) : option Frame :=
  match r with Some (Value f) => Some f | _ => None end.

(** A client connected with a small payload bound still takes a response
    beyond it: its decoder was made with the default limits. *)
Theorem client_decoder_ignores_limits :
  match client_connect "h" 80 (with_max_frame_payload limits_defaults 4) success (Value (Some 4)) with
  | Value c =>
      max_frame_payload (cl_limits c) = 4
      /\ (fun f => zlen (fm_payload f)) <$> received_frame (receive_response [Received (reply_bytes 4 1 [1; 2; 3; 4; 5; 6])] c).1
         = Some 6
  | Refused _ => False
  end.
Proof. vm_compute. split; reflexivity. Qed.

(** A response with another sequence number than the request's is returned as its answer. *)
Theorem client_accepts_other_sequence :
  (fun f => fh_request_seq (fm_header f))
    <$> received_frame (call 3 [] 0 (mkExchange success [Received (reply_bytes 4 9 [])]) sample_client).1.1 = Some 9
  /\ cl_next_seq sample_client = 3.
Proof. vm_compute. split; reflexivity. Qed.
