(* ===== verification/CommandLine.v ===== *)
(** The command line of the driver (tools/sffctl.cpp): the strict option parser
    and the parsers of numbers, ports and dependents, with what they accept. A
    character is its byte. *)

From S2P Require Import Prelude Containers Core Bytes Integrity.

(** * Text *)

Definition quoted_text (text : string) : string :=
  String (Ascii.ascii_of_nat 34) (text +:+ String (Ascii.ascii_of_nat 34) EmptyString).

Definition hex64 (value : Z) : string := "0x" +:+ hex_digits value 16.

(** * Options *)

(** Options in the order they were given; a name occurs once. *)
Definition Options : Type := list (string * string).

Definition find_option (name : string) (options : Options) : option string :=
  snd <$> List.find (fun o => bool_decide (o.1 = name)) options.

(** [has] and [value]. *)
Definition has_option (name : string) (options : Options) : bool := bool_decide (is_Some (find_option name options)).
Definition option_value (name : string) (options : Options) : string := default "" (find_option name options).

(** `token.size() < 3 || token.rfind("--", 0) != 0` *)
Definition is_option_token (token : string) : bool := negb (str_size token <? 3) && bool_decide (str_prefix 2 token = "--").
Definition option_name (token : string) : string := String.substring 2 (String.length token - 2) token.

(** The loop of [CommandLine::parse] from the first option on. *)
Fixpoint parse_options (allowed : list string) (tokens : list string) (options : Options) : string + Options :=
  match tokens with
  | [] => inr options
  | token :: rest =>
      if negb (is_option_token token) then inl ("expected an option beginning with '--', found " +:+ quoted_text token)
      else if negb (bool_decide (option_name token ∈ allowed)) then inl ("unknown option " +:+ quoted_text token)
      else
        match rest with
        | [] => inl ("option " +:+ quoted_text token +:+ " requires a value")
        | value :: rest =>
            if has_option (option_name token) options then
              inl ("option " +:+ quoted_text token +:+ " was supplied more than once")
            else parse_options allowed rest (options ++ [(option_name token, value)])
        end
  end.

Definition command_parse (args : list string) (first : nat) (allowed : list string) : string + Options :=
  parse_options allowed (drop first args) [].

(** * Numbers *)

Definition UINT64_LAST : Z := two64 - 1.

(** `for (const char character : text)` *)
Fixpoint parse_digits (text : list Z) (value : Z) : option Z :=
  match text with
  | [] => Some value
  | character :: text =>
      if (character <? 48) || (57 <? character) then None
      else
        let digit := character - 48 in
        if (UINT64_LAST - digit) / 10 <? value then None else parse_digits text (value * 10 + digit)
  end.

Definition parse_u64 (text : string) : option Z :=
  if bool_decide (text = "") then None else parse_digits (string_bytes text) 0.

Definition parse_port (text : string) : option Z :=
  match parse_u64 text with Some value => if 65535 <? value then None else Some value | None => None end.

Definition parse_size (text : string) : option Z :=
  match parse_u64 text with Some value => if SIZE_MAX <? value then None else Some value | None => None end.

(** * Dependents *)

Definition ascii_upper (character : Z) : Z :=
  if (97 <=? character) && (character <=? 122) then character - 97 + 65 else character.

Definition equals_ascii_upper (text upper : list Z) : bool :=
  (zlen text =? zlen upper) && bool_decide (ascii_upper <$> text = upper).

(** The text before and after the first colon. *)
Fixpoint split_colon (text : list Z) : option (list Z * list Z) :=
  match text with
  | [] => None
  | character :: text =>
      if character =? 58 then Some ([], text)
      else match split_colon text with Some (kind, id) => Some (character :: kind, id) | None => None end
  end.

Definition dependent_named (kind : list Z) (id : Z) : option DependentRef :=
  if equals_ascii_upper kind (string_bytes "PORT") then Some (dependent_port id)
  else if equals_ascii_upper kind (string_bytes "LINK") then Some (dependent_link id)
  else if equals_ascii_upper kind (string_bytes "PATH") then Some (dependent_path id)
  else if equals_ascii_upper kind (string_bytes "SERVICE") then Some (dependent_service id)
  else None.

Definition parse_dependent (text : string) : option DependentRef :=
  match split_colon (string_bytes text) with
  | None => None
  | Some (kind, id_text) =>
      match parse_u64 (bytes_string id_text) with
      | None => None
      | Some id =>
          if id =? 0 then None
          else match dependent_named kind id with
               | Some d => if dependent_valid d then Some d else None
               | None => None
               end
      end
  end.

(** * What is accepted *)

(** The number a text of decimal digits denotes, however large. *)
Definition decimal_value (text : list Z) (value : Z) : Z := foldl (fun v c => v * 10 + (c - 48)) value text.

Definition is_digit (character : Z) : Prop := 48 <= character <= 57.

Lemma decimal_value_grows text value : 0 <= value -> Forall is_digit text -> value <= decimal_value text value.
Proof.
  intros Hv Hall. revert value Hv. induction Hall as [|c text Hc _ IH]; intros value Hv; [done|].
  unfold decimal_value in *. cbn [foldl]. unfold is_digit in Hc. specialize (IH (value * 10 + (c - 48)) ltac:(lia)). lia.
Qed.

Lemma parse_digits_exact text value v : 0 <= value -> value <= UINT64_LAST ->
  parse_digits text value = Some v
  <-> Forall is_digit text /\ v = decimal_value text value /\ v <= UINT64_LAST.
Proof.
  revert value. induction text as [|c text IH]; intros value H0 Hv; cbn [parse_digits].
  { unfold decimal_value. cbn. split; [intros [= <-]; by split_and!|by intros (_ & -> & _)]. }
  destruct ((c <? 48) || (57 <? c)) eqn:Hd.
  { split; [done|]. intros (Hall & _). inversion_clear Hall as [|? ? Hc _]. unfold is_digit in Hc. lia. }
  assert (Hc : is_digit c) by (unfold is_digit; lia).
  destruct (_ <? value) eqn:Ho; bool_prop.
  - split; [done|]. intros (Hall & -> & Hle). inversion_clear Hall as [|? ? _ Hrest]. exfalso.
    assert (Hg : value * 10 + (c - 48) <= decimal_value (c :: text) value).
    { unfold decimal_value. cbn [foldl]. apply decimal_value_grows; [unfold is_digit in Hc; lia|done]. }
    pose proof (Z.mul_succ_div_gt (UINT64_LAST - (c - 48)) 10 ltac:(lia)). unfold is_digit in Hc. lia.
  - pose proof (Z.mul_div_le (UINT64_LAST - (c - 48)) 10 ltac:(lia)). unfold is_digit in Hc.
    rewrite IH by lia. unfold decimal_value. cbn [foldl]. split.
    + intros (Hall & -> & Hle). by split_and!; [constructor|..].
    + intros (Hall & -> & Hle). inversion_clear Hall. by split_and!.
Qed.

Lemma parse_u64_exact text v :
  parse_u64 text = Some v
  <-> text <> "" /\ Forall is_digit (string_bytes text) /\ v = decimal_value (string_bytes text) 0 /\ v <= UINT64_LAST.
Proof.
  unfold parse_u64. case_bool_decide as He; [by split; [|intros [? _]]|].
  rewrite parse_digits_exact by (unfold UINT64_LAST; ints_lia). naive_solver.
Qed.

Lemma split_colon_exact text kind id :
  split_colon text = Some (kind, id) <-> text = kind ++ 58 :: id /\ 58 ∉ kind.
Proof.
  revert kind. induction text as [|c text IH]; intros kind; cbn [split_colon].
  { split; [done|]. intros [H _]. by destruct kind. }
  destruct (c =? 58) eqn:Hc; bool_prop.
  - subst c. split; [intros [= <- <-]; split; [done|by apply not_elem_of_nil]|]. intros [H Hn].
    destruct kind as [|k kind]; cbn in H; [by injection H as ->|]. injection H as <- _. destruct Hn. set_solver.
  - split.
    + destruct (split_colon text) as [[k i]|]; [|done]. intros [= <- ->].
      destruct (proj1 (IH k) eq_refl) as [-> Hn]. split; [done|]. apply not_elem_of_cons. split; [lia|done].
    + intros [H Hn]. destruct kind as [|k kind]; cbn in H; [injection H as -> _; lia|].
      injection H as -> ->. apply not_elem_of_cons in Hn as [_ Hn].
      by rewrite (proj2 (IH kind) (conj eq_refl Hn)).
Qed.

Lemma equals_upper_exact text upper : equals_ascii_upper text upper = true <-> ascii_upper <$> text = upper.
Proof.
  unfold equals_ascii_upper. split.
  - intros [_ H]%andb_prop. by apply bool_decide_eq_true_1 in H.
  - intros <-. unfold zlen. rewrite length_fmap, Z.eqb_refl. by apply bool_decide_eq_true_2.
Qed.

Lemma dependent_named_exact kind id d : dependent_named kind id = Some d <->
  dep_id d = id /\ dep_kind d <> DependentKind.Unknown /\ ascii_upper <$> kind = string_bytes (dependent_kind_to_string (dep_kind d)).
Proof.
  assert (Hno : forall a b, equals_ascii_upper kind a = true -> equals_ascii_upper kind b = true -> a = b)
    by (intros a b <-%equals_upper_exact <-%equals_upper_exact; done).
  unfold dependent_named. split.
  - repeat split_test; try done; intros [= <-]; (split_and!; [done|done|by apply equals_upper_exact]).
  - destruct d as [k i]. cbn [dep_id dep_kind]. intros (-> & Hk & Hu). apply equals_upper_exact in Hu.
    destruct k; [done|..]; cbn [dependent_kind_to_string] in Hu; rewrite ?Hu; repeat split_test; try done;
      match goal with H : equals_ascii_upper kind ?a = true, H' : equals_ascii_upper kind ?b = true |- _ =>
        by discriminate (Hno a b H H') end.
Qed.

(** * Properties *)

(** The parser of dependents accepts exactly KIND:ID: a kind of any case, a
    colon, and a nonempty text of decimal digits alone whose value is between 1
    and the largest 64-bit number, and answers that dependent. *)
Theorem dependent_parsed_exactly (text : string) (d : DependentRef) :
  parse_dependent text = Some d
  <-> exists kind id, string_bytes text = kind ++ 58 :: id /\ 58 ∉ kind
      /\ ascii_upper <$> kind = string_bytes (dependent_kind_to_string (dep_kind d)) /\ dep_kind d <> DependentKind.Unknown
      /\ id <> [] /\ Forall is_digit id /\ decimal_value id 0 = dep_id d /\ 0 < dep_id d <= UINT64_LAST.
Proof.
  unfold parse_dependent. split.
  - destruct (split_colon (string_bytes text)) as [[kind id]|] eqn:Hs; [|done].
    apply split_colon_exact in Hs as [Ht Hn]. pose proof (string_bytes_u8 text) as Hu. rewrite Ht in Hu.
    apply Forall_app in Hu as [_ Hu]. inversion_clear Hu as [|? ? _ Hid].
    destruct (parse_u64 (bytes_string id)) as [v|] eqn:Hv; [|done].
    apply parse_u64_exact in Hv as (Hne & Hdig & -> & Hle). rewrite string_bytes_string in * by done.
    destruct (_ =? 0) eqn:Hz; [done|]. bool_prop. destruct (dependent_named kind _) as [d'|] eqn:Hd; [|done].
    split_test; [|done]. intros [= <-]. apply dependent_named_exact in Hd as (Hi & Hk & Hup).
    pose proof (decimal_value_grows id 0 ltac:(lia) Hdig).
    exists kind, id. rewrite Hi. split_and!; [done|done|done|done| |done|done|lia|done]. by intros ->.
  - intros (kind & id & Ht & Hn & Hup & Hk & Hne & Hdig & Hv & Hr).
    rewrite (proj2 (split_colon_exact _ kind id)) by done.
    assert (Hid : Forall in_u8 id) by (eapply Forall_impl; [exact Hdig|]; unfold is_digit; intros c Hc; ints; lia).
    assert (Hp : parse_u64 (bytes_string id) = Some (dep_id d)).
    { apply parse_u64_exact. rewrite string_bytes_string by done. split_and!; [|done|done|lia].
      intros Hb. apply Hne. by rewrite <- (string_bytes_string id Hid), Hb. }
    rewrite Hp, (proj2 (Z.eqb_neq _ 0)) by lia. rewrite (proj2 (dependent_named_exact kind (dep_id d) d)) by done.
    unfold dependent_valid. rewrite bool_decide_false, (proj2 (Z.eqb_neq _ 0)) by (done || lia). done.
Qed.
