(* ===== verification/Driver.v ===== *)
(** The serving side of the command line driver (tools/sffctl.cpp): the handler
    that puts a coordinator behind the framed server, the coordinator it starts
    from, and the commands that talk to it. The handler's requests to the
    coordinator are methods with a lock of their own; a request is handled here
    without another one in between. *)

From S2P Require Import Prelude Containers Core Generation Switch Authority Evidence Topology Bytes Integrity Records.
From S2P Require Import Journal Wire Decision Plan Policy Payloads Candidates Planner Validator Session.
From S2P Require Import Coordinator Failover Runtime Fixture Frame Messages Server Socket Client CommandLine.

(** * The handler *)

(** The coordinator and [ServerRuntime]'s flag. *)
Record DriverState := mkDriver { dr_coordinator : Coordinator; dr_stop_requested : bool }.

Definition with_coordinator (s : DriverState) (c : Coordinator) : DriverState := mkDriver c (dr_stop_requested s).
Definition request_stop (s : DriverState) : DriverState := mkDriver (dr_coordinator s) true.

(** `response.header.type = type; response.payload = payload; return Status::success();` *)
Definition respond (type : MessageType) (payload : list Z) : Handled :=
  let h := frame_header_default in
  Returned success
    (mkFrame (mkFrameHeader (fh_magic h) (fh_format_version h) (message_type_raw type) (fh_flags h) (fh_session h)
                (fh_epoch h) (fh_boot_digest h) (fh_request_seq h) (fh_payload_len h) (fh_header_crc h)) payload 0).

(** `return status;` with the response untouched. *)
Definition decline (status : Status) : Handled := Returned status frame_default.

Section handler.
Context {W : World} (server_limits : Limits) (durability_enabled : bool).

Definition hello_response (outcome : Code) (session epoch boot_digest : Z) : HelloResponse :=
  mkHelloResponse session epoch boot_digest kFrameFormatVersion (wrap32 (max_frame_payload server_limits)) outcome.

(** `case MessageType::Hello:` *)
Definition handle_hello (payload : list Z) (c : Coordinator) : Handled * Coordinator :=
  match decode_hello_request payload with
  | Refused status => (decline status, c)
  | Value request =>
      if negb (hq_format_version request =? kFrameFormatVersion) then
        (respond MessageType.HelloAck (encode_hello_response (hello_response Code.VersionMismatch 0 0 0)), c)
      else
        match open_session (hq_principal request) c with
        | (Refused status, c) =>
            (respond MessageType.HelloAck (encode_hello_response (hello_response (status_code status) 0 0 0)), c)
        | (Value record, c) =>
            (respond MessageType.HelloAck
               (encode_hello_response (hello_response Code.Ok (sr_id record) (co_epoch c) (co_boot_digest c))), c)
        end
  end.

Definition authority_answer (q : AuthorityQuery) : AuthorityQueryResponse :=
  mkAuthorityResponse (aq_outcome q) (aq_reason q) (aq_has_authority q) (zlen (aq_active_grants q))
    (zlen (aq_withdrawn_grants q)) (zlen (aq_fenced_generations q)) (query_digest q).

(** `case MessageType::QueryAuthority:` *)
Definition handle_authority (payload : list Z) (c : Coordinator) : Handled * Coordinator :=
  match decode_authority_query payload with
  | Refused status => (decline status, c)
  | Value dependent =>
      match query_authority dependent c with
      | (Refused status, c) => (decline status, c)
      | (Value q, c) => (respond MessageType.AuthorityResult (encode_authority_response (authority_answer q)), c)
      end
  end.

Definition restore_answer (d : RestoreDecision) : RestoreQueryResponse :=
  mkRestoreResponse (rd_outcome d) (rd_reason d) (rd_may_restore d) (rd_effect_verified d) (zlen (rd_blocking d)).

(** `case MessageType::QueryRestore:` *)
Definition handle_restore (payload : list Z) (c : Coordinator) : Handled * Coordinator :=
  match decode_restore_query payload with
  | Refused status => (decline status, c)
  | Value dependent =>
      match evaluate_restore dependent c with
      | (Refused status, c) => (decline status, c)
      | (Value d, c) => (respond MessageType.RestoreResult (encode_restore_response (restore_answer d)), c)
      end
  end.

(** `case MessageType::SnapshotRequest:` *)
Definition snapshot_answer (c : Coordinator) : SnapshotResponse :=
  mkSnapshotResponse Code.Ok (co_epoch c) (boot_ordinal (co_boot c))
    (match installed_topology c with Some t => zlen (tp_switches t) | None => 0 end)
    (fence_count (co_authority c)) (failure_size (co_failures c)) (active_grant_count (co_authority c))
    (zlen (co_event_tail SIZE_MAX c)) durability_enabled.

(** The second switch, behind the authority check. *)
Definition handle_authorised (type : Z) (payload : list Z) (c : Coordinator) : Handled * Coordinator :=
  if type =? message_type_raw MessageType.QueryAuthority then handle_authority payload c
  else if type =? message_type_raw MessageType.QueryRestore then handle_restore payload c
  else if type =? message_type_raw MessageType.SnapshotRequest then
    (respond MessageType.SnapshotResult (encode_snapshot_response (snapshot_answer c)), c)
  else (decline (failure Code.Unsupported "this synthetic driver does not implement that message type"), c).

Definition driver_handler (s : DriverState) (request : Frame) : Handled * DriverState :=
  let h := fm_header request in
  if fh_type h =? message_type_raw MessageType.Hello then
    let '(r, c) := handle_hello (fm_payload request) (dr_coordinator s) in (r, with_coordinator s c)
  else if fh_type h =? message_type_raw MessageType.Goodbye then (respond MessageType.Goodbye [], request_stop s)
  else
    match co_authorise (frame_binding h) (dr_coordinator s) with
    | (Refused status, c) => (decline status, with_coordinator s c)
    | (Value _, c) =>
        let '(r, c) := handle_authorised (fh_type h) (fm_payload request) c in (r, with_coordinator s c)
    end.

End handler.
