(* ===== verification/Remote.v ===== *)
(** What a coordinator promises to the clients behind the driver's handler: the
    handler meets the interface of the framed server, it changes the coordinator
    by the coordinator's own requests only, it lets no request past that is not
    authorised, and what a client is told is what the coordinator decided. *)

From S2P Require Import Prelude Containers Core Generation Switch Authority Evidence Topology Bytes Integrity Records.
From S2P Require Import Journal Wire Decision Plan Policy Payloads Candidates Planner Validator Session.
From S2P Require Import Coordinator Failover Entries Runtime Fencing Restart Scenarios Frame Messages Server Socket Client CommandLine Driver.

#[local] Open Scope op_scope.

(** * The statuses the handler returns *)

Definition known_status (s : Status) : Prop := known_code (status_code s).

Lemma known_failure code message : known_code code -> known_status (failure code message).
Proof. intros Hc. unfold known_status, failure. by case_bool_decide. Qed.

(** A refusal, if any, with an assigned code. *)
Definition known_result {A} (r : Result A) : Prop := match r with Value _ => True | Refused s => known_status s end.

(** A reader that fails with assigned codes only. *)
Definition fails_known {A} (m : ReaderM A) : Prop := forall r, known_status (br_failure r) -> known_status (br_failure (m r).2).

Lemma reader_fail_known code message r : known_code code -> known_status (br_failure r) ->
  known_status (br_failure (reader_fail code message r)).
Proof. intros Hc Hr. unfold reader_fail. split_test; [done|]. by apply known_failure. Qed.

Lemma span_known {A} (zero : A) count parse : fails_known (read_span zero count parse).
Proof.
  intros r Hr. unfold read_span, ensure. destruct (negb (reader_ok r)); [done|]. destruct (_ <? _); [by apply reader_fail_known|done].
Qed.

Lemma string_known : fails_known read_string.
Proof.
  intros r Hr. unfold read_string, read_prefixed, read_u32. pose proof (span_known 0 4 (fun b => wrap32 (load_le b)) r Hr) as H.
  destruct (read_span _ _ _ r) as [n r']. cbn [snd] in H. destruct (negb (reader_ok r')); [done|].
  destruct (_ <? _); [by apply reader_fail_known|by apply span_known].
Qed.

Lemma bind_known {A B} (m : ReaderM A) (k : A -> ReaderM B) : fails_known m -> (forall a, fails_known (k a)) -> fails_known (m ≫= k).
Proof. intros Hm Hk r Hr. unfold mbind, reader_bind. specialize (Hm r Hr). destruct (m r) as [a r']. by apply Hk. Qed.

(** What a decoder of a payload answers after its fields were read. *)
Definition answers_known {A} (m : ReaderM (Result A)) : Prop := forall r, known_status (br_failure r) -> known_result (m r).1.

Lemma answers_bind {A B} (m : ReaderM A) (k : A -> ReaderM (Result B)) : fails_known m -> (forall a, answers_known (k a)) ->
  answers_known (m ≫= k).
Proof. intros Hm Hk r Hr. unfold mbind, reader_bind. specialize (Hm r Hr). destruct (m r) as [a r']. by apply Hk. Qed.

Lemma finish_known {A} (x : Result A) : known_result x -> answers_known (finish_payload (mret x)).
Proof.
  intros Hx r Hr. unfold finish_payload, check_ok, check_end, require_end. destruct (negb (reader_ok r)) eqn:Hok; [done|].
  rewrite ?Hok. destruct (negb (at_end r)); [|done]. cbn [fst snd].
  pose proof (reader_fail_known Code.Invalid "trailing bytes after the canonical document" r I Hr) as Hf.
  by destruct (negb (status_ok _)).
Qed.

(** A reader whose answer is itself a result. *)
Lemma finish_read_known {A B} (m : ReaderM (Result A)) (k : Result A -> Result B) :
  fails_known m -> answers_known m -> (forall x, known_result x -> known_result (k x)) ->
  answers_known (m ≫= fun x => finish_payload (mret (k x))).
Proof.
  intros Hm Ha Hk r Hr. unfold mbind, reader_bind. specialize (Hm r Hr). specialize (Ha r Hr). destruct (m r) as [x r'].
  by apply finish_known; [apply Hk|].
Qed.

Lemma dependent_read_known : fails_known read_frame_dependent /\ answers_known read_frame_dependent.
Proof.
  assert (Ht : forall {A} (x : Result A), fails_known (status_then x) /\ (known_result x -> answers_known (status_then x))).
  { intros A x. split; [by intros r|]. intros Hx r Hr. unfold status_then. by destruct (negb (reader_ok r)). }
  unfold read_frame_dependent. split.
  - do 2 (apply bind_known; [apply span_known|intros]). apply Ht.
  - do 2 (apply answers_bind; [apply span_known|intros]). apply Ht. unfold dependent_value.
    repeat split_test; first [by apply known_failure|done].
Qed.

Lemma decode_dependent_known payload : known_result (decode_authority_query payload).
Proof.
  unfold decode_authority_query, decode_payload. apply finish_read_known; [apply dependent_read_known..| |done].
  by intros [d|s].
Qed.

Lemma decode_hello_known payload : known_result (decode_hello_request payload).
Proof.
  unfold decode_hello_request, decode_payload.
  apply answers_bind; [apply span_known|intros v|done]. apply answers_bind; [apply string_known|intros p]. by apply finish_known.
Qed.

(** Methods of the coordinator. *)
Definition refuses_known {A} (m : Op A) : Prop := forall c, known_result (m c).1.

Lemma op_bind_known {A B} (m : Op A) (k : A -> Op B) : refuses_known m -> (forall a, refuses_known (k a)) -> refuses_known (op_bind m k).
Proof. intros Hm Hk c. unfold op_bind. specialize (Hm c). destruct (m c) as [[a|s] c']; [by apply Hk|done]. Qed.

Section requests.
Context {W : World}.

Lemma gets_known {A} (f : Coordinator -> A) : refuses_known (gets f).
Proof. done. Qed.

Lemma now_known : refuses_known now.
Proof. intros c. unfold now. by destruct has_clock. Qed.

Lemma event_known kind code text subject : refuses_known (append_event kind code text subject).
Proof. apply op_bind_known; [apply now_known|done]. Qed.

Lemma decision_known kind scope outcome reason bound explanation :
  refuses_known (record_decision kind scope outcome reason bound explanation).
Proof. apply op_bind_known; [apply now_known|done]. Qed.

Lemma authorise_known b epoch boot_digest r : known_status (authorise b epoch boot_digest r).1.
Proof. unfold authorise. repeat first [split_match|split_test]; first [by apply known_failure|done]. Qed.

Lemma co_authorise_known b : refuses_known (co_authorise b).
Proof.
  intros c. unfold co_authorise, gets, op_bind, on_sessions.
  pose proof (authorise_known b (co_epoch c) (co_boot_digest c) (co_sessions c)) as H.
  destruct (authorise _ _ _ _) as [status r]. unfold ensure_ok. by destruct (status_ok status).
Qed.

Lemma session_open_known principal epoch boot now_ns r :
  known_result (default no_session (session_open principal epoch boot now_ns r).1).
Proof.
  unfold session_open. repeat split_test; cbn [fst default]; try (by apply known_failure).
  destruct (map_find _ _); [done|by apply known_failure].
Qed.

Lemma open_session_known principal : refuses_known (open_session principal).
Proof.
  apply op_bind_known; [|intros _].
  { apply op_bind_known; [apply gets_known|]. intros [|]; [intros c; by apply known_failure|done]. }
  do 2 (apply op_bind_known; [apply gets_known|intros]). apply op_bind_known; [apply now_known|]. intros t c.
  unfold op_bind at 1, on_sessions. pose proof (session_open_known principal a a0 t (co_sessions c)) as H.
  destruct (session_open _ _ _ _ _) as [opened r]. cbn [fst] in H.
  revert H. generalize (default no_session opened). intros x Hx. destruct x as [record|s]; [|done].
  change (known_result ((op_bind (append_event EventKind.SessionOpened Code.Ok "session established" (sr_id record))
    (fun _ => op_ret record)) (with_session_table c r)).1).
  by apply op_bind_known; [apply event_known|].
Qed.

Lemma query_authority_known d : refuses_known (query_authority d).
Proof.
  unfold query_authority. split_test; [intros c; by apply known_failure|]. apply op_bind_known; [apply now_known|intros].
  do 2 (apply op_bind_known; [apply gets_known|intros]). by apply op_bind_known; [apply decision_known|].
Qed.

Lemma evaluate_restore_known d : refuses_known (evaluate_restore d).
Proof.
  unfold evaluate_restore. split_test; [intros c; by apply known_failure|]. apply op_bind_known; [apply now_known|intros].
  do 5 (apply op_bind_known; [apply gets_known|intros]). destruct (restore_verdict _ _ _ _) as [[[[? ?] ?] ?] ?].
  apply op_bind_known; [apply decision_known|intros]. by apply op_bind_known; [apply event_known|].
Qed.

(** * The responses are frames of bytes *)

Lemma payload_bytes budget m : WritesBytes m -> Forall in_u8 (payload_of budget m).
Proof. intros Hm. apply Hm. constructor. Qed.

Lemma hello_response_bytes r : Forall in_u8 (encode_hello_response r).
Proof. unfold encode_hello_response. apply payload_bytes. bytes_steps. Qed.

Lemma authority_response_bytes r : Forall in_u8 (encode_authority_response r).
Proof. unfold encode_authority_response. apply payload_bytes. bytes_steps. Qed.

Lemma restore_response_bytes r : Forall in_u8 (encode_restore_response r).
Proof. unfold encode_restore_response. apply payload_bytes. bytes_steps. Qed.

Lemma snapshot_response_bytes r : Forall in_u8 (encode_snapshot_response r).
Proof. unfold encode_snapshot_response. apply payload_bytes. bytes_steps. Qed.

Lemma respond_typed type payload : Forall in_u8 payload -> handled_typed (respond type payload).
Proof. intros Hp. by split_and!. Qed.

Lemma decline_typed status : known_status status -> handled_typed (decline status).
Proof. intros Hs. split_and!; [done|done|constructor]. Qed.

(** The handler is one the framed server can run. *)
Lemma driver_handler_typed limits durable s request : handled_typed (driver_handler limits durable s request).1.
Proof.
  unfold driver_handler. destruct (_ =? message_type_raw MessageType.Hello).
  { unfold handle_hello. pose proof (decode_hello_known (fm_payload request)) as Hd.
    destruct (decode_hello_request _) as [q|status]; [|by apply decline_typed].
    destruct (negb _); [apply respond_typed, hello_response_bytes|].
    destruct (open_session _ _) as [[record|status] c]; apply respond_typed, hello_response_bytes. }
  destruct (_ =? message_type_raw MessageType.Goodbye); [apply respond_typed; constructor|].
  pose proof (co_authorise_known (frame_binding (fm_header request)) (dr_coordinator s)) as Ha.
  destruct (co_authorise _ _) as [[u|status] c]; [|by apply decline_typed].
  unfold handle_authorised. destruct (_ =? message_type_raw MessageType.QueryAuthority).
  { unfold handle_authority. pose proof (decode_dependent_known (fm_payload request)) as Hd.
    destruct (decode_authority_query _) as [d|status]; [|by apply decline_typed].
    pose proof (query_authority_known d c) as Hq. destruct (query_authority d c) as [[q|status] c'];
      [apply respond_typed, authority_response_bytes|by apply decline_typed]. }
  destruct (_ =? message_type_raw MessageType.QueryRestore).
  { unfold handle_restore. pose proof (decode_dependent_known (fm_payload request) : known_result (decode_restore_query _)) as Hd.
    destruct (decode_restore_query _) as [d|status]; [|by apply decline_typed].
    pose proof (evaluate_restore_known d c) as Hq. destruct (evaluate_restore d c) as [[q|status] c'];
      [apply respond_typed, restore_response_bytes|by apply decline_typed]. }
  destruct (_ =? message_type_raw MessageType.SnapshotRequest); [apply respond_typed, snapshot_response_bytes|].
  apply decline_typed. by apply known_failure.
Qed.
End requests.

(** * The handler only makes requests *)

Section driver.
Context {W : World} (limits : Limits) (durable : bool).

Abbreviation handler := (driver_handler limits durable).

Lemma handle_authorised_requests type payload c : exists qs, Forall request_ok qs
  /\ (handle_authorised durable type payload c).2 = serve_all qs c.
Proof.
  unfold handle_authorised. destruct (_ =? _).
  { unfold handle_authority. destruct (decode_authority_query payload) as [d|status]; [|by exists []].
    exists [QueryAuthority d]. split; [by repeat constructor|]. cbn. by destruct (query_authority d c) as [[|] c']. }
  destruct (_ =? _).
  { unfold handle_restore. destruct (decode_restore_query payload) as [d|status]; [|by exists []].
    exists [EvaluateRestore d]. split; [by repeat constructor|]. cbn. by destruct (evaluate_restore d c) as [[|] c']. }
  exists []. by destruct (_ =? _).
Qed.

Lemma serve_authorise b c : (serve (Authorise b) c).2 = (co_authorise b c).2.
Proof. done. Qed.

Lemma driver_requests s f : exists qs, Forall request_ok qs
  /\ dr_coordinator (handler s f).2 = serve_all qs (dr_coordinator s).
Proof.
  unfold driver_handler. destruct (_ =? _).
  { unfold handle_hello. destruct (decode_hello_request _) as [q|status]; [|by exists []].
    destruct (negb _); [by exists []|]. exists [OpenSession (hq_principal q)]. split; [by repeat constructor|]. cbn.
    by destruct (open_session _ _) as [[|] c']. }
  destruct (_ =? _); [by exists []|].
  destruct (co_authorise (frame_binding (fm_header f)) (dr_coordinator s)) as [[u|status] c] eqn:Ha.
  - destruct (handle_authorised_requests (fh_type (fm_header f)) (fm_payload f) c) as (qs & Hok & Hq).
    destruct (handle_authorised _ _ _ c) as [r c']. exists (Authorise (frame_binding (fm_header f)) :: qs).
    split; [by constructor|]. cbn [snd dr_coordinator with_coordinator] in *. by rewrite serve_all_cons, serve_authorise, Ha.
  - exists [Authorise (frame_binding (fm_header f))]. split; [by repeat constructor|]. by rewrite serve_all_cons, serve_authorise, Ha.
Qed.

Lemma handled_requests s fs : exists qs, Forall request_ok qs
  /\ dr_coordinator (handle_all handler s fs).2 = serve_all qs (dr_coordinator s).
Proof.
  revert s. induction fs as [|f fs IH]; intros s; [by exists []|]. rewrite handle_all_state.
  destruct (driver_requests s f) as (qs1 & H1 & E1). destruct (IH (handler s f).2) as (qs2 & H2 & E2).
  exists (qs1 ++ qs2). split; [by apply Forall_app|]. by rewrite serve_all_app, <- E1.
Qed.

(** * What the guard lets through *)

(** The queries do not touch the sessions, the epoch or the incarnation. *)
Definition same_sessions (c c' : Coordinator) : Prop :=
  co_sessions c' = co_sessions c /\ co_epoch c' = co_epoch c /\ co_boot_digest c' = co_boot_digest c.

#[local] Instance same_sessions_frames : Frames same_sessions.
Proof.
  split; [split; [done|]|done..]. intros a b c (H1 & H2 & H3) (H4 & H5 & H6). unfold same_sessions. by rewrite H4, H5, H6.
Qed.

Lemma query_same d : within same_sessions (query_authority d).
Proof. unfold query_authority. within_steps. Qed.

Lemma restore_same d : within same_sessions (evaluate_restore d).
Proof. unfold evaluate_restore. within_steps. Qed.

Lemma authorised_same type payload c : same_sessions c (handle_authorised durable type payload c).2.
Proof.
  unfold handle_authorised. destruct (_ =? _).
  { unfold handle_authority. destruct (decode_authority_query payload) as [d|status]; [|done].
    pose proof (within_at _ _ (query_same d) c) as H. by destruct (query_authority d c) as [[|] c']. }
  destruct (_ =? _).
  { unfold handle_restore. destruct (decode_restore_query payload) as [d|status]; [|done].
    pose proof (within_at _ _ (restore_same d) c) as H. by destruct (evaluate_restore d c) as [[|] c']. }
  by destruct (_ =? _).
Qed.

Definition authorised_by (c : Coordinator) (b : SessionBinding) : Prop :=
  authorised b (co_epoch c) (co_boot_digest c) (co_sessions c).

Lemma co_authorise_cases b c :
  (authorised_by c b /\ exists s, map_find (sb_session b) (sg_sessions (co_sessions c)) = Some s
     /\ co_authorise b c = (Value tt, with_session_table c (with_sessions (co_sessions c)
          (map_set (sb_session b) (session_consume s (sb_request_seq b)) (sg_sessions (co_sessions c))))))
  \/ (~ authorised_by c b /\ exists status r, status_ok status = false
      /\ sg_sessions r = sg_sessions (co_sessions c) /\ co_authorise b c = (Refused status, with_session_table c r)).
Proof.
  unfold authorised_by, co_authorise, gets, op_bind, on_sessions, ensure_ok.
  destruct (authorise_cases b (co_epoch c) (co_boot_digest c) (co_sessions c)) as [(s & Hf & Ha & ->)|(Hn & Hok & Hs & _)].
  - left. split; [done|]. by exists s.
  - right. split; [done|]. destruct (authorise _ _ _ _) as [status r]. cbn [fst snd] in *. rewrite Hok. by exists status, r.
Qed.

Definition guarded (f : Frame) : Prop :=
  fh_type (fm_header f) <> message_type_raw MessageType.Hello /\ fh_type (fm_header f) <> message_type_raw MessageType.Goodbye.

Lemma guarded_handler s f : guarded f ->
  handler s f = match co_authorise (frame_binding (fm_header f)) (dr_coordinator s) with
                | (Refused status, c) => (decline status, with_coordinator s c)
                | (Value _, c) =>
                    let '(r, c) := handle_authorised durable (fh_type (fm_header f)) (fm_payload f) c in (r, with_coordinator s c)
                end.
Proof. intros [H1 H2]. unfold driver_handler. by rewrite (proj2 (Z.eqb_neq _ _)), (proj2 (Z.eqb_neq _ _)). Qed.

(** No request of the handler gives back a sequence number. *)
Definition seqs_kept (c c' : Coordinator) : Prop := forall id, last_seq id (co_sessions c) <= last_seq id (co_sessions c').

#[local] Instance seqs_kept_frames : Frames seqs_kept.
Proof.
  split; [split; [intros c id; lia|intros a b c H1 H2 id; specialize (H1 id); specialize (H2 id); lia]|..]; intros c l id;
    apply Z.le_refl.
Qed.

Lemma step_keeps_seqs op r id : last_seq id r <= last_seq id (session_step op r).2.
Proof. destruct (session_step_consumed op r id) as [[_ ->]|(q & _ & Hlt & ->)]; lia. Qed.

Lemma open_seqs principal : within seqs_kept (open_session principal).
Proof.
  unfold open_session. do 4 (apply within_bind; [exact _|within_steps|intros]). apply within_bind; [exact _| |within_steps].
  constructor. intros c id. unfold on_sessions. pose proof (step_keeps_seqs (OpOpen principal a0 a1 a2) (co_sessions c) id) as H.
  cbn [session_step] in H. by destruct (session_open _ _ _ _ _).
Qed.

Lemma authorise_seqs b : within seqs_kept (co_authorise b).
Proof.
  unfold co_authorise. do 2 (apply within_bind; [exact _|within_steps|intros]). apply within_bind; [exact _| |within_steps].
  constructor. intros c id. unfold on_sessions. pose proof (step_keeps_seqs (OpAuthorise b a a0) (co_sessions c) id) as H.
  cbn [session_step] in H. by destruct (authorise _ _ _ _).
Qed.

Lemma driver_seqs s f : seqs_kept (dr_coordinator s) (dr_coordinator (handler s f).2).
Proof.
  unfold driver_handler. destruct (_ =? _).
  { unfold handle_hello. destruct (decode_hello_request _) as [q|status]; [|reflexivity]. destruct (negb _); [reflexivity|].
    pose proof (within_at _ _ (open_seqs (hq_principal q)) (dr_coordinator s)) as H. by destruct (open_session _ _) as [[|] c']. }
  destruct (_ =? _); [reflexivity|].
  pose proof (within_at _ _ (authorise_seqs (frame_binding (fm_header f))) (dr_coordinator s)) as H.
  destruct (co_authorise _ _) as [[u|status] c]; [|done]. cbn [snd] in H.
  destruct (authorised_same (fh_type (fm_header f)) (fm_payload f) c) as [Hs _].
  destruct (handle_authorised _ _ _ c) as [r c']. cbn [snd dr_coordinator with_coordinator] in *. intros id. by rewrite Hs.
Qed.

Lemma handled_seqs s fs : seqs_kept (dr_coordinator s) (dr_coordinator (handle_all handler s fs).2).
Proof. revert s. induction fs as [|f fs IH]; intros s; [reflexivity|]. rewrite handle_all_state. etrans; [apply driver_seqs|apply IH]. Qed.

Lemma spent_refused s f : guarded f -> fh_request_seq (fm_header f) <= last_seq (fh_session (fm_header f)) (co_sessions (dr_coordinator s)) ->
  handler_ok (handler s f).1 = false.
Proof.
  intros Hg Hle. rewrite guarded_handler by done.
  destruct (co_authorise_cases (frame_binding (fm_header f)) (dr_coordinator s)) as [(Ha & rec & Hf & _)|(_ & st & r & Hok & _ & ->)];
    [|done].
  destruct Ha as (rec' & Hf' & _ & _ & _ & _ & _ & Hlt). unfold last_seq in Hle. cbn in Hf', Hlt. rewrite Hf' in Hle. cbn in Hle. lia.
Qed.

(** ** The answer to a query *)

Lemma absorb_each_range {A} (f : A -> Digest128 -> Digest128) l d : (forall x e, in_u64 (dig_hi (f x e))) -> in_u64 (dig_hi d) ->
  in_u64 (dig_hi (absorb_each f l d)).
Proof. intros Hf. revert d. induction l as [|x l IH]; intros d Hd; [done|]. by apply IH. Qed.

Lemma query_digest_range q : in_u64 (query_digest q).
Proof.
  unfold query_digest. do 4 (apply absorb_each_range; [intros; apply digest_in_range|]). apply digest_in_range.
Qed.

Lemma query_codes r d now_ns : known_code (aq_outcome (query r d now_ns)) /\ known_code (aq_reason (query r d now_ns)).
Proof. unfold query. destruct (index_of_dependent r d); [done|]. cbn zeta. repeat case_match; done. Qed.

Definition counts_fit (q : AuthorityQuery) : Prop :=
  zlen (aq_active_grants q) < two64 /\ zlen (aq_withdrawn_grants q) < two64 /\ zlen (aq_fenced_generations q) < two64.

(** A query answers what the registry says. *)
Lemma query_authority_value d c : dependent_valid d = true ->
  exists q c' now_ns, query_authority d c = (Value q, c') /\ aq_outcome q = aq_outcome (query (co_authority c) d now_ns)
    /\ aq_reason q = aq_reason (query (co_authority c) d now_ns)
    /\ aq_has_authority q = aq_has_authority (query (co_authority c) d now_ns)
    /\ aq_bound q = aq_bound (query (co_authority c) d now_ns).
Proof.
  intros Hd. unfold query_authority, record_decision. rewrite Hd. cbn [negb]. unfold op_bind, gets, modify, op_ret, now.
  destruct has_clock; do 3 eexists; (split; [reflexivity|done]).
Qed.

Lemma authority_answer_ok q r d now_ns : counts_fit q -> aq_outcome q = aq_outcome (query r d now_ns) ->
  aq_reason q = aq_reason (query r d now_ns) -> authority_response_ok (authority_answer q).
Proof.
  intros (H1 & H2 & H3) Ho Hr. destruct (query_codes r d now_ns) as [Hk1 Hk2].
  pose proof (zlen_nonneg (aq_active_grants q)). pose proof (zlen_nonneg (aq_withdrawn_grants q)).
  pose proof (zlen_nonneg (aq_fenced_generations q)).
  split; cbn; [by rewrite Ho|by rewrite Hr|ints; lia|ints; lia|ints; lia|apply query_digest_range].
Qed.
End driver.

(** * Properties *)

(** C7. Nothing is served without authority, and nothing twice: a request other
    than a hello or a goodbye is answered with success only when the registry of
    the coordinator holds its session, open, and the request carries the current
    epoch and incarnation and a sequence number beyond the last one consumed;
    the number is then consumed, so that no request of the same session with that
    number or a smaller one is ever answered with success again, whatever is
    handled in between. Any other request is declined, and leaves the coordinator
    as it was but for the count of rejected replays. *)
Theorem driver_requires_authority {W : World} (limits : Limits) (durable : bool) (s : DriverState) (request : Frame) :
  guarded request ->
  let b := frame_binding (fm_header request) in
  let '(h, s') := driver_handler limits durable s request in
  (handler_ok h = true ->
     authorised_by (dr_coordinator s) b
     /\ forall fs again, guarded again -> sb_session (frame_binding (fm_header again)) = sb_session b ->
          fh_request_seq (fm_header again) <= fh_request_seq (fm_header request) ->
          handler_ok (driver_handler limits durable (handle_all (driver_handler limits durable) s' fs).2 again).1 = false)
  /\ (~ authorised_by (dr_coordinator s) b -> exists status r, h = decline status /\ status_ok status = false
      /\ dr_coordinator s' = with_session_table (dr_coordinator s) r
      /\ sg_sessions r = sg_sessions (co_sessions (dr_coordinator s))).
Proof.
  intros Hg b. rewrite guarded_handler by done.
  destruct (co_authorise_cases b (dr_coordinator s)) as [(Ha & rec & Hf & E)|(Hn & status & r & Hok & Hr & E)];
    subst b; rewrite E.
  2: { split; [by intros H; exfalso; cbn in H; congruence|]. intros _. by exists status, r. }
  match goal with |- context [handle_authorised _ _ _ ?x] => set (c := x) end.
  destruct (authorised_same durable (fh_type (fm_header request)) (fm_payload request) c) as [Hs _].
  destruct (handle_authorised _ _ _ c) as [h c']. cbn [snd] in Hs. split; [|by intros Hn].
  intros _. split; [done|]. intros fs again Hga Hid Hle. apply spent_refused; [done|].
  etrans; [exact Hle|]. etrans; [|apply handled_seqs]. cbn [dr_coordinator with_coordinator]. rewrite Hs. subst c.
  unfold last_seq. cbn in Hid |- *. by rewrite Hid, map_find_set_eq.
Qed.

(** ** A query over the network *)

(** The authority a client's next request carries. *)
Definition client_binding (c : FrameClient) : SessionBinding :=
  mkBinding (cl_session c) (cl_epoch c) (cl_boot_digest c) (cl_next_seq c).

Definition query_frame (dependent : DependentRef) (c : FrameClient) : Frame :=
  call_frame (message_type_raw MessageType.QueryAuthority) 0 (encode_authority_query dependent) (cl_next_seq c) c.

Lemma query_guarded dependent c : guarded (sealed_frame (query_frame dependent c)).
Proof. done. Qed.

Lemma handler_answers_query {W : World} limits durable dependent c s k q k' :
  wire_dependent_ok dependent -> co_authorise (client_binding c) (dr_coordinator s) = (Value tt, k) ->
  query_authority dependent k = (Value q, k') ->
  driver_handler limits durable s (sealed_frame (query_frame dependent c))
  = (respond MessageType.AuthorityResult (encode_authority_response (authority_answer q)), with_coordinator s k').
Proof.
  intros Hd Ha Hq. rewrite guarded_handler by apply query_guarded.
  change (frame_binding (fm_header (sealed_frame (query_frame dependent c)))) with (client_binding c). rewrite Ha.
  change (fm_payload (sealed_frame (query_frame dependent c))) with (encode_authority_query dependent).
  change (fh_type (fm_header (sealed_frame (query_frame dependent c)))) with (message_type_raw MessageType.QueryAuthority).
  unfold handle_authorised. rewrite Z.eqb_refl. unfold handle_authority. by rewrite (codec_roundtrip _ Hd), Hq.
Qed.

(** The answer is the registry's, and rests on no generation that was fenced. *)
Lemma answered_query {W : World} b dependent c k q k' key :
  co_authorise b c = (Value tt, k) -> query_authority dependent k = (Value q, k') -> counts_fit q ->
  authority_response_ok (authority_answer q)
  /\ (is_fenced (co_authority c) key = true -> aq_has_authority q = true -> key ∉ aq_bound q).
Proof.
  intros Ha Hq Hfit.
  assert (Hk : co_authority k = co_authority c).
  { destruct (co_authorise_cases b c) as [(_ & rec & _ & E)|(_ & st & r & _ & _ & E)]; rewrite E in Ha; by simplify_eq. }
  assert (Hd : dependent_valid dependent = true).
  { unfold query_authority in Hq. by destruct (dependent_valid dependent). }
  destruct (query_authority_value dependent k Hd) as (q' & k2 & now_ns & E & Ho & Hr & Hh & Hb). rewrite Hq in E. injection E as <- <-.
  split; [by apply (authority_answer_ok q (co_authority k) dependent now_ns)|]. intros Hf Hhas Hin.
  rewrite <- Hk in Hf. apply (fenced_supports_nothing _ dependent now_ns _ Hf). unfold rests_on. by rewrite <- Hh, <- Hb.
Qed.

(** A declared failure is known to the coordinator behind the driver for good. *)
Lemma declared_behind_driver {W : World} limits durable d c o c1 b fs :
  registry_bounded (co_authority c) -> declare_failure d c = (Value o, c1) ->
  is_fenced (co_authority (dr_coordinator (handle_all (driver_handler limits durable) (mkDriver c1 b) fs).2)) (fd_subject d) = true.
Proof.
  intros Hb Hd. destruct (declared_retires _ _ _ _ Hb Hd) as (Hr & _ & _).
  destruct (handled_requests limits durable (mkDriver c1 b) fs) as (qs & Hqs & ->).
  exact (proj1 (lt_retired _ _ (serve_all_later qs c1 Hqs) _ Hr)).
Qed.

(** What a remote client is told is what the coordinator decided: when a
    ready client, whose next request the coordinator would let through, asks a
    server that runs the driver's handler for the authority of a dependent, and
    the request and the response arrive cut into pieces in any way, then the
    server sends one response, the coordinator consumes the request's number and
    makes the query once and nothing else, and the client's call returns an
    AuthorityResult of its own session and sequence number that decodes to that
    query's answer. If a failure was declared to the coordinator at any time before,
    whatever clients sent since then, an answer that reports authority does not
    rest on the failed generation. *)
Theorem remote_query_answered {W : World} {P : Peer} (limits : Limits) (durable : bool) (dependent : DependentRef)
  (c : FrameClient) (s : DriverState) (k k' : Coordinator) (q : AuthorityQuery) (cv : Conversation) (ups : list (list Z)) :
  kTextBudget <= frame_payload_ceiling limits -> kTextBudget <= frame_payload_ceiling (cl_limits c) -> steady P ->
  client_ready c -> cv_decoder cv = stream_new limits -> wire_dependent_ok dependent ->
  co_authorise (client_binding c) (dr_coordinator s) = (Value tt, k) ->
  query_authority dependent k = (Value q, k') -> counts_fit q ->
  encode_frame (query_frame dependent c) (cl_limits c) = Value (concat ups) ->
  Forall (Forall in_u8) ups -> Forall (fun piece => piece <> []) ups ->
  let '(waiting, s', cv') := serve_connection (driver_handler limits durable) limits (Received <$> ups) true s cv in
  waiting = true /\ s' = with_coordinator s k'
  /\ (exists out, cv_sent cv' = cv_sent cv ++ [out]
      /\ forall downs, Forall (fun piece => piece <> []) downs -> concat downs = out ->
           zlen out <= frame_bytes_max limits_defaults ->
           exists f, call (message_type_raw MessageType.QueryAuthority) (encode_authority_query dependent) 0
                       (mkExchange success (Received <$> downs)) c
                     = (Some (Value f), [query_frame dependent c], (take_sequence c).2)
             /\ frame_binding (fm_header f) = client_binding c
             /\ fh_type (fm_header f) = message_type_raw MessageType.AuthorityResult
             /\ decode_authority_response (fm_payload f) = Value (authority_answer q))
  /\ (forall d c0 o c1 b fs, registry_bounded (co_authority c0) -> declare_failure d c0 = (Value o, c1) ->
        s = (handle_all (driver_handler limits durable) (mkDriver c1 b) fs).2 ->
        aq_has_authority q = true -> fd_subject d ∉ aq_bound q).
Proof.
  intros Hl Hlc Hst Hr Hcv Hd Ha Hq Hfit He Hu Hne.
  destruct (codec_bytes (PayloadCodec := authority_query_codec) dependent Hd) as [Hpb Hpz].
  pose proof (handler_answers_query limits durable dependent c s k q k' Hd Ha Hq) as Hh.
  assert (Hc := call_answered (driver_handler limits durable) limits (message_type_raw MessageType.QueryAuthority) 0
    (encode_authority_query dependent) c s cv ups (driver_handler_typed limits durable) Hl Hst Hr eq_refl ltac:(ints_lia)
    Hpb ltac:(lia) ltac:(lia) Hcv Hu Hne He).
  cbn zeta in Hc. change (call_frame (message_type_raw MessageType.QueryAuthority) 0 (encode_authority_query dependent)
    (cl_next_seq c) c) with (query_frame dependent c) in Hc. rewrite Hh in Hc.
  destruct (answered_query _ _ _ _ _ _ (mkSwitchKey 0 0) Ha Hq Hfit) as [Hok _].
  destruct (codec_bytes (PayloadCodec := authority_response_codec) _ Hok) as [_ Hz].
  destruct (serve_connection _ _ _ _ _ _) as [[w s'] cv']. destruct Hc as (-> & -> & out & Hsent & Hcall).
  split_and!; [done|done| |].
  - exists out. split; [done|]. intros downs Hnd Hcat Hzo. destruct (Hcall downs Hnd Hcat Hzo) as (f & Hf & Hb & Hc).
    assert (Hcar : carried limits (respond MessageType.AuthorityResult (encode_authority_response (authority_answer q))) = true).
    { unfold carried. cbn [respond handled_response fm_payload]. apply andb_true_intro. split; [done|apply Z.leb_le; lia]. }
    cbn [fst] in Hc. rewrite Hcar in Hc. destruct Hc as (Ht & _ & Hp). exists f. split_and!; [exact Hf|exact Hb|exact Ht|].
    rewrite Hp. exact (codec_roundtrip (PayloadCodec := authority_response_codec) _ Hok).
  - intros d c0 o c1 b fs Hb Hdec -> Hhas.
    destruct (answered_query _ _ _ _ _ _ (fd_subject d) Ha Hq Hfit) as [_ H].
    apply H; [by eapply declared_behind_driver|done].
Qed.

(** ** A client of the coordinator that lost a spine *)

Definition hello_request : Frame := sealed_frame
  (call_frame (message_type_raw MessageType.Hello) 0 (encode_hello_request (mkHelloRequest "operator" kFrameFormatVersion)) 1
     sample_connected).

(** The driver after the failure and the client's hello, and the client after the acknowledgement. *)
Definition greeted : DriverState := Eval vm_compute in
  (handle_all (@driver_handler first_life limits_defaults true) (mkDriver fenced false) [hello_request]).2.
Definition asking_client : FrameClient := Eval vm_compute in
  mkClient (guard_of (Some 4)) limits_defaults true 1 (co_epoch fenced) (co_boot_digest fenced) 2 false (stream_new limits_defaults).

Definition let_through : Coordinator := Eval vm_compute in (co_authorise (client_binding asking_client) (dr_coordinator greeted)).2.
Definition query_none : AuthorityQuery := mkQuery dependent_none false Code.Unknown Code.Unknown [] [] [] [] [] "".
Definition told : AuthorityQuery := Eval vm_compute in
  match @query_authority first_life (dependent_port 1) let_through with (Value q, _) => q | _ => query_none end.
Definition asked : Coordinator := Eval vm_compute in (@query_authority first_life (dependent_port 1) let_through).2.

Lemma greeted_run : greeted = (handle_all (@driver_handler first_life limits_defaults true) (mkDriver fenced false) [hello_request]).2.
Proof. vm_compute. reflexivity. Qed.

Lemma let_through_run : co_authorise (client_binding asking_client) (dr_coordinator greeted) = (Value tt, let_through).
Proof. vm_compute. reflexivity. Qed.

Lemma told_run : @query_authority first_life (dependent_port 1) let_through = (Value told, asked).
Proof. vm_compute. reflexivity. Qed.

Definition asking_bytes : list Z := Eval vm_compute in frame_encoding (query_frame (dependent_port 1) asking_client).

Lemma asking_ready : client_ready asking_client.
Proof. split; [done|done|done|vm_compute; split; [done|split; congruence]|vm_compute; split_and!; congruence]. Qed.

Lemma dependent_port_wire : wire_dependent_ok (dependent_port 1).
Proof. split; [done|vm_compute; split; congruence]. Qed.

Definition asking_served : bool * DriverState * Conversation :=
  serve_connection (P := steady_peer) (@driver_handler first_life limits_defaults true) limits_defaults
    (Received <$> [take 20 asking_bytes; drop 20 asking_bytes]) true greeted (conversation_new limits_defaults).
Definition told_bytes : list Z := Eval vm_compute in default [] (last (cv_sent asking_served.2)).

Lemma asking_served_sent :
  cv_sent (serve_connection (P := steady_peer) (@driver_handler first_life limits_defaults true) limits_defaults
    (Received <$> [take 20 asking_bytes; drop 20 asking_bytes]) true greeted (conversation_new limits_defaults)).2 = [told_bytes].
Proof. vm_compute. reflexivity. Qed.

(** The client that asks about the port behind the lost spine is told that its grant is fenced. *)
Lemma remote_query_answered_witness :
  exists f, call 3 (encode_authority_query (dependent_port 1)) 0
      (mkExchange success (Received <$> [take 50 told_bytes; drop 50 told_bytes])) asking_client
      = (Some (Value f), [query_frame (dependent_port 1) asking_client], (take_sequence asking_client).2)
    /\ frame_binding (fm_header f) = mkBinding 1 1 (co_boot_digest fenced) 2
    /\ decode_authority_response (fm_payload f) = Value (authority_answer told)
    /\ qr_has_authority (authority_answer told) = false /\ qr_outcome (authority_answer told) = Code.Fenced.
Proof.
  pose proof (@remote_query_answered first_life steady_peer limits_defaults true (dependent_port 1) asking_client greeted
    let_through asked told (conversation_new limits_defaults) [take 20 asking_bytes; drop 20 asking_bytes]) as H.
  pose proof asking_served_sent as Hs. destruct (serve_connection _ _ _ _ _ _) as [[w s'] cv']. cbn [snd] in Hs.
  destruct H as (_ & _ & (out & Hout & Hcall) & _).
  - vm_compute. congruence.
  - vm_compute. congruence.
  - done.
  - apply asking_ready.
  - reflexivity.
  - apply dependent_port_wire.
  - apply let_through_run.
  - apply told_run.
  - vm_compute. split_and!; reflexivity.
  - vm_compute. reflexivity.
  - repeat constructor; vm_compute; congruence.
  - repeat constructor; discriminate.
  - rewrite Hs in Hout. cbn [conversation_new cv_sent app] in Hout. injection Hout as <-.
    destruct (Hcall [take 50 told_bytes; drop 50 told_bytes]) as (f & Hf & Hb & _ & Hd).
    + repeat constructor; discriminate.
    + vm_compute. reflexivity.
    + vm_compute. congruence.
    + exists f. split_and!; [exact Hf|exact Hb|exact Hd|reflexivity|reflexivity].
Defined.

(** The same request, sent again after another hello, is declined. *)
Lemma driver_requires_authority_witness :
  let request := sealed_frame (query_frame (dependent_port 1) asking_client) in
  let '(h, s') := @driver_handler first_life limits_defaults true greeted request in
  handler_ok h = true /\ authorised_by (dr_coordinator greeted) (client_binding asking_client)
  /\ handler_ok (@driver_handler first_life limits_defaults true
       (handle_all (@driver_handler first_life limits_defaults true) s' [hello_request]).2 request).1 = false.
Proof.
  cbv zeta. pose proof (@driver_requires_authority first_life limits_defaults true greeted
    (sealed_frame (query_frame (dependent_port 1) asking_client)) (query_guarded _ _)) as H.
  cbv zeta in H. pose proof (@handler_answers_query first_life limits_defaults true (dependent_port 1) asking_client greeted
    let_through told asked dependent_port_wire let_through_run told_run) as E.
  rewrite E in H |- *. destruct H as [H _]. destruct (H eq_refl) as [Ha Hagain]. split_and!; [reflexivity|exact Ha|].
  apply (Hagain [hello_request]); [apply query_guarded|reflexivity|apply Z.le_refl].
Defined.
