(* ===== verification/Commands.v ===== *)
(** Commands of the driver (tools/sffctl.cpp): what they have in common, and what
    `sffctl plan` writes and the exit code it ends with, for every command
    line. Standard output and standard error are the lists of their lines. The
    clock is the driver's manual clock, which nothing advances; the rest of the
    machine is an argument. *)

From S2P Require Import Prelude Containers Core Generation Switch Authority Evidence Topology Bytes Integrity Records.
From S2P Require Import Journal Wire Decision Plan Policy Payloads Candidates Planner Validator Session.
From S2P Require Import Coordinator Failover Scenarios Fixture Frame Messages Server Socket Client CommandLine.

(** * Outcomes of a command *)

Definition kExitOk : Z := 0.
Definition kExitRefused : Z := 1.
Definition kExitUsage : Z := 2.
Definition kExitCorruptJournal : Z := 3.

Definition kClockStartNs : Z := 1000000000.
Definition kEvidenceWindowNs : Z := 30 * kNanosPerSecond.

Record Outcome := mkRun { ou_out : list string; ou_err : list string; ou_exit : Z }.

(** Lines written before the rest of a command. *)
Definition say (lines : list string) (rest : Outcome) : Outcome :=
  mkRun (lines ++ ou_out rest) (ou_err rest) (ou_exit rest).

Definition flag (b : bool) : string := if b then "true" else "false".

Definition refuse (summary_key : string) (code : Code) (detail : string) : Outcome :=
  mkRun [summary_key +:+ "=refused"; "refusal_code=" +:+ code_to_string code; "refusal_detail=" +:+ quoted_text detail;
         "sffctl_status=refused"; "exit=" +:+ dec kExitRefused] [] kExitRefused.

Definition refuse_status (summary_key : string) (status : Status) : Outcome :=
  refuse summary_key (status_code status) (status_message status).

Definition usage_text : list string :=
  ["usage: sffctl <command> [options]";
   "  sffctl demo  [--seed N] [--paths N] [--durable DIR]";
   "  sffctl replay --log DIR";
   "  sffctl plan  --seed N [--paths N] [--max-closure N]";
   "  sffctl serve --port N [--root DIR]";
   "  sffctl query --port N --dependent KIND:ID";
   "  sffctl stop  --port N";
   "  sffctl selftest";
   "  KIND is one of PORT, LINK, PATH, SERVICE. All fixtures are SYNTHETIC."].

(** `print_usage(std::cerr); std::cerr << "sffctl: " << ... ; return kExitUsage;` *)
Definition usage_error (detail : string) : Outcome := mkRun [] (usage_text ++ ["sffctl: " +:+ detail]) kExitUsage.

Definition succeeded : Outcome := mkRun ["sffctl_status=ok"; "exit=" +:+ dec kExitOk] [] kExitOk.

(** A method of the coordinator whose refusal ends the command. *)
Definition attempt {A} (key : string) (m : Op A) (c : Coordinator) (k : A -> Coordinator -> Outcome) : Outcome :=
  match m c with
  | (Refused status, _) => refuse_status key status
  | (Value a, c) => k a c
  end.

(** `if (command_line.has(name) && !parse_size(command_line.value(name), size)) ...`: the value, or [None]. *)
Definition optional_size (name : string) (value : Z) (options : Options) : option Z :=
  if has_option name options then parse_size (option_value name options) else Some value.

(** * The coordinator of a command *)

(** A machine under [ManualClock clock(kClockStartNs)]. *)
Definition manual_clock (W : World) : World := {|
  has_clock := true; clock_at _ := kClockStartNs; path_resolve := @path_resolve W; open_answer := @open_answer W;
  write_answer := @write_answer W; sync_answer := @sync_answer W; close_answer := @close_answer W;
  random_word := @random_word W; steady_ns := @steady_ns W; process_id := @process_id W |}.

Definition driver_config (durable_root : list string) (limits : Limits) : CoordinatorConfig :=
  mkConfig limits policy_defaults durable_root (negb (bool_decide (durable_root = []))) EvidenceClass.Synthetic 4096 1024 0.

(** [open_coordinator]: the coordinator, or the text of the refusal. *)
Definition open_coordinator {W : World} (durable_root : list string) (limits : Limits) (disk : Disk) : string + Coordinator :=
  match open (driver_config durable_root limits) disk with
  | Some (Value _, c) => inr c
  | Some (Refused status, _) => inl (status_to_string status)
  | None => inl ""
  end.

Definition fixture_declaration (fixture : Fixture) : FailureDeclaration :=
  mkDeclaration (fx_failed_switch fixture) EvidenceSource.SimulatedFixture kClockStartNs kEvidenceWindowNs
    "synthetic fixture: switch generation declared unusable".

(** * plan *)

Definition with_closure_bounds (l : Limits) (n : Z) : Limits :=
  mkLimits (max_switches l) (max_links l) (max_paths l) (max_ports l) (max_failure_domains l) n n
    (max_plan_steps l) (max_candidates_evaluated l) (max_unresolved_dependents l)
    (max_explanation_terms l) (max_retained_attempts l) (max_authority_grants l) (max_fences l) (max_evidence_records l)
    (max_event_records l) (max_journal_records l) (max_sessions l) (max_session_queue l) (max_frame_payload l)
    (max_document_bytes l) (freshness_window_ns l) (fence_horizon_ns l).

Definition plan_inputs_text (seed path_count : Z) (limits : Limits) (fixture : Fixture) (o : FailoverOutcome) : list string :=
  ["sffctl_command=plan"; "synthetic=true"; "seed=" +:+ dec seed; "paths=" +:+ dec path_count;
   "max_closure_nodes=" +:+ dec (max_closure_nodes limits);
   "topology_digest=" +:+ hex64 (tp_digest (fx_topology fixture));
   "candidate_table_digest=" +:+ hex64 (ct_digest (fx_candidates fixture));
   "closure_state=" +:+ closure_state_to_string (dc_state (fo_closure o));
   "closure_truncated=" +:+ flag (closure_truncated (fo_closure o));
   "closure_dependents=" +:+ dec (zlen (dc_dependents (fo_closure o)))].

(** `total_hops += step.hops.size()` on a 64-bit size. *)
Definition hop_total (plan : ReconstructionPlan) : Z :=
  foldl (fun n step => add64 n (zlen (rs_hops step))) 0 (pl_restores plan).

Definition plan_text (plan : ReconstructionPlan) : list string :=
  ["plan_id=" +:+ dec (pl_id plan); "plan_digest=" +:+ hex64 (compute_digest plan);
   "objective_unresolved=" +:+ dec (unresolved_count plan); "objective_total_cost=" +:+ dec (total_cost plan);
   "objective_total_hops=" +:+ dec (hop_total plan); "feasibility=" +:+ feasibility_to_string (pl_feasibility plan);
   "plan_state=" +:+ plan_state_to_string (pl_state plan);
   "plan_closure_complete=" +:+ flag (pl_closure_complete plan); "plan_restores=" +:+ dec (zlen (pl_restores plan))]
  ++ ((fun u => "plan_unresolved_entry=" +:+ dependent_to_string (ud_dependent u) +:+ " reason="
         +:+ unresolved_reason_to_string (ud_reason u) +:+ " proven=" +:+ flag (is_proven_negative (ud_reason u)))
      <$> pl_unresolved plan).

Section commands.
Context {M : World} {G : Shuffle}.

#[local] Instance clocked : World := manual_clock M.

(** [run_plan] once its options are read. *)
Definition plan_command (disk : Disk) (seed path_count : Z) (limits : Limits) : Outcome :=
  match build_fixture path_count seed limits_defaults with
  | inl error => refuse "plan_fixture" Code.Invalid error
  | inr fixture =>
      match open_coordinator [] limits disk with
      | inl error => refuse "plan_open" Code.Invalid error
      | inr c =>
          attempt "plan_install_topology" (install_topology (fx_topology fixture)) c (fun _ c =>
          attempt "plan_install_candidates" (install_candidates (fx_candidates fixture)) c (fun _ c =>
          attempt "plan_declare_failure" (declare_failure (fixture_declaration fixture)) c (fun o c =>
          say (plan_inputs_text seed path_count limits fixture o)
            (attempt "plan_propose" (propose_plan (fx_failed fixture)) c (fun plan c =>
             say (plan_text plan) (attempt "plan_shutdown" shutdown c (fun _ _ => succeeded)))))))
      end
  end.

Definition plan_limits (options : Options) : option Limits :=
  if has_option "max-closure" options then
    match parse_size (option_value "max-closure" options) with
    | Some max_closure => if max_closure =? 0 then None else Some (with_closure_bounds limits_defaults max_closure)
    | None => None
    end
  else Some limits_defaults.

Definition run_plan (disk : Disk) (args : list string) : Outcome :=
  if zlen args <? 3 then usage_error "plan requires --seed N"
  else
    match command_parse args 2 ["seed"; "paths"; "max-closure"] with
    | inl error => usage_error error
    | inr options =>
        if negb (has_option "seed" options) then usage_error "plan requires --seed N"
        else
          match parse_u64 (option_value "seed" options) with
          | None => usage_error "--seed requires an unsigned decimal value"
          | Some seed =>
              match optional_size "paths" 4 options with
              | None => usage_error "--paths requires an unsigned decimal value"
              | Some path_count =>
                  match plan_limits options with
                  | None => usage_error "--max-closure requires a positive unsigned decimal value"
                  | Some limits => plan_command disk seed path_count limits
                  end
              end
          end
    end.
End commands.

(** * What a seed changes *)

(** Options that agree but for the seed. *)
Definition seed_alike (o o' : Options) : Prop :=
  Forall2 (fun a b => a.1 = b.1 /\ (a.1 <> "seed" -> a.2 = b.2)) o o'.

Lemma alike_find name o o' : seed_alike o o' -> is_Some (find_option name o) <-> is_Some (find_option name o').
Proof.
  unfold find_option. induction 1 as [|[n v] [n' v'] o o' [Hn Hv] _ IH]; [done|]. cbn [fst] in Hn. subst n'. cbn [List.find fst].
  by case_bool_decide.
Qed.

Lemma alike_has name o o' : seed_alike o o' -> has_option name o = has_option name o'.
Proof. intros H. unfold has_option. apply bool_decide_ext. by apply alike_find. Qed.

Lemma alike_value name o o' : seed_alike o o' -> name <> "seed" -> option_value name o = option_value name o'.
Proof.
  intros H Hn. unfold option_value, find_option. f_equal. induction H as [|[n v] [n' v'] o o' [He Hv] _ IH]; [done|].
  cbn [fst snd] in He, Hv. subst n'. cbn [List.find fst]. case_bool_decide; [subst n; by rewrite Hv|done].
Qed.

Lemma alike_parse allowed tokens o o' : seed_alike o o' ->
  match parse_options allowed tokens o, parse_options allowed tokens o' with
  | inl e, inl e' => e = e'
  | inr r, inr r' => seed_alike r r' /\ o `prefix_of` r /\ o' `prefix_of` r'
  | _, _ => False
  end.
Proof.
  intros H. remember (length tokens) as len eqn:Hlen. revert tokens o o' H Hlen.
  induction len as [len IH] using (well_founded_induction lt_wf). intros tokens o o' H ->.
  destruct tokens as [|token rest]; [by split_and!|]. cbn [parse_options].
  destruct (negb (is_option_token token)); [done|]. destruct (negb _); [done|]. destruct rest as [|value rest]; [done|].
  rewrite (alike_has _ o o' H). destruct (has_option (option_name token) o'); [done|].
  assert (H' : seed_alike (o ++ [(option_name token, value)]) (o' ++ [(option_name token, value)]))
    by (apply Forall2_app; [done|by repeat constructor]).
  specialize (IH (length rest) ltac:(cbn [length]; lia) rest _ _ H' eq_refl).
  destruct (parse_options allowed rest (o ++ _)) as [e|r], (parse_options allowed rest (o' ++ _)) as [e'|r']; try done.
  destruct IH as (Ha & Hp & Hp'). by split_and!; [|eapply prefix_app_l..].
Qed.

Lemma parse_size_nonneg text n : parse_size text = Some n -> 0 <= n.
Proof.
  unfold parse_size. destruct (parse_u64 text) as [v|] eqn:E; [|done]. destruct (_ <? _); [done|]. intros [= <-].
  apply parse_u64_exact in E as (_ & Hd & -> & _). by apply decimal_value_grows.
Qed.

Lemma optional_size_nonneg name dflt o n : 0 <= dflt -> optional_size name dflt o = Some n -> 0 <= n.
Proof. intros Hd. unfold optional_size. destruct (has_option name o); [apply parse_size_nonneg|by intros [= <-]]. Qed.

Lemma parse_seed_first v rest allowed : command_parse ("sffctl" :: "plan" :: "--seed" :: v :: rest) 2 ("seed" :: allowed)
  = parse_options ("seed" :: allowed) rest [("seed"%string, v)].
Proof.
  unfold command_parse. cbn [drop parse_options]. change (option_name "--seed") with "seed"%string.
  by rewrite (bool_decide_eq_true_2 ("seed"%string ∈ "seed"%string :: allowed)) by (constructor).
Qed.

(** A command's output without the line that repeats the seed. *)
Definition is_seed_line (line : string) : bool := String.prefix "seed=" line.
Definition without_seed (lines : list string) : list string := List.filter (fun l => negb (is_seed_line l)) lines.

Definition same_but_seed (o o' : Outcome) : Prop :=
  without_seed (ou_out o) = without_seed (ou_out o') /\ ou_err o = ou_err o' /\ ou_exit o = ou_exit o'.

#[export] Instance same_but_seed_equivalence : Equivalence same_but_seed.
Proof.
  split; [done|by intros o o' (?&?&?)|]. intros a b c (H1 & H2 & H3) (H4 & H5 & H6). unfold same_but_seed.
  by rewrite H1, H2, H3.
Qed.

Lemma say_alike lines lines' o o' : without_seed lines = without_seed lines' -> same_but_seed o o' ->
  same_but_seed (say lines o) (say lines' o').
Proof. intros Hl (Ho & He & Hx). unfold same_but_seed, without_seed in *. cbn. by rewrite !List.filter_app, Hl, Ho. Qed.

Lemma attempt_alike {A} key (m : Op A) c k k' : (forall a c, same_but_seed (k a c) (k' a c)) ->
  same_but_seed (attempt key m c k) (attempt key m c k').
Proof. intros Hk. unfold attempt. by destruct (m c) as [[a|s] c']. Qed.

Lemma seed_line n : is_seed_line ("seed=" +:+ dec n) = true.
Proof. by destruct (dec n). Qed.

Lemma plan_text_alike seed seed' n limits f o :
  without_seed (plan_inputs_text seed n limits f o) = without_seed (plan_inputs_text seed' n limits f o).
Proof.
  unfold without_seed, plan_inputs_text. cbn [List.filter]. rewrite !seed_line.
  change (is_seed_line "sffctl_command=plan") with false. change (is_seed_line "synthetic=true") with false. done.
Qed.

Lemma plan_command_alike {M : World} (G G' : Shuffle) disk seed seed' n limits : 0 <= n ->
  same_but_seed (@plan_command M G disk seed n limits) (@plan_command M G' disk seed' n limits).
Proof.
  intros Hn. unfold plan_command. rewrite (fixture_same G G' n seed seed') by done.
  destruct (@build_fixture G' _ _ _) as [error|f]; [reflexivity|]. destruct (open_coordinator _ _ _) as [error|c]; [reflexivity|].
  do 3 (apply attempt_alike; intros). apply say_alike; [apply plan_text_alike|reflexivity].
Qed.

(** C40. The seed of `sffctl plan` changes nothing but the line that repeats it:
    for any two seeds, any two generators that only permute, and the same further
    options, in runs that are alike in everything else (clock, process id and boot
    nonce included, which the printed plan digest covers), the command ends with the same exit code, writes
    the same lines to standard error and the same lines but for `seed=` to
    standard output, whether it plans, refuses or reports a usage error. *)
Theorem plan_ignores_seed {M : World} (G G' : Shuffle) (disk : Disk) (a b : string) (s s' : Z) (rest : list string) :
  parse_u64 a = Some s -> parse_u64 b = Some s' ->
  same_but_seed (@run_plan M G disk ("sffctl" :: "plan" :: "--seed" :: a :: rest))
    (@run_plan M G' disk ("sffctl" :: "plan" :: "--seed" :: b :: rest)).
Proof.
  intros Ha Hb. unfold run_plan.
  assert (Hlen : forall v, (zlen ("sffctl" :: "plan" :: "--seed" :: v :: rest)%string <? 3) = false).
  { intros v. rewrite !zlen_cons. pose proof (zlen_nonneg rest). lia. }
  rewrite !Hlen, !parse_seed_first. assert (H0 : seed_alike [("seed"%string, a)] [("seed"%string, b)]) by by repeat constructor.
  pose proof (alike_parse ["seed"; "paths"; "max-closure"]%string rest _ _ H0) as H.
  destruct (parse_options _ rest [("seed"%string, a)]) as [e|o], (parse_options _ rest [("seed"%string, b)]) as [e'|o'];
    [by subst|done|done|].
  destruct H as (H & [k ->] & [k' ->]). cbn [app] in H |- *. rewrite (alike_has "seed" _ _ H). change (has_option "seed" (_ :: k')) with true.
  cbn [negb]. change (option_value "seed" (_ :: k)) with a. change (option_value "seed" (_ :: k')) with b. rewrite Ha, Hb.
  unfold optional_size, plan_limits. rewrite (alike_has "paths" _ _ H), (alike_has "max-closure" _ _ H).
  rewrite (alike_value "paths" _ _ H), (alike_value "max-closure" _ _ H) by done. fold (optional_size "paths" 4 (("seed"%string, b) :: k')).
  destruct (optional_size "paths" 4 _) as [n|] eqn:Hn; [|reflexivity]. fold (plan_limits (("seed"%string, b) :: k')).
  destruct (plan_limits _) as [limits|]; [|reflexivity]. apply plan_command_alike. refine (optional_size_nonneg _ _ _ _ _ Hn). lia.
Qed.

Lemma plan_ignores_seed_witness :
  same_but_seed (@run_plan first_life in_order empty_disk ["sffctl"; "plan"; "--seed"; "7"; "--paths"; "1"]%string)
    (@run_plan first_life backwards empty_disk ["sffctl"; "plan"; "--seed"; "4242"; "--paths"; "1"]%string).
Proof. apply (plan_ignores_seed in_order backwards empty_disk "7" "4242" 7 4242 ["--paths"; "1"]%string); reflexivity. Defined.

(** * What a run changes *)

Definition planned_on (M : World) : list string :=
  ou_out (@run_plan M in_order empty_disk ["sffctl"; "plan"; "--seed"; "7"; "--paths"; "1"; "--max-closure"; "1"]%string).

(** The plan's digest covers the boot identity, so the same command on another
    boot of the machine prints another digest. *)
Theorem plan_output_varies : bool_decide (planned_on first_life = planned_on second_life) = false.
Proof. vm_cast_no_check (eq_refl false). Qed.
