(* ===== verification/Query.v ===== *)
(** The commands of the driver that talk to a running server (tools/sffctl.cpp:
    `sffctl query` and `sffctl stop`), and the whole conversation of `sffctl
    query` with the handler of `sffctl serve`: what the operator reads is what
    the coordinator decided. What the network does is an argument, as for the
    client; [None] is a command that is still waiting. *)

From S2P Require Import Prelude Containers Core Generation Switch Authority Evidence Topology Bytes Integrity Records.
From S2P Require Import Journal Wire Decision Plan Policy Payloads Candidates Planner Validator Session.
From S2P Require Import Coordinator Failover Runtime Fencing Scenarios Fixture Frame Messages Server Socket Client CommandLine.
From S2P Require Import Driver Remote Commands.

(** * query *)

(** The options of `sffctl query`: a port and a dependent. *)
Definition query_arguments (args : list string) : string + (Z * DependentRef) :=
  match command_parse args 2 ["port"; "dependent"] with
  | inl error => inl error
  | inr options =>
      if negb (has_option "port" options) || negb (has_option "dependent" options) then
        inl "query requires --port N and --dependent KIND:ID"
      else
        let usage_of_port := "--port requires an unsigned decimal value in [1,65535]" in
        match parse_port (option_value "port" options) with
        | None => inl usage_of_port
        | Some port =>
            if port =? 0 then inl usage_of_port
            else
              match parse_dependent (option_value "dependent" options) with
              | None => inl "--dependent requires KIND:ID with KIND in {PORT,LINK,PATH,SERVICE}"
              | Some dependent => inr (port, dependent)
              end
        end
  end.

Definition answer_text (answer : AuthorityQueryResponse) : list string :=
  ["query_outcome=" +:+ code_to_string (qr_outcome answer); "query_reason=" +:+ code_to_string (qr_reason answer);
   "query_has_authority=" +:+ flag (qr_has_authority answer); "query_active_grants=" +:+ dec (qr_active_grants answer);
   "query_withdrawn_grants=" +:+ dec (qr_withdrawn_grants answer);
   "query_fenced_generations=" +:+ dec (qr_fenced_generations answer); "query_digest=" +:+ hex64 (qr_digest answer)].

(** `Status closed = client->close(); if (!closed.ok()) ...` *)
Definition closing (key : string) (c : FrameClient) (rest : Outcome) : Outcome :=
  let '(closed, _) := client_close c in if negb (status_ok closed) then refuse_status key closed else rest.

(** What the command makes of the reply. *)
Definition query_reply (frame : Frame) (c : FrameClient) : Outcome :=
  if fh_type (fm_header frame) =? message_type_raw MessageType.Error then
    match decode_error_payload (fm_payload frame) with
    | Refused status => refuse_status "query_error_payload" status
    | Value (code, detail) => refuse "query_answered" code detail
    end
  else if negb (fh_type (fm_header frame) =? message_type_raw MessageType.AuthorityResult) then
    refuse "query_answered" Code.Invalid "unexpected response message type"
  else
    match decode_authority_response (fm_payload frame) with
    | Refused status => refuse_status "query_decode" status
    | Value answer => say (answer_text answer) (closing "query_close" c succeeded)
    end.

Definition run_query (args : list string) (ready : Status) (socket : Result Socket) (hello reply : Exchange) : option Outcome :=
  match query_arguments args with
  | inl error => Some (usage_error error)
  | inr (port, dependent) =>
      say ["sffctl_command=query"; "query_port=" +:+ dec port; "query_dependent=" +:+ dependent_to_string dependent] <$>
        match client_connect "127.0.0.1" port limits_defaults ready socket with
        | Refused status => Some (refuse_status "query_connect" status)
        | Value c =>
            match handshake "sffctl-query" hello c with
            | (None, _, _) => None
            | (Some status, _, c) =>
                if negb (status_ok status) then Some (refuse_status "query_handshake" status)
                else
                  say ["query_session=" +:+ dec (cl_session c); "query_epoch=" +:+ dec (cl_epoch c)] <$>
                    match call (message_type_raw MessageType.QueryAuthority) (encode_authority_query dependent) 0 reply c with
                    | (None, _, _) => None
                    | (Some (Refused status), _, _) => Some (refuse_status "query_call" status)
                    | (Some (Value frame), _, c) => Some (query_reply frame c)
                    end
            end
        end
  end.

(** * stop *)

Definition stop_arguments (args : list string) : string + Z :=
  match command_parse args 2 ["port"] with
  | inl error => inl error
  | inr options =>
      if negb (has_option "port" options) then inl "stop requires --port N"
      else
        let usage_of_port := "--port requires an unsigned decimal value in [1,65535]" in
        match parse_port (option_value "port" options) with
        | None => inl usage_of_port
        | Some port => if port =? 0 then inl usage_of_port else inr port
        end
  end.

(** A lost acknowledgement is reported, not refused. *)
Definition stop_response (reply : Result Frame) : string :=
  match reply with
  | Value frame =>
      if fh_type (fm_header frame) =? message_type_raw MessageType.Goodbye then "stop_response=Goodbye"
      else "stop_response=" +:+ message_type_to_string (fh_type (fm_header frame))
  | Refused status => "stop_response_code=" +:+ code_to_string (status_code status)
  end.

Definition run_stop (args : list string) (ready : Status) (socket : Result Socket) (hello reply : Exchange) : option Outcome :=
  match stop_arguments args with
  | inl error => Some (usage_error error)
  | inr port =>
      say ["sffctl_command=stop"; "stop_port=" +:+ dec port] <$>
        match client_connect "127.0.0.1" port limits_defaults ready socket with
        | Refused status => Some (refuse_status "stop_connect" status)
        | Value c =>
            match handshake "sffctl-stop" hello c with
            | (None, _, _) => None
            | (Some status, _, c) =>
                if negb (status_ok status) then Some (refuse_status "stop_handshake" status)
                else
                  match call (message_type_raw MessageType.Goodbye) [] 0 reply c with
                  | (None, _, _) => None
                  | (Some response, _, c) =>
                      Some (say [stop_response response; "stop_sent=true"] (closing "stop_close" c succeeded))
                  end
            end
        end
  end.

(** * The conversation *)

(** The client of `sffctl query` once connected, and once a session was granted. *)
Definition connected_client (fd : Z) : FrameClient :=
  mkClient (guard_of (Some fd)) limits_defaults false 0 0 0 1 false (stream_new limits_defaults).
Definition granted_client (fd session epoch boot_digest : Z) : FrameClient :=
  mkClient (guard_of (Some fd)) limits_defaults true session epoch boot_digest 2 false (stream_new limits_defaults).

Lemma connects fd port : port <> 0 -> client_connect "127.0.0.1" port limits_defaults success (Value (Some fd)) = Value (connected_client fd).
Proof.
  intros Hp. unfold client_connect. change (bool_decide ("127.0.0.1" = ""))%string with false.
  by rewrite (proj2 (Z.eqb_neq _ _)).
Qed.

(** What a grant must be to be sent and taken. *)
Record grantable (session epoch boot_digest : Z) : Prop := {
  gr_session : in_u64 session /\ id_valid session = true;
  gr_epoch : in_u64 epoch /\ id_valid epoch = true;
  gr_boot : in_u64 boot_digest
}.

Definition granted (session epoch boot_digest : Z) : HelloResponse :=
  hello_response limits_defaults Code.Ok session epoch boot_digest.

Lemma grant_ok session epoch boot_digest : grantable session epoch boot_digest -> hello_response_ok (granted session epoch boot_digest).
Proof. intros [[? ?] [? ?] ?]. by split; [..|vm_compute; split; congruence|vm_compute; split; congruence|]. Qed.

Lemma granted_ready fd session epoch boot_digest : grantable session epoch boot_digest ->
  client_ready (granted_client fd session epoch boot_digest).
Proof. intros [[? ?] [? ?] ?]. split; [done|done|done|vm_compute; split; [done|split; congruence]|done]. Qed.

Definition greeting : Frame := hello_frame "sffctl-query" 1.

Lemma greeting_request_ok : hello_request_ok (mkHelloRequest "sffctl-query" kFrameFormatVersion).
Proof. by split; vm_compute; [|split; congruence]. Qed.

(** The handler opens a session for a hello. *)
Lemma handler_grants {W : World} durable s record k0 :
  open_session "sffctl-query" (dr_coordinator s) = (Value record, k0) ->
  driver_handler limits_defaults durable s (sealed_frame greeting)
  = (respond MessageType.HelloAck (encode_hello_response (granted (sr_id record) (co_epoch k0) (co_boot_digest k0))),
     with_coordinator s k0).
Proof.
  intros Ho. unfold driver_handler. change (fh_type (fm_header (sealed_frame greeting))) with (message_type_raw MessageType.Hello).
  rewrite Z.eqb_refl. unfold handle_hello.
  change (fm_payload (sealed_frame greeting)) with (encode_hello_request (mkHelloRequest "sffctl-query" kFrameFormatVersion)).
  rewrite (codec_roundtrip _ greeting_request_ok). cbn [hq_format_version hq_principal].
  rewrite Z.eqb_refl. cbn [negb]. by rewrite Ho.
Qed.

(** The client takes the session it is granted. *)
Lemma handshake_adopts fd session epoch boot_digest r out downs :
  grantable session epoch boot_digest -> frame_ok r -> encode_frame r limits_defaults = Value out ->
  fh_type (fm_header r) = message_type_raw MessageType.HelloAck ->
  fm_payload r = encode_hello_response (granted session epoch boot_digest) ->
  Forall (fun d => d <> []) downs -> concat downs = out ->
  handshake "sffctl-query" (mkExchange success (Received <$> downs)) (connected_client fd)
  = (Some success, [greeting], granted_client fd session epoch boot_digest).
Proof.
  intros Hg Hok He Ht Hp Hne Hcat. unfold handshake. change (bool_decide ("sffctl-query" = ""))%string with false.
  change (negb (guard_valid (cl_guard (connected_client fd)))) with false. cbn [cl_handshaken connected_client].
  set (c := mkClient (guard_of (Some fd)) limits_defaults false 0 0 0 2 false (stream_new limits_defaults)).
  change (take_sequence (connected_client fd)) with (Some 1, c). cbv iota beta. fold greeting.
  rewrite (round_trip_receives greeting downs r out c); [|done|done|vm_compute; congruence|done..].
  unfold hello_outcome. change (fh_type (fm_header (sealed_frame r))) with (fh_type (fm_header r)).
  change (fm_payload (sealed_frame r)) with (fm_payload r). rewrite Ht, Hp.
  change (message_type_raw MessageType.HelloAck =? message_type_raw MessageType.Error) with false. rewrite Z.eqb_refl. cbn [negb].
  rewrite (codec_roundtrip _ (grant_ok _ _ _ Hg)). destruct Hg as [[_ Hs] [_ He'] _].
  unfold granted, hello_response. cbn [hr_format_version hr_outcome hr_session hr_epoch]. rewrite Z.eqb_refl, Hs, He'.
  rewrite bool_decide_eq_true_2 by done. cbn [negb orb]. reflexivity.
Qed.

(** Under the registry's invariant what [session_open] stores is what it returns. *)
Lemma next_session_fresh r : sessions_wf r -> map_find (sg_next_session r) (sg_sessions r) = None.
Proof.
  intros Hr. apply map_find_none. intros Hk%(sw_dense _ Hr). pose proof (sw_next _ Hr). lia.
Qed.

Lemma session_open_stored principal epoch boot now_ns r record r' : sessions_wf r ->
  session_open principal epoch boot now_ns r = (Some (Value record), r') ->
  map_find (sr_id record) (sg_sessions r') = Some record /\ sr_closed record = false /\ Session.sr_epoch record = epoch
  /\ sr_last_request_seq record = 0.
Proof.
  intros Hr. pose proof (next_session_fresh r Hr) as Hn. unfold session_open. repeat split_test; [done..|].
  unfold map_emplace, map_contains. rewrite Hn, map_find_set_eq. intros [= <- <-]. cbn. by rewrite map_find_set_eq.
Qed.

(** A session that was just opened lets its first request through. *)
Lemma opened_authorised {W : World} principal c record k0 : sessions_wf (co_sessions c) ->
  open_session principal c = (Value record, k0) -> co_boot_digest k0 <> 0 ->
  authorised_by k0 (mkBinding (sr_id record) (co_epoch k0) (co_boot_digest k0) 2).
Proof.
  intros Hw Ho Hd. unfold open_session, ensure_running, append_event, append_event_about, gets, modify, op_bind, on_sessions, unwrap, now in Ho.
  destruct (co_stopped c); [done|].
  destruct has_clock; cbn in Ho; destruct (session_open _ _ _ _ _) as [[[rec|st]|] r] eqn:Hs; try done;
    cbn in Ho; injection Ho as <- <-; apply session_open_stored in Hs as (Hf & Hc & He & Hl); [|done|..|done];
    exists rec; cbn in *; split_and!; first [done|by rewrite Hl].
Qed.

Lemma arguments_wire args port dependent : query_arguments args = inr (port, dependent) -> port <> 0 /\ wire_dependent_ok dependent.
Proof.
  unfold query_arguments. destruct (command_parse _ _ _) as [e|o]; [done|]. destruct (_ || _); [done|].
  destruct (parse_port _) as [p|]; [|done]. destruct (p =? 0) eqn:Hp; [done|].
  destruct (parse_dependent (option_value "dependent" o)) as [d|] eqn:Hd; [|done]. intros [= <- <-]. split; [lia|].
  apply dependent_parsed_exactly in Hd as (kind & id & _ & _ & _ & Hk & _ & _ & _ & Hv & Hu). split.
  - unfold dependent_valid, id_valid. destruct (dep_kind d); [done|..]; by rewrite (proj2 (Z.eqb_neq _ _)) by lia.
  - unfold UINT64_LAST in Hu. ints. lia.
Qed.

(** Both requests of the command get their answers. *)
Lemma conversation_answered {W : World} {P : Peer} durable s fd record k0 dependent k q k' ups ups' :
  steady P -> open_session "sffctl-query" (dr_coordinator s) = (Value record, k0) ->
  grantable (sr_id record) (co_epoch k0) (co_boot_digest k0) -> wire_dependent_ok dependent ->
  let c := granted_client fd (sr_id record) (co_epoch k0) (co_boot_digest k0) in
  co_authorise (client_binding c) k0 = (Value tt, k) -> query_authority dependent k = (Value q, k') ->
  encode_frame greeting limits_defaults = Value (concat ups) ->
  encode_frame (query_frame dependent c) limits_defaults = Value (concat ups') ->
  Forall (Forall in_u8) (ups ++ ups') -> Forall (fun piece => piece <> []) (ups ++ ups') ->
  let '(waiting, s', cv) := serve_connection (driver_handler limits_defaults durable) limits_defaults
    (Received <$> (ups ++ ups')) true s (conversation_new limits_defaults) in
  waiting = true /\ s' = with_coordinator s k'
  /\ exists out out', cv_sent cv = [out; out']
     /\ answers limits_defaults (sealed_frame greeting)
          (respond MessageType.HelloAck (encode_hello_response (granted (sr_id record) (co_epoch k0) (co_boot_digest k0)))) out
     /\ answers limits_defaults (sealed_frame (query_frame dependent c))
          (respond MessageType.AuthorityResult (encode_authority_response (authority_answer q))) out'.
Proof.
  intros Hst Ho Hg Hd c Ha Hq He He' Hu Hne.
  pose proof (handler_grants durable s record k0 Ho) as H1.
  pose proof (handler_answers_query limits_defaults durable dependent c (with_coordinator s k0) k q k' Hd Ha Hq) as H2.
  destruct (codec_bytes (PayloadCodec := authority_query_codec) dependent Hd) as [Hb _].
  assert (Hok1 : frame_ok greeting).
  { split; [split; vm_compute; split; congruence|done|done|]. apply (codec_bytes (PayloadCodec := hello_request_codec)), greeting_request_ok. }
  assert (Hok2 : frame_ok (query_frame dependent c)) by (apply call_frame_ok; [by apply granted_ready|done|vm_compute; split; congruence|done]).
  assert (Hshort : forall f (pieces : list (list Z)), encode_frame f limits_defaults = Value (concat pieces) ->
    Forall (fun d => zlen d <= frame_bytes_max limits_defaults) pieces).
  { intros f pieces Hf. apply Forall_forall. intros d Hin%chunk_short. pose proof (encoded_short _ _ _ Hf). lia. }
  assert (Henc : encodings limits_defaults [greeting; query_frame dependent c] [concat ups; concat ups'])
    by (constructor; [by split|constructor; [by split|constructor]]).
  assert (Hr := requests_answered (driver_handler limits_defaults durable) limits_defaults [greeting; query_frame dependent c]
    [concat ups; concat ups'] (ups ++ ups') true s (conversation_new limits_defaults) (driver_handler_typed limits_defaults durable)
    ltac:(vm_compute; congruence) Hst ltac:(vm_compute; congruence) Henc
    ltac:(apply Forall_app; split; eauto) Hu Hne ltac:(cbn; by rewrite app_nil_r, concat_app) eq_refl).
  destruct (serve_connection _ _ _ _ _ _) as [[w s'] cv]. destruct Hr as (-> & -> & outs & Hsent & Hall).
  cbn [fmap list_fmap handle_all] in Hall |- *. rewrite H1 in Hall |- *. cbv iota beta in Hall |- *. rewrite H2 in Hall |- *.
  cbn [fst snd] in Hall |- *. split_and!; [done|done|].
  apply Forall3_cons_inv_l in Hall as (? & ? & out & ? & [= <- <-] & -> & A1 & Hall).
  apply Forall3_cons_inv_l in Hall as (? & ? & out' & ? & [= <- <-] & -> & A2 & Hnil). inversion_clear Hnil in Hsent.
  by exists out, out'.
Qed.

(** A response that can be sent is sent as it is. *)
Lemma response_carried limits request type payload out :
  answers limits request (respond type payload) out -> is_valid_message_type (message_type_raw type) = true ->
  zlen payload <= frame_payload_ceiling limits ->
  exists r, frame_ok r /\ encode_frame r limits = Value out /\ fh_type (fm_header r) = message_type_raw type /\ fm_payload r = payload.
Proof.
  intros (r & Hok & He & _ & Hc) Ht Hz.
  assert (Hcar : carried limits (respond type payload) = true).
  { unfold carried. cbn [respond handled_response fm_payload fm_header fh_type]. rewrite Ht, (proj2 (Z.leb_le _ _)) by done. done. }
  rewrite Hcar in Hc. destruct Hc as (H1 & _ & H2). by exists r.
Qed.

(** The lines of an answered query. *)
Definition query_output (port : Z) (dependent : DependentRef) (session epoch : Z) (answer : AuthorityQueryResponse) : list string :=
  ["sffctl_command=query"; "query_port=" +:+ dec port; "query_dependent=" +:+ dependent_to_string dependent;
   "query_session=" +:+ dec session; "query_epoch=" +:+ dec epoch] ++ answer_text answer.

(** The command, when both answers reach it. *)
Lemma query_told args port dependent fd session epoch boot_digest answer out out' downs downs' :
  query_arguments args = inr (port, dependent) -> grantable session epoch boot_digest -> authority_response_ok answer ->
  answers limits_defaults (sealed_frame greeting)
    (respond MessageType.HelloAck (encode_hello_response (granted session epoch boot_digest))) out ->
  answers limits_defaults (sealed_frame (query_frame dependent (granted_client fd session epoch boot_digest)))
    (respond MessageType.AuthorityResult (encode_authority_response answer)) out' ->
  Forall (fun piece => piece <> []) downs -> Forall (fun piece => piece <> []) downs' -> concat downs = out -> concat downs' = out' ->
  run_query args success (Value (Some fd)) (mkExchange success (Received <$> downs)) (mkExchange success (Received <$> downs'))
  = Some (say (query_output port dependent session epoch answer) succeeded).
Proof.
  intros Hargs Hg Hok A1 A2 Hn Hn' Hc Hc'. destruct (arguments_wire _ _ _ Hargs) as [Hp Hd].
  assert (Hz : forall n, n <= kTextBudget -> n <= frame_payload_ceiling limits_defaults).
  { intros n Hn0. etrans; [exact Hn0|]. vm_compute. congruence. }
  destruct (response_carried _ _ _ _ _ A1 eq_refl) as (r1 & Hok1 & He1 & Ht1 & Hp1).
  { apply Hz, (codec_bytes (PayloadCodec := hello_response_codec)), grant_ok, Hg. }
  destruct (response_carried _ _ _ _ _ A2 eq_refl) as (r2 & Hok2 & He2 & Ht2 & Hp2).
  { by apply Hz, (codec_bytes (PayloadCodec := authority_response_codec)). }
  unfold run_query. rewrite Hargs, connects by done.
  rewrite (handshake_adopts fd session epoch boot_digest r1 out downs) by done.
  change (status_ok success) with true. cbn [negb].
  rewrite (call_receives (message_type_raw MessageType.QueryAuthority) 0 (encode_authority_query dependent) downs' r2 out'
    (granted_client fd session epoch boot_digest) (granted_ready fd _ _ _ Hg) eq_refl
    (Hz _ (proj2 (codec_bytes (PayloadCodec := authority_query_codec) dependent Hd))) Hok2 He2 Hn' Hc').
  cbn [fmap option_fmap option_map]. f_equal. unfold query_reply.
  change (fh_type (fm_header (sealed_frame r2))) with (fh_type (fm_header r2)). change (fm_payload (sealed_frame r2)) with (fm_payload r2).
  rewrite Ht2, Hp2. change (message_type_raw MessageType.AuthorityResult =? message_type_raw MessageType.Error) with false.
  rewrite Z.eqb_refl. cbn [negb]. by rewrite (codec_roundtrip (PayloadCodec := authority_response_codec) _ Hok).
Qed.

(** C6. What `sffctl query` prints is what the coordinator behind `sffctl serve`
    decided: for every command line it accepts, when the server opens a session
    for it, the session's first request is let through and the coordinator makes
    the query the command asks for, and nothing else; and when the bytes of the
    two requests reach the server and those of the two responses the command, cut
    into pieces in any way, the command exits with success and prints that
    session, that epoch and that answer. If a failure was declared to the
    coordinator before, whatever was handled since, an answer that reports
    authority does not rest on the failed generation. *)
Theorem query_command_truthful {W : World} {P : Peer} (durable : bool) (s : DriverState) (args : list string) (port fd : Z)
  (dependent : DependentRef) (record : SessionRecord) (k0 : Coordinator) :
  steady P -> query_arguments args = inr (port, dependent) -> sessions_wf (co_sessions (dr_coordinator s)) ->
  open_session "sffctl-query" (dr_coordinator s) = (Value record, k0) -> co_boot_digest k0 <> 0 ->
  grantable (sr_id record) (co_epoch k0) (co_boot_digest k0) ->
  let c := granted_client fd (sr_id record) (co_epoch k0) (co_boot_digest k0) in
  exists k q k', co_authorise (client_binding c) k0 = (Value tt, k) /\ query_authority dependent k = (Value q, k')
  /\ (counts_fit q -> forall ups ups',
        encode_frame greeting limits_defaults = Value (concat ups) ->
        encode_frame (query_frame dependent c) limits_defaults = Value (concat ups') ->
        Forall (Forall in_u8) (ups ++ ups') -> Forall (fun piece => piece <> []) (ups ++ ups') ->
        let '(waiting, s', cv) := serve_connection (driver_handler limits_defaults durable) limits_defaults
          (Received <$> (ups ++ ups')) true s (conversation_new limits_defaults) in
        waiting = true /\ s' = with_coordinator s k' /\ exists out out', cv_sent cv = [out; out']
        /\ forall downs downs', Forall (fun piece => piece <> []) downs -> Forall (fun piece => piece <> []) downs' ->
             concat downs = out -> concat downs' = out' ->
             run_query args success (Value (Some fd)) (mkExchange success (Received <$> downs))
               (mkExchange success (Received <$> downs'))
             = Some (say (query_output port dependent (sr_id record) (co_epoch k0) (authority_answer q)) succeeded))
  /\ (forall d c0 o c1 b fs, registry_bounded (co_authority c0) -> declare_failure d c0 = (Value o, c1) ->
        s = (handle_all (driver_handler limits_defaults durable) (mkDriver c1 b) fs).2 ->
        counts_fit q -> aq_has_authority q = true -> fd_subject d ∉ aq_bound q).
Proof.
  intros Hst Hargs Hw Ho Hne Hg c. pose proof (opened_authorised _ _ _ _ Hw Ho Hne) as Ha.
  destruct (arguments_wire _ _ _ Hargs) as [_ Hd].
  destruct (co_authorise_cases (client_binding c) k0) as [(_ & rec & _ & E)|(Hn & _)]; [|by destruct Hn].
  match type of E with _ = (_, ?x) => set (k := x) in E end.
  destruct (query_authority_value dependent k (proj1 Hd)) as (q & k' & t & Hq & _). exists k, q, k'. split_and!; [done|done| |].
  - intros Hfit ups ups' He He' Hu Hnp.
    pose proof (conversation_answered durable s fd record k0 dependent k q k' ups ups' Hst Ho Hg Hd E Hq He He' Hu Hnp) as H.
    destruct (serve_connection _ _ _ _ _ _) as [[w s'] cv]. destruct H as (-> & -> & out & out' & Hsent & A1 & A2).
    split_and!; [done|done|]. exists out, out'. split; [done|]. intros downs downs' Hn Hn' Hc Hc'.
    destruct (answered_query _ _ _ _ _ _ (mkSwitchKey 0 0) E Hq Hfit) as [Hok _]. by eapply query_told.
  - intros d c0 o c1 b fs Hb Hdec Hs Hfit Hhas.
    pose proof (declared_behind_driver limits_defaults durable d c0 o c1 b (fs ++ [sealed_frame greeting]) Hb Hdec) as Hf.
    rewrite handle_all_app, <- Hs, handle_all_state, (handler_grants durable s record k0 Ho) in Hf.
    destruct (answered_query _ _ _ _ _ _ (fd_subject d) E Hq Hfit) as [_ H]. by apply H.
Qed.

(** ** The operator after the spine was lost *)

Definition operator_line : list string := ["sffctl"; "query"; "--port"; "7000"; "--dependent"; "port:1"].

Definition before_query : DriverState := mkDriver fenced false.
Definition session_none : SessionRecord := mkSession 0 "" 0 boot_none 0 0 false.
Definition query_session : SessionRecord := Eval vm_compute in
  match @open_session first_life "sffctl-query" fenced with (Value r, _) => r | _ => session_none end.
Definition query_opened : Coordinator := Eval vm_compute in (@open_session first_life "sffctl-query" fenced).2.
Definition operator_client : FrameClient := Eval vm_compute in
  granted_client 4 (sr_id query_session) (co_epoch query_opened) (co_boot_digest query_opened).
Definition query_let_through : Coordinator := Eval vm_compute in (co_authorise (client_binding operator_client) query_opened).2.
Definition query_answer : AuthorityQuery := Eval vm_compute in
  match @query_authority first_life (dependent_port 1) query_let_through with (Value q, _) => q | _ => query_none end.

Lemma query_opened_run : @open_session first_life "sffctl-query" (dr_coordinator before_query) = (Value query_session, query_opened).
Proof. vm_compute. reflexivity. Qed.

Definition operator_bytes : list Z := Eval vm_compute in frame_encoding greeting.
Definition operator_bytes' : list Z := Eval vm_compute in frame_encoding (query_frame (dependent_port 1) operator_client).

Definition operator_served : bool * DriverState * Conversation :=
  serve_connection (P := steady_peer) (@driver_handler first_life limits_defaults true) limits_defaults
    (Received <$> ([take 9 operator_bytes; drop 9 operator_bytes] ++ [operator_bytes'])) true before_query
    (conversation_new limits_defaults).
Definition operator_told : list Z * list Z := Eval vm_compute in
  match cv_sent operator_served.2 with [a; b] => (a, b) | _ => ([], []) end.

Lemma operator_served_sent :
  cv_sent (serve_connection (P := steady_peer) (@driver_handler first_life limits_defaults true) limits_defaults
    (Received <$> ([take 9 operator_bytes; drop 9 operator_bytes] ++ [operator_bytes'])) true before_query
    (conversation_new limits_defaults)).2 = [operator_told.1; operator_told.2].
Proof. vm_compute. reflexivity. Qed.

Lemma fenced_sessions_wf : sessions_wf (co_sessions (dr_coordinator before_query)).
Proof. apply (sessions_new_wf limits_defaults). Qed.

Lemma operator_grantable : grantable (sr_id query_session) (co_epoch query_opened) (co_boot_digest query_opened).
Proof. split; vm_compute; first [split; [split; congruence|done]|split; congruence]. Qed.

Definition operator : FrameClient := granted_client 4 (sr_id query_session) (co_epoch query_opened) (co_boot_digest query_opened).

Lemma operator_parses : query_arguments operator_line = inr (7000, dependent_port 1).
Proof. vm_compute. reflexivity. Qed.

Lemma operator_authorised : co_authorise (client_binding operator) query_opened = (Value tt, query_let_through).
Proof. vm_compute. reflexivity. Qed.

Lemma operator_answered : (@query_authority first_life (dependent_port 1) query_let_through).1 = Value query_answer.
Proof. vm_compute. reflexivity. Qed.

Lemma operator_sends : encode_frame greeting limits_defaults = Value (concat [take 9 operator_bytes; drop 9 operator_bytes])
  /\ encode_frame (query_frame (dependent_port 1) operator) limits_defaults = Value (concat [operator_bytes']).
Proof. split; vm_compute; reflexivity. Qed.

Lemma operator_sends_bytes : Forall (Forall in_u8) ([take 9 operator_bytes; drop 9 operator_bytes] ++ [operator_bytes'])
  /\ Forall (fun piece => piece <> []) ([take 9 operator_bytes; drop 9 operator_bytes] ++ [operator_bytes']).
Proof. split; repeat constructor; first [discriminate|vm_compute; congruence]. Qed.

Lemma operator_digest : co_boot_digest query_opened <> 0.
Proof. vm_compute. congruence. Qed.

Lemma operator_fits : counts_fit query_answer.
Proof. vm_compute. split_and!; reflexivity. Qed.

Lemma query_command_truthful_witness :
  run_query operator_line success (Value (Some 4)) (mkExchange success (Received <$> [operator_told.1]))
    (mkExchange success (Received <$> [take 5 operator_told.2; drop 5 operator_told.2]))
  = Some (say (query_output 7000 (dependent_port 1) (sr_id query_session) (co_epoch query_opened) (authority_answer query_answer)) succeeded)
  /\ qr_has_authority (authority_answer query_answer) = false.
Proof.
  split; [|reflexivity].
  destruct (@query_command_truthful first_life steady_peer true before_query operator_line 7000 4 (dependent_port 1) query_session
    query_opened (fun _ => conj eq_refl eq_refl) operator_parses fenced_sessions_wf query_opened_run operator_digest
    operator_grantable) as (k & q & k' & Ha & Hq & H & _).
  fold operator in Ha, H. rewrite operator_authorised in Ha. injection Ha as <-.
  pose proof operator_answered as E. rewrite Hq in E. injection E as ->.
  specialize (H operator_fits _ _ (proj1 operator_sends) (proj2 operator_sends) (proj1 operator_sends_bytes) (proj2 operator_sends_bytes)).
  pose proof operator_served_sent as Hs.
  destruct (serve_connection _ _ _ _ _ _) as [[w s'] cv]. cbn [snd] in Hs. destruct H as (_ & _ & out & out' & Hsent & H).
  rewrite Hs in Hsent. injection Hsent as <- <-.
  apply (H [operator_told.1] [take 5 operator_told.2; drop 5 operator_told.2]);
    first [repeat constructor; discriminate|reflexivity].
Defined.
