(* ===== verification/Serve.v ===== *)
(** The command `sffctl serve` (tools/sffctl.cpp), from its command line to the
    coordinator its handler shares and to what it reports once stopped, with the
    theorem that what it declared failed stays so whatever its clients send. *)

From S2P Require Import Prelude Containers Core Generation Switch Authority Evidence Topology Bytes Integrity Records.
From S2P Require Import Journal Wire Decision Plan Policy Payloads Candidates Planner Validator Session.
From S2P Require Import Coordinator Failover Entries Runtime Fencing Restart Scenarios Fixture Frame Messages Server Socket Pool Client CommandLine.
From S2P Require Import Driver Remote Commands Query.

(** * Paths *)

(** The elements of a path: a root directory, the names between separators, and
    an empty last element after a trailing one. *)
Fixpoint path_names (text : list Z) (name : list Z) : list string :=
  match text with
  | [] => match name with [] => [] | _ => [Bytes.bytes_string name] end
  | character :: rest =>
      if character =? 47 then
        match name, rest with
        | [], _ => path_names rest []
        | _, [] => [Bytes.bytes_string name; EmptyString]
        | _, _ => Bytes.bytes_string name :: path_names rest []
        end
      else path_names rest (name ++ [character])
  end.

Definition path_of (text : string) : list string :=
  match string_bytes text with
  | character :: rest => if character =? 47 then "/"%string :: path_names rest [] else path_names (character :: rest) []
  | [] => []
  end.

(** * serve *)

Definition serve_arguments (args : list string) : string + (Z * list string) :=
  match command_parse args 2 ["port"; "root"] with
  | inl error => inl error
  | inr options =>
      if negb (has_option "port" options) then inl "serve requires --port N (0 selects an ephemeral port)"
      else
        match parse_port (option_value "port" options) with
        | None => inl "--port requires an unsigned decimal value in [0,65535]"
        | Some port => inr (port, if has_option "root" options then path_of (option_value "root" options) else [])
        end
  end.

(** A method whose refusal ends the command before it serves. *)
Definition setup_step {A B} (key : string) (m : Op A) (c : Coordinator) (k : A -> Coordinator -> Outcome + B) : Outcome + B :=
  match m c with
  | (Refused status, _) => inl (refuse_status key status)
  | (Value a, c) => k a c
  end.

Definition serve_options (port : Z) : ServerOptions := mkServerOptions "127.0.0.1" port limits_defaults 16 2 16.

Section serve.
Context {M : World} {G : Shuffle}.

#[local] Instance serve_world : World := manual_clock M.

(** The coordinator the handler shares. *)
Definition serve_setup (disk : Disk) (durable_root : list string) : Outcome + DriverState :=
  match build_fixture 2 1 limits_defaults with
  | inl error => inl (refuse "serve_fixture" Code.Invalid error)
  | inr fixture =>
      match open_coordinator durable_root limits_defaults disk with
      | inl error => inl (refuse "serve_open" Code.Invalid error)
      | inr c =>
          setup_step "serve_install_topology" (install_topology (fx_topology fixture)) c (fun _ c =>
          setup_step "serve_install_candidates" (install_candidates (fx_candidates fixture)) c (fun _ c =>
          setup_step "serve_declare_failure" (declare_failure (fixture_declaration fixture)) c (fun _ c =>
          inr (mkDriver c false))))
      end
  end.

(** The handler the server is started with. *)
Definition serve_handler (durable_root : list string) : DriverState -> Frame -> Handled * DriverState :=
  driver_handler limits_defaults (negb (bool_decide (durable_root = []))).

(** Everything after the wait for a goodbye. *)
Definition serve_finish (stopped : Status) (connections processed rejected : Z) (s : DriverState) : Outcome :=
  if negb (status_ok stopped) then refuse_status "serve_stop" stopped
  else
    say ["serve_connections=" +:+ dec connections; "serve_frames_processed=" +:+ dec processed;
         "serve_frames_rejected=" +:+ dec rejected; "serve_stopped=true"]
      (attempt "serve_shutdown" shutdown (dr_coordinator s) (fun _ _ => succeeded)).

(** The whole command: what starting the server answered (its port), the
    requests its workers handled, and what stopping it answered. It waits until a
    handled request asked it to stop. *)
Definition run_serve (args : list string) (disk : Disk) (started : Result Z) (requests : list Frame) (stopped : Status)
  (connections processed rejected : Z) : option Outcome :=
  match serve_arguments args with
  | inl error => Some (usage_error error)
  | inr (port, durable_root) =>
      match serve_setup disk durable_root with
      | inl refused => Some refused
      | inr s =>
          match (if status_ok (start_check (serve_options port) true) then started
                 else Refused (start_check (serve_options port) true)) with
          | Refused status => Some (refuse_status "serve_start" status)
          | Value bound_port =>
              let s := (handle_all (serve_handler durable_root) s requests).2 in
              if negb (dr_stop_requested s) then None
              else
                Some (say ["sffctl_command=serve"; "synthetic=true"; "serve_bound_address=127.0.0.1";
                           "serve_port=" +:+ dec bound_port; "serve_ephemeral_port=" +:+ flag (port =? 0);
                           "serve_durability=" +:+ flag (negb (bool_decide (durable_root = [])));
                           "serve_stop_path=goodbye-frame"; "serve_ready=true"]
                        (serve_finish stopped connections processed rejected s))
          end
      end
  end.
End serve.

(** ** What the coordinator keeps *)

Lemma setup_value {A B} key (m : Op A) c (k : A -> Coordinator -> Outcome + B) b :
  setup_step key m c k = inr b -> exists a c', m c = (Value a, c') /\ k a c' = inr b.
Proof. unfold setup_step. destruct (m c) as [[a|st] c']; [eauto|done]. Qed.

Lemma fixture_fails_leaf {G : Shuffle} n seed limits f : build_fixture n seed limits = inr f -> fx_failed_switch f = failed_leaf.
Proof.
  unfold build_fixture. destruct (64 <? _); [done|]. destruct (build _ _ _ _ _ _); [|done]. by destruct (table_build _ _); [intros [= <-]|].
Qed.

(** The coordinator of the handler has declared the failure of the leaf. *)
Lemma setup_declares {M : World} {G : Shuffle} disk root s0 : serve_setup disk root = inr s0 ->
  let W := manual_clock M in
  exists c1 qs d o, @open W (driver_config root limits_defaults) disk = Some (Value tt, c1) /\ Forall request_ok qs
    /\ fd_subject d = failed_leaf /\ @declare_failure W d (@serve_all W qs c1) = (Value o, dr_coordinator s0).
Proof.
  intros H W. revert H. unfold serve_setup, open_coordinator. destruct (build_fixture _ _ _) as [e|f] eqn:Hf; [done|].
  destruct (open _ disk) as [[[[]|st] c1]|] eqn:Ho; [|done..]. intros H.
  apply setup_value in H as ([] & c2 & H1 & H). apply setup_value in H as ([] & c3 & H2 & H).
  apply setup_value in H as (o & c4 & H3 & [= <-]).
  exists c1, [InstallTopology (fx_topology f); InstallCandidates (fx_candidates f)], (fixture_declaration f), o.
  split; [done|]. split; [by repeat constructor|]. split; [by eapply fixture_fails_leaf|].
  unfold serve_world in *. unfold W, serve_all. cbn [foldl serve answer snd]. by rewrite H1; cbn [snd]; rewrite H2.
Qed.

(** C9. A served failure is final: whatever the machine, the generator and the
    journal `sffctl serve` starts on (as long as the journal holds no grant
    records, which this runtime never writes), once it serves, and whatever frames
    its clients send, the generation it declared failed stays fenced and on
    record, no dependent is ever reported to have authority that rests on it, and
    the registry stays well formed with identities that never wrap. *)
Theorem served_failure_stays {M : World} {G : Shuffle} (disk : Disk) (root : list string) (s0 : DriverState)
  (rs : list DurableRecord) (fs : list Frame) :
  serve_setup disk root = inr s0 -> @recovered (manual_clock M) (driver_config root limits_defaults) disk rs -> no_grants rs ->
  let c := dr_coordinator (handle_all (@serve_handler M root) s0 fs).2 in
  retired failed_leaf (co_authority c) /\ failure_contains (co_failures c) failed_leaf = true
  /\ (forall dependent now_ns, ~ rests_on (co_authority c) dependent now_ns failed_leaf)
  /\ registry_bounded (co_authority c).
Proof.
  intros Hs Hrec Hng. destruct (setup_declares _ _ _ Hs) as (c1 & qs & d & o & Ho & Hqs & Hd & Hdec).
  assert (Hb : registry_bounded (co_authority c1)) by (eapply (@opened_bounded (manual_clock M)); [exact Ho|exact Hrec|exact Hng|vm_compute; congruence]).
  assert (Hb2 : registry_bounded (co_authority (@serve_all (manual_clock M) qs c1)))
    by (apply (lt_bounded _ _ (@serve_all_later (manual_clock M) qs c1 Hqs)), Hb).
  destruct (declared_retires _ _ _ _ Hb2 Hdec) as (Hr & Hf & L). rewrite Hd in *.
  unfold serve_handler, serve_world. destruct (@handled_requests (manual_clock M) limits_defaults (negb (bool_decide (root = []))) s0 fs) as (ps & Hps & ->).
  pose proof (@serve_all_later (manual_clock M) ps (dr_coordinator s0) Hps) as L2. pose proof (lt_retired _ _ L2 _ Hr) as Hr2.
  cbn zeta. split; [done|]. split; [by apply (lt_failures _ _ L2)|]. split; [intros; apply fenced_supports_nothing, Hr2|].
  apply (lt_bounded _ _ L2). by apply (lt_bounded _ _ L).
Qed.

Definition serving : DriverState := Eval vm_compute in
  match @serve_setup first_life in_order empty_disk [] with inr s => s | inl _ => mkDriver booted false end.

Lemma serving_run : @serve_setup first_life in_order empty_disk [] = inr serving.
Proof. vm_cast_no_check (@eq_refl (Outcome + DriverState) (inr serving)). Qed.

Lemma served_failure_stays_witness :
  let c := dr_coordinator (handle_all (@serve_handler first_life []) serving [hello_request; hello_request]).2 in
  retired failed_leaf (co_authority c) /\ forall now_ns, ~ rests_on (co_authority c) (dependent_path 100) now_ns failed_leaf.
Proof.
  destruct (@served_failure_stays first_life in_order empty_disk [] serving [] [hello_request; hello_request] serving_run
    eq_refl (Forall_nil_2 _)) as (H1 & _ & H2 & _).
  split; [exact H1|]. intros now_ns. apply H2.
Defined.
