(* ===== verification/Replay.v ===== *)
(** The command `sffctl replay` (tools/sffctl.cpp): it scans the journal of a
    directory, closes it, restarts a coordinator over it and prints what came
    back, with the theorem that it shows every failure that was committed. *)

From S2P Require Import Prelude Containers Core Generation Switch Authority Evidence Topology Bytes Integrity Records.
From S2P Require Import Journal Wire Decision Plan Policy Payloads Candidates Planner Validator Session.
From S2P Require Import Coordinator Failover Entries Runtime Fencing Restart Scenarios CommandLine Commands Serve.

(** * The scan *)

Definition record_kinds : list RecordKind :=
  [RecordKind.StreamHeader; RecordKind.EpochAdvance; RecordKind.BootRegistered; RecordKind.TopologyInstalled;
   RecordKind.PolicyInstalled; RecordKind.FailureCommitted; RecordKind.FenceCommitted; RecordKind.GrantMinted;
   RecordKind.GrantWithdrawn; RecordKind.PlanCommitted; RecordKind.ApplyCompleted; RecordKind.RestoreDecided;
   RecordKind.Checkpoint; RecordKind.ShutdownClean].

(** The name of the kind a header holds. *)
Definition kind_name (raw : Z) : string :=
  match List.find (fun k => record_kind_raw k =? raw) record_kinds with
  | Some k => record_kind_to_string k
  | None => if raw =? 0 then record_kind_to_string RecordKind.Unknown else "UNRECOGNISED_RECORD_KIND"
  end.

(** [decode_stream_header]: the identity read, or the one given. *)
Definition decode_stream_header (payload : list Z) (identity : Z * BootIncarnation) : Z * BootIncarnation :=
  let '(read, reader) := read_stream_header (reader_new payload) in if reader_ok reader then read else identity.

(** The previous identity and the number of records of each kind, by name. *)
Definition scan_one (scan : (Z * BootIncarnation) * list (list Z * Z)) (record : DurableRecord) :
  (Z * BootIncarnation) * list (list Z * Z) :=
  let kind := rh_kind (rec_header record) in
  let name := string_bytes (kind_name kind) in
  (if kind =? record_kind_raw RecordKind.StreamHeader then decode_stream_header (rec_payload record) scan.1 else scan.1,
   map_set name (add64 (default 0 (map_find name scan.2)) 1) scan.2).

Definition scan_text (scan : ReplayReport) : list string :=
  let '((epoch, boot), kinds) := foldl scan_one ((0, boot_none), []) (rp_records scan) in
  ["scan_records=" +:+ dec (zlen (rp_records scan)); "scan_corrupt_records=" +:+ dec (rp_corrupt_records scan);
   "scan_torn_records=" +:+ dec (rp_torn_records scan);
   "scan_unsupported_records=" +:+ dec (rp_unsupported_records scan);
   "scan_torn_tail=" +:+ flag (rp_truncated_tail scan);
   "scan_torn_bytes_recovered=" +:+ dec (rp_recovered_bytes scan);
   "scan_clean_previous_shutdown=" +:+ flag (rp_clean_shutdown scan);
   "scan_last_sequence=" +:+ dec (rp_last_sequence scan)]
  ++ (if boot_valid boot then
        ["scan_previous_epoch=" +:+ dec epoch; "scan_previous_boot_ordinal=" +:+ dec (boot_ordinal boot)]
      else [])
  ++ ((fun e => "scan_record_kind_" +:+ Bytes.bytes_string e.1 +:+ "=" +:+ dec e.2) <$> kinds).

(** * The restart *)

Definition report_text (r : RestartReport) : list string :=
  ["restart_recovered=" +:+ flag (rr_recovered r);
   "restart_clean_previous_shutdown=" +:+ flag (rr_clean_previous_shutdown r);
   "restart_records_replayed=" +:+ dec (rr_records_replayed r); "restart_corrupt_records=" +:+ dec (rr_corrupt_records r);
   "restart_torn_records=" +:+ dec (rr_torn_records r);
   "restart_torn_tail_truncated=" +:+ flag (rr_torn_tail_truncated r);
   "restart_previous_epoch=" +:+ dec (rr_previous_epoch r); "restart_current_epoch=" +:+ dec (rr_current_epoch r);
   "restart_previous_boot_ordinal=" +:+ dec (boot_ordinal (rr_previous_boot r));
   "restart_current_boot_ordinal=" +:+ dec (boot_ordinal (rr_current_boot r));
   "restart_failures_restored=" +:+ dec (rr_failures_restored r);
   "restart_fences_restored=" +:+ dec (rr_fences_restored r); "restart_plans_restored=" +:+ dec (rr_plans_restored r);
   "restart_grants_invalidated=" +:+ dec (rr_grants_invalidated r);
   "restart_grants_fenced=" +:+ dec (rr_grants_fenced r);
   "restart_sessions_invalidated=" +:+ dec (rr_sessions_invalidated r);
   "restart_dynamic_evidence_restored=" +:+ flag (rr_dynamic_evidence_restored r);
   "restart_status=" +:+ code_to_string (status_code (rr_status r))]
  ++ ((fun note => "restart_note=" +:+ quoted_text note) <$> rr_notes r)
  ++ ["no_dynamic_evidence_restored=" +:+ flag (negb (rr_dynamic_evidence_restored r))].

Definition failure_line (r : FailureRecord) : string :=
  "restored_failure=" +:+ key_to_string (fr_subject r) +:+ " observed_at_ns=" +:+ dec (fr_observed_at_ns r).

Definition plan_line (p : ReconstructionPlan) : string :=
  "restored_plan=" +:+ dec (pl_id p) +:+ " state=" +:+ plan_state_to_string (pl_state p) +:+ " restores="
    +:+ dec (zlen (pl_restores p)) +:+ " feasibility=" +:+ feasibility_to_string (pl_feasibility p).

Definition fence_line (f : FenceRecord) : string :=
  "restored_fence=" +:+ key_to_string (fence_subject f) +:+ " scope=" +:+ fence_scope_to_string (fence_scope_state f)
    +:+ " closure_members=" +:+ dec (fence_closure_members f).

Definition lineage_text (c : Coordinator) : list string :=
  ("restored_failure_lineage=" +:+ dec (failure_size (co_failures c)))%string :: (failure_line <$> failure_all (co_failures c))
  ++ (plan_line <$> plans c)
  ++ ["restored_fences=" +:+ dec (fence_count (co_authority c));
      "restored_active_grants=" +:+ dec (active_grant_count (co_authority c))]
  ++ (fence_line <$> fences (co_authority c)).

(** * The command *)

(** `code == Code::Corrupt || ...`: the exit code of a journal that cannot be read. *)
Definition open_refused (key : string) (status : Status) : Outcome :=
  let code := status_code status in
  if bool_decide (code = Code.Corrupt) || bool_decide (code = Code.Unsupported) || bool_decide (code = Code.VersionMismatch) then
    mkRun ["journal_corrupt=true"; "journal_code=" +:+ code_to_string code;
           "journal_detail=" +:+ quoted_text (status_message status); "sffctl_status=refused";
           "exit=" +:+ dec kExitCorruptJournal] [] kExitCorruptJournal
  else refuse_status key status.

Definition replay_options (root : list string) : StoreOptions :=
  Journal.mkOptions root limits_defaults OpenMode.OpenExisting true.
Definition replay_config (root : list string) : CoordinatorConfig :=
  mkConfig limits_defaults policy_defaults root true EvidenceClass.Synthetic 4096 1024 0.

Definition replay_arguments (args : list string) : string + string :=
  match command_parse args 2 ["log"] with
  | inl error => inl error
  | inr options => if negb (has_option "log" options) then inl "replay requires --log DIR" else inr (option_value "log" options)
  end.

Section replay.
Context {M : World}.

#[local] Instance replay_world : World := manual_clock M.

(** Phase 2: the restart, whose report is the coordinator's own. *)
Definition replay_restart (root : list string) (disk : Disk) : option Outcome :=
  match open (replay_config root) disk with
  | None => None
  | Some (Refused status, _) => Some (open_refused "replay_restart" status)
  | Some (Value _, c) =>
      Some (say (report_text (co_restart c) ++ lineage_text c) (attempt "replay_shutdown" shutdown c (fun _ _ => succeeded)))
  end.

(** The whole command; the answers of the operating system to the scan's opening
    and closing are arguments. [None] is the replay loop out of fuel. *)
Definition run_replay (scan_io : OpenIo) (synced : bool) (args : list string) (disk : Disk) : option Outcome :=
  match replay_arguments args with
  | inl error => Some (usage_error error)
  | inr log =>
      let root := path_of log in
      say ["sffctl_command=replay"; "synthetic=false"; "journal_root=" +:+ quoted_text log] <$>
        match Journal.open path_resolve scan_io (replay_options root) disk with
        | None => None
        | Some (Refused status, _) => Some (open_refused "replay_open" status)
        | Some (Value store, disk) =>
            say (scan_text (ds_open_report store)) <$>
              let '(closed, _) := Journal.close synced store in
              if negb (status_ok closed) then Some (refuse_status "replay_close" closed) else replay_restart root disk
        end
  end.
End replay.

(** * What the command shows *)

(** ** The tables are keyed by their subjects *)

Definition failures_keyed (t : FailureTable) : Prop := forall k r, map_find k t = Some r -> fr_subject r = k.
Definition fences_keyed (r : AuthorityRegistry) : Prop := forall k f, map_find k (ar_fences r) = Some f -> fence_subject f = k.
Definition recovery_keyed (v : Recovery) : Prop := failures_keyed (rv_failures v) /\ fences_keyed (rv_authority v).

Lemma failure_record_keyed t r : failures_keyed t -> failures_keyed (failure_record t r).2.
Proof.
  intros Ht. assert (Hset : failures_keyed (map_set (fr_subject r) r t)).
  { intros k f. rewrite map_find_set. case_bool_decide; [by intros [= <-]|apply Ht]. }
  unfold failure_record. do 2 (split_test; [done|]). destruct (map_find _ _); [by split_test|done].
Qed.

Lemma restore_fence_keyed r f : fences_keyed r -> fences_keyed (restore_fence r f).2.
Proof.
  intros Hr. unfold restore_fence. split_test; [done|]. intros k g. cbn [snd ar_fences with_fences]. rewrite map_find_set.
  case_bool_decide; [by intros [= <-]|apply Hr].
Qed.

Lemma recover_record_keyed limits v r : recovery_keyed v -> recovery_keyed (recover_record limits v r).
Proof.
  intros [Hf Ha]. unfold recover_record. split_test.
  { unfold recover_stream_header. destruct (read_stream_header _) as [[epoch boot] reader]. by destruct (reader_ok reader). }
  split_test.
  { unfold recover_failure. destruct (decode_failure_record _) as [f|]; [|done].
    pose proof (failure_record_keyed _ f Hf). by destruct (failure_record _ f). }
  split_test.
  { unfold recover_fence. destruct (decode_fence_record _) as [f|]; [|done].
    pose proof (restore_fence_keyed _ f Ha). by destruct (restore_fence _ f). }
  split_test.
  { unfold recover_grant. destruct (decode_grant_record _) as [g|]; [|done]. unfold restore_grant. by split; split_test. }
  split_test; [unfold recover_plan; by destruct (decode_plan_record _ limits)|].
  split_test; [unfold recover_receipt; by destruct (decode_apply_receipt _)|done].
Qed.

Lemma recover_keyed limits rs : recovery_keyed (recover limits rs).
Proof.
  unfold recover. assert (H : recovery_keyed (recovery_new limits)) by (by split; intros k x).
  revert H. generalize (recovery_new limits). induction rs as [|r rs IH]; intros v Hv; [done|]. by apply IH, recover_record_keyed.
Qed.

Lemma restored_fences policy r : ar_fences (restored_authority policy r) = ar_fences r.
Proof. unfold restored_authority. by destruct (po_fence_on_restart policy). Qed.

(** An opened coordinator lists what it holds under its own subject. *)
Lemma opened_lists {W : World} config disk c k : open config disk = Some (Value tt, c) ->
  retired k (co_authority c) -> failure_contains (co_failures c) k = true ->
  (exists r, r ∈ failure_all (co_failures c) /\ fr_subject r = k) /\ (exists f, f ∈ fences (co_authority c) /\ fence_subject f = k).
Proof.
  intros Ho [Hf _] Hc. destruct (open_starts _ _ _ Ho) as (rs & _ & Hs).
  destruct (recover_keyed (cc_limits config) rs) as [Kf Ka].
  rewrite (sf_failures _ _ _ Hs) in *. unfold is_fenced in Hf. unfold fences.
  rewrite (sf_authority _ _ _ Hs) in *. rewrite restored_fences in *.
  unfold failure_contains in Hc. apply map_contains_true in Hc as [r Hr], Hf as [f Hf]. split.
  - exists r. split; [|by apply Kf]. by apply (list_elem_of_fmap_2 snd _ (k, _)), map_find_in.
  - exists f. split; [|by apply Ka]. by apply (list_elem_of_fmap_2 snd _ (k, _)), map_find_in.
Qed.

(** ** A replay that ends well printed what it restored *)

Lemma open_refused_fails key status : ou_exit (open_refused key status) <> kExitOk.
Proof. unfold open_refused. by split_test. Qed.

Lemma lineage_failure c r : r ∈ failure_all (co_failures c) -> failure_line r ∈ lineage_text c.
Proof.
  intros Hr. apply (list_elem_of_fmap_2 failure_line) in Hr. unfold lineage_text. rewrite elem_of_cons, elem_of_app. auto.
Qed.

Lemma lineage_fence c f : f ∈ fences (co_authority c) -> fence_line f ∈ lineage_text c.
Proof.
  intros Hf. apply (list_elem_of_fmap_2 fence_line) in Hf. unfold lineage_text. rewrite elem_of_cons, !elem_of_app. auto.
Qed.

(** What a successful [replay_restart] opened, and that it printed its lineage. *)
Lemma replay_restart_inv {M : World} root disk out : replay_restart root disk = Some out -> ou_exit out = kExitOk ->
  exists c, @open (manual_clock M) (replay_config root) disk = Some (Value tt, c) /\ lineage_text c ⊆ ou_out out.
Proof.
  unfold replay_restart, replay_world. destruct (@open _ _ _) as [[[[]|status] c]|]; [|intros [= <-] H; by apply open_refused_fails in H|done].
  intros <-%(inj Some) _. exists c. split; [done|]. cbn [say ou_out]. intros l Hl. apply elem_of_app. left. apply elem_of_app. by right.
Qed.

(** A successful [run_replay] opened the journal and then the coordinator. *)
Lemma run_replay_inv {M : World} scan_io synced args disk out :
  run_replay scan_io synced args disk = Some out -> ou_exit out = kExitOk ->
  exists root s disk' c, Journal.open path_resolve scan_io (replay_options root) disk = Some (Value s, disk') /\
    @open (manual_clock M) (replay_config root) disk' = Some (Value tt, c) /\ lineage_text c ⊆ ou_out out.
Proof.
  unfold run_replay. destruct (replay_arguments args) as [error|log]; [by intros [= <-]|]. cbn zeta.
  destruct (Journal.open _ _ _ _) as [[[s|status] disk']|] eqn:Eo; [| |done].
  - destruct (Journal.close synced s) as [closed s']. destruct (negb (status_ok closed)); [by intros [= <-]|].
    destruct (replay_restart _ disk') as [o|] eqn:Er; [|done]. intros <-%(inj Some) Hx. cbn [say ou_exit] in Hx.
    destruct (replay_restart_inv _ _ _ Er Hx) as (c & Hc & Hl). exists (path_of log), s, disk', c.
    split_and!; [done..|]. cbn [say ou_out]. intros l Hin. apply elem_of_app. right. apply elem_of_app. right. by apply Hl.
  - intros [= <-] Hx. cbn [say ou_exit] in Hx. by apply open_refused_fails in Hx.
Qed.

(** C8. The replay shows every failure that was committed. Once
    [declare_failure] has answered with a fence it has newly recorded, on a
    journal every write of which had succeeded until then, whatever requests
    follow, however their writes and syncs fail, and after whichever of them the
    process ends:
    a later `sffctl replay` of its directory that exits 0, scan and restart
    included, has printed a `restored_failure` line and a `restored_fence` line
    for the generation that was lost. Reading the journal is taken to deliver the
    whole file. *)
Theorem replay_shows_failure (W1 W2 : World) d c o c' qs rs scan_io synced args out :
  state_in_range c -> declaration_in_range d -> closure_in_range (fo_closure o) -> @clock_in_range W1 ->
  registry_bounded (co_authority c) -> journaled limits_defaults c rs ->
  @declare_failure W1 d c = (Value o, c') -> fo_deferred o = false -> Forall request_ok qs ->
  @run_replay W2 scan_io synced args (co_disk (@serve_all W1 qs c')) = Some out -> ou_exit out = kExitOk ->
  exists r f, fr_subject r = fd_subject d /\ failure_line r ∈ ou_out out /\
    fence_subject f = fd_subject d /\ fence_line f ∈ ou_out out.
Proof.
  intros Hc Hd Hcl Hclock Hb Hj H Hnew Hqs Hrun Hx.
  destruct (@declared_durable W1 _ _ _ _ _ _ Hc Hd Hcl Hclock Hb Hj H Hnew)
    as (r1 & r2 & f & (s & Hs & Hl & Hi) & Ha & Hsubj & Hc1 & Hf & Hfs & Hc2).
  destruct (ji_journal _ _ _ Hi) as (bytes & Hjb & He). rewrite Hl in He.
  destruct (lt_journal _ _ (@serve_all_later W1 qs c' Hqs) _ Hjb) as [tail Htail].
  destruct (run_replay_inv _ _ _ _ _ Hrun Hx) as (root & s2 & disk' & c2 & Hscan & Hopen & Hlines).
  destruct (open_keeps _ _ (replay_options root) _ _ _ _ _ _ (ji_range _ _ _ Hi) He Htail Hscan) as [tail' Htail'].
  destruct (@reopened_retired _ (replay_config root) _ _ _ _ _ _ _ _ _ eq_refl (ji_range _ _ _ Hi) He Htail' Ha Hc1 Hf Hc2 Hopen)
    as [H1 H2]. rewrite Hfs in H1. rewrite Hsubj in H2.
  destruct (opened_lists _ _ _ _ Hopen H1 H2) as [(r & Hr & Hrk) (g & Hg & Hgk)].
  exists r, g. split_and!; [done|by apply Hlines, lineage_failure|done|by apply Hlines, lineage_fence].
Qed.

Definition replay_line : list string := ["sffctl"; "replay"; "--log"; "var/sff"].
Definition replayed : Outcome :=
  Eval vm_compute in
    default succeeded (@run_replay second_life open_io_ok true replay_line (co_disk (@serve_all first_life [Shutdown] fenced))).

Lemma replayed_run :
  @run_replay second_life open_io_ok true replay_line (co_disk (@serve_all first_life [Shutdown] fenced)) = Some replayed.
Proof. vm_compute. reflexivity. Qed.

Lemma replay_shows_failure_witness : exists r f, fr_subject r = lost_spine /\ failure_line r ∈ ou_out replayed /\
  fence_subject f = lost_spine /\ fence_line f ∈ ou_out replayed.
Proof.
  destruct installed_journaled as [rs Hrs].
  refine (replay_shows_failure first_life second_life spine_lost installed fenced_outcome fenced [Shutdown] rs open_io_ok true
    replay_line replayed _ _ _ _ installed_bounded Hrs fenced_run eq_refl _ replayed_run eq_refl).
  - split; vm_compute; repeat split; congruence.
  - split; vm_compute; repeat split; congruence.
  - split; vm_compute; repeat split; congruence.
  - intros n. apply wrap64_range.
  - by repeat constructor.
Defined.
