(* ===== verification/Demo.v ===== *)
(** The command `sffctl demo` (tools/sffctl.cpp): the walk from a declared
    failure through the fence, the plan and its application to a verified
    restore, with everything it prints; and the theorem about what it reports on
    every machine, seed and journal. *)

From S2P Require Import Prelude Containers Core Generation Switch Authority Evidence Topology Bytes Integrity Records.
From S2P Require Import Journal Wire Decision Plan Policy Payloads Candidates Planner Validator Session.
From S2P Require Import Coordinator Failover Entries Runtime Fencing Restart Restoring Scenarios Fixture CommandLine Commands Serve.

(** * What the command prints *)

(** [switches_to_string], and the states of a dependent's grants: the names with commas between them. *)
Definition comma_list (names : list string) : string :=
  foldl (fun result name => (if bool_decide (result = "") then result else result +:+ ",") +:+ name) "" names.

Definition switches_to_string (keys : list SwitchKey) : string := comma_list (key_to_string <$> keys).

Definition fixture_text (seed : Z) (fixture : Fixture) (order_invariant : bool) : list string :=
  ["sffctl_command=demo"; "synthetic=true"; "evidence_class=SYNTHETIC"; "seed=" +:+ dec seed;
   "fixture_switches=" +:+ dec (zlen (tp_switches (fx_topology fixture)));
   "fixture_links=" +:+ dec (zlen (tp_links (fx_topology fixture)));
   "fixture_paths=" +:+ dec (zlen (tp_paths (fx_topology fixture)));
   "fixture_dependency_edges=" +:+ dec (zlen (tp_edges (fx_topology fixture)));
   "fixture_candidates=" +:+ dec (zlen (ct_candidates (fx_candidates fixture)));
   "topology_digest=" +:+ hex64 (tp_digest (fx_topology fixture));
   "candidate_table_digest=" +:+ hex64 (ct_digest (fx_candidates fixture));
   "input_order_invariant=" +:+ flag order_invariant].

Definition failover_text (o : FailoverOutcome) : list string :=
  let closure := fo_closure o in
  ["failed_switch=" +:+ key_to_string (fo_failed o); "failover_outcome=" +:+ code_to_string (fo_outcome o);
   "failure_evidence=" +:+ dec (fr_evidence (fo_failure o)); "failure_reason=" +:+ quoted_text (fr_reason (fo_failure o));
   "closure_state=" +:+ closure_state_to_string (dc_state closure); "closure_members=" +:+ dec (zlen (dc_members closure));
   "closure_dependents=" +:+ dec (zlen (dc_dependents closure));
   "closure_edges_examined=" +:+ dec (dc_edges_examined closure);
   "closure_omitted_frontier=" +:+ dec (dc_omitted_frontier closure);
   "closure_roots_absent=" +:+ dec (dc_roots_absent closure); "closure_truncated=" +:+ flag (closure_truncated closure);
   "closure_enumerates_every_root=" +:+ flag (enumerates_every_root closure);
   "closure_digest=" +:+ hex64 (closure_digest closure); "fence_id=" +:+ dec (fo_fence o);
   "fence_scope=" +:+ fence_scope_to_string (fo_fence_scope o); "fence_grants_fenced=" +:+ dec (fo_grants_fenced o);
   "fence_deferred=" +:+ flag (fo_deferred o)].

(** The loop over the dependents of the closure; the count starts at zero. *)
Definition dependent_text (authority : AuthorityRegistry) (dependent : DependentRef) : bool * list string :=
  let grants := grants_for authority dependent in
  let states := comma_list (grant_state_to_string ∘ ag_state <$> grants) in
  let any_fenced := existsb (fun g => bool_decide (ag_state g = GrantState.Fenced)) grants in
  (any_fenced,
   ("closure_dependent=" +:+ dependent_to_string dependent +:+ " grants=" +:+ dec (zlen grants) +:+ " grant_states="
      +:+ (if bool_decide (states = "") then "NONE" else states))%string
   :: (if any_fenced then ["fenced_dependent=" +:+ dependent_to_string dependent] else [])).

Definition count_fenced (sofar : Z * list string) (entry : bool * list string) : Z * list string :=
  (if entry.1 then add64 sofar.1 1 else sofar.1, sofar.2 ++ entry.2).

Definition dependents_text (authority : AuthorityRegistry) (dependents : list DependentRef) : list string :=
  let '(fenced_dependents, lines) := foldl count_fenced (0, []) (dependent_text authority <$> dependents) in
  lines ++ ["fenced_dependent_count=" +:+ dec fenced_dependents].

Definition generations_text (authority : AuthorityRegistry) (fixture : Fixture) : list string :=
  ["fenced_identity_generation_1=" +:+ flag (is_fenced authority (fx_failed_switch fixture));
   "fenced_identity_generation_2=" +:+ flag (is_fenced authority (fx_newer_generation fixture))].

Definition identity_text (assessed : Result SwitchAssessment) : list string :=
  match assessed with
  | Value assessment => ["assess_identity_1_subject=" +:+ key_to_string (sa_subject assessment);
                         "assess_identity_1_usable=" +:+ flag (sa_usable assessment)]
  | Refused _ => []
  end.

Definition proposal_text (plan : ReconstructionPlan) (validation : ValidationReport) : list string :=
  ["plan_id=" +:+ dec (pl_id plan); "plan_feasibility=" +:+ feasibility_to_string (pl_feasibility plan);
   "plan_state=" +:+ plan_state_to_string (pl_state plan); "plan_closure_complete=" +:+ flag (pl_closure_complete plan);
   "plan_restores=" +:+ dec (zlen (pl_restores plan)); "plan_unresolved=" +:+ dec (zlen (pl_unresolved plan));
   "plan_total_cost=" +:+ dec (total_cost plan); "plan_total_hops=" +:+ dec (hop_total plan);
   "plan_digest=" +:+ hex64 (compute_digest plan); "plan_digest_valid=" +:+ flag (digest_valid plan);
   "validation_valid=" +:+ flag (vr_valid validation); "validation_checks=" +:+ dec (vr_checks_performed validation);
   "validation_findings=" +:+ dec (zlen (vr_findings validation))]
  ++ imap (fun index step => "plan_step=" +:+ dec (Z.of_nat index + 1) +:+ " dependent=" +:+ dependent_to_string (rs_dependent step)
             +:+ " replacement=" +:+ key_to_string (rs_replacement step) +:+ " cost=" +:+ dec (rs_cost step)
             +:+ " hops=" +:+ dec (zlen (rs_hops step))) (pl_restores plan)
  ++ ((fun entry => "plan_unresolved_entry=" +:+ dependent_to_string (ud_dependent entry) +:+ " reason="
         +:+ unresolved_reason_to_string (ud_reason entry)) <$> pl_unresolved plan).

Definition before_text (fixture : Fixture) (before : RestoreDecision) : list string :=
  ["restore_dependent=" +:+ dependent_to_string (fx_demo_dependent fixture);
   "restore_before_apply_outcome=" +:+ code_to_string (rd_outcome before);
   "restore_before_apply_may_restore=" +:+ flag (rd_may_restore before)].

Definition receipt_text (receipt : ApplyReceipt) : list string :=
  ["apply_plan_id=" +:+ dec (ap_plan receipt); "apply_applied=" +:+ dec (ap_applied receipt);
   "apply_failed=" +:+ dec (ap_failed receipt); "apply_verified=" +:+ dec (ap_verified receipt);
   "apply_unverified=" +:+ dec (ap_unverified receipt); "apply_complete=" +:+ flag (ap_complete receipt);
   "apply_outcome=" +:+ code_to_string (ap_outcome receipt); "apply_fully_verified=" +:+ flag (fully_verified receipt);
   "acknowledgement_is_not_verified_effect=true"].

Definition after_text (after : RestoreDecision) : list string :=
  ["restore_after_apply_outcome=" +:+ code_to_string (rd_outcome after);
   "restore_after_apply_may_restore=" +:+ flag (rd_may_restore after);
   "restore_after_apply_effect_verified=" +:+ flag (rd_effect_verified after)].

Definition verified_text (attempt_seq : Z) (after after_verification : RestoreDecision) : list string :=
  ["verification_evidence=" +:+ dec 9000; "verification_attempt=" +:+ dec attempt_seq;
   "restore_after_verification_outcome=" +:+ code_to_string (rd_outcome after_verification);
   "restore_after_verification_may_restore=" +:+ flag (rd_may_restore after_verification);
   "restore_after_verification_effect_verified=" +:+ flag (rd_effect_verified after_verification);
   "restore_transition=" +:+ code_to_string (rd_outcome after) +:+ "->" +:+ code_to_string (rd_outcome after_verification);
   "blocking_generations=" +:+ switches_to_string (rd_blocking after_verification)].

Definition unaffected_text (unaffected : Result AuthorityQuery) : list string :=
  match unaffected with
  | Value q => ["unaffected_dependent=" +:+ dependent_to_string (aq_dependent q) +:+ " has_authority="
                  +:+ flag (aq_has_authority q) +:+ " outcome=" +:+ code_to_string (aq_outcome q)]
  | Refused _ => []
  end.

(** * The command *)

(** The attempt and the replacement of the last step of the demonstrated dependent. *)
Definition demo_step (dependent : DependentRef) (steps : list ApplyStepResult) : Z * SwitchKey :=
  foldl (fun found step => if negb (bool_decide (sr_dependent step = dependent)) then found
                           else (sr_attempt step, sr_replacement step)) (0, key_none) steps.

Definition demo_verification (fixture : Fixture) (plan : ReconstructionPlan) (found : Z * SwitchKey) : EvidenceRecord :=
  mkEvidence 9000 EvidenceKind.EffectVerification EvidenceSource.SimulatedFixture found.2 0 boot_none kClockStartNs kEvidenceWindowNs
    SwitchHealthState.Unknown SwitchAdminState.Unknown 0 (fx_demo_dependent fixture) (pl_id plan) found.1
    "synthetic independent verification of the reconstructed forwarding path".

(** The options: the seed, the number of paths and the directory as given. *)
Definition demo_arguments (args : list string) : string + (Z * Z * string) :=
  match command_parse args 2 ["seed"; "paths"; "durable"] with
  | inl error => inl error
  | inr options =>
      match (if has_option "seed" options then parse_u64 (option_value "seed" options) else Some 1) with
      | None => inl "--seed requires an unsigned decimal value"
      | Some seed =>
          match optional_size "paths" 2 options with
          | None => inl "--paths requires an unsigned decimal value"
          | Some path_count => inr (seed, path_count, if has_option "durable" options then option_value "durable" options else "")
          end
      end
  end.

Section demo.
Context {M : World} {G : Shuffle}.

#[local] Instance demo_world : World := manual_clock M.

(** (e) Independent verification evidence, and the end of the command. *)
Definition demo_verify (fixture : Fixture) (plan : ReconstructionPlan) (receipt : ApplyReceipt) (after : RestoreDecision)
  (c : Coordinator) : Outcome :=
  let found := demo_step (fx_demo_dependent fixture) (ap_steps receipt) in
  attempt "demo_record_verification" (record_effect_verification (demo_verification fixture plan found)) c (fun _ c =>
  attempt "demo_restore_after_verification" (evaluate_restore (fx_demo_dependent fixture)) c (fun after_verification c =>
  say (verified_text found.1 after after_verification)
    (let '(unaffected, c) := query_authority (dependent_port 700) c in
     say (unaffected_text unaffected)
       (attempt "demo_shutdown" shutdown c (fun _ _ =>
        say ["durable_shutdown=" +:+ code_to_string Code.Ok] succeeded))))).

(** (c), (d) The plan and its application. *)
Definition demo_reconstruct (fixture : Fixture) (c : Coordinator) : Outcome :=
  attempt "demo_propose_plan" (propose_plan (fx_failed fixture)) c (fun plan c =>
  attempt "demo_validate_plan" (co_validate_plan plan) c (fun validation c =>
  say (proposal_text plan validation)
    (attempt "demo_restore_before_apply" (evaluate_restore (fx_demo_dependent fixture)) c (fun before c =>
     say (before_text fixture before)
       (attempt "demo_apply_plan" (apply_plan plan) c (fun receipt c =>
        say (receipt_text receipt)
          (attempt "demo_restore_after_apply" (evaluate_restore (fx_demo_dependent fixture)) c (fun after c =>
           say (after_text after) (demo_verify fixture plan receipt after c))))))))).

(** The failure, (a) its closure and (b) the authority it fenced. *)
Definition demo_failover (fixture : Fixture) (c : Coordinator) : Outcome :=
  attempt "demo_install_topology" (install_topology (fx_topology fixture)) c (fun _ c =>
  attempt "demo_install_candidates" (install_candidates (fx_candidates fixture)) c (fun _ c =>
  attempt "demo_declare_failure" (declare_failure (fixture_declaration fixture)) c (fun o c =>
  say (failover_text o ++ dependents_text (co_authority c) (dc_dependents (fo_closure o)) ++ generations_text (co_authority c) fixture)
    (let '(assessed, c) := assess_identity 1 c in say (identity_text assessed) (demo_reconstruct fixture c))))).

(** [run_demo] once its options are read. *)
Definition demo_command (disk : Disk) (seed path_count : Z) (durable : string) : Outcome :=
  match build_fixture path_count seed limits_defaults with
  | inl error => refuse "demo_fixture" Code.Invalid error
  | inr fixture =>
      match build_fixture path_count (Z.lxor seed 0x5deece66d) limits_defaults with
      | inl error => refuse "demo_fixture" Code.Invalid error
      | inr shuffled =>
          let order_invariant := (tp_digest (fx_topology fixture) =? tp_digest (fx_topology shuffled))
                                 && (ct_digest (fx_candidates fixture) =? ct_digest (fx_candidates shuffled)) in
          say (fixture_text seed fixture order_invariant)
            (if negb order_invariant then refuse "demo_order" Code.Conflict "canonical digests differed between input orderings"
             else
               say (if bool_decide (path_of durable = []) then [] else ["durable_root=" +:+ quoted_text durable])
                 (match open_coordinator (path_of durable) limits_defaults disk with
                  | inl error => refuse "demo_open" Code.Invalid error
                  | inr c => demo_failover fixture c
                  end))
      end
  end.

Definition run_demo (disk : Disk) (args : list string) : Outcome :=
  match demo_arguments args with
  | inl error => usage_error error
  | inr (seed, path_count, durable) => demo_command disk seed path_count durable
  end.
End demo.

(** * What the command reports *)

Lemma attempt_inv {A} key (m : Op A) c k : ou_exit (attempt key m c k) = kExitOk ->
  exists a c', m c = (Value a, c') /\ attempt key m c k = k a c' /\ ou_exit (k a c') = kExitOk.
Proof. unfold attempt. destruct (m c) as [[a|status] c']; [by exists a, c'|done]. Qed.

Lemma said_here l lines rest : l ∈ lines -> l ∈ ou_out (say lines rest).
Proof. intros H. apply elem_of_app. by left. Qed.

Lemma said_later l lines rest : l ∈ ou_out rest -> l ∈ ou_out (say lines rest).
Proof. intros H. apply elem_of_app. by right. Qed.

Lemma said_exit lines rest : ou_exit (say lines rest) = ou_exit rest.
Proof. done. Qed.

(** A journal without receipts restores no step. *)
Definition no_receipts (rs : list DurableRecord) : Prop :=
  Forall (fun r => rh_kind (rec_header r) <> record_kind_raw RecordKind.ApplyCompleted) rs.

Lemma recover_no_steps limits rs : no_receipts rs -> rv_apply_steps (recover limits rs) = [].
Proof.
  unfold recover. assert (H : rv_apply_steps (recovery_new limits) = []) by done. revert H. generalize (recovery_new limits).
  intros v Hv Hrs. revert v Hv. induction Hrs as [|r rs Hr _ IH]; intros v Hv; [done|]. apply IH. clear IH.
  unfold recover_record. split_test.
  { unfold recover_stream_header. destruct (read_stream_header _) as [[? ?] ?]. by split_test. }
  split_test. { unfold recover_failure. destruct (decode_failure_record _); [|done]. by destruct (failure_record _ _). }
  split_test. { unfold recover_fence. destruct (decode_fence_record _); [|done]. by destruct (restore_fence _ _). }
  split_test. { unfold recover_grant. destruct (decode_grant_record _); [|done]. by destruct (restore_grant _ _). }
  split_test; [unfold recover_plan; by destruct (decode_plan_record _ _)|]. split_test; [bool_prop; done|done].
Qed.

(** The part of the command after the failure, on a coordinator without verified steps. *)
Lemma reconstruct_unverified {M : World} fixture c : ~ step_verified (co_apply_steps c) (fx_demo_dependent fixture) ->
  ou_exit (@demo_reconstruct M fixture c) = kExitOk ->
  "restore_after_apply_effect_verified=false"%string ∈ ou_out (@demo_reconstruct M fixture c).
Proof.
  intros Hs. unfold demo_reconstruct, demo_world. intros H.
  apply attempt_inv in H as (plan & c1 & H1 & -> & H). apply attempt_inv in H as (validation & c2 & H2 & -> & H).
  rewrite said_exit in H. apply said_later. apply attempt_inv in H as (before & c3 & H3 & -> & H).
  rewrite said_exit in H. apply said_later. apply attempt_inv in H as (receipt & c4 & H4 & -> & H).
  rewrite said_exit in H. apply said_later. apply attempt_inv in H as (after & c5 & H5 & -> & _). apply said_here.
  assert (Hv : rd_effect_verified after = false).
  { destruct (rd_effect_verified after) eqn:E; [|done]. pose proof (verified_now _ _ _ _ H5 E) as Hv.
    set (qs := [ProposePlan (fx_failed fixture); ValidatePlan plan; EvaluateRestore (fx_demo_dependent fixture); ApplyPlan plan]).
    assert (Hrun : @serve_all (manual_clock M) qs c = c4).
    { unfold serve_all, qs. cbn [foldl serve answer snd]. by rewrite H1; cbn [snd]; rewrite H2; cbn [snd]; rewrite H3; cbn [snd]; rewrite H4. }
    rewrite <- Hrun in Hv. apply run_verified in Hv as [?|(r & Hr & _)]; [done| |by repeat constructor].
    unfold qs in Hr. rewrite !elem_of_cons, elem_of_nil in Hr. naive_solver. }
  unfold after_text. rewrite Hv. do 2 apply list_elem_of_further. by apply list_elem_of_here.
Qed.

(** The part of the command from the failure on. *)
Lemma failover_reports {M : World} fixture c : registry_bounded (co_authority c) -> co_apply_steps c = [] ->
  ou_exit (@demo_failover M fixture c) = kExitOk ->
  "fenced_identity_generation_1=true"%string ∈ ou_out (@demo_failover M fixture c) /\
  "restore_after_apply_effect_verified=false"%string ∈ ou_out (@demo_failover M fixture c).
Proof.
  intros Hb Hs. unfold demo_failover, demo_world. intros H.
  apply attempt_inv in H as ([] & c1 & H1 & -> & H). apply attempt_inv in H as ([] & c2 & H2 & -> & H).
  apply attempt_inv in H as (o & c3 & H3 & -> & H). rewrite said_exit in H.
  set (W := manual_clock M) in *. destruct (assess_identity 1 c3) as [assessed c4] eqn:H4. rewrite said_exit in H.
  set (qs := [InstallTopology (fx_topology fixture); InstallCandidates (fx_candidates fixture)]).
  assert (Hc2 : @serve_all W qs c = c2).
  { unfold serve_all, qs. cbn [foldl serve answer snd]. by rewrite H1; cbn [snd]; rewrite H2. }
  assert (Hb2 : registry_bounded (co_authority c2))
    by (rewrite <- Hc2; apply (lt_bounded _ _ (@serve_all_later W qs c ltac:(by repeat constructor))), Hb).
  destruct (declared_retires _ _ _ _ Hb2 H3) as ([Hf _] & _ & _). cbn [fixture_declaration fd_subject] in Hf. split.
  - apply said_here, elem_of_app. right. apply elem_of_app. right. unfold generations_text. rewrite Hf. by apply list_elem_of_here.
  - apply said_later, said_later, reconstruct_unverified; [|done]. intros Hv.
    set (qs' := qs ++ [DeclareFailure (fixture_declaration fixture); AssessIdentity 1]).
    assert (Hc4 : @serve_all W qs' c = c4).
    { unfold qs'. rewrite serve_all_app, Hc2. unfold serve_all. cbn [foldl serve answer snd]. by rewrite H3; cbn [snd]; rewrite H4. }
    rewrite <- Hc4 in Hv. apply run_verified in Hv as [(e & He & _)|(r & Hr & _)]; [rewrite Hs in He; by apply elem_of_nil in He| |
      by repeat constructor]. unfold qs', qs in Hr. cbn [app] in Hr. rewrite !elem_of_cons, elem_of_nil in Hr. naive_solver.
Qed.

Lemma demo_paths_nonneg args seed n durable : demo_arguments args = inr (seed, n, durable) -> 0 <= n.
Proof.
  unfold demo_arguments. destruct (command_parse _ _ _) as [|options]; [done|]. destruct (if has_option "seed" options then _ else _); [|done].
  destruct (optional_size "paths" 2 options) eqn:E; [|done]. intros [= _ <- _]. by eapply optional_size_nonneg; [|exact E].
Qed.

(** What a demonstration that exits 0 has shown. Whatever the machine, the
    generator, the options and the journal it runs on (as long as that holds no
    grant, which this runtime never writes, and no receipt of an earlier
    application): it reported that the order of its inputs made no difference and
    that the failed generation is fenced, and after the plan was applied, before
    its verification was recorded, it did not report the effect as verified. *)
Theorem demo_reports_truthfully {M : World} {G : Shuffle} (disk : Disk) (args : list string) (seed n : Z) (durable : string)
  (rs : list DurableRecord) :
  demo_arguments args = inr (seed, n, durable) ->
  @recovered (manual_clock M) (driver_config (path_of durable) limits_defaults) disk rs -> no_grants rs -> no_receipts rs ->
  ou_exit (run_demo disk args) = kExitOk ->
  let shown line := line ∈ ou_out (run_demo disk args) in
  shown "input_order_invariant=true"%string /\ shown "fenced_identity_generation_1=true"%string /\
  shown "restore_after_apply_effect_verified=false"%string.
Proof.
  intros Ha Hrec Hng Hnr. pose proof (demo_paths_nonneg _ _ _ _ Ha) as Hn. unfold run_demo. rewrite Ha. unfold demo_command.
  rewrite (fixture_same G G n (Z.lxor seed 0x5deece66d) seed Hn).
  destruct (build_fixture n seed limits_defaults) as [error|fixture]; [done|]. rewrite !Z.eqb_refl. cbn [andb negb].
  rewrite !said_exit. unfold open_coordinator, demo_world.
  destruct (@open (manual_clock M) _ disk) as [[[[]|status] c]|] eqn:Ho; [|done..]. intros Hx.
  assert (Hb : registry_bounded (co_authority c))
    by (eapply (@opened_bounded (manual_clock M)); [exact Ho|exact Hrec|exact Hng|vm_compute; congruence]).
  assert (Hs : co_apply_steps c = []).
  { destruct (open_starts _ _ _ Ho) as (rs' & Hrec' & Hst). rewrite (sf_apply_steps _ _ _ Hst).
    rewrite (recovered_same _ _ _ _ Hrec' Hrec). by apply recover_no_steps. }
  destruct (failover_reports fixture c Hb Hs Hx) as [Hf Hv]. cbn zeta.
  split; [|split; by apply said_later, said_later]. apply said_here. unfold fixture_text. do 11 apply list_elem_of_further.
  by apply list_elem_of_here.
Qed.
