(* ===== verification/Selftest.v ===== *)
(** The command `sffctl selftest` and the dispatch of main (tools/sffctl.cpp):
    the script of checks the program runs on itself, over three coordinators
    (one in memory, two in turn over a scratch directory), and the theorem that
    its safety checks pass on every machine they are reached on. *)

From S2P Require Import Prelude Containers Core Generation Switch Authority Evidence Topology Bytes Integrity Records.
From S2P Require Import Journal Wire Decision Plan Policy Payloads Candidates Planner Validator Session.
From S2P Require Import Coordinator Failover Entries Runtime Fencing Restart Restoring Scenarios Fixture CommandLine Commands Serve Demo.

(** * The tally *)

(** [SelfCheck], with what it has printed. *)
Record SelfCheck := mkSelfCheck { sc_checks : Z; sc_failures : Z; sc_lines : list string }.

Definition check_line (condition : bool) (name : string) : string :=
  "selftest_check=" +:+ name +:+ " result=" +:+ (if condition then "PASS" else "FAIL").

(** [SelfCheck::check] *)
Definition self_check (condition : bool) (name : string) (t : SelfCheck) : SelfCheck :=
  mkSelfCheck (add64 (sc_checks t) 1) (if condition then sc_failures t else add64 (sc_failures t) 1)
    (sc_lines t ++ [check_line condition name]).

(** `std::cout << "selftest_failures=" << ...; return kExitRefused;` *)
Definition stop_short (t : SelfCheck) : Outcome :=
  mkRun (sc_lines t ++ ["selftest_failures=" +:+ dec (sc_failures t)]) [] kExitRefused.

Definition conclude (t : SelfCheck) : Outcome :=
  say (sc_lines t ++ ["selftest_checks=" +:+ dec (sc_checks t); "selftest_failures=" +:+ dec (sc_failures t)])
    (if negb (sc_failures t =? 0) then mkRun ["sffctl_status=refused"; "exit=" +:+ dec kExitRefused] [] kExitRefused else succeeded).

(** `result.ok() && condition(result.value())` *)
Definition ok_and {A} (r : Result A) (condition : A -> bool) : bool :=
  match r with Value a => condition a | Refused _ => false end.

Definition is_ok {A} (r : Result A) : bool := ok_and r (fun _ => true).

(** * The checks *)

Definition check_fixture (fixture reordered : Fixture) (t : SelfCheck) : SelfCheck :=
  let t := self_check (tp_digest (fx_topology fixture) =? tp_digest (fx_topology reordered)) "topology_digest_is_order_independent" t in
  let t := self_check (ct_digest (fx_candidates fixture) =? ct_digest (fx_candidates reordered)) "candidate_digest_is_order_independent" t in
  let t := self_check (negb (key_valid (mkSwitchKey (sk_id (fx_failed_switch fixture)) 0))) "generation_zero_is_never_valid" t in
  self_check ((sk_id (fx_newer_generation fixture) =? sk_id (fx_failed_switch fixture))
         && negb (bool_decide (fx_newer_generation fixture = fx_failed_switch fixture))) "identity_match_is_not_generation_match" t.

Definition advisory_declaration (fixture : Fixture) : FailureDeclaration :=
  let d := fixture_declaration fixture in
  mkDeclaration (fd_subject d) EvidenceSource.TelemetryCollector (fd_observed_at_ns d) (fd_valid_for_ns d) (fd_reason d).

Definition check_failover (fixture : Fixture) (o : FailoverOutcome) (authority : AuthorityRegistry) (t : SelfCheck) : SelfCheck :=
  let t := self_check (closure_complete (fo_closure o)) "closure_is_complete_for_the_fixture" t in
  let t := self_check (0 <? zlen (dc_dependents (fo_closure o))) "closure_has_dependents" t in
  let t := self_check (0 <? fo_grants_fenced o) "authority_bound_to_the_generation_is_fenced" t in
  let t := self_check (is_fenced authority (fx_failed_switch fixture)) "fence_applies_to_the_exact_generation" t in
  self_check (negb (is_fenced authority (fx_newer_generation fixture)))
    "fence_does_not_leak_to_another_generation_of_the_same_identity" t.

Definition check_plan (plan : ReconstructionPlan) (t : SelfCheck) : SelfCheck :=
  let t := self_check (bool_decide (pl_feasibility plan = PlanFeasibility.ProvenFeasible)) "plan_is_proven_feasible" t in
  let t := self_check (digest_valid plan) "plan_digest_is_valid" t in
  self_check (bool_decide (pl_unresolved plan = [])) "plan_has_no_unresolved_dependents" t.

Definition check_receipt (plan : ReconstructionPlan) (receipt : ApplyReceipt) (t : SelfCheck) : SelfCheck :=
  let t := self_check (ap_applied receipt =? zlen (pl_restores plan)) "every_step_was_acknowledged" t in
  let t := self_check (ap_verified receipt =? 0) "acknowledgement_is_not_verification" t in
  let t := self_check (ap_unverified receipt =? ap_applied receipt) "applied_steps_are_unverified" t in
  let t := self_check (bool_decide (ap_outcome receipt = Code.Unverified)) "apply_outcome_is_unverified" t in
  self_check (negb (fully_verified receipt)) "receipt_is_not_fully_verified" t.

Definition check_before (before : Result RestoreDecision) (found : Z * SwitchKey) (t : SelfCheck) : SelfCheck :=
  let t := self_check (ok_and before (fun d => negb (rd_may_restore d))) "restore_is_refused_before_independent_verification" t in
  let t := self_check (ok_and before (fun d => bool_decide (rd_outcome d = Code.Unverified))) "unverified_effect_is_an_explicit_outcome" t in
  self_check (key_valid found.2 && id_valid found.1) "demo_step_carries_attempt_and_replacement" t.

Definition selftest_verification (fixture : Fixture) (plan : ReconstructionPlan) (found : Z * SwitchKey) : EvidenceRecord :=
  mkEvidence 9000 EvidenceKind.EffectVerification EvidenceSource.SimulatedFixture found.2 0 boot_none kClockStartNs kEvidenceWindowNs
    SwitchHealthState.Unknown SwitchAdminState.Unknown 0 (fx_demo_dependent fixture) (pl_id plan) found.1
    "synthetic independent verification".

Definition check_after (recorded : bool) (after : Result RestoreDecision) (unknown_dependent : Result AuthorityQuery)
  (shut : bool) (t : SelfCheck) : SelfCheck :=
  let t := self_check recorded "verification_evidence_is_admitted" t in
  let t := self_check (ok_and after rd_may_restore) "restore_is_permitted_after_verification" t in
  let t := self_check (ok_and after rd_effect_verified) "restore_decision_records_verified_effect" t in
  let t := self_check (ok_and after (fun d => bool_decide (rd_outcome d = Code.Ok))) "restore_outcome_is_affirmative" t in
  let t := self_check (ok_and unknown_dependent (fun q => negb (aq_has_authority q))) "absent_authority_is_not_invented" t in
  let t := self_check (ok_and unknown_dependent (fun q => bool_decide (aq_outcome q = Code.NotFound))) "absent_authority_reports_not_found" t in
  self_check shut "coordinator_shuts_down" t.

Definition check_restart (fixture : Fixture) (c : Coordinator) (t : SelfCheck) : SelfCheck :=
  let report := co_restart c in
  let t := self_check (1 <=? rr_failures_restored report) "restart_restores_failure_lineage" t in
  let t := self_check (1 <=? rr_fences_restored report) "restart_restores_fence_lineage" t in
  let t := self_check (negb (rr_dynamic_evidence_restored report)) "restart_restores_no_dynamic_evidence" t in
  let t := self_check (rr_previous_epoch report <? rr_current_epoch report) "restart_advances_the_epoch" t in
  let t := self_check (is_fenced (co_authority c) (fx_failed_switch fixture)) "fence_survives_the_process_boundary" t in
  let t := self_check (active_grant_count (co_authority c) =? 0) "no_pre_restart_authority_is_active" t in
  self_check (failure_contains (co_failures c) (fx_failed_switch fixture)) "failure_lineage_survives_the_process_boundary" t.

Definition synthetic_record (fixture : Fixture) : DurableRecord :=
  mkRecord (mkHeader kRecordMagic kRecordFormatVersion (record_kind_raw RecordKind.FailureCommitted) 0 1 0 0)
    (encode_failure_record (mkFailureRecord (fx_failed_switch fixture) 1 1 (mkBoot 1 1 2 3) 100 200 "synthetic")).

(** `corrupted.back() ^ 0xffu` *)
Definition damage_last (bytes : list Z) : list Z :=
  take (length bytes - 1) bytes ++ [wrap8 (Z.lxor (default 0 (last bytes)) 255)].

Definition check_record (fixture : Fixture) (t : SelfCheck) : SelfCheck :=
  match encode_record (synthetic_record fixture) limits_defaults with
  | Refused _ => self_check false "record_encodes" t
  | Value encoded =>
      let t := self_check true "record_encodes" t in
      let t := self_check (decode_complete (decode_record (Some encoded) (zlen encoded) limits_defaults)) "record_decodes" t in
      let corrupted := damage_last encoded in
      let t := self_check (negb (decode_complete (decode_record (Some corrupted) (zlen corrupted) limits_defaults)))
                 "corrupted_record_is_refused" t in
      self_check (bool_decide (dr_disposition (decode_record (Some encoded) 4 limits_defaults) = DecodeDisposition.TornTail))
        "genuine_prefix_is_a_torn_tail" t
  end.

Definition check_taxonomy (t : SelfCheck) : SelfCheck :=
  let t := self_check (is_success Code.Ok) "only_ok_is_success" t in
  let t := self_check (forallb (fun code => negb (is_success code)) [Code.Unknown; Code.Stale; Code.Conflict; Code.Invalid;
                    Code.Unsupported; Code.Unverified]) "epistemic_outcomes_are_never_success" t in
  let t := self_check (forallb is_fail_closed [Code.Unknown; Code.Stale; Code.Fenced]) "fail_closed_covers_unknown_stale_and_fenced" t in
  self_check (forallb is_indeterminate [Code.Indeterminate; Code.SearchLimitReached]) "indeterminate_is_not_a_negative_conclusion" t.

(** * The script *)

Section pipeline.
Context {M : World}.

#[local] Instance selftest_world : World := manual_clock M.

(** From the receipt on. *)
Definition selftest_restore (fixture : Fixture) (plan : ReconstructionPlan) (receipt : ApplyReceipt) (c : Coordinator) (t : SelfCheck) :
  SelfCheck :=
  let t := check_receipt plan receipt t in
  let '(before, c) := evaluate_restore (fx_demo_dependent fixture) c in
  let found := demo_step (fx_demo_dependent fixture) (ap_steps receipt) in
  let t := check_before before found t in
  let '(recorded, c) := record_effect_verification (selftest_verification fixture plan found) c in
  let '(after, c) := evaluate_restore (fx_demo_dependent fixture) c in
  let '(unknown_dependent, c) := query_authority (dependent_service 4242) c in
  let '(shut, _) := shutdown c in
  check_after (is_ok recorded) after unknown_dependent (is_ok shut) t.

(** From the plan on; an early return is on the left. *)
Definition selftest_plan (fixture : Fixture) (c : Coordinator) (t : SelfCheck) : Outcome + SelfCheck :=
  let '(proposed, c) := propose_plan (fx_failed fixture) c in
  let t := self_check (is_ok proposed) "plan_is_proposed" t in
  match proposed with
  | Refused _ => inl (stop_short t)
  | Value plan =>
      let t := check_plan plan t in
      let '(validated, c) := co_validate_plan plan c in
      let t := self_check (ok_and validated vr_valid) "plan_revalidates_independently" t in
      let '(applied, c) := apply_plan plan c in
      let t := self_check (is_ok applied) "plan_applies" t in
      match applied with
      | Refused _ => inl (stop_short t)
      | Value receipt => inr (selftest_restore fixture plan receipt c t)
      end
  end.

(** The full pipeline on a fresh in-process coordinator. *)
Definition selftest_pipeline (disk : Disk) (fixture : Fixture) (t : SelfCheck) : Outcome + SelfCheck :=
  match open_coordinator [] limits_defaults disk with
  | inl _ => inl (stop_short (self_check false "coordinator_opens" t))
  | inr c =>
      let t := self_check true "coordinator_opens" t in
      let '(installed, c) := install_topology (fx_topology fixture) c in
      let t := self_check (is_ok installed) "topology_installs" t in
      let '(candidates, c) := install_candidates (fx_candidates fixture) c in
      let t := self_check (is_ok candidates) "candidates_install" t in
      let t := self_check (0 <? active_grant_count (co_authority c)) "topology_declaration_establishes_authority" t in
      let '(refused, c) := declare_failure (advisory_declaration fixture) c in
      let t := self_check (bool_decide (status_code (result_status refused) = Code.Unauthorized))
                 "advisory_observation_cannot_declare_failure" t in
      let '(failover, c) := declare_failure (fixture_declaration fixture) c in
      let t := self_check (is_ok failover) "failure_is_declared" t in
      match failover with
      | Refused _ => inl (stop_short t)
      | Value o => selftest_plan fixture c (check_failover fixture o (co_authority c) t)
      end
  end.

(** The first of the durable coordinators, and the disk it leaves. *)
Definition selftest_first (root : list string) (disk : Disk) (fixture : Fixture) (t : SelfCheck) : option (SelfCheck * Disk) :=
  match open (driver_config root limits_defaults) disk with
  | None => None
  | Some (Refused _, c) => Some (self_check false "durable_coordinator_opens" t, co_disk c)
  | Some (Value _, c) =>
      let t := self_check true "durable_coordinator_opens" t in
      let '(_, c) := install_topology (fx_topology fixture) c in
      let '(_, c) := install_candidates (fx_candidates fixture) c in
      let '(durable_failure, c) := declare_failure (fixture_declaration fixture) c in
      let t := self_check (is_ok durable_failure) "durable_failure_is_committed" t in
      let '(shut, c) := shutdown c in
      Some (self_check (is_ok shut) "durable_coordinator_shuts_down_cleanly" t, co_disk c)
  end.

Definition selftest_second (root : list string) (disk : Disk) (fixture : Fixture) (t : SelfCheck) : option SelfCheck :=
  match open (driver_config root limits_defaults) disk with
  | None => None
  | Some (Refused _, c) => Some (self_check false "durable_coordinator_reopens" t)
  | Some (Value _, c) =>
      let t := self_check true "durable_coordinator_reopens" t in
      let t := check_restart fixture c t in
      let '(shut, _) := shutdown c in
      Some (self_check (is_ok shut) "durable_coordinator_shuts_down_again" t)
  end.
End pipeline.

(** What the command meets: a machine per coordinator, the scratch directory and
    what is in it, and whether it could be removed. *)
Record SelftestMachine := mkSelftestMachine {
  sm_memory : World; sm_first : World; sm_second : World; sm_generator : Shuffle;
  sm_scratch : list string; sm_disk : Disk; sm_removed : bool
}.

(** From the durable coordinators on. *)
Definition selftest_durable (m : SelftestMachine) (fixture : Fixture) (t : SelfCheck) : option Outcome :=
  match @selftest_first (sm_first m) (sm_scratch m) (sm_disk m) fixture t with
  | None => None
  | Some (t, disk) =>
      match @selftest_second (sm_second m) (sm_scratch m) disk fixture t with
      | None => None
      | Some t =>
          let t := self_check (sm_removed m) "scratch_directory_was_removed" t in
          Some (conclude (check_taxonomy (check_record fixture t)))
      end
  end.

Definition built_checks : SelfCheck :=
  self_check true "fixture_builds_reordered" (self_check true "fixture_builds" (mkSelfCheck 0 0 [])).

(** Everything from the fixture on. *)
Definition selftest_script (m : SelftestMachine) (fixture reordered : Fixture) : option Outcome :=
  match @selftest_pipeline (sm_memory m) (sm_disk m) fixture (check_fixture fixture reordered built_checks) with
  | inl early => Some early
  | inr t => selftest_durable m fixture t
  end.

(** [run_selftest]. [None] is the replay loop out of fuel, or a fixture that
    could not be built, which does not happen ([fixture_built]). *)
Definition run_selftest (m : SelftestMachine) (args : list string) : option Outcome :=
  match command_parse args 2 [] with
  | inl error => Some (usage_error error)
  | inr _ =>
      match @build_fixture (sm_generator m) 2 7 limits_defaults, @build_fixture (sm_generator m) 2 0xabcdef limits_defaults with
      | inr fixture, inr reordered => say ["sffctl_command=selftest"; "synthetic=true"] <$> selftest_script m fixture reordered
      | _, _ => None
      end
  end.

(** * The dispatch *)

Inductive SffctlCommand := RunDemo | RunReplay | RunPlan | RunServe | RunQuery | RunStop | RunSelftest.

Definition command_named (command : string) : option SffctlCommand :=
  if bool_decide (command = "demo") then Some RunDemo
  else if bool_decide (command = "replay") then Some RunReplay
  else if bool_decide (command = "plan") then Some RunPlan
  else if bool_decide (command = "serve") then Some RunServe
  else if bool_decide (command = "query") then Some RunQuery
  else if bool_decide (command = "stop") then Some RunStop
  else if bool_decide (command = "selftest") then Some RunSelftest
  else None.

(** [main], for what a command returns or, on the left, the text of the exception it throws. *)
Definition sffctl_main (run : SffctlCommand -> list string -> string + Outcome) (args : list string) : Outcome :=
  match args with
  | _ :: command :: _ =>
      match command_named command with
      | Some name => match run name args with inr o => o | inl what => mkRun [] ["sffctl: " +:+ what] kExitRefused end
      | None => usage_error ("unknown command " +:+ quoted_text command)
      end
  | _ => usage_error "a command is required"
  end.

(** * What the command reports *)

(** The checks that pass wherever they are reached. *)
Definition safe_checks : list string :=
  ["fixture_builds"; "fixture_builds_reordered"; "topology_digest_is_order_independent"; "candidate_digest_is_order_independent";
   "generation_zero_is_never_valid"; "identity_match_is_not_generation_match"; "fence_applies_to_the_exact_generation";
   "no_pre_restart_authority_is_active"; "record_encodes"; "record_decodes"; "corrupted_record_is_refused";
   "genuine_prefix_is_a_torn_tail"; "only_ok_is_success"; "epistemic_outcomes_are_never_success";
   "fail_closed_covers_unknown_stale_and_fenced"; "indeterminate_is_not_a_negative_conclusion"].

Definition free_of_failures (lines : list string) : Prop := forall name, name ∈ safe_checks -> check_line false name ∉ lines.
Definition safe (t : SelfCheck) : Prop := free_of_failures (sc_lines t).

(** ** Lines *)

Lemma append_same_length (a b x y : string) : a +:+ x = b +:+ y -> String.length x = String.length y -> a = b /\ x = y.
Proof.
  assert (Hlen : forall u v : string, String.length (u +:+ v) = (String.length u + String.length v)%nat)
    by (intros u v; induction u as [|ch u IH]; [done|exact (f_equal S IH)]).
  revert b. induction a as [|ch a IH]; intros [|ch' b] H Hl.
  - by split.
  - exfalso. change (x = String.String ch' (b +:+ y)) in H. subst x. cbn [String.length] in Hl. rewrite Hlen in Hl. lia.
  - exfalso. change (String.String ch (a +:+ x) = y) in H. subst y. cbn [String.length] in Hl. rewrite Hlen in Hl. lia.
  - injection H as -> H. by destruct (IH b H Hl) as [-> ->].
Qed.

Lemma check_line_inj condition name name' : check_line condition name = check_line false name' -> condition = false /\ name = name'.
Proof.
  unfold check_line. intros H. apply (append_same_length "selftest_check=" "selftest_check=") in H as [_ H].
  - apply append_same_length in H as [-> H]; destruct condition; done.
  - assert (String.length ("selftest_check=" +:+ (name +:+ " result=" +:+ (if condition then "PASS" else "FAIL"))) = 
      String.length ("selftest_check=" +:+ (name' +:+ " result=" +:+ "FAIL"))) as E by by rewrite H.
    injection E. done.
Qed.

Lemma free_app l k : free_of_failures l -> free_of_failures k -> free_of_failures (l ++ k).
Proof. intros Hl Hk name Hn [H|H]%elem_of_app; [by apply (Hl name)|by apply (Hk name)]. Qed.

Lemma safe_check condition name t : safe t -> (if bool_decide (name ∈ safe_checks) then condition else true) = true ->
  safe (self_check condition name t).
Proof.
  intros Ht Hc. apply free_app; [done|]. intros n Hn H. apply list_elem_of_singleton in H. symmetry in H.
  apply check_line_inj in H as [-> ->]. by rewrite bool_decide_eq_true_2 in Hc.
Qed.

(** Apply [safe_check] as far as the names alone decide. *)
Ltac safe_steps := repeat (apply safe_check; [|reflexivity]).

(** ** Stages *)

Lemma fixture_built (G : Shuffle) seed : exists f, @build_fixture G 2 seed limits_defaults = inr f /\
  fx_failed_switch f = failed_leaf /\ fx_newer_generation f = newer_leaf.
Proof.
  rewrite (fixture_same G in_order 2 seed 1) by lia. pose proof fixture_in_order_built as H.
  destruct (@build_fixture in_order 2 1 limits_defaults) as [e|f] eqn:E; [done|]. exists f. split; [done|]. revert E. unfold build_fixture.
  destruct (64 <? _); [done|]. destruct (build _ _ _ _ _ _); [|done]. by destruct (table_build _ _); [intros [= <-]|].
Qed.

Lemma safe_fixture f t : fx_failed_switch f = failed_leaf -> fx_newer_generation f = newer_leaf -> safe t -> safe (check_fixture f f t).
Proof.
  intros Hf Hn Ht. unfold check_fixture. rewrite Hf, Hn, !Z.eqb_refl. by safe_steps.
Qed.

Lemma safe_failover f o r t : is_fenced r (fx_failed_switch f) = true -> safe t -> safe (check_failover f o r t).
Proof. intros Hf Ht. unfold check_failover. rewrite Hf. by safe_steps. Qed.

Lemma withdrawn_values r test set_grant :
  map_values (ar_grants (withdraw_where r test set_grant).2) = (fun g => if test g then set_grant g else g) <$> map_values (ar_grants r).
Proof. cbn. unfold map_values, map_update. by rewrite <- !list_fmap_compose. Qed.

(** A restored registry counts no Active grant, whatever was restored. *)
Lemma restored_count policy r : active_grant_count (restored_authority policy r) = 0.
Proof.
  set (dormant (x : AuthorityRegistry) := Forall (fun g => ag_state g <> GrantState.Active) (map_values (ar_grants x))).
  assert (Hi : dormant (invalidate_pre_restart r).2).
  { unfold dormant, invalidate_pre_restart. rewrite withdrawn_values. apply Forall_fmap, Forall_true. intros g. cbn. by case_bool_decide. }
  assert (Hr : dormant (restored_authority policy r)).
  { unfold restored_authority. cbn zeta. destruct (po_fence_on_restart policy); [|done]. revert Hi.
    generalize (invalidate_pre_restart r).2. intros x Hx. unfold dormant, withdraw_all. rewrite withdrawn_values. apply Forall_fmap.
    eapply Forall_impl; [exact Hx|]. intros g Hg. cbn. case_match; [apply (withdrawn_state_not_active RevocationCause.Restart)|done]. }
  unfold active_grant_count. replace (filter _ _) with (@nil AuthorityGrant); [done|]. symmetry. apply empty_iff.
  intros g [Ha Hin]%list_elem_of_filter. unfold dormant in Hr. rewrite Forall_forall in Hr. by apply (Hr g Hin).
Qed.

Lemma safe_restart {M : World} root disk f c t : @open (manual_clock M) (driver_config root limits_defaults) disk = Some (Value tt, c) ->
  safe t -> safe (check_restart f c t).
Proof.
  intros Ho Ht. destruct (open_starts _ _ _ Ho) as (rs & _ & Hs). unfold check_restart.
  rewrite (sf_authority _ _ _ Hs), restored_count. by safe_steps.
Qed.

Lemma safe_record f t : fx_failed_switch f = failed_leaf -> safe t -> safe (check_record f t).
Proof.
  intros Hf Ht. unfold check_record, synthetic_record. rewrite Hf.
  set (e := encode_record _ _). vm_compute in e. subst e. cbv beta iota zeta. by safe_steps.
Qed.

Lemma safe_taxonomy t : safe t -> safe (check_taxonomy t).
Proof. intros Ht. unfold check_taxonomy. by safe_steps. Qed.

Lemma free_stop t : safe t -> free_of_failures (ou_out (stop_short t)).
Proof. intros Ht. apply free_app; [done|]. by intros name _ ?%list_elem_of_singleton. Qed.

Lemma free_conclude t : safe t -> free_of_failures (ou_out (conclude t)).
Proof.
  intros Ht. apply free_app; [apply free_app; [done|]|].
  - intros name _. rewrite !elem_of_cons, elem_of_nil. by intros [?|[?|?]].
  - intros name _. destruct (negb _); cbn [ou_out succeeded]; rewrite !elem_of_cons, elem_of_nil; by intros [?|[?|?]].
Qed.

(** A part of the script that may return early. *)
Definition free_of (r : Outcome + SelfCheck) : Prop :=
  match r with inl early => free_of_failures (ou_out early) | inr t => safe t end.

Lemma safe_plan {M : World} f c t : safe t -> free_of (@selftest_plan M f c t).
Proof.
  intros Ht. unfold selftest_plan. destruct (propose_plan _ c) as [[plan|st] c1]; cbn zeta.
  - destruct (co_validate_plan plan c1) as [validated c2]. destruct (apply_plan plan c2) as [[receipt|st] c3].
    + unfold selftest_restore. cbn zeta. destruct (evaluate_restore _ c3) as [before c4].
      destruct (record_effect_verification _ c4) as [recorded c5]. destruct (evaluate_restore _ c5) as [after c6].
      destruct (query_authority _ c6) as [unknown_dependent c7]. destruct (shutdown c7) as [shut c8].
      unfold free_of, check_after, check_before, check_receipt, check_plan. by safe_steps.
    + apply free_stop. unfold check_plan. by safe_steps.
  - apply free_stop. by safe_steps.
Qed.

Lemma safe_pipeline {M : World} disk f t : safe t -> free_of (@selftest_pipeline M disk f t).
Proof.
  intros Ht. unfold selftest_pipeline, open_coordinator, selftest_world. set (W := manual_clock M).
  destruct (open _ disk) as [[[[]|st] c]|] eqn:Ho; [|apply free_stop; by safe_steps..].
  destruct (install_topology _ c) as [installed c1] eqn:H1. destruct (install_candidates _ c1) as [candidates c2] eqn:H2. cbn zeta.
  destruct (declare_failure (advisory_declaration f) c2) as [refused c3] eqn:H3.
  destruct (declare_failure (fixture_declaration f) c3) as [[o|st] c4] eqn:H4; [|apply free_stop; by safe_steps].
  apply safe_plan, safe_failover; [|by safe_steps].
  set (qs := [InstallTopology (fx_topology f); InstallCandidates (fx_candidates f); DeclareFailure (advisory_declaration f)]).
  assert (Hc3 : @serve_all W qs c = c3).
  { unfold serve_all, qs. cbn [foldl serve answer snd]. by rewrite H1; cbn [snd]; rewrite H2; cbn [snd]; rewrite H3. }
  assert (Hb : registry_bounded (co_authority c))
    by (eapply (@opened_bounded W); [exact Ho|reflexivity|apply Forall_nil_2|vm_compute; congruence]).
  assert (Hb3 : registry_bounded (co_authority c3))
    by (rewrite <- Hc3; apply (lt_bounded _ _ (@serve_all_later W qs c ltac:(by repeat constructor))), Hb).
  by destruct (declared_retires _ _ _ _ Hb3 H4) as ([Hf _] & _ & _).
Qed.

Lemma free_durable m f t o : fx_failed_switch f = failed_leaf -> safe t -> selftest_durable m f t = Some o ->
  free_of_failures (ou_out o).
Proof.
  intros Hf Ht. unfold selftest_durable.
  destruct (selftest_first _ _ f t) as [[t1 disk]|] eqn:H1; [|done]. destruct (selftest_second _ disk f t1) as [t2|] eqn:H2; [|done].
  assert (Ht1 : safe t1).
  { revert H1. unfold selftest_first, selftest_world. destruct (@open _ _ _) as [[[[]|st] c]|]; [| |done].
    - destruct (install_topology _ c) as [r1 c1], (install_candidates _ c1) as [r2 c2], (declare_failure _ c2) as [r3 c3], (shutdown c3) as [r4 c4].
      intros [= <- _]. by safe_steps.
    - intros [= <- _]. by safe_steps. }
  assert (Ht2 : safe t2).
  { revert H2. unfold selftest_second, selftest_world. destruct (@open _ _ _) as [[[[]|st] c]|] eqn:Ho; [| |done].
    - destruct (shutdown c) as [r1 c1]. intros [= <-]. apply safe_check; [|reflexivity]. apply (@safe_restart (sm_second m) _ _ _ _ _ Ho). by safe_steps.
    - intros [= <-]. by safe_steps. }
  intros <-%(inj Some). apply free_conclude, safe_taxonomy, safe_record; [done|]. by safe_steps.
Qed.

Lemma safe_built : safe built_checks.
Proof. unfold built_checks. safe_steps. by intros name _ ?%elem_of_nil. Qed.

Lemma free_script m f o : fx_failed_switch f = failed_leaf -> fx_newer_generation f = newer_leaf ->
  selftest_script m f f = Some o -> free_of_failures (ou_out o).
Proof.
  intros Hf Hn. unfold selftest_script. pose proof (safe_fixture f _ Hf Hn safe_built) as Ht.
  pose proof (@safe_pipeline (sm_memory m) (sm_disk m) f _ Ht) as Hp. revert Hp.
  destruct (selftest_pipeline _ _ _) as [early|t]; intros Hp; [by intros <-%(inj Some)|by apply free_durable].
Qed.

Lemma free_say lines o : free_of_failures lines -> free_of_failures (ou_out o) -> free_of_failures (ou_out (say lines o)).
Proof. apply free_app. Qed.

Lemma free_title : free_of_failures ["sffctl_command=selftest"; "synthetic=true"]%string.
Proof. intros name _. rewrite !elem_of_cons, elem_of_nil. by intros [?|[?|?]]. Qed.

(** * Theorems *)

(** The safety checks of the program's own test pass wherever they are reached:
    on every machine and generator and whatever the scratch directory holds, the
    command never prints that one of [safe_checks] failed; among them that the
    order of its inputs makes no difference, that a declared failure is fenced,
    that a restart leaves no Active grant, and that a damaged record is refused. *)
Theorem selftest_safe_checks_pass (m : SelftestMachine) (args : list string) (o : Outcome) (name : string) :
  run_selftest m args = Some o -> name ∈ safe_checks -> check_line false name ∉ ou_out o.
Proof.
  unfold run_selftest. destruct (command_parse args 2 []) as [error|options]; [intros [= <-] _; apply not_elem_of_nil|].
  rewrite (fixture_same (sm_generator m) (sm_generator m) 2 0xabcdef 7) by lia.
  destruct (fixture_built (sm_generator m) 7) as (f & -> & Hf & Hn).
  destruct (selftest_script m f f) as [o'|] eqn:Hs; [|done]. intros <-%(inj Some) Hin.
  exact (free_say _ _ free_title (free_script m f o' Hf Hn Hs) name Hin).
Qed.

(** The command depends on its machine and not on the generator. *)
Lemma selftest_generator a b c G G' scratch disk removed args :
  run_selftest (mkSelftestMachine a b c G scratch disk removed) args = run_selftest (mkSelftestMachine a b c G' scratch disk removed) args.
Proof.
  unfold run_selftest, selftest_script, selftest_durable.
  cbn [sm_generator sm_memory sm_first sm_second sm_scratch sm_disk sm_removed].
  rewrite (fixture_same G G' 2 7 7), (fixture_same G G' 2 0xabcdef 0xabcdef) by lia. reflexivity.
Qed.

Definition lab_selftest (G : Shuffle) : option Outcome :=
  run_selftest (mkSelftestMachine first_life first_life second_life G ["tmp"; "sffctl-selftest"] empty_disk true) ["sffctl"; "selftest"].

(** A command that succeeded and printed the lines. *)
Definition succeeds_with (lines : list string) (o : option Outcome) : bool :=
  match o with
  | Some o => (ou_exit o =? kExitOk) && forallb (fun line => existsb (String.eqb line) (ou_out o)) lines
  | None => false
  end.

(** Its 59 checks all pass, for every generator, where the machine answers. *)
Theorem selftest_passes (G : Shuffle) : succeeds_with ["selftest_checks=59"; "selftest_failures=0"] (lab_selftest G) = true.
Proof.
  unfold lab_selftest. rewrite (selftest_generator _ _ _ G in_order). vm_cast_no_check (eq_refl true).
Qed.
